(* ===== verification/_CoqProject ===== *)
-Q . S2P
Prelude.v
Errors.v
Common.v
Memory.v
Block.v
BlockBuilder.v
Iter.v
BlockIter.v
EntryDecode.v
SstFooter.v
SstBuilder.v
SstTree.v
SstBuilderCorrect.v
IndexTreeIter.v
IndexTreeCorrect.v
SstIter.v
SstRoundTrip.v
ScanLaws.v
ConcatIter.v
MergeIter.v
TwoMergeIter.v
MemTable.v
LsmScan.v
StableIter.v
DiskManager.v
Newest.v
LsmStore.v
LsmRefine.v
LsmScanRefine.v
LsmTheorems.v
LsmEngine.v
FlushWorker.v
LsmConc.v
LsmConcRefine.v
LsmConcTheorems.v
LsmConcSnapshot.v
MemLive.v
LsmEngineConc.v
MetaManager.v
WalFrame.v
WalFile.v
WalMeta.v
WalClock.v
WalBuffer.v
WalIndexFile.v
WalFlush.v
WalLog.v
WalLogInv.v
WalLogRun.v
WalLogTheorems.v
WalRead.v
WalTheorems.v
WalScan.v
WalScanTheorems.v
WalSync.v
RustText.v
WalPath.v
WalFd.v
Arrow.v
SystemTables.v
ServerTables.v
ServerQuery.v
ServerPg.v
SqlSession.v
ServerMain.v
Observability.v
AllocStats.v
