(* ===== verification/Prelude.v ===== *)
(** * todb: verification development

    todb is a database in Rust: a storage crate (an LSM tree per shard over
    sorted-string-table files, with its own write-ahead log), a SQL crate with
    the system tables, and a server that answers PostgreSQL clients through
    DataFusion. This library models the storage crate, the SQL crate, the
    server from its accept loop to its protocol responses, and the accounting,
    error and observability crates as Rocq functions and step relations, and
    proves what they promise to each other.

    ** The parts and how they meet

    A write reaches a shard's store (lsm_store.rs), which appends it to the log
    of its replication group and applies it to the active memtable
    (memtable.rs). A full memtable becomes immutable and is flushed to an SST
    file by the builder (builder/) over a block writer (block.rs); the disk
    manager (disk_manager.rs) names and opens the files. A scan merges the
    memtables and the SSTs through a tower of iterators (iterators/,
    lsm_iter.rs). The engine (lsm_engine.rs) holds the shards and starts a
    background thread (flush_worker.rs) that flushes them all from time to time,
    beside the writers; the metadata facade (meta_manager.rs) names tables and
    routes them. The source keeps these modules but lib.rs has lsm_engine,
    lsm_store, log_service, meta_manager and storage_layer commented out until
    the new log is connected to them. The log of
    src/crates/storage/src/wal/ is a lock-free append buffer, a flush thread
    that writes buffers to segments and indexes them, a block cache and an
    iterator for reading back. The server keeps its own in-memory tables behind
    DataFusion's catalog traits; it does not use the storage crate yet.

    ** Files

    Shared: Prelude (Rust results, bytes, slices, hints), Errors (errors.rs,
    wal/error.rs), Common (crates/common), Memory and AllocStats (crates/memory),
    Observability (crates/observability, crates/runtime, crates/rpc).

    Sorted string tables: Block (block.rs), BlockBuilder (data_block.rs,
    index_block.rs), Iter (storage_iter.rs as classes with laws), BlockIter,
    EntryDecode, SstFooter, SstBuilder (sst.rs, sst_writer.rs), SstTree (the
    abstract block tree of a file), SstBuilderCorrect, IndexTreeIter and
    IndexTreeCorrect (index_tree_iter.rs), SstIter (sst_iter.rs), SstRoundTrip.

    Store: ScanLaws and StableIter (contracts of composed iterators), ConcatIter,
    MergeIter, TwoMergeIter, MemTable (memtable.rs, map_iter.rs), LsmScan
    (lsm_iter.rs), DiskManager, Newest, LsmStore (lsm_store.rs, lsm_state.rs,
    write_batch.rs), LsmRefine and LsmScanRefine (the abstract map and the
    refinement), LsmTheorems, LsmEngine, MetaManager (log_service.rs,
    storage_layer.rs, meta_manager.rs).

    Store, concurrently: FlushWorker (flush_worker.rs, flush_scheduler.rs and
    [LsmEngine::init]), LsmConc (the steps of [write] and [flush_oldest_imm]
    that other threads can come between, over shared memtables), LsmConcRefine
    (what each step does to the abstract map), LsmConcTheorems, LsmConcSnapshot,
    LsmEngineConc (the shards of an engine together), MemLive (an iterator of
    memtable.rs on the live skip list, with insertions cut into the skip list's
    removal and insertion).
    A thread is a program counter; a run is a sequence of steps of any threads,
    labelled with the batches logged and the entries inserted.

    Log: WalFrame (lsn.rs, frame.rs, config.rs), WalFile (files, system calls
    and crashes), WalMeta (index.rs, segment.rs), WalClock (disk.rs), WalBuffer
    (buffer.rs and the append of impl.rs), WalIndexFile (odirect_writer.rs),
    WalFlush (the flush thread of impl.rs), WalLog, WalLogInv, WalLogRun and
    WalLogTheorems (the facade of impl.rs and its runs), WalRead, WalTheorems,
    WalScan and WalScanTheorems (iter.rs, index_reader.rs), WalSync (a call of
    [Wal::sync] on everything it waits for), WalPath (the file names of index.rs,
    record.rs), WalFd (the descriptors of segment.rs and odirect_writer.rs).

    Server: RustText (numbers as text), Arrow (the interface of Arrow and
    DataFusion), SystemTables (crates/sql/src/catalog/mod.rs), ServerTables
    (provider.rs, schema_provider.rs, catalog_provider.rs, engine.rs),
    ServerQuery (query.rs), ServerPg (executor.rs, pgwire.rs), SqlSession (the
    sessions of the SQL crate, engine.rs and query.rs, version.rs), ServerMain
    (main.rs, config.rs, client_session.rs, error.rs).

    Records follow the structs and inductive types the enums; every operation
    is one definition with the branches of the source. [res] has the three
    outcomes of a Rust call: [Ok], [Err] and [Panic] (a failed assertion, an
    index out of range, an overflow in the checked profile). State that the
    code mutates is passed explicitly and returned also with an error, so that
    the effects of a call that fails are there.

    ** What the theorems show

    - C1, C2: what the SST builder writes is what a scan or a seek reads, forward
      and backward, at any depth of the index tree.
    - C3 to C6: the store refines a map with last-writer-wins updates, over
      writes, failing writes, flushes and range scans.
    - C7 to C13: the store used by several threads. When every insertion reaches
      the active memtable, any interleaving refines the map (C7); one writer
      beside any number of sweepers always does (C8); a snapshot a reader keeps
      stays a state the store went through, under the proviso of C7 and but for
      the keys being overwritten (C9); an iterator on a memtable that is being
      written to lists, in order, every entry whose key nobody writes (C10);
      nothing deadlocks (C12); the shards of an engine do not disturb each other
      over their shared directory (C13, under the proviso of C7).
    - C11, C27, C28: the flush thread of the log. A flush within a segment, a
      flush that seals a segment and opens the next, and concurrent appends to a
      buffer, one step per atomic operation.
    - C14, C15: shards of an engine are isolated and none is lost; the background
      sweep empties the lists of immutable memtables and changes nothing a reader
      sees.
    - C16, C17: the flush worker stops when it is dropped, and racing calls of
      [init] leave exactly one.
    - C18, C19: the table catalog: creating tables, and tables by name as a map
      from names to key-value maps.
    - C20 to C24: runs of one client thread and the flush thread from an empty
      directory, on files that work, refine an append-only list, under sync and
      close, with obstruction-free appends; a sync whose swap ends returns, on
      any outcome.
    - C25, C26: what was appended and flushed is read back, and a scan lists it,
      for records that fit the block cache.
    - C29 to C33: frames, segment headers that survive a crash at any point of
      their double write, the descriptors of a segment on every outcome, and
      sealed indexes.
    - C34, C35: the block cache over any interleaving of readers.
    - C36 to C39: the server. Its tables answer every sequence of calls as a
      plain database, given as a relation of its own; a query engine serves the system tables its definitions
      describe; statements are answered by their first word; protocol rows carry
      the cells they were made from.
    - C40: memory contexts form trees with unique ids.

    Theorems that are not numbered and follow a component show where the code
    does not do what it means to (an acknowledged write lost when another thread
    flushes the memtable of its snapshot, a sweep thread that is never stopped,
    file names out of order, a second seek on a deep index tree, stale
    versions listed first across level-0 SSTs, an append that waits for its own
    buffer, a sync that waits for a free buffer without a deadline, a flush
    thread that panics, a record larger than the block cache, text cells that become
    numbers, dates that are sent as the word NULL, a key that a scan misses while
    it is overwritten, descriptors that leak or run out, a server that ends at
    its first failed accept).

    ** Fuel, bounds and parameters

    [index_fuel] is the height the index tree can reach when an entry is
    promoted, so the recursion through the levels ends by itself; the reverse
    seek of an SST has 1000 rounds and is proved to need two. The skipping
    loops of merges and scans take [rounds]; C6 requires more rounds than the
    store has entries, and then no loop runs out. [drain] and the other
    collections of iterators take fuel, and the theorems hold for every fuel from
    the number of entries on, so the end is observed. [victim_loop] has two rounds of
    the frames, as the source. [client_run] of C24 has four turns, the most an
    append needs; [write_alone] has two steps per entry and twelve more;
    [sync_rounds] of C22 is the deadline over the poll interval, plus one.
    [run_fits] bounds the entries of a run of the store by what an SST file can
    hold. Runs of the log are bounded by 2^30 records so that 32-bit
    fields of a segment index do not overflow. [float_to_string] searches at
    most 800 digits, more than any double has.

    Code that is not in the repository is a class with laws and an instance that
    satisfies them: the skip list ([OrderedMap]), the checksum ([Crc32]), the
    log behind the store ([WalStore], [WalOpen]), Arrow and DataFusion
    ([Arrow], [DataFusion]), YAML values ([Yaml]), JSON numbers ([Json]), the row
    encoder ([Encoder]), the metrics library ([Prometheus]). The operating system
    is a script of outcomes per call; memory that is not initialised holds any
    bytes.

    ** Not modelled

    Threads and timers themselves: interleavings are step relations, deadlines
    and wake-ups are nondeterministic (the waits of sync apart). Building an
    SST from a memtable is one step of a run, and reads no memtable in the middle
    of an overwrite. A store holds its log by value, where the shards of a group
    share one; a log scan takes the index as it is when it is opened; the block
    cache knows one unchanging file per segment id; the size of a memtable does
    not wrap. Runs of the log have one client thread (C28 has any number). Recovery of the log after a crash
    is not in the source. Scans of sealed segments stop at their first step,
    because the source opens the wrong file. Addresses of raw memory and lock
    poisoning in the storage crate. How DataFusion plans and runs statements,
    what the PostgreSQL library does with a connection, the futures that the
    runtime crate passes to tokio, and the build script, which runs git. *)

From stdpp Require Import base list numbers strings pretty.
From coqutil Require Import Byte Word.LittleEndianList.

(** ** Rust results

    A call of a Rust function that returns [Result<T, E>] has three outcomes:
    it returns [Ok], returns [Err], or unwinds (a failed [assert!],
    [debug_assert!], [unwrap], an index out of range, an arithmetic overflow).
    [res] keeps the three apart. *)

Inductive res (E A : Type) : Type :=
| Ok (a : A)
| Err (e : E)
| Panic.
Arguments Ok {E A} a.
Arguments Err {E A} e.
Arguments Panic {E A}.

(** The [?] operator: continue with the value, propagate everything else. *)
Definition rbind {E A B : Type} (r : res E A) (k : A -> res E B) : res E B :=
  match r with
  | Ok a => k a
  | Err e => Err e
  | Panic => Panic
  end.

(** [Result::map_err]. *)
Definition map_err {E F A : Type} (f : E -> F) (r : res E A) : res F A :=
  match r with
  | Ok a => Ok a
  | Err e => Err (f e)
  | Panic => Panic
  end.

(** [Option::unwrap] (and [expect]): [None] unwinds. *)
Definition unwrap {E A : Type} (o : option A) : res E A :=
  match o with
  | Some a => Ok a
  | None => Panic
  end.

(** [Option::ok_or_else]. *)
Definition ok_or {E A : Type} (e : E) (o : option A) : res E A :=
  match o with
  | Some a => Ok a
  | None => Err e
  end.

(** [assert!] and [debug_assert!]. *)
Definition rassert {E : Type} (b : bool) : res E unit :=
  if b then Ok tt else Panic.

Declare Scope res_scope.
Delimit Scope res_scope with res.
Notation "x <-- e ;; k" := (rbind e (fun x => k))
  (at level 100, e at next level, right associativity) : res_scope.
Notation "'let!' p := e 'in' k" := (rbind e (fun x => match x with p => k end))
  (at level 10, p pattern, e at level 200, k at level 200) : res_scope.
Notation "e ;;; k" := (rbind e (fun _ => k))
  (at level 100, right associativity) : res_scope.
Open Scope res_scope.

Section Res.
Context {E A B C : Type}.

Lemma rbind_Ok_inv (r : res E A) (k : A -> res E B) (b : B) :
  rbind r k = Ok b -> exists a, r = Ok a /\ k a = Ok b.
Proof. destruct r; simpl; try discriminate. eauto. Qed.

Lemma rbind_assoc (r : res E A) (f : A -> res E B) (g : B -> res E C) :
  rbind (rbind r f) g = rbind r (fun a => rbind (f a) g).
Proof. by destruct r. Qed.

Lemma unwrap_Ok_inv (o : option A) (a : A) :
  unwrap (E := E) o = Ok a -> o = Some a.
Proof. destruct o; simpl; congruence. Qed.

Lemma rassert_true (b : bool) : b = true -> rassert (E := E) b = Ok tt.
Proof. by intros ->. Qed.

Lemma rassert_Ok_inv (b : bool) : rassert (E := E) b = Ok tt -> b = true.
Proof. by destruct b. Qed.
End Res.

(** Splits a hypothesis [_ <-- e ;; k = Ok _] into its steps. *)
Ltac res_inv H :=
  lazymatch type of H with
  | rbind _ _ = Ok _ =>
      let a := fresh "a" in let H1 := fresh H in
      apply rbind_Ok_inv in H as (a & H1 & H); res_inv H1; res_inv H
  | unwrap _ = Ok _ => apply unwrap_Ok_inv in H
  | Ok _ = Ok _ => injection H as H
  | _ => idtac
  end.

(** [collect::<Result<_, _>>()] over a map: stop at the first failure. *)
Fixpoint rmap {E A B : Type} (f : A -> res E B) (l : list A) : res E (list B) :=
  match l with
  | [] => Ok []
  | x :: l' => y <-- f x ;; ys <-- rmap f l' ;; Ok (y :: ys)
  end.

Lemma rmap_Ok {E A B} (f : A -> res E B) (l : list A) (ys : list B) :
  rmap f l = Ok ys <-> Forall2 (fun x y => f x = Ok y) l ys.
Proof.
  revert ys. induction l as [|x l IH]; intros ys; simpl.
  - split; [by intros [= <-]|by inversion 1].
  - split.
    + intros Hr. destruct (f x) eqn:Hx; simpl in Hr; try done.
      destruct (rmap f l) eqn:Hl; simpl in Hr; try done.
      injection Hr as <-. constructor; [done|by apply IH].
    + inversion 1 as [|? y ? ys' Hx Hl]; subst. rewrite Hx. simpl.
      apply IH in Hl. by rewrite Hl.
Qed.

Lemma rmap_total {E A B} (f : A -> res E B) (l : list A) :
  (forall x, x ∈ l -> exists y, f x = Ok y) -> exists ys, rmap f l = Ok ys.
Proof.
  induction l as [|x l IH]; intros Hf; simpl; [by eexists|].
  destruct (Hf x) as [y ->]; [by left|]. destruct IH as [ys ->]; [|by eexists].
  intros z Hz. apply Hf. by right.
Qed.

(** [for x in l { state = f(state, x)? }]. *)
Fixpoint rfold {E S A : Type} (f : S -> A -> res E S) (l : list A) (s : S) : res E S :=
  match l with
  | [] => Ok s
  | x :: l' => s' <-- f s x ;; rfold f l' s'
  end.

Lemma rfold_app {E S A} (f : S -> A -> res E S) (l1 l2 : list A) (s : S) :
  rfold f (l1 ++ l2) s = (s' <-- rfold f l1 s ;; rfold f l2 s').
Proof.
  revert s. induction l1 as [|x l1 IH]; intros s; simpl; [done|].
  destruct (f s x); simpl; auto.
Qed.

(** ** Bytes *)

Abbreviation u8 := Byte.byte.
Abbreviation bytes := (list u8).

#[export] Instance byte_eq_decision : EqDecision byte := Byte.byte_eq_dec.

(** The numeric value of a byte. *)
Definition u8_val (b : u8) : Z := byte.unsigned b.

(** Widths of the machine integers. *)
Definition u32_max : Z := 2 ^ 32 - 1.
Definition u64_max : Z := 2 ^ 64 - 1.
Definition is_u32 (z : Z) : Prop := (0 <= z <= u32_max)%Z.
Definition is_u64 (z : Z) : Prop := (0 <= z <= u64_max)%Z.

(** [u64::add] in the checked profile: an overflow unwinds. *)
Definition u64_add {E : Type} (a b : Z) : res E Z :=
  if decide (a + b <= u64_max)%Z then Ok (a + b)%Z else Panic.

(** [to_le_bytes], [from_le_bytes], [to_be_bytes], [from_be_bytes] at a width
    of [n] bytes. The encoders keep the low [n] bytes, which is what an [as]
    cast to the width followed by [to_xe_bytes] does. *)
Definition le_bytes (n : nat) (z : Z) : bytes := le_split n z.
Definition of_le_bytes (l : bytes) : Z := le_combine l.
Definition be_bytes (n : nat) (z : Z) : bytes := rev (le_split n z).
Definition of_be_bytes (l : bytes) : Z := le_combine (rev l).

Arguments le_bytes : simpl never.
Arguments of_le_bytes : simpl never.
Arguments be_bytes : simpl never.
Arguments of_be_bytes : simpl never.

Create Rewrite HintDb len.

(** Length goals: rewrite every length to arithmetic, then [lia]. *)
Ltac len := autorewrite with len; simpl; try lia.

Lemma length_le_bytes n z : length (le_bytes n z) = n.
Proof. apply length_le_split. Qed.

Lemma length_be_bytes n z : length (be_bytes n z) = n.
Proof. unfold be_bytes. rewrite length_rev. apply length_le_split. Qed.

#[export] Hint Rewrite length_le_bytes length_be_bytes @length_app @length_take
  @length_drop @length_replicate @length_fmap @length_reverse @length_insert : len.

Lemma of_le_le_bytes n z :
  (0 <= z < 2 ^ (Z.of_nat n * 8))%Z -> of_le_bytes (le_bytes n z) = z.
Proof.
  intros Hz. unfold of_le_bytes, le_bytes. rewrite le_combine_split.
  by apply Z.mod_small.
Qed.

Lemma of_be_be_bytes n z :
  (0 <= z < 2 ^ (Z.of_nat n * 8))%Z -> of_be_bytes (be_bytes n z) = z.
Proof.
  intros Hz. unfold of_be_bytes, be_bytes. rewrite rev_involutive.
  by apply of_le_le_bytes.
Qed.

Lemma of_be_bytes_range l :
  (0 <= of_be_bytes l < 2 ^ (8 * Z.of_nat (length l)))%Z.
Proof.
  unfold of_be_bytes. rewrite <- (length_rev l). apply le_combine_bound.
Qed.

#[global] Opaque le_bytes of_le_bytes be_bytes of_be_bytes.

(** ** Slices

    [&buf[a..b]]: unwinds unless [a <= b <= buf.len()]. *)

Definition slice {E A : Type} (buf : list A) (a b : nat) : res E (list A) :=
  if decide (a <= b /\ b <= length buf) then Ok (take (b - a) (drop a buf)) else Panic.

(** [Vec::resize] / [BytesMut::resize]: truncate or pad. *)
Definition resize (n : nat) (x : byte) (buf : bytes) : bytes :=
  take n buf ++ replicate (n - length buf) x.

(** [buf[i..i + src.len()].copy_from_slice(src)] for an in-range window. *)
Definition splice {A : Type} (buf : list A) (i : nat) (src : list A) : list A :=
  take i buf ++ src ++ drop (i + length src) buf.

Lemma length_resize n x buf : length (resize n x buf) = n.
Proof. unfold resize. len. Qed.
#[export] Hint Rewrite length_resize : len.

Lemma resize_le n x buf :
  length buf <= n -> resize n x buf = buf ++ replicate (n - length buf) x.
Proof. intros H. unfold resize. by rewrite take_ge. Qed.

Section Slice.
Context {E A : Type}.
Implicit Types (buf p q r : list A).

Lemma slice_Ok buf a b :
  a <= b -> b <= length buf -> slice (E := E) buf a b = Ok (take (b - a) (drop a buf)).
Proof. intros. unfold slice. by rewrite decide_True. Qed.

Lemma slice_Ok_inv buf a b r :
  slice (E := E) buf a b = Ok r ->
  a <= b /\ b <= length buf /\ r = take (b - a) (drop a buf).
Proof. unfold slice. case_decide; [|done]. intros [= <-]. intuition. Qed.

Lemma slice_app p q r :
  slice (E := E) (p ++ q ++ r) (length p) (length p + length q) = Ok q.
Proof.
  rewrite slice_Ok; [|lia|len].
  rewrite drop_app_length. f_equal.
  replace (length p + length q - length p) with (length q) by lia.
  by rewrite take_app_length.
Qed.

(** The window form: the caller knows where the middle part starts and ends. *)
Lemma slice_mid p q r a b :
  a = length p -> b = length p + length q ->
  slice (E := E) (p ++ q ++ r) a b = Ok q.
Proof. intros -> ->. apply slice_app. Qed.

Lemma slice_tail p q a b :
  a = length p -> b = length p + length q -> slice (E := E) (p ++ q) a b = Ok q.
Proof. intros. rewrite <- (app_nil_r q) at 1. by apply slice_mid. Qed.

Lemma slice_all buf : slice (E := E) buf 0 (length buf) = Ok buf.
Proof. rewrite slice_Ok; [|lia|lia]. by rewrite drop_0, take_ge by lia. Qed.

Lemma slice_length buf a b r :
  slice (E := E) buf a b = Ok r -> length r = b - a.
Proof. intros (?&?&->)%slice_Ok_inv. len. Qed.

(** A slice of a prefix is a slice of the whole buffer. *)
Lemma slice_app_l buf q a b r :
  slice (E := E) buf a b = Ok r -> slice (E := E) (buf ++ q) a b = Ok r.
Proof.
  intros (?&?&->)%slice_Ok_inv.
  rewrite slice_Ok; [|lia|len]. f_equal.
  rewrite drop_app_le by lia. rewrite take_app_le; [done|len].
Qed.
End Slice.

(** ** Running sums of lengths *)

Definition total_len {A : Type} (xs : list (list A)) : nat := sum_list (length <$> xs).

Section Concat.
Context {A : Type}.
Implicit Types (xs : list (list A)).

Lemma total_len_app xs ys : total_len (xs ++ ys) = total_len xs + total_len ys.
Proof. unfold total_len. rewrite fmap_app. induction (length <$> xs); simpl; lia. Qed.

Lemma total_len_cons (x : list A) xs : total_len (x :: xs) = length x + total_len xs.
Proof. done. Qed.

Lemma length_concat' xs : length (concat xs) = total_len xs.
Proof.
  induction xs as [|x xs IH]; simpl; [done|].
  rewrite length_app, IH. by rewrite total_len_cons.
Qed.

Lemma total_len_take_S xs i x :
  xs !! i = Some x -> total_len (take (S i) xs) = total_len (take i xs) + length x.
Proof.
  intros Hi. rewrite (take_S_r _ _ x Hi), total_len_app, total_len_cons.
  unfold total_len. simpl. lia.
Qed.

Lemma total_len_take_le xs i : total_len (take i xs) <= total_len xs.
Proof. rewrite <- (take_drop i xs) at 2. rewrite total_len_app. lia. Qed.

(** The [i]-th piece of a concatenation sits at the running sum. *)
Lemma slice_concat {E} (p : list A) xs (q : list A) i x :
  xs !! i = Some x ->
  slice (E := E) (p ++ concat xs ++ q)
    (length p + total_len (take i xs)) (length p + total_len (take (S i) xs)) = Ok x.
Proof.
  intros Hi. rewrite (total_len_take_S _ _ _ Hi).
  rewrite <- (take_drop_middle xs i x Hi) at 1.
  rewrite concat_app. simpl.
  replace (p ++ (concat (take i xs) ++ x ++ concat (drop (S i) xs)) ++ q)
    with ((p ++ concat (take i xs)) ++ x ++ (concat (drop (S i) xs) ++ q))
    by (by rewrite <- !app_assoc).
  apply slice_mid; rewrite length_app, length_concat'; lia.
Qed.
End Concat.
#[export] Hint Rewrite @length_concat' : len.

(** ** The element after a known prefix *)

Lemma lookup_pre {A} (pre : list A) x suf : (pre ++ x :: suf) !! length pre = Some x.
Proof. by rewrite list_lookup_middle. Qed.

Lemma insert_pre {A} (pre : list A) x y suf :
  <[length pre := y]> (pre ++ x :: suf) = pre ++ y :: suf.
Proof. replace (length pre) with (length pre + 0) by lia. by rewrite insert_app_r. Qed.

(** ** Byte-string order

    [Ord for [u8]]: lexicographic on unsigned bytes, a prefix sorts first.
    [BinaryKey]'s [Ord] (row_key.rs) delegates to it. *)

Fixpoint bytes_cmp (a b : bytes) : comparison :=
  match a, b with
  | [], [] => Eq
  | [], _ :: _ => Lt
  | _ :: _, [] => Gt
  | x :: a', y :: b' =>
      match Z.compare (byte.unsigned x) (byte.unsigned y) with
      | Eq => bytes_cmp a' b'
      | c => c
      end
  end.

Definition klt (a b : bytes) : Prop := bytes_cmp a b = Lt.
Definition kle (a b : bytes) : Prop := bytes_cmp a b <> Gt.

#[export] Instance comparison_eq_decision : EqDecision comparison.
Proof. solve_decision. Defined.
#[export] Instance klt_dec a b : Decision (klt a b) := decide (bytes_cmp a b = Lt).
#[export] Instance kle_dec a b : Decision (kle a b).
Proof. unfold kle. apply _. Defined.

Lemma bytes_cmp_refl a : bytes_cmp a a = Eq.
Proof. induction a; simpl; [done|]. by rewrite Z.compare_refl. Qed.

Lemma bytes_cmp_eq a b : bytes_cmp a b = Eq <-> a = b.
Proof.
  split; [|intros ->; apply bytes_cmp_refl].
  revert b. induction a as [|x a IH]; intros [|y b]; simpl; try done.
  destruct (Z.compare_spec (byte.unsigned x) (byte.unsigned y)) as [Heq| |]; try done.
  intros ->%IH. f_equal. by apply byte.unsigned_inj.
Qed.

Lemma bytes_cmp_antisym a b : bytes_cmp b a = CompOpp (bytes_cmp a b).
Proof.
  revert b. induction a as [|x a IH]; intros [|y b]; simpl; try done.
  rewrite Z.compare_antisym.
  destruct (Z.compare (byte.unsigned x) (byte.unsigned y)); simpl; auto.
Qed.

Lemma klt_trans a b c : klt a b -> klt b c -> klt a c.
Proof.
  unfold klt. revert b c.
  induction a as [|x a IH]; intros [|y b] [|z c]; simpl; try done.
  destruct (Z.compare_spec (byte.unsigned x) (byte.unsigned y)),
    (Z.compare_spec (byte.unsigned y) (byte.unsigned z)); try done; intros H1 H2;
    destruct (Z.compare_spec (byte.unsigned x) (byte.unsigned z)); try lia; try done.
  eauto.
Qed.

Lemma klt_irrefl a : ~ klt a a.
Proof. unfold klt. by rewrite bytes_cmp_refl. Qed.

Lemma klt_total a b : klt a b \/ a = b \/ klt b a.
Proof.
  unfold klt. rewrite <- (bytes_cmp_eq a b), (bytes_cmp_antisym a b).
  destruct (bytes_cmp a b); auto.
Qed.

Lemma kle_alt a b : kle a b <-> klt a b \/ a = b.
Proof.
  unfold kle, klt. rewrite <- bytes_cmp_eq. destruct (bytes_cmp a b); intuition congruence.
Qed.

Lemma not_klt a b : ~ klt a b <-> kle b a.
Proof.
  unfold kle, klt. rewrite (bytes_cmp_antisym a b).
  destruct (bytes_cmp a b); simpl; intuition congruence.
Qed.

Lemma not_kle a b : ~ kle a b <-> klt b a.
Proof. rewrite <- (not_klt b a). destruct (decide (klt b a)); tauto. Qed.

Lemma kle_refl a : kle a a.
Proof. rewrite kle_alt. auto. Qed.

Lemma klt_kle a b : klt a b -> kle a b.
Proof. rewrite kle_alt. auto. Qed.

Lemma klt_kle_trans a b c : klt a b -> kle b c -> klt a c.
Proof. rewrite kle_alt. intros ? [?| ->]; eauto using klt_trans. Qed.

Lemma kle_klt_trans a b c : kle a b -> klt b c -> klt a c.
Proof. rewrite kle_alt. intros [?| ->]; eauto using klt_trans. Qed.

Lemma kle_trans a b c : kle a b -> kle b c -> kle a c.
Proof. rewrite !kle_alt. intros [?| ->] [?| ->]; eauto using klt_trans. Qed.

Create HintDb korder.
#[export] Hint Resolve klt_trans klt_kle_trans kle_klt_trans kle_trans kle_refl klt_kle : korder.

#[export] Instance klt_strict : StrictOrder klt.
Proof. split; [intros ?; apply klt_irrefl|intros ???; apply klt_trans]. Qed.
