(* ===== verification/Errors.v ===== *)
(** Error types of the storage crate (errors.rs, wal/error.rs), with the
    conversion between them. *)

From stdpp Require Import base list numbers strings pretty.
From S2P Require Import Prelude.

(** [StorageError]; [IoError] carries the rendered [std::io::Error]. *)
Inductive StorageError : Type :=
| InvalidKey (m : string)
| InvalidValue (m : string)
| InvalidConfig (m : string)
| RowEncodeError (m : string)
| TransactionConflict (m : string)
| NotFound (m : string)
| InternalError (m : string)
| IoError (m : string)
| WalCorrupted (m : string).

Abbreviation StorageResult := (res StorageError).

(** [WalError]; the fields are [u64]/[u32] values. *)
Inductive WalError : Type :=
| WalIo (m : string)
| WalCrcMismatch (lsn offset : Z)
| WalHeaderCorrupt (seg_id : Z)
| WalInvalidConfig (m : string)
| WalClosed.

Abbreviation WalResult := (res WalError).

(** [impl From<WalError> for StorageError]. *)
Definition storage_error_of_wal (e : WalError) : StorageError :=
  match e with
  | WalIo io => IoError io
  | WalCrcMismatch lsn _ => WalCorrupted ("crc mismatch at lsn " +:+ pretty lsn)
  | WalHeaderCorrupt seg_id => WalCorrupted ("segment " +:+ pretty seg_id +:+ " header corrupt")
  | WalInvalidConfig s => InvalidConfig s
  | WalClosed => InternalError "wal closed"
  end.

#[export] Instance StorageError_eq_dec : EqDecision StorageError.
Proof. solve_decision. Defined.
#[export] Instance WalError_eq_dec : EqDecision WalError.
Proof. solve_decision. Defined.
#[export] Instance res_eq_dec {E A} `{EqDecision E, EqDecision A} : EqDecision (res E A).
Proof. solve_decision. Defined.
