(* ===== verification/Common.v ===== *)
(** Shared error codes and node configuration (crates/common).

    The file system and the YAML reader are parameters of [config_load]. *)

From stdpp Require Import base numbers strings list.
From S2P Require Import Prelude.

(** [ErrorCode]. *)
Inductive ErrorCode :=
| CodeOk | Unknown | Internal | NotReady | CodeConfig
| RpcTimeout | RpcUnavailable | RpcNetworkError
| StorageIo | StorageCorruption | StorageFull | KeyNotFound | KeyExists
| TxnConflict | TxnDeadlock | TxnTimeout | TxnAborted
| RaftNotLeader | RaftProposalDropped | RaftLeadershipChanged.

#[export] Instance ErrorCode_eq_dec : EqDecision ErrorCode.
Proof. solve_decision. Defined.

(** The [repr(u16)] discriminants. *)
Definition error_code_u16 (c : ErrorCode) : Z :=
  match c with
  | CodeOk => 0 | Unknown => 1 | Internal => 2 | NotReady => 3 | CodeConfig => 4
  | RpcTimeout => 1000 | RpcUnavailable => 1001 | RpcNetworkError => 1002
  | StorageIo => 2000 | StorageCorruption => 2001 | StorageFull => 2002 | KeyNotFound => 2003 | KeyExists => 2004
  | TxnConflict => 3000 | TxnDeadlock => 3001 | TxnTimeout => 3002 | TxnAborted => 3003
  | RaftNotLeader => 4000 | RaftProposalDropped => 4001 | RaftLeadershipChanged => 4002
  end.

(** [ErrorCode::is_retryable]. *)
Definition code_is_retryable (c : ErrorCode) : bool :=
  match c with
  | RpcTimeout | RpcUnavailable | TxnConflict | TxnDeadlock | RaftNotLeader | RaftLeadershipChanged => true
  | _ => false
  end.

(** [derive(Debug)] of the codes. *)
Definition error_code_debug (c : ErrorCode) : string :=
  match c with
  | CodeOk => "Ok" | Unknown => "Unknown" | Internal => "Internal" | NotReady => "NotReady" | CodeConfig => "Config"
  | RpcTimeout => "RpcTimeout" | RpcUnavailable => "RpcUnavailable" | RpcNetworkError => "RpcNetworkError"
  | StorageIo => "StorageIo" | StorageCorruption => "StorageCorruption" | StorageFull => "StorageFull"
  | KeyNotFound => "KeyNotFound" | KeyExists => "KeyExists"
  | TxnConflict => "TxnConflict" | TxnDeadlock => "TxnDeadlock" | TxnTimeout => "TxnTimeout" | TxnAborted => "TxnAborted"
  | RaftNotLeader => "RaftNotLeader" | RaftProposalDropped => "RaftProposalDropped"
  | RaftLeadershipChanged => "RaftLeadershipChanged"
  end.

(** [Error]; an [anyhow::Error] is the text it shows. *)
Inductive Error := Known (code : ErrorCode) (message : string) | Other (text : string).

(** [Error::code], [Error::is_retryable] and the [Display] of [thiserror]. *)
Definition error_code (self : Error) : ErrorCode := match self with Known code _ => code | Other _ => Unknown end.
Definition error_is_retryable (self : Error) : bool := code_is_retryable (error_code self).
Definition error_display (self : Error) : string :=
  match self with
  | Known code message => "[" +:+ error_code_debug code +:+ "] " +:+ message
  | Other text => text
  end.

(** The macros [bail!] and [ensure!]. *)
Definition bail {A} (code : ErrorCode) (msg : string) : res Error A := Err (Known code msg).
Definition ensure (cond : bool) (code : ErrorCode) (msg : string) : res Error unit :=
  if negb cond then bail code msg else Ok tt.

(** ** Configuration *)

Record NodeConfig := mkNodeConfig { node_id : Z; data_dir : string }.
Record LogConfig := mkLogConfig { level : string; format : string }.
Record RpcConfig := mkRpcConfig { listen_addr : string }.
Record Config := mkConfig { node : NodeConfig; log : LogConfig; rpc : RpcConfig }.

Definition default_log_format : string := "json".

Section Load.
Context (read_to_string : string -> string + string) (from_str : string -> string + Config).

(** [Config::load]; the parameters give an error's text or a value. *)
Definition config_load (path : string) : res Error Config :=
  match read_to_string path with
  | inl e => Err (Known CodeConfig ("failed to read config file " +:+ path +:+ ": " +:+ e))
  | inr content =>
      match from_str content with
      | inl e => Err (Known CodeConfig ("failed to parse config: " +:+ e))
      | inr c => Ok c
      end
  end.

(** Loading gives the parsed file, or an error that carries the [Config] code
    and is not worth a retry. *)
Theorem config_load_spec path :
  (forall c, config_load path = Ok c <-> exists text, read_to_string path = inr text /\ from_str text = inr c)
  /\ (forall e, config_load path = Err e -> error_code e = CodeConfig /\ error_is_retryable e = false)
  /\ config_load path <> Panic.
Proof.
  unfold config_load. destruct (read_to_string path) as [e|text]; [|destruct (from_str text) as [e|c] eqn:Hf].
  - split_and!; [|by intros ? [= <-]|done]. intros c. split; [done|]. by intros (? & ? & _).
  - split_and!; [|by intros ? [= <-]|done]. intros c. split; [done|]. intros (? & ? & ?). congruence.
  - split_and!; [|done|done]. intros c'. split; [intros [= <-]; eauto|]. intros (? & ? & ?). congruence.
Qed.
End Load.

(** The numbers are a code's identity on the wire: they fit the [u16] of the
    enum, no two codes share one, and their thousands give the family. Only RPC,
    transaction and Raft errors may be retried. *)
Theorem error_code_numbers c d :
  (0 <= error_code_u16 c < 2 ^ 16)%Z /\ (error_code_u16 c = error_code_u16 d -> c = d)
  /\ (code_is_retryable c = true -> (error_code_u16 c / 1000 ∈ [1; 3; 4])%Z).
Proof.
  split_and!.
  - by destruct c.
  - by destruct c.
  - by destruct c, d.
  - intros Hr. destruct c; try done; apply (bool_decide_unpack _); vm_compute; exact I.
Qed.
