(* ===== verification/Memory.v ===== *)
(** Memory accounting (crates/memory, context.rs): contexts with an allocation
    counter, in trees that share one id counter.

    A context is an [Arc] that its tree's map shares with the callers, so a tree
    is a map from ids to contexts and callers hold ids. [fetch_add] and
    [fetch_sub] wrap; the sum of [total_allocated] is checked. *)

From stdpp Require Import base numbers strings gmap fin_maps list.
From S2P Require Import Prelude.

(** [u64] arithmetic of the atomics. *)
Definition wrap64 (z : Z) : Z := (z mod 2 ^ 64)%Z.

Record MemoryContext := mkMemoryContext {
  mc_name : string;
  mc_parent : option Z;
  mc_allocated : Z;
}.

Record MemoryContextTree := mkMemoryContextTree {
  tr_root : Z;
  tr_contexts : gmap Z MemoryContext;
}.

(** The process: [NEXT_CONTEXT_ID], and the trees created so far. *)
Record Process := mkProcess { pr_next : Z; pr_trees : list MemoryContextTree }.

(** ** Contexts *)

(** [MemoryContextId::next]: the id, and the counter afterwards. *)
Definition context_id_next (next : Z) : Z * Z := (next, wrap64 (next + 1)).

(** [MemoryContext::new]. *)
Definition context_new (next : Z) (name : string) (parent : option Z) : Z * MemoryContext * Z :=
  let '(id, next) := context_id_next next in (id, mkMemoryContext name parent 0, next).

(** [record_alloc], [record_dealloc], [reset]. *)
Definition record_alloc (size : Z) (c : MemoryContext) : MemoryContext :=
  mkMemoryContext (mc_name c) (mc_parent c) (wrap64 (mc_allocated c + size)).
Definition record_dealloc (size : Z) (c : MemoryContext) : MemoryContext :=
  mkMemoryContext (mc_name c) (mc_parent c) (wrap64 (mc_allocated c - size)).
Definition context_reset (c : MemoryContext) : MemoryContext :=
  mkMemoryContext (mc_name c) (mc_parent c) 0.

(** ** Trees *)

(** [MemoryContextTree::new], with the counter it leaves. *)
Definition tree_new (next : Z) : MemoryContextTree * Z :=
  let '(id, root, next) := context_new next "Top" None in
  (mkMemoryContextTree id {[ id := root ]}, next).

(** [MemoryContextTree::create_child]: the id of the context, if any. *)
Definition create_child (next : Z) (self : MemoryContextTree) (name : string) (parent : Z)
  : option Z * MemoryContextTree * Z :=
  match tr_contexts self !! parent with
  | None => (None, self, next)
  | Some _ =>
      let '(id, ctx, next) := context_new next name (Some parent) in
      (Some id, mkMemoryContextTree (tr_root self) (<[id := ctx]> (tr_contexts self)), next)
  end.

(** [MemoryContextTree::get]. *)
Definition tree_get (self : MemoryContextTree) (id : Z) : option MemoryContext := tr_contexts self !! id.

(** [MemoryContextTree::total_allocated]: a checked sum. *)
Definition total_allocated (self : MemoryContextTree) : res Empty_set Z :=
  foldr (fun c acc => a <-- acc ;; u64_add (mc_allocated c) a) (Ok 0%Z) (map_to_list (tr_contexts self)).*2.

(** [MemoryContextTree::reset_all]. *)
Definition reset_all (self : MemoryContextTree) : MemoryContextTree :=
  mkMemoryContextTree (tr_root self) (context_reset <$> tr_contexts self).

Definition update_context (f : MemoryContext -> MemoryContext) (id : Z) (self : MemoryContextTree) : MemoryContextTree :=
  mkMemoryContextTree (tr_root self) (alter f id (tr_contexts self)).

(** ** The operations of a process *)

Inductive MemOp :=
| NewTree
| NewContext (name : string) (parent : option Z)
| Child (t : nat) (name : string) (parent : Z)
| Alloc (t : nat) (id size : Z)
| Dealloc (t : nat) (id size : Z)
| ResetOne (t : nat) (id : Z)
| ResetAll (t : nat).

Definition mem_op (p : Process) (op : MemOp) : Process :=
  let on t f := mkProcess (pr_next p) (alter f t (pr_trees p)) in
  match op with
  | NewTree => let '(tree, next) := tree_new (pr_next p) in mkProcess next (pr_trees p ++ [tree])
  | NewContext name parent => mkProcess (context_new (pr_next p) name parent).2 (pr_trees p)
  | Child t name parent =>
      match pr_trees p !! t with
      | Some tree => let '(_, tree', next) := create_child (pr_next p) tree name parent in
                     mkProcess next (<[t := tree']> (pr_trees p))
      | None => p
      end
  | Alloc t id size => on t (update_context (record_alloc size) id)
  | Dealloc t id size => on t (update_context (record_dealloc size) id)
  | ResetOne t id => on t (update_context context_reset id)
  | ResetAll t => on t reset_all
  end.

Definition process_start : Process := mkProcess 1 [].

(** ** Well-formed trees *)

Definition context_wf (next : Z) (tree : MemoryContextTree) (id : Z) (c : MemoryContext) : Prop :=
  (0 < id < next)%Z /\ is_u64 (mc_allocated c)
  /\ match mc_parent c with
     | None => id = tr_root tree
     | Some p => (p < id)%Z /\ is_Some (tr_contexts tree !! p)
     end.

Definition tree_wf (next : Z) (tree : MemoryContextTree) : Prop :=
  (exists c, tr_contexts tree !! tr_root tree = Some c /\ mc_parent c = None)
  /\ map_Forall (context_wf next tree) (tr_contexts tree).

Record process_wf (p : Process) : Prop := {
  pw_next : (0 < pr_next p)%Z;
  pw_trees : Forall (tree_wf (pr_next p)) (pr_trees p);
  pw_disjoint i j t u : pr_trees p !! i = Some t -> pr_trees p !! j = Some u -> i <> j ->
    tr_contexts t ##ₘ tr_contexts u;
}.

(** The root is reached by following parents. *)
Fixpoint ancestor (n : nat) (tree : MemoryContextTree) (id : Z) : option Z :=
  match n with
  | 0 => Some id
  | S n => c ← tr_contexts tree !! id; p ← mc_parent c; ancestor n tree p
  end.

Lemma wrap64_u64 z : is_u64 (wrap64 z).
Proof. unfold is_u64, wrap64, u64_max. pose proof (Z.mod_pos_bound z (2 ^ 64)). lia. Qed.

Lemma tree_wf_next next next' tree : (next <= next')%Z -> tree_wf next tree -> tree_wf next' tree.
Proof.
  intros Hn [Hr Hf]. split; [done|]. eapply map_Forall_impl; [exact Hf|].
  intros id c ([? ?] & ? & ?). split_and!; [lia|lia|done|done].
Qed.

(** Updates of one context's counter. *)
Lemma update_wf next f id tree :
  (forall c, mc_parent (f c) = mc_parent c) -> (forall c, is_u64 (mc_allocated c) -> is_u64 (mc_allocated (f c))) ->
  tree_wf next tree -> tree_wf next (update_context f id tree).
Proof.
  intros Hp Ha [(c & Hc & Hpc) Hf].
  assert (forall k, is_Some (alter f id (tr_contexts tree) !! k) <-> is_Some (tr_contexts tree !! k)) as Hdom.
  { intros k. rewrite <- !elem_of_dom. by rewrite dom_alter. }
  split.
  - cbn. destruct (decide (id = tr_root tree)) as [->|].
    + exists (f c). by rewrite lookup_alter_eq, Hc, Hp.
    + exists c. by rewrite lookup_alter_ne.
  - intros k x Hx. cbn in Hx.
    assert (exists y, tr_contexts tree !! k = Some y /\ mc_parent x = mc_parent y /\ is_u64 (mc_allocated x))
      as (y & Hy & Hxp & Hxa).
    { destruct (decide (id = k)) as [->|].
      - rewrite lookup_alter_eq in Hx. apply fmap_Some in Hx as (y & Hy & ->). exists y.
        destruct (Hf k y Hy) as (_ & Hu & _). auto.
      - rewrite lookup_alter_ne in Hx by done. exists x. by destruct (Hf k x Hx) as (_ & Hu & _). }
    destruct (Hf k y Hy) as (Hk & _ & Hm). split_and!; [apply Hk|apply Hk|done|].
    rewrite Hxp. destruct (mc_parent y); [|done]. destruct Hm. split; [done|]. by apply Hdom.
Qed.

Lemma reset_all_wf next tree : tree_wf next tree -> tree_wf next (reset_all tree).
Proof.
  intros [(c & Hc & Hpc) Hf]. split.
  - exists (context_reset c). cbn. by rewrite lookup_fmap, Hc.
  - intros k x Hx. cbn in Hx. rewrite lookup_fmap in Hx. destruct (tr_contexts tree !! k) as [y|] eqn:Hy; [|done].
    cbn in Hx. simplify_eq. destruct (Hf k y Hy) as (Hk & _ & Hm). split_and!; [apply Hk|apply Hk|done|].
    cbn. destruct (mc_parent y); [|done]. destruct Hm. split; [done|]. by rewrite lookup_fmap, fmap_is_Some.
Qed.

Lemma tree_new_wf next : (0 < next)%Z -> (next + 1 < 2 ^ 64)%Z ->
  tree_wf (next + 1) (tree_new next).1 /\ (tree_new next).2 = (next + 1)%Z.
Proof.
  intros Hn Hm. unfold tree_new, context_new, context_id_next, wrap64. cbn. rewrite Z.mod_small by lia. split; [|done].
  split; cbn.
  - eexists. split; [apply lookup_singleton_eq|done].
  - intros k c [-> <-]%lookup_singleton_Some. split_and!; cbn; [lia|lia|done|done].
Qed.

Lemma create_child_wf next tree name parent :
  (0 < next)%Z -> (next + 1 < 2 ^ 64)%Z -> tree_wf next tree ->
  let '(r, tree', next') := create_child next tree name parent in
  tree_wf next' tree' /\ (next <= next' <= next + 1)%Z
  /\ forall k, is_Some (tr_contexts tree' !! k) -> is_Some (tr_contexts tree !! k) \/ (k = next /\ next' = next + 1)%Z.
Proof.
  intros Hn Hm Hw. unfold create_child. destruct (tr_contexts tree !! parent) as [pc|] eqn:Hp.
  2:{ split_and!; [done|lia|lia|auto]. }
  unfold context_new, context_id_next, wrap64. rewrite Z.mod_small by lia.
  assert (tr_contexts tree !! next = None) as Hfresh.
  { destruct (tr_contexts tree !! next) as [c|] eqn:Hc; [|done]. destruct Hw as [_ Hf]. apply Hf in Hc as ([? ?] & _). lia. }
  destruct (tree_wf_next next (next + 1) tree ltac:(lia) Hw) as [(c & Hc & Hcp) Hf].
  split_and!; [|lia|lia|].
  - split; cbn.
    + exists c. rewrite lookup_insert_ne by congruence. done.
    + apply map_Forall_insert_2.
      * split_and!; cbn; [lia|lia|done|].
        split; [by destruct Hw as [_ Hf0]; destruct (Hf0 _ _ Hp) as ([? ?] & _)|].
        rewrite lookup_insert_ne by congruence. by eexists.
      * eapply map_Forall_impl; [exact Hf|]. intros k x (Hk & Hu & Hx). split_and!; [apply Hk|apply Hk|done|].
        cbn. destruct (mc_parent x); [|done]. destruct Hx as [? [y Hy]]. split; [done|].
        destruct (decide (next = z)) as [->|Hne]; [congruence|]. by rewrite lookup_insert_ne, Hy by done.
  - intros k. cbn. destruct (decide (k = next)) as [->|Hne]; [auto|]. rewrite lookup_insert_ne by done. auto.
Qed.

(** Every context of a well-formed tree hangs below the root. *)
Lemma ancestor_root next tree id c :
  tree_wf next tree -> tr_contexts tree !! id = Some c -> exists n, ancestor n tree id = Some (tr_root tree).
Proof.
  intros [_ Hf]. revert c. induction (Z.lt_wf 0 id) as [id _ IH]. intros c Hc.
  destruct (Hf id c Hc) as ((H0 & _) & _ & Hp). destruct (mc_parent c) as [p|] eqn:Hpc.
  - destruct Hp as [Hlt [pc Hpp]]. destruct (Hf p pc Hpp) as ((H0' & _) & _).
    destruct (IH p ltac:(lia) pc Hpp) as [n Hn]. exists (S n). cbn. rewrite Hc. cbn. by rewrite Hpc.
  - exists 0. by rewrite Hp.
Qed.

(** Replacing one tree, with the counter moved on. *)
Lemma process_wf_set p t tree tree' next :
  process_wf p -> pr_trees p !! t = Some tree -> tree_wf next tree' -> (pr_next p <= next)%Z ->
  (forall k, is_Some (tr_contexts tree' !! k) -> is_Some (tr_contexts tree !! k) \/ (pr_next p <= k)%Z) ->
  process_wf (mkProcess next (<[t := tree']> (pr_trees p))).
Proof.
  intros [Hn Hw Hd] Ht Hw' Hle Hk.
  assert (forall i u, pr_trees p !! i = Some u -> i <> t -> tr_contexts tree' ##ₘ tr_contexts u) as Hd'.
  { intros i u Hi Hne. apply map_disjoint_spec. intros k x y Hx Hy.
    pose proof (Hd t i tree u Ht Hi ltac:(done)) as Hdt. rewrite map_disjoint_spec in Hdt.
    destruct (Hk k) as [[z Hz]|Hge]; [by eexists|by eapply Hdt|].
    pose proof (Forall_lookup_1 _ _ _ _ Hw Hi) as [_ Hu]. destruct (Hu k y Hy) as ([_ ?] & _). lia. }
  split; cbn; [lia| |].
  - apply Forall_insert; [|done]. eapply Forall_impl; [exact Hw|]. intros u. by apply tree_wf_next.
  - intros i j u v [(<- & <- & _)|[Hi1 Hi]]%list_lookup_insert_Some [(<- & <- & _)|[Hj1 Hj]]%list_lookup_insert_Some Hne.
    + done.
    + by apply (Hd' j).
    + symmetry. by apply (Hd' i).
    + by eapply (Hd i j).
Qed.

Lemma process_wf_alter p t f :
  process_wf p -> (forall tree, tree_wf (pr_next p) tree -> tree_wf (pr_next p) (f tree)) ->
  (forall tree, dom (tr_contexts (f tree)) = dom (tr_contexts tree)) ->
  process_wf (mkProcess (pr_next p) (alter f t (pr_trees p))).
Proof.
  intros Hp Hf Hdom. destruct (pr_trees p !! t) as [tree|] eqn:Ht.
  - assert (alter f t (pr_trees p) = <[t := f tree]> (pr_trees p)) as ->.
    { apply list_eq. intros i. destruct (decide (t = i)) as [->|].
      - by rewrite list_lookup_alter_eq, Ht, list_lookup_insert_eq by (by eapply lookup_lt_Some).
      - by rewrite list_lookup_alter_ne, list_lookup_insert_ne. }
    eapply process_wf_set; [done|done| |done|].
    + apply Hf. exact (Forall_lookup_1 _ _ _ _ (pw_trees _ Hp) Ht).
    + intros k. rewrite <- !elem_of_dom, Hdom. auto.
  - assert (alter f t (pr_trees p) = pr_trees p) as ->; [|by destruct p].
    apply list_eq. intros i. destruct (decide (t = i)) as [->|]; [by rewrite list_lookup_alter_eq, Ht|by rewrite list_lookup_alter_ne].
Qed.

Lemma mem_op_wf p op :
  process_wf p -> (pr_next p + 1 < 2 ^ 64)%Z ->
  process_wf (mem_op p op) /\ (pr_next (mem_op p op) <= pr_next p + 1)%Z.
Proof.
  intros Hp Hm. destruct op as [|name parent|t name parent|t id size|t id size|t id|t]; cbn [mem_op].
  4,5,6,7: split; [|cbn; lia]; apply process_wf_alter; [done| |].
  - destruct (tree_new_wf (pr_next p) (pw_next _ Hp) Hm) as [Hw Hn].
    assert (forall k x, tr_contexts (tree_new (pr_next p)).1 !! k = Some x -> k = pr_next p) as Honly.
    { unfold tree_new, context_new. cbn. by intros k x [-> _]%lookup_singleton_Some. }
    destruct (tree_new (pr_next p)) as [tree next]. cbn in Hw, Hn, Honly. subst next. split; [|cbn; lia].
    destruct Hp as [H0 Hws Hd]. split; cbn; [lia| |].
    + apply Forall_app. split; [|by constructor]. eapply Forall_impl; [exact Hws|]. intros u. apply tree_wf_next. lia.
    + assert (forall i u, pr_trees p !! i = Some u -> tr_contexts u ##ₘ tr_contexts tree) as Hnew.
      { intros i u Hi. apply map_disjoint_spec. intros k x y Hx Hy. apply Honly in Hy. subst k.
        pose proof (Forall_lookup_1 _ _ _ _ Hws Hi) as [_ Hu]. destruct (Hu _ _ Hx) as ([_ ?] & _). lia. }
      intros i j u v Hi Hj Hne. apply lookup_app_Some in Hi as [Hi|[Hi1 Hi]], Hj as [Hj|[Hj1 Hj]].
      * by eapply (Hd i j).
      * apply list_lookup_singleton_Some in Hj as [_ <-]. by apply (Hnew i).
      * apply list_lookup_singleton_Some in Hi as [_ <-]. symmetry. by apply (Hnew j).
      * apply list_lookup_singleton_Some in Hj as [? _], Hi as [? _]. lia.
  - unfold context_new, context_id_next, wrap64. cbn. rewrite Z.mod_small by (destruct Hp; lia). split; [|lia].
    destruct Hp as [H0 Hws Hd]. split; cbn; [lia| |done]. eapply Forall_impl; [exact Hws|]. intros u. apply tree_wf_next. lia.
  - destruct (pr_trees p !! t) as [tree|] eqn:Ht; [|split; [done|lia]].
    pose proof (Forall_lookup_1 _ _ _ _ (pw_trees _ Hp) Ht) as Hw.
    pose proof (create_child_wf (pr_next p) tree name parent (pw_next _ Hp) Hm Hw) as Hc.
    destruct (create_child (pr_next p) tree name parent) as [[r tree'] next]. destruct Hc as (Hw' & Hle & Hk).
    split; [|cbn; lia]. eapply process_wf_set; [done|done|done|lia|].
    intros k Hs. destruct (Hk k Hs) as [|[-> _]]; [by left|right; lia].
  - intros tree. apply update_wf; [done|]. intros c _. apply wrap64_u64.
  - intros tree. cbn. by rewrite dom_alter_L.
  - intros tree. apply update_wf; [done|]. intros c _. apply wrap64_u64.
  - intros tree. cbn. by rewrite dom_alter_L.
  - intros tree. by apply update_wf.
  - intros tree. cbn. by rewrite dom_alter_L.
  - intros tree. by apply reset_all_wf.
  - intros tree. cbn. by rewrite dom_fmap_L.
Qed.

Lemma mem_ops_wf ops : forall p,
  process_wf p -> (pr_next p + Z.of_nat (length ops) < 2 ^ 64)%Z -> process_wf (foldl mem_op p ops).
Proof.
  induction ops as [|op ops IH]; intros p Hp Hl; [done|]. cbn in *.
  destruct (mem_op_wf p op Hp) as [Hp' Hn]; [lia|]. apply IH; [done|lia].
Qed.

(** C40: As long as the id counter has not wrapped, any sequence of operations leaves
    trees: ids are never reused within or between trees, every parent is an
    older context of the same tree, every context hangs below its root, which is
    the only one without a parent, and counters are [u64]. *)
Theorem memory_trees_wf ops t tree :
  (Z.of_nat (length ops) < 2 ^ 64 - 1)%Z ->
  pr_trees (foldl mem_op process_start ops) !! t = Some tree ->
  tree_wf (pr_next (foldl mem_op process_start ops)) tree
  /\ (forall id c, tree_get tree id = Some c -> exists n, ancestor n tree id = Some (tr_root tree))
  /\ (forall u tree' id, pr_trees (foldl mem_op process_start ops) !! u = Some tree' -> u <> t ->
        is_Some (tree_get tree id) -> tree_get tree' id = None).
Proof.
  intros Hl Ht. assert (process_wf (foldl mem_op process_start ops)) as Hp.
  { apply mem_ops_wf; [|cbn; lia]. split; [done|constructor|done]. }
  pose proof (Forall_lookup_1 _ _ _ _ (pw_trees _ Hp) Ht) as Hw. split; [done|]. split.
  - intros id c. by apply (ancestor_root (pr_next (foldl mem_op process_start ops))).
  - intros u tree' id Hu Hne [x Hx]. unfold tree_get in *.
    by eapply map_disjoint_Some_l; [exact (pw_disjoint _ Hp t u tree tree' Ht Hu ltac:(done))|].
Qed.

(** ** Totals *)

Definition allocated_sum (tree : MemoryContextTree) : Z :=
  foldr Z.add 0%Z (mc_allocated <$> (map_to_list (tr_contexts tree)).*2).

Lemma total_fold (l : list MemoryContext) :
  Forall (fun c => is_u64 (mc_allocated c)) l ->
  (0 <= foldr Z.add 0 (mc_allocated <$> l))%Z /\
  foldr (fun c (acc : res Empty_set Z) => a <-- acc ;; u64_add (mc_allocated c) a) (Ok 0%Z) l
  = if decide (foldr Z.add 0 (mc_allocated <$> l) <= u64_max)%Z then Ok (foldr Z.add 0%Z (mc_allocated <$> l)) else Panic.
Proof.
  induction 1 as [|c l Hc _ [Hp IH]]; [by split|]. unfold is_u64 in Hc. cbn in *. split; [lia|]. rewrite IH.
  case_decide as Hs; cbn; [done|]. rewrite decide_False by lia. done.
Qed.

(** The total of a tree is the sum of its counters when that fits a [u64], in
    whatever order the map lists them, and the sum panics otherwise. *)
Theorem total_allocated_sum next tree :
  tree_wf next tree ->
  total_allocated tree = if decide (allocated_sum tree <= u64_max)%Z then Ok (allocated_sum tree) else Panic.
Proof.
  intros [_ Hf]. unfold total_allocated, allocated_sum. apply total_fold. rewrite Forall_fmap.
  apply map_Forall_to_list in Hf. eapply Forall_impl; [exact Hf|]. by intros [k c] (_ & ? & _).
Qed.

(** The counter of a context after allocations (positive) and deallocations
    (negative) is their balance modulo 2^64. *)
Definition balance_ops (t : nat) (id : Z) (deltas : list Z) : list MemOp :=
  (fun d => if decide (0 <= d)%Z then Alloc t id d else Dealloc t id (- d)) <$> deltas.

Lemma balance_op p t id tree c d :
  pr_trees p !! t = Some tree -> tr_contexts tree !! id = Some c ->
  exists tree', pr_trees (foldl mem_op p (balance_ops t id [d])) !! t = Some tree'
    /\ tr_contexts tree' !! id = Some (mkMemoryContext (mc_name c) (mc_parent c) (wrap64 (mc_allocated c + d))).
Proof.
  intros Ht Hc. unfold balance_ops. cbn. case_decide; cbn; rewrite list_lookup_alter_eq, Ht; eexists;
    (split; [done|]); cbn; rewrite lookup_alter_eq, Hc; cbn; unfold record_alloc, record_dealloc; cbn; repeat f_equal; lia.
Qed.

Theorem counter_balance deltas : forall p t id tree c,
  pr_trees p !! t = Some tree -> tr_contexts tree !! id = Some c -> is_u64 (mc_allocated c) ->
  exists tree' c', pr_trees (foldl mem_op p (balance_ops t id deltas)) !! t = Some tree'
    /\ tr_contexts tree' !! id = Some c' /\ mc_allocated c' = wrap64 (mc_allocated c + foldr Z.add 0 deltas)%Z.
Proof.
  induction deltas as [|d deltas IH]; intros p t id tree c Ht Hc Hu.
  - exists tree, c. split_and!; [done..|]. unfold wrap64, is_u64, u64_max in *. cbn. rewrite Z.add_0_r, Z.mod_small; lia.
  - destruct (balance_op p t id tree c d Ht Hc) as (tree1 & Ht1 & Hc1).
    destruct (IH _ t id tree1 _ Ht1 Hc1 (wrap64_u64 _)) as (tree' & c' & Ht' & Hc' & Ha).
    exists tree', c'. split_and!; [exact Ht'|done|]. rewrite Ha. cbn. unfold wrap64.
    rewrite Zplus_mod_idemp_l. f_equal. lia.
Qed.

(** *** Witness *)

(** Two trees; a child of a child, a refused child, and a wrapped counter. *)
Definition demo_ops : list MemOp :=
  [NewTree; NewTree; Child 0 "query" 1; Child 0 "sort" 3; Child 1 "foreign" 3; Alloc 0 4 100; Dealloc 0 3 1;
   NewContext "loose" None; ResetAll 1].
Definition demo_process : Process := foldl mem_op process_start demo_ops.
Definition demo_tree : MemoryContextTree := default (mkMemoryContextTree 0 ∅) (pr_trees demo_process !! 0).

Lemma memory_trees_wf_witness :
  (mc_allocated <$> tree_get demo_tree 3 = Some (2 ^ 64 - 1)%Z /\ pr_next demo_process = 6%Z)
  /\ tree_wf (pr_next demo_process) demo_tree
  /\ (forall id c, tree_get demo_tree id = Some c -> exists n, ancestor n demo_tree id = Some (tr_root demo_tree))
  /\ (forall u tree' id, pr_trees demo_process !! u = Some tree' -> u <> 0 ->
        is_Some (tree_get demo_tree id) -> tree_get tree' id = None).
Proof.
  split; [split; vm_compute; reflexivity|].
  apply (memory_trees_wf demo_ops 0 demo_tree); [vm_compute; reflexivity|vm_compute; reflexivity].
Defined.
