(* ===== verification/Block.v ===== *)
(** Block I/O (block.rs): positions, the [BlockWriter] and [BlockReader] traits
    with what they promise to the SST code, and their memory and file
    implementations. *)

From stdpp Require Import base list numbers strings.
From S2P Require Import Prelude.
From S2P Require Import Errors.

(** [Position]: a [u64] byte offset. *)
Record Position := mkPosition { offset : Z }.

#[export] Instance Position_eq_dec : EqDecision Position.
Proof. solve_decision. Defined.

(** [impl From<&[u8]> for Position]. *)
Definition position_of_slice (value : bytes) : StorageResult Position :=
  rassert (bool_decide (length value = 8)) ;;;
  Ok (mkPosition (of_be_bytes value)).

(** ** The traits *)

(** [BlockWriter]: [write_block] takes [&mut self]; the new writer is returned. *)
Class BlockWriter (W : Type) := {
  write_block : W -> bytes -> StorageResult (Position * W);
}.

(** [BlockReader]; the guard dereferences to the block's bytes. *)
Class BlockReader (R : Type) := {
  read_block : R -> Position -> StorageResult bytes;
  reader_block_size : R -> nat;
}.

(** What a healthy writer promises: a block is appended to the target and its
    position is the length of the target before the write. [bw_ready] is the
    writer's own invariant (and, for files, that the device reports no error). *)
Class BlockWriterLaws (W : Type) `{BlockWriter W} := {
  bw_target : W -> bytes;
  bw_ready : W -> Prop;
  bw_write_ok : forall w data,
    bw_ready w -> (Z.of_nat (length (bw_target w) + length data) <= u64_max)%Z ->
    exists w', write_block w data
                 = Ok (mkPosition (Z.of_nat (length (bw_target w))), w')
            /\ bw_ready w' /\ bw_target w' = bw_target w ++ data;
}.

(** What a reader promises: a whole block inside the source is returned as is. *)
Class BlockReaderLaws (R : Type) `{BlockReader R} := {
  br_source : R -> bytes;
  br_read_ok : forall r pos b,
    slice (E := StorageError) (br_source r) pos (pos + reader_block_size r) = Ok b ->
    read_block r (mkPosition (Z.of_nat pos)) = Ok b;
}.

(** ** In-memory implementations *)

Record InMemoryBlockWriter := mkInMemoryBlockWriter {
  imw_buf : bytes;
  imw_next_offset : Z;
}.

(** [InMemoryBlockWriter::new]. *)
Definition in_memory_block_writer_new : InMemoryBlockWriter :=
  mkInMemoryBlockWriter [] 0.

(** [InMemoryBlockWriter::write_block]. *)
Definition in_memory_write_block (w : InMemoryBlockWriter) (data : bytes)
  : StorageResult (Position * InMemoryBlockWriter) :=
  let offset := imw_next_offset w in
  let size := Z.of_nat (length data) in
  next <-- u64_add (imw_next_offset w) size ;;
  Ok (mkPosition offset, mkInMemoryBlockWriter (imw_buf w ++ data) next).

#[export] Instance InMemoryBlockWriter_writer : BlockWriter InMemoryBlockWriter :=
  {| write_block := in_memory_write_block |}.

Record InMemoryBlockReader := mkInMemoryBlockReader {
  imr_buf : bytes;
  imr_block_size : nat;
}.

(** [InMemoryBlockReader::read_block]: a short last block is returned short. *)
Definition in_memory_read_block (r : InMemoryBlockReader) (position : Position)
  : StorageResult bytes :=
  let start := Z.to_nat (offset position) in
  if decide (length (imr_buf r) < start) then Err (InvalidKey "position out of bounds")
  else
    let end_ := Nat.min (start + imr_block_size r) (length (imr_buf r)) in
    slice (imr_buf r) start end_.

#[export] Instance InMemoryBlockReader_reader : BlockReader InMemoryBlockReader :=
  {| read_block := in_memory_read_block; reader_block_size := imr_block_size |}.

(** ** File implementations

    The file is its contents; [faults] is the device's answer to each coming
    [write_all]: [None] (or no entry) succeeds, [Some m] fails with [m]. *)

Record FileBlockWriter := mkFileBlockWriter {
  fw_file : bytes;
  fw_next_offset : Z;
  fw_block_size : nat;
  fw_faults : list (option string);
}.

(** [FileBlockWriter::create]: the file is created or truncated. *)
Definition file_block_writer_create (block_size : nat) (faults : list (option string))
  : FileBlockWriter :=
  mkFileBlockWriter [] 0 block_size faults.

(** [FileBlockWriter::file_size]. *)
Definition file_block_writer_size (w : FileBlockWriter) : Z := fw_next_offset w.

(** [FileBlockWriter::write_block]. *)
Definition file_write_block (w : FileBlockWriter) (data : bytes)
  : StorageResult (Position * FileBlockWriter) :=
  let offset := fw_next_offset w in
  let size := Z.of_nat (length data) in
  match head (fw_faults w) with
  | Some (Some m) => Err (IoError m)
  | _ =>
      next <-- u64_add (fw_next_offset w) size ;;
      Ok (mkPosition offset,
          mkFileBlockWriter (fw_file w ++ data) next (fw_block_size w) (tail (fw_faults w)))
  end.

#[export] Instance FileBlockWriter_writer : BlockWriter FileBlockWriter :=
  {| write_block := file_write_block |}.

Record FileBlockReader := mkFileBlockReader {
  fr_file : bytes;
  fr_block_size : nat;
}.

(** [File::read_exact_at]: a read past the end of the file is an I/O error. *)
Definition read_exact_at (file : bytes) (len : nat) (off : Z) : StorageResult bytes :=
  let start := Z.to_nat off in
  if decide (start + len <= length file) then slice file start (start + len)
  else Err (IoError "failed to fill whole buffer").

(** [FileBlockReader::read_block]. *)
Definition file_read_block (r : FileBlockReader) (position : Position)
  : StorageResult bytes :=
  read_exact_at (fr_file r) (fr_block_size r) (offset position).

#[export] Instance FileBlockReader_reader : BlockReader FileBlockReader :=
  {| read_block := file_read_block; reader_block_size := fr_block_size |}.

(** ** The implementations keep the promises *)

Lemma u64_add_ok {E} a b : (a + b <= u64_max)%Z -> u64_add (E := E) a b = Ok (a + b)%Z.
Proof. intros H. unfold u64_add. by rewrite decide_True. Qed.

#[export] Program Instance InMemoryBlockWriter_laws : BlockWriterLaws InMemoryBlockWriter := {|
  bw_target := imw_buf;
  bw_ready w := imw_next_offset w = Z.of_nat (length (imw_buf w));
|}.
Next Obligation.
  intros [buf nx] data Hr Hfit. simpl in *. subst nx.
  unfold in_memory_write_block. simpl. rewrite u64_add_ok by lia. simpl.
  eexists. split; [done|]. simpl. split; [len|done].
Qed.

#[export] Program Instance FileBlockWriter_laws : BlockWriterLaws FileBlockWriter := {|
  bw_target := fw_file;
  bw_ready w := fw_next_offset w = Z.of_nat (length (fw_file w))
                /\ Forall (fun f => f = None) (fw_faults w);
|}.
Next Obligation.
  intros [file nx bs faults] data [Hr Hf] Hfit. simpl in *. subst nx.
  unfold file_write_block. simpl. rewrite u64_add_ok by lia. simpl.
  inversion Hf as [|x fs Hx Hfs]; subst; simpl;
    (eexists; split; [done|]; simpl; split; [split; [len|done]|done]).
Qed.

#[export] Program Instance InMemoryBlockReader_laws : BlockReaderLaws InMemoryBlockReader := {|
  br_source := imr_buf;
|}.
Next Obligation.
  intros [buf bs] pos b Hs. simpl in *. pose proof (slice_Ok_inv _ _ _ _ Hs) as (?&?&_).
  unfold in_memory_read_block. simpl. rewrite Nat2Z.id.
  rewrite decide_False by lia. by rewrite Nat.min_l by lia.
Qed.

#[export] Program Instance FileBlockReader_laws : BlockReaderLaws FileBlockReader := {|
  br_source := fr_file;
|}.
Next Obligation.
  intros [file bs] pos b Hs. simpl in *. pose proof (slice_Ok_inv _ _ _ _ Hs) as (?&?&_).
  unfold file_read_block, read_exact_at. simpl. rewrite Nat2Z.id.
  by rewrite decide_True by lia.
Qed.
