(* ===== verification/BlockBuilder.v ===== *)
(** Block builders (builder/data_block.rs, builder/index_block.rs): sorted
    entries are accumulated and serialized into one [block_size] block. Both
    formats share the layout [block_image], against which the reader
    (BlockIter.v) is verified. *)

From stdpp Require Import base list numbers strings.
From S2P Require Import Prelude.
From S2P Require Import Errors.
From S2P Require Import Block.

(** [SstOption]. *)
Record SstOption := mkSstOption { block_size : nat }.

(** [SstOption::default]. *)
Definition sst_option_default : SstOption := mkSstOption (64 * 1024).

(** ** The shared layout

    [count | key offsets + sentinel | value offsets + sentinel | keys | values] *)

(** The offset-table loops of [finish]:
    [for e in entries { offsets.push(data_offset); data_offset += size(e) }]. *)
Fixpoint push_offsets {A : Type} (size : A -> nat) (entries : list A) (data_offset : nat)
  : list nat * nat :=
  match entries with
  | [] => ([], data_offset)
  | e :: es =>
      let '(offs, last) := push_offsets size es (data_offset + size e) in
      (data_offset :: offs, last)
  end.

(** An offset table on disk: each [usize] is cast [as u32] and written big-endian. *)
Definition offset_table (offs : list nat) : bytes :=
  concat ((fun o => be_bytes 4 (Z.of_nat o)) <$> offs).

(** ** Data blocks *)

Definition BLOCK_FIXED_HEADER_SIZE : nat := 12.
Definition DATA_ENTRY_VERSION : u8 := Byte.x01.
Definition DATA_ENTRY_HEADER_LEN : nat := 2.
Definition PER_ENTRY_OFFSET_TABLE_BYTES : nat := 8.
Definition KIND_PUT : u8 := Byte.x00.
Definition KIND_DELETE : u8 := Byte.x01.

(** [BlockEntry]. *)
Inductive BlockEntry : Type :=
| BPut (k v : bytes)
| BDelete (k : bytes).

#[export] Instance BlockEntry_eq_dec : EqDecision BlockEntry.
Proof. solve_decision. Defined.

(** [BlockEntry::key]. *)
Definition be_key (e : BlockEntry) : bytes :=
  match e with BPut k _ => k | BDelete k => k end.

(** [BlockEntry::value_len]. *)
Definition be_value_len (e : BlockEntry) : nat :=
  match e with BPut _ v => length v | BDelete _ => 0 end.

(** [BlockEntry::kind_byte]. *)
Definition be_kind_byte (e : BlockEntry) : u8 :=
  match e with BPut _ _ => KIND_PUT | BDelete _ => KIND_DELETE end.

(** [BlockEntry::value]. *)
Definition be_value (e : BlockEntry) : bytes :=
  match e with BPut _ v => v | BDelete _ => [] end.

Record DataBlockBuilder := mkDataBlockBuilder {
  db_option : SstOption;
  db_entries : list BlockEntry;
  db_estimated_size : nat;
}.

(** [DataBlockBuilder::new]. *)
Definition data_block_builder_new (option : SstOption) : DataBlockBuilder :=
  mkDataBlockBuilder option [] 0.

(** [DataBlockBuilder::add]. *)
Definition data_block_add (b : DataBlockBuilder) (key value : bytes)
  : StorageResult DataBlockBuilder :=
  let entry_size :=
    length key + length value + PER_ENTRY_OFFSET_TABLE_BYTES + DATA_ENTRY_HEADER_LEN in
  rassert (bool_decide (BLOCK_FIXED_HEADER_SIZE + entry_size < block_size (db_option b))) ;;;
  Ok (mkDataBlockBuilder (db_option b) (db_entries b ++ [BPut key value])
        (db_estimated_size b + entry_size)).

(** [DataBlockBuilder::add_delete]. *)
Definition data_block_add_delete (b : DataBlockBuilder) (key : bytes)
  : StorageResult DataBlockBuilder :=
  let entry_size := length key + PER_ENTRY_OFFSET_TABLE_BYTES + DATA_ENTRY_HEADER_LEN in
  rassert (bool_decide (BLOCK_FIXED_HEADER_SIZE + entry_size < block_size (db_option b))) ;;;
  Ok (mkDataBlockBuilder (db_option b) (db_entries b ++ [BDelete key])
        (db_estimated_size b + entry_size)).

(** [DataBlockBuilder::would_exceed]. *)
Definition data_block_would_exceed (b : DataBlockBuilder) (key value : bytes) : bool :=
  let next_entry_size :=
    length key + length value + PER_ENTRY_OFFSET_TABLE_BYTES + DATA_ENTRY_HEADER_LEN in
  bool_decide (block_size (db_option b)
               < BLOCK_FIXED_HEADER_SIZE + db_estimated_size b + next_entry_size).

(** [DataBlockBuilder::is_empty]. *)
Definition data_block_is_empty (b : DataBlockBuilder) : bool :=
  match db_entries b with [] => true | _ => false end.

(** [DataBlockBuilder::last_key]. *)
Definition data_block_last_key (b : DataBlockBuilder) : option bytes :=
  be_key <$> last (db_entries b).

(** [DataBlockBuilder::reset]. *)
Definition data_block_reset (b : DataBlockBuilder) : DataBlockBuilder :=
  mkDataBlockBuilder (db_option b) [] 0.

(** [DataBlockBuilder::finish]. *)
Definition data_block_finish (b : DataBlockBuilder) : bytes * DataBlockBuilder :=
  let entries := db_entries b in
  let buf := be_bytes 4 (Z.of_nat (length entries)) in
  let header_size := 4 + (length entries + 1) * 8 in
  let '(key_offsets, data_offset) :=
    push_offsets (fun e => length (be_key e)) entries header_size in
  let key_offsets := key_offsets ++ [data_offset] in
  let '(val_offsets, data_offset) :=
    push_offsets (fun e => DATA_ENTRY_HEADER_LEN + be_value_len e) entries data_offset in
  let val_offsets := val_offsets ++ [data_offset] in
  let buf := buf ++ offset_table key_offsets in
  let buf := buf ++ offset_table val_offsets in
  let buf := buf ++ concat (be_key <$> entries) in
  let buf := buf ++ concat
    ((fun e => [DATA_ENTRY_VERSION; be_kind_byte e] ++ be_value e) <$> entries) in
  (resize (block_size (db_option b)) Byte.x00 buf, data_block_reset b).

(** ** Index blocks *)

Definition INDEX_VALUE_VERSION : u8 := Byte.x01.
Definition INDEX_VALUE_LEN : nat := 1 + 8.

(** [IndexEntry]. *)
Record IndexEntry := mkIndexEntry {
  end_key : bytes;
  child : Position;
}.

Record IndexBlockBuilder := mkIndexBlockBuilder {
  ib_option : SstOption;
  ib_entries : list IndexEntry;
  ib_estimated_size : nat;
}.

(** [IndexBlockBuilder::new]. *)
Definition index_block_builder_new (option : SstOption) : IndexBlockBuilder :=
  mkIndexBlockBuilder option [] 0.

(** [IndexBlockBuilder::add]. *)
Definition index_block_add (b : IndexBlockBuilder) (ek : bytes) (c : Position)
  : StorageResult IndexBlockBuilder :=
  rassert (bool_decide (BLOCK_FIXED_HEADER_SIZE + length ek + 17 < block_size (ib_option b))) ;;;
  Ok (mkIndexBlockBuilder (ib_option b) (ib_entries b ++ [mkIndexEntry ek c])
        (ib_estimated_size b + (length ek + 17))).

(** [IndexBlockBuilder::would_exceed]. *)
Definition index_block_would_exceed (b : IndexBlockBuilder) (ek : bytes) (_c : Position) : bool :=
  bool_decide (block_size (ib_option b)
               < BLOCK_FIXED_HEADER_SIZE + ib_estimated_size b + length ek + 17).

(** [IndexBlockBuilder::is_empty]. *)
Definition index_block_is_empty (b : IndexBlockBuilder) : bool :=
  match ib_entries b with [] => true | _ => false end.

(** [IndexBlockBuilder::entry_count]. *)
Definition index_block_entry_count (b : IndexBlockBuilder) : nat := length (ib_entries b).

(** [IndexBlockBuilder::last_entry]. *)
Definition index_block_last_entry (b : IndexBlockBuilder) : option IndexEntry :=
  last (ib_entries b).

(** [IndexBlockBuilder::reset]. *)
Definition index_block_reset (b : IndexBlockBuilder) : IndexBlockBuilder :=
  mkIndexBlockBuilder (ib_option b) [] 0.

(** [IndexBlockBuilder::finish]. *)
Definition index_block_finish (b : IndexBlockBuilder) : bytes * IndexBlockBuilder :=
  let entries := ib_entries b in
  let buf := be_bytes 4 (Z.of_nat (length entries)) in
  let header_size := 4 + (length entries + 1) * 8 in
  let '(key_offsets, data_offset) :=
    push_offsets (fun e => length (end_key e)) entries header_size in
  let key_offsets := key_offsets ++ [data_offset] in
  let '(val_offsets, data_offset) :=
    push_offsets (fun _ => INDEX_VALUE_LEN) entries data_offset in
  let val_offsets := val_offsets ++ [data_offset] in
  let buf := buf ++ offset_table key_offsets in
  let buf := buf ++ offset_table val_offsets in
  let buf := buf ++ concat (end_key <$> entries) in
  let buf := buf ++ concat
    ((fun e => [INDEX_VALUE_VERSION] ++ be_bytes 8 (offset (child e))) <$> entries) in
  (resize (block_size (ib_option b)) Byte.x00 buf, index_block_reset b).

(** ** Specification of the layout

    [block_image kvs] is the serialized form of a list of (key, raw value)
    pairs; a finished block is its image followed by zero padding. *)

Definition image_offsets (start : nat) (pieces : list bytes) : list nat :=
  let '(offs, last) := push_offsets length pieces start in offs ++ [last].

Definition image_header_len (n : nat) : nat := 4 + (n + 1) * 8.

Definition block_image (kvs : list (bytes * bytes)) : bytes :=
  let n := length kvs in
  let ks := fst <$> kvs in
  let vs := snd <$> kvs in
  be_bytes 4 (Z.of_nat n)
  ++ offset_table (image_offsets (image_header_len n) ks)
  ++ offset_table (image_offsets (image_header_len n + total_len ks) vs)
  ++ concat ks ++ concat vs.

(** Raw (key, value) pairs of the two entry kinds. *)
Definition raw_of_entry (e : BlockEntry) : bytes * bytes :=
  (be_key e, [DATA_ENTRY_VERSION; be_kind_byte e] ++ be_value e).

Definition raw_of_index (e : IndexEntry) : bytes * bytes :=
  (end_key e, [INDEX_VALUE_VERSION] ++ be_bytes 8 (offset (child e))).

(** Size of an image: what the builders' [estimated_size] counts, plus the
    fixed 12-byte prefix. *)
Definition kv_size (kv : bytes * bytes) : nat := length (fst kv) + length (snd kv) + 8.

Lemma push_offsets_ext {A} (f g : A -> nat) es s :
  (forall e, f e = g e) -> push_offsets f es s = push_offsets g es s.
Proof. intros H. revert s. induction es as [|e es IH]; intros s; simpl; [done|]. by rewrite H, IH. Qed.

Lemma push_offsets_fmap {A B} (f : B -> nat) (h : A -> B) es s :
  push_offsets f (h <$> es) s = push_offsets (fun e => f (h e)) es s.
Proof. revert s. induction es as [|e es IH]; intros s; simpl; [done|]. by rewrite IH. Qed.

Lemma push_offsets_last pieces s :
  snd (push_offsets (@length u8) pieces s) = s + total_len pieces.
Proof.
  revert s. induction pieces as [|x xs IH]; intros s; simpl; [unfold total_len; simpl; lia|].
  specialize (IH (s + length x)). destruct (push_offsets _ _ _). simpl in *.
  rewrite IH, total_len_cons. lia.
Qed.

Lemma image_offsets_cons s x xs :
  image_offsets s (x :: xs) = s :: image_offsets (s + length x) xs.
Proof. unfold image_offsets. simpl. by destruct (push_offsets _ _ _). Qed.

Lemma length_image_offsets s xs : length (image_offsets s xs) = S (length xs).
Proof.
  revert s. induction xs as [|x xs IH]; intros s; [done|].
  rewrite image_offsets_cons. simpl. by rewrite IH.
Qed.
#[export] Hint Rewrite length_image_offsets : len.

Lemma lookup_image_offsets s xs i :
  i <= length xs -> image_offsets s xs !! i = Some (s + total_len (take i xs)).
Proof.
  revert s i. induction xs as [|x xs IH]; intros s i Hi.
  { assert (i = 0) as -> by (simpl in Hi; lia).
    unfold image_offsets, total_len. simpl. f_equal. lia. }
  rewrite image_offsets_cons. destruct i as [|i]; simpl.
  { unfold total_len. simpl. f_equal. lia. }
  rewrite IH by (simpl in Hi; lia). rewrite total_len_cons. f_equal. lia.
Qed.

Lemma length_offset_table offs : length (offset_table offs) = 4 * length offs.
Proof.
  unfold offset_table. induction offs as [|o offs IH]; [done|].
  rewrite fmap_cons, concat_cons, length_app, IH, length_be_bytes. simpl. lia.
Qed.
#[export] Hint Rewrite length_offset_table : len.

Lemma length_block_image kvs :
  length (block_image kvs) = BLOCK_FIXED_HEADER_SIZE + sum_list (kv_size <$> kvs).
Proof.
  unfold block_image. len.
  assert (total_len (fst <$> kvs) + total_len (snd <$> kvs) + 8 * length kvs
          = sum_list (kv_size <$> kvs)) as <-; [|unfold BLOCK_FIXED_HEADER_SIZE; lia].
  induction kvs as [|[k v] kvs IH]; [done|].
  rewrite !fmap_cons, !total_len_cons. simpl. rewrite <- IH. unfold kv_size. simpl. lia.
Qed.

(** ** The builders produce the image *)

Definition data_block_wf (b : DataBlockBuilder) : Prop :=
  db_estimated_size b = sum_list ((kv_size ∘ raw_of_entry) <$> db_entries b)
  /\ BLOCK_FIXED_HEADER_SIZE + db_estimated_size b <= block_size (db_option b).

Definition index_block_wf (b : IndexBlockBuilder) : Prop :=
  ib_estimated_size b = sum_list ((fun e => length (end_key e) + 17) <$> ib_entries b)
  /\ BLOCK_FIXED_HEADER_SIZE + ib_estimated_size b <= block_size (ib_option b).

(** The serialized block of a list of pairs in a [bs]-byte slot. *)
Definition padded_image (bs : nat) (kvs : list (bytes * bytes)) : bytes :=
  resize bs Byte.x00 (block_image kvs).

(** Both [finish] bodies are this layout, given how the two piece sizes are
    computed. *)
Lemma finish_image {A} (f g : A -> bytes) (szk szv : A -> nat) (es : list A) :
  (forall e, szk e = length (f e)) -> (forall e, szv e = length (g e)) ->
  (let header_size := 4 + (length es + 1) * 8 in
   let '(ko, o) := push_offsets szk es header_size in
   let '(vo, o') := push_offsets szv es o in
   (((be_bytes 4 (Z.of_nat (length es)) ++ offset_table (ko ++ [o]))
     ++ offset_table (vo ++ [o'])) ++ concat (f <$> es)) ++ concat (g <$> es))
  = block_image ((fun e => (f e, g e)) <$> es).
Proof.
  intros Hk Hv. unfold block_image, image_header_len, image_offsets.
  rewrite length_fmap, <- !list_fmap_compose, !push_offsets_fmap. cbn zeta.
  change (fst ∘ (fun e : A => (f e, g e))) with f.
  change (snd ∘ (fun e : A => (f e, g e))) with g.
  rewrite (push_offsets_ext (fun e => length (f e)) szk),
    (push_offsets_ext (fun e => length (g e)) szv) by done.
  pose proof (push_offsets_last (f <$> es) (4 + (length es + 1) * 8)) as Hlast.
  rewrite push_offsets_fmap, (push_offsets_ext _ szk) in Hlast by done.
  destruct (push_offsets szk es (4 + (length es + 1) * 8)) as [ko o].
  cbn [snd] in Hlast. rewrite <- Hlast.
  destruct (push_offsets szv es o) as [vo o'].
  by rewrite <- !app_assoc.
Qed.

Lemma data_block_finish_image b :
  data_block_finish b
  = (padded_image (block_size (db_option b)) (raw_of_entry <$> db_entries b), data_block_reset b).
Proof.
  unfold data_block_finish, padded_image, raw_of_entry.
  rewrite <- (finish_image be_key _ (fun e => length (be_key e))
               (fun e => DATA_ENTRY_HEADER_LEN + be_value_len e)) by (by intros []).
  cbn zeta. destruct (push_offsets _ _ _) as [ko o]. by destruct (push_offsets _ _ o).
Qed.

Lemma index_block_finish_image b :
  index_block_finish b
  = (padded_image (block_size (ib_option b)) (raw_of_index <$> ib_entries b), index_block_reset b).
Proof.
  unfold index_block_finish, padded_image, raw_of_index.
  rewrite <- (finish_image end_key _ (fun e => length (end_key e)) (fun _ => INDEX_VALUE_LEN))
    by (intros; len; done).
  cbn zeta. destruct (push_offsets _ _ _) as [ko o]. by destruct (push_offsets _ _ o).
Qed.

(** A well-formed builder's image fits its slot: [resize] only pads. *)
Lemma data_block_wf_fits b :
  data_block_wf b -> length (block_image (raw_of_entry <$> db_entries b)) <= block_size (db_option b).
Proof.
  intros [Hsz Hfit]. rewrite length_block_image, <- list_fmap_compose. by rewrite <- Hsz.
Qed.

Lemma raw_of_index_size e : kv_size (raw_of_index e) = length (end_key e) + 17.
Proof. unfold kv_size, raw_of_index. simpl. len. Qed.

Lemma index_block_wf_fits b :
  index_block_wf b -> length (block_image (raw_of_index <$> ib_entries b)) <= block_size (ib_option b).
Proof.
  intros [Hsz Hfit]. rewrite length_block_image, <- list_fmap_compose.
  erewrite (list_fmap_ext (kv_size ∘ raw_of_index) (fun e => length (end_key e) + 17)).
  { by rewrite <- Hsz. }
  intros i x _. apply raw_of_index_size.
Qed.
