(* ===== verification/Iter.v ===== *)
(** The iterator traits (iterators/storage_iter.rs) as type classes, and what
    an implementation promises to the iterators stacked on it.

    [ForwardIter] and [ReverseIter] have the same three methods and differ in
    the direction of travel, so they are one class indexed by a direction. *)

From stdpp Require Import base list numbers strings sorting.
From S2P Require Import Prelude.
From S2P Require Import Errors.

Inductive direction := Fwd | Rev.

#[export] Instance direction_eq_dec : EqDecision direction.
Proof. solve_decision. Defined.

(** [IterRead]: [key] and [value] return an [Option] and may unwind (a corrupt
    block makes them index out of range). *)
Class IterRead (I V : Type) := {
  valid : I -> bool;
  key : I -> StorageResult (option bytes);
  value : I -> StorageResult (option V);
}.

(** [ForwardIter] ([d = Fwd]) and [ReverseIter] ([d = Rev]). *)
Class DirIter (d : direction) (I : Type) := {
  seek_to_first : I -> StorageResult I;
  seek : bytes -> I -> StorageResult I;
  next : I -> StorageResult I;
}.
Arguments seek_to_first d {I _} _.
Arguments seek d {I _} _ _.
Arguments next d {I _} _.

Abbreviation ForwardIter := (DirIter Fwd).
Abbreviation ReverseIter := (DirIter Rev).

(** ** Contents in the order of travel *)

Definition ord {A : Type} (d : direction) (l : list A) : list A :=
  match d with Fwd => l | Rev => reverse l end.

(** [kbefore d a b]: a scan in direction [d] meets [a] strictly before [b]. *)
Definition kbefore (d : direction) (a b : bytes) : Prop :=
  match d with Fwd => klt a b | Rev => klt b a end.

#[export] Instance kbefore_dec d a b : Decision (kbefore d a b).
Proof. destruct d; apply _. Defined.

(** Drop the leading elements that satisfy [P]. *)
Fixpoint skip_while {A : Type} (P : A -> Prop) `{forall x, Decision (P x)} (l : list A) : list A :=
  match l with
  | [] => []
  | x :: l' => if decide (P x) then skip_while P l' else l
  end.

(** Where a seek to [t] lands: past the entries met strictly before [t]. *)
Definition seek_from {V : Type} (d : direction) (t : bytes) (l : list (bytes * V))
  : list (bytes * V) :=
  skip_while (fun kv => kbefore d (fst kv) t) l.

(** Contents are listed in strictly ascending key order. *)
Definition ksorted {V : Type} (l : list (bytes * V)) : Prop :=
  StronglySorted klt (fst <$> l).

(** ** What an iterator promises

    [seekable it all]: [it] iterates over the contents [all] and may be sought.
    [at_pos it all rest]: [it] is positioned, and [rest] is what it still
    yields, the current entry first. *)
Class IterLaws (d : direction) (I V : Type) `{IterRead I V} `{DirIter d I} := {
  seekable : I -> list (bytes * V) -> Prop;
  at_pos : I -> list (bytes * V) -> list (bytes * V) -> Prop;
  at_valid : forall it all rest,
    at_pos it all rest -> valid it = match rest with [] => false | _ => true end;
  at_key : forall it all rest, at_pos it all rest -> key it = Ok (fst <$> head rest);
  at_value : forall it all rest, at_pos it all rest -> value it = Ok (snd <$> head rest);
  seek_to_first_ok : forall it all,
    seekable it all ->
    exists it', seek_to_first d it = Ok it' /\ at_pos it' all (ord d all);
  seek_ok : forall it all t,
    seekable it all ->
    exists it', seek d t it = Ok it' /\ at_pos it' all (seek_from d t (ord d all));
  next_ok : forall it all rest,
    at_pos it all rest -> exists it', next d it = Ok it' /\ at_pos it' all (tail rest);
}.
Arguments seekable d {I V _ _ _} _ _.
Arguments at_pos d {I V _ _ _} _ _ _.

(** A positioned iterator may be sought again. *)
Class Reseekable (d : direction) (I V : Type) `{IterLaws d I V} :=
  reseek : forall (it : I) all rest, at_pos d it all rest -> seekable d it all.

(** ** Draining an iterator

    The loop every consumer runs:
    [while it.valid() { out.push((it.key().unwrap(), it.value().unwrap())); it.next()? }]. *)
Fixpoint drain {I V : Type} (d : direction) `{IterRead I V} `{DirIter d I}
  (fuel : nat) (it : I) : StorageResult (list (bytes * V)) :=
  match fuel with
  | 0 => Ok []
  | S fuel' =>
      if valid it then
        k <-- key it ;; k <-- unwrap k ;;
        v <-- value it ;; v <-- unwrap v ;;
        it' <-- next d it ;;
        rest <-- drain d fuel' it' ;;
        Ok ((k, v) :: rest)
      else Ok []
  end.

Lemma drain_ok {I V} d `{IterLaws d I V} (it : I) all rest fuel :
  at_pos d it all rest -> length rest <= fuel -> drain d fuel it = Ok rest.
Proof.
  revert it rest. induction fuel as [|fuel IH]; intros it rest Hat Hlen.
  { destruct rest; [done|simpl in Hlen; lia]. }
  simpl. rewrite (at_valid _ _ _ Hat). destruct rest as [|[k v] rest]; [done|].
  rewrite (at_key _ _ _ Hat), (at_value _ _ _ Hat). simpl.
  destruct (next_ok _ _ _ Hat) as (it' & -> & Hat'). simpl in *.
  rewrite (IH it' rest) by (done || lia). done.
Qed.

(** ** List facts *)

Section SkipWhile.
Context {A : Type} (P : A -> Prop) `{forall x, Decision (P x)}.

Lemma skip_while_app l1 l2 :
  Forall P l1 -> (forall x, head l2 = Some x -> ~ P x) -> skip_while P (l1 ++ l2) = l2.
Proof.
  intros H1 H2. induction H1 as [|x l1 Hx _ IH]; simpl.
  - destruct l2 as [|y l2]; simpl; [done|]. rewrite decide_False; eauto.
  - by rewrite decide_True.
Qed.

Lemma skip_while_app_l l1 l2 : Forall P l1 -> skip_while P (l1 ++ l2) = skip_while P l2.
Proof. induction 1 as [|x l1 Hx _ IH]; simpl; [done|]. by rewrite decide_True. Qed.

Lemma skip_while_app_r l1 l2 :
  skip_while P l1 <> [] -> skip_while P (l1 ++ l2) = skip_while P l1 ++ l2.
Proof. induction l1 as [|x l1 IH]; simpl; [done|]. by case_decide; [apply IH|]. Qed.

Lemma skip_while_nil l : skip_while P l = [] -> Forall P l.
Proof. induction l as [|x l IH]; simpl; [done|]. case_decide; [|done]. auto. Qed.

Lemma skip_while_none l : (forall x, head l = Some x -> ~ P x) -> skip_while P l = l.
Proof. intros Hl. by apply (skip_while_app []). Qed.

Lemma skip_while_all l : Forall P l -> skip_while P l = [].
Proof. intros Hl. rewrite <- (app_nil_r l). by apply skip_while_app. Qed.

Lemma skip_while_suffix l : exists p, l = p ++ skip_while P l /\ Forall P p.
Proof.
  induction l as [|x l (p & Hp & HF)]; simpl; [by exists []|].
  case_decide; [|by exists []].
  exists (x :: p). simpl. split; [by f_equal|by constructor].
Qed.

Lemma skip_while_head l x : head (skip_while P l) = Some x -> ~ P x.
Proof.
  induction l as [|y l IH]; simpl; [done|].
  case_decide; [done|]. by intros [= ->].
Qed.
End SkipWhile.

Lemma skip_while_ext_Forall {A} (P Q : A -> Prop) `{forall x, Decision (P x), forall x, Decision (Q x)} l :
  Forall (fun x => P x <-> Q x) l -> skip_while P l = skip_while Q l.
Proof.
  induction 1 as [|x l Hx HF IH]; simpl; [done|].
  destruct (decide (P x)) as [Hp|Hp], (decide (Q x)) as [Hq|Hq]; auto; by apply Hx in Hp || by apply Hx in Hq.
Qed.

Lemma skip_while_ext {A} (P Q : A -> Prop) `{forall x, Decision (P x), forall x, Decision (Q x)} l :
  (forall x, P x <-> Q x) -> skip_while P l = skip_while Q l.
Proof. intros HPQ. apply skip_while_ext_Forall, Forall_true, HPQ. Qed.

Lemma skip_while_fmap {A B} (f : A -> B) (P : B -> Prop) `{forall x, Decision (P x)} l :
  skip_while P (f <$> l) = f <$> skip_while (fun x => P (f x)) l.
Proof. induction l as [|x l IH]; simpl; [done|]. by case_decide. Qed.

Section Sorted.
Context {V : Type}.
Implicit Types l : list (bytes * V).

Lemma ksorted_cons kv l :
  ksorted (kv :: l) <-> Forall (fun x => klt (fst kv) (fst x)) l /\ ksorted l.
Proof.
  unfold ksorted. simpl. split.
  - inversion 1; subst. by rewrite Forall_fmap in *.
  - intros [? ?]. constructor; [done|]. by rewrite Forall_fmap.
Qed.

Lemma ksorted_app l1 l2 :
  ksorted (l1 ++ l2) <->
  ksorted l1 /\ ksorted l2 /\
  (forall x y, x ∈ l1 -> y ∈ l2 -> klt (fst x) (fst y)).
Proof.
  induction l1 as [|x l1 IH]; simpl.
  { split; [|tauto]. intros ?. split_and!; [constructor|done|].
    intros x y Hx. by apply not_elem_of_nil in Hx. }
  rewrite !ksorted_cons, IH, Forall_app, !Forall_forall. clear IH. split.
  - intros ((H1 & H2) & H3 & H4 & H5). split_and!; [done|done|done|].
    intros a b [->|Ha]%elem_of_cons Hb; eauto.
  - intros ((H1 & H2) & H3 & H4).
    split_and!; [done| |done|done|]; intros; apply H4; rewrite ?elem_of_cons; auto.
Qed.

Lemma ksorted_lookup l i j x y :
  ksorted l -> l !! i = Some x -> l !! j = Some y -> i < j -> klt (fst x) (fst y).
Proof.
  intros Hs Hi Hj Hij. rewrite <- (take_drop_middle l i x Hi) in Hs.
  apply ksorted_app in Hs as (_ & Hs & _). apply ksorted_cons in Hs as [Hf _].
  rewrite Forall_forall in Hf. apply Hf. apply list_elem_of_lookup.
  exists (j - S i). rewrite lookup_drop. replace (S i + (j - S i)) with j by lia. done.
Qed.

Lemma ksorted_take n l : ksorted l -> ksorted (take n l).
Proof. intros Hs. rewrite <- (take_drop n l) in Hs. by apply ksorted_app in Hs as (?&_). Qed.

Lemma ksorted_drop n l : ksorted l -> ksorted (drop n l).
Proof. intros Hs. rewrite <- (take_drop n l) in Hs. by apply ksorted_app in Hs as (_&?&_). Qed.
End Sorted.

Lemma ksorted_fmap {V W} (f : bytes * V -> bytes * W) l :
  (forall x, fst (f x) = fst x) -> ksorted (f <$> l) <-> ksorted l.
Proof.
  intros Hf. unfold ksorted. rewrite <- list_fmap_compose.
  erewrite (list_fmap_ext (fst ∘ f) fst); [done|]. intros i x _. apply Hf.
Qed.

Lemma ord_nil {A} d : ord d (@nil A) = [].
Proof. by destruct d. Qed.

Lemma length_ord {A} d (l : list A) : length (ord d l) = length l.
Proof. destruct d; simpl; [done|]. apply length_reverse. Qed.
#[export] Hint Rewrite @length_ord : len.

Lemma ord_fmap {A B} d (f : A -> B) l : ord d (f <$> l) = f <$> ord d l.
Proof. destruct d; simpl; [done|]. by rewrite fmap_reverse. Qed.

Lemma head_fmap' {A B} (f : A -> B) l : head (f <$> l) = f <$> head l.
Proof. by destruct l. Qed.

Lemma tail_fmap' {A B} (f : A -> B) l : tail (f <$> l) = f <$> tail l.
Proof. by destruct l. Qed.

Lemma seek_from_fmap {V W} d t (f : bytes * V -> bytes * W) l :
  (forall x, fst (f x) = fst x) ->
  seek_from d t (f <$> l) = f <$> seek_from d t l.
Proof.
  intros Hf. unfold seek_from. rewrite skip_while_fmap. f_equal.
  apply skip_while_ext. intros x. by rewrite Hf.
Qed.
