(* ===== verification/BlockIter.v ===== *)
(** The block-format iterator (iterators/block_iter.rs): header parsing,
    in-block binary search and both directions of travel, verified against the
    layout the builders write. *)

From stdpp Require Import base list numbers strings sorting.
From S2P Require Import Prelude.
From S2P Require Import Errors.
From S2P Require Import BlockBuilder.
From S2P Require Import Iter.

Record NormalBlockIter := mkNormalBlockIter {
  nb_block : bytes;
  nb_key_offsets : list nat;
  nb_values_offsets : list nat;
  nb_count : nat;
  nb_curr : option nat;
}.

Definition nb_set_curr (it : NormalBlockIter) (c : option nat) : NormalBlockIter :=
  mkNormalBlockIter (nb_block it) (nb_key_offsets it) (nb_values_offsets it) (nb_count it) c.

(** [u32::from_be_bytes(block[start..start + 4])] as [usize]. *)
Definition read_u32_be (block : bytes) (start : nat) : StorageResult nat :=
  buf <-- slice block start (start + 4) ;;
  Ok (Z.to_nat (of_be_bytes buf)).

(** [for _ in 0..n { offsets.push(read(start)); start += 4 }]. *)
Fixpoint parse_offsets (n : nat) (block : bytes) (start : nat) : StorageResult (list nat * nat) :=
  match n with
  | 0 => Ok ([], start)
  | S n' =>
      off <-- read_u32_be block start ;;
      let! (offs, start') := parse_offsets n' block (start + 4) in
      Ok (off :: offs, start')
  end.

(** [NormalBlockIter::new] with [parse_header] and [reset] inlined: a fresh
    iterator has nothing to reset. *)
Definition normal_block_iter_new (block : bytes) : StorageResult NormalBlockIter :=
  count <-- read_u32_be block 0 ;;
  let! (key_offsets, start) := parse_offsets (S count) block 4 in
  let! (values_offsets, _) := parse_offsets (S count) block start in
  Ok (mkNormalBlockIter block key_offsets values_offsets count None).

(** [IterRead::valid]. *)
Definition nb_valid (it : NormalBlockIter) : bool :=
  match nb_curr it with Some _ => true | None => false end.

(** The body of [key] and [value] at index [i]: two table reads and a slice. *)
Definition nb_piece (it : NormalBlockIter) (offsets : list nat) (i : nat) : StorageResult bytes :=
  start <-- unwrap (offsets !! i) ;;
  end_ <-- unwrap (offsets !! (i + 1)) ;;
  slice (nb_block it) start end_.

(** [IterRead::key]. *)
Definition nb_key (it : NormalBlockIter) : StorageResult (option bytes) :=
  match nb_curr it with
  | None => Ok None
  | Some i => k <-- nb_piece it (nb_key_offsets it) i ;; Ok (Some k)
  end.

(** [IterRead::value]: the raw entry bytes. *)
Definition nb_value (it : NormalBlockIter) : StorageResult (option bytes) :=
  match nb_curr it with
  | None => Ok None
  | Some i => v <-- nb_piece it (nb_values_offsets it) i ;; Ok (Some v)
  end.

#[export] Instance NormalBlockIter_read : IterRead NormalBlockIter bytes :=
  {| valid := nb_valid; key := nb_key; value := nb_value |}.

(** The search loop of both [seek]s:
    [while lo < hi { mid = lo + (hi - lo) / 2; if test(mid) { lo = mid + 1 } else { hi = mid } }].
    Every round shrinks [hi - lo], the initial [fuel]. *)
Fixpoint bsearch (fuel : nat) (test : nat -> StorageResult bool) (lo hi : nat) : StorageResult nat :=
  match fuel with
  | 0 => Ok lo
  | S fuel' =>
      if decide (lo < hi) then
        let mid := lo + (hi - lo) / 2 in
        b <-- test mid ;;
        if b then bsearch fuel' test (mid + 1) hi else bsearch fuel' test lo mid
      else Ok lo
  end.

(** [self.curr = Some(mid); match self.key() { Some(k) if p(k) => .., _ => .. }]. *)
Definition nb_test (it : NormalBlockIter) (p : bytes -> bool) (mid : nat) : StorageResult bool :=
  k <-- nb_key (nb_set_curr it (Some mid)) ;;
  Ok match k with Some k => p k | None => false end.

(** [ForwardIter::seek_to_first]. *)
Definition nb_seek_to_first (it : NormalBlockIter) : StorageResult NormalBlockIter :=
  Ok (nb_set_curr it (if decide (0 < nb_count it) then Some 0 else None)).

(** [ForwardIter::seek] (and [IndexBlockIter::seek]): lower bound. *)
Definition nb_seek (target : bytes) (it : NormalBlockIter) : StorageResult NormalBlockIter :=
  lo <-- bsearch (nb_count it) (nb_test it (fun k => bool_decide (klt k target))) 0 (nb_count it) ;;
  Ok (nb_set_curr it (if decide (lo < nb_count it) then Some lo else None)).

(** [ForwardIter::next]. *)
Definition nb_next (it : NormalBlockIter) : StorageResult NormalBlockIter :=
  match nb_curr it with
  | Some i => Ok (nb_set_curr it (if decide (i + 1 < nb_count it) then Some (i + 1) else None))
  | None => Ok it
  end.

(** [usize::checked_sub(1)]. *)
Definition checked_pred (n : nat) : option nat :=
  match n with 0 => None | S m => Some m end.

(** [ReverseIter::seek_to_first]: the last entry. *)
Definition nb_rev_seek_to_first (it : NormalBlockIter) : StorageResult NormalBlockIter :=
  Ok (nb_set_curr it (if decide (0 < nb_count it) then Some (nb_count it - 1) else None)).

(** [ReverseIter::seek]: upper bound minus one. *)
Definition nb_rev_seek (target : bytes) (it : NormalBlockIter) : StorageResult NormalBlockIter :=
  lo <-- bsearch (nb_count it) (nb_test it (fun k => bool_decide (kle k target))) 0 (nb_count it) ;;
  Ok (nb_set_curr it (checked_pred lo)).

(** [ReverseIter::next]. *)
Definition nb_rev_next (it : NormalBlockIter) : StorageResult NormalBlockIter :=
  Ok (nb_set_curr it (nb_curr it ≫= checked_pred)).

#[export] Instance NormalBlockIter_dir (d : direction) : DirIter d NormalBlockIter :=
  match d with
  | Fwd => {| seek_to_first := nb_seek_to_first; seek := nb_seek; next := nb_next |}
  | Rev => {| seek_to_first := nb_rev_seek_to_first; seek := nb_rev_seek; next := nb_rev_next |}
  end.

(** ** Binary search *)

Section BSearch.
Context (n : nat) (test : nat -> StorageResult bool) (p : nat -> bool).
Hypothesis Htest : forall i, i < n -> test i = Ok (p i).
Hypothesis Hmono : forall i j, i <= j -> j < n -> p j = true -> p i = true.

Lemma bsearch_spec fuel lo hi :
  lo <= hi -> hi <= n -> hi - lo <= fuel ->
  (forall j, j < lo -> p j = true) -> (forall j, hi <= j -> j < n -> p j = false) ->
  exists r, bsearch fuel test lo hi = Ok r /\ r <= n
         /\ (forall j, j < r -> p j = true) /\ (forall j, r <= j -> j < n -> p j = false).
Proof.
  revert lo hi. induction fuel as [|fuel IH]; intros lo hi Hle Hn Hf Hlo Hhi; cbn [bsearch].
  { exists lo. assert (lo = hi) as -> by lia. auto. }
  case_decide as Hlt; [|exists lo; assert (lo = hi) as -> by lia; auto].
  pose proof (Nat.div_lt (hi - lo) 2 ltac:(lia) ltac:(lia)) as Hdiv.
  generalize dependent ((hi - lo) / 2). intros h Hdiv.
  rewrite Htest by lia. simpl. destruct (p (lo + h)) eqn:Hp; apply IH; try lia; try done.
  - intros j Hj. apply (Hmono j (lo + h)); [lia|lia|done].
  - intros j Hj Hjn. destruct (p j) eqn:Hpj; [|done].
    rewrite (Hmono (lo + h) j) in Hp; auto.
Qed.
End BSearch.

(** ** An iterator over a block *)

(** [it] reads the pairs [kvs] out of its block. *)
Definition nb_over (it : NormalBlockIter) (kvs : list (bytes * bytes)) : Prop :=
  nb_count it = length kvs
  /\ (forall i k v, kvs !! i = Some (k, v) ->
        nb_piece it (nb_key_offsets it) i = Ok k
        /\ nb_piece it (nb_values_offsets it) i = Ok v)
  /\ ksorted kvs.

(** What a cursor still yields from index [c]. *)
Definition nb_rest {A} (d : direction) (kvs : list A) (c : option nat) : list A :=
  match c with
  | None => []
  | Some i => match d with Fwd => drop i kvs | Rev => reverse (take (S i) kvs) end
  end.

Definition nb_at (d : direction) (it : NormalBlockIter) (kvs rest : list (bytes * bytes)) : Prop :=
  nb_over it kvs
  /\ (forall i, nb_curr it = Some i -> i < length kvs)
  /\ rest = nb_rest d kvs (nb_curr it).

Lemma nb_over_set_curr it kvs c : nb_over (nb_set_curr it c) kvs <-> nb_over it kvs.
Proof. done. Qed.

Lemma nb_at_intro d it kvs c rest :
  nb_over it kvs -> (forall i, c = Some i -> i < length kvs) -> rest = nb_rest d kvs c ->
  nb_at d (nb_set_curr it c) kvs rest.
Proof. done. Qed.

Lemma head_nb_rest {A} d (kvs : list A) i :
  i < length kvs -> head (nb_rest d kvs (Some i)) = kvs !! i.
Proof.
  intros Hi. destruct (lookup_lt_is_Some_2 kvs i Hi) as [x Hx]. simpl.
  destruct d.
  - by rewrite (drop_S _ _ _ Hx), Hx.
  - by rewrite (take_S_r _ _ _ Hx), reverse_snoc, Hx.
Qed.

Lemma nb_rest_nonempty {A} d (kvs : list A) i :
  i < length kvs -> nb_rest d kvs (Some i) <> [].
Proof.
  intros Hi Hn. pose proof (head_nb_rest d kvs i Hi) as Hh. rewrite Hn in Hh.
  apply lookup_lt_is_Some_2 in Hi as [x Hx]. by rewrite Hx in Hh.
Qed.

Lemma nb_at_valid d it kvs rest :
  nb_at d it kvs rest -> nb_valid it = match rest with [] => false | _ => true end.
Proof.
  intros (_ & Hc & ->). unfold nb_valid. destruct (nb_curr it) as [i|]; [|done].
  pose proof (nb_rest_nonempty d kvs i (Hc i eq_refl)). by destruct (nb_rest d kvs (Some i)).
Qed.

Lemma nb_at_key d it kvs rest : nb_at d it kvs rest -> nb_key it = Ok (fst <$> head rest).
Proof.
  intros ((Hn & Hp & _) & Hc & ->). unfold nb_key.
  destruct (nb_curr it) as [i|] eqn:Hcur; [|done].
  rewrite head_nb_rest by auto.
  destruct (lookup_lt_is_Some_2 kvs i (Hc i eq_refl)) as [[k v] Hx].
  destruct (Hp _ _ _ Hx) as [-> _]. by rewrite Hx.
Qed.

Lemma nb_at_value d it kvs rest : nb_at d it kvs rest -> nb_value it = Ok (snd <$> head rest).
Proof.
  intros ((Hn & Hp & _) & Hc & ->). unfold nb_value.
  destruct (nb_curr it) as [i|] eqn:Hcur; [|done].
  rewrite head_nb_rest by auto.
  destruct (lookup_lt_is_Some_2 kvs i (Hc i eq_refl)) as [[k v] Hx].
  destruct (Hp _ _ _ Hx) as [_ ->]. by rewrite Hx.
Qed.

(** The search of a seek finds the boundary of [p] on sorted keys. *)
Lemma nb_bsearch_ok it kvs (p : bytes -> bool) :
  nb_over it kvs ->
  (forall a b, klt a b -> p b = true -> p a = true) ->
  exists r, bsearch (nb_count it) (nb_test it p) 0 (nb_count it) = Ok r /\ r <= length kvs
         /\ Forall (fun kv => p (fst kv) = true) (take r kvs)
         /\ Forall (fun kv => p (fst kv) = false) (drop r kvs).
Proof.
  intros (Hn & Hp & Hs) Hmono. rewrite Hn.
  destruct (bsearch_spec (length kvs) (nb_test it p)
              (fun i => match kvs !! i with Some kv => p (fst kv) | None => false end))
    with (fuel := length kvs) (lo := 0) (hi := length kvs) as (r & Hr & Hle & Htrue & Hfalse); try lia.
  - intros i Hi. destruct (lookup_lt_is_Some_2 kvs i Hi) as [[k v] Hx]. rewrite Hx.
    unfold nb_test, nb_key. simpl.
    change (nb_piece (nb_set_curr it (Some i))) with (nb_piece it).
    by destruct (Hp _ _ _ Hx) as [-> _].
  - intros i j Hij Hj. destruct (lookup_lt_is_Some_2 kvs j Hj) as [y Hy].
    destruct (lookup_lt_is_Some_2 kvs i ltac:(lia)) as [x Hx]. rewrite Hx, Hy.
    destruct (decide (i = j)) as [->|Hne]; [by simplify_eq|].
    apply Hmono. eapply ksorted_lookup; eauto. lia.
  - exists r. split_and!; [done|done| |].
    + apply Forall_lookup. intros i x Hx.
      apply lookup_take_Some in Hx as [Hx Hi]. specialize (Htrue i Hi). by rewrite Hx in Htrue.
    + apply Forall_lookup. intros i x Hx. rewrite lookup_drop in Hx.
      specialize (Hfalse (r + i) ltac:(lia) (lookup_lt_Some _ _ _ Hx)). by rewrite Hx in Hfalse.
Qed.

Lemma nb_fwd_seek_ok it kvs t :
  nb_over it kvs ->
  exists it', nb_seek t it = Ok it' /\ nb_at Fwd it' kvs (seek_from Fwd t kvs).
Proof.
  intros Ho. destruct (nb_bsearch_ok it kvs (fun k => bool_decide (klt k t)) Ho)
    as (r & Hr & Hle & Ht & Hf).
  { intros a b Hab. rewrite !bool_decide_eq_true. eauto with korder. }
  unfold nb_seek. rewrite Hr. simpl. eexists. split; [done|].
  assert (seek_from Fwd t kvs = drop r kvs) as ->.
  { unfold seek_from. rewrite <- (take_drop r kvs) at 1. apply skip_while_app.
    - eapply Forall_impl; [exact Ht|]. intros x. by rewrite bool_decide_eq_true.
    - intros x Hx. destruct (drop r kvs); [done|]. simplify_eq/=.
      inversion Hf; subst. by rewrite bool_decide_eq_false in *. }
  destruct Ho as (Hn & Ho). apply nb_at_intro; [done| |].
  - intros i. case_decide; [|done]. intros [= <-]. lia.
  - case_decide as Hlt; simpl; [done|]. apply drop_ge. lia.
Qed.

Lemma nb_rev_seek_ok it kvs t :
  nb_over it kvs ->
  exists it', nb_rev_seek t it = Ok it' /\ nb_at Rev it' kvs (seek_from Rev t (reverse kvs)).
Proof.
  intros Ho. destruct (nb_bsearch_ok it kvs (fun k => bool_decide (kle k t)) Ho)
    as (r & Hr & Hle & Ht & Hf).
  { intros a b Hab. rewrite !bool_decide_eq_true. eauto with korder. }
  unfold nb_rev_seek. rewrite Hr. simpl. eexists. split; [done|].
  assert (seek_from Rev t (reverse kvs) = reverse (take r kvs)) as ->.
  { unfold seek_from. rewrite <- (take_drop r kvs) at 1. rewrite reverse_app.
    apply skip_while_app.
    - apply Forall_reverse. eapply Forall_impl; [exact Hf|]. intros x.
      by rewrite bool_decide_eq_false, not_kle.
    - intros x Hx. apply Forall_reverse in Ht. destruct (reverse (take r kvs)); [done|].
      simplify_eq/=. inversion Ht; subst. rewrite bool_decide_eq_true in *. by rewrite not_klt. }
  destruct Ho as (Hn & Ho). apply nb_at_intro; [done| |].
  - intros i. destruct r; simpl; [done|]. intros [= <-]. lia.
  - by destruct r.
Qed.

(** The block iterator keeps the promises in both directions. *)
#[export] Program Instance NormalBlockIter_laws d : IterLaws d NormalBlockIter bytes := {|
  seekable it kvs := nb_over it kvs;
  at_pos it kvs rest := nb_at d it kvs rest;
|}.
Next Obligation. intros d it all rest. apply nb_at_valid. Qed.
Next Obligation. intros d it all rest. apply nb_at_key. Qed.
Next Obligation. intros d it all rest. apply nb_at_value. Qed.
Next Obligation.
  intros d it kvs Ho. pose proof Ho as (Hn & _).
  destruct d; simpl; eexists; (split; [done|]); apply nb_at_intro; auto; rewrite Hn.
  - intros i. case_decide; naive_solver.
  - case_decide; simpl; [by rewrite drop_0|]. by destruct kvs; [|simpl in *; lia].
  - intros i. case_decide; [|done]. intros [= <-]. lia.
  - case_decide; simpl.
    + by rewrite take_ge by lia.
    + by destruct kvs; [|simpl in *; lia].
Qed.
Next Obligation.
  intros d it kvs t Ho. destruct d; [by apply nb_fwd_seek_ok|by apply nb_rev_seek_ok].
Qed.
Next Obligation.
  intros d it kvs rest (Ho & Hc & ->). pose proof Ho as (Hn & _).
  destruct d; simpl.
  - unfold nb_next. destruct (nb_curr it) as [i|] eqn:Hcur.
    + eexists. split; [done|]. apply nb_at_intro; [done| |]; rewrite Hn.
      * intros j. case_decide; [|done]. intros [= <-]. lia.
      * specialize (Hc i eq_refl). destruct (lookup_lt_is_Some_2 kvs i Hc) as [x Hx].
        simpl. rewrite (drop_S _ _ _ Hx). simpl.
        case_decide; simpl; [by rewrite Nat.add_1_r|]. apply drop_ge. lia.
    + exists it. split; [done|]. split_and!; [done|by rewrite Hcur|by rewrite Hcur].
  - unfold nb_rev_next. eexists. split; [done|]. apply nb_at_intro; [done| |].
    + intros j. destruct (nb_curr it) as [[|i]|] eqn:Hcur; simpl; try done.
      intros [= <-]. specialize (Hc (S i) eq_refl). lia.
    + destruct (nb_curr it) as [i|] eqn:Hcur; simpl; [|done].
      destruct (lookup_lt_is_Some_2 kvs i (Hc i eq_refl)) as [x Hx].
      rewrite (take_S_r _ _ _ Hx), reverse_snoc. simpl. by destruct i.
Qed.

#[export] Instance NormalBlockIter_reseek d : Reseekable d NormalBlockIter bytes.
Proof. intros it all rest H. apply H. Qed.

(** ** Reading back what a builder wrote *)

Lemma read_u32_be_table pre offs post i o :
  offs !! i = Some o -> (Z.of_nat o <= u32_max)%Z ->
  read_u32_be (pre ++ offset_table offs ++ post) (length pre + 4 * i) = Ok o.
Proof.
  intros Hi Ho. unfold read_u32_be, offset_table.
  set (enc := fun o => be_bytes 4 (Z.of_nat o)).
  assert (forall j, j <= length offs -> total_len (take j (enc <$> offs)) = 4 * j) as Htl.
  { intros j. revert Hi. clear -enc. intros _. induction j as [|j IH]; intros Hj; [done|].
    destruct (lookup_lt_is_Some_2 offs j ltac:(lia)) as [x Hx].
    rewrite (total_len_take_S _ j (enc x)) by (by rewrite list_lookup_fmap, Hx).
    rewrite IH by lia. unfold enc. rewrite length_be_bytes. lia. }
  pose proof (lookup_lt_Some _ _ _ Hi) as Hlt.
  pose proof (slice_concat (E := StorageError) pre (enc <$> offs) post i (enc o)) as Hs.
  rewrite !Htl in Hs by lia.
  replace (length pre + 4 * i + 4) with (length pre + 4 * S i) by lia.
  rewrite Hs by (by rewrite list_lookup_fmap, Hi). simpl. unfold enc.
  rewrite of_be_be_bytes by (unfold u32_max in Ho; lia). by rewrite Nat2Z.id.
Qed.

Lemma parse_offsets_table_from pre offs post k n :
  k + n = length offs -> Forall (fun o => (Z.of_nat o <= u32_max)%Z) offs ->
  parse_offsets n (pre ++ offset_table offs ++ post) (length pre + 4 * k)
  = Ok (drop k offs, length pre + 4 * length offs).
Proof.
  intros Hk HF. revert k Hk. induction n as [|n IH]; intros k Hk; cbn [parse_offsets].
  { rewrite drop_ge by lia. do 2 f_equal. lia. }
  destruct (lookup_lt_is_Some_2 offs k ltac:(lia)) as [o Ho].
  rewrite (read_u32_be_table _ _ _ _ _ Ho); [|by eapply Forall_lookup_1 in HF].
  cbn [rbind]. replace (length pre + 4 * k + 4) with (length pre + 4 * S k) by lia.
  rewrite IH by lia. simpl. by rewrite (drop_S _ _ _ Ho).
Qed.

Lemma parse_offsets_table pre offs post n :
  n = length offs -> Forall (fun o => (Z.of_nat o <= u32_max)%Z) offs ->
  parse_offsets n (pre ++ offset_table offs ++ post) (length pre)
  = Ok (offs, length pre + 4 * length offs).
Proof.
  intros -> HF. pose proof (parse_offsets_table_from pre offs post 0 _ eq_refl HF) as H.
  by rewrite Nat.mul_0_r, Nat.add_0_r in H.
Qed.

Lemma image_offsets_bound s xs m :
  s + total_len xs <= m -> Forall (fun o => o <= m) (image_offsets s xs).
Proof.
  intros Hm. apply Forall_lookup. intros i o Ho.
  pose proof (lookup_lt_Some _ _ _ Ho) as Hi. rewrite length_image_offsets in Hi.
  rewrite lookup_image_offsets in Ho by lia. simplify_eq.
  pose proof (total_len_take_le xs i). lia.
Qed.

(** A table of running sums over [xs] reads back the pieces. *)
Lemma nb_piece_image it pre xs post s i x :
  nb_block it = pre ++ concat xs ++ post -> s = length pre -> xs !! i = Some x ->
  nb_piece it (image_offsets s xs) i = Ok x.
Proof.
  intros Hb -> Hi. pose proof (lookup_lt_Some _ _ _ Hi).
  unfold nb_piece. rewrite !lookup_image_offsets by lia. simpl.
  rewrite Hb, Nat.add_1_r. by apply slice_concat.
Qed.

(** The iterator of a padded image reads exactly the image's pairs. *)
Lemma normal_block_iter_new_image bs kvs :
  length (block_image kvs) <= bs -> (Z.of_nat bs <= u32_max)%Z -> ksorted kvs ->
  exists it, normal_block_iter_new (padded_image bs kvs) = Ok it
          /\ nb_over it kvs /\ nb_curr it = None.
Proof.
  intros Hfit Hbs Hs. unfold padded_image. rewrite resize_le by done.
  pose proof Hfit as Hfit'. unfold block_image in Hfit'. revert Hfit'.
  set (pad := replicate _ _). set (n := length kvs).
  set (ks := fst <$> kvs). set (vs := snd <$> kvs).
  set (ko := image_offsets (image_header_len n) ks).
  set (vo := image_offsets (image_header_len n + total_len ks) vs).
  assert (length ks = n /\ length vs = n) as [Hks Hvs] by (by subst ks vs; len).
  assert (length ko = S n /\ length vo = S n) as [Hlk Hlv] by (subst ko vo; len).
  autorewrite with len. rewrite Hlk, Hlv. intros Hsum.
  assert (forall s xs, s + total_len xs <= bs ->
            Forall (fun o => (Z.of_nat o <= u32_max)%Z) (image_offsets s xs)) as Hbound.
  { intros s xs Hx. eapply Forall_impl; [by apply (image_offsets_bound s xs bs)|].
    simpl. lia. }
  set (blk := block_image kvs ++ pad).
  assert (blk = be_bytes 4 (Z.of_nat n) ++ offset_table ko ++
                (offset_table vo ++ concat ks ++ concat vs ++ pad)) as Hblk.
  { subst blk. unfold block_image. by rewrite <- !app_assoc. }
  unfold normal_block_iter_new.
  assert (read_u32_be blk 0 = Ok n) as ->.
  { rewrite Hblk. apply (read_u32_be_table [] [n] _ 0); [done|].
    unfold image_header_len in *. lia. }
  cbn [rbind]. unfold image_header_len in *.
  assert (parse_offsets (S n) blk 4 = Ok (ko, 4 + 4 * S n)) as ->.
  { rewrite Hblk. rewrite <- Hlk.
    apply (parse_offsets_table (be_bytes 4 (Z.of_nat n))); [done|]. apply Hbound. lia. }
  cbn [rbind].
  assert (parse_offsets (S n) blk (4 + 4 * S n) = Ok (vo, 4 + 4 * S n + 4 * S n)) as ->.
  { pose proof (parse_offsets_table (be_bytes 4 (Z.of_nat n) ++ offset_table ko) vo
                  (concat ks ++ concat vs ++ pad) (S n)) as Hp.
    rewrite <- !app_assoc in Hp. rewrite <- Hblk in Hp.
    autorewrite with len in Hp. rewrite Hlk, Hlv in Hp. apply Hp; [done|].
    apply Hbound. lia. }
  cbn [rbind]. eexists. split; [done|]. split; [|done].
  split; [done|]. split; [|done]. intros i k v Hkv. simpl.
  split.
  - apply (nb_piece_image _ (be_bytes 4 (Z.of_nat n) ++ offset_table ko ++ offset_table vo)
             ks (concat vs ++ pad)).
    + simpl. by rewrite Hblk, <- !app_assoc.
    + autorewrite with len. lia.
    + subst ks. by rewrite list_lookup_fmap, Hkv.
  - apply (nb_piece_image _ (be_bytes 4 (Z.of_nat n) ++ offset_table ko ++ offset_table vo ++ concat ks)
             vs pad).
    + simpl. by rewrite Hblk, <- !app_assoc.
    + autorewrite with len. lia.
    + subst vs. by rewrite list_lookup_fmap, Hkv.
Qed.
