(* ===== verification/EntryDecode.v ===== *)
(** The decoding adapters over raw block iterators:
    iterators/data_entry_decode_iter.rs (put/delete entries of data blocks)
    and iterators/index_entry_decode_iter.rs (child positions of index blocks).

    Both adapters have the same shape: an input iterator and the decoded header
    of its current entry, refreshed after every movement. They are one record
    and one set of operations, indexed by the entry format. *)

From stdpp Require Import base list numbers strings pretty sorting.
From S2P Require Import Prelude.
From S2P Require Import Errors.
From S2P Require Import Block.
From S2P Require Import BlockBuilder.
From S2P Require Import Iter.
From S2P Require Import BlockIter.

(** ** Entry formats *)

(** A header type [H] determines how a raw value is decoded ([decode_header])
    and how the decoded entry is read off it ([entry_view]). *)
Class EntryFormat (H V : Type) := {
  decode_header : bytes -> StorageResult H;
  entry_view : H -> bytes -> StorageResult V;
  missing_value : string;
}.
Arguments missing_value H V {_}.

(** What a format promises: entries encoded by [encode] decode back. *)
Class EntryFormatLaws (H V : Type) `{EntryFormat H V} := {
  encode : V -> bytes;
  encodable : V -> Prop;
  decode_encode : forall v, encodable v ->
    exists h, decode_header (encode v) = Ok h /\ entry_view h (encode v) = Ok v;
}.
Arguments encode H {V _ _} _.
Arguments encodable H {V _ _} _.

(** [&buf[start..]]. *)
Definition slice_from (buf : bytes) (start : nat) : StorageResult bytes :=
  slice buf start (length buf).

(** *** Data entries *)

Inductive EntryKind := KPut | KDelete.

Record EntryHeader := mkEntryHeader { entry_kind : EntryKind; eh_payload_start : nat }.

(** [EntryValue]. *)
Inductive EntryValue := EPut (v : bytes) | EDelete.

#[export] Instance EntryValue_eq_dec : EqDecision EntryValue.
Proof. solve_decision. Defined.

(** [EntryValue::as_array]. *)
Definition entry_value_as_array (e : EntryValue) : bytes :=
  match e with EPut buf => buf | EDelete => [] end.

(** [DataEntryDecodeIter::decode_entry_header]. *)
Definition decode_entry_header (buf : bytes) : StorageResult EntryHeader :=
  match buf with
  | version :: kind :: _ =>
      if decide (version <> DATA_ENTRY_VERSION)
      then Err (InvalidValue ("unknown data entry version: " +:+ pretty (u8_val version)))
      else
        entry_kind <-- (if decide (kind = KIND_PUT) then Ok KPut
                        else if decide (kind = KIND_DELETE) then Ok KDelete
                        else Err (InvalidValue ("invalid entry kind: " +:+ pretty (u8_val kind)))) ;;
        Ok (mkEntryHeader entry_kind 2)
  | _ => Err (InvalidValue "entry header too short")
  end.

(** The last lines of [DataEntryDecodeIter::value]. *)
Definition data_entry_view (h : EntryHeader) (value : bytes) : StorageResult EntryValue :=
  payload <-- slice_from value (eh_payload_start h) ;;
  Ok match entry_kind h with KPut => EPut payload | KDelete => EDelete end.

#[export] Instance DataEntryFormat : EntryFormat EntryHeader EntryValue := {|
  decode_header := decode_entry_header;
  entry_view := data_entry_view;
  missing_value := "valid iterator has no entry value";
|}.

(** *** Index entries *)

Record IndexEntryHeader := mkIndexEntryHeader {
  ih_format_version : u8;
  ih_payload_start : nat;
}.

Definition POSITION_LEN : nat := 8.

(** [IndexEntryValue]: the payload of an index entry. *)
Record IndexEntryValue := mkIndexEntryValue { iev_buf : bytes }.

(** [IndexEntryDecodeIter::decode_header]. *)
Definition decode_index_header (buf : bytes) : StorageResult IndexEntryHeader :=
  match buf with
  | [] => Err (InvalidValue "index entry header too short")
  | format_version :: _ =>
      if decide (format_version <> INDEX_VALUE_VERSION)
      then Err (InvalidValue ("unknown index entry version: " +:+ pretty (u8_val format_version)))
      else if decide (length buf <> 1 + POSITION_LEN)
      then Err (InvalidValue ("invalid index entry payload length: " +:+ pretty (length buf - 1)))
      else Ok (mkIndexEntryHeader format_version 1)
  end.

(** The last lines of [IndexEntryDecodeIter::value]. *)
Definition index_entry_view (h : IndexEntryHeader) (value : bytes) : StorageResult IndexEntryValue :=
  buf <-- slice_from value (ih_payload_start h) ;;
  Ok (mkIndexEntryValue buf).

#[export] Instance IndexEntryFormat : EntryFormat IndexEntryHeader IndexEntryValue := {|
  decode_header := decode_index_header;
  entry_view := index_entry_view;
  missing_value := "valid iterator has no index entry value";
|}.

(** [impl From<IndexEntryValue> for Position]. *)
Definition position_of_index_entry (value : IndexEntryValue) : StorageResult Position :=
  rassert (bool_decide (length (iev_buf value) = POSITION_LEN)) ;;;
  Ok (mkPosition (of_be_bytes (iev_buf value))).

(** ** The adapter *)

(** [DataEntryDecodeIter<I>] at [EntryHeader], [IndexEntryDecodeIter<I>] at
    [IndexEntryHeader]. *)
Record DecodeIter (H I : Type) := mkDecodeIter { di_input : I; di_header : option H }.
Arguments mkDecodeIter {H I} _ _.
Arguments di_input {H I} _.
Arguments di_header {H I} _.

Abbreviation DataEntryDecodeIter := (DecodeIter EntryHeader).
Abbreviation IndexEntryDecodeIter := (DecodeIter IndexEntryHeader).

(** [new]. *)
Definition decode_iter_new {H I : Type} (input : I) : DecodeIter H I := mkDecodeIter input None.

Section DecodeOps.
Context {H V I : Type} `{EntryFormat H V} `{IterRead I bytes}.

(** [refresh], on the moved input. *)
Definition decode_refresh (input : I) : StorageResult (DecodeIter H I) :=
  if valid input then
    value <-- value input ;;
    value <-- ok_or (InvalidValue (missing_value H V)) value ;;
    h <-- decode_header value ;;
    Ok (mkDecodeIter input (Some h))
  else Ok (mkDecodeIter input None).

(** [IterRead::value]. *)
Definition decode_value (it : DecodeIter H I) : StorageResult (option V) :=
  if valid (di_input it) then
    value <-- value (di_input it) ;;
    match value, di_header it with
    | Some value, Some h => v <-- entry_view h value ;; Ok (Some v)
    | _, _ => Ok None
    end
  else Ok None.

#[export] Instance DecodeIter_read : IterRead (DecodeIter H I) V := {|
  valid it := valid (di_input it);
  key it := key (di_input it);
  value := decode_value;
|}.

(** [ForwardIter] and [ReverseIter]: move the input, then refresh. *)
Definition decode_seek_to_first d `{DirIter d I} (it : DecodeIter H I) : StorageResult (DecodeIter H I) :=
  input <-- seek_to_first d (di_input it) ;; decode_refresh input.

Definition decode_seek d `{DirIter d I} (target : bytes) (it : DecodeIter H I)
  : StorageResult (DecodeIter H I) :=
  input <-- seek d target (di_input it) ;; decode_refresh input.

Definition decode_next d `{DirIter d I} (it : DecodeIter H I) : StorageResult (DecodeIter H I) :=
  input <-- next d (di_input it) ;; decode_refresh input.

#[export] Instance DecodeIter_dir d `{DirIter d I} : DirIter d (DecodeIter H I) := {|
  seek_to_first := decode_seek_to_first d;
  seek := decode_seek d;
  next := decode_next d;
|}.
End DecodeOps.

(** [IndexEntryDecodeIter::seek_lower_bound]: the input's direction-agnostic
    [IndexBlockIter::seek], which [NormalBlockIter] implements as its forward
    seek. *)
Definition seek_lower_bound (target : bytes) (it : IndexEntryDecodeIter NormalBlockIter)
  : StorageResult (IndexEntryDecodeIter NormalBlockIter) :=
  input <-- nb_seek target (di_input it) ;; decode_refresh input.

(** ** The adapter keeps the promises of its input *)

Section DecodeLaws.
Context {H V I : Type} {d : direction} `{EntryFormatLaws H V} `{IterLaws d I bytes}.

(** Contents of the input, given the decoded contents. *)
Definition enc_pair (kv : bytes * V) : bytes * bytes := (kv.1, encode H kv.2).

Definition decode_at (it : DecodeIter H I) (all rest : list (bytes * V)) : Prop :=
  at_pos d (di_input it) (enc_pair <$> all) (enc_pair <$> rest)
  /\ Forall (fun kv => encodable H kv.2) all
  /\ Forall (fun kv => encodable H kv.2) rest
  /\ match rest with
     | [] => True
     | kv :: _ => exists h, di_header it = Some h /\ entry_view h (encode H kv.2) = Ok kv.2
     end.

Lemma decode_refresh_ok input all rest :
  at_pos d input (enc_pair <$> all) (enc_pair <$> rest) ->
  Forall (fun kv => encodable H kv.2) all ->
  Forall (fun kv => encodable H kv.2) rest ->
  exists it, decode_refresh (H := H) (V := V) input = Ok it /\ decode_at it all rest.
Proof.
  intros Hat Hall Hrest. unfold decode_refresh. rewrite (at_valid _ _ _ Hat).
  destruct rest as [|[k v] rest]; simpl.
  { eexists. split; [done|]. by split_and!. }
  rewrite (at_value _ _ _ Hat). simpl.
  inversion Hrest as [|? ? Hv Hrest']; subst. simpl in Hv.
  destruct (decode_encode v Hv) as (h & -> & Hview). simpl.
  eexists. split; [done|]. split_and!; eauto.
Qed.

Lemma encodable_seek_from t (l : list (bytes * V)) :
  Forall (fun kv => encodable H kv.2) l -> Forall (fun kv => encodable H kv.2) (seek_from d t l).
Proof.
  intros HF. unfold seek_from.
  destruct (skip_while_suffix (fun kv : bytes * V => kbefore d kv.1 t) l) as (p & Heq & _).
  rewrite Heq in HF. by apply Forall_app in HF as [_ ?].
Qed.

Lemma encodable_ord (l : list (bytes * V)) :
  Forall (fun kv => encodable H kv.2) l -> Forall (fun kv => encodable H kv.2) (ord d l).
Proof. destruct d; simpl; [done|]. apply Forall_reverse. Qed.

#[export] Program Instance DecodeIter_laws : IterLaws d (DecodeIter H I) V := {|
  seekable it all :=
    seekable d (di_input it) (enc_pair <$> all) /\ Forall (fun kv => encodable H kv.2) all;
  at_pos := decode_at;
|}.
Next Obligation.
  intros it all rest (Hat & _). simpl. rewrite (at_valid _ _ _ Hat). by destruct rest.
Qed.
Next Obligation.
  intros it all rest (Hat & _). simpl. rewrite (at_key _ _ _ Hat). by destruct rest.
Qed.
Next Obligation.
  intros it all rest (Hat & _ & _ & Hh). simpl. unfold decode_value.
  rewrite (at_valid _ _ _ Hat). destruct rest as [|[k v] rest]; simpl; [done|].
  rewrite (at_value _ _ _ Hat). simpl in *. by destruct Hh as (h & -> & ->).
Qed.
Next Obligation.
  intros it all [Hs Henc]. simpl. unfold decode_seek_to_first.
  destruct (seek_to_first_ok _ _ Hs) as (input & -> & Hat). simpl.
  apply decode_refresh_ok; [by rewrite ord_fmap in Hat|done|by apply encodable_ord].
Qed.
Next Obligation.
  intros it all t [Hs Henc]. simpl. unfold decode_seek.
  destruct (seek_ok _ _ t Hs) as (input & -> & Hat). simpl.
  rewrite ord_fmap, seek_from_fmap in Hat by done.
  apply decode_refresh_ok; [done|done|by apply encodable_seek_from, encodable_ord].
Qed.
Next Obligation.
  intros it all rest (Hat & Hall & Hrest & _). simpl. unfold decode_next.
  destruct (next_ok _ _ _ Hat) as (input & -> & Hat'). simpl.
  rewrite tail_fmap' in Hat'. apply decode_refresh_ok; [done|done|].
  destruct Hrest; simpl; [constructor|done].
Qed.

#[export] Instance DecodeIter_reseek `{!Reseekable d I bytes} : Reseekable d (DecodeIter H I) V.
Proof. intros it all rest (Hat & Hall & _). split; [by eapply reseek|done]. Qed.
End DecodeLaws.

(** ** The two formats keep their promises *)

Lemma slice_from_app p q n : n = length p -> slice_from (p ++ q) n = Ok q.
Proof.
  intros ->. unfold slice_from. rewrite <- (app_nil_r (p ++ q)), <- app_assoc.
  apply slice_mid; len.
Qed.

Definition encode_entry (e : EntryValue) : bytes :=
  match e with
  | EPut v => [DATA_ENTRY_VERSION; KIND_PUT] ++ v
  | EDelete => [DATA_ENTRY_VERSION; KIND_DELETE]
  end.

#[export] Program Instance DataEntryFormat_laws : EntryFormatLaws EntryHeader EntryValue := {|
  encode := encode_entry;
  encodable _ := True;
|}.
Next Obligation.
  intros [v|] _; simpl; eexists; (split; [done|]); unfold data_entry_view; simpl.
  - by rewrite (slice_from_app [DATA_ENTRY_VERSION; KIND_PUT] v).
  - done.
Qed.

#[export] Program Instance IndexEntryFormat_laws : EntryFormatLaws IndexEntryHeader IndexEntryValue := {|
  encode v := [INDEX_VALUE_VERSION] ++ iev_buf v;
  encodable v := length (iev_buf v) = POSITION_LEN;
|}.
Next Obligation.
  intros [buf] Hlen. simpl in *. rewrite Hlen. simpl.
  eexists. split; [done|]. unfold index_entry_view. simpl.
  by rewrite (slice_from_app [INDEX_VALUE_VERSION] buf).
Qed.

(** ** Builder entries, decoded *)

(** What a builder entry reads back as. *)
Definition kv_of_entry (e : BlockEntry) : bytes * EntryValue :=
  (be_key e, match e with BPut _ v => EPut v | BDelete _ => EDelete end).

Definition kv_of_index (e : IndexEntry) : bytes * IndexEntryValue :=
  (end_key e, mkIndexEntryValue (be_bytes 8 (offset (child e)))).

Lemma enc_pair_entry e : enc_pair (H := EntryHeader) (kv_of_entry e) = raw_of_entry e.
Proof. by destruct e. Qed.

Lemma enc_pair_index e : enc_pair (H := IndexEntryHeader) (kv_of_index e) = raw_of_index e.
Proof. done. Qed.

Lemma enc_pair_entries (es : list BlockEntry) :
  enc_pair (H := EntryHeader) <$> (kv_of_entry <$> es) = raw_of_entry <$> es.
Proof. rewrite <- list_fmap_compose. apply list_fmap_ext. intros _ e _. apply enc_pair_entry. Qed.

Lemma enc_pair_indexes (es : list IndexEntry) :
  enc_pair (H := IndexEntryHeader) <$> (kv_of_index <$> es) = raw_of_index <$> es.
Proof. by rewrite <- list_fmap_compose. Qed.

Lemma encodable_indexes (es : list IndexEntry) :
  Forall (fun kv => encodable IndexEntryHeader kv.2) (kv_of_index <$> es).
Proof. apply Forall_fmap, Forall_true. intros e. simpl. apply length_be_bytes. Qed.

(** [IndexEntryValue] back to the child position. *)
Lemma position_of_kv_of_index e :
  (0 <= offset (child e) <= u64_max)%Z ->
  position_of_index_entry (kv_of_index e).2 = Ok (child e).
Proof.
  intros Hr. unfold position_of_index_entry. simpl. rewrite length_be_bytes. simpl.
  rewrite of_be_be_bytes by (unfold u64_max in Hr; lia). by destruct (child e).
Qed.

(** [DataBlockIter::from_block] of the decoding iterator over
    [NormalBlockIter]. *)
Definition data_iter_from_block (block : bytes) : StorageResult (DataEntryDecodeIter NormalBlockIter) :=
  input <-- normal_block_iter_new block ;; Ok (decode_iter_new input).

(** [IndexBlockIter::from_block], wrapped in its decoder. *)
Definition index_iter_from_block (block : bytes) : StorageResult (IndexEntryDecodeIter NormalBlockIter) :=
  input <-- normal_block_iter_new block ;; Ok (decode_iter_new input).

(** A data block read back yields the builder's entries, in both directions. *)
Lemma data_iter_from_block_ok d bs (es : list BlockEntry) :
  length (block_image (raw_of_entry <$> es)) <= bs -> (Z.of_nat bs <= u32_max)%Z ->
  ksorted (kv_of_entry <$> es) ->
  exists it, data_iter_from_block (padded_image bs (raw_of_entry <$> es)) = Ok it
          /\ seekable d it (kv_of_entry <$> es) /\ valid it = false.
Proof.
  intros Hfit Hbs Hs.
  destruct (normal_block_iter_new_image bs (raw_of_entry <$> es)) as (it & Hit & Hov & Hc); [done|done| |].
  { rewrite <- enc_pair_entries. by apply ksorted_fmap. }
  unfold data_iter_from_block. rewrite Hit. simpl. eexists. split; [done|].
  split; [split|]; simpl.
  - by rewrite enc_pair_entries.
  - apply Forall_true. done.
  - unfold nb_valid. by rewrite Hc.
Qed.

(** An index block read back yields the builder's entries. *)
Lemma index_iter_from_block_ok bs (es : list IndexEntry) :
  length (block_image (raw_of_index <$> es)) <= bs -> (Z.of_nat bs <= u32_max)%Z ->
  ksorted (kv_of_index <$> es) ->
  exists it, index_iter_from_block (padded_image bs (raw_of_index <$> es)) = Ok it
          /\ (forall d, seekable d it (kv_of_index <$> es)) /\ valid it = false.
Proof.
  intros Hfit Hbs Hs.
  destruct (normal_block_iter_new_image bs (raw_of_index <$> es)) as (it & Hit & Hov & Hc); [done|done| |].
  { rewrite <- enc_pair_indexes. by apply ksorted_fmap. }
  unfold index_iter_from_block. rewrite Hit. simpl. eexists. split; [done|].
  split; [intros d; split|]; simpl.
  - by rewrite enc_pair_indexes.
  - apply encodable_indexes.
  - unfold nb_valid. by rewrite Hc.
Qed.
