(* ===== verification/SstFooter.v ===== *)
(** The SST footer (builder/sst.rs, [SstFooter]) and the SST writers
    (builder/sst_writer.rs). *)

From stdpp Require Import base list numbers strings.
From S2P Require Import Prelude.
From S2P Require Import Errors.
From S2P Require Import Block.
From S2P Require Import BlockBuilder.

(** [SstFooter]. *)
Record SstFooter := mkSstFooter {
  root_index_block_position : Position;
  tree_height : Z;
  first_key : bytes;
  last_key : bytes;
}.

#[export] Instance SstFooter_eq_dec : EqDecision SstFooter.
Proof. solve_decision. Defined.

Definition MIN_LEN : nat := 24.

(** The body of [SstFooter::encode], without the trailer. *)
Definition footer_body (f : SstFooter) : bytes :=
  be_bytes 8 (offset (root_index_block_position f))
  ++ be_bytes 4 (tree_height f)
  ++ be_bytes 4 (Z.of_nat (length (first_key f)))
  ++ be_bytes 4 (Z.of_nat (length (last_key f)))
  ++ first_key f
  ++ last_key f.

(** [SstFooter::encode]. *)
Definition footer_encode (f : SstFooter) : bytes :=
  let out := footer_body f in
  out ++ be_bytes 4 (Z.of_nat (length out)).

(** A big-endian field of a buffer as [usize]. *)
Definition field_be (buf : bytes) (a b : nat) : StorageResult Z :=
  s <-- slice buf a b ;; Ok (of_be_bytes s).

(** [SstFooter::decode]. *)
Definition footer_decode (buf : bytes) : StorageResult SstFooter :=
  if decide (length buf < 4) then Err (InvalidValue "footer too short for trailer")
  else
    body_len <-- field_be buf (length buf - 4) (length buf) ;;
    let body_len := Z.to_nat body_len in
    if decide (length buf < body_len + 4) then Err (InvalidValue "footer truncated")
    else
      body <-- slice buf 0 body_len ;;
      if decide (length body < 20) then Err (InvalidValue "footer body too short")
      else
        root_offset <-- field_be body 0 8 ;;
        tree_height <-- field_be body 8 12 ;;
        first_key_len <-- field_be body 12 16 ;;
        last_key_len <-- field_be body 16 20 ;;
        let first_key_len := Z.to_nat first_key_len in
        let last_key_len := Z.to_nat last_key_len in
        if decide (20 + first_key_len + last_key_len <> body_len)
        then Err (InvalidValue "footer key length mismatch")
        else
          first_key <-- slice body 20 (20 + first_key_len) ;;
          last_key <-- slice body (20 + first_key_len) (20 + first_key_len + last_key_len) ;;
          Ok (mkSstFooter (mkPosition root_offset) tree_height first_key last_key).

(** Footers whose fields fit their widths; the body length fits the trailer. *)
Definition footer_wf (f : SstFooter) : Prop :=
  is_u64 (offset (root_index_block_position f))
  /\ is_u32 (tree_height f)
  /\ (Z.of_nat (20 + length (first_key f) + length (last_key f)) <= u32_max)%Z.

Lemma length_footer_body f :
  length (footer_body f) = 20 + length (first_key f) + length (last_key f).
Proof. unfold footer_body. len. Qed.

Lemma length_footer_encode f :
  length (footer_encode f) = MIN_LEN + length (first_key f) + length (last_key f).
Proof. unfold footer_encode, MIN_LEN. autorewrite with len. rewrite length_footer_body. lia. Qed.

Lemma field_be_mid (p q r : bytes) a b z n :
  a = length p -> b = length p + n -> q = be_bytes n z -> (0 <= z < 2 ^ (Z.of_nat n * 8))%Z ->
  field_be (p ++ q ++ r) a b = Ok z.
Proof.
  intros -> -> -> Hz. unfold field_be.
  rewrite slice_mid; [|done|by rewrite length_be_bytes]. simpl. by rewrite of_be_be_bytes.
Qed.

(** A field that ends the buffer. *)
Lemma field_be_tail (p q : bytes) a b z n :
  a = length p -> b = length p + n -> q = be_bytes n z -> (0 <= z < 2 ^ (Z.of_nat n * 8))%Z ->
  field_be (p ++ q) a b = Ok z.
Proof. intros. rewrite <- (app_nil_r q). by eapply field_be_mid. Qed.

(** The footer at the tail of any region decodes back: the reader may hand over
    more than the footer. *)
Lemma footer_decode_body f :
  footer_wf f ->
  let body := footer_body f in
  field_be body 0 8 = Ok (offset (root_index_block_position f))
  /\ field_be body 8 12 = Ok (tree_height f)
  /\ field_be body 12 16 = Ok (Z.of_nat (length (first_key f)))
  /\ field_be body 16 20 = Ok (Z.of_nat (length (last_key f)))
  /\ slice (E := StorageError) body 20 (20 + length (first_key f)) = Ok (first_key f)
  /\ slice (E := StorageError) body (20 + length (first_key f))
       (20 + length (first_key f) + length (last_key f)) = Ok (last_key f).
Proof.
  intros ([H1 H1'] & [H2 H2'] & H3) body.
  unfold u64_max, u32_max in *.
  destruct f as [[off] h fk lk]. simpl in *. subst body. unfold footer_body. simpl.
  set (a := be_bytes 8 off). set (b := be_bytes 4 h).
  set (c := be_bytes 4 (Z.of_nat (length fk))). set (e := be_bytes 4 (Z.of_nat (length lk))).
  assert (length a = 8 /\ length b = 4 /\ length c = 4 /\ length e = 4) as (La & Lb & Lc & Le)
    by (subst a b c e; len).
  split_and!.
  - apply (field_be_mid [] a _ _ _ off 8); try done; lia.
  - apply (field_be_mid a b _ _ _ h 4); rewrite ?La; try done; lia.
  - replace (a ++ b ++ c ++ e ++ fk ++ lk) with ((a ++ b) ++ c ++ (e ++ fk ++ lk))
      by (by rewrite <- !app_assoc).
    apply (field_be_mid _ _ _ _ _ _ 4); autorewrite with len; try done; lia.
  - replace (a ++ b ++ c ++ e ++ fk ++ lk) with ((a ++ b ++ c) ++ e ++ (fk ++ lk))
      by (by rewrite <- !app_assoc).
    apply (field_be_mid _ _ _ _ _ _ 4); autorewrite with len; try done; lia.
  - replace (a ++ b ++ c ++ e ++ fk ++ lk) with ((a ++ b ++ c ++ e) ++ fk ++ lk)
      by (by rewrite <- !app_assoc).
    apply slice_mid; autorewrite with len; lia.
  - replace (a ++ b ++ c ++ e ++ fk ++ lk) with ((a ++ b ++ c ++ e ++ fk) ++ lk ++ [])
      by (by rewrite <- !app_assoc, app_nil_r).
    apply slice_mid; autorewrite with len; lia.
Qed.

Lemma footer_decode_encode f : footer_wf f -> footer_decode (footer_encode f) = Ok f.
Proof.
  intros Hwf. pose proof (footer_decode_body f Hwf) as (F1 & F2 & F3 & F4 & F5 & F6).
  pose proof Hwf as (_ & _ & Hlen). unfold u32_max in Hlen.
  unfold footer_decode, footer_encode. pose proof (length_footer_body f) as Hb.
  rewrite decide_False by len.
  rewrite (field_be_tail (footer_body f) (be_bytes 4 (Z.of_nat (length (footer_body f)))) _ _
             (Z.of_nat (length (footer_body f))) 4);
    [|len|len|done|rewrite Hb; lia].
  cbn [rbind]. rewrite Nat2Z.id, decide_False by len.
  rewrite (slice_app_l (footer_body f) _ _ _ _ (slice_all (footer_body f))). cbn [rbind].
  rewrite decide_False by lia. rewrite F1, F2, F3, F4. cbn [rbind].
  rewrite !Nat2Z.id, decide_False by lia. rewrite F5, F6. cbn [rbind].
  by destruct f as [[off] h fk lk].
Qed.

(** ** SST writers *)

(** [SstWriter]. *)
Class SstWriter (S : Type) := {
  sst_write_block : S -> bytes -> StorageResult (Position * S);
  sst_write_footer : S -> SstFooter -> StorageResult (Position * S);
}.

(** What a healthy SST writer promises to the builder: blocks of the configured
    size are appended at the end of the target, and writing the footer keeps
    what was written. *)
Class SstWriterLaws (S : Type) `{SstWriter S} := {
  sw_target : S -> bytes;
  sw_ready : nat -> S -> Prop;
  sw_write_block_ok : forall bs w data,
    sw_ready bs w -> length data = bs ->
    (Z.of_nat (length (sw_target w) + bs) <= u64_max)%Z ->
    exists w', sst_write_block w data = Ok (mkPosition (Z.of_nat (length (sw_target w))), w')
            /\ sw_ready bs w' /\ sw_target w' = sw_target w ++ data;
  sw_footer_image : nat -> SstFooter -> bytes;
  sw_footer_fits : nat -> SstFooter -> Prop;
  sw_write_footer_ok : forall bs w f,
    sw_ready bs w -> sw_footer_fits bs f ->
    (Z.of_nat (length (sw_target w) + length (sw_footer_image bs f)) <= u64_max)%Z ->
    exists pos w', sst_write_footer w f = Ok (pos, w') /\ sw_ready bs w'
                /\ sw_target w' = sw_target w ++ sw_footer_image bs f;
}.
Arguments sw_footer_image S {_ _} _ _.
Arguments sw_footer_fits S {_ _} _ _.

(** [DefaultSstWriter]. *)
Record DefaultSstWriter (W : Type) := mkDefaultSstWriter {
  dsw_inner : W;
  dsw_option : SstOption;
}.
Arguments mkDefaultSstWriter {W} _ _.
Arguments dsw_inner {W} _.
Arguments dsw_option {W} _.

Section DefaultWriter.
Context {W : Type} `{BlockWriter W}.

(** [DefaultSstWriter::write_block]. *)
Definition default_write_block (w : DefaultSstWriter W) (data : bytes)
  : StorageResult (Position * DefaultSstWriter W) :=
  rassert (bool_decide (length data = block_size (dsw_option w))) ;;;
  let! (pos, inner) := write_block (dsw_inner w) data in
  Ok (pos, mkDefaultSstWriter inner (dsw_option w)).

(** [DefaultSstWriter::write_footer]. *)
Definition default_write_footer (w : DefaultSstWriter W) (footer : SstFooter)
  : StorageResult (Position * DefaultSstWriter W) :=
  let! (pos, inner) := write_block (dsw_inner w) (footer_encode footer) in
  Ok (pos, mkDefaultSstWriter inner (dsw_option w)).

#[export] Instance DefaultSstWriter_writer : SstWriter (DefaultSstWriter W) :=
  {| sst_write_block := default_write_block; sst_write_footer := default_write_footer |}.

#[export] Program Instance DefaultSstWriter_laws `{!BlockWriterLaws W}
  : SstWriterLaws (DefaultSstWriter W) := {|
  sw_target w := bw_target (dsw_inner w);
  sw_ready bs w := bw_ready (dsw_inner w) /\ block_size (dsw_option w) = bs;
  sw_footer_image _ f := footer_encode f;
  sw_footer_fits _ _ := True;
|}.
Next Obligation.
  intros HL bs w data [Hr Hbs] Hlen Hfit. simpl. unfold default_write_block.
  rewrite Hbs, bool_decide_true by done. simpl.
  destruct (bw_write_ok (dsw_inner w) data Hr) as (w' & -> & Hr' & Ht); [by rewrite Hlen|].
  simpl. eexists. split; [done|]. simpl. auto.
Qed.
Next Obligation.
  intros HL bs w f [Hr Hbs] _ Hfit. simpl. unfold default_write_footer.
  destruct (bw_write_ok (dsw_inner w) (footer_encode f) Hr Hfit) as (w' & -> & Hr' & Ht).
  simpl. do 2 eexists. split; [done|]. done.
Qed.
End DefaultWriter.
