(* ===== verification/SstBuilder.v ===== *)
(** The streaming SST builder (builder/sst.rs, [SstBuilder]): data blocks are
    written as they fill up, and their end keys are promoted through a stack of
    index-block builders, one per tree level. *)

From stdpp Require Import base list numbers strings sorting.
From S2P Require Import Prelude.
From S2P Require Import Errors.
From S2P Require Import Block.
From S2P Require Import BlockBuilder.
From S2P Require Import Iter.
From S2P Require Import EntryDecode.
From S2P Require Import SstFooter.

Record SstBuilder (S : Type) := mkSstBuilder {
  sb_writer : S;
  sb_data_builder : DataBlockBuilder;
  sb_index_builders : list IndexBlockBuilder;
  sb_option : SstOption;
  sb_first_key : option bytes;
  sb_last_key : option bytes;
}.
Arguments mkSstBuilder {S} _ _ _ _ _ _.
Arguments sb_writer {S} _.
Arguments sb_data_builder {S} _.
Arguments sb_index_builders {S} _.
Arguments sb_option {S} _.
Arguments sb_first_key {S} _.
Arguments sb_last_key {S} _.

Section Ops.
Context {S : Type} `{SstWriter S}.

Definition sb_set_writer (self : SstBuilder S) (w : S) : SstBuilder S :=
  mkSstBuilder w (sb_data_builder self) (sb_index_builders self) (sb_option self)
    (sb_first_key self) (sb_last_key self).

Definition sb_set_data (self : SstBuilder S) (d : DataBlockBuilder) : SstBuilder S :=
  mkSstBuilder (sb_writer self) d (sb_index_builders self) (sb_option self)
    (sb_first_key self) (sb_last_key self).

Definition sb_set_index (self : SstBuilder S) (bs : list IndexBlockBuilder) : SstBuilder S :=
  mkSstBuilder (sb_writer self) (sb_data_builder self) bs (sb_option self)
    (sb_first_key self) (sb_last_key self).

(** [SstBuilder::new]. *)
Definition sst_builder_new (writer : S) (option : SstOption) : SstBuilder S :=
  mkSstBuilder writer (data_block_builder_new option) [] option None None.

(** [SstBuilder::flush_index_block]; [add] is the recursive call of
    [add_index_entry]. *)
Definition flush_index_block_with
  (add : SstBuilder S -> nat -> bytes -> Position -> StorageResult (SstBuilder S))
  (self : SstBuilder S) (level : nat) : StorageResult (SstBuilder S) :=
  builder <-- unwrap (sb_index_builders self !! level) ;;
  if index_block_is_empty builder then Ok self
  else
    let end_key := default [] (end_key <$> index_block_last_entry builder) in
    let '(block, builder) := index_block_finish builder in
    let self := sb_set_index self (<[level := builder]> (sb_index_builders self)) in
    let! (handle, w) := sst_write_block (sb_writer self) block in
    add (sb_set_writer self w) (level + 1) end_key handle.

(** [SstBuilder::add_index_entry]. A call at [level] recurses at [level + 1]
    only when [index_builders[level]] exists and is not empty, so the depth is
    bounded by the number of builders above [level]: see [index_fuel]. *)
Fixpoint add_index_entry (fuel : nat) (self : SstBuilder S) (level : nat) (end_key : bytes)
  (position : Position) : StorageResult (SstBuilder S) :=
  match fuel with
  | 0 => Panic
  | Datatypes.S fuel' =>
      let self :=
        if decide (length (sb_index_builders self) <= level)
        then sb_set_index self
               (sb_index_builders self ++ [index_block_builder_new (sb_option self)])
        else self in
      b <-- unwrap (sb_index_builders self !! level) ;;
      self <-- (if index_block_would_exceed b end_key position
                then flush_index_block_with (add_index_entry fuel') self level
                else Ok self) ;;
      builder <-- unwrap (sb_index_builders self !! level) ;;
      builder <-- index_block_add builder end_key position ;;
      Ok (sb_set_index self (<[level := builder]> (sb_index_builders self)))
  end.

(** Enough recursion depth for a call at any level. *)
Definition index_fuel (self : SstBuilder S) : nat := length (sb_index_builders self) + 2.

(** [SstBuilder::flush_index_block] at the top of the call stack. *)
Definition flush_index_block (self : SstBuilder S) (level : nat) : StorageResult (SstBuilder S) :=
  flush_index_block_with (add_index_entry (index_fuel self)) self level.

(** [SstBuilder::flush_data_block]. *)
Definition flush_data_block (self : SstBuilder S) : StorageResult (SstBuilder S) :=
  if data_block_is_empty (sb_data_builder self) then Ok self
  else
    let end_key := default [] (data_block_last_key (sb_data_builder self)) in
    let '(block, d) := data_block_finish (sb_data_builder self) in
    let self := sb_set_data self d in
    let! (handle, w) := sst_write_block (sb_writer self) block in
    let self := sb_set_writer self w in
    add_index_entry (index_fuel self) self 0 end_key handle.

(** The key bookkeeping at the head of [add] and [add_delete]. *)
Definition note_key (self : SstBuilder S) (key : bytes) : SstBuilder S :=
  mkSstBuilder (sb_writer self) (sb_data_builder self) (sb_index_builders self) (sb_option self)
    (match sb_first_key self with None => Some key | Some k => Some k end) (Some key).

(** [SstBuilder::add]. *)
Definition sst_add (self : SstBuilder S) (key value : bytes) : StorageResult (SstBuilder S) :=
  let self := note_key self key in
  self <-- (if data_block_would_exceed (sb_data_builder self) key value
            then flush_data_block self else Ok self) ;;
  d <-- data_block_add (sb_data_builder self) key value ;;
  Ok (sb_set_data self d).

(** [SstBuilder::add_delete]. *)
Definition sst_add_delete (self : SstBuilder S) (key : bytes) : StorageResult (SstBuilder S) :=
  let self := note_key self key in
  self <-- (if data_block_would_exceed (sb_data_builder self) key []
            then flush_data_block self else Ok self) ;;
  d <-- data_block_add_delete (sb_data_builder self) key ;;
  Ok (sb_set_data self d).

(** The flush loop of [finish]: [for level in 0..pre_flush_levels]. *)
Definition finish_level (self : SstBuilder S) (level : nat) : StorageResult (SstBuilder S) :=
  b <-- unwrap (sb_index_builders self !! level) ;;
  if index_block_is_empty b then Ok self else flush_index_block self level.

(** [SstBuilder::finish]. *)
Definition sst_finish (self : SstBuilder S) : StorageResult (SstFooter * S) :=
  self <-- flush_data_block self ;;
  let pre_flush_levels := length (sb_index_builders self) in
  self <-- rfold finish_level (seq 0 pre_flush_levels) self ;;
  self <-- (match last (sb_index_builders self) with
            | Some b =>
                if decide (1 < index_block_entry_count b)
                then flush_index_block self (length (sb_index_builders self) - 1)
                else Ok self
            | None => Ok self
            end) ;;
  let height := (Z.of_nat (length (sb_index_builders self)) mod 2 ^ 32)%Z in
  let root_position :=
    default (mkPosition 0)
      (child <$> (last (sb_index_builders self) ≫= index_block_last_entry)) in
  let footer :=
    mkSstFooter root_position height (default [] (sb_first_key self))
      (default [] (sb_last_key self)) in
  let! (_, w) := sst_write_footer (sb_writer self) footer in
  Ok (footer, w).

(** One entry of a sorted run, through [add] or [add_delete]. *)
Definition sst_add_entry (self : SstBuilder S) (e : BlockEntry) : StorageResult (SstBuilder S) :=
  match e with
  | BPut k v => sst_add self k v
  | BDelete k => sst_add_delete self k
  end.

(** A whole build: [new], one call per entry, [finish]. *)
Definition sst_build (writer : S) (option : SstOption) (es : list BlockEntry)
  : StorageResult (SstFooter * S) :=
  self <-- rfold sst_add_entry es (sst_builder_new writer option) ;;
  sst_finish self.
End Ops.
