(* ===== verification/SstTree.v ===== *)
(** What an SST file means: the block tree that the builder promises to leave
    in the target and that the readers rely on.

    A file is a byte string; [subtree] says that an index entry roots an index
    tree of a given height over a list of bottom-level entries, [data_leaf]
    that a bottom-level entry points at a data block, and [sst_file] puts the
    two together under a footer. *)

From stdpp Require Import base list numbers strings sorting.
From S2P Require Import Prelude.
From S2P Require Import Errors.
From S2P Require Import Block.
From S2P Require Import BlockBuilder.
From S2P Require Import Iter.
From S2P Require Import EntryDecode.
From S2P Require Import SstFooter.

Section Tree.
Context (bs : nat).

(** The [bs]-byte slot of [F] at [pos] holds [data]. *)
Definition block_at (F : bytes) (pos : Position) (data : bytes) : Prop :=
  is_u64 (offset pos)
  /\ slice (E := StorageError) F (Z.to_nat (offset pos)) (Z.to_nat (offset pos) + bs) = Ok data.

Definition index_block_at (F : bytes) (pos : Position) (idx : list IndexEntry) : Prop :=
  block_at F pos (padded_image bs (raw_of_index <$> idx))
  /\ length (block_image (raw_of_index <$> idx)) <= bs.

Definition data_block_at (F : bytes) (pos : Position) (es : list BlockEntry) : Prop :=
  block_at F pos (padded_image bs (raw_of_entry <$> es))
  /\ length (block_image (raw_of_entry <$> es)) <= bs.

(** [e] roots an index tree with [h] levels of index blocks; [bottom] lists its
    bottom-level entries, the ones that point at data blocks. *)
Fixpoint subtree (F : bytes) (h : nat) (e : IndexEntry) (bottom : list IndexEntry) : Prop :=
  match h with
  | 0 => bottom = [e]
  | S h' =>
      exists idx bss,
        idx <> []
        /\ index_block_at F (child e) idx
        /\ end_key <$> last idx = Some (end_key e)
        /\ Forall2 (subtree F h') idx bss
        /\ bottom = concat bss
  end.

Definition data_leaf (F : bytes) (e : IndexEntry) (es : list BlockEntry) : Prop :=
  es <> [] /\ data_block_at F (child e) es /\ be_key <$> last es = Some (end_key e).

(** The file [F] read through [footer] holds exactly [es]. *)
Definition sst_file (F : bytes) (footer : SstFooter) (es : list BlockEntry) : Prop :=
  match Z.to_nat (tree_height footer) with
  | 0 => es = []
  | S h =>
      1 <= h
      /\ exists root bottom ess,
        child root = root_index_block_position footer
        /\ subtree F h root bottom
        /\ Forall2 (data_leaf F) bottom ess
        /\ es = concat ess
  end.

(** ** The file only grows *)

Lemma block_at_app F G pos data : block_at F pos data -> block_at (F ++ G) pos data.
Proof. intros [? Hs]. split; [done|]. by apply slice_app_l. Qed.

Lemma index_block_at_app F G pos idx : index_block_at F pos idx -> index_block_at (F ++ G) pos idx.
Proof. intros [? ?]. split; [by apply block_at_app|done]. Qed.

Lemma subtree_app F G h e bottom : subtree F h e bottom -> subtree (F ++ G) h e bottom.
Proof.
  revert e bottom. induction h as [|h IH]; intros e bottom; simpl; [done|].
  intros (idx & bss & Hne & Hb & Hl & HF & ->).
  exists idx, bss. split_and!; try done; [by apply index_block_at_app|].
  eapply Forall2_impl; [exact HF|]. auto.
Qed.

Lemma data_leaf_app F G e es : data_leaf F e es -> data_leaf (F ++ G) e es.
Proof. intros (? & [? ?] & ?). split_and!; try done. split; [by apply block_at_app|done]. Qed.

(** ** End keys *)

Lemma subtree_nonempty F h e bottom : subtree F h e bottom -> bottom <> [].
Proof.
  revert e bottom. induction h as [|h IH]; intros e bottom; simpl; [by intros ->|].
  intros (idx & bss & Hne & _ & _ & HF & ->).
  destruct HF as [|x b idx' bss' Hx HF]; [done|]. simpl.
  apply IH in Hx. by destruct b.
Qed.

Lemma last_concat {A} (xss : list (list A)) (xs : list A) :
  last xss = Some xs -> xs <> [] -> last (concat xss) = last xs.
Proof.
  intros Hl Hne. apply last_Some in Hl as [yss ->].
  rewrite concat_app. simpl. rewrite app_nil_r, last_app.
  destruct (last xs) eqn:Hx; [done|]. by apply last_None in Hx.
Qed.

Lemma Forall2_last {A B} (P : A -> B -> Prop) xs ys x :
  Forall2 P xs ys -> last xs = Some x -> exists y, last ys = Some y /\ P x y.
Proof.
  intros HF Hx. apply last_Some in Hx as [xs' ->].
  apply Forall2_app_inv_l in HF as (ys1 & ys2 & H1 & H2 & ->).
  inversion H2 as [|? y ? ? Hxy H3]; subst. inversion H3; subst.
  exists y. by rewrite last_snoc.
Qed.

(** The end key of an entry is the last bottom-level end key below it. *)
Lemma subtree_last F h e bottom :
  subtree F h e bottom -> end_key <$> last bottom = Some (end_key e).
Proof.
  revert e bottom. induction h as [|h IH]; intros e bottom; simpl; [by intros ->|].
  intros (idx & bss & Hne & _ & Hl & HF & ->).
  destruct (last idx) as [x|] eqn:Hx; [|done]. simplify_eq/=.
  destruct (Forall2_last _ _ _ _ HF Hx) as (b & Hb & Hsub).
  rewrite (last_concat _ _ Hb) by (by eapply subtree_nonempty). rewrite (IH _ _ Hsub). congruence.
Qed.
End Tree.

(** ** Sortedness moves up the tree *)

Lemma StronglySorted_app_inv {A} (R : A -> A -> Prop) l1 l2 :
  StronglySorted R (l1 ++ l2) ->
  StronglySorted R l1 /\ StronglySorted R l2 /\ (forall x y, x ∈ l1 -> y ∈ l2 -> R x y).
Proof.
  induction l1 as [|x l1 IH]; simpl.
  { intros ?. split_and!; [constructor|done|]. intros x y Hx. by apply not_elem_of_nil in Hx. }
  inversion 1 as [|? ? Hs HF]; subst. destruct (IH Hs) as (? & ? & Hc).
  apply Forall_app in HF as [HF1 HF2]. split_and!; [by constructor|done|].
  intros a b [->|Ha]%elem_of_cons Hb; [|auto].
  rewrite Forall_forall in HF2. auto.
Qed.

(** If every [x] carries the last key of its group and the groups, laid end to
    end, are sorted, then so are the [x]s. *)
Lemma sorted_group_ends {X Y} (kx : X -> bytes) (ky : Y -> bytes) xs yss :
  Forall2 (fun x ys => ky <$> last ys = Some (kx x)) xs yss ->
  StronglySorted klt (ky <$> concat yss) -> StronglySorted klt (kx <$> xs).
Proof.
  intros HF. induction HF as [|x ys xs yss Hx HF IH]; simpl; [constructor|].
  rewrite fmap_app. intros (H1 & H2 & H3)%StronglySorted_app_inv.
  constructor; [auto|]. apply Forall_fmap, Forall_forall. intros z Hz. simpl.
  apply list_elem_of_lookup in Hz as [i Hz].
  destruct (Forall2_lookup_l _ _ _ _ _ HF Hz) as (zs & Hzs & Hlast).
  destruct (last ys) as [y|] eqn:Hy; [|done]. destruct (last zs) as [z'|] eqn:Hz'; [|done].
  simplify_eq/=. replace (kx x) with (ky y) by congruence. replace (kx z) with (ky z') by congruence.
  apply H3; apply list_elem_of_fmap_2.
  - apply last_Some in Hy as [? ->]. apply elem_of_app. right. by apply list_elem_of_singleton.
  - apply last_Some in Hz' as [l ->]. apply list_elem_of_lookup_2 in Hzs.
    apply list_elem_of_In, in_concat. eexists. rewrite <- !list_elem_of_In. split; [exact Hzs|].
    apply elem_of_app. right. by apply list_elem_of_singleton.
Qed.

(** Sorted entry lists, on the key projections used above. *)
Lemma ksorted_entries (es : list BlockEntry) :
  ksorted (kv_of_entry <$> es) <-> StronglySorted klt (be_key <$> es).
Proof. unfold ksorted. by rewrite <- list_fmap_compose. Qed.

Lemma ksorted_indexes (es : list IndexEntry) :
  ksorted (kv_of_index <$> es) <-> StronglySorted klt (end_key <$> es).
Proof. unfold ksorted. by rewrite <- list_fmap_compose. Qed.
