(* ===== verification/SstBuilderCorrect.v ===== *)
(** The SST builder is correct: after [finish] the target holds a block tree
    whose leaves are exactly the entries that were added. *)

From stdpp Require Import base list numbers strings sorting.
From S2P Require Import Prelude.
From S2P Require Import Errors.
From S2P Require Import Block.
From S2P Require Import BlockBuilder.
From S2P Require Import Iter.
From S2P Require Import EntryDecode.
From S2P Require Import SstFooter.
From S2P Require Import SstBuilder.
From S2P Require Import SstTree.

(** ** The index promotion as a structural recursion

    [add_levels] works on the builders from [level] upwards; [add_index_entry]
    at [level] is [add_levels] on that suffix. *)

Section AddLevels.
Context {S : Type} `{SstWriter S} (opt : SstOption).

Fixpoint add_levels (w : S) (levels : list IndexBlockBuilder) (ek : bytes) (pos : Position)
  : StorageResult (S * list IndexBlockBuilder) :=
  match levels with
  | [] =>
      b <-- index_block_add (index_block_builder_new opt) ek pos ;;
      Ok (w, [b])
  | b :: levels' =>
      if index_block_would_exceed b ek pos && negb (index_block_is_empty b) then
        let end_key := default [] (end_key <$> index_block_last_entry b) in
        let '(block, b) := index_block_finish b in
        let! (handle, w) := sst_write_block w block in
        let! (w, levels') := add_levels w levels' end_key handle in
        b <-- index_block_add b ek pos ;;
        Ok (w, b :: levels')
      else
        b <-- index_block_add b ek pos ;;
        Ok (w, b :: levels')
  end.

(** The builder after a call that worked on a suffix of the levels. *)
Definition with_levels (self : SstBuilder S) (pre : list IndexBlockBuilder)
  (r : S * list IndexBlockBuilder) : SstBuilder S :=
  sb_set_index (sb_set_writer self r.1) (pre ++ r.2).

Lemma add_index_entry_levels fuel self pre suf ek pos :
  sb_option self = opt -> sb_index_builders self = pre ++ suf -> length suf < fuel ->
  add_index_entry fuel self (length pre) ek pos
  = (r <-- add_levels (sb_writer self) suf ek pos ;; Ok (with_levels self pre r)).
Proof.
  revert self pre ek pos fuel.
  induction suf as [|b suf IH]; intros self pre ek pos [|fuel] Hopt Hb Hf; try (simpl in Hf; lia).
  - cbn [add_index_entry]. rewrite Hb, app_nil_r, decide_True by lia.
    cbn [sb_set_index sb_index_builders]. rewrite lookup_pre. cbn [unwrap rbind].
    unfold flush_index_block_with. cbn [sb_index_builders sb_set_index]. rewrite lookup_pre. simpl.
    rewrite Hopt.
    destruct (index_block_would_exceed _ _ _); simpl; rewrite lookup_pre; simpl;
      (destruct (index_block_add _ _ _); simpl; [|done|done]);
      by rewrite insert_pre.
  - cbn [add_index_entry add_levels]. rewrite Hb.
    rewrite decide_False by (rewrite length_app; simpl; lia). rewrite Hb, lookup_pre.
    cbn [unwrap rbind].
    destruct (index_block_would_exceed b ek pos) eqn:Hw; simpl.
    2:{ rewrite Hb, lookup_pre. simpl.
        destruct (index_block_add b ek pos); simpl; [|done|done].
        rewrite insert_pre. done. }
    unfold flush_index_block_with. rewrite Hb, lookup_pre. cbn [unwrap rbind].
    destruct (index_block_is_empty b) eqn:He; simpl.
    { rewrite Hb, lookup_pre. simpl.
      destruct (index_block_add b ek pos); simpl; [|done|done].
      by rewrite insert_pre. }
    destruct (index_block_finish b) as [block b'] eqn:Hfin. simpl. rewrite ?Hb, insert_pre.
    destruct (sst_write_block (sb_writer self) block) as [[handle w]|e|]; simpl; [|done|done].
    set (self' := sb_set_writer _ _).
    replace (length pre + 1) with (length (pre ++ [b'])) by (rewrite length_app; simpl; lia).
    rewrite (IH self' (pre ++ [b'])); [|done| |simpl in Hf; lia].
    2:{ subst self'. simpl. by rewrite <- app_assoc. }
    change (sb_writer self') with w.
    destruct (add_levels w suf _ handle) as [[w' suf']|e|]; simpl; [|done|done].
    rewrite <- app_assoc. simpl. rewrite lookup_pre. simpl.
    destruct (index_block_add b' ek pos); simpl; [|done|done].
    by rewrite insert_pre.
Qed.
End AddLevels.

(** ** Invariant of the index levels *)

Section Levels.
Context {S : Type} `{SstWriterLaws S} (opt : SstOption).
#[local] Abbreviation bs := (block_size opt).

(** Two index entries with such keys fit in one block. *)
Definition key_fits (k : bytes) : Prop := BLOCK_FIXED_HEADER_SIZE + 2 * (length k + 17) <= bs.

(** One builder at [level], over the trees [bss]. *)
Definition level_ok (F : bytes) (level : nat) (b : IndexBlockBuilder) (bss : list (list IndexEntry))
  : Prop :=
  ib_option b = opt /\ index_block_wf b /\ ib_entries b <> []
  /\ Forall (fun e => key_fits (end_key e)) (ib_entries b)
  /\ Forall2 (subtree bs F level) (ib_entries b) bss.

(** The builders from [level] upwards hold [bottom]: higher levels first. *)
Fixpoint levels_ok (F : bytes) (level : nat) (levels : list IndexBlockBuilder)
  (bottom : list IndexEntry) : Prop :=
  match levels with
  | [] => bottom = []
  | b :: levels' =>
      exists bss upper,
        level_ok F level b bss /\ levels_ok F (Datatypes.S level) levels' upper
        /\ bottom = upper ++ concat bss
  end.

(** Entries held by the builders: each may still cost one block. *)
Definition held (levels : list IndexBlockBuilder) : nat :=
  sum_list (index_block_entry_count <$> levels).

Lemma held_cons b levels : held (b :: levels) = index_block_entry_count b + held levels.
Proof. done. Qed.

Definition count1 (b : IndexBlockBuilder) : Prop := index_block_entry_count b = 1.

Lemma levels_ok_app F G level levels bottom :
  levels_ok F level levels bottom -> levels_ok (F ++ G) level levels bottom.
Proof.
  revert level bottom. induction levels as [|b levels IH]; intros level bottom; simpl; [done|].
  intros (bss & upper & (? & ? & ? & ? & HF) & Hu & ->).
  exists bss, upper. split_and!; [|auto|done]. split_and!; try done.
  eapply Forall2_impl; [exact HF|]. intros. by apply subtree_app.
Qed.

(** Adding an entry to a builder that has room for it. *)
Lemma index_block_add_ok b ek pos :
  ib_option b = opt -> index_block_wf b -> index_block_would_exceed b ek pos = false ->
  key_fits ek ->
  exists b', index_block_add b ek pos = Ok b' /\ ib_option b' = opt /\ index_block_wf b'
          /\ ib_entries b' = ib_entries b ++ [mkIndexEntry ek pos].
Proof.
  unfold index_block_add, index_block_would_exceed, index_block_wf, key_fits.
  intros Ho [Hsz Hfit] Hex Hk. rewrite Ho in *.
  rewrite bool_decide_eq_false in Hex. rewrite bool_decide_true by lia.
  eexists. split; [done|]. cbn [ib_option ib_entries ib_estimated_size].
  split_and!; [done| | |done].
  - rewrite fmap_app, sum_list_with_app, Hsz. simpl. lia.
  - lia.
Qed.

(** A builder with at most one entry has room for another. *)
Lemma one_entry_room b ek pos :
  ib_option b = opt -> index_block_wf b -> index_block_entry_count b <= 1 ->
  Forall (fun e => key_fits (end_key e)) (ib_entries b) -> key_fits ek ->
  index_block_would_exceed b ek pos = false.
Proof.
  unfold index_block_would_exceed, index_block_wf, index_block_entry_count, key_fits.
  intros Ho [Hsz _] Hc HF Hk. rewrite Ho. rewrite bool_decide_false; [done|].
  destruct (ib_entries b) as [|e [|]]; simpl in *; try lia.
  inversion HF; subst. lia.
Qed.

(** A finished builder becomes one block at the end of the target. *)
Lemma flush_block_ok w b bss level :
  sw_ready bs w -> level_ok (sw_target w) level b bss ->
  (Z.of_nat (length (sw_target w) + bs) <= u64_max)%Z ->
  let ek := default [] (end_key <$> index_block_last_entry b) in
  let pos := mkPosition (Z.of_nat (length (sw_target w))) in
  exists block w',
    index_block_finish b = (block, index_block_reset b)
    /\ sst_write_block w block = Ok (pos, w')
    /\ sw_ready bs w' /\ sw_target w' = sw_target w ++ block /\ length block = bs
    /\ key_fits ek
    /\ subtree bs (sw_target w') (Datatypes.S level) (mkIndexEntry ek pos) (concat bss).
Proof.
  intros Hr (Ho & Hwf & Hne & Hk & HF) Hroom ek pos.
  rewrite index_block_finish_image, Ho.
  set (block := padded_image bs _).
  assert (length block = bs) as Hlen by apply length_resize.
  destruct (sw_write_block_ok bs w block Hr Hlen Hroom) as (w' & Hw & Hr' & Ht).
  exists block, w'. split_and!; try done.
  - subst ek. unfold index_block_last_entry. destruct (last (ib_entries b)) as [e|] eqn:Hl.
    + apply last_Some in Hl as [l Hl]. rewrite Hl, Forall_app in Hk.
      destruct Hk as [_ Hk]. by inversion Hk.
    + by apply last_None in Hl.
  - rewrite Ht. exists (ib_entries b), bss. split_and!; try done.
    + split; [split|].
      * subst pos. simpl. unfold is_u64. lia.
      * subst pos. simpl. rewrite Nat2Z.id. apply slice_tail; [done|].
        f_equal. symmetry. exact Hlen.
      * apply index_block_wf_fits in Hwf. by rewrite Ho in Hwf.
    + subst ek. unfold index_block_last_entry. simpl.
      destruct (last (ib_entries b)) as [e|] eqn:Hl; [done|]. by apply last_None in Hl.
    + eapply Forall2_impl; [exact HF|]. intros. by apply subtree_app.
Qed.

Lemma level_ok_snoc F level b b' bss ek pos bt :
  level_ok F level b bss -> ib_option b' = opt -> index_block_wf b' ->
  ib_entries b' = ib_entries b ++ [mkIndexEntry ek pos] ->
  key_fits ek -> subtree bs F level (mkIndexEntry ek pos) bt ->
  level_ok F level b' (bss ++ [bt]).
Proof.
  intros (? & ? & Hne & Hk & HF) Ho' Hwf' He Hek Hsub.
  split_and!; try done; rewrite He.
  - by destruct (ib_entries b).
  - apply Forall_app. auto.
  - apply Forall2_app; [done|]. by constructor.
Qed.

(** A builder holding just the entry it was given. *)
Lemma level_ok_single F level b' ek pos bt :
  ib_option b' = opt -> index_block_wf b' -> ib_entries b' = [mkIndexEntry ek pos] ->
  key_fits ek -> subtree bs F level (mkIndexEntry ek pos) bt ->
  level_ok F level b' [bt].
Proof. intros ? ? He ? ?. split_and!; try done; rewrite He; by repeat constructor. Qed.

Lemma fresh_wf b : ib_option b = opt -> bs <> 0 -> key_fits [] -> index_block_wf (index_block_reset b).
Proof. intros Ho _ Hk. unfold index_block_wf, key_fits in *. simpl in *. rewrite Ho. lia. Qed.

Lemma key_fits_nil k : key_fits k -> key_fits [].
Proof. unfold key_fits. simpl. lia. Qed.

Lemma add_to_empty b ek pos :
  ib_option b = opt -> ib_entries b = [] -> ib_estimated_size b = 0 -> key_fits ek ->
  exists b', index_block_add b ek pos = Ok b' /\ ib_option b' = opt /\ index_block_wf b'
          /\ ib_entries b' = [mkIndexEntry ek pos].
Proof.
  intros Ho He Hs Hk.
  destruct (index_block_add_ok b ek pos) as (b' & Hb & ? & ? & He'); try done.
  - split; rewrite ?He, ?Hs; [done|]. rewrite Ho. unfold key_fits in Hk. lia.
  - unfold index_block_would_exceed. rewrite Ho, Hs. apply bool_decide_false.
    unfold key_fits in Hk. lia.
  - exists b'. rewrite He in He'. auto.
Qed.

(** What [add_levels] does to the levels from [level] upwards. Blocks are paid
    from the entries held: a promotion frees at least two entries. *)
Definition grown (levels levels' : list IndexBlockBuilder) : Prop :=
  (length levels' = length levels
   \/ (length levels' = Datatypes.S (length levels) /\ Forall count1 levels'))
  /\ (forall b l, levels = b :: l -> count1 b ->
        exists b', levels' = b' :: l /\ index_block_entry_count b' = 2).

Lemma add_levels_ok w level levels bottom ek pos bt :
  sw_ready bs w -> levels_ok (sw_target w) level levels bottom ->
  key_fits ek -> subtree bs (sw_target w) level (mkIndexEntry ek pos) bt ->
  (Z.of_nat (length (sw_target w) + bs * held levels) <= u64_max)%Z ->
  exists w' levels' G,
    add_levels opt w levels ek pos = Ok (w', levels')
    /\ sw_ready bs w' /\ sw_target w' = sw_target w ++ G
    /\ levels_ok (sw_target w') level levels' (bottom ++ bt)
    /\ length (sw_target w') + bs * held levels' <= length (sw_target w) + bs * held levels + bs
    /\ grown levels levels'.
Proof.
  revert w level bottom ek pos bt.
  induction levels as [|b levels IH]; intros w level bottom ek pos bt Hr Hl Hk Hsub Hroom.
  - simpl in Hl. subst bottom.
    destruct (add_to_empty (index_block_builder_new opt) ek pos) as (b' & Hb & Ho & Hwf & He); try done.
    simpl. rewrite Hb. simpl. exists w, [b'], []. split_and!; try done.
    + by rewrite app_nil_r.
    + exists [bt], []. split_and!; [|done|by rewrite concat_cons, app_nil_r].
      by eapply level_ok_single.
    + unfold held, index_block_entry_count. simpl. rewrite He. simpl. lia.
    + split; [right|done]. split; [done|]. constructor; [|done].
      unfold count1, index_block_entry_count. by rewrite He.
  - destruct Hl as (bss & upper & Hb & Hu & ->). pose proof Hb as (Ho & Hwf & Hne & Hks & HF).
    cbn [add_levels]. destruct (index_block_would_exceed b ek pos) eqn:Hex; simpl.
    + assert (index_block_is_empty b = false) as -> by (unfold index_block_is_empty; by destruct (ib_entries b)).
      assert (2 <= index_block_entry_count b) as Hc2.
      { destruct (decide (2 <= index_block_entry_count b)); [done|].
        rewrite one_entry_room in Hex; try done. lia. }
      rewrite held_cons in *. pose proof (Nat.mul_le_mono_l _ _ bs Hc2) as Hc2'.
      destruct (flush_block_ok w b bss level Hr Hb ltac:(lia))
        as (block & w1 & Hfin & Hw & Hr1 & Ht1 & Hlb & Hk1 & Hsub1).
      rewrite Hfin, Hw. cbn [negb rbind].
      assert (length (sw_target w1) = length (sw_target w) + bs) as Hl1 by (rewrite Ht1; len).
      destruct (IH w1 (Datatypes.S level) upper _ _ _ Hr1
                  ltac:(rewrite Ht1; by apply levels_ok_app) Hk1 Hsub1 ltac:(lia))
        as (w2 & levels' & G & Hadd & Hr2 & Ht2 & Hok2 & Hcost & Hg).
      rewrite Hadd. cbn [rbind].
      destruct (add_to_empty (index_block_reset b) ek pos) as (b' & Hb' & Ho' & Hwf' & He'); try done.
      rewrite Hb'. cbn [rbind]. eexists w2, (b' :: levels'), (block ++ G).
      split_and!; try done.
      * by rewrite Ht2, Ht1, app_assoc.
      * exists [bt], (upper ++ concat bss). split_and!; [|done|by rewrite concat_cons, app_nil_r].
        eapply level_ok_single; try done. rewrite Ht2, Ht1, <- app_assoc. by apply subtree_app.
      * rewrite held_cons. unfold index_block_entry_count at 1. rewrite He'. simpl. lia.
      * split; [|intros b0 l [= <- <-] H1; unfold count1 in H1; lia].
        destruct Hg as [[Hlen|[Hlen H1]] _]; [left; simpl; lia|right].
        split; [simpl; lia|]. constructor; [|done].
        unfold count1, index_block_entry_count. by rewrite He'.
    + destruct (index_block_add_ok b ek pos) as (b' & Hb' & Ho' & Hwf' & He'); try done.
      rewrite Hb'. simpl. exists w, (b' :: levels), []. split_and!; try done.
      * by rewrite app_nil_r.
      * exists (bss ++ [bt]), upper. split_and!; [|done|].
        -- by eapply level_ok_snoc.
        -- by rewrite concat_app, concat_cons, app_nil_r, app_assoc.
      * unfold held, index_block_entry_count. simpl. rewrite He', length_app. simpl. lia.
      * split; [by left|]. intros b0 l [= <- <-] H1. exists b'. split; [done|].
        unfold count1, index_block_entry_count in *. rewrite He', length_app, H1. done.
Qed.
End Levels.

(** ** Invariant of the builder *)

Section Builder.
Context {S : Type} `{SstWriterLaws S} (opt : SstOption) (base : nat).
#[local] Abbreviation bs := (block_size opt).

(** An entry the format can hold: it fits a data block of its own, and its key
    leaves an index block a fan-out of at least two. *)
Definition entry_fits (e : BlockEntry) : Prop :=
  key_fits opt (be_key e)
  /\ BLOCK_FIXED_HEADER_SIZE + (length (be_key e) + length (be_value e) + 10) < bs.

(** The builder has received [es]; [base] is the size of the target when the
    build started. Every entry has at most two blocks' worth of budget. *)
Definition builder_ok (self : SstBuilder S) (es : list BlockEntry) : Prop :=
  let F := sw_target (sb_writer self) in
  let data := sb_data_builder self in
  sw_ready bs (sb_writer self)
  /\ sb_option self = opt
  /\ (db_option data = opt /\ data_block_wf data)
  /\ (exists bottom ess,
        levels_ok opt F 0 (sb_index_builders self) bottom
        /\ Forall2 (data_leaf bs F) bottom ess
        /\ es = concat ess ++ db_entries data)
  /\ Forall entry_fits es
  /\ base <= length F
  /\ length F + bs * held (sb_index_builders self) + bs * (2 * length (db_entries data))
     <= base + bs * (2 * length es).

Definition builder_keys (self : SstBuilder S) (es : list BlockEntry) : Prop :=
  sb_first_key self = be_key <$> head es /\ sb_last_key self = be_key <$> last es.

Lemma builder_ok_note self es k : builder_ok self es -> builder_ok (note_key self k) es.
Proof. done. Qed.

Lemma data_wf_last_key data :
  db_entries data <> [] ->
  exists e, last (db_entries data) = Some e
         /\ default [] (data_block_last_key data) = be_key e.
Proof.
  intros Hne. unfold data_block_last_key. destruct (last (db_entries data)) as [e|] eqn:Hl.
  - by exists e.
  - by apply last_None in Hl.
Qed.

Lemma data_block_reset_wf data : data_block_wf data -> data_block_wf (data_block_reset data).
Proof. unfold data_block_wf. simpl. lia. Qed.

(** A full data block becomes one block at the end of the target. *)
Lemma write_data_ok w data :
  sw_ready bs w -> db_option data = opt -> data_block_wf data -> db_entries data <> [] ->
  (Z.of_nat (length (sw_target w) + bs) <= u64_max)%Z ->
  let ek := default [] (data_block_last_key data) in
  let pos := mkPosition (Z.of_nat (length (sw_target w))) in
  exists block w',
    data_block_finish data = (block, data_block_reset data)
    /\ sst_write_block w block = Ok (pos, w')
    /\ sw_ready bs w' /\ sw_target w' = sw_target w ++ block /\ length block = bs
    /\ data_leaf bs (sw_target w') (mkIndexEntry ek pos) (db_entries data).
Proof.
  intros Hr Ho Hwf Hne Hroom ek pos. rewrite data_block_finish_image, Ho.
  set (block := padded_image bs _).
  assert (length block = bs) as Hlen by apply length_resize.
  destruct (sw_write_block_ok bs w block Hr Hlen Hroom) as (w' & Hw & Hr' & Ht).
  exists block, w'. split_and!; try done.
  destruct (data_wf_last_key data Hne) as (e & He & Hek).
  split_and!; [done| |by rewrite He; subst ek; simpl; rewrite Hek].
  split; [split|].
  - subst pos. simpl. unfold is_u64. lia.
  - subst pos. simpl. rewrite Nat2Z.id, Ht. apply slice_tail; [done|].
    f_equal. symmetry. exact Hlen.
  - apply data_block_wf_fits in Hwf. by rewrite Ho in Hwf.
Qed.

(** [flush_data_block] moves the pending entries into the tree. *)
Lemma flush_data_block_ok self es :
  builder_ok self es -> (Z.of_nat (base + bs * (2 * length es)) <= u64_max)%Z ->
  exists self' G, flush_data_block self = Ok self' /\ builder_ok self' es
            /\ db_entries (sb_data_builder self') = []
            /\ sw_target (sb_writer self') = sw_target (sb_writer self) ++ G
            /\ sb_first_key self' = sb_first_key self /\ sb_last_key self' = sb_last_key self.
Proof.
  intros (Hr & Ho & (Hdo & Hdwf) & (bottom & ess & Hl & HF & Hes) & Hfit & Hbase & Hcost) Hroom.
  unfold flush_data_block, data_block_is_empty.
  destruct (db_entries (sb_data_builder self)) as [|e0 pend] eqn:Hpend.
  { exists self, []. split_and!; try done.
    - split_and!; try done; [|by rewrite Hpend].
      exists bottom, ess. by rewrite Hpend.
    - by rewrite app_nil_r. }
  assert (db_entries (sb_data_builder self) <> []) as Hne by (by rewrite Hpend).
  rewrite <- Hpend in *. set (data := sb_data_builder self) in *.
  assert (1 <= length (db_entries data)) as Hlen1 by (rewrite Hpend; simpl; lia).
  pose proof (Nat.mul_le_mono_l _ _ (2 * bs) Hlen1) as Hlen1'.
  destruct (write_data_ok (sb_writer self) data Hr Hdo Hdwf Hne ltac:(lia))
    as (block & w1 & Hfin & Hw & Hr1 & Ht1 & Hlb & Hleaf).
  rewrite Hfin. cbn [sb_writer sb_set_data]. rewrite Hw. cbn [rbind].
  set (ek := default [] (data_block_last_key data)) in *.
  set (pos := mkPosition (Z.of_nat (length (sw_target (sb_writer self))))) in *.
  assert (key_fits opt ek) as Hek.
  { destruct (data_wf_last_key data Hne) as (e & He & Hek). subst ek. rewrite Hek.
    apply last_Some in He as [l He]. rewrite Hes, He, !Forall_app in Hfit.
    destruct Hfit as (_ & _ & Hfit). inversion Hfit as [|? ? [? ?] ?]; by subst. }
  set (self1 := sb_set_writer _ w1).
  rewrite (add_index_entry_levels opt _ self1 [] (sb_index_builders self)); [|done|done|].
  2:{ unfold index_fuel. simpl. lia. }
  change (sb_writer self1) with w1.
  assert (length (sw_target w1) = length (sw_target (sb_writer self)) + bs) as Hl1
    by (rewrite Ht1; len).
  destruct (add_levels_ok opt w1 0 (sb_index_builders self) bottom ek pos [mkIndexEntry ek pos])
    as (w2 & levels' & G & Hadd & Hr2 & Ht2 & Hok2 & Hcost2 & _); try done.
  { rewrite Ht1. by apply levels_ok_app. }
  { lia. }
  rewrite Hadd. cbn [rbind]. eexists _, (block ++ G). split; [done|]. unfold with_levels.
  split; [|by simpl; rewrite Ht2, Ht1, app_assoc].
  split_and!; simpl; try done; [by split; [|apply data_block_reset_wf]| |rewrite Ht2; len|lia].
  exists (bottom ++ [mkIndexEntry ek pos]), (ess ++ [db_entries data]). split_and!; [done| |].
  - rewrite Ht2. apply Forall2_app.
    + rewrite Ht1, <- app_assoc. eapply Forall2_impl; [exact HF|]. intros. by apply data_leaf_app.
    + constructor; [|done]. by apply data_leaf_app.
  - rewrite concat_app, concat_cons, !app_nil_r. done.
Qed.

(** [data_block_add] / [data_block_add_delete], by entry. *)
Definition data_block_add_entry (b : DataBlockBuilder) (e : BlockEntry) : StorageResult DataBlockBuilder :=
  match e with BPut k v => data_block_add b k v | BDelete k => data_block_add_delete b k end.

Lemma sst_add_entry_eq (self : SstBuilder S) e :
  sst_add_entry self e =
  (let self := note_key self (be_key e) in
   self <-- (if data_block_would_exceed (sb_data_builder self) (be_key e) (be_value e)
             then flush_data_block self else Ok self) ;;
   d <-- data_block_add_entry (sb_data_builder self) e ;;
   Ok (sb_set_data self d)).
Proof. by destruct e. Qed.

Lemma data_block_add_entry_ok b e :
  db_option b = opt -> data_block_wf b -> entry_fits e ->
  data_block_would_exceed b (be_key e) (be_value e) = false ->
  exists b', data_block_add_entry b e = Ok b' /\ db_option b' = opt /\ data_block_wf b'
          /\ db_entries b' = db_entries b ++ [e].
Proof.
  unfold data_block_would_exceed, data_block_wf.
  intros Ho [Hsz Hfit] [_ He] Hex. rewrite bool_decide_eq_false in Hex. rewrite Ho in *.
  unfold DATA_ENTRY_HEADER_LEN, PER_ENTRY_OFFSET_TABLE_BYTES, BLOCK_FIXED_HEADER_SIZE in *.
  assert (forall n, n = length (be_key e) + length (be_value e) + 10 ->
            db_estimated_size b + n = sum_list ((kv_size ∘ raw_of_entry) <$> (db_entries b ++ [e]))) as Hsum.
  { intros n ->. rewrite fmap_app, sum_list_with_app, Hsz. simpl. unfold kv_size. simpl. lia. }
  destruct e as [k v|k]; simpl in *; unfold data_block_add, data_block_add_delete;
    unfold DATA_ENTRY_HEADER_LEN, PER_ENTRY_OFFSET_TABLE_BYTES, BLOCK_FIXED_HEADER_SIZE; rewrite Ho, bool_decide_true by lia; simpl;
    (eexists; split; [done|]); simpl; split_and!; auto with lia; try (apply Hsum; lia); rewrite Ho; lia.
Qed.

Lemma sst_add_entry_ok self es e :
  builder_ok self es -> builder_keys self es -> entry_fits e ->
  (Z.of_nat (base + bs * (2 * length es)) <= u64_max)%Z ->
  exists self', sst_add_entry self e = Ok self'
             /\ builder_ok self' (es ++ [e]) /\ builder_keys self' (es ++ [e]).
Proof.
  intros Hok Hkeys He Hroom. rewrite sst_add_entry_eq. cbn zeta.
  set (self0 := note_key self (be_key e)).
  assert (builder_keys self0 (es ++ [e])) as Hkeys0.
  { destruct Hkeys as [Hf Hl]. subst self0. split; simpl; [|by rewrite last_snoc].
    rewrite Hf. by destruct es. }
  assert (exists self1,
            (if data_block_would_exceed (sb_data_builder self0) (be_key e) (be_value e)
             then flush_data_block self0 else Ok self0) = Ok self1
            /\ builder_ok self1 es /\ builder_keys self1 (es ++ [e])
            /\ data_block_would_exceed (sb_data_builder self1) (be_key e) (be_value e) = false)
    as (self1 & -> & (Hr & Ho & (Hdo & Hdwf) & (bottom & ess & Hl & HF & Hes) & Hfit & Hbase & Hcost)
          & Hkeys1 & Hex).
  { destruct (data_block_would_exceed (sb_data_builder self0) _ _) eqn:Hex; [|by exists self0].
    destruct (flush_data_block_ok self0 es) as (self1 & G & Hfl & Hok1 & Hemp & _ & Hf1 & Hl1); [done|done|].
    exists self1. split_and!; try done.
    - unfold builder_keys in *. by rewrite Hf1, Hl1.
    - destruct Hok1 as (_ & _ & (Hdo & [Hsz _]) & _). rewrite Hemp in Hsz. simpl in Hsz.
      unfold data_block_would_exceed. rewrite Hdo, Hsz. apply bool_decide_false.
      destruct He as [_ He].
      unfold DATA_ENTRY_HEADER_LEN, PER_ENTRY_OFFSET_TABLE_BYTES. lia. }
  cbn [rbind].
  destruct (data_block_add_entry_ok (sb_data_builder self1) e) as (b' & -> & Hbo & Hbwf & Hbe); try done.
  cbn [rbind]. eexists. split; [done|]. split; [|done].
  split_and!; simpl; try done.
  - exists bottom, ess. split_and!; try done. by rewrite Hbe, Hes, app_assoc.
  - apply Forall_app. auto.
  - rewrite Hbe, !length_app. simpl. lia.
Qed.

Lemma sst_add_entries_ok es' : forall self es,
  builder_ok self es -> builder_keys self es -> Forall entry_fits es' ->
  (Z.of_nat (base + bs * (2 * length (es ++ es'))) <= u64_max)%Z ->
  exists self', rfold sst_add_entry es' self = Ok self'
             /\ builder_ok self' (es ++ es') /\ builder_keys self' (es ++ es').
Proof.
  induction es' as [|e es' IH]; intros self es Hok Hkeys HF Hroom; simpl.
  { rewrite app_nil_r. by exists self. }
  inversion HF as [|? ? He HF']; subst. rewrite length_app in Hroom. simpl in Hroom.
  destruct (sst_add_entry_ok self es e) as (self1 & -> & Hok1 & Hk1); try done; [lia|].
  cbn [rbind]. destruct (IH self1 (es ++ [e])) as (self' & -> & ?); try done.
  { rewrite <- app_assoc, length_app. simpl. lia. }
  exists self'. by rewrite <- app_assoc in *.
Qed.

(** ** Finishing *)

(** Levels left to flush, from the lowest one not yet flushed: either no level
    was added by the flushing so far ([k] levels remain), or one was and every
    level above the lowest holds a single entry. *)
Definition flushing (k : nat) (levels : list IndexBlockBuilder) : Prop :=
  (length levels = k /\ 1 <= k)
  \/ (length levels = Datatypes.S k
      /\ exists b l, levels = b :: l /\ index_block_entry_count b <= 2 /\ Forall count1 l).

(** Flushing the lowest level of a suffix. *)
Lemma flush_lowest_ok self pre b levels bottom k :
  sw_ready bs (sb_writer self) -> sb_option self = opt ->
  sb_index_builders self = pre ++ b :: levels ->
  levels_ok opt (sw_target (sb_writer self)) (length pre) (b :: levels) bottom ->
  (Z.of_nat (length (sw_target (sb_writer self)) + bs * held (b :: levels) + bs) <= u64_max)%Z ->
  flushing k (b :: levels) ->
  exists self' levels' G,
    flush_index_block self (length pre) = Ok self'
    /\ sw_ready bs (sb_writer self') /\ sb_option self' = opt
    /\ sw_target (sb_writer self') = sw_target (sb_writer self) ++ G
    /\ sb_index_builders self' = (pre ++ [index_block_reset b]) ++ levels'
    /\ levels_ok opt (sw_target (sb_writer self')) (Datatypes.S (length pre)) levels' bottom
    /\ length (sw_target (sb_writer self')) + bs * held levels'
       <= length (sw_target (sb_writer self)) + bs * held (b :: levels) + bs
    /\ (k = 0 -> levels = [] -> length levels' = 1 /\ Forall count1 levels')
    /\ (forall k', k = Datatypes.S k' -> flushing k' levels')
    /\ sb_first_key self' = sb_first_key self /\ sb_last_key self' = sb_last_key self
    /\ sb_data_builder self' = sb_data_builder self.
Proof.
  intros Hr Ho Hb (bss & upper & Hlev & Hu & ->) Hroom Hph. rewrite held_cons in *.
  assert (1 <= index_block_entry_count b) as Hc1.
  { destruct Hlev as (_ & _ & Hne & _). unfold index_block_entry_count.
    destruct (ib_entries b); simpl; [done|lia]. }
  pose proof (Nat.mul_le_mono_l _ _ bs Hc1) as Hc1'.
  destruct (flush_block_ok opt (sb_writer self) b bss (length pre) Hr Hlev ltac:(lia))
    as (block & w1 & Hfin & Hw & Hr1 & Ht1 & Hlb & Hk1 & Hsub1).
  assert (length (sw_target w1) = length (sw_target (sb_writer self)) + bs) as Hl1
    by (rewrite Ht1; len).
  destruct (add_levels_ok opt w1 (Datatypes.S (length pre)) levels upper _ _ _ Hr1
              ltac:(rewrite Ht1; by apply levels_ok_app) Hk1 Hsub1 ltac:(lia))
    as (w2 & levels' & G & Hadd & Hr2 & Ht2 & Hok2 & Hcost2 & Hg).
  unfold flush_index_block, flush_index_block_with. rewrite Hb, lookup_pre. cbn [unwrap rbind].
  assert (index_block_is_empty b = false) as ->.
  { unfold index_block_is_empty, index_block_entry_count in *. by destruct (ib_entries b); [simpl in *; lia|]. }
  rewrite Hfin, insert_pre. cbn [sb_writer sb_set_index]. rewrite Hw. cbn [rbind].
  replace (length pre + 1) with (length (pre ++ [index_block_reset b])) by (rewrite length_app; simpl; lia).
  rewrite (add_index_entry_levels opt _ _ (pre ++ [index_block_reset b]) levels); [|done| |].
  2:{ simpl. by rewrite <- app_assoc. }
  2:{ unfold index_fuel. rewrite Hb, length_app. simpl. lia. }
  cbn [sb_writer sb_set_writer]. rewrite Hadd. cbn [rbind].
  assert (upper ++ concat bss <> []) as Hne'.
  { intros [_ Hnil]%app_nil. by apply subtree_nonempty in Hsub1. }
  eexists _, levels', (block ++ G). split; [done|]. unfold with_levels. simpl.
  split_and!; try done.
  - by rewrite Ht2, Ht1, app_assoc.
  - lia.
  - intros -> ->. destruct Hg as [[Hlen|[Hlen H1]] _]; [|by split].
    by destruct levels'; [apply Hne' in Hok2|].
  - intros k' ->. destruct Hph as [[Hlk _]|[Hlk (b0 & l & [= <- <-] & _ & H1')]]; simpl in Hlk.
    + destruct Hg as [[Hlen|[Hlen H1]] _].
      * left. split; [lia|]. destruct levels' as [|b' ?]; [by apply Hne' in Hok2|simpl in *; lia].
      * right. split; [lia|]. destruct levels' as [|b' l']; [simpl in Hlen; lia|].
        inversion H1 as [|? ? Hb' Hl']; subst. exists b', l'. unfold count1 in Hb'.
        split_and!; [done|lia|done].
    + destruct levels as [|b1 l1]; [simpl in Hlk; lia|].
      inversion H1' as [|? ? Hb1 Hl1']; subst.
      destruct Hg as [_ H2]. destruct (H2 b1 l1 eq_refl Hb1) as (b' & -> & Hb').
      right. split; [simpl in *; lia|]. exists b', l1. split_and!; [done|lia|done].
Qed.

Lemma levels_ok_nonempty F level b levels bottom :
  levels_ok opt F level (b :: levels) bottom -> index_block_is_empty b = false.
Proof.
  intros (bss & upper & (_ & _ & Hne & _) & _). unfold index_block_is_empty.
  by destruct (ib_entries b).
Qed.

(** The flush loop of [finish]. *)
Lemma finish_loop_ok k : forall self pre levels bottom,
  sw_ready bs (sb_writer self) -> sb_option self = opt ->
  sb_index_builders self = pre ++ levels ->
  levels_ok opt (sw_target (sb_writer self)) (length pre) levels bottom ->
  (Z.of_nat (length (sw_target (sb_writer self)) + bs * held levels + bs * k) <= u64_max)%Z ->
  flushing k levels ->
  exists self' pre' levels' G,
    rfold finish_level (seq (length pre) k) self = Ok self'
    /\ sw_ready bs (sb_writer self') /\ sb_option self' = opt
    /\ sw_target (sb_writer self') = sw_target (sb_writer self) ++ G
    /\ sb_index_builders self' = pre' ++ levels' /\ length pre' = length pre + k
    /\ levels_ok opt (sw_target (sb_writer self')) (length pre') levels' bottom
    /\ length (sw_target (sb_writer self')) + bs * held levels'
       <= length (sw_target (sb_writer self)) + bs * held levels + bs * k
    /\ flushing 0 levels'
    /\ sb_first_key self' = sb_first_key self /\ sb_last_key self' = sb_last_key self.
Proof.
  induction k as [|k IH]; intros self pre levels bottom Hr Ho Hb Hl Hroom Hph.
  { exists self, pre, levels, []. rewrite app_nil_r. simpl. split_and!; try done; lia. }
  destruct levels as [|b levels]; [destruct Hph as [[? ?]|[? _]]; simpl in *; lia|].
  destruct (flush_lowest_ok self pre b levels bottom (Datatypes.S k)) as
    (self1 & levels1 & G1 & Hfl & Hr1 & Ho1 & Ht1 & Hb1 & Hl1 & Hc1 & _ & Hph1 & Hf1 & Hk1 & _);
    try done; [lia|].
  cbn [seq rfold]. unfold finish_level at 1. rewrite Hb, lookup_pre. cbn [unwrap rbind].
  rewrite (levels_ok_nonempty _ _ _ _ _ Hl), Hfl. cbn [rbind].
  assert (length (pre ++ [index_block_reset b]) = Datatypes.S (length pre)) as Hlp by (rewrite length_app; simpl; lia).
  destruct (IH self1 (pre ++ [index_block_reset b]) levels1 bottom) as
    (self' & pre' & levels' & G & Hrf & Hr' & Ho' & Ht' & Hb' & Hlp' & Hl' & Hc' & Hph' & Hf' & Hk');
    try done.
  { by rewrite Hlp. }
  { lia. }
  { by apply Hph1. }
  rewrite Hlp in *. exists self', pre', levels', (G1 ++ G). rewrite Hrf.
  split_and!; try done; try lia; [by rewrite Ht', Ht1, app_assoc|congruence|congruence].
Qed.

(** The state right before the footer is written. *)
Definition finished (self : SstBuilder S) (bottom : list IndexEntry) : Prop :=
  (sb_index_builders self = [] /\ bottom = [])
  \/ exists pre b e,
       sb_index_builders self = pre ++ [b] /\ ib_entries b = [e] /\ 1 <= length pre
       /\ subtree bs (sw_target (sb_writer self)) (length pre) e bottom.

Lemma single_level F level b bottom :
  levels_ok opt F level [b] bottom -> index_block_entry_count b = 1 ->
  exists e, ib_entries b = [e] /\ subtree bs F level e bottom.
Proof.
  intros (bss & upper & (_ & _ & _ & _ & HF) & -> & ->) H1.
  unfold index_block_entry_count in H1.
  destruct (ib_entries b) as [|e [|? ?]]; simpl in H1; try lia. exists e. split; [done|].
  inversion HF as [|? bt ? ? Hs HF']; subst. inversion HF'; subst. simpl. by rewrite app_nil_r.
Qed.

(** The flush of an overfull topmost level. *)
Lemma finish_top_ok self pre levels bottom :
  sw_ready bs (sb_writer self) -> sb_option self = opt ->
  sb_index_builders self = pre ++ levels -> 1 <= length pre ->
  levels_ok opt (sw_target (sb_writer self)) (length pre) levels bottom ->
  (Z.of_nat (length (sw_target (sb_writer self)) + bs * held levels + bs) <= u64_max)%Z ->
  flushing 0 levels ->
  exists self' G,
    (match last (sb_index_builders self) with
     | Some b =>
         if decide (1 < index_block_entry_count b)
         then flush_index_block self (length (sb_index_builders self) - 1)
         else Ok self
     | None => Ok self
     end) = Ok self'
    /\ sw_ready bs (sb_writer self')
    /\ finished self' bottom
    /\ sw_target (sb_writer self') = sw_target (sb_writer self) ++ G
    /\ length (sw_target (sb_writer self')) <= length (sw_target (sb_writer self)) + bs * held levels + bs
    /\ length (sb_index_builders self') <= length pre + 2
    /\ sb_first_key self' = sb_first_key self /\ sb_last_key self' = sb_last_key self.
Proof.
  intros Hr Ho Hb Hpre Hl Hroom Hph.
  destruct Hph as [[? ?]|[Hlen (b & l & -> & Hc & _)]]; [lia|].
  destruct l; [|simpl in Hlen; lia]. rewrite Hb, last_snoc. case_decide as Hd.
  - destruct (flush_lowest_ok self pre b [] bottom 0) as
      (self1 & levels1 & G1 & Hfl & Hr1 & Ho1 & Ht1 & Hb1 & Hl1 & Hc1 & H1 & _ & Hf1 & Hk1 & _); try done.
    { right. split; [done|]. exists b, []. auto. }
    replace (length (pre ++ [b]) - 1) with (length pre) by (rewrite length_app; simpl; lia).
    exists self1, G1. destruct (H1 eq_refl eq_refl) as [H1len H1c].
    destruct levels1 as [|b1 [|? ?]]; simpl in H1len; try lia.
    apply Forall_cons in H1c as [H1c _]. destruct (single_level _ _ _ _ Hl1 H1c) as (e & He & Hsub).
    split_and!; try done.
    + right. exists (pre ++ [index_block_reset b]), b1, e.
      split_and!; try done; [|by rewrite length_app; simpl; rewrite Nat.add_1_r].
      rewrite length_app; simpl; lia.
    + pose proof (Nat.le_0_l (bs * held [b1])). lia.
    + rewrite Hb1, !length_app. simpl. lia.
  - exists self, []. rewrite app_nil_r.
    assert (index_block_entry_count b = 1) as Hb1.
    { destruct Hl as (? & ? & (_ & _ & Hne & _) & _). unfold index_block_entry_count in *.
      destruct (ib_entries b); simpl in *; [done|lia]. }
    destruct (single_level _ _ _ _ Hl Hb1) as (e & He & Hsub).
    split_and!; try done; try lia; [|rewrite Hb, length_app; simpl; lia].
    right. by exists pre, b, e.
Qed.

Lemma held_ge F level levels bottom :
  levels_ok opt F level levels bottom -> length levels <= held levels.
Proof.
  revert level bottom. induction levels as [|b levels IH]; intros level bottom; simpl; [lia|].
  intros (bss & upper & (_ & _ & Hne & _) & Hu & _). apply IH in Hu. rewrite held_cons.
  unfold index_block_entry_count. destruct (ib_entries b); simpl; [done|lia].
Qed.

(** The footer that [finish] computes from the final levels. *)
Definition final_footer (self : SstBuilder S) : SstFooter :=
  mkSstFooter
    (default (mkPosition 0) (child <$> (last (sb_index_builders self) ≫= index_block_last_entry)))
    (Z.of_nat (length (sb_index_builders self)) mod 2 ^ 32)
    (default [] (sb_first_key self)) (default [] (sb_last_key self)).

Lemma finished_file self bottom ess F :
  finished self bottom -> Forall2 (data_leaf bs F) bottom ess ->
  (exists G, F = sw_target (sb_writer self) ++ G) ->
  (Z.of_nat (length (sb_index_builders self)) <= u32_max)%Z ->
  sst_file bs F (final_footer self) (concat ess).
Proof.
  intros Hfin HF [G ->] Hh. unfold sst_file, final_footer. cbn [tree_height root_index_block_position].
  rewrite Z.mod_small by (unfold u32_max in Hh; lia). rewrite Nat2Z.id.
  destruct Hfin as [[-> ->]|(pre & b & e & Hb & He & Hpre & Hsub)]; simpl.
  { by inversion HF. }
  rewrite Hb, length_app. simpl. rewrite Nat.add_1_r. split; [done|].
  exists e, bottom, ess. rewrite last_snoc. simpl. unfold index_block_last_entry. rewrite He.
  split_and!; try done. by apply subtree_app.
Qed.

Lemma final_root_u64 self bottom :
  finished self bottom -> is_u64 (offset (root_index_block_position (final_footer self))).
Proof.
  intros [[Hb _]|(pre & b & e & Hb & He & Hpre & Hsub)]; unfold final_footer; rewrite Hb; simpl.
  { unfold is_u64, u64_max. simpl. lia. }
  rewrite last_snoc. simpl. unfold index_block_last_entry. rewrite He. simpl.
  destruct (length pre); [lia|]. by destruct Hsub as (idx & bss & _ & [[? _] _] & _).
Qed.

(** [finish], given that every entry was added. *)
Lemma sst_finish_ok self es :
  builder_ok self es -> builder_keys self es -> bs <> 0 ->
  (forall f, first_key f = default [] (be_key <$> head es) ->
             last_key f = default [] (be_key <$> last es) ->
     sw_footer_fits S bs f
     /\ (Z.of_nat (base + bs * (4 * length es + 1) + length (sw_footer_image S bs f)) <= u64_max)%Z) ->
  (Z.of_nat (2 * length es + 2) <= u32_max)%Z ->
  exists footer w G,
    sst_finish self = Ok (footer, w)
    /\ sw_target w = G ++ sw_footer_image S bs footer
    /\ sst_file bs (sw_target w) footer es
    /\ is_u32 (tree_height footer) /\ is_u64 (offset (root_index_block_position footer))
    /\ first_key footer = default [] (be_key <$> head es)
    /\ last_key footer = default [] (be_key <$> last es)
    /\ sw_ready bs w.
Proof.
  intros Hok [Hfk Hlk] Hbs0 Hroom Hn.
  pose proof (Hroom (mkSstFooter (mkPosition 0) 0 (default [] (be_key <$> head es))
                       (default [] (be_key <$> last es))) eq_refl eq_refl) as [_ Hroom0].
  destruct (flush_data_block_ok self es Hok) as (self1 & G0 & Hfl & Hok1 & Hemp & Ht1 & Hf1 & Hl1); [lia|].
  destruct Hok1 as (Hr1 & Ho1 & _ & (bottom & ess & Hlev & HF & Hes) & _ & Hbase & Hcost).
  rewrite Hemp, app_nil_r in Hes. rewrite Hemp in Hcost. simpl in Hcost.
  pose proof (held_ge _ _ _ _ Hlev) as Hheld.
  set (P := length (sb_index_builders self1)) in *.
  assert (held (sb_index_builders self1) <= 2 * length es) as Hheld2.
  { apply (Nat.mul_le_mono_pos_l _ _ bs); lia. }
  assert (bs * P <= bs * (2 * length es)) as HbP by (apply Nat.mul_le_mono_l; lia).
  unfold sst_finish. rewrite Hfl. cbn [rbind]. fold P.
  assert (exists self3 G,
    (self <-- rfold finish_level (seq 0 P) self1 ;;
     match last (sb_index_builders self) with
     | Some b =>
         if decide (1 < index_block_entry_count b)
         then flush_index_block self (length (sb_index_builders self) - 1)
         else Ok self
     | None => Ok self
     end) = Ok self3
    /\ sw_ready bs (sb_writer self3) /\ finished self3 bottom
    /\ sw_target (sb_writer self3) = sw_target (sb_writer self1) ++ G
    /\ length (sw_target (sb_writer self3)) <= base + bs * (4 * length es + 1)
    /\ length (sb_index_builders self3) <= P + 2
    /\ sb_first_key self3 = sb_first_key self1 /\ sb_last_key self3 = sb_last_key self1)
    as (self3 & G & Hloop & Hr3 & Hfin & Ht3 & Hc3 & Hh3 & Hf3 & Hl3).
  { destruct (decide (P = 0)) as [HP|HP].
    - assert (sb_index_builders self1 = []) as Hnil by (by apply nil_length_inv).
      rewrite HP. cbn [seq rfold rbind]. exists self1, []. rewrite Hnil, app_nil_r in *. simpl.
      split_and!; try done; try lia. left. by rewrite Hnil.
    - destruct (finish_loop_ok P self1 [] (sb_index_builders self1) bottom) as
        (self2 & pre & levels & G1 & Hrf & Hr2 & Ho2 & Ht2 & Hb2 & Hlp & Hl2 & Hc2 & Hph & Hf2 & Hk2); try done.
      { lia. }
      { left. split; [done|lia]. }
      simpl in Hrf, Hlp. rewrite Hrf. cbn [rbind].
      destruct (finish_top_ok self2 pre levels bottom) as
        (self3 & G2 & Htop & Hr3 & Hfin & Ht3 & Hc3 & Hh3 & Hf3 & Hl3); try done; [lia|lia|].
      exists self3, (G1 ++ G2). split_and!; try done; try lia;
        [by rewrite Ht3, Ht2, app_assoc|congruence|congruence]. }
  revert Hloop. destruct (rfold finish_level (seq 0 P) self1) as [self2| |]; cbn [rbind]; [|done|done].
  intros Htop. rewrite Htop. cbn [rbind]. fold (final_footer self3).
  assert (first_key (final_footer self3) = default [] (be_key <$> head es)
          /\ last_key (final_footer self3) = default [] (be_key <$> last es)) as [Hk1 Hk2].
  { unfold final_footer. simpl. by rewrite Hf3, Hl3, Hf1, Hl1, Hfk, Hlk. }
  destruct (Hroom _ Hk1 Hk2) as [Hff Hroom1].
  destruct (sw_write_footer_ok bs (sb_writer self3) (final_footer self3) Hr3 Hff) as (pos & w & Hw & Hrw & Htw); [lia|].
  rewrite Hw. cbn [rbind]. eexists _, w, _. split; [done|]. split; [exact Htw|].
  split_and!; try done.
  - rewrite Hes. eapply finished_file; [done| |by eexists|lia].
    rewrite Htw, Ht3, <- app_assoc. eapply Forall2_impl; [exact HF|]. intros. by apply data_leaf_app.
  - unfold final_footer, is_u32. simpl.
    rewrite Z.mod_small by (unfold u32_max in Hn; lia). unfold u32_max in *. lia.
  - by eapply final_root_u64.
Qed.

Lemma builder_new_ok w :
  sw_ready bs w -> base = length (sw_target w) -> BLOCK_FIXED_HEADER_SIZE <= bs ->
  builder_ok (sst_builder_new w opt) [] /\ builder_keys (sst_builder_new w opt) [].
Proof.
  intros Hr Hb Hbs. split; [|done]. split_and!; simpl; try done.
  - by exists [], [].
  - lia.
  - unfold held. simpl. lia.
Qed.
End Builder.
