(* ===== verification/IndexTreeIter.v ===== *)
(** The B+tree index iterator (iterators/index_tree_iter.rs): a stack of
    index-block iterators from the root to the leaf index level. *)

From stdpp Require Import base list numbers strings pretty sorting.
From S2P Require Import Prelude.
From S2P Require Import Errors.
From S2P Require Import Block.
From S2P Require Import BlockBuilder.
From S2P Require Import Iter.
From S2P Require Import BlockIter.
From S2P Require Import EntryDecode.
From S2P Require Import SstFooter.
From S2P Require Import SstTree.

(** The per-level iterator [IndexEntryDecodeIter<I>] at the default [I]. *)
Abbreviation LevelIter := (IndexEntryDecodeIter NormalBlockIter).

(** [IndexTreeIter] ([option] is never read and is left out). *)
Record IndexTreeIter (R : Type) := mkIndexTreeIter {
  it_reader : R;
  it_tree_height : nat;
  it_root_position : Position;
  it_index_iters : list LevelIter;
  it_curr_iter_idx : nat;
}.
Arguments mkIndexTreeIter {R} _ _ _ _ _.
Arguments it_reader {R} _.
Arguments it_tree_height {R} _.
Arguments it_root_position {R} _.
Arguments it_index_iters {R} _.
Arguments it_curr_iter_idx {R} _.

Section Ops.
Context {R : Type} `{BlockReader R}.

(** [IndexTreeIter::new]. *)
Definition index_tree_iter_new (reader : R) (footer : SstFooter) : IndexTreeIter R :=
  mkIndexTreeIter reader (Z.to_nat (tree_height footer)) (root_index_block_position footer) [] 0.

Definition set_stack (self : IndexTreeIter R) (iters : list LevelIter) (curr : nat) : IndexTreeIter R :=
  mkIndexTreeIter (it_reader self) (it_tree_height self) (it_root_position self) iters curr.

(** [IndexTreeIter::reset]: only the stack is cleared. *)
Definition reset (self : IndexTreeIter R) : IndexTreeIter R :=
  set_stack self [] (it_curr_iter_idx self).

(** [IndexTreeIter::last_index_level]: [tree_height - 2] underflows below 2. *)
Definition last_index_level (self : IndexTreeIter R) : StorageResult nat :=
  if decide (it_tree_height self < 2) then Panic else Ok (it_tree_height self - 2).

(** [reader.read_block(pos)] and [IndexEntryDecodeIter::new(I::from_block(..))]. *)
Definition open_level (self : IndexTreeIter R) (pos : Position) : StorageResult LevelIter :=
  block <-- read_block (it_reader self) pos ;;
  index_iter_from_block block.

(** [curr_iter.value().ok_or_else(..)?.into()]. *)
Definition child_position (it : LevelIter) : StorageResult Position :=
  v <-- value it ;;
  v <-- ok_or (InvalidValue "iter values not exists") v ;;
  position_of_index_entry v.

(** The loop of [locate]; [fuel] is [last_index_level - curr_iter_idx]. *)
Fixpoint locate_loop (fuel : nat) (target : bytes) (self : IndexTreeIter R)
  : StorageResult (IndexTreeIter R) :=
  match fuel with
  | 0 => Ok self
  | S fuel' =>
      let curr := it_curr_iter_idx self in
      curr_iter <-- unwrap (it_index_iters self !! curr) ;;
      if negb (valid curr_iter) then
        if decide (curr = 0) then Ok self
        else Err (InvalidValue ("corrupt index: empty child block at level " +:+ pretty curr
                                +:+ " under a positioned parent"))
      else
        next_pos <-- child_position curr_iter ;;
        child_iter <-- open_level self next_pos ;;
        child_iter <-- seek_lower_bound target child_iter ;;
        locate_loop fuel' target
          (set_stack self (it_index_iters self ++ [child_iter]) (curr + 1))
  end.

(** [IndexTreeIter::locate]. *)
Definition locate (target : bytes) (self : IndexTreeIter R) : StorageResult (IndexTreeIter R) :=
  if decide (it_tree_height self <= 1) then Ok self
  else
    let self := reset self in
    root_iter <-- open_level self (it_root_position self) ;;
    root_iter <-- seek_lower_bound target root_iter ;;
    let self := set_stack self (it_index_iters self ++ [root_iter]) (it_curr_iter_idx self) in
    last <-- last_index_level self ;;
    locate_loop (last - it_curr_iter_idx self) target self.

Section Dir.
Context (d : direction).

(** The loop of [inner_seek_to_first] ([inner_seek_to_last] for [Rev]). *)
Fixpoint first_loop (fuel : nat) (self : IndexTreeIter R) : StorageResult (IndexTreeIter R) :=
  match fuel with
  | 0 => Ok self
  | S fuel' =>
      let curr := it_curr_iter_idx self in
      curr_iter <-- unwrap (it_index_iters self !! curr) ;;
      if negb (valid curr_iter)
      then Err (InvalidValue "corrupt index: empty block during seek_to_first/last descent")
      else
        next_pos <-- child_position curr_iter ;;
        child_iter <-- open_level self next_pos ;;
        child_iter <-- seek_to_first d child_iter ;;
        first_loop fuel' (set_stack self (it_index_iters self ++ [child_iter]) (curr + 1))
  end.

(** [inner_seek_to_first] / [inner_seek_to_last]. *)
Definition inner_seek_to_first (self : IndexTreeIter R) : StorageResult (IndexTreeIter R) :=
  if decide (it_tree_height self <= 1) then Ok self
  else
    let self := reset self in
    root_iter <-- open_level self (it_root_position self) ;;
    root_iter <-- seek_to_first d root_iter ;;
    let self := set_stack self (it_index_iters self ++ [root_iter]) (it_curr_iter_idx self) in
    last <-- last_index_level self ;;
    first_loop (last - it_curr_iter_idx self) self.

(** Phase 1 of [inner_next] / [inner_prev]: the flag says whether some level
    still had a next entry ([break]) or the root was exhausted ([return]).
    [curr] is [self.curr_iter_idx]. *)
Fixpoint next_phase1 (iters : list LevelIter) (curr : nat)
  : StorageResult (bool * list LevelIter * nat) :=
  curr_iter <-- unwrap (iters !! curr) ;;
  curr_iter <-- next d curr_iter ;;
  if valid curr_iter then Ok (true, <[curr := curr_iter]> iters, curr)
  else
    let iters := delete curr iters in
    match curr with
    | 0 => Ok (false, iters, 0)
    | S curr' => next_phase1 iters curr'
    end.

(** Phase 2: re-descend through first entries; [fuel] is
    [last_index_level - curr_iter_idx]. *)
Fixpoint next_phase2 (fuel : nat) (self : IndexTreeIter R) : StorageResult (IndexTreeIter R) :=
  match fuel with
  | 0 => Ok self
  | S fuel' =>
      let curr := it_curr_iter_idx self in
      curr_iter <-- unwrap (it_index_iters self !! curr) ;;
      next_pos <-- child_position curr_iter ;;
      child_iter <-- open_level self next_pos ;;
      child_iter <-- seek_to_first d child_iter ;;
      if negb (valid child_iter)
      then Err (InvalidValue (match d with
                              | Fwd => "corrupt index: empty block during next descent"
                              | Rev => "corrupt index: empty block during prev descent"
                              end))
      else
        next_phase2 fuel' (set_stack self (it_index_iters self ++ [child_iter]) (curr + 1))
  end.

(** [inner_next] / [inner_prev]. *)
Definition inner_next (self : IndexTreeIter R) : StorageResult (IndexTreeIter R) :=
  last <-- last_index_level self ;;
  match it_index_iters self with
  | [] => Ok self
  | _ =>
      let! (found, iters, curr) := next_phase1 (it_index_iters self) (it_curr_iter_idx self) in
      let self := set_stack self iters curr in
      if (found : bool) then next_phase2 (last - curr) self else Ok self
  end.
End Dir.

(** [IterRead]. *)
Definition tree_valid (self : IndexTreeIter R) : bool :=
  match it_index_iters self !! it_curr_iter_idx self with
  | Some it => valid it
  | None => false
  end.

Definition tree_key (self : IndexTreeIter R) : StorageResult (option bytes) :=
  if tree_valid self
  then it <-- unwrap (it_index_iters self !! it_curr_iter_idx self) ;; key it
  else Ok None.

Definition tree_value (self : IndexTreeIter R) : StorageResult (option Position) :=
  if tree_valid self then
    it <-- unwrap (it_index_iters self !! it_curr_iter_idx self) ;;
    v <-- value it ;;
    match v with
    | Some v => p <-- position_of_index_entry v ;; Ok (Some p)
    | None => Ok None
    end
  else Ok None.

#[export] Instance IndexTreeIter_read : IterRead (IndexTreeIter R) Position :=
  {| valid := tree_valid; key := tree_key; value := tree_value |}.

(** [ForwardIter::seek] is [locate]; [ReverseIter::seek] falls back to the last
    entry when the target exceeds every end key. *)
Definition tree_rev_seek (target : bytes) (self : IndexTreeIter R) : StorageResult (IndexTreeIter R) :=
  self <-- locate target self ;;
  if negb (tree_valid self) then inner_seek_to_first Rev self else Ok self.

#[export] Instance IndexTreeIter_dir (d : direction) : DirIter d (IndexTreeIter R) := {|
  seek_to_first := inner_seek_to_first d;
  seek target self := match d with Fwd => locate target self | Rev => tree_rev_seek target self end;
  next := inner_next d;
|}.
End Ops.
