(* ===== verification/IndexTreeCorrect.v ===== *)
(** The index-tree iterator is correct over a well-formed tree: it visits the
    bottom-level entries in either direction, and [locate] finds the first end
    key at or after the target. *)

From stdpp Require Import base list numbers strings pretty sorting.
From S2P Require Import Prelude.
From S2P Require Import Errors.
From S2P Require Import Block.
From S2P Require Import BlockBuilder.
From S2P Require Import Iter.
From S2P Require Import BlockIter.
From S2P Require Import EntryDecode.
From S2P Require Import SstFooter.
From S2P Require Import SstTree.
From S2P Require Import IndexTreeIter.

Abbreviation esorted l := (StronglySorted klt (end_key <$> l)).

(** ** One level *)

(** A level iterator over the index entries [idx], with [rest] still to come. *)
Definition level_at (d : direction) (it : LevelIter) (idx rest : list IndexEntry) : Prop :=
  at_pos d it (kv_of_index <$> idx) (kv_of_index <$> rest).

Lemma level_at_valid d it idx rest :
  level_at d it idx rest -> valid it = match rest with [] => false | _ => true end.
Proof. intros Hat. rewrite (at_valid _ _ _ Hat). by destruct rest. Qed.

Lemma level_at_key d it idx rest :
  level_at d it idx rest -> key it = Ok (end_key <$> head rest).
Proof. intros Hat. rewrite (at_key _ _ _ Hat). by destruct rest. Qed.

Lemma level_at_value d it idx x rest :
  level_at d it idx (x :: rest) -> value it = Ok (Some (kv_of_index x).2).
Proof. intros Hat. by rewrite (at_value _ _ _ Hat). Qed.

Lemma level_at_next d it idx rest :
  level_at d it idx rest -> exists it', next d it = Ok it' /\ level_at d it' idx (tail rest).
Proof.
  intros Hat. destruct (next_ok _ _ _ Hat) as (it' & Hn & Hat'). exists it'.
  split; [done|]. unfold level_at. by rewrite <- tail_fmap'.
Qed.

(** A forward position is a reverse position with the entries behind it. *)
Lemma level_at_flip it p x q :
  level_at Fwd it (p ++ x :: q) (x :: q) -> level_at Rev it (p ++ x :: q) (x :: reverse p).
Proof.
  intros ((Hov & Hc & Hrest) & Hall & _ & Hh). unfold level_at.
  assert (nb_curr (di_input it) = Some (length p)) as Hcur.
  { destruct (nb_curr (di_input it)) as [i|] eqn:Hcur; cbn [nb_rest] in Hrest; [|done].
    f_equal. specialize (Hc i eq_refl).
    apply (f_equal length) in Hrest. rewrite length_drop, !length_fmap, length_app in Hrest.
    rewrite !length_fmap, length_app in Hc. simpl in Hrest, Hc. lia. }
  split_and!; [|done| |done].
  - split_and!; [done|done|]. rewrite Hcur. unfold nb_rest. rewrite !fmap_app, !fmap_cons.
    rewrite (take_S_r _ _ (enc_pair (kv_of_index x))).
    + rewrite reverse_snoc, take_app_length' by len.
      by rewrite !fmap_reverse.
    + rewrite lookup_app_r by len. autorewrite with len. by rewrite Nat.sub_diag.
  - apply encodable_indexes.
Qed.

Lemma level_at_flip_nil it idx : level_at Fwd it idx [] -> level_at Rev it idx [].
Proof.
  intros ((Hov & Hc & Hrest) & Hall & _ & _). split_and!; try done. split_and!; try done.
  destruct (nb_curr (di_input it)) as [i|]; [|done].
  exfalso. eapply (nb_rest_nonempty Fwd); [by apply Hc|]. by rewrite <- Hrest.
Qed.

(** What a lower-bound search leaves: the first entry [x] of [b] at or after
    [t], followed by the entries after it ([Fwd]) or before it ([Rev]). *)
Definition loc_rest (d : direction) (t : bytes) (b rest : list IndexEntry) : Prop :=
  exists p x q, b = p ++ x :: q
    /\ Forall (fun e => klt (end_key e) t) p /\ kle t (end_key x)
    /\ rest = match d with Fwd => x :: q | Rev => x :: reverse p end.

Lemma lower_bound_split t (idx : list IndexEntry) :
  Forall (fun e => klt (end_key e) t) idx
  \/ exists p x q, idx = p ++ x :: q /\ Forall (fun e => klt (end_key e) t) p /\ kle t (end_key x).
Proof.
  destruct (skip_while_suffix (fun e => klt (end_key e) t) idx) as (p & Hp & HF).
  destruct (skip_while _ idx) as [|x q] eqn:Hs.
  - left. by rewrite Hp, app_nil_r.
  - right. exists p, x, q. split_and!; try done. rewrite <- not_klt.
    eapply (skip_while_head (fun e => klt (end_key e) t) idx). by rewrite Hs.
Qed.

(** ** Reading blocks *)

Section Reader.
Context {R : Type} `{BlockReaderLaws R} (r : R).
#[local] Abbreviation bs := (reader_block_size r).
#[local] Abbreviation F := (br_source r).
Hypothesis Hbs : (Z.of_nat bs <= u32_max)%Z.

Lemma read_block_at pos data : block_at bs F pos data -> read_block r pos = Ok data.
Proof.
  intros [[H1 H2] Hs]. destruct pos as [off]. simpl in *.
  rewrite <- (Z2Nat.id off) by lia. by apply br_read_ok.
Qed.

Lemma open_level_ok self pos idx :
  it_reader self = r -> index_block_at bs F pos idx -> esorted idx ->
  exists it, open_level self pos = Ok it /\ (forall d, seekable d it (kv_of_index <$> idx)).
Proof.
  intros Hr [Hb Hfit] Hs. unfold open_level. rewrite Hr, (read_block_at _ _ Hb). cbn [rbind].
  destruct (index_iter_from_block_ok bs idx Hfit Hbs) as (it & -> & Hit & _).
  { by apply ksorted_indexes. }
  by exists it.
Qed.

(** A subtree whose bottom-level entries are sorted. *)
Definition stree (h : nat) (e : IndexEntry) (b : list IndexEntry) : Prop :=
  subtree bs F h e b /\ esorted b /\ Forall (fun x => is_u64 (offset (child x))) b.

Lemma Forall2_stree h idx bss :
  Forall2 (subtree bs F h) idx bss -> esorted (concat bss) ->
  Forall (fun x => is_u64 (offset (child x))) (concat bss) -> Forall2 (stree h) idx bss.
Proof.
  induction 1 as [|e b idx bss He HF IH]; simpl; [constructor|].
  rewrite fmap_app, Forall_app. intros (? & ? & _)%StronglySorted_app_inv [? ?].
  constructor; [done|auto].
Qed.

Lemma stree_S h e b :
  stree (S h) e b ->
  exists idx bss, idx <> [] /\ index_block_at bs F (child e) idx /\ esorted idx
    /\ end_key <$> last idx = Some (end_key e) /\ Forall2 (stree h) idx bss /\ b = concat bss.
Proof.
  intros ((idx & bss & Hne & Hb & Hl & HF & ->) & Hs & Hu). exists idx, bss.
  split_and!; try done; [|by apply Forall2_stree].
  eapply sorted_group_ends; [|exact Hs]. eapply Forall2_impl; [exact HF|].
  intros x y Hxy. by eapply subtree_last.
Qed.

Lemma child_position_ok d it idx x rest :
  level_at d it idx (x :: rest) -> is_u64 (offset (child x)) ->
  child_position it = Ok (child x).
Proof.
  intros Hat Hu. unfold child_position. rewrite (level_at_value _ _ _ _ _ Hat). cbn [rbind ok_or].
  by apply position_of_kv_of_index.
Qed.

Lemma stree_child_u64 h e b : stree (S h) e b -> is_u64 (offset (child e)).
Proof. by intros ((idx & bss & _ & [[? _] _] & _) & _). Qed.

Lemma stree_nonempty h e b : stree h e b -> b <> [].
Proof. intros [Hs _]. by eapply subtree_nonempty. Qed.

Lemma stree_child h e b : stree h e b -> is_u64 (offset (child e)).
Proof.
  destruct h; [|apply stree_child_u64]. intros (Hb & _ & Hu). simpl in Hb. subst b. by inversion Hu.
Qed.

(** ** The stack

    [stack_at d h e its rest]: the iterators [its] are positioned inside the
    [h]-level tree of [e], and [rest] lists the bottom-level entries still to
    come in direction [d]. *)
Fixpoint stack_at (d : direction) (h : nat) (e : IndexEntry) (its : list LevelIter)
  (rest : list IndexEntry) : Prop :=
  match h with
  | 0 => its = [] /\ rest = [e]
  | S h' =>
      exists it its' idx x xs rx bss,
        its = it :: its'
        /\ level_at d it idx (x :: xs)
        /\ stack_at d h' x its' rx
        /\ Forall2 (stree h') xs bss
        /\ rest = rx ++ concat (ord d <$> bss)
  end.

Lemma concat_ord {A} d (xss : list (list A)) : ord d (concat xss) = concat (ord d <$> ord d xss).
Proof.
  destruct d; simpl; [by rewrite list_fmap_id|].
  induction xss as [|xs xss IH]; simpl; [done|].
  by rewrite reverse_app, IH, reverse_cons, fmap_app, concat_app, fmap_cons, concat_cons, app_nil_r.
Qed.

Lemma Forall2_ord {A B} (P : A -> B -> Prop) d xs ys :
  Forall2 P xs ys -> Forall2 P (ord d xs) (ord d ys).
Proof.
  destruct d; simpl; [done|]. induction 1; [constructor|].
  rewrite !reverse_cons. apply Forall2_app; [done|]. by constructor.
Qed.

(** Opening a child and moving to its first entry. *)
Lemma open_first_ok d self h e b :
  it_reader self = r -> stree (S h) e b ->
  exists it0 it idx x xs bx bss,
    open_level self (child e) = Ok it0 /\ seek_to_first d it0 = Ok it
    /\ level_at d it idx (x :: xs) /\ stree h x bx /\ Forall2 (stree h) xs bss
    /\ ord d b = ord d bx ++ concat (ord d <$> bss).
Proof.
  intros Hr (idx & bss & Hne & Hb & Hs & _ & HF & ->)%stree_S.
  destruct (open_level_ok self (child e) idx Hr Hb Hs) as (it0 & Hopen & Hseek).
  destruct (seek_to_first_ok _ _ (Hseek d)) as (it & Hfirst & Hat).
  rewrite concat_ord. rewrite ord_fmap in Hat. apply (Forall2_ord _ d) in HF.
  assert (ord d idx <> []) as Hne' by (intros Hn%(f_equal length); rewrite length_ord in Hn; by destruct idx).
  destruct HF as [|x bx xs bxs Hx HF]; [done|].
  exists it0, it, idx, x, xs, bx, bxs. by split_and!.
Qed.

(** The current level of [self] is its last one and points at [e]. *)
Definition cur_at (d : direction) (self : IndexTreeIter R) (e : IndexEntry) : Prop :=
  it_reader self = r
  /\ exists iters it idx xs,
       it_index_iters self = iters ++ [it] /\ it_curr_iter_idx self = length iters
       /\ level_at d it idx (e :: xs).

Lemma cur_at_child d self e h b :
  cur_at d self e -> stree h e b ->
  exists it, it_index_iters self !! it_curr_iter_idx self = Some it
          /\ valid it = true /\ child_position it = Ok (child e).
Proof.
  intros (_ & iters & it & idx & xs & Hi & Hc & Hat) Hs%stree_child.
  exists it. rewrite Hi, Hc. split_and!; [apply lookup_pre| |].
  - by rewrite (level_at_valid _ _ _ _ Hat).
  - by eapply child_position_ok.
Qed.

Lemma cur_at_push d self e it idx x xs :
  cur_at d self e -> level_at d it idx (x :: xs) ->
  cur_at d (set_stack self (it_index_iters self ++ [it]) (it_curr_iter_idx self + 1)) x.
Proof.
  intros (Hr & iters & it0 & idx0 & xs0 & Hi & Hc & _) Hat. split; [done|].
  exists (iters ++ [it0]), it, idx, xs. simpl. rewrite Hi, Hc, length_app. done.
Qed.

(** Both descents reach the first bottom-level entry of the current child. *)
Lemma first_loop_ok d h : forall self e b,
  cur_at d self e -> stree h e b ->
  exists its, first_loop d h self
              = Ok (set_stack self (it_index_iters self ++ its) (it_curr_iter_idx self + h))
           /\ stack_at d h e its (ord d b) /\ length its = h.
Proof.
  induction h as [|h IH]; intros self e b Hcur Hst.
  { destruct Hst as [Hb _]. simpl in Hb. subst b. exists []. rewrite app_nil_r, Nat.add_0_r. simpl.
    split_and!; [by destruct self|done|by destruct d|done]. }
  cbn [first_loop]. destruct (cur_at_child _ _ _ _ _ Hcur Hst) as (it & -> & Hv & Hcp). cbn [unwrap rbind].
  rewrite Hv, Hcp. cbn [negb rbind].
  destruct (open_first_ok d self h e b) as (it0 & it1 & idx & x & xs & bx & bss & Ho & Hf & Hat & Hx & HF & Hb);
    [apply Hcur|done|]. rewrite Ho. cbn [rbind]. rewrite Hf. cbn [rbind].
  destruct (IH _ _ _ (cur_at_push _ _ _ _ _ _ _ Hcur Hat) Hx) as (its & -> & Hits & Hlen).
  exists (it1 :: its). simpl. rewrite <- app_assoc. split_and!; [|by exists it1, its, idx, x, xs, (ord d bx), bss|by rewrite Hlen].
  unfold set_stack. simpl. do 2 f_equal. lia.
Qed.

Lemma next_phase2_ok d h : forall self e b,
  cur_at d self e -> stree h e b ->
  exists its, next_phase2 d h self
              = Ok (set_stack self (it_index_iters self ++ its) (it_curr_iter_idx self + h))
           /\ stack_at d h e its (ord d b) /\ length its = h.
Proof.
  induction h as [|h IH]; intros self e b Hcur Hst.
  { destruct Hst as [Hb _]. simpl in Hb. subst b. exists []. rewrite app_nil_r, Nat.add_0_r. simpl.
    split_and!; [by destruct self|done|by destruct d|done]. }
  cbn [next_phase2]. destruct (cur_at_child _ _ _ _ _ Hcur Hst) as (it & -> & Hv & Hcp). cbn [unwrap rbind].
  rewrite Hcp. cbn [rbind].
  destruct (open_first_ok d self h e b) as (it0 & it1 & idx & x & xs & bx & bss & Ho & Hf & Hat & Hx & HF & Hb);
    [apply Hcur|done|]. rewrite Ho. cbn [rbind]. rewrite Hf. cbn [rbind].
  rewrite (level_at_valid _ _ _ _ Hat). cbn [negb].
  destruct (IH _ _ _ (cur_at_push _ _ _ _ _ _ _ Hcur Hat) Hx) as (its & -> & Hits & Hlen).
  exists (it1 :: its). simpl. rewrite <- app_assoc. split_and!; [|by exists it1, its, idx, x, xs, (ord d bx), bss|by rewrite Hlen].
  unfold set_stack. simpl. do 2 f_equal. lia.
Qed.

Lemma stack_at_length d h e its rest : stack_at d h e its rest -> length its = h.
Proof.
  revert e its rest. induction h as [|h IH]; intros e its rest; simpl; [by intros [-> _]|].
  intros (it & its' & idx & x & xs & rx & bss & -> & _ & Hs & _). simpl. f_equal. by eapply IH.
Qed.

Lemma stack_at_nonempty d h e its rest : stack_at d h e its rest -> rest <> [].
Proof.
  revert e its rest. induction h as [|h IH]; intros e its rest; simpl; [by intros [_ ->]|].
  intros (it & its' & idx & x & xs & rx & bss & _ & _ & Hs & _ & ->). apply IH in Hs. by destruct rx.
Qed.

Lemma ord_nonempty {A} d (l : list A) : l <> [] -> ord d l <> [].
Proof. intros Hl Hn%(f_equal length). rewrite length_ord in Hn. by destruct l. Qed.

(** The part of [inner_next] after its guards. *)
Definition next_from (d : direction) (self : IndexTreeIter R) (last : nat) (iters : list LevelIter)
  (curr : nat) : StorageResult (IndexTreeIter R) :=
  let! (found, iters, curr) := next_phase1 d iters curr in
  let self := set_stack self iters curr in
  if (found : bool) then next_phase2 d (last - curr) self else Ok self.

Lemma next_phase1_last d pre it idx rest :
  level_at d it idx rest ->
  exists it', level_at d it' idx (tail rest) /\
  next_phase1 d (pre ++ [it]) (length pre)
  = match tail rest with
    | [] => match pre with [] => Ok (false, [], 0) | _ => next_phase1 d pre (length pre - 1) end
    | _ => Ok (true, pre ++ [it'], length pre)
    end.
Proof.
  intros Hat. destruct (level_at_next _ _ _ _ Hat) as (it' & Hn & Hat'). exists it'. split; [done|].
  assert (forall curr iters, next_phase1 d iters curr =
    (curr_iter <-- unwrap (iters !! curr) ;;
     curr_iter <-- next d curr_iter ;;
     if valid curr_iter then Ok (true, <[curr := curr_iter]> iters, curr)
     else
       let iters := delete curr iters in
       match curr with
       | 0 => Ok (false, iters, 0)
       | S curr' => next_phase1 d iters curr'
       end)) as Hunf by (by intros []).
  rewrite Hunf, lookup_pre. cbn [unwrap rbind]. rewrite Hn. cbn [rbind].
  rewrite (level_at_valid _ _ _ _ Hat'). destruct (tail rest).
  - rewrite delete_middle, app_nil_r. destruct pre as [|p pre]; [done|].
    cbn [length]. by rewrite Nat.sub_succ, Nat.sub_0_r.
  - replace (length pre) with (length pre + 0) at 1 by lia. by rewrite insert_app_r.
Qed.

Lemma stack_next_ok d h : forall self pre e its x rest last,
  it_reader self = r -> stack_at d h e its (x :: rest) -> last = length pre + h - 1 ->
  (rest <> [] ->
     exists its', next_from d self last (pre ++ its) last = Ok (set_stack self (pre ++ its') last)
               /\ stack_at d h e its' rest)
  /\ (rest = [] -> pre <> [] \/ 1 <= h ->
        next_phase1 d (pre ++ its) last
        = match pre with [] => Ok (false, [], 0) | _ => next_phase1 d pre (length pre - 1) end).
Proof.
  induction h as [|h IH]; intros self pre e its x rest last Hr Hst ->.
  { destruct Hst as [-> [= -> ->]]. split; [done|]. intros _ [Hp|?]; [|lia].
    rewrite app_nil_r, Nat.add_0_r. by destruct pre. }
  destruct Hst as (it & its' & idx & e' & xs & rx & bss & -> & Hat & Hst & HF & Heq).
  destruct rx as [|x' rx]; [by apply stack_at_nonempty in Hst|]. injection Heq as <- Heq.
  assert (length (pre ++ [it]) = length pre + 1) as Hlp by (rewrite length_app; simpl; lia).
  destruct (IH self (pre ++ [it]) e' its' x rx (length pre + S h - 1) Hr Hst ltac:(lia)) as [IH1 IH2].
  replace ((pre ++ [it]) ++ its') with (pre ++ it :: its') in * by (by rewrite <- app_assoc).
  destruct (decide (rx = [])) as [->|Hrx].
  2:{ split; [|intros ->; by destruct rx]. intros _.
      destruct (IH1 Hrx) as (its'' & Hnf & Hst'). exists (it :: its'').
      rewrite Hnf, <- app_assoc. split; [done|]. by exists it, its'', idx, e', xs, rx, bss. }
  simpl in Heq. specialize (IH2 eq_refl).
  assert (next_phase1 d (pre ++ it :: its') (length pre + S h - 1)
          = next_phase1 d (pre ++ [it]) (length pre)) as Hph.
  { rewrite IH2 by (left; by destruct pre). rewrite Hlp, Nat.add_sub.
    by destruct pre. }
  clear IH1 IH2. destruct (next_phase1_last d pre it idx (e' :: xs) Hat) as (it' & Hat' & Hlast).
  simpl in Hat', Hlast. destruct HF as [|y b ys bss Hy HF]; simpl in Heq; subst rest.
  { split; [done|]. intros _ _. by rewrite Hph, Hlast. }
  assert (ord d b ++ concat (ord d <$> bss) <> []) as Hne.
  { pose proof (ord_nonempty d _ (stree_nonempty _ _ _ Hy)). by destruct (ord d b). }
  split; [intros _|done].
  unfold next_from. rewrite Hph, Hlast. cbn [rbind].
  destruct (next_phase2_ok d h (set_stack self (pre ++ [it']) (length pre)) y b) as (its'' & Hp2 & Hst'' & Hl'').
  { split; [done|]. exists pre, it', idx, ys. done. }
  { done. }
  replace (length pre + S h - 1 - length pre) with h by lia. rewrite Hp2. simpl.
  exists (it' :: its''). rewrite <- app_assoc. split.
  - unfold set_stack. simpl. do 2 f_equal. lia.
  - by exists it', its'', idx, y, ys, (ord d b), bss.
Qed.

(** ** The iterator *)

(** [self] iterates over the tree of [root] ([h] levels of index blocks) with
    the bottom-level entries [bottom]. *)
Definition tree_over (self : IndexTreeIter R) (bottom : list IndexEntry) : Prop :=
  it_reader self = r
  /\ exists h root, it_tree_height self = S (S h)
      /\ child root = it_root_position self /\ stree (S h) root bottom.

(** A tree iterator may be sought when its level index is back at the root. *)
Definition tree_fresh (self : IndexTreeIter R) (bottom : list IndexEntry) : Prop :=
  tree_over self bottom /\ it_curr_iter_idx self = 0.

Definition tree_at (d : direction) (self : IndexTreeIter R) (bottom rest : list IndexEntry) : Prop :=
  tree_over self bottom
  /\ Forall (fun x => is_u64 (offset (child x))) rest
  /\ match rest with
     | [] =>
         it_curr_iter_idx self = 0
         /\ (it_index_iters self = []
             \/ exists it idx, it_index_iters self = [it] /\ level_at d it idx [])
     | _ =>
         exists h root, it_tree_height self = S (S h)
           /\ child root = it_root_position self /\ stree (S h) root bottom
           /\ stack_at d (S h) root (it_index_iters self) rest
           /\ it_curr_iter_idx self = h
     end.

Lemma tree_over_stack self bottom iters c :
  tree_over (set_stack self iters c) bottom <-> tree_over self bottom.
Proof. done. Qed.

(** The deepest iterator of a positioned stack shows the head of [rest]. *)
Lemma stack_at_top d h : forall e its x rest,
  stack_at d (S h) e its (x :: rest) ->
  exists it idx xs, its !! h = Some it /\ level_at d it idx (x :: xs).
Proof.
  induction h as [|h IH]; intros e its x rest Hst;
    destruct Hst as (it & its' & idx & e' & xs & rx & bss & -> & Hat & Hst & HF & Heq).
  - destruct Hst as [-> ->]. simplify_eq/=. by exists it, idx, xs.
  - destruct rx as [|x' rx]; [by apply stack_at_nonempty in Hst|]. injection Heq as <- Heq.
    destruct (IH _ _ _ _ Hst) as (it1 & idx1 & xs1 & ? & ?). by exists it1, idx1, xs1.
Qed.

Lemma tree_at_top d self bottom x rest :
  tree_at d self bottom (x :: rest) ->
  exists it idx xs, it_index_iters self !! it_curr_iter_idx self = Some it
                 /\ level_at d it idx (x :: xs) /\ is_u64 (offset (child x)).
Proof.
  intros (_ & Hu & h & root & _ & _ & _ & Hst & Hc).
  destruct (stack_at_top _ _ _ _ _ _ Hst) as (it & idx & xs & Hit & Hat).
  exists it, idx, xs. rewrite Hc. inversion Hu; subst. by split_and!.
Qed.

Lemma tree_at_valid d self bottom rest :
  tree_at d self bottom rest -> valid self = match rest with [] => false | _ => true end.
Proof.
  intros Hat. simpl. unfold tree_valid. destruct rest as [|x rest].
  - destruct Hat as (_ & _ & -> & [-> |(it & idx & -> & Hl)]); [done|].
    cbn [lookup list_lookup]. by rewrite (level_at_valid _ _ _ _ Hl).
  - destruct (tree_at_top _ _ _ _ _ Hat) as (it & idx & xs & -> & Hl & _).
    by rewrite (level_at_valid _ _ _ _ Hl).
Qed.

Lemma tree_at_key d self bottom rest :
  tree_at d self bottom rest -> key self = Ok (end_key <$> head rest).
Proof.
  intros Hat. simpl. unfold tree_key. pose proof (tree_at_valid _ _ _ _ Hat) as Hv. simpl in Hv.
  rewrite Hv. destruct rest as [|x rest]; [done|].
  destruct (tree_at_top _ _ _ _ _ Hat) as (it & idx & xs & -> & Hl & _). cbn [unwrap rbind].
  by rewrite (level_at_key _ _ _ _ Hl).
Qed.

Lemma tree_at_value d self bottom rest :
  tree_at d self bottom rest -> value self = Ok (child <$> head rest).
Proof.
  intros Hat. simpl. unfold tree_value. pose proof (tree_at_valid _ _ _ _ Hat) as Hv. simpl in Hv.
  rewrite Hv. destruct rest as [|x rest]; [done|].
  destruct (tree_at_top _ _ _ _ _ Hat) as (it & idx & xs & -> & Hl & Hu). cbn [unwrap rbind].
  rewrite (level_at_value _ _ _ _ _ Hl). cbn [rbind]. by rewrite (position_of_kv_of_index x Hu).
Qed.

Lemma stree_ord_u64 d h e b : stree h e b -> Forall (fun x => is_u64 (offset (child x))) (ord d b).
Proof. intros (_ & _ & Hu). destruct d; simpl; [done|]. by apply Forall_reverse. Qed.

(** [seek_to_first] of a fresh iterator. *)
Lemma tree_seek_to_first_ok d self bottom :
  tree_fresh self bottom ->
  exists self', seek_to_first d self = Ok self' /\ tree_at d self' bottom (ord d bottom).
Proof.
  intros [Hov Hc]. pose proof Hov as (Hr & h & root & Hh & Hroot & Hst). simpl. unfold inner_seek_to_first.
  rewrite decide_False by lia.
  destruct (open_first_ok d (reset self) h root bottom) as
    (it0 & it & idx & x & xs & bx & bss & Ho & Hf & Hat & Hx & HF & Hb); [done|done|].
  change (it_root_position (reset self)) with (it_root_position self). rewrite <- Hroot, Ho. cbn [rbind].
  rewrite Hf. cbn [rbind]. unfold last_index_level. simpl.
  rewrite decide_False by lia. cbn [rbind]. rewrite Hh, Hc. simpl. rewrite !Nat.sub_0_r.
  set (self1 := set_stack _ _ _).
  destruct (first_loop_ok d h self1 x bx) as (its & -> & Hits & Hlen).
  { split; [done|]. by exists [], it, idx, xs. }
  { done. }
  simpl. eexists. split; [done|]. split_and!; [done|by eapply stree_ord_u64|].
  pose proof (ord_nonempty d _ (stree_nonempty _ _ _ Hst)) as Hne.
  destruct (ord d bottom) as [|y ys] eqn:Hob; [done|].
  exists h, root. split_and!; try done.
  exists it, its, idx, x, xs, (ord d bx), bss. by split_and!.
Qed.

(** [next]. *)
Lemma tree_next_ok d self bottom rest :
  tree_at d self bottom rest ->
  exists self', next d self = Ok self' /\ tree_at d self' bottom (tail rest).
Proof.
  intros (Hov & Hu & Hat). pose proof Hov as (Hr & h & root & Hh & Hroot & Hst). simpl. unfold inner_next.
  unfold last_index_level. rewrite decide_False by lia. cbn [rbind]. rewrite Hh, !Nat.sub_succ, Nat.sub_0_r.
  destruct rest as [|x rest]; simpl.
  { destruct Hat as (Hc & [Hi|(it & idx & Hi & Hl)]); rewrite Hi.
    - exists self. split_and!; [done|]. split_and!; try done. auto.
    - destruct (next_phase1_last d [] it idx [] Hl) as (it' & _ & Hp).
      rewrite Hc. cbn [app length tail] in Hp. rewrite Hp. cbn [rbind]. eexists. split; [done|].
      split_and!; simpl; auto. }
  destruct Hat as (h' & root' & Hh' & Hroot' & Hst' & Hs & Hc).
  assert (h' = h) as -> by lia. rewrite Hc.
  pose proof (stack_at_length _ _ _ _ _ Hs) as Hlen.
  destruct (it_index_iters self) as [|i0 is0] eqn:Hi; [done|]. rewrite <- Hi in *.
  destruct (stack_next_ok d (S h) self [] root' (it_index_iters self) x rest h Hr Hs ltac:(simpl; lia)) as [H1 H2].
  simpl in H1, H2. apply Forall_cons in Hu as [_ Hu'].
  destruct rest as [|y rest].
  - rewrite (H2 eq_refl) by (right; lia). cbn [rbind]. eexists. split; [done|].
    split_and!; simpl; auto.
  - destruct H1 as (its' & Hn & Hs'); [done|]. unfold next_from in Hn. rewrite Hn.
    eexists. split; [done|]. split_and!; [done|done|]. exists h, root'. by split_and!.
Qed.

(** *** Searching *)

Lemma seek_from_split t (p q : list IndexEntry) :
  Forall (fun e => klt (end_key e) t) p -> (forall x, head q = Some x -> kle t (end_key x)) ->
  seek_from Fwd t (kv_of_index <$> p ++ q) = kv_of_index <$> q.
Proof.
  intros Hp Hq. unfold seek_from. rewrite fmap_app. apply skip_while_app.
  - by apply Forall_fmap.
  - intros kv Hkv. destruct q as [|x q]; [done|]. simplify_eq/=. apply not_klt. auto.
Qed.

Lemma level_seek_ok self pos idx t :
  it_reader self = r -> index_block_at bs F pos idx -> esorted idx ->
  exists it0 it, open_level self pos = Ok it0 /\ seek_lower_bound t it0 = Ok it
    /\ (forall p q, idx = p ++ q -> Forall (fun e => klt (end_key e) t) p ->
          (forall x, head q = Some x -> kle t (end_key x)) -> level_at Fwd it idx q).
Proof.
  intros Hr Hb Hs. destruct (open_level_ok self pos idx Hr Hb Hs) as (it0 & Ho & Hseek).
  destruct (seek_ok it0 _ t (Hseek Fwd)) as (it & Hit & Hat).
  exists it0, it. split_and!; try done. intros p q Heq Hp Hq.
  simpl in Hat. rewrite Heq, seek_from_split in Hat by done. by rewrite <- Heq in Hat.
Qed.

(** Entries of a subtree lie at or before its end key. *)
Lemma stree_le h e b : stree h e b -> Forall (fun x => kle (end_key x) (end_key e)) b.
Proof.
  intros (Hsub & Hs & _). pose proof (subtree_last _ _ _ _ _ Hsub) as Hl.
  destruct (last b) as [z|] eqn:Hz; [|done]. injection Hl as Hl.
  apply last_Some in Hz as [l ->]. rewrite fmap_app in Hs.
  apply StronglySorted_app_inv in Hs as (_ & _ & Hc).
  apply Forall_app. split; [|by constructor; [rewrite Hl; apply kle_refl|constructor]].
  apply Forall_forall. intros x Hx. apply klt_kle. rewrite <- Hl.
  apply Hc; [by apply list_elem_of_fmap_2|by apply list_elem_of_singleton].
Qed.

Lemma strees_lt h p bss t :
  Forall2 (stree h) p bss -> Forall (fun e => klt (end_key e) t) p ->
  Forall (fun e => klt (end_key e) t) (concat bss).
Proof.
  induction 1 as [|e b p bss He HF IH]; simpl; intros Hlt; [done|].
  inversion Hlt; subst. apply Forall_app. split; [|auto].
  eapply Forall_impl; [by eapply stree_le|]. simpl. eauto with korder.
Qed.

Lemma open_locate_ok d self h e b t :
  it_reader self = r -> stree (S h) e b -> kle t (end_key e) ->
  exists it0 it idx x xs bx bss,
    open_level self (child e) = Ok it0 /\ seek_lower_bound t it0 = Ok it
    /\ level_at d it idx (x :: xs) /\ stree h x bx /\ kle t (end_key x)
    /\ Forall2 (stree h) xs bss
    /\ (forall rx, loc_rest d t bx rx -> loc_rest d t b (rx ++ concat (ord d <$> bss))).
Proof.
  intros Hr Hst Hle. apply stree_S in Hst as (idx & bss & Hne & Hb & Hs & Hl & HF & ->).
  destruct (level_seek_ok self (child e) idx t Hr Hb Hs) as (it0 & it & Ho & Hseek & Hat).
  destruct (lower_bound_split t idx) as [Hall|(p & x & q & Hidx & Hp & Hx)].
  { exfalso. destruct (last idx) as [z|] eqn:Hz; [|done]. injection Hl as Hl.
    apply last_Some in Hz as [l ->]. apply Forall_app in Hall as [_ Hall].
    inversion Hall; subst. rewrite Hl in *. by apply (proj2 (not_klt _ _) Hle). }
  specialize (Hat p (x :: q) Hidx Hp ltac:(by intros y [= <-])). subst idx.
  apply Forall2_app_inv_l in HF as (bp & bq' & HFp & HFq & ->).
  inversion HFq as [|? bx ? bq Hbx HFq']; subst.
  assert (Forall (fun e => klt (end_key e) t) (concat bp)) as Hlt by (by eapply strees_lt).
  exists it0, it, (p ++ x :: q), x, (match d with Fwd => q | Rev => reverse p end), bx,
    (match d with Fwd => bq | Rev => reverse bp end).
  split_and!; try done.
  - destruct d; [done|by apply level_at_flip].
  - destruct d; [done|by apply (Forall2_ord _ Rev)].
  - intros rx (p1 & x1 & q1 & -> & Hp1 & Hx1 & ->).
    exists (concat bp ++ p1), x1, (q1 ++ concat bq). split_and!.
    + by rewrite concat_app, concat_cons, <- !app_assoc.
    + by apply Forall_app.
    + done.
    + destruct d; simpl.
      * by rewrite list_fmap_id.
      * rewrite reverse_app. do 2 f_equal. symmetry. apply (concat_ord Rev bp).
Qed.

Lemma locate_loop_ok d h t : forall self e b,
  cur_at d self e -> stree h e b -> kle t (end_key e) ->
  exists its rest, locate_loop h t self
              = Ok (set_stack self (it_index_iters self ++ its) (it_curr_iter_idx self + h))
           /\ stack_at d h e its rest /\ loc_rest d t b rest.
Proof.
  induction h as [|h IH]; intros self e b Hcur Hst Hle.
  { destruct Hst as [Hb _]. simpl in Hb. subst b. exists [], [e]. rewrite app_nil_r, Nat.add_0_r. simpl.
    split_and!; [by destruct self|done|done|]. exists [], e, []. split_and!; try done. by destruct d. }
  cbn [locate_loop]. destruct (cur_at_child _ _ _ _ _ Hcur Hst) as (it & -> & Hv & Hcp). cbn [unwrap rbind].
  rewrite Hv, Hcp. cbn [negb rbind].
  destruct (open_locate_ok d self h e b t) as
    (it0 & it1 & idx & x & xs & bx & bss & Ho & Hf & Hat & Hx & Hlex & HF & Hloc); [apply Hcur|done|done|].
  rewrite Ho. cbn [rbind]. rewrite Hf. cbn [rbind].
  destruct (IH _ _ _ (cur_at_push _ _ _ _ _ _ _ Hcur Hat) Hx Hlex) as (its & rx & -> & Hits & Hrx).
  exists (it1 :: its), (rx ++ concat (ord d <$> bss)). simpl. rewrite <- app_assoc.
  split_and!; [|by exists it1, its, idx, x, xs, rx, bss|auto].
  unfold set_stack. simpl. do 2 f_equal. lia.
Qed.

(** [locate] on a fresh iterator: lower bound over the bottom-level entries, or
    an exhausted iterator that may be sought again. *)
Lemma tree_locate_ok d self bottom t :
  tree_fresh self bottom ->
  exists self' rest, locate t self = Ok self' /\ tree_at d self' bottom rest
    /\ (loc_rest d t bottom rest
        \/ rest = [] /\ Forall (fun e => klt (end_key e) t) bottom /\ tree_fresh self' bottom).
Proof.
  intros [Hov Hc]. pose proof Hov as (Hr & h & root & Hh & Hroot & Hst). unfold locate.
  rewrite decide_False by lia.
  change (it_root_position (reset self)) with (it_root_position self). rewrite <- Hroot.
  destruct (decide (kle t (end_key root))) as [Hle|Hgt].
  - destruct (open_locate_ok d (reset self) h root bottom t) as
      (it0 & it1 & idx & x & xs & bx & bss & Ho & Hf & Hat & Hx & Hlex & HF & Hloc); [done|done|done|].
    rewrite Ho. cbn [rbind]. rewrite Hf. cbn [rbind]. unfold last_index_level. simpl.
    rewrite decide_False by lia. cbn [rbind]. rewrite Hh, Hc. simpl. rewrite !Nat.sub_0_r.
    set (self1 := set_stack _ _ _).
    destruct (locate_loop_ok d h t self1 x bx) as (its & rx & -> & Hits & Hrx); [|done|done|].
    { split; [done|]. by exists [], it1, idx, xs. }
    simpl. eexists _, (rx ++ concat (ord d <$> bss)). split; [done|]. split; [|left; auto].
    specialize (Hloc _ Hrx). split_and!; [done| |].
    + destruct Hst as (_ & _ & Hu). destruct Hloc as (p & y & q & -> & _ & _ & ->).
      rewrite Forall_app in Hu. destruct Hu as [Hu1 Hu2]. inversion Hu2; subst.
      destruct d; constructor; try done. by apply Forall_reverse.
    + pose proof (stack_at_nonempty _ _ _ _ _ Hits) as Hne. destruct rx as [|y rx]; [done|].
      exists h, root. split_and!; try done. by exists it1, its, idx, x, xs, (y :: rx), bss.
  - apply not_kle in Hgt. pose proof Hst as Hst0.
    apply stree_S in Hst as (idx & bss & Hne & Hb & Hs & Hl & HF & ->).
    destruct (level_seek_ok (reset self) (child root) idx t Hr Hb Hs) as (it0 & it & Ho & Hseek & Hat).
    assert (Forall (fun e => klt (end_key e) t) idx) as Hall.
    { destruct (last idx) as [z|] eqn:Hz; [|done]. injection Hl as Hl.
      apply last_Some in Hz as [l ->]. rewrite fmap_app in Hs.
      apply StronglySorted_app_inv in Hs as (_ & _ & Hcr). rewrite <- Hl in Hgt.
      apply Forall_app. split; [|by constructor]. apply Forall_forall. intros y Hy.
      eapply klt_trans; [|exact Hgt].
      apply Hcr; [by apply list_elem_of_fmap_2|by apply list_elem_of_singleton]. }
    specialize (Hat idx [] ltac:(by rewrite app_nil_r) Hall ltac:(done)).
    rewrite Ho. cbn [rbind]. rewrite Hseek. cbn [rbind]. unfold last_index_level.
    cbn [set_stack it_tree_height reset it_index_iters it_curr_iter_idx app].
    rewrite decide_False by lia. cbn [rbind]. rewrite Hh, Hc, !Nat.sub_succ, !Nat.sub_0_r.
    set (self1 := set_stack _ _ _).
    assert (locate_loop h t self1 = Ok self1) as ->.
    { destruct h; [done|]. cbn [locate_loop]. subst self1.
      cbn [set_stack it_index_iters it_curr_iter_idx lookup list_lookup unwrap rbind].
      by rewrite (level_at_valid _ _ _ _ Hat). }
    assert (level_at d it idx []) as Hat' by (destruct d; [done|by apply level_at_flip_nil]).
    assert (tree_over self1 (concat bss)) as Hov1 by (split; [done|]; by exists h, root).
    exists self1, []. split; [done|]. split.
    + split_and!; try done. right. by exists it, idx.
    + right. split_and!; try done. by eapply strees_lt.
Qed.

(** [ReverseIter::seek]: as [locate], or from the last entry when every end key
    lies before the target. *)
Lemma tree_rev_seek_ok self bottom t :
  tree_fresh self bottom ->
  exists self' rest, seek Rev t self = Ok self' /\ tree_at Rev self' bottom rest
    /\ (loc_rest Rev t bottom rest
        \/ rest = reverse bottom /\ Forall (fun e => klt (end_key e) t) bottom).
Proof.
  intros Hf. destruct (tree_locate_ok Rev self bottom t Hf) as (self1 & rest & Hloc & Hat & Hcase).
  simpl. unfold tree_rev_seek. rewrite Hloc. cbn [rbind].
  pose proof (tree_at_valid _ _ _ _ Hat) as Hv. simpl in Hv. rewrite Hv.
  destruct Hcase as [Hrest|(-> & Hall & Hf1)].
  - exists self1, rest. pose proof Hrest as (p & x & q & _ & _ & _ & ->). auto.
  - destruct (tree_seek_to_first_ok Rev self1 bottom Hf1) as (self2 & Hs & Hat2).
    simpl in Hs. exists self2, (reverse bottom). auto.
Qed.
End Reader.
