(* ===== verification/SstIter.v ===== *)
(** The SST iterator (iterators/sst_iter.rs): the index tree leads to data
    blocks, each read through its own decoding iterator. *)

From stdpp Require Import base list numbers strings sorting.
From S2P Require Import Prelude.
From S2P Require Import Errors.
From S2P Require Import Block.
From S2P Require Import BlockBuilder.
From S2P Require Import Iter.
From S2P Require Import BlockIter.
From S2P Require Import EntryDecode.
From S2P Require Import SstFooter.
From S2P Require Import SstTree.
From S2P Require Import IndexTreeIter.
From S2P Require Import IndexTreeCorrect.

(** The data-block iterator at its default type. *)
Abbreviation DataIter := (DataEntryDecodeIter NormalBlockIter).

(** [SstIter] ([option] is never read and is left out). *)
Record SstIter (R : Type) := mkSstIter {
  si_reader : R;
  si_index_iter : IndexTreeIter R;
  si_data_iter : option DataIter;
}.
Arguments mkSstIter {R} _ _ _.
Arguments si_reader {R} _.
Arguments si_index_iter {R} _.
Arguments si_data_iter {R} _.

Section Ops.
Context {R : Type} `{BlockReader R}.

(** [SstIter::new]. *)
Definition sst_iter_new (reader : R) (footer : SstFooter) : SstIter R :=
  mkSstIter reader (index_tree_iter_new reader footer) None.

Definition si_set_index (self : SstIter R) (i : IndexTreeIter R) : SstIter R :=
  mkSstIter (si_reader self) i (si_data_iter self).

Definition si_set_data (self : SstIter R) (d : option DataIter) : SstIter R :=
  mkSstIter (si_reader self) (si_index_iter self) d.

(** [SstIter::load_data_block_from_index]. *)
Definition load_data_block_from_index (self : SstIter R) : StorageResult DataIter :=
  pos <-- value (si_index_iter self) ;;
  pos <-- ok_or (InvalidValue "index iter valid but value is none") pos ;;
  block <-- read_block (si_reader self) pos ;;
  data_iter_from_block block.

(** [IterRead]. *)
#[export] Instance SstIter_read : IterRead (SstIter R) EntryValue := {|
  valid self := match si_data_iter self with Some d => valid d | None => false end;
  key self := match si_data_iter self with Some d => key d | None => Ok None end;
  value self := match si_data_iter self with Some d => value d | None => Ok None end;
|}.

(** [seek_to_first], the same text in both directions. *)
Definition sst_seek_to_first (dir : direction) (self : SstIter R) : StorageResult (SstIter R) :=
  i <-- seek_to_first dir (si_index_iter self) ;;
  let self := si_set_index self i in
  if valid (si_index_iter self) then
    d <-- load_data_block_from_index self ;;
    d <-- seek_to_first dir d ;;
    Ok (si_set_data self (Some d))
  else Ok self.

(** [ForwardIter::seek]. *)
Definition sst_seek (target : bytes) (self : SstIter R) : StorageResult (SstIter R) :=
  i <-- seek Fwd target (si_index_iter self) ;;
  let self := si_set_index self i in
  if valid (si_index_iter self) then
    d <-- load_data_block_from_index self ;;
    d <-- seek Fwd target d ;;
    Ok (si_set_data self (Some d))
  else Ok (si_set_data self None).

(** The loop of [ReverseIter::seek]. Every round but the last moves the index
    one block back; on a well-formed file the second round always finds a key,
    so two rounds are enough ([sst_rev_seek_loop_ok]). *)
Fixpoint sst_rev_seek_loop (fuel : nat) (target : bytes) (self : SstIter R)
  : StorageResult (SstIter R) :=
  match fuel with
  | 0 => Panic
  | S fuel' =>
      if negb (valid (si_index_iter self)) then Ok (si_set_data self None)
      else
        d <-- load_data_block_from_index self ;;
        d <-- seek Rev target d ;;
        if valid d then Ok (si_set_data self (Some d))
        else
          i <-- next Rev (si_index_iter self) ;;
          sst_rev_seek_loop fuel' target (si_set_index self i)
  end.

Definition rev_seek_rounds : nat := 1000.

(** [ReverseIter::seek]. *)
Definition sst_rev_seek (target : bytes) (self : SstIter R) : StorageResult (SstIter R) :=
  i <-- seek Rev target (si_index_iter self) ;;
  sst_rev_seek_loop rev_seek_rounds target (si_set_index self i).

(** [next], the same text in both directions. *)
Definition sst_next (dir : direction) (self : SstIter R) : StorageResult (SstIter R) :=
  match si_data_iter self with
  | None => Ok self
  | Some d =>
      d <-- next dir d ;;
      let self := si_set_data self (Some d) in
      if negb (valid d) then
        i <-- next dir (si_index_iter self) ;;
        let self := si_set_index self i in
        if negb (valid (si_index_iter self)) then Ok self
        else
          d <-- load_data_block_from_index self ;;
          d <-- seek_to_first dir d ;;
          Ok (si_set_data self (Some d))
      else Ok self
  end.

#[export] Instance SstIter_dir (dir : direction) : DirIter dir (SstIter R) := {|
  seek_to_first := sst_seek_to_first dir;
  seek target self := match dir with Fwd => sst_seek target self | Rev => sst_rev_seek target self end;
  next := sst_next dir;
|}.
End Ops.

(** ** The iterator over a well-formed file *)

(** Decoded contents of a data block. *)
Abbreviation kvs es := (kv_of_entry <$> es).

Section Correct.
Context {R : Type} `{BlockReaderLaws R}.

(** A bottom-level entry of the file behind [r], with its sorted data block. *)
Definition leaf_of (r : R) (e : IndexEntry) (es : list BlockEntry) : Prop :=
  data_leaf (reader_block_size r) (br_source r) e es /\ ksorted (kvs es).

(** [self] reads a file with the bottom-level entries [bottom], whose data
    blocks hold [ess]. *)
Definition sst_over (self : SstIter R) (bottom : list IndexEntry) (ess : list (list BlockEntry)) : Prop :=
  (Z.of_nat (reader_block_size (si_reader self)) <= u32_max)%Z
  /\ Forall2 (leaf_of (si_reader self)) bottom ess
  /\ ksorted (kvs (concat ess)).

(** Contents of data blocks, visited in direction [d]. *)
Definition blocks (d : direction) (ess : list (list BlockEntry)) : list (bytes * EntryValue) :=
  concat ((fun es => ord d (kvs es)) <$> ess).

Definition sst_at (d : direction) (self : SstIter R) (all rest : list (bytes * EntryValue)) : Prop :=
  match rest with
  | [] =>
      si_data_iter self = None
      \/ exists di es bottom,
           si_data_iter self = Some di /\ at_pos d di (kvs es) []
           /\ (Z.of_nat (reader_block_size (si_reader self)) <= u32_max)%Z
           /\ tree_at (si_reader self) d (si_index_iter self) bottom []
  | _ =>
      exists bottom ess di es rx x xs xss,
        sst_over self bottom ess /\ all = kvs (concat ess)
        /\ si_data_iter self = Some di /\ at_pos d di (kvs es) rx /\ rx <> []
        /\ tree_at (si_reader self) d (si_index_iter self) bottom (x :: xs)
        /\ Forall2 (leaf_of (si_reader self)) xs xss
        /\ rest = rx ++ blocks d xss
  end.

(** The iterator may be sought: an empty file, or a tree iterator that is back
    at the root. *)
Definition sst_seekable (self : SstIter R) (all : list (bytes * EntryValue)) : Prop :=
  (all = [] /\ si_data_iter self = None
   /\ it_tree_height (si_index_iter self) <= 1 /\ it_index_iters (si_index_iter self) = [])
  \/ exists bottom ess, sst_over self bottom ess /\ all = kvs (concat ess)
       /\ tree_fresh (si_reader self) (si_index_iter self) bottom.

(** Loading the block under the index iterator. *)
Lemma load_data_block_ok d self bottom x xs es :
  (Z.of_nat (reader_block_size (si_reader self)) <= u32_max)%Z ->
  tree_at (si_reader self) d (si_index_iter self) bottom (x :: xs) ->
  leaf_of (si_reader self) x es ->
  exists di, load_data_block_from_index self = Ok di /\ forall d', seekable d' di (kvs es).
Proof.
  intros Hbs Hat [(_ & [Hb Hfit] & _) Hs]. unfold load_data_block_from_index.
  rewrite (tree_at_value _ _ _ _ _ Hat). cbn [rbind ok_or head fmap option_fmap option_map].
  rewrite (read_block_at _ _ _ Hb). cbn [rbind].
  destruct (data_iter_from_block_ok Fwd _ _ Hfit Hbs Hs) as (di & Hdi & Hseek & _).
  exists di. split; [done|]. intros d'. exact Hseek.
Qed.

Lemma leaf_nonempty (r : R) x es d : leaf_of r x es -> ord d (kvs es) <> [].
Proof. intros [(Hne & _) _]. apply ord_nonempty. by destruct es. Qed.

(** Moving to the head block of the index. *)
Lemma enter_block_ok d self bottom ess x xs es xss :
  sst_over self bottom ess ->
  tree_at (si_reader self) d (si_index_iter self) bottom (x :: xs) ->
  leaf_of (si_reader self) x es -> Forall2 (leaf_of (si_reader self)) xs xss ->
  exists self', (di <-- load_data_block_from_index self ;;
                 di <-- seek_to_first d di ;;
                 Ok (si_set_data self (Some di))) = Ok self'
             /\ sst_at d self' (kvs (concat ess)) (ord d (kvs es) ++ blocks d xss).
Proof.
  intros Hov Hat Hx HF. pose proof Hov as (Hbs & _).
  destruct (load_data_block_ok d self _ _ _ _ Hbs Hat Hx) as (di & -> & Hseek). cbn [rbind].
  destruct (seek_to_first_ok _ _ (Hseek d)) as (di' & Hf & Hat'). rewrite Hf. cbn [rbind].
  eexists. split; [done|]. pose proof (leaf_nonempty _ _ _ d Hx) as Hne.
  unfold sst_at. destruct (ord d (kvs es) ++ blocks d xss) eqn:Heq; [by apply app_eq_nil in Heq as [? _]|].
  rewrite <- Heq. exists bottom, ess, di', es, (ord d (kvs es)), x, xs, xss. by split_and!.
Qed.

Lemma blocks_ord d ess : blocks d (ord d ess) = ord d (kvs (concat ess)).
Proof.
  unfold blocks. destruct d; cbn [ord]; induction ess as [|es ess IH]; try done.
  - by rewrite fmap_cons, !concat_cons, fmap_app, IH.
  - rewrite reverse_cons, fmap_app, concat_app, IH, fmap_cons, concat_cons.
    rewrite (concat_cons es), fmap_app, reverse_app. by rewrite app_nil_r.
Qed.

(** *** The laws, one operation at a time *)

Lemma sst_at_valid d self all rest :
  sst_at d self all rest -> valid self = match rest with [] => false | _ => true end.
Proof.
  intros Hat. cbn [valid SstIter_read]. destruct rest as [|kv rest].
  - destruct Hat as [->|(di & es & bottom & -> & Hd & _)]; [done|]. by rewrite (at_valid _ _ _ Hd).
  - destruct Hat as (bottom & ess & di & es & rx & x & xs & xss & _ & _ & -> & Hd & Hne & _).
    rewrite (at_valid _ _ _ Hd). by destruct rx.
Qed.

Lemma sst_at_key d self all rest : sst_at d self all rest -> key self = Ok (fst <$> head rest).
Proof.
  intros Hat. cbn [key SstIter_read]. destruct rest as [|kv rest].
  - destruct Hat as [->|(di & es & bottom & -> & Hd & _)]; [done|]. by rewrite (at_key _ _ _ Hd).
  - destruct Hat as (bottom & ess & di & es & rx & x & xs & xss & _ & _ & -> & Hd & Hne & _ & _ & ->).
    rewrite (at_key _ _ _ Hd). by destruct rx.
Qed.

Lemma sst_at_value d self all rest : sst_at d self all rest -> value self = Ok (snd <$> head rest).
Proof.
  intros Hat. cbn [value SstIter_read]. destruct rest as [|kv rest].
  - destruct Hat as [->|(di & es & bottom & -> & Hd & _)]; [done|]. by rewrite (at_value _ _ _ Hd).
  - destruct Hat as (bottom & ess & di & es & rx & x & xs & xss & _ & _ & -> & Hd & Hne & _ & _ & ->).
    rewrite (at_value _ _ _ Hd). by destruct rx.
Qed.

Lemma leaves_u64 (r : R) bottom ess :
  Forall2 (leaf_of r) bottom ess -> Forall (fun x => is_u64 (offset (child x))) bottom.
Proof. induction 1 as [|x es b ess [(_ & [[? _] _] & _) _] _ IH]; constructor; auto. Qed.

Lemma tree_fresh_nonempty d (r : R) i bottom : tree_fresh r i bottom -> ord d bottom <> [].
Proof.
  intros [(_ & h & root & _ & _ & Hst) _]. by eapply ord_nonempty, stree_nonempty.
Qed.

Lemma sst_seek_to_first_ok d self all :
  sst_seekable self all ->
  exists self', seek_to_first d self = Ok self' /\ sst_at d self' all (ord d all).
Proof.
  cbn [seek_to_first SstIter_dir]. unfold sst_seek_to_first.
  intros [(-> & Hd & Hh & Hi)|(bottom & ess & Hov & -> & Hf)].
  { cbn [seek_to_first IndexTreeIter_dir]. unfold inner_seek_to_first. rewrite decide_True by done.
    cbn [rbind si_set_index si_index_iter valid IndexTreeIter_read]. unfold tree_valid. rewrite Hi.
    eexists. split; [done|]. rewrite ord_nil. by left. }
  pose proof Hov as (Hbs & HF & _).
  destruct (tree_seek_to_first_ok _ Hbs d _ _ Hf) as (i & -> & Hat). cbn [rbind].
  cbn [si_set_index si_index_iter]. rewrite (tree_at_valid _ _ _ _ _ Hat).
  rewrite <- blocks_ord. apply (Forall2_ord _ d) in HF.
  pose proof (tree_fresh_nonempty d _ _ _ Hf) as Hne.
  destruct (ord d bottom) as [|x xs]; [done|].
  apply Forall2_cons_inv_l in HF as (es & xss & Hx & HF & ->).
  by apply (enter_block_ok d (si_set_index self i) bottom ess x xs es xss).
Qed.

Lemma sst_next_ok d self all rest :
  sst_at d self all rest ->
  exists self', next d self = Ok self' /\ sst_at d self' all (tail rest).
Proof.
  intros Hat. cbn [next SstIter_dir]. unfold sst_next. destruct rest as [|kv rest].
  { destruct Hat as [Hn|(di & es & bottom & -> & Hd & Hbs & Ht)].
    { rewrite Hn. exists self. split; [done|]. by left. }
    destruct (next_ok _ _ _ Hd) as (di' & -> & Hd'). cbn [rbind].
    rewrite (at_valid _ _ _ Hd'). cbn [negb tail si_set_data si_index_iter].
    destruct (tree_next_ok _ Hbs _ _ _ _ Ht) as (i & -> & Ht'). cbn [rbind si_set_index si_index_iter].
    rewrite (tree_at_valid _ _ _ _ _ Ht'). cbn [negb tail]. eexists. split; [done|].
    right. by exists di', es, bottom. }
  destruct Hat as (bottom & ess & di & es & rx & x & xs & xss & Hov & -> & -> & Hd & Hne & Ht & HF & Heq).
  destruct (next_ok _ _ _ Hd) as (di' & -> & Hd'). cbn [rbind].
  destruct rx as [|kv' rx]; [done|]. injection Heq as <- ->. cbn [tail] in *.
  rewrite (at_valid _ _ _ Hd'). destruct rx as [|kv1 rx]; cbn [negb].
  2:{ eexists. split; [done|]. exists bottom, ess, di', es, (kv1 :: rx), x, xs, xss. by split_and!. }
  pose proof Hov as (Hbs & _).
  destruct (tree_next_ok _ Hbs _ _ _ _ Ht) as (i & Hn & Ht'). cbn [si_set_data si_index_iter].
  rewrite Hn. cbn [rbind si_set_index si_index_iter]. rewrite (tree_at_valid _ _ _ _ _ Ht'). cbn [tail] in *.
  destruct HF as [|x' es' xs xss Hx' HF]; cbn [negb].
  { eexists. split; [done|]. right. exists di', es, bottom. by split_and!. }
  by apply (enter_block_ok d (si_set_index (si_set_data self (Some di')) i) bottom ess x' xs es' xss).
Qed.

(** *** Searching *)

Lemma leaf_keys (r : R) x es :
  leaf_of r x es ->
  Forall (fun kv => kle kv.1 (end_key x)) (kvs es)
  /\ exists e, last es = Some e /\ be_key e = end_key x.
Proof.
  intros [(Hne & _ & Hl) Hs]. destruct (last es) as [e|] eqn:He; [|done]. injection Hl as Hl.
  split; [|by exists e]. apply last_Some in He as [l ->]. rewrite fmap_app in *.
  apply ksorted_app in Hs as (_ & _ & Hc). apply Forall_app. split.
  - apply Forall_forall. intros kv Hkv. apply klt_kle. rewrite <- Hl.
    apply (Hc kv (kv_of_entry e)); [done|]. by apply list_elem_of_singleton.
  - constructor; [|done]. simpl. rewrite Hl. apply kle_refl.
Qed.

Lemma leaves_lt (r : R) p pss t :
  Forall2 (leaf_of r) p pss -> Forall (fun e => klt (end_key e) t) p ->
  Forall (fun kv => klt kv.1 t) (kvs (concat pss)).
Proof.
  induction 1 as [|x es p pss Hx HF IH]; intros Hlt; [by constructor|].
  inversion Hlt; subst. rewrite concat_cons, fmap_app. apply Forall_app. split; [|auto].
  apply leaf_keys in Hx as [Hx _]. eapply Forall_impl; [exact Hx|]. simpl. eauto with korder.
Qed.

(** A block whose end key reaches [t] has a landing point for a forward seek. *)
Lemma leaf_seek_fwd (r : R) x es t :
  leaf_of r x es -> kle t (end_key x) -> seek_from Fwd t (kvs es) <> [].
Proof.
  intros (_ & e & He & Hk)%leaf_keys Hle Hnil. apply skip_while_nil in Hnil.
  apply last_Some in He as [l ->]. rewrite fmap_app, Forall_app in Hnil.
  destruct Hnil as [_ Hnil]. inversion Hnil as [|? ? Hlt _]; subst. simpl in Hlt. rewrite Hk in Hlt.
  by apply (proj2 (not_klt _ _) Hle).
Qed.

Lemma sst_fwd_seek_ok self all t :
  sst_seekable self all ->
  exists self', seek Fwd t self = Ok self' /\ sst_at Fwd self' all (seek_from Fwd t all).
Proof.
  cbn [seek SstIter_dir]. unfold sst_seek.
  intros [(-> & Hd & Hh & Hi)|(bottom & ess & Hov & -> & Hf)].
  { cbn [seek IndexTreeIter_dir]. unfold locate. rewrite decide_True by done.
    cbn [rbind si_set_index si_index_iter valid IndexTreeIter_read]. unfold tree_valid. rewrite Hi.
    eexists. split; [done|]. by left. }
  pose proof Hov as (Hbs & HF & _). cbn [seek IndexTreeIter_dir].
  destruct (tree_locate_ok _ Hbs Fwd _ _ t Hf) as (i & rest & -> & Hat & Hcase).
  cbn [rbind si_set_index si_index_iter]. rewrite (tree_at_valid _ _ _ _ _ Hat).
  destruct Hcase as [(p & x & q & -> & Hp & Hx & ->)|(-> & Hall & _)].
  2:{ eexists. split; [done|]. unfold seek_from. rewrite skip_while_all; [by left|]. by eapply leaves_lt. }
  apply Forall2_app_inv_l in HF as (pss & xss & HFp & HFx & ->).
  apply Forall2_cons_inv_l in HFx as (es & qss & Hes & HFq & ->).
  destruct (load_data_block_ok Fwd (si_set_index self i) _ _ _ _ Hbs Hat Hes) as (di & -> & Hseek).
  cbn [rbind]. destruct (seek_ok _ _ t (Hseek Fwd)) as (di' & -> & Hdi). cbn [rbind].
  cbn [ord] in Hdi. eexists. split; [done|].
  pose proof (leaf_seek_fwd _ _ _ _ Hes Hx) as Hne.
  assert (seek_from Fwd t (kvs (concat (pss ++ es :: qss)))
          = seek_from Fwd t (kvs es) ++ blocks Fwd qss) as ->.
  { rewrite concat_app, fmap_app. unfold seek_from. rewrite skip_while_app_l by (by eapply leaves_lt).
    rewrite concat_cons, fmap_app, skip_while_app_r by done. f_equal. symmetry. apply (blocks_ord Fwd). }
  unfold sst_at. destruct (seek_from Fwd t (kvs es) ++ blocks Fwd qss) eqn:Heq; [by apply app_eq_nil in Heq as [? _]|].
  rewrite <- Heq. exists (p ++ x :: q), (pss ++ es :: qss), di', es, (seek_from Fwd t (kvs es)), x, q, qss.
  by split_and!.
Qed.

(** One round of the reverse search loop. *)
Lemma rev_round_ok self bottom ess x xs es xss t fuel :
  sst_over self bottom ess ->
  tree_at (si_reader self) Rev (si_index_iter self) bottom (x :: xs) ->
  leaf_of (si_reader self) x es -> Forall2 (leaf_of (si_reader self)) xs xss ->
  let rx := seek_from Rev t (reverse (kvs es)) in
  (rx <> [] -> exists self', sst_rev_seek_loop (S fuel) t self = Ok self'
      /\ sst_at Rev self' (kvs (concat ess)) (rx ++ blocks Rev xss))
  /\ (rx = [] -> exists self', sst_rev_seek_loop (S fuel) t self = sst_rev_seek_loop fuel t self'
      /\ sst_over self' bottom ess /\ si_reader self' = si_reader self
      /\ tree_at (si_reader self') Rev (si_index_iter self') bottom xs).
Proof.
  intros Hov Hat Hx HF rx. pose proof Hov as (Hbs & _). cbn [sst_rev_seek_loop].
  rewrite (tree_at_valid _ _ _ _ _ Hat). cbn [negb].
  destruct (load_data_block_ok Rev self _ _ _ _ Hbs Hat Hx) as (di & -> & Hseek). cbn [rbind].
  destruct (seek_ok _ _ t (Hseek Rev)) as (di' & -> & Hdi). cbn [rbind ord] in *. fold rx in Hdi.
  rewrite (at_valid _ _ _ Hdi). split; intros Hrx.
  - destruct rx as [|kv rx'] eqn:Hrx'; [done|]. eexists. split; [done|]. cbn [app].
    exists bottom, ess, di', es, (kv :: rx'), x, xs, xss. by split_and!.
  - rewrite Hrx. destruct (tree_next_ok _ Hbs _ _ _ _ Hat) as (i & -> & Hat'). cbn [rbind].
    exists (si_set_index self i). by split_and!.
Qed.

(** A block whose end key lies before [t]: a reverse seek lands on its end. *)
Lemma leaf_seek_rev (r : R) x es t :
  leaf_of r x es -> kle (end_key x) t -> seek_from Rev t (reverse (kvs es)) = reverse (kvs es).
Proof.
  intros (_ & e & He & Hk)%leaf_keys Hle. apply last_Some in He as [l ->].
  rewrite fmap_app, reverse_app. apply skip_while_none. intros kv Hkv. simpl in Hkv. simplify_eq.
  simpl. rewrite Hk. by apply not_klt.
Qed.

(** Entries in the blocks after [x] lie after any key up to its end key. *)
Lemma leaves_gt self bottom ess p x q pss es qss t :
  sst_over self bottom ess -> bottom = p ++ x :: q -> ess = pss ++ es :: qss ->
  leaf_of (si_reader self) x es -> kle t (end_key x) ->
  Forall (fun kv => klt t kv.1) (kvs (concat qss)).
Proof.
  intros (_ & _ & Hs) -> -> Hes Hle. apply leaf_keys in Hes as (_ & e & He & Hk).
  rewrite concat_app, concat_cons, !fmap_app in Hs.
  apply ksorted_app in Hs as (_ & Hs & _). apply ksorted_app in Hs as (_ & _ & Hc).
  apply Forall_forall. intros kv Hkv. eapply kle_klt_trans; [exact Hle|]. rewrite <- Hk.
  apply (Hc (kv_of_entry e) kv); [|done]. apply last_Some in He as [l ->].
  apply list_elem_of_fmap_2, elem_of_app. right. by apply list_elem_of_singleton.
Qed.
Lemma rev_loop_invalid fuel t (self : SstIter R) :
  valid (si_index_iter self) = false -> 1 <= fuel ->
  sst_rev_seek_loop fuel t self = Ok (si_set_data self None).
Proof. intros Hv Hf. destruct fuel; [lia|]. cbn [sst_rev_seek_loop]. by rewrite Hv. Qed.

(** The loop, started at the head block [x] of what is left of the index when
    that block may lie wholly after [t] but every block behind it ends before
    [t]: at most two rounds. *)
Lemma sst_rev_seek_loop_ok self bottom ess x xs es xss t fuel :
  sst_over self bottom ess ->
  tree_at (si_reader self) Rev (si_index_iter self) bottom (x :: xs) ->
  leaf_of (si_reader self) x es -> Forall2 (leaf_of (si_reader self)) xs xss ->
  Forall (fun e => klt (end_key e) t) xs -> 2 <= fuel ->
  exists self', sst_rev_seek_loop fuel t self = Ok self'
    /\ sst_at Rev self' (kvs (concat ess)) (seek_from Rev t (reverse (kvs es) ++ blocks Rev xss)).
Proof.
  intros Hov Hat Hx HF Hlt Hfuel. destruct fuel as [|[|fuel]]; [lia|lia|].
  destruct (rev_round_ok self bottom ess x xs es xss t (S fuel) Hov Hat Hx HF) as [H1 H2].
  destruct (decide (seek_from Rev t (reverse (kvs es)) = [])) as [Hnil|Hne].
  2:{ destruct (H1 Hne) as (self' & -> & Hat'). exists self'. split; [done|].
      unfold seek_from in *. by rewrite skip_while_app_r. }
  destruct (H2 Hnil) as (self1 & -> & Hov1 & Hr1 & Hat1).
  unfold seek_from in Hnil |- *. rewrite skip_while_app_l by (by eapply skip_while_nil).
  destruct HF as [|y ey ys yss Hy HF].
  { rewrite rev_loop_invalid; [|by rewrite (tree_at_valid _ _ _ _ _ Hat1)|lia].
    eexists. split; [done|]. by left. }
  inversion Hlt as [|? ? Hlty _]; subst. rewrite <- Hr1 in Hy, HF.
  destruct (rev_round_ok self1 bottom ess y ys ey yss t fuel Hov1 Hat1 Hy HF) as [H3 _].
  pose proof (leaf_seek_rev _ _ _ t Hy (klt_kle _ _ Hlty)) as Hall.
  pose proof (leaf_nonempty _ _ _ Rev Hy) as Hne. cbn [ord] in Hne.
  destruct H3 as (self' & -> & Hat'); [by rewrite Hall|].
  exists self'. split; [done|]. unfold seek_from in *.
  change (blocks Rev (ey :: yss)) with (reverse (kvs ey) ++ blocks Rev yss).
  by rewrite skip_while_app_r by (by rewrite Hall).
Qed.

Lemma reverse_contents pss es qss :
  reverse (kvs (concat (pss ++ es :: qss)))
  = reverse (kvs (concat qss)) ++ reverse (kvs es) ++ blocks Rev (reverse pss).
Proof.
  rewrite (blocks_ord Rev pss : blocks Rev (reverse pss) = _). cbn [ord].
  by rewrite concat_app, concat_cons, !fmap_app, !reverse_app, app_assoc.
Qed.

Lemma sst_rev_seek_ok self all t :
  sst_seekable self all ->
  exists self', seek Rev t self = Ok self' /\ sst_at Rev self' all (seek_from Rev t (reverse all)).
Proof.
  cbn [seek SstIter_dir]. unfold sst_rev_seek.
  intros [(-> & Hd & Hh & Hi)|(bottom & ess & Hov & -> & Hf)].
  { cbn [seek IndexTreeIter_dir]. unfold tree_rev_seek, locate, inner_seek_to_first.
    assert (tree_valid (si_index_iter self) = false) as Hv by (unfold tree_valid; by rewrite Hi).
    rewrite decide_True by done. cbn [rbind]. rewrite Hv. cbn [negb]. rewrite decide_True by done. cbn [rbind].
    rewrite rev_loop_invalid; [|done|unfold rev_seek_rounds; lia].
    eexists. split; [done|]. by left. }
  pose proof Hov as (Hbs & HF & _).
  destruct (tree_rev_seek_ok _ Hbs _ _ t Hf) as (i & rest & -> & Hat & Hcase).
  cbn [rbind]. set (self1 := si_set_index self i).
  assert (2 <= rev_seek_rounds) as Hfuel by (unfold rev_seek_rounds; lia).
  destruct Hcase as [(p & x & q & -> & Hp & Hx & ->)|(-> & Hall)].
  - apply Forall2_app_inv_l in HF as (pss & xss & HFp & HFx & ->).
    apply Forall2_cons_inv_l in HFx as (es & qss & Hes & HFq & ->).
    destruct (sst_rev_seek_loop_ok self1 (p ++ x :: q) (pss ++ es :: qss) x (reverse p) es (reverse pss) t rev_seek_rounds)
      as (self' & Hs & Hat'); try done.
    { by apply (Forall2_ord _ Rev). }
    { by apply Forall_reverse. }
    exists self'. split; [done|]. rewrite reverse_contents. unfold seek_from in *.
    rewrite skip_while_app_l; [done|]. apply Forall_reverse.
    by eapply (leaves_gt self (p ++ x :: q) (pss ++ es :: qss)).
  - pose proof (tree_fresh_nonempty Rev _ _ _ Hf) as Hne. cbn [ord] in Hne.
    apply (Forall2_ord _ Rev) in HF. cbn [ord] in HF. apply Forall_reverse in Hall.
    destruct (reverse bottom) as [|x xs]; [done|].
    apply Forall2_cons_inv_l in HF as (es & xss & Hes & HFx & Hess). inversion Hall; subst.
    destruct (sst_rev_seek_loop_ok self1 bottom ess x xs es xss t rev_seek_rounds)
      as (self' & Hs & Hat'); try done.
    exists self'. split; [done|]. pose proof (blocks_ord Rev ess) as Hb. cbn [ord] in Hb.
    rewrite Hess in Hb. by rewrite <- Hb.
Qed.

(** [SstIter] keeps the iterator promises in both directions. *)
#[export] Program Instance SstIter_laws d : IterLaws d (SstIter R) EntryValue := {|
  seekable := sst_seekable;
  at_pos := sst_at d;
|}.
Next Obligation. intros. by eapply sst_at_valid. Qed.
Next Obligation. intros. by eapply sst_at_key. Qed.
Next Obligation. intros. by eapply sst_at_value. Qed.
Next Obligation. intros. by apply sst_seek_to_first_ok. Qed.
Next Obligation. intros [] it all t Hs; [by apply sst_fwd_seek_ok|by apply sst_rev_seek_ok]. Qed.
Next Obligation. intros. by apply sst_next_ok. Qed.

(** A new iterator over a file with the right shape may be sought. *)
Lemma sst_iter_new_seekable (r : R) footer es :
  (Z.of_nat (reader_block_size r) <= u32_max)%Z ->
  sst_file (reader_block_size r) (br_source r) footer es -> ksorted (kvs es) ->
  sst_seekable (sst_iter_new r footer) (kvs es).
Proof.
  intros Hbs Hfile Hs. unfold sst_file in Hfile.
  destruct (Z.to_nat (tree_height footer)) as [|h] eqn:Hh.
  { subst es. left. split_and!; try done. simpl. lia. }
  destruct Hfile as (Hh1 & root & bottom & ess & Hroot & Hsub & HF & ->). right.
  assert (Forall2 (leaf_of r) bottom ess) as HF'.
  { revert Hs. clear -HF. induction HF as [|x es b ess Hx HF IH]; [constructor|].
    rewrite concat_cons, fmap_app. intros (? & ? & _)%ksorted_app. constructor; [by split|auto]. }
  exists bottom, ess. split; [done|]. split; [done|]. split; [|done]. split; [done|].
  destruct h as [|h]; [lia|]. exists h, root. simpl. rewrite Hh. split_and!; try done.
  split_and!; [done| |by eapply leaves_u64].
  eapply sorted_group_ends; [|by apply ksorted_entries].
  eapply Forall2_impl; [exact HF|]. by intros x es (_ & _ & ?).
Qed.
End Correct.
