(* ===== verification/SstRoundTrip.v ===== *)
(** End-to-end theorems of the SST format: what is built is what is read, over
    any healthy writer and any reader of the bytes it left. *)

From stdpp Require Import base list numbers strings sorting.
From S2P Require Import Prelude.
From S2P Require Import Errors.
From S2P Require Import Block.
From S2P Require Import BlockBuilder.
From S2P Require Import Iter.
From S2P Require Import BlockIter.
From S2P Require Import EntryDecode.
From S2P Require Import SstFooter.
From S2P Require Import SstBuilder.
From S2P Require Import SstTree.
From S2P Require Import SstBuilderCorrect.
From S2P Require Import IndexTreeIter.
From S2P Require Import IndexTreeCorrect.
From S2P Require Import SstIter.

(** A build whose input the format can hold: the block size is a [u32] that
    fits the fixed header, every entry fits ([entry_fits]), the writer can lay
    out the footer ([sw_footer_fits]), and the finished file stays below 2^64 bytes ([4 n + 1] blocks bound what [n] entries need)
    with a height below 2^32. *)
Definition build_fits (S : Type) `{SstWriterLaws S} (opt : SstOption) (w : S) (es : list BlockEntry) : Prop :=
  sw_ready (block_size opt) w
  /\ BLOCK_FIXED_HEADER_SIZE <= block_size opt /\ (Z.of_nat (block_size opt) <= u32_max)%Z
  /\ Forall (entry_fits opt) es
  /\ (forall f, first_key f = default [] (be_key <$> head es) ->
                last_key f = default [] (be_key <$> last es) ->
        sw_footer_fits S (block_size opt) f
        /\ (Z.of_nat (length (sw_target w) + block_size opt * (4 * length es + 1)
                   + length (sw_footer_image S (block_size opt) f)) <= u64_max)%Z)
  /\ (Z.of_nat (2 * length es + 2) <= u32_max)%Z.
Arguments build_fits {S _ _} _ _ _.

(** A reader of the bytes a writer left. *)
Definition reads_target {S R : Type} `{SstWriterLaws S} `{BlockReaderLaws R} (opt : SstOption) (w : S) (r : R)
  : Prop :=
  br_source r = sw_target w /\ reader_block_size r = block_size opt.

Section Build.
Context {S R : Type} `{SstWriterLaws S} `{BlockReaderLaws R} (opt : SstOption).

Lemma sst_build_ok w es :
  build_fits opt w es ->
  exists footer w' G,
    sst_build w opt es = Ok (footer, w')
    /\ sw_target w' = G ++ sw_footer_image S (block_size opt) footer
    /\ sst_file (block_size opt) (sw_target w') footer es
    /\ is_u32 (tree_height footer) /\ is_u64 (offset (root_index_block_position footer))
    /\ first_key footer = default [] (be_key <$> head es)
    /\ last_key footer = default [] (be_key <$> last es)
    /\ sw_ready (block_size opt) w'.
Proof.
  intros (Hr & Hbs & Hbs' & Hfit & Hroom & Hn).
  pose proof (Hroom (mkSstFooter (mkPosition 0) 0 (default [] (be_key <$> head es))
                       (default [] (be_key <$> last es))) eq_refl eq_refl) as [_ Hroom0].
  destruct (builder_new_ok opt (length (sw_target w)) w Hr eq_refl Hbs) as [Hok Hkeys].
  destruct (sst_add_entries_ok opt _ es _ [] Hok Hkeys Hfit) as (self & Hadd & Hok' & Hkeys').
  { simpl. lia. }
  unfold sst_build. rewrite Hadd. cbn [rbind].
  apply (sst_finish_ok opt (length (sw_target w))); try done.
  unfold BLOCK_FIXED_HEADER_SIZE in Hbs. lia.
Qed.

(** A fresh iterator over a build may be sought, in both directions. *)
Lemma built_seekable w es footer w' (r : R) :
  build_fits opt w es -> ksorted (kvs es) -> sst_build w opt es = Ok (footer, w') ->
  reads_target opt w' r -> forall d, seekable d (sst_iter_new r footer) (kvs es).
Proof.
  intros Hfit Hs Hb [Hsrc Hrbs] d.
  destruct (sst_build_ok w es Hfit) as (footer1 & w1 & G & Hb1 & _ & Hfile & _).
  rewrite Hb in Hb1. injection Hb1 as <- <-.
  apply (sst_iter_new_seekable r footer es); [|by rewrite Hsrc, Hrbs|done].
  rewrite Hrbs. by destruct Hfit as (_ & _ & ? & _).
Qed.
End Build.

(** C1: Building an SST from sorted entries the format can hold ([build_fits]:
    sizes below the format's limits, index blocks with room for two entries)
    succeeds, and a full scan of the file through a fresh [SstIter], forward or
    backward, returns exactly those entries (puts with their values, deletes as
    tombstones) in scan order and then ends: however many more steps the reader
    allows, it sees no further entry. *)
Theorem sst_scan_roundtrip {S R : Type} `{SstWriterLaws S} `{BlockReaderLaws R} opt (w : S) es :
  build_fits opt w es -> ksorted (kvs es) ->
  exists footer w', sst_build w opt es = Ok (footer, w')
    /\ forall (r : R) d, reads_target opt w' r ->
         exists it, seek_to_first d (sst_iter_new r footer) = Ok it
                 /\ forall fuel, length es <= fuel -> drain d fuel it = Ok (ord d (kvs es)).
Proof.
  intros Hfit Hs. destruct (sst_build_ok opt w es Hfit) as (footer & w' & G & Hb & _).
  exists footer, w'. split; [done|]. intros r d Hr.
  destruct (seek_to_first_ok _ _ (built_seekable opt w es footer w' r Hfit Hs Hb Hr d)) as (it & Hit & Hat).
  exists it. split; [done|]. intros fuel Hfuel. eapply drain_ok; [exact Hat|]. len.
Qed.

(** C2: A seek on a fresh iterator over an SST built from sorted entries the
    format can hold ([build_fits]) lands on the first key at or after the target
    (forward) or on the last key at or before it (backward), and the scan from
    there returns all the remaining entries and then ends. *)
Theorem sst_seek_roundtrip {S R : Type} `{SstWriterLaws S} `{BlockReaderLaws R} opt (w : S) es :
  build_fits opt w es -> ksorted (kvs es) ->
  exists footer w', sst_build w opt es = Ok (footer, w')
    /\ forall (r : R) d t, reads_target opt w' r ->
         exists it, seek d t (sst_iter_new r footer) = Ok it
                 /\ forall fuel, length es <= fuel -> drain d fuel it = Ok (seek_from d t (ord d (kvs es))).
Proof.
  intros Hfit Hs. destruct (sst_build_ok opt w es Hfit) as (footer & w' & G & Hb & _).
  exists footer, w'. split; [done|]. intros r d t Hr.
  destruct (seek_ok _ _ t (built_seekable opt w es footer w' r Hfit Hs Hb Hr d)) as (it & Hit & Hat).
  exists it. split; [done|]. intros fuel Hfuel. eapply drain_ok; [exact Hat|].
  destruct (skip_while_suffix (fun kv : bytes * EntryValue => kbefore d kv.1 t) (ord d (kvs es))) as (p & Hp & _).
  apply (f_equal length) in Hp. autorewrite with len in Hp. unfold seek_from. lia.
Qed.

(** The builder's file has the promised shape: a footer at its tail that
    decodes to the one returned, with the first and last key added, and a block
    tree below it whose leaves are the added entries, sorted or not. *)
Theorem sst_build_file {W : Type} `{BlockWriterLaws W} opt (w : DefaultSstWriter W) es :
  build_fits opt w es ->
  (Z.of_nat (20 + length (default [] (be_key <$> head es)) + length (default [] (be_key <$> last es))) <= u32_max)%Z ->
  exists footer w' G,
    sst_build w opt es = Ok (footer, w')
    /\ bw_target (dsw_inner w') = G ++ footer_encode footer
    /\ sst_file (block_size opt) (bw_target (dsw_inner w')) footer es
    /\ first_key footer = default [] (be_key <$> head es)
    /\ last_key footer = default [] (be_key <$> last es)
    /\ footer_decode (footer_encode footer) = Ok footer.
Proof.
  intros Hfit Hlen. destruct (sst_build_ok opt w es Hfit) as (footer & w' & G & Hb & Ht & Hfile & Hh & Hu & Hf & Hl & _).
  exists footer, w', G. split_and!; try done.
  apply footer_decode_encode. split_and!; try apply Hu; try apply Hh. by rewrite Hf, Hl.
Qed.

(** *** Witnesses *)

Definition demo_opt : SstOption := mkSstOption 64.
Definition demo_writer : DefaultSstWriter InMemoryBlockWriter :=
  mkDefaultSstWriter in_memory_block_writer_new demo_opt.
Definition demo_key (n : Z) : bytes := be_bytes 1 n.

(** Twelve entries in 64-byte blocks: several data blocks and index levels. *)
Definition demo_entries : list BlockEntry :=
  (fun n : nat => if Nat.eqb n 7 then BDelete (demo_key (Z.of_nat n))
                  else BPut (demo_key (Z.of_nat n)) [Byte.x61]) <$> seq 1 12.

Lemma demo_fits : build_fits demo_opt demo_writer demo_entries.
Proof.
  split_and!; try done.
  - vm_compute. lia.
  - unfold demo_entries. simpl. repeat constructor; unfold key_fits; vm_compute; lia.
  - intros f Hf Hl. split; [done|]. change (sw_footer_image _ _ f) with (footer_encode f).
    rewrite length_footer_encode, Hf, Hl. vm_compute. discriminate.
Qed.

Lemma demo_sorted : ksorted (kvs demo_entries).
Proof. unfold ksorted, demo_entries. simpl. repeat constructor. Qed.

Lemma sst_scan_roundtrip_witness :
  exists footer w', sst_build demo_writer demo_opt demo_entries = Ok (footer, w')
    /\ forall (r : InMemoryBlockReader) d, reads_target demo_opt w' r ->
         exists it, seek_to_first d (sst_iter_new r footer) = Ok it
                 /\ forall fuel, 12 <= fuel -> drain d fuel it = Ok (ord d (kvs demo_entries)).
Proof. exact (sst_scan_roundtrip demo_opt demo_writer demo_entries demo_fits demo_sorted). Defined.

Lemma sst_seek_roundtrip_witness :
  exists footer w', sst_build demo_writer demo_opt demo_entries = Ok (footer, w')
    /\ forall (r : InMemoryBlockReader) d t, reads_target demo_opt w' r ->
         exists it, seek d t (sst_iter_new r footer) = Ok it
                 /\ forall fuel, 12 <= fuel -> drain d fuel it = Ok (seek_from d t (ord d (kvs demo_entries))).
Proof. exact (sst_seek_roundtrip demo_opt demo_writer demo_entries demo_fits demo_sorted). Defined.

Lemma sst_build_file_witness :
  exists footer w' G,
    sst_build demo_writer demo_opt demo_entries = Ok (footer, w')
    /\ imw_buf (dsw_inner w') = G ++ footer_encode footer
    /\ sst_file 64 (imw_buf (dsw_inner w')) footer demo_entries
    /\ first_key footer = demo_key 1
    /\ last_key footer = demo_key 12
    /\ footer_decode (footer_encode footer) = Ok footer.
Proof. apply (sst_build_file demo_opt demo_writer demo_entries demo_fits). vm_compute. discriminate. Defined.

(** ** Where the format stops working

    The demo tree has height 3: index levels above the leaf index level. *)

Definition with_built {A} (w : DefaultSstWriter InMemoryBlockWriter) (opt : SstOption) (es : list BlockEntry)
  (k : SstIter InMemoryBlockReader -> StorageResult A) : StorageResult A :=
  let! (footer, w) := sst_build w opt es in
  k (sst_iter_new (mkInMemoryBlockReader (imw_buf (dsw_inner w)) (block_size opt)) footer).

(** [IndexTreeIter::reset] keeps [curr_iter_idx], so seeking an iterator that is
    already positioned in a tree of height 3 leaves it between levels: a second
    seek finds nothing ... *)
Theorem sst_reseek_finds_nothing :
  with_built demo_writer demo_opt demo_entries (fun it =>
    it <-- seek Fwd (demo_key 1) it ;;
    it <-- seek Fwd (demo_key 1) it ;;
    drain Fwd 12 it) = Ok [].
Proof. vm_compute. reflexivity. Qed.

(** ... and a second [seek_to_first] runs off the stack after the stale block. *)
Theorem sst_reseek_to_first_panics :
  with_built demo_writer demo_opt demo_entries (fun it =>
    it <-- seek_to_first Fwd it ;;
    it <-- seek_to_first Fwd it ;;
    drain Fwd 12 it) = Panic.
Proof. vm_compute. reflexivity. Qed.

(** Five entries of 20 bytes in 42-byte blocks: an index block holds one entry,
    every flush of [finish] cascades, and the root covers the first data block
    only. *)
Definition narrow_opt : SstOption := mkSstOption 42.
Definition narrow_entries : list BlockEntry :=
  (fun n : nat => BPut (be_bytes 6 (Z.of_nat n)) [Byte.x61; Byte.x62; Byte.x63; Byte.x64]) <$> seq 1 5.

Theorem sst_fanout_one_loses_entries :
  with_built (mkDefaultSstWriter in_memory_block_writer_new narrow_opt) narrow_opt narrow_entries (fun it =>
    it <-- seek_to_first Fwd it ;;
    l <-- drain Fwd 5 it ;;
    Ok (length l)) = Ok 1.
Proof. vm_compute. reflexivity. Qed.
