(* ===== verification/ScanLaws.v ===== *)
(** Iterator contracts in travel order.

    [IterLaws] (Iter.v) lists the contents of an iterator in key order. Merging
    iterators may hold several versions of a key and list the newest first in
    both directions, so their contract lists the contents in the order of
    travel. Every [IterLaws] iterator satisfies it. *)

From stdpp Require Import base list numbers strings sorting.
From S2P Require Import Prelude.
From S2P Require Import Errors.
From S2P Require Import Iter.

(** [scannable it all]: [it] may be sought, and visits [all].
    [scan_at it all rest]: [it] is positioned, with [rest] still to come. *)
Class ScanLaws (d : direction) (I V : Type) `{IterRead I V} `{DirIter d I} := {
  scannable : I -> list (bytes * V) -> Prop;
  scan_at : I -> list (bytes * V) -> list (bytes * V) -> Prop;
  scan_valid : forall it all rest,
    scan_at it all rest -> valid it = match rest with [] => false | _ => true end;
  scan_key : forall it all rest, scan_at it all rest -> key it = Ok (fst <$> head rest);
  scan_value : forall it all rest, scan_at it all rest -> value it = Ok (snd <$> head rest);
  scan_first_ok : forall it all,
    scannable it all -> exists it', seek_to_first d it = Ok it' /\ scan_at it' all all;
  scan_seek_ok : forall it all t,
    scannable it all -> exists it', seek d t it = Ok it' /\ scan_at it' all (seek_from d t all);
  scan_next_ok : forall it all rest,
    scan_at it all rest -> exists it', next d it = Ok it' /\ scan_at it' all (tail rest);
}.
Arguments scannable d {I V _ _ _} _ _.
Arguments scan_at d {I V _ _ _} _ _ _.

(** A positioned iterator may be sought again. *)
Class Rescannable (d : direction) (I V : Type) `{ScanLaws d I V} :=
  rescan : forall (it : I) all rest, scan_at d it all rest -> scannable d it all.

#[export] Program Instance ScanLaws_of_IterLaws {I V} d `{IterLaws d I V} : ScanLaws d I V | 10 := {|
  scannable it all := exists l, seekable d it l /\ all = ord d l;
  scan_at it all rest := exists l, at_pos d it l rest /\ all = ord d l;
|}.
Next Obligation. intros I V d ??? it all rest (l & Hat & _). by eapply at_valid. Qed.
Next Obligation. intros I V d ??? it all rest (l & Hat & _). by eapply at_key. Qed.
Next Obligation. intros I V d ??? it all rest (l & Hat & _). by eapply at_value. Qed.
Next Obligation.
  intros I V d ??? it all (l & Hs & ->). destruct (seek_to_first_ok _ _ Hs) as (it' & ? & ?).
  exists it'. eauto.
Qed.
Next Obligation.
  intros I V d ??? it all t (l & Hs & ->). destruct (seek_ok _ _ t Hs) as (it' & ? & ?).
  exists it'. eauto.
Qed.
Next Obligation.
  intros I V d ??? it all rest (l & Hat & ->). destruct (next_ok _ _ _ Hat) as (it' & ? & ?).
  exists it'. eauto.
Qed.

#[export] Instance Rescannable_of_Reseekable {I V} d `{Reseekable d I V} : Rescannable d I V | 10.
Proof. intros it all rest (l & Hat & ->). exists l. split; [by eapply reseek|done]. Qed.

Lemma drain_scan {I V} d `{ScanLaws d I V} (it : I) all rest fuel :
  scan_at d it all rest -> length rest <= fuel -> drain d fuel it = Ok rest.
Proof.
  revert it rest. induction fuel as [|fuel IH]; intros it rest Hat Hlen.
  { destruct rest; [done|simpl in Hlen; lia]. }
  simpl. rewrite (scan_valid _ _ _ Hat). destruct rest as [|[k v] rest]; [done|].
  rewrite (scan_key _ _ _ Hat), (scan_value _ _ _ Hat). simpl.
  destruct (scan_next_ok _ _ _ Hat) as (it' & -> & Hat'). simpl in *.
  rewrite (IH it' rest) by (done || lia). done.
Qed.

(** ** Sortedness in the order of travel *)

(** Strictly sorted: at most one version of a key. *)
Definition strict_order {V} (d : direction) (l : list (bytes * V)) : Prop :=
  StronglySorted (kbefore d) (fst <$> l).

(** Weakly sorted: equal keys may follow each other. *)
Definition weak_order {V} (d : direction) (l : list (bytes * V)) : Prop :=
  StronglySorted (fun a b => ~ kbefore d b a) (fst <$> l).

#[export] Instance kbefore_trans d : Transitive (kbefore d).
Proof. destruct d; intros a b c; simpl; eauto using klt_trans. Qed.

Lemma kbefore_irrefl d a : ~ kbefore d a a.
Proof. destruct d; apply klt_irrefl. Qed.

Lemma kbefore_total d a b : kbefore d a b \/ a = b \/ kbefore d b a.
Proof. destruct d; simpl; destruct (klt_total a b) as [?|[?|?]]; auto. Qed.

Lemma kbefore_asym d a b : kbefore d a b -> ~ kbefore d b a.
Proof. intros H1 H2. by apply (kbefore_irrefl d a), (kbefore_trans d a b a). Qed.

Lemma StronglySorted_impl {A} (P Q : A -> A -> Prop) l :
  (forall a b, P a b -> Q a b) -> StronglySorted P l -> StronglySorted Q l.
Proof. intros HPQ. induction 1; constructor; [done|]. by eapply Forall_impl; eauto. Qed.

Lemma strict_weak {V} d (l : list (bytes * V)) : strict_order d l -> weak_order d l.
Proof. apply StronglySorted_impl. intros a b. apply kbefore_asym. Qed.

Lemma StronglySorted_reverse {A} (P : A -> A -> Prop) l :
  StronglySorted P l -> StronglySorted (flip P) (reverse l).
Proof.
  induction 1 as [|x l Hs IH HF]; [constructor|]. rewrite reverse_cons.
  clear Hs. apply Forall_reverse in HF. induction IH as [|y m Hm IHm HFm]; simpl; [by repeat constructor|].
  inversion HF; subst. constructor; [auto|]. apply Forall_app. auto.
Qed.

Lemma ksorted_strict {V} d (l : list (bytes * V)) : ksorted l -> strict_order d (ord d l).
Proof.
  unfold ksorted, strict_order. destruct d; simpl; [done|]. rewrite fmap_reverse.
  intros Hs. by apply StronglySorted_reverse in Hs.
Qed.
