(* ===== verification/ConcatIter.v ===== *)
(** The concatenating iterator (iterators/concat_iter.rs) over ordered,
    non-overlapping sources. *)

From stdpp Require Import base list numbers strings sorting.
From S2P Require Import Prelude.
From S2P Require Import Errors.
From S2P Require Import Iter.
From S2P Require Import ScanLaws.

Record ConcatIter (I : Type) := mkConcatIter { ci_iter : list I; ci_curr : nat }.
Arguments mkConcatIter {I} _ _.
Arguments ci_iter {I} _.
Arguments ci_curr {I} _.

(** [ConcatIter::new]. *)
Definition concat_iter_new {I} (iter : list I) : ConcatIter I := mkConcatIter iter 0.

Section Ops.
Context {I V : Type} `{IterRead I V}.

(** [IterRead::valid]. *)
Definition concat_valid (self : ConcatIter I) : bool :=
  match ci_iter self !! ci_curr self with Some it => valid it | None => false end.

#[export] Instance ConcatIter_read : IterRead (ConcatIter I) V := {|
  valid := concat_valid;
  key self := if concat_valid self
              then it <-- unwrap (ci_iter self !! ci_curr self) ;; key it else Ok None;
  value self := if concat_valid self
                then it <-- unwrap (ci_iter self !! ci_curr self) ;; value it else Ok None;
|}.

(** The forward loops:
    [while self.curr < self.iter.len() { op(iter[curr])?; if valid { break }; curr += 1 }].
    [fuel] is the number of sources from [curr] on. *)
Fixpoint fwd_loop (fuel : nat) (op : I -> StorageResult I) (iter : list I) (curr : nat)
  : StorageResult (ConcatIter I) :=
  match fuel with
  | 0 => Ok (mkConcatIter iter curr)
  | S fuel' =>
      it <-- unwrap (iter !! curr) ;;
      it <-- op it ;;
      let iter := <[curr := it]> iter in
      if valid it then Ok (mkConcatIter iter curr) else fwd_loop fuel' op iter (curr + 1)
  end.

(** The backward loops of [seek_to_first] and [next]:
    [loop { op(iter[curr])?; if valid || curr == 0 { break }; curr -= 1 }]. *)
Fixpoint rev_loop (op : I -> StorageResult I) (iter : list I) (curr : nat)
  : StorageResult (ConcatIter I) :=
  it <-- unwrap (iter !! curr) ;;
  it <-- op it ;;
  let iter := <[curr := it]> iter in
  if valid it then Ok (mkConcatIter iter curr)
  else match curr with
       | 0 => Ok (mkConcatIter iter 0)
       | S curr' => rev_loop op iter curr'
       end.

(** The loop of [ReverseIter::seek]: [for i in (0..n).rev()]. *)
Fixpoint rev_for (n : nat) (op : I -> StorageResult I) (iter : list I) : StorageResult (ConcatIter I) :=
  match n with
  | 0 => Ok (mkConcatIter iter 0)
  | S i =>
      it <-- unwrap (iter !! i) ;;
      it <-- op it ;;
      let iter := <[i := it]> iter in
      if valid it then Ok (mkConcatIter iter i) else rev_for i op iter
  end.

Definition concat_seek_to_first (d : direction) `{DirIter d I} (self : ConcatIter I)
  : StorageResult (ConcatIter I) :=
  match d with
  | Fwd => fwd_loop (length (ci_iter self)) (seek_to_first d) (ci_iter self) 0
  | Rev =>
      match ci_iter self with
      | [] => Ok self
      | _ => rev_loop (seek_to_first d) (ci_iter self) (length (ci_iter self) - 1)
      end
  end.

Definition concat_seek (d : direction) `{DirIter d I} (target : bytes) (self : ConcatIter I)
  : StorageResult (ConcatIter I) :=
  match d with
  | Fwd => fwd_loop (length (ci_iter self)) (seek d target) (ci_iter self) 0
  | Rev => rev_for (length (ci_iter self)) (seek d target) (ci_iter self)
  end.

Definition concat_next (d : direction) `{DirIter d I} (self : ConcatIter I)
  : StorageResult (ConcatIter I) :=
  if negb (concat_valid self) then Ok self
  else
    let curr := ci_curr self in
    it <-- unwrap (ci_iter self !! curr) ;;
    it <-- next d it ;;
    let iter := <[curr := it]> (ci_iter self) in
    if valid it then Ok (mkConcatIter iter curr)
    else
      match d with
      | Fwd => fwd_loop (length iter - (curr + 1)) (seek_to_first d) iter (curr + 1)
      | Rev =>
          match curr with
          | 0 => Ok (mkConcatIter iter 0)
          | S curr' => rev_loop (seek_to_first d) iter curr'
          end
      end.

#[export] Instance ConcatIter_dir d `{DirIter d I} : DirIter d (ConcatIter I) := {|
  seek_to_first := concat_seek_to_first d;
  seek := concat_seek d;
  next := concat_next d;
|}.
End Ops.

(** ** Correctness *)

Lemma pick_fwd {A} (e : direction) (a b : A) : e = Fwd -> match e with Fwd => a | Rev => b end = a.
Proof. by intros ->. Qed.

Lemma pick_rev {A} (e : direction) (a b : A) : e = Rev -> match e with Fwd => a | Rev => b end = b.
Proof. by intros ->. Qed.

Lemma not_fwd (e : direction) : e <> Fwd -> e = Rev.
Proof. by destruct e. Qed.

Lemma ord_fwd {A} e (l : list A) : e = Fwd -> l = ord e l.
Proof. by intros ->. Qed.

Lemma ord_rev {A} e (l : list A) : e = Rev -> reverse l = ord e l.
Proof. by intros ->. Qed.

Section Correct.
Context {I V : Type} {d : direction} `{ScanLaws d I V}.

(** The sources around the current one: those already passed are irrelevant,
    those to come may still be sought. *)
Definition concat_at (self : ConcatIter I) (all rest : list (bytes * V)) : Prop :=
  match rest with
  | [] => concat_valid self = false
  | _ =>
      exists pre it post l r Ls,
        ci_iter self = pre ++ it :: post /\ ci_curr self = length pre
        /\ scan_at d it l r /\ r <> []
        /\ Forall2 (scannable d) (match d with Fwd => post | Rev => pre end) Ls
        /\ rest = r ++ concat (ord d Ls)
  end.

Lemma concat_at_intro pre it post l r Ls Ls' all :
  scan_at d it l r -> r <> [] ->
  Forall2 (scannable d) (match d with Fwd => post | Rev => pre end) Ls -> Ls' = ord d Ls ->
  concat_at (mkConcatIter (pre ++ it :: post) (length pre)) all (r ++ concat Ls').
Proof.
  intros Hat Hne HF ->. unfold concat_at. destruct (r ++ concat (ord d Ls)) eqn:Heq.
  { by apply app_eq_nil in Heq as [? _]. }
  rewrite <- Heq. by exists pre, it, post, l, r, Ls.
Qed.

Section Loop.
(** What one pass of a loop does to each source it touches: [f] is what is left
    of its contents. *)
Context (op : I -> StorageResult I) (f : list (bytes * V) -> list (bytes * V)).
Hypothesis Hop : forall it l, scannable d it l -> exists it', op it = Ok it' /\ scan_at d it' l (f l).

(** What is left after the sources that are skipped whole. *)
Fixpoint first_left (Ls : list (list (bytes * V))) : list (bytes * V) :=
  match Ls with
  | [] => []
  | l :: Ls => match f l with [] => first_left Ls | r => r ++ concat Ls end
  end.

Lemma fwd_loop_ok all : d = Fwd -> forall todo pre Ls,
  Forall2 (scannable d) todo Ls ->
  exists self, fwd_loop (length todo) op (pre ++ todo) (length pre) = Ok self
            /\ concat_at self all (first_left Ls).
Proof.
  intros Hd. induction todo as [|it todo IH]; intros pre Ls HF;
    inversion HF as [|? l ? Ls' Hit HF']; subst; cbn [length fwd_loop first_left].
  { eexists. split; [done|]. simpl. unfold concat_valid. simpl. rewrite app_nil_r.
    by rewrite lookup_ge_None_2. }
  rewrite lookup_pre. cbn [unwrap rbind].
  destruct (Hop it l Hit) as (it' & -> & Hat). cbn [rbind].
  rewrite insert_pre.
  rewrite (scan_valid _ _ _ Hat). destruct (f l) as [|kv r] eqn:Hfl.
  - replace (pre ++ it' :: todo) with ((pre ++ [it']) ++ todo) by (by rewrite <- app_assoc).
    replace (length pre + 1) with (length (pre ++ [it'])) by (rewrite length_app; simpl; lia).
    by apply IH.
  - eexists. split; [done|]. eapply (concat_at_intro pre it' todo l (kv :: r) Ls'); try done;
      [by rewrite pick_fwd|by apply ord_fwd].
Qed.

Lemma rev_for_ok all : d = Rev -> forall todo post Ls,
  Forall2 (scannable d) todo Ls ->
  exists self, rev_for (length todo) op (todo ++ post) = Ok self
            /\ (todo = [] /\ self = mkConcatIter post 0 \/ concat_at self all (first_left (reverse Ls))).
Proof.
  intros Hd. induction todo as [|it todo IH] using rev_ind; intros post Ls HF.
  { eexists. split; [done|]. by left. }
  apply Forall2_app_inv_l in HF as (Ls' & Ll & HF & Hl & ->).
  apply Forall2_cons_inv_l in Hl as (l & ? & Hit & Hnil & ->). inversion Hnil; subst. clear Hnil.
  rewrite length_app, Nat.add_1_r, reverse_snoc. cbn [rev_for first_left].
  rewrite <- app_assoc. cbn [app]. rewrite lookup_pre. cbn [unwrap rbind].
  destruct (Hop it l Hit) as (it' & -> & Hat). cbn [rbind].
  rewrite insert_pre.
  rewrite (scan_valid _ _ _ Hat). destruct (f l) as [|kv r] eqn:Hfl.
  - destruct (IH (it' :: post) Ls' HF) as (self & Hs & Hcase). exists self. split; [done|]. right.
    destruct Hcase as [[-> ->]|Hc]; [|done]. inversion HF; subst.
    simpl. unfold concat_valid. simpl. by rewrite (scan_valid _ _ _ Hat).
  - eexists. split; [done|]. right.
    eapply (concat_at_intro todo it' post l (kv :: r) Ls'); try done;
      [by rewrite pick_rev|by apply ord_rev].
Qed.

Lemma rev_loop_for iter curr : rev_loop op iter curr = rev_for (S curr) op iter.
Proof.
  revert iter. induction curr as [|curr IH]; intros iter; simpl.
  - done.
  - destruct (iter !! S curr); simpl; [|done]. destruct (op i); simpl; [|done|done].
    destruct (valid a); [done|]. apply IH.
Qed.
End Loop.

Lemma first_left_id Ls : first_left (fun l => l) Ls = concat Ls.
Proof. induction Ls as [|[|kv l] Ls IH]; simpl; [done|done|done]. Qed.

Lemma first_left_seek t Ls : first_left (seek_from d t) Ls = seek_from d t (concat Ls).
Proof.
  induction Ls as [|l Ls IH]; cbn [first_left concat]; [done|].
  destruct (seek_from d t l) as [|kv r] eqn:Hs; unfold seek_from in *.
  - rewrite skip_while_app_l by (by eapply skip_while_nil). done.
  - rewrite skip_while_app_r by (by rewrite Hs). by rewrite Hs.
Qed.

Lemma concat_rev_start op f all (iter : list I) Ls :
  d = Rev -> (forall it l, scannable d it l -> exists it', op it = Ok it' /\ scan_at d it' l (f l)) ->
  Forall2 (scannable d) iter Ls ->
  exists self, rev_for (length iter) op iter = Ok self /\ concat_at self all (first_left f (reverse Ls)).
Proof.
  intros Hd Hop HF. destruct (rev_for_ok op f Hop all Hd iter [] Ls HF) as (self & Hs & Hc).
  rewrite app_nil_r in Hs. exists self. split; [done|].
  destruct Hc as [[-> ->]|Hc]; [|done]. by inversion HF.
Qed.

Lemma concat_first_ok (self : ConcatIter I) Ls all :
  Forall2 (scannable d) (ci_iter self) Ls ->
  exists self', concat_seek_to_first d self = Ok self' /\ concat_at self' all (concat (ord d Ls)).
Proof.
  intros HF. unfold concat_seek_to_first. rewrite <- first_left_id.
  destruct (decide (d = Fwd)) as [Hd|Hd].
  - rewrite pick_fwd by done. rewrite <- ord_fwd by done.
    apply (fwd_loop_ok (seek_to_first d) (fun l => l) (@scan_first_ok d I V _ _ _) all Hd (ci_iter self) [] Ls HF).
  - apply not_fwd in Hd as Hr.
    rewrite pick_rev by done. rewrite <- ord_rev by done.
    destruct (concat_rev_start (seek_to_first d) (fun l => l) all (ci_iter self) Ls Hr (@scan_first_ok d I V _ _ _) HF)
      as (self' & Hs & Hat).
    destruct (ci_iter self) as [|i0 is0] eqn:Hi.
    { inversion HF; subst. exists self. split; [done|]. simpl. unfold concat_valid. by rewrite Hi. }
    rewrite rev_loop_for. cbn [length] in *. rewrite Nat.sub_succ, Nat.sub_0_r. by exists self'.
Qed.

Lemma concat_seek_ok (self : ConcatIter I) Ls all t :
  Forall2 (scannable d) (ci_iter self) Ls ->
  exists self', concat_seek d t self = Ok self' /\ concat_at self' all (seek_from d t (concat (ord d Ls))).
Proof.
  intros HF. unfold concat_seek. rewrite <- first_left_seek.
  pose proof (fun it l => @scan_seek_ok d I V _ _ _ it l t) as Hop.
  destruct (decide (d = Fwd)) as [Hd|Hd].
  - rewrite pick_fwd by done. rewrite <- ord_fwd by done.
    apply (fwd_loop_ok (seek d t) (seek_from d t) Hop all Hd (ci_iter self) [] Ls HF).
  - apply not_fwd in Hd.
    rewrite pick_rev by done. rewrite <- ord_rev by done.
    by apply (concat_rev_start (seek d t) (seek_from d t) all (ci_iter self) Ls).
Qed.

Lemma concat_next_ok (self : ConcatIter I) all rest :
  concat_at self all rest ->
  exists self', concat_next d self = Ok self' /\ concat_at self' all (tail rest).
Proof.
  intros Hat. unfold concat_next. destruct rest as [|kv rest].
  { simpl in Hat. rewrite Hat. by exists self. }
  destruct Hat as (pre & it & post & l & r & Ls & Hi & Hc & Hat & Hne & HF & Heq).
  destruct r as [|kv' r]; [done|]. injection Heq as <- ->. cbn [tail].
  unfold concat_valid. rewrite Hi, Hc, lookup_pre, (scan_valid _ _ _ Hat). cbn [negb unwrap rbind].
  destruct (scan_next_ok _ _ _ Hat) as (it' & -> & Hat'). cbn [rbind tail] in *.
  rewrite insert_pre, (scan_valid _ _ _ Hat'). destruct r as [|kv1 r].
  2:{ eexists. split; [done|]. by eapply concat_at_intro. }
  cbn [app]. rewrite <- (first_left_id (ord d Ls)).
  destruct (decide (d = Fwd)) as [Hd|Hd].
  - rewrite pick_fwd in HF by done. rewrite pick_fwd by done. rewrite <- ord_fwd by done.
    replace (pre ++ it' :: post) with ((pre ++ [it']) ++ post) by (by rewrite <- app_assoc).
    replace (length pre + 1) with (length (pre ++ [it'])) by (rewrite length_app; simpl; lia).
    replace (length ((pre ++ [it']) ++ post) - length (pre ++ [it'])) with (length post)
      by (rewrite !length_app; lia).
    apply (fwd_loop_ok (seek_to_first d) (fun l => l) (@scan_first_ok d I V _ _ _) all Hd post (pre ++ [it']) Ls HF).
  - apply not_fwd in Hd. rewrite pick_rev in HF by done. rewrite pick_rev by done. rewrite <- ord_rev by done.
    destruct (rev_for_ok (seek_to_first d) (fun l => l) (@scan_first_ok d I V _ _ _) all Hd pre (it' :: post) Ls HF)
      as (self' & Hs & Hcase).
    destruct pre as [|p pre'].
    + inversion HF; subst. exists (mkConcatIter (it' :: post) 0). split; [done|]. simpl. unfold concat_valid. simpl.
      by rewrite (scan_valid _ _ _ Hat').
    + cbn [length]. rewrite rev_loop_for. cbn [length] in Hs. exists self'. split; [done|].
      by destruct Hcase as [[? _]|?].
Qed.

#[export] Program Instance ConcatIter_scan : ScanLaws d (ConcatIter I) V := {|
  scannable self all := exists Ls, Forall2 (scannable d) (ci_iter self) Ls /\ all = concat (ord d Ls);
  scan_at := concat_at;
|}.
Next Obligation.
  intros self all rest Hat. destruct rest as [|kv rest]; [done|].
  destruct Hat as (pre & it & post & l & r & Ls & Hi & Hc & Hat & Hne & _).
  simpl. unfold concat_valid. rewrite Hi, Hc, lookup_pre.
  rewrite (scan_valid _ _ _ Hat). by destruct r.
Qed.
Next Obligation.
  intros self all rest Hat. simpl. destruct rest as [|kv rest]; [simpl in Hat; by rewrite Hat|].
  destruct Hat as (pre & it & post & l & r & Ls & Hi & Hc & Hat & Hne & _ & ->).
  unfold concat_valid. rewrite Hi, Hc, lookup_pre.
  rewrite (scan_valid _ _ _ Hat). destruct r; [done|]. simpl. by rewrite (scan_key _ _ _ Hat).
Qed.
Next Obligation.
  intros self all rest Hat. simpl. destruct rest as [|kv rest]; [simpl in Hat; by rewrite Hat|].
  destruct Hat as (pre & it & post & l & r & Ls & Hi & Hc & Hat & Hne & _ & ->).
  unfold concat_valid. rewrite Hi, Hc, lookup_pre.
  rewrite (scan_valid _ _ _ Hat). destruct r; [done|]. simpl. by rewrite (scan_value _ _ _ Hat).
Qed.
Next Obligation.
  intros self all (Ls & HF & ->). cbn [seek_to_first ConcatIter_dir]. apply concat_first_ok, HF.
Qed.
Next Obligation.
  intros self all t (Ls & HF & ->). cbn [seek ConcatIter_dir]. apply concat_seek_ok, HF.
Qed.
Next Obligation.
  intros self all rest Hat. cbn [next ConcatIter_dir]. by apply concat_next_ok.
Qed.
End Correct.
