(* ===== verification/MergeIter.v ===== *)
(** The k-way merging iterator (iterators/merge_iter.rs): a binary heap of
    sources ordered by key, then by level (a lower level is newer data). *)

From stdpp Require Import base list numbers strings sorting.
From S2P Require Import Prelude.
From S2P Require Import Errors.
From S2P Require Import Iter.
From S2P Require Import ScanLaws.

(** [HeapWrap]. *)
Record HeapWrap (I : Type) := mkHeapWrap { hw_level : nat; hw_iter : I }.
Arguments mkHeapWrap {I} _ _.
Arguments hw_level {I} _.
Arguments hw_iter {I} _.

(** [MergeIter]: [mi_dir] is the active variant of [MergeHeap], and the heap is
    the multiset of its elements. *)
Record MergeIter (I : Type) := mkMergeIter {
  mi_items : list (HeapWrap I);
  mi_dir : direction;
  mi_heap : list (HeapWrap I);
}.
Arguments mkMergeIter {I} _ _ _.
Arguments mi_items {I} _.
Arguments mi_dir {I} _.
Arguments mi_heap {I} _.

(** [MergeIter::new]. *)
Definition merge_iter_new {I} (iters : list I) : MergeIter I :=
  mkMergeIter (imap mkHeapWrap iters) Fwd [].

(** [MergeIter::drain_to_items]. *)
Definition drain_to_items {I} (self : MergeIter I) : MergeIter I :=
  mkMergeIter (mi_items self ++ mi_heap self) (mi_dir self) [].

Section Ops.
Context {I V : Type} `{IterRead I V}.

Definition comp_then (a b : comparison) : comparison := match a with Eq => b | _ => a end.

(** [Ord for HeapWrap]. *)
Definition heap_wrap_cmp (a b : HeapWrap I) : StorageResult comparison :=
  ka <-- key (hw_iter a) ;;
  kb <-- key (hw_iter b) ;;
  Ok match ka, kb with
     | Some ka, Some kb => comp_then (bytes_cmp ka kb) (Nat.compare (hw_level a) (hw_level b))
     | None, None => Eq
     | None, Some _ => Gt
     | Some _, None => Lt
     end.

(** [Ord for MaxHeapWrap]: the level tiebreak is reversed. *)
Definition max_heap_wrap_cmp (a b : HeapWrap I) : StorageResult comparison :=
  ka <-- key (hw_iter a) ;;
  kb <-- key (hw_iter b) ;;
  Ok match ka, kb with
     | Some ka, Some kb => comp_then (bytes_cmp ka kb) (Nat.compare (hw_level b) (hw_level a))
     | None, None => Eq
     | None, Some _ => Lt
     | Some _, None => Gt
     end.

(** [a] is nearer to the top of the heap than [b]: the forward heap is a
    max-heap of [Reverse<HeapWrap>]. *)
Definition nearer_top (d : direction) (a b : HeapWrap I) : StorageResult bool :=
  match d with
  | Fwd => c <-- heap_wrap_cmp a b ;; Ok (bool_decide (c = Lt))
  | Rev => c <-- max_heap_wrap_cmp a b ;; Ok (bool_decide (c = Gt))
  end.

(** [BinaryHeap::pop]: the top element and the others. *)
Fixpoint heap_pop (d : direction) (h : list (HeapWrap I))
  : StorageResult (option (HeapWrap I * list (HeapWrap I))) :=
  match h with
  | [] => Ok None
  | w :: h' =>
      top <-- heap_pop d h' ;;
      match top with
      | None => Ok (Some (w, []))
      | Some (m, rest) =>
          above <-- nearer_top d w m ;;
          Ok (Some (if (above : bool) then (w, h') else (m, w :: rest)))
      end
  end.

(** [BinaryHeap::peek]. *)
Definition heap_peek (d : direction) (h : list (HeapWrap I)) : StorageResult (option (HeapWrap I)) :=
  top <-- heap_pop d h ;; Ok (fst <$> top).

#[export] Instance MergeIter_read : IterRead (MergeIter I) V := {|
  valid self := match mi_heap self with [] => false | _ => true end;
  key self :=
    top <-- heap_peek (mi_dir self) (mi_heap self) ;;
    match top with Some w => key (hw_iter w) | None => Ok None end;
  value self :=
    top <-- heap_peek (mi_dir self) (mi_heap self) ;;
    match top with Some w => value (hw_iter w) | None => Ok None end;
|}.

(** [build_forward_heap] / [build_reverse_heap]. *)
Definition build_heap (d : direction) (self : MergeIter I) : MergeIter I :=
  mkMergeIter (filter (fun w => ~ valid (hw_iter w)) (mi_items self)) d
    (filter (fun w => valid (hw_iter w)) (mi_items self)).

(** [for w in &mut self.items { op(w.iter)? }]. *)
Definition seek_items (op : I -> StorageResult I) (self : MergeIter I) : StorageResult (MergeIter I) :=
  items <-- rmap (fun w => it <-- op (hw_iter w) ;; Ok (mkHeapWrap (hw_level w) it)) (mi_items self) ;;
  Ok (mkMergeIter items (mi_dir self) (mi_heap self)).

Definition merge_seek_to_first (d : direction) `{DirIter d I} (self : MergeIter I)
  : StorageResult (MergeIter I) :=
  self <-- seek_items (seek_to_first d) (drain_to_items self) ;;
  Ok (build_heap d self).

Definition merge_seek (d : direction) `{DirIter d I} (target : bytes) (self : MergeIter I)
  : StorageResult (MergeIter I) :=
  self <-- seek_items (seek d target) (drain_to_items self) ;;
  Ok (build_heap d self).

(** [next]: only the heap of the same direction moves. *)
Definition merge_next (d : direction) `{DirIter d I} (self : MergeIter I) : StorageResult (MergeIter I) :=
  if decide (mi_dir self = d) then
    top <-- heap_pop d (mi_heap self) ;;
    match top with
    | None => Ok self
    | Some (w, h) =>
        it <-- next d (hw_iter w) ;;
        let w := mkHeapWrap (hw_level w) it in
        if valid it then Ok (mkMergeIter (mi_items self) (mi_dir self) (w :: h))
        else Ok (mkMergeIter (mi_items self ++ [w]) (mi_dir self) h)
    end
  else Ok self.

#[export] Instance MergeIter_dirs d `{DirIter d I} : DirIter d (MergeIter I) := {|
  seek_to_first := merge_seek_to_first d;
  seek := merge_seek d;
  next := merge_next d;
|}.
End Ops.

(** ** The merged contents *)

(** An entry tagged with the level of its source. *)
Abbreviation tagged V := (nat * (bytes * V))%type.

(** Order of the merge: by key in the direction of travel, then by level. *)
Definition tle {V} (d : direction) (a b : tagged V) : Prop :=
  kbefore d a.2.1 b.2.1 \/ (a.2.1 = b.2.1 /\ a.1 <= b.1).
Definition tlt {V} (d : direction) (a b : tagged V) : Prop :=
  kbefore d a.2.1 b.2.1 \/ (a.2.1 = b.2.1 /\ a.1 < b.1).

#[export] Instance tle_dec {V} d (a b : tagged V) : Decision (tle d a b).
Proof. unfold tle. apply _. Defined.

(** The entries of one source, and of all sources. *)
Definition tag_src {V} (s : nat * list (bytes * V)) : list (tagged V) := pair s.1 <$> s.2.
Definition tags {V} (srcs : list (nat * list (bytes * V))) : list (tagged V) :=
  concat (tag_src <$> srcs).

(** What a merge over [srcs] visits: all entries, by key and then by level. *)
Definition merge_contents {V} (d : direction) (srcs : list (nat * list (bytes * V)))
  : list (bytes * V) :=
  snd <$> merge_sort (tle d) (tags srcs).

Section Order.
Context {V : Type} (d : direction).
Implicit Types a b : tagged V.

#[export] Instance tle_trans : Transitive (@tle V d).
Proof.
  intros a b c [H1|[H1 H1']] [H2|[H2 H2']]; unfold tle.
  - left. by etrans.
  - left. by rewrite <- H2.
  - left. by rewrite H1.
  - right. split; [congruence|lia].
Qed.

#[export] Instance tle_total : Total (@tle V d).
Proof.
  intros a b. unfold tle. destruct (kbefore_total d a.2.1 b.2.1) as [?|[He|?]]; auto.
  destruct (decide (a.1 <= b.1)); [left; auto|right; right; split; [done|lia]].
Qed.

Lemma tlt_not_tle a b : tlt d a b -> ~ tle d b a.
Proof.
  intros [H1|[H1 H1']] [H2|[H2 H2']].
  - by apply (kbefore_asym d a.2.1 b.2.1).
  - rewrite H2 in H1. by apply kbefore_irrefl in H1.
  - rewrite H1 in H2. by apply kbefore_irrefl in H2.
  - lia.
Qed.

Lemma tlt_trans a b c : tlt d a b -> tlt d b c -> tlt d a c.
Proof.
  intros [H1|[H1 H1']] [H2|[H2 H2']]; unfold tlt.
  - left. by etrans.
  - left. by rewrite <- H2.
  - left. by rewrite H1.
  - right. split; [congruence|lia].
Qed.

(** The least element of a sorted list is its head. *)
Lemma sorted_head (T : list (tagged V)) x :
  StronglySorted (tle d) T -> x ∈ T -> (forall y, y ∈ T -> y = x \/ tlt d x y) -> head T = Some x.
Proof.
  intros HS Hx Hmin. destruct HS as [|t T HS HF]; [by apply not_elem_of_nil in Hx|]. simpl. f_equal.
  destruct (Hmin t) as [?|Hlt]; [by left|done|].
  apply elem_of_cons in Hx as [->|Hx]; [done|].
  rewrite Forall_forall in HF. apply HF in Hx. by apply tlt_not_tle in Hlt.
Qed.
End Order.

(** ** Correctness *)

Section Correct.
Context {I V : Type} {d : direction} `{ScanLaws d I V}.

(** A source in the heap with what it still has to deliver. *)
Definition wrap_at (p : HeapWrap I * list (bytes * V)) : Prop :=
  (exists all, scan_at d (hw_iter p.1) all p.2) /\ strict_order d p.2.

Definition live (p : HeapWrap I * list (bytes * V)) : Prop := wrap_at p /\ p.2 <> [].

(** The source as the merge sees it. *)
Definition src_of (p : HeapWrap I * list (bytes * V)) : nat * list (bytes * V) := (hw_level p.1, p.2).

Definition merge_at (self : MergeIter I) (all rest : list (bytes * V)) : Prop :=
  mi_dir self = d
  /\ exists hs T, mi_heap self = fst <$> hs /\ Forall live hs
       /\ NoDup (hw_level <$> mi_heap self)
       /\ StronglySorted (tle d) T /\ T ≡ₚ tags (src_of <$> hs) /\ rest = snd <$> T.

(** The tagged head of a live source. *)
Definition headtag (p : HeapWrap I * list (bytes * V)) (x : tagged V) : Prop :=
  exists kv r, p.2 = kv :: r /\ x = (hw_level p.1, kv).

Lemma live_headtag p : live p -> exists x, headtag p x.
Proof. intros [_ Hne]. destruct p as [w [|kv r]]; [done|]. by eexists _, kv, r. Qed.

Lemma headtag_unique p x y : headtag p x -> headtag p y -> x = y.
Proof. intros (? & ? & Hx & ->) (? & ? & Hy & ->). congruence. Qed.

Lemma live_key p x : live p -> headtag p x -> key (hw_iter p.1) = Ok (Some x.2.1).
Proof.
  intros [[[all Hat] _] _] (kv & r & Hp & ->). rewrite Hp in Hat. by rewrite (scan_key _ _ _ Hat).
Qed.

Lemma nearer_top_ok p q x y :
  live p -> live q -> headtag p x -> headtag q y -> x.1 <> y.1 ->
  exists b, nearer_top d p.1 q.1 = Ok b /\ (if (b : bool) then tlt d x y else tlt d y x).
Proof.
  intros Hp Hq Hx Hy Hne.
  assert (x.1 = hw_level p.1 /\ y.1 = hw_level q.1) as [Hl1 Hl2]
    by (destruct Hx as (? & ? & _ & ->), Hy as (? & ? & _ & ->); done).
  unfold nearer_top, heap_wrap_cmp, max_heap_wrap_cmp.
  rewrite (live_key _ _ Hp Hx), (live_key _ _ Hq Hy). cbn [rbind]. rewrite <- Hl1, <- Hl2.
  unfold tlt. clear -Hne. pose proof (bytes_cmp_eq x.2.1 y.2.1) as Heq.
  pose proof (bytes_cmp_antisym x.2.1 y.2.1) as Hanti.
  destruct d; simpl; unfold klt; eexists; (split; [done|]);
    destruct (bytes_cmp x.2.1 y.2.1); simpl in *; try (left; congruence).
  - assert (x.2.1 = y.2.1) by tauto.
    destruct (Nat.compare_spec x.1 y.1); simpl; [done|right; by split..].
  - assert (x.2.1 = y.2.1) by tauto.
    destruct (Nat.compare_spec y.1 x.1); simpl; [congruence|right; by split..].
Qed.

(** Popping takes the source whose head comes first. *)
Lemma heap_pop_ok hs :
  Forall live hs -> NoDup (hw_level <$> (fst <$> hs)) ->
  match hs with
  | [] => heap_pop d (fst <$> hs) = Ok None
  | _ => exists p hs' x, heap_pop d (fst <$> hs) = Ok (Some (p.1, fst <$> hs')) /\ hs ≡ₚ p :: hs'
           /\ headtag p x /\ Forall (fun q => forall y, headtag q y -> tlt d x y) hs'
  end.
Proof.
  induction hs as [|p hs IH]; intros HF Hnd; [done|].
  inversion HF as [|? ? Hp HF']; subst. rewrite !fmap_cons in Hnd. inversion Hnd as [|? ? Hni Hnd']; subst.
  specialize (IH HF' Hnd'). rewrite fmap_cons. cbn [heap_pop].
  destruct (live_headtag p Hp) as [x Hx]. destruct hs as [|q0 hs0] eqn:Hhs.
  { rewrite IH. cbn [rbind]. exists p, [], x. by split_and!. }
  rewrite <- Hhs in *. destruct IH as (q & hs' & y & -> & Hperm & Hy & Hmin). cbn [rbind].
  assert (live q) as Hq by (rewrite Forall_forall in HF'; apply HF'; rewrite Hperm; by left).
  assert (x.1 <> y.1) as Hne.
  { destruct Hx as (? & ? & _ & ->), Hy as (? & ? & _ & ->). simpl. intros He. apply Hni.
    rewrite <- list_fmap_compose. rewrite He. apply (list_elem_of_fmap_2 (hw_level ∘ fst)).
    rewrite Hperm. by left. }
  destruct (nearer_top_ok p q x y Hp Hq Hx Hy Hne) as ([] & -> & Hlt); cbn [rbind].
  - exists p, hs, x. split_and!; try done. rewrite Hperm. constructor.
    + intros z Hz. by rewrite (headtag_unique _ _ _ Hz Hy).
    + eapply Forall_impl; [exact Hmin|]. simpl. intros q' Hq' z Hz. eapply tlt_trans; eauto.
  - exists q, (p :: hs'), y. split_and!; try done.
    + transitivity (p :: q :: hs'); [by apply perm_skip|apply perm_swap].
    + constructor; [|done]. intros z Hz.
      by rewrite (headtag_unique _ _ _ Hz Hx).
Qed.

(** Later entries of a source come after its head. *)
Lemma src_tail_after p x y :
  live p -> headtag p x -> y ∈ tag_src (src_of p) -> y = x \/ tlt d x y.
Proof.
  intros [[_ Hs] _] (kv & r & Hp & ->) Hy. unfold tag_src, src_of in Hy. simpl in Hy. rewrite Hp in *.
  apply list_elem_of_fmap in Hy as (z & -> & Hz). apply elem_of_cons in Hz as [->|Hz]; [by left|right].
  unfold strict_order in Hs. simpl in Hs. inversion Hs as [|? ? _ HF]; subst.
  rewrite Forall_fmap, Forall_forall in HF. left. simpl. by apply HF.
Qed.

Lemma headtag_min p hs' x y :
  Forall live (p :: hs') -> headtag p x -> Forall (fun q => forall y, headtag q y -> tlt d x y) hs' ->
  y ∈ tags (src_of <$> p :: hs') -> y = x \/ tlt d x y.
Proof.
  intros Hl Hx Hmin Hy. inversion Hl as [|? ? Hp Hl']; subst.
  unfold tags in Hy. rewrite !fmap_cons, concat_cons in Hy.
  apply elem_of_app in Hy as [Hy|Hy]; [by eapply src_tail_after|]. right.
  apply list_elem_of_In, in_concat in Hy as (l & Hl1 & Hl2). rewrite <- list_elem_of_In in Hl1. rewrite <- list_elem_of_In in Hl2.
  rewrite <- list_fmap_compose in Hl1. apply list_elem_of_fmap in Hl1 as (q & -> & Hq). simpl in Hl2.
  rewrite Forall_forall in Hmin, Hl'. destruct (live_headtag q (Hl' q Hq)) as [z Hz].
  destruct (src_tail_after q z y (Hl' q Hq) Hz Hl2) as [->|Hlt]; [by eapply Hmin|].
  eapply tlt_trans; [by eapply Hmin|done].
Qed.

Lemma tags_perm (ps qs : list (HeapWrap I * list (bytes * V))) :
  ps ≡ₚ qs -> tags (src_of <$> ps) ≡ₚ tags (src_of <$> qs).
Proof. intros Hp. unfold tags. by rewrite Hp. Qed.

(** The top of the heap is the head of the merged contents. *)
Lemma merge_pop_ok self all kv rest :
  merge_at self all (kv :: rest) ->
  exists p hs' T r, heap_pop d (mi_heap self) = Ok (Some (p.1, fst <$> hs'))
    /\ mi_heap self <> [] /\ wrap_at p /\ p.2 = kv :: r /\ Forall live hs'
    /\ NoDup (hw_level p.1 :: (hw_level <$> (fst <$> hs')))
    /\ StronglySorted (tle d) T /\ rest = snd <$> T
    /\ T ≡ₚ tag_src (hw_level p.1, r) ++ tags (src_of <$> hs').
Proof.
  intros (Hd & hs & T & Hh & Hl & Hnd & HS & HT & Hrest). rewrite Hh in *.
  pose proof (heap_pop_ok hs Hl Hnd) as Hpop. destruct hs as [|p0 hs0] eqn:Hhs.
  { symmetry in HT. apply Permutation_nil in HT. by subst T. }
  rewrite <- Hhs in *. destruct Hpop as (p & hs' & x & Hpop & Hperm & Hx & Hmin).
  assert (Forall live (p :: hs')) as Hl' by (by rewrite <- Hperm).
  assert (NoDup (hw_level p.1 :: (hw_level <$> (fst <$> hs')))) as Hnd' by (rewrite Hperm in Hnd; exact Hnd).
  rewrite (tags_perm _ _ Hperm) in HT. pose proof Hx as (kv' & r & Hp2 & Hxe).
  assert (head T = Some x) as HTh.
  { apply (sorted_head d); [done| |].
    - rewrite HT. unfold tags. rewrite !fmap_cons, concat_cons. apply elem_of_app. left.
      unfold tag_src, src_of. simpl. rewrite Hp2, Hxe. by left.
    - intros y Hy. rewrite HT in Hy. by eapply headtag_min. }
  destruct T as [|t T]; [done|]. injection HTh as ->. injection Hrest as -> ->. inversion HS; subst.
  inversion Hl' as [|? ? [Hpw _] Hl'']; subst.
  exists p, hs', T, r. simpl in *. split_and!; try done.
  unfold tags in HT. rewrite !fmap_cons, concat_cons in HT. unfold tag_src at 1, src_of at 1 in HT.
  simpl in HT. rewrite Hp2, fmap_cons in HT. by apply Permutation_cons_inv in HT.
Qed.

Lemma merge_at_nil self all : merge_at self all [] -> mi_heap self = [].
Proof.
  intros (_ & hs & T & -> & Hl & _ & _ & HT & HnT). destruct T; [|done].
  destruct Hl as [|p hs [_ Hne] _]; [done|]. exfalso.
  apply Permutation_nil in HT. unfold tags in HT. rewrite !fmap_cons, concat_cons in HT.
  unfold tag_src, src_of in HT. simpl in HT. by destruct p.2.
Qed.

(** *** Seeking all sources *)

(** A source that may be sought, with its contents. *)
Definition ready (p : HeapWrap I * list (bytes * V)) : Prop :=
  scannable d (hw_iter p.1) p.2 /\ strict_order d p.2.

Section Start.
Context (op : I -> StorageResult I) (f : list (bytes * V) -> list (bytes * V)).
Hypothesis Hop : forall it l, scannable d it l -> exists it', op it = Ok it' /\ scan_at d it' l (f l).
Hypothesis Hf : forall l, strict_order d l -> strict_order d (f l).

(** What [op] leaves of a source. *)
Definition left_src (p : HeapWrap I * list (bytes * V)) : nat * list (bytes * V) :=
  (hw_level p.1, f p.2).

Lemma seek_items_ok (ps : list (HeapWrap I * list (bytes * V))) :
  Forall ready ps ->
  exists qs, rmap (fun w => it <-- op (hw_iter w) ;; Ok (mkHeapWrap (hw_level w) it)) (fst <$> ps)
             = Ok (fst <$> qs)
          /\ Forall wrap_at qs /\ src_of <$> qs = left_src <$> ps
          /\ hw_level <$> (fst <$> qs) = hw_level <$> (fst <$> ps).
Proof.
  induction 1 as [|p ps [Hp Hs] HF (qs & IH & Hw & Hsrc & Hlev)]; [by exists []|].
  destruct (Hop _ _ Hp) as (it & Hit & Hat). rewrite fmap_cons. cbn [rmap]. rewrite Hit, IH. cbn [rbind].
  exists ((mkHeapWrap (hw_level p.1) it, f p.2) :: qs). rewrite !fmap_cons. split_and!.
  - done.
  - constructor; [|done]. split; [by eexists|by apply Hf].
  - by rewrite Hsrc.
  - by rewrite Hlev.
Qed.

Lemma wrap_valid p : wrap_at p -> valid (hw_iter p.1) <-> p.2 <> [].
Proof. intros [[all Hat] _]. rewrite (scan_valid _ _ _ Hat). by destruct p.2. Qed.

Lemma filter_live qs :
  Forall wrap_at qs ->
  exists hs, filter (fun w => valid (hw_iter w)) (fst <$> qs) = fst <$> hs
          /\ Forall live hs /\ tags (src_of <$> hs) = tags (src_of <$> qs)
          /\ (hw_level <$> (fst <$> hs)) `sublist_of` (hw_level <$> (fst <$> qs)).
Proof.
  induction 1 as [|p qs Hp HF (hs & Hfil & Hl & Ht & Hsub)]; [by exists []|].
  rewrite fmap_cons, filter_cons. destruct (decide (valid (hw_iter p.1))) as [Hv|Hv].
  - exists (p :: hs). rewrite !fmap_cons, Hfil. split_and!; try done.
    + constructor; [|done]. split; [done|]. by apply (wrap_valid p).
    + unfold tags in *. by rewrite !fmap_cons, !concat_cons, Ht.
    + by apply sublist_skip.
  - exists hs. split_and!; try done.
    + rewrite Ht. unfold tags. rewrite !fmap_cons, concat_cons. unfold tag_src at 2, src_of at 2. simpl.
      rewrite (wrap_valid p Hp) in Hv. by destruct (p.2); [|destruct Hv].
    + rewrite !fmap_cons. by apply sublist_cons.
Qed.

Lemma merge_start_ok self all ps T :
  mi_items self ++ mi_heap self = fst <$> ps -> Forall ready ps ->
  NoDup (hw_level <$> (mi_items self ++ mi_heap self)) ->
  StronglySorted (tle d) T -> T ≡ₚ tags (left_src <$> ps) ->
  exists self', (self <-- seek_items op (drain_to_items self) ;; Ok (build_heap d self)) = Ok self'
             /\ merge_at self' all (snd <$> T).
Proof.
  intros Hi Hr Hnd HS HT. unfold seek_items, drain_to_items. cbn [mi_items mi_dir mi_heap].
  rewrite Hi in *. destruct (seek_items_ok ps Hr) as (qs & -> & Hw & Hsrc & Hlev). cbn [rbind].
  eexists. split; [done|]. split; [done|]. unfold build_heap. cbn [mi_heap mi_items].
  destruct (filter_live qs Hw) as (hs & Hfil & Hl & Ht & Hsub).
  exists hs, T. rewrite Hfil. split_and!; try done.
  - eapply sublist_NoDup; [|exact Hsub]. by rewrite Hlev.
  - by rewrite Ht, Hsrc.
Qed.
End Start.

(** Past the entries before [t], a sorted list holds none of them. *)
Lemma skip_while_filter {A} (P : A -> Prop) `{forall x, Decision (P x)} (R : relation A) l :
  StronglySorted R l -> (forall a b, R a b -> P b -> P a) ->
  skip_while P l = filter (fun x => ~ P x) l.
Proof.
  intros HS HR. induction HS as [|x l HS IH HF]; [done|]. cbn [skip_while].
  rewrite filter_cons. destruct (decide (P x)) as [Hp|Hp].
  - rewrite decide_False by tauto. done.
  - rewrite decide_True by done. f_equal. symmetry. clear IH HS.
    induction HF as [|y l Hxy HF IH]; [done|]. rewrite filter_cons, decide_True; [by rewrite IH|eauto].
Qed.

Definition tag_before (t : bytes) (x : tagged V) : Prop := kbefore d x.2.1 t.
#[local] Instance tag_before_dec t x : Decision (tag_before t x).
Proof. unfold tag_before. apply _. Defined.

Lemma filter_tags t (ps : list (HeapWrap I * list (bytes * V))) :
  Forall (fun p => strict_order d p.2) ps ->
  filter (fun x => ~ tag_before t x) (tags (src_of <$> ps))
  = tags (left_src (seek_from d t) <$> ps).
Proof.
  induction 1 as [|p ps Hp HF IH]; [done|]. unfold tags in *.
  rewrite !fmap_cons, !concat_cons, filter_app, IH. f_equal.
  unfold tag_src, src_of, left_src, seek_from. cbn [fst snd].
  rewrite (skip_while_filter _ (fun a b => kbefore d a.1 b.1)).
  - clear. induction p.2 as [|kv l IH]; [done|]. rewrite fmap_cons, !filter_cons, IH.
    unfold tag_before. simpl. repeat case_decide; done.
  - unfold strict_order in Hp. clear -Hp. induction p.2 as [|kv l IH]; [constructor|].
    rewrite fmap_cons in Hp. inversion Hp as [|? ? Hs HF]; subst. constructor; [auto|].
    by rewrite Forall_fmap in HF.
  - intros a b Hab Hb. by etrans.
Qed.

Lemma strict_order_seek t (l : list (bytes * V)) : strict_order d l -> strict_order d (seek_from d t l).
Proof.
  intros Hs. unfold seek_from.
  destruct (skip_while_suffix (fun kv : bytes * V => kbefore d kv.1 t) l) as (p & Hp & _).
  unfold strict_order in *. rewrite Hp, fmap_app in Hs. clear Hp.
  induction p as [|x p IH]; [done|]. apply IH. by inversion Hs.
Qed.

Lemma merge_seek_contents t (ps : list (HeapWrap I * list (bytes * V))) :
  Forall (fun p => strict_order d p.2) ps ->
  exists T, StronglySorted (tle d) T /\ T ≡ₚ tags (left_src (seek_from d t) <$> ps)
         /\ seek_from d t (merge_contents d (src_of <$> ps)) = snd <$> T.
Proof.
  intros HF. set (T0 := merge_sort (tle d) (tags (src_of <$> ps))).
  assert (StronglySorted (tle d) T0) as HS by apply (StronglySorted_merge_sort (tle d)).
  exists (skip_while (tag_before t) T0). split_and!.
  - destruct (skip_while_suffix (tag_before t) T0) as (p & Hp & _). rewrite Hp in HS. clear Hp.
    induction p as [|x p IH]; [done|]. apply IH. by inversion HS.
  - rewrite (skip_while_filter _ (tle d)); [|done|].
    + rewrite <- filter_tags by done. unfold T0. by rewrite merge_sort_Permutation.
    + intros a b [Hab|[Hab _]] Hb; unfold tag_before in *; [by etrans|by rewrite Hab].
  - unfold merge_contents. fold T0. unfold seek_from. by rewrite skip_while_fmap.
Qed.

#[export] Program Instance MergeIter_scan : ScanLaws d (MergeIter I) V := {|
  scannable self all :=
    exists ps, mi_items self ++ mi_heap self = fst <$> ps /\ Forall ready ps
            /\ NoDup (hw_level <$> (mi_items self ++ mi_heap self))
            /\ all = merge_contents d (src_of <$> ps);
  scan_at := merge_at;
|}.
Next Obligation.
  intros self all rest Hat. simpl. destruct rest as [|kv rest].
  - by rewrite (merge_at_nil _ _ Hat).
  - destruct (merge_pop_ok _ _ _ _ Hat) as (p & hs' & T & r & _ & Hne & _). by destruct (mi_heap self).
Qed.
Next Obligation.
  intros self all rest Hat. cbn [key MergeIter_read]. unfold heap_peek. pose proof Hat as (-> & _).
  destruct rest as [|kv rest]; [by rewrite (merge_at_nil _ _ Hat)|].
  destruct (merge_pop_ok _ _ _ _ Hat) as (p & hs' & T & r & -> & _ & [[al Hp] _] & Hp2 & _).
  cbn [rbind fmap option_fmap option_map fst].
  rewrite Hp2 in Hp. by rewrite (scan_key _ _ _ Hp).
Qed.
Next Obligation.
  intros self all rest Hat. cbn [value MergeIter_read]. unfold heap_peek. pose proof Hat as (-> & _).
  destruct rest as [|kv rest]; [by rewrite (merge_at_nil _ _ Hat)|].
  destruct (merge_pop_ok _ _ _ _ Hat) as (p & hs' & T & r & -> & _ & [[al Hp] _] & Hp2 & _).
  cbn [rbind fmap option_fmap option_map fst].
  rewrite Hp2 in Hp. by rewrite (scan_value _ _ _ Hp).
Qed.
Next Obligation.
  intros self all (ps & Hi & Hr & Hnd & ->). cbn [seek_to_first MergeIter_dirs].
  apply (merge_start_ok _ (fun l => l) (@scan_first_ok d I V _ _ _) (fun l Hl => Hl) self _ ps); try done.
  - apply (StronglySorted_merge_sort (tle d)).
  - apply merge_sort_Permutation.
Qed.
Next Obligation.
  intros self all t (ps & Hi & Hr & Hnd & ->). cbn [seek MergeIter_dirs].
  assert (Forall (fun p => strict_order d p.2) ps) as HF.
  { eapply Forall_impl; [exact Hr|]. by intros p [_ ?]. }
  destruct (merge_seek_contents t ps HF) as (T & HS & HT & ->).
  apply (merge_start_ok _ (seek_from d t) (fun it l => @scan_seek_ok d I V _ _ _ it l t)
           (strict_order_seek t) self _ ps); done.
Qed.
Next Obligation.
  intros self all rest Hat. cbn [next MergeIter_dirs]. unfold merge_next. pose proof Hat as (Hd & _).
  rewrite decide_True by done. destruct rest as [|kv rest].
  { rewrite (merge_at_nil _ _ Hat). by exists self. }
  destruct (merge_pop_ok _ _ _ _ Hat)
    as (p & hs' & T & r & -> & _ & [[al Hp] Hs] & Hp2 & Hl & Hnd & HS & -> & HT). cbn [rbind tail].
  destruct (scan_next_ok _ _ _ Hp) as (it & -> & Hit). cbn [rbind].
  rewrite Hp2 in Hit, Hs. cbn [tail] in Hit. rewrite (scan_valid _ _ _ Hit).
  destruct r as [|kv' r]; (eexists; split; [done|]; split; [done|]).
  - exists hs', T. apply NoDup_cons in Hnd as [_ Hnd]. by split_and!.
  - exists ((mkHeapWrap (hw_level p.1) it, kv' :: r) :: hs'), T. split_and!; try done.
    constructor; [|done]. split; [|done]. split; [by eexists|].
    unfold strict_order in *. rewrite fmap_cons in Hs. by inversion Hs.
Qed.
End Correct.
