(* ===== verification/TwoMergeIter.v ===== *)
(** The two-way merging iterator (iterators/two_merge_iter.rs): side A wins on
    equal keys and side B is skipped. *)

From stdpp Require Import base list numbers strings sorting.
From S2P Require Import Prelude.
From S2P Require Import Errors.
From S2P Require Import Iter.
From S2P Require Import ScanLaws.
From S2P Require Import MergeIter.

(** [Current]. *)
Inductive Current := CurA | CurB.

(** [TwoMergeIter]. [tm_rounds] bounds the rounds of the skip loop: it is not in
    the source, and any bound that covers the entries of [b] gives the same
    result. *)
Record TwoMergeIter (A B : Type) := mkTwoMergeIter {
  tm_a : A;
  tm_b : B;
  tm_current : option Current;
  tm_rounds : nat;
}.
Arguments mkTwoMergeIter {A B} _ _ _ _.
Arguments tm_a {A B} _.
Arguments tm_b {A B} _.
Arguments tm_current {A B} _.
Arguments tm_rounds {A B} _.

Section Ops.
Context {A B V : Type} `{IterRead A V} `{IterRead B V}.

(** [choose] / [choose_reverse]. *)
Definition choose (d : direction) (a : A) (b : B) : StorageResult (option Current) :=
  match valid a, valid b with
  | false, false => Ok None
  | true, false => Ok (Some CurA)
  | false, true => Ok (Some CurB)
  | true, true =>
      ak <-- key a ;; ak <-- unwrap ak ;;
      bk <-- key b ;; bk <-- unwrap bk ;;
      Ok (Some (if decide (kbefore d bk ak) then CurB else CurA))
  end.

(** [skip_b_if_equal] / [skip_b_if_equal_rev]. *)
Fixpoint skip_b_if_equal (d : direction) `{DirIter d B} (rounds : nat) (a : A) (b : B) : StorageResult B :=
  match rounds with
  | 0 => Panic
  | S rounds' =>
      if valid a && valid b then
        ak <-- key a ;;
        bk <-- key b ;;
        if decide (ak = bk) then
          b <-- next d b ;; skip_b_if_equal d rounds' a b
        else Ok b
      else Ok b
  end.

(** The end of every movement: skip, then choose. *)
Definition settle (d : direction) `{DirIter d B} (rounds : nat) (a : A) (b : B)
  : StorageResult (TwoMergeIter A B) :=
  b <-- skip_b_if_equal d rounds a b ;;
  current <-- choose d a b ;;
  Ok (mkTwoMergeIter a b current rounds).

(** [TwoMergeIter::new]: always positions forward. *)
Definition two_merge_new `{DirIter Fwd A} `{DirIter Fwd B} (rounds : nat) (a : A) (b : B)
  : StorageResult (TwoMergeIter A B) :=
  a <-- seek_to_first Fwd a ;;
  b <-- seek_to_first Fwd b ;;
  settle Fwd rounds a b.

#[export] Instance TwoMergeIter_read : IterRead (TwoMergeIter A B) V := {|
  valid self := match tm_current self with Some _ => true | None => false end;
  key self := match tm_current self with
              | Some CurA => key (tm_a self)
              | Some CurB => key (tm_b self)
              | None => Ok None
              end;
  value self := match tm_current self with
                | Some CurA => value (tm_a self)
                | Some CurB => value (tm_b self)
                | None => Ok None
                end;
|}.

Definition two_merge_seek_to_first (d : direction) `{DirIter d A} `{DirIter d B} (self : TwoMergeIter A B)
  : StorageResult (TwoMergeIter A B) :=
  a <-- seek_to_first d (tm_a self) ;;
  b <-- seek_to_first d (tm_b self) ;;
  settle d (tm_rounds self) a b.

Definition two_merge_seek (d : direction) `{DirIter d A} `{DirIter d B} (target : bytes)
  (self : TwoMergeIter A B) : StorageResult (TwoMergeIter A B) :=
  a <-- seek d target (tm_a self) ;;
  b <-- seek d target (tm_b self) ;;
  settle d (tm_rounds self) a b.

Definition two_merge_next (d : direction) `{DirIter d A} `{DirIter d B} (self : TwoMergeIter A B)
  : StorageResult (TwoMergeIter A B) :=
  match tm_current self with
  | Some CurA => a <-- next d (tm_a self) ;; settle d (tm_rounds self) a (tm_b self)
  | Some CurB => b <-- next d (tm_b self) ;; settle d (tm_rounds self) (tm_a self) b
  | None => Ok self
  end.

#[export] Instance TwoMergeIter_dir d `{DirIter d A} `{DirIter d B} : DirIter d (TwoMergeIter A B) := {|
  seek_to_first := two_merge_seek_to_first d;
  seek := two_merge_seek d;
  next := two_merge_next d;
|}.
End Ops.

(** ** The merged contents *)

Section Contents.
Context {V : Type} (d : direction).
Implicit Types la lb l : list (bytes * V).

(** [x] is delivered before [y] when [y]'s key does not come strictly first. *)
Definition first_or_tie (x y : bytes * V) : Prop := ~ kbefore d y.1 x.1.
#[export] Instance first_or_tie_dec x y : Decision (first_or_tie x y).
Proof. unfold first_or_tie. apply _. Defined.

(** Entries of [lb] whose key [la] does not have. *)
Definition shadow la lb : list (bytes * V) := filter (fun kv => kv.1 ∉ la.*1) lb.

(** What the merge of [la] over [lb] visits. *)
Definition two_merge_contents la lb : list (bytes * V) := list_merge first_or_tie la (shadow la lb).

Lemma list_merge_cons (R : relation (bytes * V)) `{forall x y, Decision (R x y)} x l1 y l2 :
  list_merge R (x :: l1) (y :: l2)
  = if decide (R x y) then x :: list_merge R l1 (y :: l2) else y :: list_merge R (x :: l1) l2.
Proof. done. Qed.

Lemma shadow_nil lb : shadow [] lb = lb.
Proof.
  unfold shadow. induction lb as [|y lb IH]; [done|]. rewrite filter_cons, decide_True, IH; [done|].
  apply not_elem_of_nil.
Qed.

Lemma shadow_cons_notin x la lb :
  x.1 ∉ lb.*1 -> shadow (x :: la) lb = shadow la lb.
Proof.
  intros Hx. unfold shadow. induction lb as [|y lb IH]; [done|].
  rewrite fmap_cons, elem_of_cons in Hx. rewrite !filter_cons, IH by tauto.
  destruct (decide (y.1 ∉ (x :: la).*1)) as [H1|H1], (decide (y.1 ∉ la.*1)) as [H2|H2]; try done;
    rewrite fmap_cons, elem_of_cons in H1; exfalso.
  - apply H2. intros Hin. apply H1. by right.
  - apply H1. intros [He|Hin]; [apply Hx; by left|by apply H2].
Qed.

(** Skipping the heads of [lb] that [la] shadows changes nothing. *)
Lemma shadow_skip x la lb :
  shadow (x :: la) (skip_while (fun kv => kv.1 = x.1) lb) = shadow (x :: la) lb.
Proof.
  unfold shadow. induction lb as [|y lb IH]; [done|]. cbn [skip_while]. case_decide as Hy; [|done].
  rewrite IH, filter_cons, decide_False; [done|]. rewrite fmap_cons, elem_of_cons. tauto.
Qed.
End Contents.

(** ** Correctness *)

Section Correct.
Context {A B V : Type} {d : direction}.
Context `{HRA : IterRead A V, HDA : DirIter d A, !ScanLaws d A V}.
Context `{HRB : IterRead B V, HDB : DirIter d B, !ScanLaws d B V}.

(** The current entries differ, and [current] is the one that comes first. *)
Definition settled (ra rb : list (bytes * V)) (c : option Current) : Prop :=
  match ra, rb with
  | [], [] => c = None
  | _ :: _, [] => c = Some CurA
  | [], _ :: _ => c = Some CurB
  | x :: _, y :: _ => x.1 <> y.1 /\ c = Some (if decide (kbefore d y.1 x.1) then CurB else CurA)
  end.

Definition two_merge_at (self : TwoMergeIter A B) (all rest : list (bytes * V)) : Prop :=
  exists la lb ra rb,
    scan_at d (tm_a self) la ra /\ scan_at d (tm_b self) lb rb
    /\ weak_order d ra /\ weak_order d rb /\ length rb < tm_rounds self
    /\ settled ra rb (tm_current self) /\ rest = two_merge_contents d ra rb.

Lemma weak_order_tail (l : list (bytes * V)) : weak_order d l -> weak_order d (tail l).
Proof. unfold weak_order. destruct l; simpl; [done|]. by inversion 1. Qed.

Lemma weak_order_skip (P : bytes * V -> Prop) `{forall x, Decision (P x)} (l : list (bytes * V)) :
  weak_order d l -> weak_order d (skip_while P l).
Proof.
  intros Hs. destruct (skip_while_suffix P l) as (p & Hp & _). rewrite Hp in Hs. clear Hp.
  induction p as [|x p IH]; [done|]. apply IH. unfold weak_order in *. by inversion Hs.
Qed.

Lemma length_skip_while {X} (P : X -> Prop) `{forall x, Decision (P x)} l :
  length (skip_while P l) <= length l.
Proof. destruct (skip_while_suffix P l) as (p & Hp & _). rewrite Hp at 2. rewrite length_app. lia. Qed.

(** What the skip loop leaves of side B. *)
Definition skip_head (ra rb : list (bytes * V)) : list (bytes * V) :=
  match ra with [] => rb | x :: _ => skip_while (fun kv => kv.1 = x.1) rb end.

Lemma skip_b_ok (a : A) la ra lb rounds : forall (b : B) rb,
  scan_at d a la ra -> scan_at d b lb rb -> length rb < rounds ->
  exists b', skip_b_if_equal d rounds a b = Ok b' /\ scan_at d b' lb (skip_head ra rb).
Proof.
  induction rounds as [|rounds IH]; intros b rb Ha Hb Hr; [lia|]. cbn [skip_b_if_equal].
  rewrite (scan_valid _ _ _ Ha), (scan_valid _ _ _ Hb).
  destruct ra as [|x ra]; [by exists b|]. destruct rb as [|y rb]; [by exists b|]. cbn [andb].
  rewrite (scan_key _ _ _ Ha), (scan_key _ _ _ Hb). cbn [rbind head fmap option_fmap option_map].
  cbn [skip_head skip_while]. destruct (decide (Some x.1 = Some y.1)) as [He|He].
  - rewrite decide_True by congruence. destruct (scan_next_ok _ _ _ Hb) as (b' & -> & Hb'). cbn [rbind tail] in *.
    apply IH; [done|done|simpl in Hr; lia].
  - rewrite decide_False by congruence. by exists b.
Qed.

Lemma settle_ok (a : A) la ra (b : B) lb rb rounds all :
  scan_at d a la ra -> scan_at d b lb rb -> weak_order d ra -> weak_order d rb -> length rb < rounds ->
  exists self, settle d rounds a b = Ok self /\ two_merge_at self all (two_merge_contents d ra rb).
Proof.
  intros Ha Hb Hsa Hsb Hr. unfold settle.
  destruct (skip_b_ok a la ra lb rounds b rb Ha Hb Hr) as (b' & -> & Hb'). cbn [rbind].
  set (rb' := skip_head ra rb) in *.
  assert (weak_order d rb') as Hsb' by (subst rb'; destruct ra; [done|by apply weak_order_skip]).
  assert (length rb' < rounds) as Hr'.
  { subst rb'. destruct ra as [|x ra]; [done|]. simpl. pose proof (length_skip_while (fun kv => kv.1 = x.1) rb). lia. }
  assert (two_merge_contents d ra rb' = two_merge_contents d ra rb) as Hc.
  { subst rb'. destruct ra as [|x ra]; [done|]. unfold two_merge_contents. by rewrite <- (shadow_skip x ra rb). }
  assert (forall x ra' y rb1, ra = x :: ra' -> rb' = y :: rb1 -> x.1 <> y.1) as Hne.
  { intros x ra' y rb1 -> Hrb. subst rb'. simpl in Hrb.
    pose proof (skip_while_head (fun kv : bytes * V => kv.1 = x.1) rb y) as Hh. rewrite Hrb in Hh.
    specialize (Hh eq_refl). congruence. }
  unfold choose. rewrite (scan_valid _ _ _ Ha), (scan_valid _ _ _ Hb').
  assert (exists c, (match (match ra with [] => false | _ => true end), (match rb' with [] => false | _ => true end) with
    | false, false => Ok None
    | true, false => Ok (Some CurA)
    | false, true => Ok (Some CurB)
    | true, true =>
      ak <-- key a ;; ak <-- unwrap ak ;;
      bk <-- key b' ;; bk <-- unwrap bk ;;
      Ok (Some (if decide (kbefore d bk ak) then CurB else CurA))
    end) = Ok c /\ settled ra rb' c) as (c & -> & Hset).
  { destruct ra as [|x ra], rb' as [|y rb1]; simpl; try (by eexists).
    rewrite (scan_key _ _ _ Ha), (scan_key _ _ _ Hb'). simpl. eexists. split; [done|].
    split; [by eapply Hne|done]. }
  cbn [rbind]. eexists. split; [done|]. exists la, lb, ra, rb'. by split_and!.
Qed.

(** A head of side A that is not after side B's head is not in side B. *)
Lemma head_notin (x y : bytes * V) (rb : list (bytes * V)) :
  weak_order d (y :: rb) -> x.1 <> y.1 -> ~ kbefore d y.1 x.1 -> x.1 ∉ (y :: rb).*1.
Proof.
  intros Hs Hne Hnb Hin. unfold weak_order in Hs. rewrite fmap_cons in *.
  inversion Hs as [|? ? _ HF]; subst. apply elem_of_cons in Hin as [?|Hin]; [done|].
  rewrite Forall_forall in HF. apply HF in Hin.
  destruct (kbefore_total d x.1 y.1) as [?|[?|?]]; done.
Qed.

(** A head of side B that comes first is not in side A. *)
Lemma head_fresh (x y : bytes * V) (ra : list (bytes * V)) :
  weak_order d (x :: ra) -> kbefore d y.1 x.1 -> y.1 ∉ (x :: ra).*1.
Proof.
  intros Hs Hb Hin. unfold weak_order in Hs. rewrite fmap_cons in *.
  inversion Hs as [|? ? _ HF]; subst. apply elem_of_cons in Hin as [He|Hin].
  - rewrite He in Hb. by apply kbefore_irrefl in Hb.
  - rewrite Forall_forall in HF. by apply HF in Hin.
Qed.

(** The current entry is the head of the contents. *)
Lemma two_merge_step (ra rb : list (bytes * V)) c :
  settled ra rb c -> weak_order d ra -> weak_order d rb ->
  match c with
  | None => two_merge_contents d ra rb = []
  | Some CurA => exists x ra', ra = x :: ra'
       /\ two_merge_contents d ra rb = x :: two_merge_contents d ra' rb
  | Some CurB => exists y rb', rb = y :: rb'
       /\ two_merge_contents d ra rb = y :: two_merge_contents d ra rb'
  end.
Proof.
  intros Hset Hsa Hsb. unfold two_merge_contents. destruct ra as [|x ra], rb as [|y rb]; simpl in Hset.
  - by subst c.
  - subst c. exists y, rb. rewrite !shadow_nil. split; [done|]. by destruct rb.
  - subst c. exists x, ra. split; [done|]. by destruct ra.
  - destruct Hset as [Hne ->]. case_decide as Hb.
    + exists y, rb. split; [done|]. unfold shadow. rewrite filter_cons, decide_True by (by apply head_fresh).
      rewrite list_merge_cons, decide_False; [done|]. unfold first_or_tie. tauto.
    + exists x, ra. split; [done|]. rewrite shadow_cons_notin by (by apply head_notin).
      destruct (shadow ra (y :: rb)) as [|z l] eqn:Hz; [by destruct ra|].
      rewrite list_merge_cons, decide_True; [done|]. unfold first_or_tie.
      assert (z ∈ y :: rb) as Hin.
      { assert (z ∈ shadow ra (y :: rb)) as Hz' by (rewrite Hz; by left).
        unfold shadow in Hz'. apply list_elem_of_filter in Hz' as [_ ?]. done. }
      intros Hzx. unfold weak_order in Hsb. rewrite fmap_cons in Hsb. inversion Hsb as [|? ? _ HF]; subst.
      apply elem_of_cons in Hin as [->|Hin]; [done|]. rewrite Forall_fmap, Forall_forall in HF.
      specialize (HF z Hin). simpl in HF.
      destruct (kbefore_total d y.1 x.1) as [?|[?|Hxy]]; [done|congruence|]. apply HF. by etrans.
Qed.

Lemma two_merge_head (ra rb : list (bytes * V)) c :
  settled ra rb c -> weak_order d ra -> weak_order d rb ->
  head (two_merge_contents d ra rb)
  = match c with Some CurA => head ra | Some CurB => head rb | None => None end.
Proof.
  intros Hset Ha Hb. pose proof (two_merge_step ra rb c Hset Ha Hb) as Hs.
  destruct c as [[]|]; [destruct Hs as (x & l & -> & ->)..|rewrite Hs]; done.
Qed.

(** *** Seeking *)

Section Seek.
Context (t : bytes).
#[local] Abbreviation before := (fun kv : bytes * V => kbefore d kv.1 t).

Lemma skip_while_merge (la lb : list (bytes * V)) :
  skip_while before (list_merge (first_or_tie d) la lb)
  = list_merge (first_or_tie d) (skip_while before la) (skip_while before lb).
Proof.
  revert lb. induction la as [|x la IHa]; intros lb.
  { destruct lb; [done|]. simpl. case_decide; [|done]. by destruct (skip_while _ lb). }
  induction lb as [|y lb IHb].
  { simpl. case_decide; [|done]. by destruct (skip_while _ la). }
  rewrite list_merge_cons. destruct (decide (first_or_tie d x y)) as [Hxy|Hxy]; cbn [skip_while].
  - destruct (decide (before x)) as [Hx|Hx].
    + rewrite IHa. cbn [skip_while]. done.
    + destruct (decide (before y)) as [Hy|Hy].
      { exfalso. unfold first_or_tie in Hxy. destruct (kbefore_total d x.1 y.1) as [?|[He|?]]; [|congruence|done].
        apply Hx. by etrans. }
      rewrite list_merge_cons. by rewrite decide_True.
  - assert (kbefore d y.1 x.1) as Hyx by (unfold first_or_tie in Hxy; destruct (decide (kbefore d y.1 x.1)); tauto).
    destruct (decide (before y)) as [Hy|Hy].
    + rewrite IHb. cbn [skip_while]. done.
    + destruct (decide (before x)) as [Hx|Hx]; [exfalso; apply Hy; by etrans|].
      rewrite list_merge_cons. by rewrite decide_False.
Qed.

Lemma weak_sorted_pairs (l : list (bytes * V)) :
  weak_order d l -> StronglySorted (fun a b => ~ kbefore d b.1 a.1) l.
Proof.
  unfold weak_order. induction l as [|x l IH]; [constructor|]. rewrite fmap_cons.
  inversion 1 as [|? ? Hs HF]; subst. constructor; [auto|]. by rewrite Forall_fmap in HF.
Qed.

Lemma skip_before_filter (l : list (bytes * V)) :
  weak_order d l -> skip_while before l = filter (fun kv => ~ before kv) l.
Proof.
  intros Hs. apply (skip_while_filter _ _ _ (weak_sorted_pairs l Hs)). simpl. intros a b Hab Hb.
  destruct (kbefore_total d a.1 b.1) as [?|[He|?]]; [by etrans|by rewrite He|done].
Qed.

Lemma seek_key_iff la k :
  weak_order d la -> ~ kbefore d k t -> k ∈ (skip_while before la).*1 <-> k ∈ la.*1.
Proof.
  intros Hs Hk. rewrite skip_before_filter by done. rewrite !list_elem_of_fmap. split.
  - intros (x & -> & [_ Hx]%list_elem_of_filter). by exists x.
  - intros (x & -> & Hx). exists x. split; [done|]. by apply list_elem_of_filter.
Qed.

Lemma weak_order_filter (P : bytes * V -> Prop) `{forall x, Decision (P x)} (l : list (bytes * V)) :
  weak_order d l -> weak_order d (filter P l).
Proof.
  unfold weak_order. induction l as [|x l IH]; [done|]. rewrite fmap_cons. inversion 1 as [|? ? Hs HF]; subst.
  rewrite filter_cons. case_decide; [|auto]. rewrite fmap_cons. constructor; [auto|].
  rewrite Forall_fmap in *. rewrite Forall_forall in *. intros y [_ Hy]%list_elem_of_filter. by apply HF.
Qed.

Lemma shadow_seek (la lb : list (bytes * V)) :
  weak_order d la -> weak_order d lb ->
  skip_while before (shadow la lb) = shadow (skip_while before la) (skip_while before lb).
Proof.
  intros Ha Hb. unfold shadow.
  rewrite (skip_before_filter (filter _ lb)) by (by apply weak_order_filter).
  rewrite (skip_before_filter lb) by done.
  clear Hb. induction lb as [|y lb IH]; [done|]. rewrite !filter_cons.
  pose proof (seek_key_iff la y.1 Ha) as Hiff.
  destruct (decide (y.1 ∉ la.*1)) as [H1|H1], (decide (~ before y)) as [H2|H2];
    rewrite ?filter_cons; rewrite ?IH; try done.
  - rewrite decide_True by done. rewrite decide_True by (by rewrite Hiff). done.
  - by rewrite decide_False.
  - rewrite decide_False by (by rewrite Hiff). done.
Qed.

Lemma two_merge_seek_contents (la lb : list (bytes * V)) :
  weak_order d la -> weak_order d lb ->
  seek_from d t (two_merge_contents d la lb) = two_merge_contents d (seek_from d t la) (seek_from d t lb).
Proof.
  intros Ha Hb. unfold seek_from, two_merge_contents. by rewrite skip_while_merge, shadow_seek.
Qed.
End Seek.

#[export] Program Instance TwoMergeIter_scan : ScanLaws d (TwoMergeIter A B) V := {|
  scannable self all :=
    exists la lb, scannable d (tm_a self) la /\ scannable d (tm_b self) lb
      /\ weak_order d la /\ weak_order d lb /\ length lb < tm_rounds self
      /\ all = two_merge_contents d la lb;
  scan_at := two_merge_at;
|}.
Next Obligation.
  intros self all rest (la & lb & ra & rb & Ha & Hb & Hsa & Hsb & Hr & Hset & ->). simpl.
  pose proof (two_merge_head ra rb _ Hset Hsa Hsb) as Hh.
  destruct (two_merge_contents d ra rb), (tm_current self) as [[]|]; try done; simpl in Hset;
    by destruct ra, rb.
Qed.
Next Obligation.
  intros self all rest (la & lb & ra & rb & Ha & Hb & Hsa & Hsb & Hr & Hset & ->). simpl.
  rewrite (two_merge_head ra rb _ Hset Hsa Hsb).
  destruct (tm_current self) as [[]|]; [by rewrite (scan_key _ _ _ Ha)|by rewrite (scan_key _ _ _ Hb)|done].
Qed.
Next Obligation.
  intros self all rest (la & lb & ra & rb & Ha & Hb & Hsa & Hsb & Hr & Hset & ->). simpl.
  rewrite (two_merge_head ra rb _ Hset Hsa Hsb).
  destruct (tm_current self) as [[]|]; [by rewrite (scan_value _ _ _ Ha)|by rewrite (scan_value _ _ _ Hb)|done].
Qed.
Next Obligation.
  intros self all (la & lb & Ha & Hb & Hsa & Hsb & Hr & ->). cbn [seek_to_first TwoMergeIter_dir].
  unfold two_merge_seek_to_first.
  destruct (scan_first_ok _ _ Ha) as (a & -> & Ha'). cbn [rbind].
  destruct (scan_first_ok _ _ Hb) as (b & -> & Hb'). cbn [rbind]. by eapply settle_ok.
Qed.
Next Obligation.
  intros self all t (la & lb & Ha & Hb & Hsa & Hsb & Hr & ->). cbn [seek TwoMergeIter_dir].
  unfold two_merge_seek.
  destruct (scan_seek_ok _ _ t Ha) as (a & -> & Ha'). cbn [rbind].
  destruct (scan_seek_ok _ _ t Hb) as (b & -> & Hb'). cbn [rbind].
  rewrite two_merge_seek_contents by done. eapply settle_ok; try done.
  - by apply weak_order_skip.
  - by apply weak_order_skip.
  - unfold seek_from. pose proof (length_skip_while (fun kv => kbefore d kv.1 t) lb). lia.
Qed.
Next Obligation.
  intros self all rest (la & lb & ra & rb & Ha & Hb & Hsa & Hsb & Hr & Hset & ->).
  cbn [next TwoMergeIter_dir]. unfold two_merge_next.
  pose proof (two_merge_step ra rb _ Hset Hsa Hsb) as Hs.
  destruct (tm_current self) as [[]|] eqn:Hc.
  - destruct Hs as (x & ra' & -> & ->). destruct (scan_next_ok _ _ _ Ha) as (a & -> & Ha').
    cbn [rbind tail] in *. eapply settle_ok; try done. by apply weak_order_tail in Hsa.
  - destruct Hs as (y & rb' & -> & ->). destruct (scan_next_ok _ _ _ Hb) as (b & -> & Hb').
    cbn [rbind tail] in *. eapply settle_ok; try done; [by apply weak_order_tail in Hsb|simpl in Hr; lia].
  - rewrite Hs. exists self. split; [done|]. exists la, lb, ra, rb. rewrite Hc. by split_and!.
Qed.
End Correct.
