(* ===== verification/MemTable.v ===== *)
(** The in-memory write buffer (memtable.rs) and the adapter that exposes it to
    the merge layer (iterators/map_iter.rs).

    The concurrent skip list is a third-party crate: it is a parameter, an
    ordered map with the operations the code calls, and its documented
    behaviour is the class [OrderedMapLaws]. [SortedAssoc] is an instance. *)

From stdpp Require Import base list numbers strings sorting.
From S2P Require Import Prelude.
From S2P Require Import Errors.
From S2P Require Import Iter.
From S2P Require Import EntryDecode.

(** [Entry<V>] at the engine's value type. *)
Inductive Entry := Put (v : bytes) | Delete.

#[export] Instance Entry_eq_dec : EqDecision Entry.
Proof. solve_decision. Defined.

(** ** The skip list *)

(** [SkipMap<Bytes, Entry<Bytes>>]: an entry handle is the key and value it
    stands on, and moves along the current map. *)
Class OrderedMap (M : Type) := {
  om_empty : M;
  om_insert : bytes -> Entry -> M -> M;
  om_front : M -> option (bytes * Entry);
  om_back : M -> option (bytes * Entry);
  om_lower_bound : bytes -> M -> option (bytes * Entry);
  om_upper_bound : bytes -> M -> option (bytes * Entry);
  om_next : bytes -> M -> option (bytes * Entry);
  om_prev : bytes -> M -> option (bytes * Entry);
  om_len : M -> nat;
}.

(** Insertion into an association list sorted by key: replace or place. *)
Fixpoint sorted_insert {V} (k : bytes) (v : V) (l : list (bytes * V)) : list (bytes * V) :=
  match l with
  | [] => [(k, v)]
  | (k', v') :: l' =>
      match bytes_cmp k k' with
      | Lt => (k, v) :: l
      | Eq => (k, v) :: l'
      | Gt => (k', v') :: sorted_insert k v l'
      end
  end.

(** The documented behaviour, on the entries in key order. *)
Class OrderedMapLaws (M : Type) `{OrderedMap M} := {
  om_entries : M -> list (bytes * Entry);
  om_sorted : forall m, ksorted (om_entries m);
  om_entries_empty : om_entries om_empty = [];
  om_entries_insert : forall k v m, om_entries (om_insert k v m) = sorted_insert k v (om_entries m);
  om_front_ok : forall m, om_front m = head (om_entries m);
  om_back_ok : forall m, om_back m = head (reverse (om_entries m));
  om_lower_bound_ok : forall t m, om_lower_bound t m = head (seek_from Fwd t (om_entries m));
  om_upper_bound_ok : forall t m, om_upper_bound t m = head (seek_from Rev t (reverse (om_entries m)));
  om_next_ok : forall k m, om_next k m
    = head (skip_while (fun kv => kle kv.1 k) (om_entries m));
  om_prev_ok : forall k m, om_prev k m
    = head (skip_while (fun kv => kle k kv.1) (reverse (om_entries m)));
  om_len_ok : forall m, om_len m = length (om_entries m);
}.

(** The removal inside [SkipMap::insert], where a key is overwritten. *)
Class OrderedMapRemove (M : Type) := om_remove : bytes -> M -> M.

Class OrderedMapRemoveLaws (M : Type) `{OrderedMapLaws M} `{OrderedMapRemove M} :=
  om_entries_remove : forall k m,
    om_entries (om_remove k m) = filter (fun kv => kv.1 ≠ k) (om_entries m).

(** ** The table

    [mt_memory_size] is an [AtomicUsize] in the code; it sums the sizes of
    slices that were in memory, and stays far from 2^64 before the table is
    switched out, so it is a [nat] here. *)

Record MemTable (M : Type) := mkMemTable { mt_map : M; mt_memory_size : nat }.
Arguments mkMemTable {M} _ _.
Arguments mt_map {M} _.
Arguments mt_memory_size {M} _.

Section Table.
Context {M : Type} `{OrderedMap M}.

(** [MemTable::new]. *)
Definition memtable_new : MemTable M := mkMemTable om_empty 0.

(** [MemTable::put]. *)
Definition memtable_put (k v : bytes) (t : MemTable M) : MemTable M :=
  mkMemTable (om_insert k (Put v) (mt_map t)) (mt_memory_size t + (length k + length v)).

(** [MemTable::delete]. *)
Definition memtable_delete (k : bytes) (t : MemTable M) : MemTable M :=
  mkMemTable (om_insert k Delete (mt_map t)) (mt_memory_size t + length k).

(** [MemTable::estimate_memory], [len], [is_empty]. *)
Definition estimate_memory (t : MemTable M) : nat := mt_memory_size t.
Definition memtable_len (t : MemTable M) : nat := om_len (mt_map t).
Definition memtable_is_empty (t : MemTable M) : bool := bool_decide (om_len (mt_map t) = 0).
End Table.

(** ** The iterator *)

(** [OwnedMemTableIter]: the shared map, the entry handle and the cached item. *)
Record OwnedMemTableIter (M : Type) := mkMemIter {
  mit_map : M;
  mit_current : option (bytes * Entry);
  mit_item : option (bytes * Entry);
}.
Arguments mkMemIter {M} _ _ _.
Arguments mit_map {M} _.
Arguments mit_current {M} _.
Arguments mit_item {M} _.

Section IterOps.
Context {M : Type} `{OrderedMap M}.

(** [MemTable::iter]. *)
Definition memtable_iter (t : MemTable M) : OwnedMemTableIter M := mkMemIter (mt_map t) None None.

#[export] Instance MemTableIter_read : IterRead (OwnedMemTableIter M) Entry := {|
  valid self := match mit_item self with Some _ => true | None => false end;
  key self := Ok (fst <$> mit_item self);
  value self := Ok (snd <$> mit_item self);
|}.

(** Every (re)positioning rebuilds the iterator around a new handle and caches
    its entry. *)
Definition mem_at (m : M) (current : option (bytes * Entry)) : OwnedMemTableIter M :=
  mkMemIter m current current.

Definition mem_seek_to_first (d : direction) (self : OwnedMemTableIter M)
  : StorageResult (OwnedMemTableIter M) :=
  Ok (mem_at (mit_map self)
        (match d with Fwd => om_front (mit_map self) | Rev => om_back (mit_map self) end)).

(** [seek] and, for the [Bytes] table, [seek_mapped] / [seek_mapped_for_prev]. *)
Definition mem_seek (d : direction) (target : bytes) (self : OwnedMemTableIter M)
  : StorageResult (OwnedMemTableIter M) :=
  Ok (mem_at (mit_map self)
        (match d with
         | Fwd => om_lower_bound target (mit_map self)
         | Rev => om_upper_bound target (mit_map self)
         end)).

Definition mem_next (d : direction) (self : OwnedMemTableIter M) : StorageResult (OwnedMemTableIter M) :=
  Ok (mem_at (mit_map self)
        (mit_current self ≫= fun e =>
           match d with Fwd => om_next e.1 (mit_map self) | Rev => om_prev e.1 (mit_map self) end)).

#[export] Instance MemTableIter_dir d : DirIter d (OwnedMemTableIter M) := {|
  seek_to_first := mem_seek_to_first d;
  seek := mem_seek d;
  next := mem_next d;
|}.
End IterOps.

(** ** The mapping adapter *)

(** [MapIter<OwnedMemTableIter<Bytes, Bytes>>]. *)
Record MapIter (M : Type) := mkMapIter { map_inner : OwnedMemTableIter M }.
Arguments mkMapIter {M} _.
Arguments map_inner {M} _.

(** [MappedStorageIter::map_value] (keys map to themselves). *)
Definition map_value (e : Entry) : EntryValue :=
  match e with Put v => EPut v | Delete => EDelete end.

(** [impl From<EntryValue> for Entry]. *)
Definition entry_of_value (e : EntryValue) : Entry :=
  match e with EPut v => Put v | EDelete => Delete end.

Section MapOps.
Context {M : Type} `{OrderedMap M}.

#[export] Instance MapIter_read : IterRead (MapIter M) EntryValue := {|
  valid self := valid (map_inner self);
  key self := key (map_inner self);
  value self := v <-- value (map_inner self) ;; Ok (map_value <$> v);
|}.

#[export] Instance MapIter_dir d : DirIter d (MapIter M) := {|
  seek_to_first self := i <-- seek_to_first d (map_inner self) ;; Ok (mkMapIter i);
  seek target self := i <-- seek d target (map_inner self) ;; Ok (mkMapIter i);
  next self := i <-- next d (map_inner self) ;; Ok (mkMapIter i);
|}.
End MapOps.

(** ** Correctness *)

Section Correct.
Context {M : Type} `{OrderedMapLaws M}.

Definition mem_iter_at (d : direction) (self : OwnedMemTableIter M) (all rest : list (bytes * Entry)) : Prop :=
  all = om_entries (mit_map self)
  /\ (exists p, ord d all = p ++ rest)
  /\ mit_current self = head rest /\ mit_item self = head rest.

(** The handle's successor is the next entry in the order of travel. *)
Lemma skip_past_fwd (p q : list (bytes * Entry)) x :
  ksorted (p ++ x :: q) -> skip_while (fun kv => kle kv.1 x.1) (p ++ x :: q) = q.
Proof.
  intros Hs. replace (p ++ x :: q) with ((p ++ [x]) ++ q) in * by (by rewrite <- app_assoc).
  apply ksorted_app in Hs as (Hp & _ & Hc). apply ksorted_app in Hp as (_ & _ & Hp).
  apply skip_while_app.
  - apply Forall_app. split; [|by constructor; [apply kle_refl|]].
    apply Forall_forall. intros y Hy. apply klt_kle, Hp; [done|]. by apply list_elem_of_singleton.
  - intros y Hy. rewrite not_kle. apply Hc; [apply elem_of_app; right; by apply list_elem_of_singleton|].
    destruct q; [done|]. simplify_eq/=. by left.
Qed.

Lemma skip_past_rev (l p q : list (bytes * Entry)) x :
  ksorted l -> reverse l = p ++ x :: q -> skip_while (fun kv => kle x.1 kv.1) (reverse l) = q.
Proof.
  intros Hs Hl. assert (l = (reverse q ++ [x]) ++ reverse p) as Hl'.
  { by rewrite <- (reverse_involutive l), Hl, reverse_app, reverse_cons. }
  rewrite Hl' in Hs. apply ksorted_app in Hs as (Hq & _ & Hc). apply ksorted_app in Hq as (_ & _ & Hq).
  rewrite Hl. replace (p ++ x :: q) with ((p ++ [x]) ++ q) by (by rewrite <- app_assoc).
  apply skip_while_app.
  - apply Forall_app. split; [|by constructor; [apply kle_refl|]].
    apply Forall_forall. intros y Hy. apply klt_kle, Hc.
    + apply elem_of_app. right. by apply list_elem_of_singleton.
    + by apply elem_of_reverse.
  - intros y Hy. rewrite not_kle. apply Hq; [|by apply list_elem_of_singleton].
    apply elem_of_reverse. destruct q; [done|]. simplify_eq/=. by left.
Qed.

Lemma mem_step d (m : M) p x q :
  ord d (om_entries m) = p ++ x :: q ->
  match d with Fwd => om_next x.1 m | Rev => om_prev x.1 m end = head q.
Proof.
  intros Hl. pose proof (om_sorted m) as Hs. destruct d; simpl in Hl.
  - rewrite om_next_ok, Hl. rewrite Hl in Hs. by rewrite skip_past_fwd.
  - rewrite om_prev_ok. by erewrite skip_past_rev.
Qed.

#[export] Program Instance MemTableIter_laws d : IterLaws d (OwnedMemTableIter M) Entry := {|
  seekable self all := all = om_entries (mit_map self);
  at_pos := mem_iter_at d;
|}.
Next Obligation. intros d self all rest (_ & _ & _ & Hi). simpl. rewrite Hi. by destruct rest. Qed.
Next Obligation. intros d self all rest (_ & _ & _ & Hi). simpl. by rewrite Hi. Qed.
Next Obligation. intros d self all rest (_ & _ & _ & Hi). simpl. by rewrite Hi. Qed.
Next Obligation.
  intros d self all ->. eexists. split; [done|].
  assert (forall c, c = head (ord d (om_entries (mit_map self))) ->
    mem_iter_at d (mem_at (mit_map self) c) (om_entries (mit_map self)) (ord d (om_entries (mit_map self)))) as Hk.
  { intros c ->. split_and!; try done. by exists []. }
  apply Hk. destruct d; [apply om_front_ok|apply om_back_ok].
Qed.
Next Obligation.
  intros d self all t ->. eexists. split; [done|].
  assert (forall c, c = head (seek_from d t (ord d (om_entries (mit_map self)))) ->
    mem_iter_at d (mem_at (mit_map self) c) (om_entries (mit_map self))
      (seek_from d t (ord d (om_entries (mit_map self))))) as Hk.
  { intros c ->. split_and!; try done.
    destruct (skip_while_suffix (fun kv : bytes * Entry => kbefore d kv.1 t) (ord d (om_entries (mit_map self))))
      as (p & Hp & _). by exists p. }
  apply Hk. destruct d; [apply om_lower_bound_ok|apply om_upper_bound_ok].
Qed.
Next Obligation.
  intros d self all rest (-> & [p Hp] & Hc & Hi). eexists. split; [done|].
  rewrite Hc. destruct rest as [|x rest]; simpl.
  - split_and!; try done. by exists p.
  - split_and!; try done; [exists (p ++ [x]); by rewrite <- app_assoc| |]; simpl; by eapply mem_step.
Qed.

#[export] Instance MemTableIter_reseek d : Reseekable d (OwnedMemTableIter M) Entry.
Proof. intros self all rest (-> & _). done. Qed.

Definition map_kv (kv : bytes * Entry) : bytes * EntryValue := (kv.1, map_value kv.2).

(** The adapter shows the table's entries as [EntryValue]s. *)
#[export] Program Instance MapIter_laws d : IterLaws d (MapIter M) EntryValue := {|
  seekable self all := exists l, seekable d (map_inner self) l /\ all = map_kv <$> l;
  at_pos self all rest :=
    exists l r, at_pos d (map_inner self) l r /\ all = map_kv <$> l /\ rest = map_kv <$> r;
|}.
Next Obligation.
  intros d self all rest (l & r & Hat & _ & ->). cbn [valid MapIter_read].
  rewrite (at_valid _ _ _ Hat). by destruct r.
Qed.
Next Obligation.
  intros d self all rest (l & r & Hat & _ & ->). cbn [key MapIter_read].
  rewrite (at_key _ _ _ Hat). by destruct r.
Qed.
Next Obligation.
  intros d self all rest (l & r & Hat & _ & ->). cbn [value MapIter_read].
  rewrite (at_value _ _ _ Hat). by destruct r.
Qed.
Next Obligation.
  intros d self all (l & Hs & ->). cbn [seek_to_first MapIter_dir].
  destruct (seek_to_first_ok _ _ Hs) as (i & -> & Hat). eexists. split; [done|].
  exists l, (ord d l). by rewrite ord_fmap.
Qed.
Next Obligation.
  intros d self all t (l & Hs & ->). cbn [seek MapIter_dir].
  destruct (seek_ok _ _ t Hs) as (i & -> & Hat). eexists. split; [done|].
  exists l, (seek_from d t (ord d l)). by rewrite ord_fmap, seek_from_fmap.
Qed.
Next Obligation.
  intros d self all rest (l & r & Hat & -> & ->). cbn [next MapIter_dir].
  destruct (next_ok _ _ _ Hat) as (i & -> & Hat'). eexists. split; [done|].
  exists l, (tail r). by rewrite tail_fmap'.
Qed.
End Correct.

(** ** An instance of the ordered map *)

Record SortedAssoc := mkSortedAssoc { sa_list : list (bytes * Entry); sa_sorted : ksorted sa_list }.

Lemma sorted_insert_keys {V} k (v : V) l x :
  x ∈ sorted_insert k v l -> x.1 = k \/ x ∈ l.
Proof.
  induction l as [|[k' v'] l IH]; simpl.
  { rewrite list_elem_of_singleton. intros ->. by left. }
  destruct (bytes_cmp k k') eqn:Hc; rewrite !elem_of_cons; intros [->|Hx]; auto.
  destruct (IH Hx); auto.
Qed.

Lemma sorted_insert_sorted {V} k (v : V) l : ksorted l -> ksorted (sorted_insert k v l).
Proof.
  induction l as [|[k' v'] l IH]; intros Hs; simpl; [by repeat constructor|].
  apply ksorted_cons in Hs as [HF Hs]. destruct (bytes_cmp k k') eqn:Hc.
  - apply bytes_cmp_eq in Hc as ->. by apply ksorted_cons.
  - apply ksorted_cons. split; [|by apply ksorted_cons]. constructor; [done|].
    eapply Forall_impl; [exact HF|]. simpl. intros x Hx. by eapply klt_trans.
  - apply ksorted_cons. split; [|auto]. apply Forall_forall. intros x Hx. simpl.
    rewrite bytes_cmp_antisym in Hc. destruct (sorted_insert_keys _ _ _ _ Hx) as [->|Hx'].
    + unfold klt. by destruct (bytes_cmp k' k).
    + rewrite Forall_forall in HF. by apply HF.
Qed.

#[export] Instance SortedAssoc_map : OrderedMap SortedAssoc := {|
  om_empty := mkSortedAssoc [] (SSorted_nil _);
  om_insert k v m := mkSortedAssoc (sorted_insert k v (sa_list m)) (sorted_insert_sorted k v _ (sa_sorted m));
  om_front m := head (sa_list m);
  om_back m := head (reverse (sa_list m));
  om_lower_bound t m := head (seek_from Fwd t (sa_list m));
  om_upper_bound t m := head (seek_from Rev t (reverse (sa_list m)));
  om_next k m := head (skip_while (fun kv => kle kv.1 k) (sa_list m));
  om_prev k m := head (skip_while (fun kv => kle k kv.1) (reverse (sa_list m)));
  om_len m := length (sa_list m);
|}.

#[export] Program Instance SortedAssoc_laws : OrderedMapLaws SortedAssoc := {| om_entries := sa_list |}.
Next Obligation. apply sa_sorted. Qed.
Solve Obligations with done.

Lemma ksorted_filter {V} (P : bytes * V -> Prop) `{forall x, Decision (P x)} l :
  ksorted l -> ksorted (filter P l).
Proof.
  induction l as [|x l IH]; intros Hs; [done|]. apply ksorted_cons in Hs as [HF Hs].
  rewrite filter_cons. case_decide; [|by apply IH]. apply ksorted_cons. split; [|by apply IH].
  apply Forall_forall. intros y [_ Hy]%list_elem_of_filter. rewrite Forall_forall in HF. by apply HF.
Qed.

#[export] Instance SortedAssoc_remove : OrderedMapRemove SortedAssoc := fun k m =>
  mkSortedAssoc (filter (fun kv => kv.1 ≠ k) (sa_list m)) (ksorted_filter _ _ (sa_sorted m)).

#[export] Instance SortedAssoc_remove_laws : OrderedMapRemoveLaws SortedAssoc.
Proof. done. Qed.
