(* ===== verification/LsmScan.v ===== *)
(** Range-limited scans (lsm_iter.rs): one bound positions the inner iterator,
    the other one is enforced while it moves. *)

From stdpp Require Import base list numbers strings sorting.
From S2P Require Import Prelude.
From S2P Require Import Errors.
From S2P Require Import Iter.
From S2P Require Import ScanLaws.
From S2P Require Import MergeIter.
From S2P Require Import TwoMergeIter.
From S2P Require Import EntryDecode.
From S2P Require Import MemTable.

(** [std::ops::Bound<Bytes>]. *)
Inductive Bound := Included (k : bytes) | Excluded (k : bytes) | Unbounded.

(** [LsmForwardScan] ([d = Fwd]) and [LsmReverseScan] ([d = Rev]). [ls_rounds]
    bounds the skip loop of [init]; it is not in the source, and any bound that
    covers the inner iterator gives the same result. *)
Record LsmScan (I : Type) := mkLsmScan {
  ls_inner : I;
  ls_lower : Bound;
  ls_upper : Bound;
  ls_rounds : nat;
}.
Arguments mkLsmScan {I} _ _ _ _.
Arguments ls_inner {I} _.
Arguments ls_lower {I} _.
Arguments ls_upper {I} _.
Arguments ls_rounds {I} _.

Section Ops.
Context {I : Type} `{IterRead I EntryValue}.

(** The loop of [init] on an excluded bound: step past every entry at [k]. *)
Fixpoint skip_equal (d : direction) `{DirIter d I} (rounds : nat) (k : bytes) (inner : I) : StorageResult I :=
  match rounds with
  | 0 => Panic
  | S rounds' =>
      if valid inner then
        ik <-- key inner ;;
        if decide (ik = Some k) then
          inner <-- next d inner ;; skip_equal d rounds' k inner
        else Ok inner
      else Ok inner
  end.

(** The bound a scan starts from, and the one it ends at. *)
Definition start_bound (d : direction) (self : LsmScan I) : Bound :=
  match d with Fwd => ls_lower self | Rev => ls_upper self end.
Definition end_bound (d : direction) (self : LsmScan I) : Bound :=
  match d with Fwd => ls_upper self | Rev => ls_lower self end.

Definition set_inner (self : LsmScan I) (i : I) : LsmScan I :=
  mkLsmScan i (ls_lower self) (ls_upper self) (ls_rounds self).

(** [init]. *)
Definition lsm_scan_init (d : direction) `{DirIter d I} (self : LsmScan I) : StorageResult (LsmScan I) :=
  inner <-- (match start_bound d self with
             | Included start => seek d start (ls_inner self)
             | Excluded start =>
                 inner <-- seek d start (ls_inner self) ;;
                 skip_equal d (ls_rounds self) start inner
             | Unbounded => seek_to_first d (ls_inner self)
             end) ;;
  Ok (set_inner self inner).

(** [key] is on the right side of the end bound. *)
Definition within_end (d : direction) (b : Bound) (k : bytes) : Prop :=
  match b with
  | Included e => ~ kbefore d e k
  | Excluded e => kbefore d k e
  | Unbounded => True
  end.
#[export] Instance within_end_dec d b k : Decision (within_end d b k).
Proof. destruct b; simpl; apply _. Defined.

(** [ScanIter::valid]. *)
Definition lsm_scan_valid (d : direction) (self : LsmScan I) : StorageResult bool :=
  if valid (ls_inner self) then
    k <-- key (ls_inner self) ;;
    k <-- unwrap k ;;
    Ok (bool_decide (within_end d (end_bound d self) k))
  else Ok false.

(** [ScanIter::key], [ScanIter::value]. *)
Definition lsm_scan_key (d : direction) (self : LsmScan I) : StorageResult (option bytes) :=
  v <-- lsm_scan_valid d self ;;
  if (v : bool) then key (ls_inner self) else Ok None.

Definition lsm_scan_value (d : direction) (self : LsmScan I) : StorageResult (option Entry) :=
  v <-- lsm_scan_valid d self ;;
  if (v : bool) then v <-- value (ls_inner self) ;; Ok (entry_of_value <$> v) else Ok None.

(** [ScanIter::seek_to_first], [seek] and [next] go straight to the inner
    iterator, bounds or not. *)
Definition lsm_scan_seek_to_first (d : direction) `{DirIter d I} (self : LsmScan I)
  : StorageResult (LsmScan I) :=
  i <-- seek_to_first d (ls_inner self) ;; Ok (set_inner self i).

Definition lsm_scan_seek (d : direction) `{DirIter d I} (target : bytes) (self : LsmScan I)
  : StorageResult (LsmScan I) :=
  i <-- seek d target (ls_inner self) ;; Ok (set_inner self i).

Definition lsm_scan_next (d : direction) `{DirIter d I} (self : LsmScan I) : StorageResult (LsmScan I) :=
  i <-- next d (ls_inner self) ;; Ok (set_inner self i).

(** A consumer's loop over a [ScanIter]. *)
Fixpoint lsm_collect (d : direction) `{DirIter d I} (fuel : nat) (self : LsmScan I)
  : StorageResult (list (bytes * Entry)) :=
  match fuel with
  | 0 => Ok []
  | S fuel' =>
      v <-- lsm_scan_valid d self ;;
      if (v : bool) then
        k <-- lsm_scan_key d self ;; k <-- unwrap k ;;
        e <-- lsm_scan_value d self ;; e <-- unwrap e ;;
        self <-- lsm_scan_next d self ;;
        rest <-- lsm_collect d fuel' self ;;
        Ok ((k, e) :: rest)
      else Ok []
  end.
End Ops.

(** ** Correctness *)

(** [k] is on the right side of the start bound. *)
Definition within_start (d : direction) (b : Bound) (k : bytes) : Prop :=
  match b with
  | Included s => ~ kbefore d k s
  | Excluded s => kbefore d s k
  | Unbounded => True
  end.
#[export] Instance within_start_dec d b k : Decision (within_start d b k).
Proof. destruct b; simpl; apply _. Defined.

(** The key range of a scan, in terms of its two bounds. *)
Definition in_range (lower upper : Bound) (k : bytes) : Prop :=
  match lower with Included s => kle s k | Excluded s => klt s k | Unbounded => True end
  /\ match upper with Included e => kle k e | Excluded e => klt k e | Unbounded => True end.
#[export] Instance in_range_dec l u k : Decision (in_range l u k).
Proof. unfold in_range. destruct l, u; apply _. Defined.

Lemma within_bounds {I} d (self : LsmScan I) k :
  within_start d (start_bound d self) k /\ within_end d (end_bound d self) k
  <-> in_range (ls_lower self) (ls_upper self) k.
Proof.
  unfold in_range. destruct self as [i l u r], d; simpl; destruct l, u; simpl;
    rewrite ?not_klt; tauto.
Qed.

Section Correct.
Context {I : Type} {d : direction} `{ScanLaws d I EntryValue}.

Definition kv_entry (kv : bytes * EntryValue) : bytes * Entry := (kv.1, entry_of_value kv.2).

Lemma skip_equal_ok k all rounds : forall (inner : I) rest,
  scan_at d inner all rest -> length rest < rounds ->
  exists inner', skip_equal d rounds k inner = Ok inner'
              /\ scan_at d inner' all (skip_while (fun kv => kv.1 = k) rest).
Proof.
  induction rounds as [|rounds IH]; intros inner rest Hat Hr; [lia|]. cbn [skip_equal].
  rewrite (scan_valid _ _ _ Hat). destruct rest as [|x rest]; [by exists inner|].
  rewrite (scan_key _ _ _ Hat). cbn [rbind head fmap option_fmap option_map skip_while].
  destruct (decide (Some x.1 = Some k)) as [He|He].
  - rewrite decide_True by congruence. destruct (scan_next_ok _ _ _ Hat) as (i & -> & Hi). cbn [rbind tail] in *.
    apply IH; [done|simpl in Hr; lia].
  - rewrite decide_False by congruence. by exists inner.
Qed.

(** Stepping past the entries at [s] after those before it. *)
Lemma skip_excluded s (all : list (bytes * EntryValue)) :
  weak_order d all ->
  skip_while (fun kv => kv.1 = s) (seek_from d s all) = skip_while (fun kv => ~ kbefore d s kv.1) all.
Proof.
  unfold seek_from. induction all as [|x all IH]; intros Hs; [done|].
  pose proof (weak_order_tail (x :: all) Hs) as Hs'. cbn [skip_while tail] in *.
  destruct (decide (kbefore d x.1 s)) as [Hx|Hx].
  { rewrite decide_True by (by apply kbefore_asym). auto. }
  cbn [skip_while]. destruct (decide (x.1 = s)) as [He|He].
  - rewrite decide_True by (rewrite He; apply kbefore_irrefl).
    apply skip_while_ext_Forall. unfold weak_order in Hs. rewrite fmap_cons in Hs.
    inversion Hs as [|? ? _ HF]; subst. rewrite Forall_fmap in HF. eapply Forall_impl; [exact HF|].
    simpl. intros y Hy. split; [intros ->; apply kbefore_irrefl|]. intros Hn.
    destruct (kbefore_total d x.1 y.1) as [?|[?|?]]; [done|done|done].
  - rewrite decide_False; [done|]. destruct (kbefore_total d x.1 s) as [?|[?|?]]; [done|done|]. tauto.
Qed.

(** Past the start bound. *)
Lemma start_contents b (all : list (bytes * EntryValue)) :
  weak_order d all ->
  match b with
  | Included s => seek_from d s all
  | Excluded s => skip_while (fun kv => kv.1 = s) (seek_from d s all)
  | Unbounded => all
  end = filter (fun kv => within_start d b kv.1) all.
Proof.
  intros Hs. destruct b as [s|s|]; simpl.
  - by apply skip_before_filter.
  - rewrite skip_excluded by done. rewrite (skip_while_filter _ _ _ (weak_sorted_pairs all Hs)).
    + apply list_filter_iff. intros x. destruct (decide (kbefore d s x.1)); tauto.
    + simpl. intros a b Hab Hb Ha. destruct (kbefore_total d a.1 b.1) as [?|[He|?]]; [|congruence|done].
      apply Hb. by etrans.
  - symmetry. clear Hs.
    induction all as [|x all IH]; [done|]. by rewrite filter_cons, decide_True, IH.
Qed.

(** The end bound cuts a suffix off a sorted list. *)
Lemma lsm_collect_ok fuel : forall (self : LsmScan I) all rest,
  scan_at d (ls_inner self) all rest -> weak_order d rest -> length rest <= fuel ->
  lsm_collect d fuel self
  = Ok (kv_entry <$> filter (fun kv => within_end d (end_bound d self) kv.1) rest).
Proof.
  induction fuel as [|fuel IH]; intros self all rest Hat Hs Hlen.
  { destruct rest; [done|simpl in Hlen; lia]. }
  cbn [lsm_collect]. unfold lsm_scan_key, lsm_scan_value, lsm_scan_valid.
  rewrite (scan_valid _ _ _ Hat). destruct rest as [|x rest]; [done|].
  rewrite (scan_key _ _ _ Hat), (scan_value _ _ _ Hat). cbn [rbind head fmap option_fmap option_map unwrap].
  rewrite filter_cons. destruct (decide (within_end d (end_bound d self) x.1)) as [Hw|Hw].
  - rewrite bool_decide_true by done. cbn [rbind unwrap]. unfold lsm_scan_next.
    destruct (scan_next_ok _ _ _ Hat) as (i & -> & Hi). cbn [rbind tail] in *.
    rewrite (IH (set_inner self i) all rest); [done|done|by apply (weak_order_tail (x :: rest))|simpl in Hlen; lia].
  - rewrite bool_decide_false by done. cbn [rbind].
    assert (filter (fun kv => within_end d (end_bound d self) kv.1) rest = []) as ->; [|done].
    unfold weak_order in Hs. rewrite fmap_cons in Hs. inversion Hs as [|? ? _ HF]; subst.
    rewrite Forall_fmap in HF. clear -Hw HF. induction HF as [|y rest Hy HF IH]; [done|].
    rewrite filter_cons, decide_False; [done|]. simpl in Hy. intros Hwy. apply Hw.
    destruct (end_bound d self) as [e|e|]; simpl in *; [|..].
    + intros Hex. destruct (kbefore_total d x.1 y.1) as [?|[Heq|?]]; [apply Hwy; by etrans|congruence|done].
    + destruct (kbefore_total d x.1 y.1) as [?|[Heq|?]]; [by etrans|congruence|done].
    + done.
Qed.

Lemma lsm_init_ok (self : LsmScan I) all :
  scannable d (ls_inner self) all -> weak_order d all -> length all < ls_rounds self ->
  exists inner, lsm_scan_init d self = Ok (set_inner self inner)
             /\ scan_at d inner all (filter (fun kv => within_start d (start_bound d self) kv.1) all).
Proof.
  intros Hsc Hs Hr. unfold lsm_scan_init. rewrite <- start_contents by done.
  destruct (start_bound d self) as [s|s|].
  - destruct (scan_seek_ok _ _ s Hsc) as (i & -> & Hi). by exists i.
  - destruct (scan_seek_ok _ _ s Hsc) as (i & -> & Hi). cbn [rbind].
    pose proof (length_skip_while (fun kv => kbefore d kv.1 s) all) as Hl.
    destruct (skip_equal_ok s all (ls_rounds self) i _ Hi) as (i' & -> & Hi'); [unfold seek_from; lia|]. by exists i'.
  - destruct (scan_first_ok _ _ Hsc) as (i & -> & Hi). by exists i.
Qed.

Lemma filter_filter {X} (P Q : X -> Prop) `{forall x, Decision (P x), forall x, Decision (Q x)} (l : list X) :
  filter P (filter Q l) = filter (fun x => Q x /\ P x) l.
Proof.
  induction l as [|x l IH]; [done|]. rewrite !filter_cons.
  destruct (decide (Q x)); [rewrite filter_cons; destruct (decide (P x))|].
  - rewrite decide_True by done. by rewrite IH.
  - rewrite decide_False by tauto. done.
  - rewrite decide_False by tauto. done.
Qed.

(** A range scan visits the entries of the inner iterator inside the range, in
    the order of travel. *)
Lemma lsm_scan_ok (inner : I) lower upper rounds all :
  scannable d inner all -> weak_order d all -> length all < rounds ->
  exists self, lsm_scan_init d (mkLsmScan inner lower upper rounds) = Ok self
            /\ forall fuel, length all <= fuel -> lsm_collect d fuel self
               = Ok (kv_entry <$> filter (fun kv => in_range lower upper kv.1) all).
Proof.
  intros Hsc Hs Hr. destruct (lsm_init_ok (mkLsmScan inner lower upper rounds) all Hsc Hs Hr) as (i & Hi & Hat).
  eexists. split; [exact Hi|]. intros fuel Hfuel. erewrite lsm_collect_ok; [|exact Hat|by apply weak_order_filter|].
  - do 2 f_equal. rewrite filter_filter. apply list_filter_iff. intros x. apply (within_bounds d (mkLsmScan i lower upper rounds)).
  - etrans; [apply length_filter|done].
Qed.
End Correct.
