(* ===== verification/StableIter.v ===== *)
(** Iterators that may be sought any number of times, in either direction.

    The scan path seeks its sources three times before the first entry is read
    ([TwoMergeIter::new] twice, then the range scan), so it needs more than
    [ScanLaws]: every operation must leave an iterator that may be sought
    again. [stable it C] says so, with [C d] the contents in direction [d]. *)

From stdpp Require Import base list numbers strings sorting.
From S2P Require Import Prelude.
From S2P Require Import Errors.
From S2P Require Import Block.
From S2P Require Import Iter.
From S2P Require Import BlockIter.
From S2P Require Import EntryDecode.
From S2P Require Import ScanLaws.
From S2P Require Import IndexTreeIter.
From S2P Require Import IndexTreeCorrect.
From S2P Require Import SstIter.
From S2P Require Import ConcatIter.
From S2P Require Import MergeIter.
From S2P Require Import TwoMergeIter.
From S2P Require Import MemTable.

#[local] Existing Instances Permutation_cons Permutation_app'.

(** Contents in each direction. *)
Abbreviation contents V := (direction -> list (bytes * V)).

Class StableIter (I V : Type) `{IterRead I V} `{forall d, DirIter d I} `{forall d, ScanLaws d I V} := {
  stable : I -> contents V -> Prop;
  stable_scannable : forall it C d, stable it C -> scannable d it (C d);
  stable_first : forall it C d it', stable it C -> seek_to_first d it = Ok it' -> stable it' C;
  stable_seek : forall it C d t it', stable it C -> seek d t it = Ok it' -> stable it' C;
  stable_next : forall it C d it', stable it C -> next d it = Ok it' -> stable it' C;
}.

(** ** Memtables *)

Section Mem.
Context {M : Type} `{OrderedMapLaws M}.

#[export] Program Instance MapIter_stable : StableIter (MapIter M) EntryValue := {|
  stable self C := forall d, C d = ord d (map_kv <$> om_entries (mit_map (map_inner self)));
|}.
Next Obligation.
  intros self C d HC. eexists. split; [|apply HC]. by exists (om_entries (mit_map (map_inner self))).
Qed.
Next Obligation. intros self C d it' HC [= <-]. exact HC. Qed.
Next Obligation. intros self C d t it' HC [= <-]. exact HC. Qed.
Next Obligation. intros self C d it' HC [= <-]. exact HC. Qed.
End Mem.

(** ** SSTs with a single index level *)

Section Sst.
Context {R : Type} `{BlockReaderLaws R}.

(** What the operations of a tree iterator of height at most two keep. *)
Definition same_tree (i i' : IndexTreeIter R) : Prop :=
  it_reader i' = it_reader i /\ it_tree_height i' = it_tree_height i
  /\ it_root_position i' = it_root_position i /\ it_curr_iter_idx i' = 0
  /\ (it_tree_height i <= 1 -> it_index_iters i' = it_index_iters i).

Lemma same_tree_refl i : it_curr_iter_idx i = 0 -> same_tree i i.
Proof. done. Qed.

Lemma flat_first d i i' :
  it_curr_iter_idx i = 0 -> it_tree_height i <= 2 -> inner_seek_to_first d i = Ok i' -> same_tree i i'.
Proof.
  intros Hc Hh Hf. unfold inner_seek_to_first in Hf. case_decide as Hd; [by simplify_eq|].
  apply rbind_Ok_inv in Hf as (r0 & _ & Hf). apply rbind_Ok_inv in Hf as (r1 & _ & Hf).
  apply rbind_Ok_inv in Hf as (l & Hl & Hf). unfold last_index_level in Hl. case_decide; [done|].
  simpl in Hl. injection Hl as <-. replace (it_tree_height i - 2 - _) with 0 in Hf by (simpl; lia).
  injection Hf as <-. split_and!; try done; simpl; lia.
Qed.

Lemma flat_locate t i i' :
  it_curr_iter_idx i = 0 -> it_tree_height i <= 2 -> locate t i = Ok i' -> same_tree i i'.
Proof.
  intros Hc Hh Hf. unfold locate in Hf. case_decide as Hd; [by simplify_eq|].
  apply rbind_Ok_inv in Hf as (r0 & _ & Hf). apply rbind_Ok_inv in Hf as (r1 & _ & Hf).
  apply rbind_Ok_inv in Hf as (l & Hl & Hf). unfold last_index_level in Hl. case_decide; [done|].
  simpl in Hl. injection Hl as <-. replace (it_tree_height i - 2 - _) with 0 in Hf by (simpl; lia).
  injection Hf as <-. split_and!; try done; simpl; lia.
Qed.

Lemma same_tree_trans i j k :
  it_tree_height i <= 2 -> same_tree i j -> same_tree j k -> same_tree i k.
Proof.
  intros Hh (H1 & H2 & H3 & H4 & H5) (K1 & K2 & K3 & K4 & K5).
  split_and!; try congruence. intros Hle. rewrite K5 by lia. auto.
Qed.

Lemma flat_rev_seek t i i' :
  it_curr_iter_idx i = 0 -> it_tree_height i <= 2 -> tree_rev_seek t i = Ok i' -> same_tree i i'.
Proof.
  intros Hc Hh Hf. unfold tree_rev_seek in Hf. apply rbind_Ok_inv in Hf as (j & Hj & Hf).
  apply flat_locate in Hj as Hs; [|done|done]. destruct (tree_valid j); simpl in Hf; [by simplify_eq|].
  pose proof Hs as (_ & Hh' & _ & Hc' & _). apply flat_first in Hf; [|done|lia].
  by eapply same_tree_trans.
Qed.

Lemma flat_next d i i' :
  it_curr_iter_idx i = 0 -> it_tree_height i <= 2 -> inner_next d i = Ok i' -> same_tree i i'.
Proof.
  intros Hc Hh Hf. unfold inner_next in Hf. apply rbind_Ok_inv in Hf as (l & Hl & Hf).
  unfold last_index_level in Hl. case_decide as Hd; [done|]. injection Hl as <-.
  destruct (it_index_iters i) as [|x xs] eqn:Hi; [by simplify_eq|]. rewrite Hc in Hf.
  apply rbind_Ok_inv in Hf as ([[found iters] curr] & Hp & Hf). simpl in Hp.
  apply rbind_Ok_inv in Hp as (y & _ & Hp).
  assert (curr = 0) as -> by (destruct (nb_valid _); by simplify_eq).
  replace (it_tree_height i - 2 - 0) with 0 in Hf by lia.
  destruct found; simpl in Hf; simplify_eq; (split_and!; try done; simpl; lia).
Qed.

(** An SST iterator over a file whose index fits one block. *)
Definition flat_sst (self : SstIter R) (all : list (bytes * EntryValue)) : Prop :=
  sst_seekable self all
  /\ it_curr_iter_idx (si_index_iter self) = 0 /\ it_tree_height (si_index_iter self) <= 2.

Lemma flat_sst_keep self i di all :
  flat_sst self all -> same_tree (si_index_iter self) i ->
  (it_tree_height (si_index_iter self) <= 1 -> di = None) ->
  flat_sst (mkSstIter (si_reader self) i di) all.
Proof.
  intros (Hs & Hc & Hh) (H1 & H2 & H3 & H4 & H5) Hd. split_and!; [|done|simpl; lia].
  destruct Hs as [(-> & Hdi & Hh1 & Hi)|(bottom & ess & Hov & -> & [(Hr & h & root & Hhh & Hroot & Hst) _])].
  - left. simpl. split_and!; try done; [auto|lia|]. rewrite H5 by done. done.
  - right. exists bottom, ess. split_and!; try done. split; [|done]. split; [simpl; congruence|].
    exists h, root. split_and!; [simpl; congruence..|done].
Qed.

Lemma flat_empty self all :
  flat_sst self all -> it_tree_height (si_index_iter self) <= 1 ->
  si_data_iter self = None /\ tree_valid (si_index_iter self) = false.
Proof.
  intros ([(_ & Hd & _ & Hi)|(bottom & ess & _ & _ & [(_ & h & root & Hh & _) _])] & _) Hle; [|lia].
  split; [done|]. unfold tree_valid. by rewrite Hi.
Qed.

(** A tree iterator of height at most one stays invalid. *)
Lemma same_tree_invalid self all i :
  flat_sst self all -> same_tree (si_index_iter self) i ->
  it_tree_height (si_index_iter self) <= 1 -> tree_valid i = false.
Proof.
  intros Hf (_ & _ & _ & Hc & Hi) Hle. pose proof Hf as (_ & Hc' & _).
  destruct (flat_empty _ _ Hf Hle) as [_ Hv]. unfold tree_valid in *. by rewrite Hi, Hc, <- Hc'.
Qed.

(** Moving the index and loading a block under it. *)
Lemma flat_load self all i di :
  flat_sst self all -> same_tree (si_index_iter self) i -> tree_valid i = true ->
  flat_sst (mkSstIter (si_reader self) i di) all.
Proof.
  intros Hf Hs Hv. apply flat_sst_keep; [done|done|]. intros Hle.
  by rewrite (same_tree_invalid self all i) in Hv.
Qed.

Lemma flat_stay self all i :
  flat_sst self all -> same_tree (si_index_iter self) i -> flat_sst (si_set_index self i) all.
Proof. intros Hf Hs. apply flat_sst_keep; [done|done|]. intros Hle. by apply (flat_empty self all). Qed.

Lemma flat_drop self all i :
  flat_sst self all -> same_tree (si_index_iter self) i -> flat_sst (mkSstIter (si_reader self) i None) all.
Proof. intros Hf Hs. by apply flat_sst_keep. Qed.

Lemma flat_sst_first d self all self' :
  flat_sst self all -> sst_seek_to_first d self = Ok self' -> flat_sst self' all.
Proof.
  intros Hf Hs. unfold sst_seek_to_first in Hs. apply rbind_Ok_inv in Hs as (i & Hi & Hs).
  pose proof Hf as (_ & Hc & Hh). apply flat_first in Hi; [|done|done].
  destruct (valid (si_index_iter (si_set_index self i))) eqn:Hv; cbn [rbind] in Hs.
  - apply rbind_Ok_inv in Hs as (d0 & _ & Hs). apply rbind_Ok_inv in Hs as (d1 & _ & Hs). simplify_eq.
    by apply (flat_load self).
  - simplify_eq. by apply (flat_stay self).
Qed.

Lemma flat_sst_seek t self all self' :
  flat_sst self all -> sst_seek t self = Ok self' -> flat_sst self' all.
Proof.
  intros Hf Hs. unfold sst_seek in Hs. apply rbind_Ok_inv in Hs as (i & Hi & Hs).
  pose proof Hf as (_ & Hc & Hh). apply flat_locate in Hi; [|done|done].
  destruct (valid (si_index_iter (si_set_index self i))) eqn:Hv; cbn [rbind] in Hs.
  - apply rbind_Ok_inv in Hs as (d0 & _ & Hs). apply rbind_Ok_inv in Hs as (d1 & _ & Hs). simplify_eq.
    by apply (flat_load self).
  - simplify_eq. by apply (flat_drop self).
Qed.

Lemma flat_rev_loop t all fuel : forall self self',
  flat_sst self all -> sst_rev_seek_loop fuel t self = Ok self' -> flat_sst self' all.
Proof.
  induction fuel as [|fuel IH]; intros self self' Hf Hs; [done|]. cbn [sst_rev_seek_loop] in Hs.
  pose proof Hf as (_ & Hc & Hh).
  destruct (valid (si_index_iter self)) eqn:Hv; cbn [negb] in Hs.
  2:{ simplify_eq. apply (flat_drop self); [done|by apply same_tree_refl]. }
  apply rbind_Ok_inv in Hs as (d0 & _ & Hs). apply rbind_Ok_inv in Hs as (d1 & _ & Hs).
  destruct (valid d1).
  { simplify_eq. apply (flat_load self); [done|by apply same_tree_refl|done]. }
  apply rbind_Ok_inv in Hs as (i & Hi & Hs). apply flat_next in Hi; [|done|done].
  eapply IH; [|exact Hs]. by apply (flat_stay self).
Qed.

Lemma flat_sst_rev_seek t self all self' :
  flat_sst self all -> sst_rev_seek t self = Ok self' -> flat_sst self' all.
Proof.
  intros Hf Hs. unfold sst_rev_seek in Hs. apply rbind_Ok_inv in Hs as (i & Hi & Hs).
  pose proof Hf as (_ & Hc & Hh). apply flat_rev_seek in Hi; [|done|done].
  eapply flat_rev_loop; [|exact Hs]. by apply (flat_stay self).
Qed.

Lemma flat_sst_next d self all self' :
  flat_sst self all -> sst_next d self = Ok self' -> flat_sst self' all.
Proof.
  intros Hf Hs. unfold sst_next in Hs. destruct (si_data_iter self) as [di|] eqn:Hd; [|by simplify_eq].
  assert (~ it_tree_height (si_index_iter self) <= 1) as Hn.
  { intros Hle. destruct (flat_empty _ _ Hf Hle). congruence. }
  apply rbind_Ok_inv in Hs as (d0 & _ & Hs). pose proof Hf as (_ & Hc & Hh).
  destruct (valid d0); cbn [negb] in Hs.
  { simplify_eq. apply (flat_sst_keep self); [done|by apply same_tree_refl|done]. }
  apply rbind_Ok_inv in Hs as (i & Hi & Hs). apply flat_next in Hi; [|done|done].
  destruct (valid _); cbn [negb] in Hs; [|simplify_eq; by apply (flat_sst_keep self)].
  apply rbind_Ok_inv in Hs as (d1 & _ & Hs). apply rbind_Ok_inv in Hs as (d2 & _ & Hs). simplify_eq.
  by apply (flat_sst_keep self).
Qed.

#[export] Program Instance SstIter_stable : StableIter (SstIter R) EntryValue := {|
  stable self C := exists all, flat_sst self all /\ forall d, C d = ord d all;
|}.
Next Obligation. intros self C d (all & (Hs & _) & HC). by exists all. Qed.
Next Obligation. intros self C d it' (all & Hf & HC) Hs. exists all. split; [|done]. eapply (flat_sst_first d); [exact Hf|exact Hs]. Qed.
Next Obligation.
  intros self C d t it' (all & Hf & HC) Hs. exists all. split; [|done].
  destruct d; [eapply (flat_sst_seek t)|eapply (flat_sst_rev_seek t)]; first [exact Hf|exact Hs].
Qed.
Next Obligation. intros self C d it' (all & Hf & HC) Hs. exists all. split; [|done]. eapply (flat_sst_next d); [exact Hf|exact Hs]. Qed.
End Sst.

(** ** Concatenations *)

Section Concat.
Context {I V : Type} `{StableIter I V}.

(** [Cs] lists the contents of the sources. *)
Definition concat_contents (Cs : list (contents V)) : contents V :=
  fun d => concat (ord d ((fun C : contents V => C d) <$> Cs)).

Lemma stable_insert (iter : list I) (Cs : list (contents V)) i it it' :
  Forall2 stable iter Cs -> iter !! i = Some it -> (forall C, stable it C -> stable it' C) ->
  Forall2 stable (<[i := it']> iter) Cs.
Proof.
  intros HF Hi Hk. destruct (Forall2_lookup_l _ _ _ _ _ HF Hi) as (C & HC & Hst).
  rewrite <- (list_insert_id Cs i C HC). apply Forall2_insert; auto.
Qed.

Section Keep.
Context (op : I -> StorageResult I) (Cs : list (contents V)).
Hypothesis Hop : forall it it' C, stable it C -> op it = Ok it' -> stable it' C.

Lemma fwd_loop_keep fuel : forall iter curr self,
  Forall2 stable iter Cs -> fwd_loop fuel op iter curr = Ok self -> Forall2 stable (ci_iter self) Cs.
Proof.
  induction fuel as [|fuel IH]; intros iter curr self HF Hl; cbn [fwd_loop] in Hl; [by simplify_eq|].
  destruct (iter !! curr) as [it|] eqn:Hi; [|done]. cbn [unwrap rbind] in Hl.
  apply rbind_Ok_inv in Hl as (it' & Hit & Hl).
  assert (Forall2 stable (<[curr := it']> iter) Cs) as HF' by (eapply stable_insert; eauto).
  destruct (valid it'); [by simplify_eq|]. by eapply IH.
Qed.

Lemma rev_for_keep n : forall iter self,
  Forall2 stable iter Cs -> rev_for n op iter = Ok self -> Forall2 stable (ci_iter self) Cs.
Proof.
  induction n as [|n IH]; intros iter self HF Hl; cbn [rev_for] in Hl; [by simplify_eq|].
  destruct (iter !! n) as [it|] eqn:Hi; [|done]. cbn [unwrap rbind] in Hl.
  apply rbind_Ok_inv in Hl as (it' & Hit & Hl).
  assert (Forall2 stable (<[n := it']> iter) Cs) as HF' by (eapply stable_insert; eauto).
  destruct (valid it'); [by simplify_eq|]. by eapply IH.
Qed.
End Keep.

#[export] Program Instance ConcatIter_stable : StableIter (ConcatIter I) V := {|
  stable self C := exists Cs, Forall2 stable (ci_iter self) Cs /\ forall d, C d = concat_contents Cs d;
|}.
Next Obligation.
  intros self C d (Cs & HF & HC). exists ((fun C : contents V => C d) <$> Cs). split; [|apply HC].
  apply Forall2_fmap_r. eapply Forall2_impl; [exact HF|]. intros it C' Hst. exact (stable_scannable it C' d Hst).
Qed.
Next Obligation.
  intros self C d it' (Cs & HF & HC) Hs. exists Cs. split; [|done].
  cbn [seek_to_first ConcatIter_dir] in Hs. unfold concat_seek_to_first in Hs. destruct d.
  - eapply fwd_loop_keep; [|exact HF|exact Hs]. intros. by eapply stable_first.
  - destruct (ci_iter self) eqn:Hi; [simplify_eq; by rewrite Hi|]. rewrite rev_loop_for in Hs.
    eapply rev_for_keep; [|exact HF|exact Hs]. intros. by eapply stable_first.
Qed.
Next Obligation.
  intros self C d t it' (Cs & HF & HC) Hs. exists Cs. split; [|done].
  cbn [seek ConcatIter_dir] in Hs. unfold concat_seek in Hs.
  destruct d; [eapply fwd_loop_keep|eapply rev_for_keep]; try done; intros; by eapply stable_seek.
Qed.
Next Obligation.
  intros self C d it' (Cs & HF & HC) Hs. exists Cs. split; [|done].
  cbn [next ConcatIter_dir] in Hs. unfold concat_next in Hs.
  destruct (concat_valid self); cbn [negb] in Hs; [|by simplify_eq].
  destruct (ci_iter self !! ci_curr self) as [it|] eqn:Hi; [|done]. cbn [unwrap rbind] in Hs.
  apply rbind_Ok_inv in Hs as (it1 & Hit & Hs).
  assert (Forall2 stable (<[ci_curr self := it1]> (ci_iter self)) Cs) as HF'.
  { eapply stable_insert; [done|done|]. intros. by eapply stable_next. }
  destruct (valid it1); [by simplify_eq|]. destruct d.
  - eapply fwd_loop_keep; [|exact HF'|exact Hs]. intros. by eapply stable_first.
  - destruct (ci_curr self); [by simplify_eq|]. rewrite rev_loop_for in Hs.
    eapply rev_for_keep; [|exact HF'|exact Hs]. intros. by eapply stable_first.
Qed.
End Concat.

(** ** Merges *)

Section Merge.
Context {I V : Type} `{StableIter I V}.

(** Sources with their contents, as a merge numbers them. *)
Definition at_dir (d : direction) (p : HeapWrap I * contents V) : HeapWrap I * list (bytes * V) :=
  (p.1, p.2 d).
Definition merged (ps : list (HeapWrap I * contents V)) : contents V :=
  fun d => merge_contents d (src_of <$> (at_dir d <$> ps)).

Lemma in_tags (srcs : list (nat * list (bytes * V))) (x : tagged V) :
  x ∈ tags srcs -> exists s, s ∈ srcs /\ x.1 = s.1 /\ x.2 ∈ s.2.
Proof.
  unfold tags. intros Hx. apply list_elem_of_In, in_concat in Hx as (l & Hl & Hx).
  rewrite <- list_elem_of_In in Hl. rewrite <- list_elem_of_In in Hx. apply list_elem_of_fmap in Hl as (s & -> & Hs).
  unfold tag_src in Hx. apply list_elem_of_fmap in Hx as (kv & -> & Hkv). by exists s.
Qed.

Lemma strict_order_inj d (l : list (bytes * V)) x y :
  strict_order d l -> x ∈ l -> y ∈ l -> x.1 = y.1 -> x = y.
Proof.
  unfold strict_order. induction l as [|z l IH]; intros Hs Hx Hy He; [by apply not_elem_of_nil in Hx|].
  rewrite fmap_cons in Hs. inversion Hs as [|? ? Hs' HF]; subst. rewrite Forall_fmap, Forall_forall in HF.
  apply elem_of_cons in Hx as [->|Hx]; apply elem_of_cons in Hy as [->|Hy]; [done|..|auto].
  - apply HF in Hy. simpl in Hy. rewrite He in Hy. by apply kbefore_irrefl in Hy.
  - apply HF in Hx. simpl in Hx. rewrite He in Hx. by apply kbefore_irrefl in Hx.
Qed.

(** Sources with distinct levels, each without repeated keys, have one merge,
    whatever order they are held in. *)
Lemma merge_contents_perm d (s1 s2 : list (nat * list (bytes * V))) :
  s1 ≡ₚ s2 -> NoDup s1.*1 -> Forall (fun s => strict_order d s.2) s1 ->
  merge_contents d s1 = merge_contents d s2.
Proof.
  intros Hp Hnd HF. unfold merge_contents. f_equal.
  assert (tags s1 ≡ₚ tags s2) as Ht by (unfold tags; by rewrite Hp).
  apply (StronglySorted_unique_strong (tle d)).
  - intros x y Hx Hy Hxy Hyx. rewrite merge_sort_Permutation in Hx. rewrite merge_sort_Permutation, <- Ht in Hy.
    assert (x.2.1 = y.2.1 /\ x.1 = y.1) as [Hk Hl].
    { destruct Hxy as [Hxy|[? ?]], Hyx as [Hyx|[? ?]].
      - by apply (kbefore_asym d) in Hxy.
      - rewrite H3 in Hxy. by apply kbefore_irrefl in Hxy.
      - rewrite H3 in Hyx. by apply kbefore_irrefl in Hyx.
      - split; [done|lia]. }
    apply in_tags in Hx as (sx & Hsx & Hx1 & Hx2). apply in_tags in Hy as (sy & Hsy & Hy1 & Hy2).
    assert (sx = sy) as ->.
    { apply list_elem_of_lookup in Hsx as [i Hi]. apply list_elem_of_lookup in Hsy as [j Hj].
      assert (i = j) as ->; [|congruence].
      eapply (NoDup_lookup s1.*1); [done|rewrite list_lookup_fmap, Hi; done|].
      rewrite list_lookup_fmap, Hj. simpl. congruence. }
    destruct x as [lx x], y as [ly y]; simpl in *. f_equal; [done|].
    rewrite Forall_forall in HF. by eapply strict_order_inj; [exact (HF _ Hsy)|..].
  - apply (StronglySorted_merge_sort (tle d)).
  - apply (StronglySorted_merge_sort (tle d)).
  - by rewrite !merge_sort_Permutation.
Qed.

(** What a stable merge holds: the sources in any order, with distinct levels. *)
Definition merge_stable (self : MergeIter I) (C : contents V) : Prop :=
  exists ps, mi_items self ++ mi_heap self ≡ₚ fst <$> ps
    /\ Forall (fun p => stable (hw_iter p.1) p.2 /\ forall d, strict_order d (p.2 d)) ps
    /\ NoDup (hw_level <$> (fst <$> ps)) /\ forall d, C d = merged ps d.

Lemma merge_stable_scannable self C d : merge_stable self C -> scannable d self (C d).
Proof.
  intros (ps & Hp & HF & Hnd & HC). apply Permutation_map_inv in Hp as (qs & Hi & Hq).
  exists (at_dir d <$> qs). split_and!.
  - rewrite Hi. rewrite <- list_fmap_compose. done.
  - apply Forall_fmap. assert (Forall (fun p => stable (hw_iter p.1) p.2 /\ forall d, strict_order d (p.2 d)) qs) as HF'
      by (by rewrite <- Hq).
    eapply Forall_impl; [exact HF'|]. intros p [Hst Hs]. split; [exact (stable_scannable _ _ d Hst)|apply Hs].
  - rewrite Hi. change (map fst qs) with (fst <$> qs). by rewrite <- Hq.
  - rewrite HC. unfold merged. apply merge_contents_perm.
    + by rewrite Hq.
    + rewrite <- !list_fmap_compose. rewrite <- list_fmap_compose in Hnd. exact Hnd.
    + apply Forall_fmap, Forall_fmap. eapply Forall_impl; [exact HF|]. intros p [_ Hs]. apply Hs.
Qed.

(** Running an operation on every source. *)
Lemma rmap_keep (op : I -> StorageResult I) (ps : list (HeapWrap I * contents V)) items :
  (forall it it' C, stable it C -> op it = Ok it' -> stable it' C) ->
  Forall (fun p => stable (hw_iter p.1) p.2 /\ forall d, strict_order d (p.2 d)) ps ->
  rmap (fun w => it <-- op (hw_iter w) ;; Ok (mkHeapWrap (hw_level w) it)) (fst <$> ps) = Ok items ->
  exists qs, items = fst <$> qs
    /\ Forall (fun p => stable (hw_iter p.1) p.2 /\ forall d, strict_order d (p.2 d)) qs
    /\ (fun p => (hw_level p.1, p.2)) <$> qs = (fun p => (hw_level p.1, p.2)) <$> ps.
Proof.
  intros Hop HF. revert items. induction HF as [|p ps [Hst Hs] HF IH]; intros items Hr.
  { simpl in Hr. simplify_eq. by exists []. }
  rewrite fmap_cons in Hr. cbn [rmap] in Hr. apply rbind_Ok_inv in Hr as (w & Hw & Hr).
  apply rbind_Ok_inv in Hw as (it & Hit & Hw). simplify_eq.
  apply rbind_Ok_inv in Hr as (ws & Hws & Hr). simplify_eq.
  destruct (IH ws Hws) as (qs & -> & HF' & Hqs).
  exists ((mkHeapWrap (hw_level p.1) it, p.2) :: qs). split_and!; [done| |].
  - constructor; [|done]. split; [by eapply Hop|done].
  - rewrite !fmap_cons, Hqs. done.
Qed.

Lemma merged_ext (ps qs : list (HeapWrap I * contents V)) d :
  (fun p => (hw_level p.1, p.2)) <$> qs = (fun p => (hw_level p.1, p.2)) <$> ps -> merged qs d = merged ps d.
Proof.
  intros He. unfold merged. f_equal. rewrite <- !list_fmap_compose.
  transitivity ((fun lC : nat * contents V => (lC.1, lC.2 d)) <$> ((fun p : HeapWrap I * contents V => (hw_level p.1, p.2)) <$> qs)).
  - by rewrite <- list_fmap_compose.
  - rewrite He. by rewrite <- list_fmap_compose.
Qed.

Lemma levels_ext (ps qs : list (HeapWrap I * contents V)) :
  (fun p => (hw_level p.1, p.2)) <$> qs = (fun p => (hw_level p.1, p.2)) <$> ps ->
  hw_level <$> (fst <$> qs) = hw_level <$> (fst <$> ps).
Proof.
  intros He. rewrite <- !list_fmap_compose.
  transitivity (fst <$> ((fun p : HeapWrap I * contents V => (hw_level p.1, p.2)) <$> qs)).
  - by rewrite <- list_fmap_compose.
  - rewrite He. by rewrite <- list_fmap_compose.
Qed.

Lemma filter_split {X} (P : X -> Prop) `{forall x, Decision (P x)} (l : list X) :
  filter (fun x => ~ P x) l ++ filter P l ≡ₚ l.
Proof.
  induction l as [|x l IH]; [done|]. rewrite !filter_cons. destruct (decide (P x)) as [Hx|Hx].
  - rewrite decide_False by tauto. rewrite <- Permutation_middle. apply perm_skip, IH.
  - rewrite decide_True by done. simpl. apply perm_skip, IH.
Qed.

Lemma merge_restart_stable d op self C self' :
  (forall it it' C, stable it C -> op it = Ok it' -> stable it' C) ->
  merge_stable self C ->
  (self <-- seek_items op (drain_to_items self) ;; Ok (build_heap d self)) = Ok self' ->
  merge_stable self' C.
Proof.
  intros Hop (ps & Hp & HF & Hnd & HC) Hs. apply rbind_Ok_inv in Hs as (self1 & Hs & Hb). simplify_eq.
  unfold seek_items, drain_to_items in Hs. cbn [mi_items mi_heap mi_dir] in Hs.
  apply rbind_Ok_inv in Hs as (items & Hr & Hs). simplify_eq.
  apply Permutation_map_inv in Hp as (ps' & Hi & Hq).
  rewrite Hi in Hr. rewrite Hq in HF, Hnd.
  destruct (rmap_keep op ps' items Hop HF Hr) as (qs & -> & HF' & Hqs).
  exists qs. unfold build_heap. cbn [mi_items mi_heap]. split_and!; try done.
  - apply filter_split.
  - by rewrite (levels_ext _ _ Hqs).
  - intros d'. rewrite (merged_ext _ _ _ Hqs), HC. unfold merged. apply merge_contents_perm.
    + by rewrite Hq.
    + rewrite Hq, <- !list_fmap_compose. rewrite <- list_fmap_compose in Hnd. exact Hnd.
    + rewrite Hq. apply Forall_fmap, Forall_fmap. eapply Forall_impl; [exact HF|]. intros p [_ Hs]. apply Hs.
Qed.

Lemma heap_pop_perm d (h : list (HeapWrap I)) w h' :
  heap_pop d h = Ok (Some (w, h')) -> h ≡ₚ w :: h'.
Proof.
  revert w h'. induction h as [|u h IH]; intros w h' Hp; cbn [heap_pop] in Hp; [done|].
  apply rbind_Ok_inv in Hp as ([[m rest]|] & Htop & Hp).
  - apply rbind_Ok_inv in Hp as ([] & _ & Hp); simplify_eq; [done|].
    transitivity (u :: w :: rest); [by apply perm_skip, IH|apply perm_swap].
  - simplify_eq. destruct h as [|v h]; [done|]. cbn [heap_pop] in Htop.
    apply rbind_Ok_inv in Htop as ([[m rest]|] & _ & Htop); [|done].
    by apply rbind_Ok_inv in Htop as (b & _ & Htop).
Qed.

Lemma merge_next_stable d self C self' :
  merge_stable self C -> merge_next d self = Ok self' -> merge_stable self' C.
Proof.
  intros (ps & Hp & HF & Hnd & HC) Hs. unfold merge_next in Hs. case_decide; [|simplify_eq; by exists ps].
  apply rbind_Ok_inv in Hs as ([[w h]|] & Hpop & Hs); [|simplify_eq; by exists ps].
  apply heap_pop_perm in Hpop. apply rbind_Ok_inv in Hs as (it & Hit & Hs).
  assert (mi_items self ++ mi_heap self ≡ₚ w :: (mi_items self ++ h)) as Hp1.
  { rewrite Hpop. symmetry. apply Permutation_middle. }
  rewrite Hp1 in Hp. apply Permutation_map_inv in Hp as (ps' & Hi & Hq).
  destruct ps' as [|p ps']; [done|]. injection Hi as -> Hi.
  assert (Forall (fun p => stable (hw_iter p.1) p.2 /\ forall d, strict_order d (p.2 d)) (p :: ps')) as HF'
    by (by rewrite <- Hq).
  inversion HF' as [|? ? [Hst Hso] HF'']; subst.
  assert (mi_items self' ++ mi_heap self' ≡ₚ mkHeapWrap (hw_level p.1) it :: (mi_items self ++ h)) as Hp2.
  { destruct (valid it); simplify_eq; simpl.
    - symmetry. apply Permutation_middle.
    - rewrite <- app_assoc. symmetry. apply Permutation_middle. }
  exists ((mkHeapWrap (hw_level p.1) it, p.2) :: ps'). split_and!.
  - rewrite Hp2, Hi. done.
  - constructor; [|done]. split; [by eapply stable_next|done].
  - rewrite Hq in Hnd. exact Hnd.
  - intros d'. rewrite HC. unfold merged. apply merge_contents_perm.
    + by rewrite Hq.
    + rewrite <- !list_fmap_compose. rewrite <- list_fmap_compose in Hnd. exact Hnd.
    + apply Forall_fmap, Forall_fmap. eapply Forall_impl; [exact HF|]. intros q [_ Hs']. apply Hs'.
Qed.

Lemma merge_first_stable d self C self' :
  merge_stable self C -> merge_seek_to_first d self = Ok self' -> merge_stable self' C.
Proof. intros Hst Hs. eapply merge_restart_stable; [|exact Hst|exact Hs]. intros. by eapply stable_first. Qed.

Lemma merge_seek_stable d t self C self' :
  merge_stable self C -> merge_seek d t self = Ok self' -> merge_stable self' C.
Proof. intros Hst Hs. eapply merge_restart_stable; [|exact Hst|exact Hs]. intros. by eapply stable_seek. Qed.

#[export] Instance MergeIter_stable : StableIter (MergeIter I) V := {|
  stable := merge_stable;
  stable_scannable := merge_stable_scannable;
  stable_first self C d self' := merge_first_stable d self C self';
  stable_seek self C d t self' := merge_seek_stable d t self C self';
  stable_next self C d self' := merge_next_stable d self C self';
|}.

(** A new merge over stable sources without repeated keys. *)
Definition number (Cs : list (contents V)) : contents V :=
  fun d => merge_contents d (imap (fun i (C : contents V) => (i, C d)) Cs).

Lemma merge_new_stable (iters : list I) (Cs : list (contents V)) :
  Forall2 stable iters Cs -> Forall (fun C : contents V => forall d, strict_order d (C d)) Cs ->
  stable (merge_iter_new iters) (number Cs).
Proof.
  intros HF Hs. exists (imap (fun i p => (mkHeapWrap i p.1, p.2)) (zip iters Cs)).
  assert (length iters = length Cs) as Hlen by (by eapply Forall2_length).
  assert (fst <$> imap (fun i (p : I * contents V) => (mkHeapWrap i p.1, p.2)) (zip iters Cs) = imap mkHeapWrap iters) as Hi.
  { rewrite fmap_imap. rewrite <- (fst_zip iters Cs) at 2 by lia. by rewrite imap_fmap. }
  rewrite Hi. unfold merge_iter_new. cbn [mi_items mi_heap]. rewrite app_nil_r. split_and!.
  - done.
  - apply Forall_lookup. intros i p Hp. rewrite list_lookup_imap in Hp.
    destruct (zip iters Cs !! i) as [[it C]|] eqn:Hz; [|done]. simplify_eq/=.
    apply lookup_zip_with_Some in Hz as (it' & C' & Heq & H1' & H2'). simplify_eq. split.
    + by eapply (Forall2_lookup_lr _ _ _ _ _ _ HF).
    + by eapply (Forall_lookup_1 _ _ _ _ Hs).
  - rewrite fmap_imap. replace (imap _ iters) with (seq 0 (length iters)); [apply NoDup_seq|].
    clear. apply list_eq. intros i. rewrite list_lookup_imap. destruct (iters !! i) eqn:Hi; simpl.
    + apply lookup_seq. apply lookup_lt_Some in Hi. lia.
    + apply lookup_seq_ge. by apply lookup_ge_None in Hi.
  - intros d. unfold merged, number. f_equal. rewrite !fmap_imap. rewrite <- (snd_zip iters Cs) at 1 by lia.
    by rewrite imap_fmap.
Qed.

Lemma merge_contents_weak d (srcs : list (nat * list (bytes * V))) : weak_order d (merge_contents d srcs).
Proof.
  unfold weak_order, merge_contents.
  pose proof (StronglySorted_merge_sort (tle d) (tags srcs)) as HS.
  induction HS as [|x l HS IH HF]; [constructor|]. rewrite !fmap_cons. constructor; [done|].
  rewrite !Forall_fmap. eapply Forall_impl; [exact HF|]. simpl. intros y [Hxy|[He _]].
  - by apply kbefore_asym.
  - rewrite He. apply kbefore_irrefl.
Qed.

Lemma length_tags (srcs : list (nat * list (bytes * V))) :
  length (tags srcs) = sum_list (length <$> (snd <$> srcs)).
Proof.
  unfold tags. induction srcs as [|s srcs IH]; [done|].
  rewrite !fmap_cons, concat_cons, length_app, IH. unfold tag_src. by rewrite length_fmap.
Qed.

Lemma length_merge_contents d (srcs : list (nat * list (bytes * V))) :
  length (merge_contents d srcs) = sum_list (length <$> (snd <$> srcs)).
Proof. unfold merge_contents. by rewrite length_fmap, merge_sort_Permutation, length_tags. Qed.
End Merge.

(** ** Two-way merges *)

Section TwoMerge.
Context {A B V : Type} `{HRA : IterRead A V} `{HDA : forall d, DirIter d A} `{HSA : forall d, ScanLaws d A V}.
Context `{HTA : !StableIter A V}.
Context `{HRB : IterRead B V} `{HDB : forall d, DirIter d B} `{HSB : forall d, ScanLaws d B V}.
Context `{HTB : !StableIter B V}.

Definition over (Ca Cb : contents V) : contents V := fun d => two_merge_contents d (Ca d) (Cb d).

Definition sides (a : A) (b : B) (rounds : nat) (Ca Cb : contents V) : Prop :=
  stable a Ca /\ stable b Cb
  /\ (forall d, weak_order d (Ca d) /\ weak_order d (Cb d) /\ length (Cb d) < rounds).

Definition two_stable (self : TwoMergeIter A B) (C : contents V) : Prop :=
  exists Ca Cb, sides (tm_a self) (tm_b self) (tm_rounds self) Ca Cb /\ forall d, C d = over Ca Cb d.

Lemma skip_b_stable d rounds (a : A) Cb : forall (b b' : B),
  stable b Cb -> skip_b_if_equal d rounds a b = Ok b' -> stable b' Cb.
Proof.
  induction rounds as [|rounds IH]; intros b b' Hb Hs; [done|]. cbn [skip_b_if_equal] in Hs.
  destruct (valid a && valid b); [|by simplify_eq].
  apply rbind_Ok_inv in Hs as (ak & _ & Hs). apply rbind_Ok_inv in Hs as (bk & _ & Hs).
  destruct (decide (ak = bk)); [|by simplify_eq].
  apply rbind_Ok_inv in Hs as (b1 & Hn & Hs). eapply IH; [|exact Hs]. by eapply stable_next.
Qed.

Lemma settle_stable d rounds (a : A) (b : B) Ca Cb self :
  sides a b rounds Ca Cb -> settle d rounds a b = Ok self ->
  sides (tm_a self) (tm_b self) (tm_rounds self) Ca Cb.
Proof.
  intros (Ha & Hb & Ho) Hs. unfold settle in Hs. apply rbind_Ok_inv in Hs as (b1 & Hk & Hs).
  apply rbind_Ok_inv in Hs as (c & _ & Hs). simplify_eq. split_and!; try done. by eapply skip_b_stable.
Qed.

Lemma two_move_stable d rounds opa opb (a : A) (b : B) Ca Cb self :
  (forall it it' C, stable it C -> opa it = Ok it' -> stable it' C) ->
  (forall it it' C, stable it C -> opb it = Ok it' -> stable it' C) ->
  sides a b rounds Ca Cb ->
  (a <-- opa a ;; b <-- opb b ;; settle d rounds a b) = Ok self ->
  sides (tm_a self) (tm_b self) (tm_rounds self) Ca Cb.
Proof.
  intros HA HB (Ha & Hb & Ho) Hs. apply rbind_Ok_inv in Hs as (a1 & H1 & Hs).
  apply rbind_Ok_inv in Hs as (b1 & H2 & Hs). eapply settle_stable; [|exact Hs].
  split_and!; [by eapply HA|by eapply HB|done].
Qed.

#[export] Program Instance TwoMergeIter_stable : StableIter (TwoMergeIter A B) V := {| stable := two_stable |}.
Next Obligation.
  intros self C d (Ca & Cb & (Ha & Hb & Ho) & HC). destruct (Ho d) as (? & ? & ?).
  exists (Ca d), (Cb d). rewrite HC. split_and!; try done.
  - exact (stable_scannable _ _ d Ha).
  - exact (stable_scannable _ _ d Hb).
Qed.
Next Obligation.
  intros self C d it' (Ca & Cb & Hs & HC) Hm. exists Ca, Cb. split; [|done].
  eapply two_move_stable; [..|exact Hs|exact Hm]; intros; by eapply stable_first.
Qed.
Next Obligation.
  intros self C d t it' (Ca & Cb & Hs & HC) Hm. exists Ca, Cb. split; [|done].
  eapply two_move_stable; [..|exact Hs|exact Hm]; intros; by eapply stable_seek.
Qed.
Next Obligation.
  intros self C d it' (Ca & Cb & (Ha & Hb & Ho) & HC) Hm. exists Ca, Cb. split; [|done].
  cbn [next TwoMergeIter_dir] in Hm. unfold two_merge_next in Hm.
  destruct (tm_current self) as [[]|].
  - apply rbind_Ok_inv in Hm as (a & Hn & Hm). eapply settle_stable; [|exact Hm].
    split_and!; [by eapply stable_next|done|done].
  - apply rbind_Ok_inv in Hm as (b & Hn & Hm). eapply settle_stable; [|exact Hm].
    split_and!; [done|by eapply stable_next|done].
  - simplify_eq. by split_and!.
Qed.

(** A new two-way merge succeeds and is stable. *)
Lemma two_merge_new_stable rounds (a : A) (b : B) Ca Cb :
  sides a b rounds Ca Cb ->
  exists self, two_merge_new rounds a b = Ok self /\ stable self (over Ca Cb).
Proof.
  intros Hs. pose proof Hs as (Ha & Hb & Ho). destruct (Ho Fwd) as (Hwa & Hwb & Hr).
  assert (scannable Fwd (mkTwoMergeIter a b None rounds) (over Ca Cb Fwd)) as Hsc.
  { exists (Ca Fwd), (Cb Fwd). split_and!; try done.
    - exact (stable_scannable _ _ Fwd Ha).
    - exact (stable_scannable _ _ Fwd Hb). }
  destruct (scan_first_ok _ _ Hsc) as (self & Hf & _). exists self. split; [exact Hf|].
  exists Ca, Cb. split; [|done].
  eapply two_move_stable; [..|exact Hs|exact Hf]; intros; by eapply stable_first.
Qed.
End TwoMerge.

Section Over.
Context {V : Type}.

#[export] Instance first_or_tie_total d : Total (@first_or_tie V d).
Proof.
  intros x y. unfold first_or_tie. destruct (kbefore_total d x.1 y.1) as [?|[->|?]].
  - left. by apply kbefore_asym.
  - left. apply kbefore_irrefl.
  - right. by apply kbefore_asym.
Qed.

#[export] Instance first_or_tie_trans d : Transitive (@first_or_tie V d).
Proof.
  intros x y z Hxy Hyz Hzx. unfold first_or_tie in *.
  destruct (kbefore_total d y.1 z.1) as [?|[He|?]]; [|congruence|done].
  apply Hxy. by etrans.
Qed.

Lemma weak_order_pairs d (l : list (bytes * V)) : weak_order d l <-> StronglySorted (first_or_tie d) l.
Proof.
  unfold weak_order, first_or_tie. induction l as [|x l IH]; [by split; constructor|].
  rewrite fmap_cons. split; intros Hs; inversion Hs as [|? ? Hs' HF]; subst; constructor;
    try (by apply IH); by rewrite Forall_fmap in *.
Qed.

Lemma two_merge_weak d (la lb : list (bytes * V)) :
  weak_order d la -> weak_order d lb -> weak_order d (two_merge_contents d la lb).
Proof.
  rewrite !weak_order_pairs. intros Ha Hb. unfold two_merge_contents.
  apply Sorted_StronglySorted; [apply _|]. apply Sorted_list_merge; [apply _|by apply StronglySorted_Sorted|].
  apply StronglySorted_Sorted. unfold shadow. clear Ha.
  induction Hb as [|y lb Hs IH HF]; [constructor|]. rewrite filter_cons. case_decide; [|done].
  constructor; [done|]. apply Forall_forall. intros z Hz. apply list_elem_of_filter in Hz as [_ Hz]. rewrite Forall_forall in HF. auto.
Qed.
End Over.
