(* ===== verification/DiskManager.v ===== *)
(** SST files (disk_manager.rs): id allocation, the file writer and opening a
    file by its footer. *)

From stdpp Require Import base list numbers strings pretty gmap.
From S2P Require Import Prelude.
From S2P Require Import Errors.
From S2P Require Import Block.
From S2P Require Import BlockBuilder.
From S2P Require Import SstFooter.

(** [SstFileWriter]. *)
Record SstFileWriter := mkSstFileWriter { sfw_sst_id : Z; sfw_inner : FileBlockWriter }.

(** [SstFileWriter::file_size]. *)
Definition sst_file_writer_size (w : SstFileWriter) : Z := file_block_writer_size (sfw_inner w).

(** [SstFileWriter::write_block]. *)
Definition sst_file_write_block (w : SstFileWriter) (data : bytes) : StorageResult (Position * SstFileWriter) :=
  let! (pos, inner) := write_block (sfw_inner w) data in
  Ok (pos, mkSstFileWriter (sfw_sst_id w) inner).

#[export] Instance SstFileWriter_writer : BlockWriter SstFileWriter := {| write_block := sst_file_write_block |}.

#[export] Program Instance SstFileWriter_laws : BlockWriterLaws SstFileWriter := {|
  bw_target w := fw_file (sfw_inner w);
  bw_ready w := bw_ready (sfw_inner w);
|}.
Next Obligation.
  intros w data Hr Hfit. cbn [write_block SstFileWriter_writer]. unfold sst_file_write_block.
  destruct (bw_write_ok (sfw_inner w) data Hr Hfit) as (inner & -> & Hr' & Ht). cbn [rbind].
  eexists. split; [done|]. done.
Qed.

(** [SstFileReader]. *)
Record SstFileReader := mkSstFileReader { sfr_reader : FileBlockReader; sfr_footer : SstFooter }.

(** [DiskManager]: the files of the data directory by SST id, the block size
    and the id counter ([AtomicU64]). *)
Record DiskManager := mkDiskManager {
  dm_files : gmap Z bytes;
  dm_block_size : nat;
  dm_next_sst_id : Z;
}.

(** [DiskManager::new] over a directory with the given files. *)
Definition disk_manager_new (files : gmap Z bytes) (block_size : nat) : DiskManager :=
  mkDiskManager files block_size 1.

(** What the device does to one SST build: whether creating the file fails,
    its answers to the writes to come, and what a build that fails half-way
    leaves in the file. *)
Record Device := mkDevice {
  dev_create : option string;
  dev_writes : list (option string);
  dev_residue : bytes;
}.

(** No failure. *)
Definition healthy : Device := mkDevice None [] [].

(** [DiskManager::create_sst]: the id is taken first ([fetch_add] wraps), then
    the file is created or truncated. *)
Definition create_sst (dm : DiskManager) (dev : Device) : StorageResult SstFileWriter * DiskManager :=
  let sst_id := dm_next_sst_id dm in
  let next := ((sst_id + 1) mod 2 ^ 64)%Z in
  match dev_create dev with
  | Some m => (Err (IoError m), mkDiskManager (dm_files dm) (dm_block_size dm) next)
  | None =>
      (Ok (mkSstFileWriter sst_id (file_block_writer_create (dm_block_size dm) (dev_writes dev))),
       mkDiskManager (<[sst_id := []]> (dm_files dm)) (dm_block_size dm) next)
  end.

(** The directory with the given contents in the file of [sst_id]. *)
Definition store_file (dm : DiskManager) (sst_id : Z) (file : bytes) : DiskManager :=
  mkDiskManager (<[sst_id := file]> (dm_files dm)) (dm_block_size dm) (dm_next_sst_id dm).

(** [DiskManager::open]. *)
Definition open_sst (dm : DiskManager) (sst_id : Z) : StorageResult SstFileReader :=
  match dm_files dm !! sst_id with
  | None => Err (NotFound ("sst " +:+ pretty sst_id))
  | Some file =>
      let file_size := length file in
      if decide (file_size < 4)
      then Err (InvalidValue ("sst " +:+ pretty sst_id +:+ ": file too small for footer trailer"))
      else
        trailer <-- read_exact_at file 4 (Z.of_nat (file_size - 4)) ;;
        let body_len := Z.to_nat (of_be_bytes trailer) in
        let footer_total := body_len + 4 in
        if decide (file_size < footer_total)
        then Err (InvalidValue ("sst " +:+ pretty sst_id +:+ ": file too small for footer body"))
        else
          fbuf <-- read_exact_at file footer_total (Z.of_nat (file_size - footer_total)) ;;
          footer <-- footer_decode fbuf ;;
          Ok (mkSstFileReader (mkFileBlockReader file (dm_block_size dm)) footer)
  end.

(** [DiskManager::list_ssts], in no particular order ([read_dir] has none). *)
Definition list_ssts (dm : DiskManager) : list Z := fst <$> map_to_list (dm_files dm).

(** [DiskManager::remove]: a missing file is not an error. *)
Definition remove_sst (dm : DiskManager) (sst_id : Z) : DiskManager :=
  mkDiskManager (delete sst_id (dm_files dm)) (dm_block_size dm) (dm_next_sst_id dm).

(** ** Opening a file the builder finished *)

Lemma read_exact_tail (G q : bytes) n off :
  n = length q -> off = length G -> read_exact_at (G ++ q) n (Z.of_nat off) = Ok q.
Proof.
  intros -> ->. unfold read_exact_at. rewrite Nat2Z.id, decide_True by len. by apply slice_tail.
Qed.

Lemma open_sst_ok dm id G footer :
  dm_files dm !! id = Some (G ++ footer_encode footer) -> footer_wf footer ->
  open_sst dm id
  = Ok (mkSstFileReader (mkFileBlockReader (G ++ footer_encode footer) (dm_block_size dm)) footer).
Proof.
  intros Hf Hwf. unfold open_sst. rewrite Hf.
  pose proof (length_footer_encode footer) as Hlen. pose proof (length_footer_body footer) as Hlb.
  unfold MIN_LEN in Hlen. pose proof Hwf as (_ & _ & Hu). unfold u32_max in Hu.
  assert (footer_encode footer = footer_body footer ++ be_bytes 4 (Z.of_nat (length (footer_body footer)))) as He by done.
  rewrite length_app. rewrite decide_False by lia.
  rewrite He at 1. rewrite app_assoc.
  rewrite (read_exact_tail (G ++ footer_body footer)) by len. cbn [rbind].
  rewrite of_be_be_bytes by lia. rewrite Nat2Z.id, decide_False by lia.
  rewrite (read_exact_tail G (footer_encode footer)) by lia. cbn [rbind].
  by rewrite footer_decode_encode.
Qed.

(** Creating a file touches no other file. *)
Lemma create_sst_other dm dev id :
  dm_next_sst_id dm <> id -> dm_files (create_sst dm dev).2 !! id = dm_files dm !! id.
Proof.
  intros Hne. unfold create_sst. destruct (dev_create dev); [done|]. simpl. by rewrite lookup_insert_ne.
Qed.

Lemma list_ssts_ok dm id : id ∈ list_ssts dm <-> is_Some (dm_files dm !! id).
Proof.
  unfold list_ssts. rewrite list_elem_of_fmap. split.
  - intros ([i f] & -> & Hin). apply elem_of_map_to_list in Hin. by exists f.
  - intros [f Hf]. exists (id, f). split; [done|]. by apply elem_of_map_to_list.
Qed.
