(* ===== verification/Newest.v ===== *)
(** Lookups in contents that may hold several versions of a key.

    A scan lists the versions of a key next to each other; a reader takes the
    first one. [newest] is that lookup, and the lemmas say what it finds in the
    contents the merging iterators deliver. *)

From stdpp Require Import base list numbers strings sorting.
From S2P Require Import Prelude.
From S2P Require Import Iter.
From S2P Require Import ScanLaws.
From S2P Require Import MergeIter.
From S2P Require Import TwoMergeIter.
From S2P Require Import MemTable.

Section Newest.
Context {V : Type}.
Implicit Types l la lb : list (bytes * V).

(** The first version of [k]. *)
Fixpoint newest (k : bytes) (l : list (bytes * V)) : option V :=
  match l with
  | [] => None
  | kv :: l' => if decide (kv.1 = k) then Some kv.2 else newest k l'
  end.

(** The first layer that has a version of [k] decides. *)
Fixpoint layered (k : bytes) (Ls : list (list (bytes * V))) : option V :=
  match Ls with
  | [] => None
  | l :: Ls' => match newest k l with Some v => Some v | None => layered k Ls' end
  end.

Lemma newest_None k l : newest k l = None <-> k ∉ l.*1.
Proof.
  induction l as [|x l IH]; simpl; [split; [intros _; apply not_elem_of_nil|done]|].
  rewrite not_elem_of_cons. case_decide as He; [split; [done|]; intros [? _]; congruence|]. rewrite IH. split; [|tauto]. intros Hn. split; [by intros ->|done].
Qed.

Lemma newest_Some_in k l v : newest k l = Some v -> (k, v) ∈ l.
Proof.
  induction l as [|[k' v'] l IH]; simpl; [done|]. case_decide; [intros [= ->]; subst; by left|].
  right. auto.
Qed.

Lemma newest_app k la lb :
  newest k (la ++ lb) = match newest k la with Some v => Some v | None => newest k lb end.
Proof. induction la as [|x la IH]; simpl; [done|]. case_decide; [done|]. apply IH. Qed.

(** Without repeated keys any occurrence is the newest. *)
Lemma newest_in d k l v : strict_order d l -> (k, v) ∈ l -> newest k l = Some v.
Proof.
  unfold strict_order. induction l as [|x l IH]; intros Hs Hin; [by apply not_elem_of_nil in Hin|].
  rewrite fmap_cons in Hs. inversion Hs as [|? ? Hs' HF]; subst. simpl.
  apply elem_of_cons in Hin as [<-|Hin]; [by rewrite decide_True|].
  rewrite decide_False; [auto|]. intros He. rewrite Forall_fmap, Forall_forall in HF.
  apply HF in Hin. simpl in Hin. rewrite He in Hin. by apply kbefore_irrefl in Hin.
Qed.

Lemma newest_ord d k l : ksorted l -> newest k (ord d l) = newest k l.
Proof.
  intros Hs. pose proof (ksorted_strict d l Hs) as Hd. pose proof (ksorted_strict Fwd l Hs) as Hf. simpl in Hf.
  assert (forall x, x ∈ ord d l <-> x ∈ l) as Hin by (intros x; destruct d; simpl; [done|apply elem_of_reverse]).
  destruct (newest k l) as [v|] eqn:Hn.
  - apply (newest_in d); [done|]. apply Hin. by apply newest_Some_in.
  - apply newest_None. apply newest_None in Hn. intros Hk. apply Hn.
    apply list_elem_of_fmap in Hk as (x & -> & Hx). apply list_elem_of_fmap_2. by apply Hin.
Qed.

Lemma newest_filter (P : bytes -> Prop) `{forall k, Decision (P k)} k l :
  newest k (filter (fun kv => P kv.1) l) = if decide (P k) then newest k l else None.
Proof.
  induction l as [|x l IH]; simpl; [by destruct (decide (P k))|].
  rewrite filter_cons. destruct (decide (P x.1)) as [Hp|Hp]; simpl.
  - destruct (decide (x.1 = k)) as [He|He]; [subst; by rewrite decide_True|]. exact IH.
  - rewrite IH. destruct (decide (P k)) as [Hk|Hk]; [|done]. rewrite decide_False; [done|]. by intros <-.
Qed.

(** *** Layers *)

Lemma layered_None k (Ls : list (list (bytes * V))) :
  layered k Ls = None <-> Forall (fun l => newest k l = None) Ls.
Proof.
  induction Ls as [|l Ls IH]; simpl; [by split|]. destruct (newest k l) eqn:Hn.
  - split; [done|]. intros HF. inversion HF; subst. congruence.
  - rewrite IH. split; [by constructor|]. by inversion 1.
Qed.

Lemma layered_Some k (Ls : list (list (bytes * V))) v :
  layered k Ls = Some v <->
  exists i l, Ls !! i = Some l /\ newest k l = Some v
           /\ forall j l', j < i -> Ls !! j = Some l' -> newest k l' = None.
Proof.
  induction Ls as [|l Ls IH]; simpl.
  { split; [done|]. by intros (i & l & Hi & _). }
  destruct (newest k l) as [w|] eqn:Hn.
  - split.
    + intros [= ->]. exists 0, l. split_and!; try done. lia.
    + intros ([|i] & l' & Hi & Hv & Hj); simpl in Hi; [congruence|].
      specialize (Hj 0 l ltac:(lia) eq_refl). congruence.
  - rewrite IH. split.
    + intros (i & l' & Hi & Hv & Hj). exists (S i), l'. split_and!; try done.
      intros [|j] l'' Hlt Hj'; simpl in Hj'; [congruence|]. by apply (Hj j); [lia|].
    + intros ([|i] & l' & Hi & Hv & Hj); simpl in Hi; [congruence|].
      exists i, l'. split_and!; try done. intros j l'' Hlt Hj'. apply (Hj (S j)); [lia|done].
Qed.

Lemma layered_app k (Ls Ms : list (list (bytes * V))) :
  layered k (Ls ++ Ms) = match layered k Ls with Some v => Some v | None => layered k Ms end.
Proof. induction Ls as [|l Ls IH]; simpl; [done|]. destruct (newest k l); [done|apply IH]. Qed.

(** No key is in two of the layers. *)
Definition disjoint_layers (Ls : list (list (bytes * V))) : Prop :=
  forall i j l m k, Ls !! i = Some l -> Ls !! j = Some m -> k ∈ l.*1 -> k ∈ m.*1 -> i = j.

(** Then their order does not matter. *)
Lemma layered_disjoint k (Ls Ms : list (list (bytes * V))) :
  disjoint_layers Ls -> Ls ≡ₚ Ms -> layered k Ls = layered k Ms.
Proof.
  intros Hd Hp. destruct (layered k Ms) as [v|] eqn:Hm.
  - apply layered_Some in Hm as (i & l & Hi & Hv & _). apply layered_Some.
    assert (l ∈ Ls) as Hl by (rewrite Hp; by eapply list_elem_of_lookup_2).
    apply list_elem_of_lookup in Hl as [j Hj]. exists j, l. split_and!; try done.
    intros j' l' Hlt Hj'. destruct (newest k l') as [w|] eqn:Hw; [|done]. exfalso.
    assert (j = j') as ->; [|lia].
    apply (Hd j j' l l' k Hj Hj'); eapply list_elem_of_fmap_2';
      [by apply newest_Some_in|done|by apply newest_Some_in|done].
  - apply layered_None in Hm. apply layered_None. by rewrite Hp.
Qed.

(** *** Merges *)

Lemma newest_sorted d (T : list (tagged V)) i k v :
  StronglySorted (tle d) T -> (i, (k, v)) ∈ T ->
  (forall j w, (j, (k, w)) ∈ T -> i <= j /\ (i = j -> w = v)) -> newest k (snd <$> T) = Some v.
Proof.
  induction 1 as [|x T HS IH HF]; intros Hin Hmin; [by apply not_elem_of_nil in Hin|].
  rewrite fmap_cons. simpl. destruct x as [j [k' w]]. simpl. case_decide as He.
  - subst k'. f_equal. destruct (Hmin j w) as [Hle Hv]; [by left|]. apply Hv.
    apply elem_of_cons in Hin as [Hin|Hin]; [congruence|]. rewrite Forall_forall in HF.
    destruct (HF _ Hin) as [Hb|[_ Hj]]; simpl in *; [by apply kbefore_irrefl in Hb|lia].
  - apply IH.
    + apply elem_of_cons in Hin as [Hin|Hin]; [congruence|done].
    + intros j' w' Hin'. apply Hmin. by right.
Qed.

Lemma tags_elem (srcs : list (nat * list (bytes * V))) x :
  x ∈ tags srcs <-> exists s, s ∈ srcs /\ x.1 = s.1 /\ x.2 ∈ s.2.
Proof.
  unfold tags. induction srcs as [|s srcs IH]; simpl.
  - split; [by intros ?%not_elem_of_nil|]. by intros (s & ?%not_elem_of_nil & _).
  - rewrite elem_of_app, IH. unfold tag_src. rewrite list_elem_of_fmap. split.
    + intros [(kv & -> & Hkv)|(s' & Hs' & Hx)]; [exists s|exists s'].
      * split; [by left|done].
      * split; [by right|done].
    + intros (s' & [->|Hs']%elem_of_cons & Hx1 & Hx2); [left|right; by exists s'].
      exists x.2. split; [|done]. destruct x; simpl in *. by subst.
Qed.

Lemma newest_merge d k (Ls : list (list (bytes * V))) :
  Forall (strict_order d) Ls ->
  newest k (merge_contents d (imap pair Ls)) = layered k Ls.
Proof.
  intros HF. unfold merge_contents. set (T := merge_sort (tle d) (tags (imap pair Ls))).
  assert (forall x, x ∈ T <-> exists l, Ls !! x.1 = Some l /\ x.2 ∈ l) as HT.
  { intros x. unfold T. rewrite merge_sort_Permutation, tags_elem. split.
    - intros ([i l] & Hs & Hi & Hl). simpl in *. exists l. split; [|done].
      apply elem_of_lookup_imap in Hs as (i' & l' & Heq & Hl'). injection Heq as -> ->. by rewrite Hi.
    - intros (l & Hi & Hl). exists (x.1, l). split; [|done]. apply elem_of_lookup_imap. eauto. }
  destruct (layered k Ls) as [v|] eqn:Hv.
  - apply layered_Some in Hv as (i & l & Hi & Hn & Hlt). apply (newest_sorted d T i).
    + apply (StronglySorted_merge_sort (tle d)).
    + apply HT. exists l. split; [done|]. by apply newest_Some_in.
    + intros j w Hj. apply HT in Hj as (m & Hm & Hw). simpl in *. split.
      * destruct (decide (i <= j)); [done|]. exfalso.
        assert (newest k m = None) as Hnone by (apply (Hlt j); [lia|done]).
        apply newest_None in Hnone. apply Hnone. by eapply list_elem_of_fmap_2'.
      * intros <-. assert (m = l) as -> by congruence.
        rewrite Forall_forall in HF. apply (newest_in d) in Hw; [congruence|].
        apply HF. by eapply list_elem_of_lookup_2.
  - apply layered_None in Hv. apply newest_None. intros Hin.
    apply list_elem_of_fmap in Hin as (x & -> & Hx). apply list_elem_of_fmap in Hx as (t & -> & Ht).
    apply HT in Ht as (l & Hl & Hin). rewrite Forall_forall in Hv.
    assert (newest t.2.1 l = None) as Hn by (apply Hv; by eapply list_elem_of_lookup_2).
    apply newest_None in Hn. apply Hn. by apply list_elem_of_fmap_2.
Qed.

Lemma newest_two_merge d k la lb :
  newest k (two_merge_contents d la lb)
  = match newest k la with Some v => Some v | None => newest k lb end.
Proof.
  unfold two_merge_contents.
  assert (newest k (shadow la lb) = if decide (k ∉ la.*1) then newest k lb else None) as Hsh
    by exact (newest_filter (fun k' => k' ∉ la.*1) k lb).
  assert (forall l m, (k ∈ l.*1 -> k ∉ m.*1) ->
    newest k (list_merge (first_or_tie d) l m)
    = match newest k l with Some v => Some v | None => newest k m end) as Hm.
  { clear. intros l. induction l as [|x l IHl]; intros m Hdis; [by destruct m|].
    induction m as [|y m IHm]; [simpl; case_decide; [done|]; by destruct (newest k l)|].
    rewrite list_merge_cons. case_decide as Hxy; cbn [newest].
    - case_decide as He; [done|]. apply IHl. intros Hin. apply Hdis. by right.
    - case_decide as He.
      + subst. assert (y.1 ∉ (x :: l).*1) as Hn.
        { intros Hin. apply (Hdis Hin). by left. }
        apply newest_None in Hn. cbn [newest] in Hn. by rewrite Hn.
      + rewrite IHm; [done|]. intros Hin Hm. apply (Hdis Hin). by right. }
  rewrite Hm, Hsh.
  - destruct (newest k la) eqn:Hn; [done|]. apply newest_None in Hn. by rewrite decide_True.
  - intros Hin Hin'. unfold shadow in Hin'. apply list_elem_of_fmap in Hin' as (x & -> & Hx).
    by apply list_elem_of_filter in Hx as [? _].
Qed.
End Newest.

Lemma newest_fmap {V W} (f : V -> W) k (l : list (bytes * V)) :
  newest k ((fun kv => (kv.1, f kv.2)) <$> l) = f <$> newest k l.
Proof. induction l as [|x l IH]; simpl; [done|]. by case_decide. Qed.

Lemma newest_insert {V} k k' (v : V) (l : list (bytes * V)) :
  ksorted l -> newest k' (sorted_insert k v l) = if decide (k = k') then Some v else newest k' l.
Proof.
  induction l as [|[k1 v1] l IH]; intros Hs; simpl; [done|].
  apply ksorted_cons in Hs as [HF Hs]. destruct (bytes_cmp k k1) eqn:Hc; simpl.
  - apply bytes_cmp_eq in Hc as ->. by case_decide.
  - done.
  - rewrite IH by done. destruct (decide (k1 = k')) as [->|H1]; [|done]. rewrite decide_False; [done|].
    intros ->. pose proof (proj2 (bytes_cmp_eq k' k') eq_refl). congruence.
Qed.
