(* ===== verification/LsmStore.v ===== *)
(** The per-shard store (lsm_store.rs) with its state (lsm_state.rs) and write
    batches (write_batch.rs).

    Operations return their result together with the store and the disk they
    leave behind: a failed flush keeps the effects of what ran before it. The
    write-ahead log is the trait object the store is given. *)

From stdpp Require Import base list numbers strings sorting gmap.
From S2P Require Import Prelude.
From S2P Require Import Errors.
From S2P Require Import Block.
From S2P Require Import BlockBuilder.
From S2P Require Import Iter.
From S2P Require Import BlockIter.
From S2P Require Import EntryDecode.
From S2P Require Import SstFooter.
From S2P Require Import SstBuilder.
From S2P Require Import SstIter.
From S2P Require Import ConcatIter.
From S2P Require Import MergeIter.
From S2P Require Import TwoMergeIter.
From S2P Require Import MemTable.
From S2P Require Import LsmScan.
From S2P Require Import DiskManager.

(** ** Batches *)

Inductive WriteEntry := WPut (key value : bytes) | WDelete (key : bytes).
Record WriteBatch := mkWriteBatch { entries : list WriteEntry }.

(** [WriteBatch::new], [put], [delete], [is_empty], [len]. *)
Definition write_batch_new : WriteBatch := mkWriteBatch [].
Definition write_batch_put (self : WriteBatch) (key value : bytes) : WriteBatch :=
  mkWriteBatch (entries self ++ [WPut key value]).
Definition write_batch_delete (self : WriteBatch) (key : bytes) : WriteBatch :=
  mkWriteBatch (entries self ++ [WDelete key]).
Definition write_batch_is_empty (self : WriteBatch) : bool := match entries self with [] => true | _ => false end.
Definition write_batch_len (self : WriteBatch) : nat := length (entries self).

(** ** State *)

Record SstMeta := mkSstMeta { sm_id : Z; sm_key_range : bytes * bytes; sm_file_size : Z }.
Record LevelMeta := mkLevelMeta { lm_level : Z; lm_ssts : list SstMeta }.

Inductive PartitionType := PartNone | PartHash | PartRange.
Inductive CompressionStrategy := CompNone | CompStandard | CompAggressive.

Record LsmTableOption := mkLsmTableOption {
  partition_type : PartitionType;
  compression : CompressionStrategy;
  memtable_size_limit : nat;
  max_imm_memtables : nat;
}.

(** [Default for LsmTableOption]. *)
Definition lsm_table_option_default : LsmTableOption :=
  mkLsmTableOption PartNone CompStandard (Z.to_nat (4 * 1024 * 1024)) 4.

Record LsmState (M : Type) := mkLsmState {
  active_mem : MemTable M;
  imm_memtables : list (MemTable M);
  levels : list LevelMeta;
}.
Arguments mkLsmState {M} _ _ _.
Arguments active_mem {M} _.
Arguments imm_memtables {M} _.
Arguments levels {M} _.

(** The trait object a store appends its batches to. *)
Class WalStore (W : Type) := {
  wal_append : W -> Z -> WriteBatch -> StorageResult unit * W;
}.

(** [LsmStore]. [st_wal] is the log as the store's next append finds it; the code
    holds an [Arc] of a log that the shards of a replication group share. Nothing
    a store does reads the log back, and the theorems hold for any log a store
    may find ([relog] of MetaManager changes it between two operations). *)
Record LsmStore (M W : Type) := mkLsmStore {
  st_state : LsmState M;
  st_table_option : LsmTableOption;
  st_shard_id : Z;
  st_wal : W;
}.
Arguments mkLsmStore {M W} _ _ _ _.
Arguments st_state {M W} _.
Arguments st_table_option {M W} _.
Arguments st_shard_id {M W} _.
Arguments st_wal {M W} _.

Definition set_state {M W} (self : LsmStore M W) (s : LsmState M) : LsmStore M W :=
  mkLsmStore s (st_table_option self) (st_shard_id self) (st_wal self).
Definition set_wal {M W} (self : LsmStore M W) (w : W) : LsmStore M W :=
  mkLsmStore (st_state self) (st_table_option self) (st_shard_id self) w.

Section Ops.
Context {M W : Type} `{OrderedMap M} `{WalStore W}.

(** [LsmState::new], [LsmStore::new]. *)
Definition lsm_state_new : LsmState M := mkLsmState memtable_new [] [].
Definition lsm_store_new (table_option : LsmTableOption) (shard_id : Z) (wal : W) : LsmStore M W :=
  mkLsmStore lsm_state_new table_option shard_id wal.

(** ** Flushing *)

(** [LsmStore::switch_memtable]. *)
Definition switch_memtable (self : LsmStore M W) : LsmStore M W :=
  let old := st_state self in
  if decide (estimate_memory (active_mem old) < memtable_size_limit (st_table_option self)) then self
  else set_state self (mkLsmState memtable_new (active_mem old :: imm_memtables old) (levels old)).

(** The copy loop of [build_sst_from_memtable]; [fuel] exceeds the number of
    entries of the table. *)
Fixpoint feed {S} `{SstWriter S} (fuel : nat) (iter : OwnedMemTableIter M) (builder : SstBuilder S)
  : StorageResult (SstBuilder S) :=
  match fuel with
  | 0 => Panic
  | Datatypes.S fuel' =>
      if valid iter then
        k <-- key iter ;; k <-- unwrap k ;;
        v <-- value iter ;; v <-- unwrap v ;;
        builder <-- (match v with
                     | Put v => sst_add builder k v
                     | Delete => sst_add_delete builder k
                     end) ;;
        iter <-- next Fwd iter ;;
        feed fuel' iter builder
      else Ok builder
  end.

(** The body of the build, once the file is created. *)
Definition write_memtable (block_size : nat) (writer : SstFileWriter) (imm : MemTable M)
  : StorageResult (SstFooter * DefaultSstWriter SstFileWriter) :=
  let opt := mkSstOption block_size in
  let builder := sst_builder_new (mkDefaultSstWriter writer opt) opt in
  iter <-- seek_to_first Fwd (memtable_iter imm) ;;
  builder <-- feed (memtable_len imm + 1) iter builder ;;
  sst_finish builder.

(** [LsmStore::build_sst_from_memtable]. *)
Definition build_sst_from_memtable (dm : DiskManager) (dev : Device) (imm : MemTable M)
  : StorageResult SstMeta * DiskManager :=
  match create_sst dm dev with
  | (Ok writer, dm) =>
      let sst_id := sfw_sst_id writer in
      let failed := store_file dm sst_id (dev_residue dev) in
      match write_memtable (dm_block_size dm) writer imm with
      | Ok (footer, sst_writer) =>
          let file_size := sst_file_writer_size (dsw_inner sst_writer) in
          (Ok (mkSstMeta sst_id (first_key footer, last_key footer) file_size),
           store_file dm sst_id (fw_file (sfw_inner (dsw_inner sst_writer))))
      | Err e => (Err e, failed)
      | Panic => (Panic, failed)
      end
  | (Err e, dm) => (Err e, dm)
  | (Panic, dm) => (Panic, dm)
  end.

(** [new_levels[0].ssts.push(meta)], with level 0 created when there is none. *)
Definition push_l0 (levels : list LevelMeta) (meta : SstMeta) : list LevelMeta :=
  match levels with
  | [] => [mkLevelMeta 0 [meta]]
  | l0 :: rest => mkLevelMeta (lm_level l0) (lm_ssts l0 ++ [meta]) :: rest
  end.

(** [LsmStore::flush_oldest_imm]. *)
Definition flush_oldest_imm (self : LsmStore M W) (dm : DiskManager) (dev : Device)
  : StorageResult unit * (LsmStore M W * DiskManager) :=
  match last (imm_memtables (st_state self)) with
  | None => (Ok tt, (self, dm))
  | Some oldest =>
      match build_sst_from_memtable dm dev oldest with
      | (Ok sst_meta, dm) =>
          let old := st_state self in
          (Ok tt,
           (set_state self
              (mkLsmState (active_mem old) (removelast (imm_memtables old)) (push_l0 (levels old) sst_meta)),
            dm))
      | (Err e, dm) => (Err e, (self, dm))
      | (Panic, dm) => (Panic, (self, dm))
      end
  end.

(** ** Writing *)

(** One entry of a batch, applied to the active memtable. *)
Definition apply_write (t : MemTable M) (e : WriteEntry) : MemTable M :=
  match e with WPut k v => memtable_put k v t | WDelete k => memtable_delete k t end.

(** [TableStore::write]. *)
Definition store_write (self : LsmStore M W) (dm : DiskManager) (dev : Device) (batch : WriteBatch)
  : StorageResult unit * (LsmStore M W * DiskManager) :=
  let '(logged, wal) := wal_append (st_wal self) (st_shard_id self) batch in
  let self := set_wal self wal in
  match logged with
  | Err e => (Err e, (self, dm))
  | Panic => (Panic, (self, dm))
  | Ok _ =>
      let state := st_state self in
      let active := foldl apply_write (active_mem state) (entries batch) in
      let self := set_state self (mkLsmState active (imm_memtables state) (levels state)) in
      if decide (memtable_size_limit (st_table_option self) <= estimate_memory active) then
        let self := switch_memtable self in
        if decide (max_imm_memtables (st_table_option self) <= length (imm_memtables (st_state self)))
        then flush_oldest_imm self dm dev
        else (Ok tt, (self, dm))
      else (Ok tt, (self, dm))
  end.

(** ** Reading *)

Abbreviation MemSide := (MergeIter (MapIter M)).
Abbreviation L0Side := (MergeIter (SstIter FileBlockReader)).
Abbreviation LnSide := (MergeIter (ConcatIter (SstIter FileBlockReader))).
Abbreviation SstSide := (TwoMergeIter L0Side LnSide).
Abbreviation MergedIter := (TwoMergeIter MemSide SstSide).

(** Opening one SST for a scan. *)
Definition open_iter (dm : DiskManager) (sst : SstMeta) : StorageResult (SstIter FileBlockReader) :=
  opened <-- open_sst dm (sm_id sst) ;;
  Ok (sst_iter_new (sfr_reader opened) (sfr_footer opened)).

(** [LsmStore::build_merged_iter]; [rounds] bounds the skip loops of the
    two-way merges. *)
Definition build_merged_iter (dm : DiskManager) (rounds : nat) (state : LsmState M) : StorageResult MergedIter :=
  let mem_iters :=
    mkMapIter (memtable_iter (active_mem state))
    :: ((fun imm => mkMapIter (memtable_iter imm)) <$> imm_memtables state) in
  let mem_merge := merge_iter_new mem_iters in
  l0_iters <-- rmap (open_iter dm) (default [] (lm_ssts <$> head (levels state))) ;;
  let l0_merge := merge_iter_new l0_iters in
  ln_iters <-- rmap (fun level => iters <-- rmap (open_iter dm) (lm_ssts level) ;;
                                  Ok (concat_iter_new iters)) (tail (levels state)) ;;
  let ln_merge := merge_iter_new ln_iters in
  sst_merge <-- two_merge_new rounds l0_merge ln_merge ;;
  two_merge_new rounds mem_merge sst_merge.

(** [TableStore::scan]. *)
Definition store_scan (self : LsmStore M W) (dm : DiskManager) (rounds : nat) (range : Bound * Bound)
  (reverse : bool) : StorageResult (LsmScan MergedIter) :=
  merged <-- build_merged_iter dm rounds (st_state self) ;;
  let scan := mkLsmScan merged range.1 range.2 rounds in
  if reverse then lsm_scan_init Rev scan else lsm_scan_init Fwd scan.
End Ops.
