(* ===== verification/LsmRefine.v ===== *)
(** The store refines a map with last-writer-wins updates.

    The abstract state is a function from keys to the entry last written. The
    store keeps it as layers, newest first: the active memtable, the immutable
    ones, and the level-0 SSTs. *)

From stdpp Require Import base list numbers strings sorting gmap.
From S2P Require Import Prelude.
From S2P Require Import Errors.
From S2P Require Import Block.
From S2P Require Import BlockBuilder.
From S2P Require Import Iter.
From S2P Require Import BlockIter.
From S2P Require Import EntryDecode.
From S2P Require Import SstFooter.
From S2P Require Import SstBuilder.
From S2P Require Import SstTree.
From S2P Require Import SstBuilderCorrect.
From S2P Require Import IndexTreeIter.
From S2P Require Import SstIter.
From S2P Require Import SstRoundTrip.
From S2P Require Import ScanLaws.
From S2P Require Import ConcatIter.
From S2P Require Import MergeIter.
From S2P Require Import TwoMergeIter.
From S2P Require Import MemTable.
From S2P Require Import LsmScan.
From S2P Require Import StableIter.
From S2P Require Import DiskManager.
From S2P Require Import Newest.
From S2P Require Import LsmStore.

(** ** The abstract store *)

Definition view := bytes -> option Entry.

Definition spec_entry (m : view) (e : WriteEntry) : view :=
  fun k => match e with
           | WPut k' v => if decide (k' = k) then Some (Put v) else m k
           | WDelete k' => if decide (k' = k) then Some Delete else m k
           end.

(** A batch is applied in order. *)
Definition spec_write (m : view) (batch : WriteBatch) : view := foldl spec_entry m (entries batch).

(** ** What the disk holds *)

Abbreviation layer := (list (bytes * Entry)).

(** The builder call an entry of a table turns into. *)
Definition block_entry (kv : bytes * Entry) : BlockEntry :=
  match kv.2 with Put v => BPut kv.1 v | Delete => BDelete kv.1 end.

(** The SST [sst] of the directory holds the entries [l]. *)
Definition sst_holds (dm : DiskManager) (sst : SstMeta) (l : layer) : Prop :=
  exists G footer, dm_files dm !! sm_id sst = Some (G ++ footer_encode footer)
    /\ footer_wf footer
    /\ sst_file (dm_block_size dm) (G ++ footer_encode footer) footer (block_entry <$> l)
    /\ ksorted l.

(** The entries of a table fit the SST format: every entry fits a block, and
    the file stays within the format's limits. *)
Definition table_fits (bs : nat) (l : layer) : Prop :=
  BLOCK_FIXED_HEADER_SIZE <= bs /\ (Z.of_nat (2 * bs + 20) <= u32_max)%Z
  /\ Forall (entry_fits (mkSstOption bs)) (block_entry <$> l)
  /\ (Z.of_nat (bs * (4 * length l + 3) + 24) <= u64_max)%Z
  /\ (Z.of_nat (2 * length l + 2) <= u32_max)%Z.

Section Flush.
Context {M W : Type} `{OrderedMapLaws M} `{WalStore W}.

(** The entries of a memtable. *)
Definition mem_layer (t : MemTable M) : layer := om_entries (mt_map t).

Lemma kvs_block_entry (l : layer) : kvs (block_entry <$> l) = map_kv <$> l.
Proof. rewrite <- list_fmap_compose. apply list_fmap_ext. by intros _ [k []] _. Qed.

Lemma be_key_block_entry kv : be_key (block_entry kv) = kv.1.
Proof. by destruct kv as [k []]. Qed.

Lemma first_entry_key (l : layer) : default [] (be_key <$> head (block_entry <$> l)) = default [] (fst <$> head l).
Proof. destruct l; simpl; [done|]. apply be_key_block_entry. Qed.

Lemma last_entry_key (l : layer) : default [] (be_key <$> last (block_entry <$> l)) = default [] (fst <$> last l).
Proof. rewrite fmap_last. destruct (last l); simpl; [|done]. apply be_key_block_entry. Qed.

Lemma ksorted_map_kv (l : layer) : ksorted (map_kv <$> l) <-> ksorted l.
Proof. unfold ksorted. rewrite <- list_fmap_compose. by replace (fst ∘ map_kv) with (@fst bytes Entry). Qed.

(** The copy loop feeds the table's entries to the builder in key order. *)
Lemma feed_ok {S} `{SstWriter S} fuel : forall (iter : OwnedMemTableIter M) (b : SstBuilder S) all rest,
  at_pos Fwd iter all rest -> length rest < fuel ->
  feed fuel iter b = rfold sst_add_entry (block_entry <$> rest) b.
Proof.
  induction fuel as [|fuel IH]; intros iter b all rest Hat Hf; [lia|]. cbn [feed].
  rewrite (at_valid _ _ _ Hat). destruct rest as [|[k e] rest]; [done|].
  rewrite (at_key _ _ _ Hat), (at_value _ _ _ Hat). cbn [rbind head fmap option_fmap option_map unwrap fst snd].
  rewrite fmap_cons. cbn [rfold].
  destruct (next_ok _ _ _ Hat) as (iter' & -> & Hat'). cbn [tail] in Hat'.
  assert (sst_add_entry b (block_entry (k, e))
          = match e with Put v => sst_add b k v | Delete => sst_add_delete b k end) as -> by (by destruct e).
  destruct (match e with Put v => sst_add b k v | Delete => sst_add_delete b k end); [|done|done].
  cbn [rbind]. apply (IH iter' _ all); [done|simpl in Hf; lia].
Qed.

(** So the build is [sst_build] over them. *)
Lemma write_memtable_build bs w (imm : MemTable M) :
  write_memtable bs w imm
  = sst_build (mkDefaultSstWriter w (mkSstOption bs)) (mkSstOption bs) (block_entry <$> mem_layer imm).
Proof.
  unfold write_memtable, sst_build.
  assert (seekable Fwd (memtable_iter imm) (mem_layer imm)) as Hs by done.
  destruct (seek_to_first_ok _ _ Hs) as (iter & -> & Hat). cbn [rbind ord] in *.
  rewrite (feed_ok _ _ _ _ _ Hat); [done|]. unfold memtable_len. rewrite om_len_ok. unfold mem_layer. lia.
Qed.

Lemma table_build_fits bs id faults (l : layer) :
  table_fits bs l -> Forall (fun f => f = None) faults ->
  build_fits (mkSstOption bs)
    (mkDefaultSstWriter (mkSstFileWriter id (file_block_writer_create bs faults)) (mkSstOption bs))
    (block_entry <$> l)
  /\ (Z.of_nat (20 + length (default [] (be_key <$> head (block_entry <$> l)))
              + length (default [] (be_key <$> last (block_entry <$> l)))) <= u32_max)%Z.
Proof.
  intros (Hbs & Hbs' & Hfit & Hroom & Hn) Hf.
  assert (forall k, k ∈ be_key <$> (block_entry <$> l) -> length k <= bs) as Hk.
  { intros k Hin. apply list_elem_of_fmap in Hin as (e & -> & He). rewrite Forall_forall in Hfit.
    destruct (Hfit e He) as [Hkf _]. unfold key_fits in Hkf. simpl in Hkf. lia. }
  assert (length (default [] (be_key <$> head (block_entry <$> l))) <= bs) as Hl1.
  { destruct (block_entry <$> l) as [|e es] eqn:He; simpl; [lia|]. apply Hk. simpl. by left. }
  assert (length (default [] (be_key <$> last (block_entry <$> l))) <= bs) as Hl2.
  { destruct (last (block_entry <$> l)) as [e|] eqn:He; simpl; [|lia]. apply Hk.
    apply list_elem_of_fmap_2. by apply last_Some_elem_of. }
  split; [|lia]. split_and!; try done.
  - simpl. lia.
  - intros f Hff Hfl. split; [done|]. change (sw_footer_image _ _ f) with (footer_encode f).
    rewrite length_footer_encode, Hff, Hfl, length_fmap. unfold MIN_LEN. simpl sw_target. simpl block_size. simpl length.
    nia.
  - by rewrite length_fmap.
Qed.

(** Building an SST from a memtable stores a file that holds its entries. *)
Lemma build_sst_ok dm dev (imm : MemTable M) :
  table_fits (dm_block_size dm) (mem_layer imm) ->
  dev_create dev = None -> Forall (fun f => f = None) (dev_writes dev) ->
  exists meta dm', build_sst_from_memtable dm dev imm = (Ok meta, dm')
    /\ sm_id meta = dm_next_sst_id dm /\ sst_holds dm' meta (mem_layer imm)
    /\ sm_key_range meta = (default [] (fst <$> head (mem_layer imm)), default [] (fst <$> last (mem_layer imm)))
    /\ dm_block_size dm' = dm_block_size dm
    /\ dm_next_sst_id dm' = ((dm_next_sst_id dm + 1) mod 2 ^ 64)%Z
    /\ (forall id, id <> dm_next_sst_id dm -> dm_files dm' !! id = dm_files dm !! id).
Proof.
  intros Hfit Hc Hw. unfold build_sst_from_memtable, create_sst. rewrite Hc.
  cbn [dm_block_size dm_files dm_next_sst_id sfw_sst_id]. rewrite write_memtable_build.
  destruct (table_build_fits _ (dm_next_sst_id dm) _ _ Hfit Hw) as [Hbf Hlen].
  destruct (sst_build_ok _ _ _ Hbf) as (footer & w & G & Hb & Ht & Hfile & Hh & Hu & Hf & Hl & _).
  rewrite Hb. do 2 eexists. split; [done|].
  change (sw_target w) with (fw_file (sfw_inner (dsw_inner w))) in *.
  change (sw_footer_image _ _ footer) with (footer_encode footer) in *.
  split_and!; try done.
  - exists G, footer. simpl. rewrite lookup_insert_eq, Ht. split_and!; try done.
    + by split_and!; try apply Hu; try apply Hh; rewrite Hf, Hl.
    + by rewrite <- Ht.
    + apply om_sorted.
  - simpl. by rewrite Hf, Hl, first_entry_key, last_entry_key.
  - intros id Hne. simpl. by rewrite !lookup_insert_ne by done.
Qed.
End Flush.

(** ** The representation *)

Section Refine.
Context {M W : Type} `{OrderedMapLaws M} `{WalStore W}.

Definition l0_ssts (s : LsmState M) : list SstMeta := default [] (lm_ssts <$> head (levels s)).

(** Level 0 is the only level, its SSTs hold [l0s] (oldest first), and their
    ids have been handed out. *)
Definition store_wf (self : LsmStore M W) (dm : DiskManager) (l0s : list layer) : Prop :=
  length (levels (st_state self)) <= 1
  /\ Forall2 (sst_holds dm) (l0_ssts (st_state self)) l0s
  /\ Forall (fun sst => (sm_id sst < dm_next_sst_id dm)%Z) (l0_ssts (st_state self)).

Definition mem_layers (s : LsmState M) : list layer :=
  mem_layer (active_mem s) :: (mem_layer <$> imm_memtables s).

(** Newest first. *)
Definition store_layers (s : LsmState M) (l0s : list layer) : list layer := mem_layers s ++ reverse l0s.

(** The store represents the abstract state [m]. *)
Definition represents (self : LsmStore M W) (dm : DiskManager) (l0s : list layer) (m : view) : Prop :=
  store_wf self dm l0s /\ forall k, layered k (store_layers (st_state self) l0s) = m k.

Lemma sst_holds_other dm dm' sst l :
  sst_holds dm sst l -> dm_block_size dm' = dm_block_size dm ->
  dm_files dm' !! sm_id sst = dm_files dm !! sm_id sst -> sst_holds dm' sst l.
Proof.
  intros (G & footer & Hf & Hwf & Hfile & Hs) Hbs He. exists G, footer. by rewrite He, Hbs.
Qed.

(** The directory afterwards: ids only grow, and the files of the ids handed
    out before are left alone. *)
Definition disk_grows (dm dm' : DiskManager) : Prop :=
  dm_block_size dm' = dm_block_size dm /\ (dm_next_sst_id dm <= dm_next_sst_id dm')%Z
  /\ forall id, (id < dm_next_sst_id dm)%Z -> dm_files dm' !! id = dm_files dm !! id.

Lemma disk_grows_refl dm : disk_grows dm dm.
Proof. by split_and!. Qed.

Lemma store_wf_disk self dm dm' l0s : store_wf self dm l0s -> disk_grows dm dm' -> store_wf self dm' l0s.
Proof.
  intros (Hl & HF & Hid) (Hbs & Hnx & Hf). split_and!; [done| |].
  - apply Forall2_same_length_lookup. apply Forall2_same_length_lookup in HF as [Hlen HF]. split; [done|].
    intros i sst l Hi Hl'. eapply sst_holds_other; [by eapply HF|done|]. apply Hf.
    exact (Forall_lookup_1 _ _ _ _ Hid Hi).
  - eapply Forall_impl; [exact Hid|]. simpl. lia.
Qed.

Lemma represents_disk self dm dm' l0s m :
  represents self dm l0s m -> disk_grows dm dm' -> represents self dm' l0s m.
Proof. intros [Hwf Hv] Hg. split; [|done]. by eapply store_wf_disk. Qed.

Lemma last_snoc_inv {A} (l : list A) x : last l = Some x -> l = removelast l ++ [x].
Proof.
  intros Hl. apply last_Some in Hl as [l' ->]. by rewrite removelast_app, app_nil_r.
Qed.

Lemma l0_push lv meta :
  length lv <= 1 -> length (push_l0 lv meta) <= 1
  /\ default [] (lm_ssts <$> head (push_l0 lv meta)) = default [] (lm_ssts <$> head lv) ++ [meta].
Proof. destruct lv as [|l0 [|]]; simpl; intros; split; done || lia. Qed.

(** Moving the oldest immutable memtable to level 0 keeps the layers. *)
Lemma layers_flush (s : LsmState M) l0s oldest lv :
  last (imm_memtables s) = Some oldest ->
  store_layers (mkLsmState (active_mem s) (removelast (imm_memtables s)) lv) (l0s ++ [mem_layer oldest])
  = store_layers s l0s.
Proof.
  intros Hl. unfold store_layers, mem_layers. cbn [active_mem imm_memtables].
  rewrite (last_snoc_inv _ _ Hl) at 2. rewrite fmap_app, reverse_snoc. simpl. by rewrite <- app_assoc.
Qed.

Definition device_ok (dev : Device) : Prop :=
  dev_create dev = None /\ Forall (fun f => f = None) (dev_writes dev).

(** Room for one more SST id. *)
Definition ids_left (dm : DiskManager) : Prop := (0 <= dm_next_sst_id dm /\ dm_next_sst_id dm + 1 < 2 ^ 64)%Z.

Lemma flush_ok self dm dev l0s m oldest :
  represents self dm l0s m -> last (imm_memtables (st_state self)) = Some oldest ->
  table_fits (dm_block_size dm) (mem_layer oldest) -> device_ok dev -> ids_left dm ->
  exists self' dm', flush_oldest_imm self dm dev = (Ok tt, (self', dm'))
    /\ represents self' dm' (l0s ++ [mem_layer oldest]) m
    /\ active_mem (st_state self') = active_mem (st_state self)
    /\ imm_memtables (st_state self') = removelast (imm_memtables (st_state self))
    /\ st_wal self' = st_wal self /\ disk_grows dm dm'.
Proof.
  intros [Hwf Hv] Hlast Hfit [Hc Hw] Hids. unfold flush_oldest_imm. rewrite Hlast.
  destruct (build_sst_ok dm dev oldest Hfit Hc Hw) as (meta & dm' & -> & Hid & Hh & _ & Hbs & Hnx & Hother).
  assert (dm_next_sst_id dm' = dm_next_sst_id dm + 1)%Z as Hnx'.
  { rewrite Hnx. unfold ids_left in Hids. apply Z.mod_small. lia. }
  assert (disk_grows dm dm') as Hg by (split_and!; [done|lia|intros id Hlt; apply Hother; lia]).
  do 2 eexists. split; [done|]. split_and!; try done. split.
  - destruct (store_wf_disk self dm dm' l0s Hwf Hg) as (Hl & HF & Hlt).
    destruct (l0_push (levels (st_state self)) meta Hl) as [Hl' Hp].
    unfold store_wf, l0_ssts. cbn [st_state set_state levels]. rewrite Hp. split_and!; [done| |].
    + by apply Forall2_app; [|constructor].
    + apply Forall_app. split; [done|]. constructor; [|done]. lia.
  - intros k. cbn [st_state set_state]. by rewrite layers_flush.
Qed.

(** A flush that fails leaves the store as it was, and no file it uses is
    touched. *)
Lemma flush_fails self dm dev l0s m r self' dm' :
  represents self dm l0s m -> ids_left dm ->
  flush_oldest_imm self dm dev = (r, (self', dm')) -> r <> Ok tt ->
  self' = self /\ represents self' dm' l0s m /\ disk_grows dm dm'.
Proof.
  intros [Hwf Hv] Hids Hf Hr. unfold flush_oldest_imm in Hf.
  destruct (last (imm_memtables (st_state self))) as [oldest|]; [|by simplify_eq].
  assert ((dm_next_sst_id dm + 1) mod 2 ^ 64 = dm_next_sst_id dm + 1)%Z as Hmod
    by (unfold ids_left in Hids; apply Z.mod_small; lia).
  assert (self' = self /\ dm_block_size dm' = dm_block_size dm /\ dm_next_sst_id dm' = (dm_next_sst_id dm + 1)%Z
    /\ forall id, id <> dm_next_sst_id dm -> dm_files dm' !! id = dm_files dm !! id) as (-> & Hbs & Hnx & Hother).
  { unfold build_sst_from_memtable, create_sst in Hf. destruct (dev_create dev); [simplify_eq; by split_and!|].
    cbn [dm_block_size sfw_sst_id] in Hf. destruct (write_memtable _ _ _) as [[footer w]| |]; simplify_eq;
      split_and!; try done; intros id Hne; simpl; by rewrite !lookup_insert_ne by done. }
  assert (disk_grows dm dm') as Hg by (split_and!; [done|lia|intros id Hlt; apply Hother; lia]).
  split; [done|]. split; [|done]. by eapply represents_disk.
Qed.

(** ** Writing *)

Lemma layered_apply k (t : MemTable M) (e : WriteEntry) (Ls : list layer) :
  layered k (mem_layer (apply_write t e) :: Ls) = spec_entry (fun k => layered k (mem_layer t :: Ls)) e k.
Proof.
  unfold mem_layer. destruct e as [k' v|k']; cbn [apply_write memtable_put memtable_delete mt_map layered spec_entry];
    rewrite om_entries_insert, newest_insert by apply om_sorted; by case_decide.
Qed.

Lemma layered_batch es : forall k (t : MemTable M) (Ls : list layer) m,
  (forall k, layered k (mem_layer t :: Ls) = m k) ->
  layered k (mem_layer (foldl apply_write t es) :: Ls) = foldl spec_entry m es k.
Proof.
  induction es as [|e es IH]; intros k t Ls m Hm; [apply Hm|]. cbn [foldl]. apply IH. intros k'.
  rewrite layered_apply. destruct e; cbn [spec_entry]; case_decide; by rewrite ?Hm.
Qed.

Lemma switch_represents self dm l0s m :
  represents self dm l0s m -> represents (switch_memtable self) dm l0s m.
Proof.
  intros [Hwf Hv]. unfold switch_memtable. case_decide; [done|]. split; [done|]. intros k. rewrite <- Hv.
  cbn [st_state set_state]. unfold store_layers, mem_layers. cbn [active_mem imm_memtables fmap list_fmap app layered].
  unfold mem_layer at 1. cbn [mt_map memtable_new]. by rewrite om_entries_empty.
Qed.

(** The store once a batch is in the active memtable. *)
Definition applied (self : LsmStore M W) (wal : W) (batch : WriteBatch) : LsmStore M W :=
  mkLsmStore
    (mkLsmState (foldl apply_write (active_mem (st_state self)) (entries batch))
       (imm_memtables (st_state self)) (levels (st_state self)))
    (st_table_option self) (st_shard_id self) wal.

Lemma applied_represents self wal batch dm l0s m :
  represents self dm l0s m -> represents (applied self wal batch) dm l0s (spec_write m batch).
Proof. intros [Hwf Hv]. split; [done|]. intros k. by apply layered_batch. Qed.

Lemma switch_wal (self : LsmStore M W) : st_wal (switch_memtable self) = st_wal self.
Proof. unfold switch_memtable. by case_decide. Qed.

Lemma switch_imms (self : LsmStore M W) t :
  t ∈ imm_memtables (st_state (switch_memtable self)) ->
  t ∈ active_mem (st_state self) :: imm_memtables (st_state self).
Proof. unfold switch_memtable. case_decide; [by right|done]. Qed.

(** What [store_write] does once the log has the batch. *)
Lemma store_write_logged self dm dev batch wal :
  wal_append (st_wal self) (st_shard_id self) batch = (Ok tt, wal) ->
  store_write self dm dev batch
  = let self1 := applied self wal batch in
    if decide (memtable_size_limit (st_table_option self) <= estimate_memory (active_mem (st_state self1))) then
      let self2 := switch_memtable self1 in
      if decide (max_imm_memtables (st_table_option self2) <= length (imm_memtables (st_state self2)))
      then flush_oldest_imm self2 dm dev
      else (Ok tt, (self2, dm))
    else (Ok tt, (self1, dm)).
Proof. intros Hw. unfold store_write. by rewrite Hw. Qed.

Lemma store_write_ok self dm dev batch wal l0s m :
  represents self dm l0s m ->
  wal_append (st_wal self) (st_shard_id self) batch = (Ok tt, wal) ->
  Forall (fun t => table_fits (dm_block_size dm) (mem_layer t))
    (active_mem (st_state (applied self wal batch)) :: imm_memtables (st_state self)) ->
  device_ok dev -> ids_left dm ->
  exists self' dm' l0s', store_write self dm dev batch = (Ok tt, (self', dm'))
    /\ represents self' dm' l0s' (spec_write m batch) /\ st_wal self' = wal /\ disk_grows dm dm'.
Proof.
  intros Hr Hw Hfit Hdev Hids. rewrite (store_write_logged _ _ _ _ _ Hw). cbn zeta.
  apply (applied_represents self wal batch) in Hr.
  case_decide as Hsz; [|exists (applied self wal batch), dm, l0s; eauto using disk_grows_refl].
  apply switch_represents in Hr as Hr2.
  case_decide as Hmax; [|exists (switch_memtable (applied self wal batch)), dm, l0s;
    rewrite switch_wal; eauto using disk_grows_refl].
  destruct (last (imm_memtables (st_state (switch_memtable (applied self wal batch))))) as [oldest|] eqn:Hlast.
  - destruct (flush_ok _ dm dev l0s _ oldest Hr2 Hlast) as (self' & dm' & -> & Hr' & _ & _ & Hwal & Hg); try done.
    + rewrite Forall_forall in Hfit. apply Hfit. apply (switch_imms (applied self wal batch)). by apply last_Some_elem_of.
    + exists self', dm', (l0s ++ [mem_layer oldest]). by rewrite Hwal, switch_wal.
  - unfold flush_oldest_imm. rewrite Hlast. do 3 eexists. split; [done|].
    rewrite switch_wal. eauto using disk_grows_refl.
Qed.

(** Whatever fails, an accepted batch is applied and a rejected one is not. *)
Lemma store_write_fails self dm dev batch l0s m r self' dm' :
  represents self dm l0s m -> ids_left dm ->
  store_write self dm dev batch = (r, (self', dm')) -> r <> Ok tt ->
  represents self' dm' l0s
    (if decide ((wal_append (st_wal self) (st_shard_id self) batch).1 = Ok tt) then spec_write m batch else m)
  /\ disk_grows dm dm'.
Proof.
  intros Hr Hids Hs Hne. destruct (wal_append (st_wal self) (st_shard_id self) batch) as [lg wal] eqn:Hw. simpl.
  case_decide as Hlg.
  - subst lg. rewrite (store_write_logged _ _ _ _ _ Hw) in Hs. cbn zeta in Hs.
    case_decide; [|by simplify_eq]. case_decide; [|by simplify_eq].
    destruct (flush_fails _ dm dev l0s _ r self' dm' (switch_represents _ _ _ _ (applied_represents self wal batch dm l0s m Hr))
      Hids Hs Hne) as (_ & ? & ?). done.
  - unfold store_write in Hs. rewrite Hw in Hs. destruct lg as [[]| |]; [done|simplify_eq; split; [exact Hr|apply disk_grows_refl]..].
Qed.
End Refine.
