(* ===== verification/LsmScanRefine.v ===== *)
(** Scans of the store against its abstract state. *)

From stdpp Require Import base list numbers strings sorting gmap.
From S2P Require Import Prelude.
From S2P Require Import Errors.
From S2P Require Import Block.
From S2P Require Import BlockBuilder.
From S2P Require Import Iter.
From S2P Require Import BlockIter.
From S2P Require Import EntryDecode.
From S2P Require Import SstFooter.
From S2P Require Import SstTree.
From S2P Require Import IndexTreeIter.
From S2P Require Import SstIter.
From S2P Require Import ScanLaws.
From S2P Require Import ConcatIter.
From S2P Require Import MergeIter.
From S2P Require Import TwoMergeIter.
From S2P Require Import MemTable.
From S2P Require Import LsmScan.
From S2P Require Import StableIter.
From S2P Require Import DiskManager.
From S2P Require Import Newest.
From S2P Require Import LsmStore.
From S2P Require Import LsmRefine.

(** A layer as an iterator shows it. *)
Definition layer_contents (l : layer) : contents EntryValue := fun d => ord d (map_kv <$> l).

(** The index of the SST fits one block: its sources may be sought again. *)
Definition shallow (dm : DiskManager) (sst : SstMeta) : Prop :=
  match open_sst dm (sm_id sst) with
  | Ok opened => (tree_height (sfr_footer opened) <= 2)%Z
  | _ => True
  end.

Definition dir_of (reverse : bool) : direction := if reverse then Rev else Fwd.

Lemma layer_contents_strict l d : ksorted l -> strict_order d (layer_contents l d).
Proof. intros Hs. apply ksorted_strict. by apply ksorted_map_kv. Qed.

Lemma newest_layer k l d : ksorted l -> newest k (layer_contents l d) = map_value <$> newest k l.
Proof.
  intros Hs. unfold layer_contents. rewrite newest_ord by (by apply ksorted_map_kv). apply newest_fmap.
Qed.

(** Opening an SST gives an iterator over the entries it holds. *)
Lemma open_iter_ok dm sst l :
  sst_holds dm sst l -> shallow dm sst -> (Z.of_nat (dm_block_size dm) <= u32_max)%Z ->
  exists it, open_iter dm sst = Ok it /\ stable it (layer_contents l).
Proof.
  intros (G & footer & Hf & Hwf & Hfile & Hs) Hsh Hbs. unfold open_iter, shallow in *.
  rewrite (open_sst_ok dm _ G footer Hf Hwf) in *. cbn [rbind sfr_reader sfr_footer] in *.
  eexists. split; [done|]. exists (kvs (block_entry <$> l)).
  split; [|intros d; unfold layer_contents; by rewrite kvs_block_entry].
  split_and!; [|done|simpl; destruct Hwf as (_ & [? _] & _); lia].
  apply sst_iter_new_seekable; [done|done|]. rewrite kvs_block_entry. by apply ksorted_map_kv.
Qed.

Lemma open_iters_ok dm ssts ls :
  Forall2 (sst_holds dm) ssts ls -> Forall (shallow dm) ssts -> (Z.of_nat (dm_block_size dm) <= u32_max)%Z ->
  exists its, rmap (open_iter dm) ssts = Ok its /\ Forall2 stable its (layer_contents <$> ls).
Proof.
  intros HF Hsh Hbs. induction HF as [|sst l ssts ls Hh HF IH].
  { exists []. split; [done|constructor]. }
  inversion Hsh; subst. destruct IH as (its & Hits & Hst); [done|].
  destruct (open_iter_ok dm sst l Hh) as (it & Hit & Hs); [done|done|].
  exists (it :: its). cbn [rmap]. rewrite Hit, Hits. split; [done|]. rewrite fmap_cons. by constructor.
Qed.

(** ** Contents of the composed iterator *)

(** A merge of layers, the first one taking precedence. *)
Definition layers_contents (ls : list layer) : contents EntryValue := number (layer_contents <$> ls).

Lemma layers_contents_weak ls d : weak_order d (layers_contents ls d).
Proof. apply merge_contents_weak. Qed.

Lemma length_layers_contents ls d : length (layers_contents ls d) = sum_list (length <$> ls).
Proof.
  unfold layers_contents, number. rewrite length_merge_contents, fmap_imap, imap_fmap. f_equal.
  transitivity (imap (fun _ (l : layer) => length l) ls).
  - rewrite fmap_imap. apply imap_ext. intros i l _. simpl. unfold layer_contents. destruct d; simpl; len.
  - apply (imap_const length).
Qed.

Lemma newest_layers k ls d :
  Forall ksorted ls -> newest k (layers_contents ls d) = map_value <$> layered k ls.
Proof.
  intros HF. unfold layers_contents, number.
  replace (imap (fun i (C : contents EntryValue) => (i, C d)) (layer_contents <$> ls))
    with (imap pair ((fun l => layer_contents l d) <$> ls)) by (by rewrite !imap_fmap).
  rewrite newest_merge.
  - induction HF as [|l ls Hs HF IH]; simpl; [done|]. rewrite newest_layer by done.
    by destruct (newest k l).
  - apply Forall_fmap. eapply Forall_impl; [exact HF|]. intros l Hs. by apply layer_contents_strict.
Qed.

Lemma length_two_merge {V} d (la lb : list (bytes * V)) :
  length (two_merge_contents d la lb) <= length la + length lb.
Proof.
  unfold two_merge_contents. rewrite merge_Permutation, length_app. unfold shadow.
  pose proof (length_filter (fun kv => kv.1 ∉ la.*1) lb). lia.
Qed.

Section Scan.
Context {M W : Type} `{OrderedMapLaws M} `{WalStore W}.

Definition entry_count (s : LsmState M) (l0s : list layer) : nat := sum_list (length <$> mem_layers s ++ l0s).

(** Contents of the merged iterator. *)
Definition merged_contents (s : LsmState M) (l0s : list layer) : contents EntryValue :=
  over (layers_contents (mem_layers s)) (over (layers_contents l0s) (layers_contents [])).

Lemma sum_list_app (l k : list nat) : sum_list (l ++ k) = sum_list l + sum_list k.
Proof. induction l as [|x l IH]; simpl; [done|]. lia. Qed.

Lemma length_merged_contents s l0s d : length (merged_contents s l0s d) <= entry_count s l0s.
Proof.
  unfold merged_contents, over, entry_count. rewrite fmap_app, sum_list_app.
  etrans; [apply length_two_merge|]. rewrite length_layers_contents.
  apply Nat.add_le_mono_l. etrans; [apply length_two_merge|]. rewrite !length_layers_contents. simpl. lia.
Qed.

Lemma mem_layers_sorted (s : LsmState M) : Forall ksorted (mem_layers s).
Proof.
  unfold mem_layers. constructor; [apply om_sorted|]. apply Forall_fmap. apply Forall_true. intros t. apply om_sorted.
Qed.

Lemma l0_sorted dm ssts l0s : Forall2 (sst_holds dm) ssts l0s -> Forall ksorted l0s.
Proof. induction 1 as [|sst l ssts ls (G & f & _ & _ & _ & Hs) HF IH]; by constructor. Qed.

Lemma newest_merged k (s : LsmState M) l0s d :
  Forall ksorted l0s ->
  newest k (merged_contents s l0s d) = map_value <$> layered k (mem_layers s ++ l0s).
Proof.
  intros Hs. unfold merged_contents, over. rewrite !newest_two_merge, !newest_layers, layered_app;
    [|by constructor|done|apply mem_layers_sorted].
  destruct (layered k (mem_layers s)); simpl; [done|]. by destruct (layered k l0s).
Qed.

Lemma merged_weak (s : LsmState M) l0s d : weak_order d (merged_contents s l0s d).
Proof. repeat apply two_merge_weak; apply layers_contents_weak. Qed.

Lemma strict_layers ls :
  Forall ksorted ls ->
  Forall (fun C : contents EntryValue => forall d, strict_order d (C d)) (layer_contents <$> ls).
Proof.
  intros HF. apply Forall_fmap. eapply Forall_impl; [exact HF|]. intros l Hs d. by apply layer_contents_strict.
Qed.

Lemma build_merged_ok dm (s : LsmState M) l0s rounds :
  length (levels s) <= 1 -> Forall2 (sst_holds dm) (l0_ssts s) l0s -> Forall (shallow dm) (l0_ssts s) ->
  (Z.of_nat (dm_block_size dm) <= u32_max)%Z -> entry_count s l0s < rounds ->
  exists merged, build_merged_iter dm rounds s = Ok merged /\ stable merged (merged_contents s l0s).
Proof.
  intros Hlv HF Hsh Hbs Hr. unfold build_merged_iter.
  destruct (open_iters_ok dm _ _ HF Hsh Hbs) as (its & Hits & Hst). unfold l0_ssts in Hits. rewrite Hits. cbn [rbind].
  assert (tail (levels s) = []) as -> by (destruct (levels s) as [|? [|]]; simpl in *; [done|done|lia]).
  cbn [rmap rbind]. pose proof (l0_sorted _ _ _ HF) as Hs.
  pose proof (merge_new_stable its _ Hst (strict_layers _ Hs)) as H0s.
  assert (stable (merge_iter_new (I := ConcatIter (SstIter FileBlockReader)) []) (layers_contents [])) as Hns
    by (apply merge_new_stable; constructor).
  destruct (two_merge_new_stable rounds (merge_iter_new its)
              (merge_iter_new (I := ConcatIter (SstIter FileBlockReader)) []) (layers_contents l0s) (layers_contents []))
    as (sst_merge & Hsm & Hsst).
  { split_and!; [done|done|]. intros d. rewrite length_layers_contents.
    split_and!; [apply layers_contents_weak..|simpl; lia]. }
  rewrite Hsm. cbn [rbind].
  assert (stable (merge_iter_new (mkMapIter (memtable_iter (active_mem s))
    :: ((fun imm => mkMapIter (memtable_iter imm)) <$> imm_memtables s))) (layers_contents (mem_layers s))) as Hms.
  { apply merge_new_stable; [|by apply strict_layers, mem_layers_sorted].
    unfold mem_layers. rewrite fmap_cons. constructor; [done|].
    rewrite <- list_fmap_compose. apply Forall2_fmap_2. apply Forall_Forall2_diag, Forall_true. done. }
  set (mem := merge_iter_new (_ :: _)) in *.
  destruct (two_merge_new_stable rounds mem sst_merge (layers_contents (mem_layers s))
           (over (layers_contents l0s) (layers_contents []))) as (merged & Hm & Hmst).
  { split_and!; [done|done|]. intros d.
    split_and!; [apply layers_contents_weak|apply two_merge_weak; apply layers_contents_weak|].
    eapply Nat.le_lt_trans; [apply length_two_merge|]. rewrite !length_layers_contents.
    unfold entry_count in Hr. rewrite fmap_app, sum_list_app in Hr. simpl in *. lia. }
  exists merged. split; [exact Hm|exact Hmst].
Qed.

(** A scan lists, in the order of travel, versions of the keys in range; the
    first one of each key is the first layer's among the memtables, newest
    first, and the level-0 SSTs, oldest first. *)
Lemma store_scan_ok (self : LsmStore M W) dm l0s rounds lo hi rev :
  store_wf self dm l0s -> Forall (shallow dm) (l0_ssts (st_state self)) ->
  (Z.of_nat (dm_block_size dm) <= u32_max)%Z -> entry_count (st_state self) l0s < rounds ->
  exists scan r, store_scan self dm rounds (lo, hi) rev = Ok scan
    /\ (forall fuel, entry_count (st_state self) l0s <= fuel -> lsm_collect (dir_of rev) fuel scan = Ok r)
    /\ r = kv_entry <$> filter (fun kv => in_range lo hi kv.1) (merged_contents (st_state self) l0s (dir_of rev))
    /\ weak_order (dir_of rev) r
    /\ forall k, newest k r
         = if decide (in_range lo hi k) then layered k (mem_layers (st_state self) ++ l0s) else None.
Proof.
  intros (Hlv & HF & _) Hsh Hbs Hr. unfold store_scan.
  destruct (build_merged_ok dm (st_state self) l0s rounds Hlv HF Hsh Hbs Hr) as (merged & -> & Hst). cbn [rbind fst snd].
  set (d := dir_of rev).
  pose proof (length_merged_contents (st_state self) l0s d) as Hlen.
  destruct (lsm_scan_ok (d := d) merged lo hi rounds (merged_contents (st_state self) l0s d)) as (scan & Hi & Hc).
  { exact (stable_scannable _ _ d Hst). }
  { apply merged_weak. }
  { lia. }
  exists scan. eexists. split; [by destruct rev|]. split; [|split; [done|split]].
  - intros fuel Hfuel. apply Hc. lia.
  - unfold weak_order. rewrite <- list_fmap_compose. apply (weak_order_filter (d := d)), merged_weak.
  - intros k. change kv_entry with (fun kv : bytes * EntryValue => (kv.1, entry_of_value kv.2)).
    rewrite newest_fmap, newest_filter, newest_merged by (by eapply l0_sorted).
    case_decide; [|done]. destruct (layered k _) as [[]|]; done.
Qed.
End Scan.
