(* ===== verification/LsmTheorems.v ===== *)
(** Theorems of the per-shard store: flushes, writes and scans against the
    abstract map, with their witnesses. *)

From stdpp Require Import base list numbers strings sorting gmap.
From S2P Require Import Prelude.
From S2P Require Import Errors.
From S2P Require Import Block.
From S2P Require Import BlockBuilder.
From S2P Require Import Iter.
From S2P Require Import EntryDecode.
From S2P Require Import SstFooter.
From S2P Require Import SstBuilder.
From S2P Require Import SstBuilderCorrect.
From S2P Require Import BlockIter.
From S2P Require Import IndexTreeIter.
From S2P Require Import SstIter.
From S2P Require Import ScanLaws.
From S2P Require Import ConcatIter.
From S2P Require Import MergeIter.
From S2P Require Import TwoMergeIter.
From S2P Require Import MemTable.
From S2P Require Import LsmScan.
From S2P Require Import DiskManager.
From S2P Require Import Newest.
From S2P Require Import LsmStore.
From S2P Require Import LsmRefine.
From S2P Require Import LsmScanRefine.

Section Theorems.
Context {M W : Type} `{OrderedMapLaws M} `{WalStore W}.


(** C4: A write that fails, whatever the device did, leaves the store at the
    abstract map without the batch when the log refused it, and with the batch
    applied when only the backpressure flush failed: no data is lost and no file
    of an existing SST changes. *)
Theorem write_failure_refines (self : LsmStore M W) dm dev batch l0s m r self' dm' :
  represents self dm l0s m -> ids_left dm ->
  store_write self dm dev batch = (r, (self', dm')) -> r <> Ok tt ->
  represents self' dm' l0s
    (if decide ((wal_append (st_wal self) (st_shard_id self) batch).1 = Ok tt) then spec_write m batch else m)
  /\ disk_grows dm dm'.
Proof. apply store_write_fails. Qed.


(** C6: A range scan of the store, in either direction, lists keys in the order
    of travel, only keys in range, and the first version it lists of every key
    in range is the one the abstract map holds. It needs index trees of a single
    level and level-0 SSTs without common keys. *)
Theorem scan_refines (self : LsmStore M W) dm l0s m rounds lo hi rev :
  represents self dm l0s m -> disjoint_layers l0s ->
  Forall (shallow dm) (l0_ssts (st_state self)) ->
  (Z.of_nat (dm_block_size dm) <= u32_max)%Z -> entry_count (st_state self) l0s < rounds ->
  exists scan r, store_scan self dm rounds (lo, hi) rev = Ok scan
    /\ (forall fuel, entry_count (st_state self) l0s <= fuel -> lsm_collect (dir_of rev) fuel scan = Ok r)
    /\ weak_order (dir_of rev) r
    /\ forall k, newest k r = if decide (in_range lo hi k) then m k else None.
Proof.
  intros [Hwf Hv] Hdis Hsh Hbs Hr.
  destruct (store_scan_ok self dm l0s rounds lo hi rev Hwf Hsh Hbs Hr) as (scan & r & Hs & Hc & _ & Hw & Hn).
  exists scan, r. split_and!; try done. intros k. rewrite Hn, <- Hv. unfold store_layers. rewrite !layered_app.
  by rewrite (layered_disjoint k l0s (reverse l0s)) by (done || symmetry; apply reverse_Permutation).
Qed.
End Theorems.

(** *** Witnesses *)

(** A log that records the batches it is given, and refuses the empty one. *)
Record DemoWal := mkDemoWal { demo_log : list (Z * WriteBatch) }.
#[export] Instance DemoWal_store : WalStore DemoWal := {|
  wal_append w shard batch :=
    if write_batch_is_empty batch then (Err (InvalidValue "empty batch"), w)
    else (Ok tt, mkDemoWal (demo_log w ++ [(shard, batch)]));
|}.

Abbreviation DemoStore := (LsmStore SortedAssoc DemoWal).

(** A store that switches and flushes after every batch. *)
Definition demo_table : LsmTableOption := mkLsmTableOption PartNone CompStandard 1 1.
Definition demo_store : DemoStore := lsm_store_new demo_table 0 (mkDemoWal []).
Definition demo_disk : DiskManager := disk_manager_new ∅ 256.
Definition k1 : bytes := [Byte.x61].
Definition k2 : bytes := [Byte.x62].
Definition k3 : bytes := [Byte.x63].
Definition batch1 : WriteBatch := mkWriteBatch [WPut k1 [Byte.x31]; WPut k3 [Byte.x33]; WDelete k1].
Definition batch2 : WriteBatch := mkWriteBatch [WPut k2 [Byte.x32]].
Definition no_view : view := fun _ => None.

Lemma demo_represents : represents demo_store demo_disk [] no_view.
Proof. split; [split_and!; [simpl; lia|constructor..]|done]. Qed.

Lemma demo_ids : ids_left demo_disk.
Proof. unfold ids_left. vm_compute. by split. Qed.

Ltac table_fits_tac :=
  split_and!; [vm_compute; lia|vm_compute; discriminate| |vm_compute; discriminate|vm_compute; discriminate];
  simpl; repeat constructor; unfold key_fits; vm_compute; lia.


(** The store and the disk after the first batch, in level 0. *)
Definition demo_store1 : DemoStore := (store_write demo_store demo_disk healthy batch1).2.1.
Definition demo_disk1 : DiskManager := (store_write demo_store demo_disk healthy batch1).2.2.
Definition demo_layer1 : layer := [(k1, Delete); (k3, Put [Byte.x33])].

Lemma demo_represents1 : represents demo_store1 demo_disk1 [demo_layer1] (spec_write no_view batch1).
Proof.
  pose proof (switch_represents _ _ _ _ (applied_represents demo_store (mkDemoWal [(0%Z, batch1)]) batch1 demo_disk [] no_view
    demo_represents)) as Hr.
  destruct (flush_ok _ demo_disk healthy [] _ _ Hr eq_refl) as (s & d & Hf & Hr' & _).
  - table_fits_tac.
  - by split.
  - exact demo_ids.
  - change (store_write demo_store demo_disk healthy batch1 = (Ok tt, (s, d))) in Hf.
    unfold demo_store1, demo_disk1. rewrite Hf. exact Hr'.
Qed.

#[local] Opaque demo_store1 demo_disk1.

(** A device that cannot create the SST file of the flush. *)
Definition full_device : Device := mkDevice (Some "no space left on device") [] [].
Definition failed_write : StorageResult unit * (DemoStore * DiskManager) :=
  store_write demo_store demo_disk full_device batch1.

Lemma write_failure_refines_witness :
  failed_write.1 = Err (IoError "no space left on device")
  /\ represents failed_write.2.1 failed_write.2.2 [] (spec_write no_view batch1).
Proof.
  split; [by vm_compute|].
  pose proof (write_failure_refines demo_store demo_disk full_device batch1 [] no_view
    failed_write.1 failed_write.2.1 failed_write.2.2 demo_represents demo_ids) as Hf.
  destruct Hf as [Hr _]; [|by vm_compute|exact Hr].
  fold failed_write. by destruct failed_write as [? [? ?]].
Defined.

(** A second batch waits in an immutable memtable. *)
Definition demo_store2 : DemoStore :=
  switch_memtable (applied demo_store1 (mkDemoWal [(0%Z, batch1); (0%Z, batch2)]) batch2).

Lemma demo_represents2 :
  represents demo_store2 demo_disk1 [demo_layer1] (spec_write (spec_write no_view batch1) batch2).
Proof. apply switch_represents, applied_represents, demo_represents1. Qed.

Definition demo_oldest : MemTable SortedAssoc :=
  active_mem (st_state (applied demo_store1 (mkDemoWal []) batch2)).

Lemma demo_oldest_layer : mem_layer demo_oldest = [(k2, Put [Byte.x32])].
Proof. vm_compute. reflexivity. Qed.

Lemma demo_oldest_last : last (imm_memtables (st_state demo_store2)) = Some demo_oldest.
Proof. vm_compute. reflexivity. Qed.

Lemma demo_oldest_fits : table_fits (dm_block_size demo_disk1) (mem_layer demo_oldest).
Proof.
  rewrite demo_oldest_layer. replace (dm_block_size demo_disk1) with 256 by (vm_compute; reflexivity).
  table_fits_tac.
Qed.

Lemma demo_ids1 : ids_left demo_disk1.
Proof. unfold ids_left. vm_compute. by split. Qed.


Lemma demo_shallow : Forall (shallow demo_disk1) (l0_ssts (st_state demo_store2)).
Proof.
  assert (l0_ssts (st_state demo_store2) = [mkSstMeta 1 (k1, k3) 538]) as -> by (vm_compute; reflexivity).
  constructor; [|constructor]. vm_compute. discriminate.
Qed.

Lemma demo_disjoint : disjoint_layers [demo_layer1].
Proof. intros [|i] [|j] l m k Hi Hj _ _; simpl in *; by try destruct i; try destruct j. Qed.

Lemma demo_count : entry_count (st_state demo_store2) [demo_layer1] = 3.
Proof. vm_compute. reflexivity. Qed.

Lemma scan_refines_witness :
  exists scan r, store_scan demo_store2 demo_disk1 10 (Included k1, Excluded k3) true = Ok scan
    /\ (forall fuel, entry_count (st_state demo_store2) [demo_layer1] <= fuel -> lsm_collect Rev fuel scan = Ok r)
    /\ weak_order Rev r
    /\ forall k, newest k r
         = if decide (in_range (Included k1) (Excluded k3) k)
           then spec_write (spec_write no_view batch1) batch2 k else None.
Proof.
  apply (scan_refines demo_store2 demo_disk1 [demo_layer1] _ 10 (Included k1) (Excluded k3) true demo_represents2
           demo_disjoint demo_shallow).
  - vm_compute. discriminate.
  - rewrite demo_count. lia.
Defined.

(** ** Where scans go wrong *)

(** Two batches for the same key, each flushed to its own level-0 SST. *)
Definition rewrite_key (v : bytes) : WriteBatch := mkWriteBatch [WPut k1 v].
Definition rewritten : DemoStore * DiskManager :=
  let '(_, (s, d)) := store_write demo_store demo_disk healthy (rewrite_key [Byte.x31]) in
  (store_write s d healthy (rewrite_key [Byte.x32])).2.

(** [flush_oldest_imm] appends the newest SST to level 0, and [MergeIter] lists
    the source with the lowest index first: the scan gives the old version
    before the new one. *)
Theorem l0_scan_lists_stale_first :
  (scan <-- store_scan rewritten.1 rewritten.2 10 (Unbounded, Unbounded) false ;;
   lsm_collect Fwd 10 scan)
  = Ok [(k1, Put [Byte.x31]); (k1, Put [Byte.x32])].
Proof. vm_compute. reflexivity. Qed.

(** Twelve entries in 64-byte blocks give an index tree with two index levels.
    A scan seeks every source three times, and [IndexTreeIter::reset] keeps the
    level it was at: the flushed entries cannot be scanned. *)
Definition small_disk : DiskManager := disk_manager_new ∅ 64.
Definition deep_batch : WriteBatch :=
  mkWriteBatch ((fun n : nat => WPut (be_bytes 1 (Z.of_nat n)) [Byte.x61]) <$> seq 1 12).
Definition deep : DemoStore * DiskManager := (store_write demo_store small_disk healthy deep_batch).2.

Theorem deep_sst_scan_fails :
  (scan <-- store_scan deep.1 deep.2 100 (Unbounded, Unbounded) false ;;
   lsm_collect Fwd 100 scan) = Panic.
Proof. vm_compute. reflexivity. Qed.
