(* ===== verification/LsmEngine.v ===== *)
(** The engine (lsm_engine.rs): its shards over one shared disk manager, and the
    cross-shard flush sweep. *)

From stdpp Require Import functions base numbers strings pretty gmap fin_maps list.
From S2P Require Import Prelude.
From S2P Require Import Errors.
From S2P Require Import Block.
From S2P Require Import BlockBuilder.
From S2P Require Import Iter.
From S2P Require Import BlockIter.
From S2P Require Import EntryDecode.
From S2P Require Import SstFooter.
From S2P Require Import SstBuilder.
From S2P Require Import SstBuilderCorrect.
From S2P Require Import IndexTreeIter.
From S2P Require Import SstIter.
From S2P Require Import ConcatIter.
From S2P Require Import MergeIter.
From S2P Require Import TwoMergeIter.
From S2P Require Import MemTable.
From S2P Require Import LsmScan.
From S2P Require Import DiskManager.
From S2P Require Import LsmStore.
From S2P Require Import LsmRefine.
From S2P Require Import LsmTheorems.

(** [LsmEngineOption]; the data directory is the [DiskManager]'s file map. *)
Record LsmEngineOption := mkLsmEngineOption {
  eo_data_dir : string;
  eo_block_size : nat;
  eo_flush_threads : nat;
  eo_compaction_threads : nat;
  eo_flush_interval_ms : Z;
}.

Definition lsm_engine_option_default : LsmEngineOption :=
  mkLsmEngineOption "./data" (Z.to_nat 4096) 2 2 10000.

(** [TableOption]. *)
Inductive TableOption := TableLsmTree (o : LsmTableOption).

(** [LsmEngine]: [le_sweeping] is whether the flush scheduler is set. *)
Record LsmEngine (M W : Type) := mkLsmEngine {
  le_option : LsmEngineOption;
  le_disk : DiskManager;
  le_shards : gmap Z (LsmStore M W);
  le_sweeping : bool;
}.
Arguments mkLsmEngine {M W} _ _ _ _.
Arguments le_option {M W} _.
Arguments le_disk {M W} _.
Arguments le_shards {M W} _.
Arguments le_sweeping {M W} _.

Section Ops.
Context {M W : Type} `{OrderedMap M} `{WalStore W}.

(** [LsmEngine::new] over a directory with the given files. *)
Definition lsm_engine_new (files : gmap Z bytes) (option : LsmEngineOption) : LsmEngine M W :=
  mkLsmEngine option (disk_manager_new files (eo_block_size option)) ∅ false.

(** [LsmEngine::acquire]. *)
Definition acquire (self : LsmEngine M W) (shard_id : Z) : StorageResult (LsmStore M W) :=
  ok_or (NotFound ("shard " +:+ pretty shard_id)) (le_shards self !! shard_id).

(** [StorageEngine::init]. *)
Definition engine_init (self : LsmEngine M W) : StorageResult unit * LsmEngine M W :=
  if le_sweeping self then (Ok tt, self)
  else (Ok tt, mkLsmEngine (le_option self) (le_disk self) (le_shards self) true).

Definition put_shard (self : LsmEngine M W) (shard_id : Z) (sd : LsmStore M W * DiskManager) : LsmEngine M W :=
  mkLsmEngine (le_option self) sd.2 (<[shard_id := sd.1]> (le_shards self)) (le_sweeping self).

(** One shard of the sweep: errors are dropped. *)
Definition sweep_shard (devs : Z -> Device) (self : LsmEngine M W) (shard_id : Z) : LsmEngine M W :=
  match le_shards self !! shard_id with
  | None => self
  | Some store => put_shard self shard_id (flush_oldest_imm store (le_disk self) (devs shard_id)).2
  end.

(** The sweep the scheduler runs: [shards.iter()] visits the shards in an
    order of its own. *)
Definition sweep (devs : Z -> Device) (order : list Z) (self : LsmEngine M W) : LsmEngine M W :=
  foldl (sweep_shard devs) self order.

(** [StorageEngine::create_shard]. *)
Definition create_shard (self : LsmEngine M W) (shard_id : Z) (table_option : TableOption) (wal_store : W)
  : StorageResult unit * LsmEngine M W :=
  let '(TableLsmTree opt) := table_option in
  let shards :=
    match le_shards self !! shard_id with
    | Some _ => le_shards self
    | None => <[shard_id := lsm_store_new opt shard_id wal_store]> (le_shards self)
    end in
  (Ok tt, mkLsmEngine (le_option self) (le_disk self) shards (le_sweeping self)).

(** [StorageEngine::write]. *)
Definition engine_write (self : LsmEngine M W) (dev : Device) (shard_id : Z) (batch : WriteBatch)
  : StorageResult unit * LsmEngine M W :=
  match acquire self shard_id with
  | Ok store =>
      let '(r, sd) := store_write store (le_disk self) dev batch in (r, put_shard self shard_id sd)
  | Err e => (Err e, self)
  | Panic => (Panic, self)
  end.

(** [StorageEngine::scan]. *)
Definition engine_scan (self : LsmEngine M W) (rounds : nat) (shard_id : Z) (range : Bound * Bound) (reverse : bool) :=
  store <-- acquire self shard_id ;;
  store_scan store (le_disk self) rounds range reverse.
End Ops.

(** ** Shards are isolated *)

Section Isolation.
Context {M W : Type} `{OrderedMapLaws M} `{WalStore W}.

(** A shard stands for an abstract map on the directory [dm]. *)
Definition stands_for (dm : DiskManager) (_ : Z) (store : LsmStore M W) (m : view) : Prop :=
  exists l0s, represents store dm l0s m.

(** The engine has exactly the shards of [views], and each represents its own
    abstract map. *)
Definition engine_represents (self : LsmEngine M W) (views : gmap Z view) : Prop :=
  map_Forall2 (stands_for (le_disk self)) (le_shards self) views.

Lemma engine_represents_shard (self : LsmEngine M W) views id store :
  engine_represents self views -> le_shards self !! id = Some store ->
  exists m, views !! id = Some m /\ stands_for (le_disk self) id store m.
Proof. intros He Hl. specialize (He id). rewrite Hl in He. inversion He; eauto. Qed.

(** Replacing one shard, with the disk its operation left. *)
Lemma put_shard_represents (self : LsmEngine M W) id store' dm' m views :
  engine_represents self views -> disk_grows (le_disk self) dm' -> stands_for dm' id store' m ->
  engine_represents (put_shard self id (store', dm')) (<[id := m]> views).
Proof.
  intros He Hg Hr. apply map_Forall2_insert_2; [done|].
  eapply map_Forall2_impl; [exact He|]. intros id' store m' [l0s Hr']. exists l0s. by eapply represents_disk.
Qed.

(** C14: Writing to one shard through the engine succeeds, updates the abstract
    map of that shard and loses or changes no other shard, although all of them
    write their SSTs through one disk manager: the engine has the same shards as
    before, and the others are the very stores they were. *)
Theorem engine_write_isolated (self : LsmEngine M W) dev id batch views m store wal :
  engine_represents self views -> le_shards self !! id = Some store -> views !! id = Some m ->
  wal_append (st_wal store) (st_shard_id store) batch = (Ok tt, wal) ->
  Forall (fun t => table_fits (dm_block_size (le_disk self)) (mem_layer t))
    (active_mem (st_state (applied store wal batch)) :: imm_memtables (st_state store)) ->
  device_ok dev -> ids_left (le_disk self) ->
  exists self', engine_write self dev id batch = (Ok tt, self')
    /\ engine_represents self' (<[id := spec_write m batch]> views)
    /\ dom (le_shards self') = dom (le_shards self)
    /\ forall other, other <> id -> le_shards self' !! other = le_shards self !! other.
Proof.
  intros He Hl Hm Hw Hfit Hdev Hids.
  destruct (engine_represents_shard _ _ _ _ He Hl) as (m' & Hm' & l0s & Hr). simplify_eq.
  destruct (store_write_ok store (le_disk self) dev batch wal l0s _ Hr Hw Hfit Hdev Hids)
    as (store' & dm' & l0s' & Hs & Hr' & _ & Hg).
  unfold engine_write, acquire. rewrite Hl. cbn [ok_or]. rewrite Hs.
  eexists. split_and!; [done| | |].
  - eapply put_shard_represents; [done|exact Hg|by exists l0s'].
  - by apply dom_insert_lookup_L.
  - intros other Hne. by apply lookup_insert_ne.
Qed.

(** A device that works, or that cannot create the file. *)
Definition device_answers (dev : Device) : Prop := device_ok dev \/ is_Some (dev_create dev).

Lemma flush_id (store : LsmStore M W) dm dev :
  ids_left dm -> (dm_next_sst_id (flush_oldest_imm store dm dev).2.2 <= dm_next_sst_id dm + 1)%Z.
Proof.
  intros Hids. assert ((dm_next_sst_id dm + 1) mod 2 ^ 64 = dm_next_sst_id dm + 1)%Z as Hm
    by (unfold ids_left in Hids; apply Z.mod_small; lia).
  unfold flush_oldest_imm, build_sst_from_memtable, create_sst.
  destruct (last (imm_memtables (st_state store))); [|cbn [fst snd]; lia].
  destruct (dev_create dev); [|destruct (write_memtable _ _ _) as [[? ?]| |]];
    cbn [fst snd dm_next_sst_id store_file]; lia.
Qed.

(** A flush keeps the abstract map, whether it works or not; when the device
    works the oldest immutable memtable is gone. *)
Lemma flush_any (store : LsmStore M W) dm dev l0s m :
  represents store dm l0s m -> ids_left dm -> device_answers dev ->
  (forall t, t ∈ imm_memtables (st_state store) -> table_fits (dm_block_size dm) (mem_layer t)) ->
  exists r (store' : LsmStore M W) dm' l0s', flush_oldest_imm store dm dev = (r, (store', dm'))
    /\ represents store' dm' l0s' m /\ disk_grows dm dm'
    /\ (imm_memtables (st_state store') = imm_memtables (st_state store) /\ ~ device_ok dev
        \/ imm_memtables (st_state store') = removelast (imm_memtables (st_state store)) /\ device_ok dev).
Proof.
  intros Hr Hids Hdev Hfit. destruct (last (imm_memtables (st_state store))) as [oldest|] eqn:Hlast.
  2:{ exists (Ok tt), store, dm, l0s. unfold flush_oldest_imm. rewrite Hlast. split_and!; try done.
      apply last_None in Hlast. rewrite Hlast. destruct Hdev as [Hok|[e He]]; [by right|left]. split; [done|].
      intros [Hc _]. congruence. }
  destruct Hdev as [Hok|[e He]].
  - destruct (flush_ok store dm dev l0s m oldest Hr Hlast) as (s & d & Hf & Hr' & _ & Hi & _ & Hg); try done.
    { apply Hfit. by apply last_Some_elem_of. }
    exists (Ok tt), s, d, (l0s ++ [mem_layer oldest]). split_and!; try done; [apply Hg..|by right].
  - destruct (flush_oldest_imm store dm dev) as [r [s d]] eqn:Hf. exists r, s, d, l0s.
    destruct (flush_fails store dm dev l0s m r s d Hr Hids Hf) as (-> & Hr' & Hg).
    + unfold flush_oldest_imm, build_sst_from_memtable, create_sst in Hf. rewrite Hlast, He in Hf. by simplify_eq.
    + split_and!; try done; try apply Hg. left. split; [done|]. intros [Hc _]. congruence.
Qed.

(** The immutable memtables left after [n] flushes on a device that works. *)
Definition flushed {A} (n : nat) (imm : list A) : list A := take (length imm - n) imm.

Lemma flushed_removelast {A} n (imm : list A) : flushed n (removelast imm) = flushed (S n) imm.
Proof.
  unfold flushed. destruct (last imm) as [x|] eqn:Hl.
  - rewrite (last_snoc_inv _ _ Hl) at 3 4. rewrite length_app. simpl.
    rewrite take_app_le by lia. f_equal. lia.
  - apply last_None in Hl as ->. done.
Qed.

(** What a sweep needs: the device answers, ids are left for its files and the
    immutable memtables fit the SST format. *)
Definition sweepable (devs : Z -> Device) (order : list Z) (self : LsmEngine M W) : Prop :=
  (0 <= dm_next_sst_id (le_disk self))%Z
  /\ (dm_next_sst_id (le_disk self) + Z.of_nat (length order) < 2 ^ 64)%Z
  /\ (forall id, device_answers (devs id))
  /\ (forall id store t, le_shards self !! id = Some store -> t ∈ imm_memtables (st_state store) ->
        table_fits (dm_block_size (le_disk self)) (mem_layer t)).

(** One visit of a shard. *)
Lemma sweep_shard_ok devs id order views (self : LsmEngine M W) :
  engine_represents self views -> sweepable devs (id :: order) self ->
  let self' := sweep_shard devs self id in
  engine_represents self' views /\ sweepable devs order self'
  /\ dom (le_shards self') = dom (le_shards self)
  /\ (forall other, other <> id -> le_shards self' !! other = le_shards self !! other)
  /\ (forall store, device_ok (devs id) -> le_shards self !! id = Some store -> exists store',
        le_shards self' !! id = Some store'
        /\ imm_memtables (st_state store') = removelast (imm_memtables (st_state store))).
Proof.
  intros He (H0n & Hids & Hdev & Hfit). cbn [length] in Hids. cbn zeta. unfold sweep_shard.
  destruct (le_shards self !! id) as [store|] eqn:Hl; [|split_and!; try done; unfold sweepable; split_and!; try done; lia].
  destruct (engine_represents_shard _ _ _ _ He Hl) as (m & Hm & l0s & Hr).
  assert (ids_left (le_disk self)) as Hid by (unfold ids_left; lia).
  destruct (flush_any store (le_disk self) (devs id) l0s m Hr Hid (Hdev id))
    as (r & store' & dm' & l0s' & Hf & Hr' & Hg & Hi); [by intros t; apply (Hfit id store)|].
  pose proof (flush_id store (le_disk self) (devs id) Hid) as Hup. rewrite Hf in Hup |- *. cbn [snd] in *.
  assert (forall t, t ∈ imm_memtables (st_state store') -> t ∈ imm_memtables (st_state store)) as Hsub.
  { destruct Hi as [[-> _]|[-> _]]; [done|]. intros t Ht. destruct (last (imm_memtables (st_state store))) eqn:Hlast.
    - rewrite (last_snoc_inv _ _ Hlast). apply elem_of_app. by left.
    - apply last_None in Hlast. rewrite Hlast in *. done. }
  pose proof Hg as (Hbs & Hnx & _). split_and!.
  - rewrite <- (insert_id views id m) by done. eapply put_shard_represents; [done|exact Hg|by exists l0s'].
  - unfold sweepable, put_shard. cbn [le_disk le_shards fst snd]. split_and!; try done; try lia.
    intros id' s t Hs Ht. rewrite Hbs. apply lookup_insert_Some in Hs as [[<- <-]|[_ Hs]];
      [by apply (Hfit id store); auto|by apply (Hfit id' s)].
  - by apply dom_insert_lookup_L.
  - intros other Hne. by apply lookup_insert_ne.
  - intros s Hok <-%(inj Some). exists store'. split; [apply lookup_insert_eq|].
    destruct Hi as [[_ Hn]|[Hi _]]; [done|exact Hi].
Qed.

(** C15: The background sweep may visit the shards in any order and any number of
    times, on a device that works or that refuses to create files: it loses no
    shard, never changes what a shard represents, leaves the shards it does not
    visit alone, and where the device works every visit of a shard takes its
    oldest immutable memtable off the list until none is left. *)
Theorem sweep_represents devs order views : forall (self : LsmEngine M W),
  engine_represents self views -> sweepable devs order self ->
  let self' := sweep devs order self in
  engine_represents self' views
  /\ dom (le_shards self') = dom (le_shards self)
  /\ (forall id, id ∉ order -> le_shards self' !! id = le_shards self !! id)
  /\ (forall id store, device_ok (devs id) -> le_shards self !! id = Some store -> exists store',
        le_shards self' !! id = Some store'
        /\ imm_memtables (st_state store') = flushed (count_occ Z.eq_dec order id) (imm_memtables (st_state store))).
Proof.
  induction order as [|id order IH]; intros self He Hsw.
  { cbn. split_and!; try done. intros id store _ Hl. exists store. split; [done|]. unfold flushed.
    by rewrite Nat.sub_0_r, firstn_all. }
  destruct (sweep_shard_ok devs id order views self He Hsw) as (He1 & Hsw1 & Hd1 & Ho1 & Hi1).
  destruct (IH _ He1 Hsw1) as (He2 & Hd2 & Ho2 & Hi2). cbn zeta.
  change (sweep devs (id :: order) self) with (sweep devs order (sweep_shard devs self id)).
  split_and!; [done|by rewrite Hd2| |].
  - intros other Hn. apply not_elem_of_cons in Hn as [Hne Hn]. by rewrite Ho2, Ho1.
  - intros other store Hok Hl. cbn [count_occ]. destruct (Z.eq_dec id other) as [<-|Hne].
    + destruct (Hi1 store Hok Hl) as (s1 & Hs1 & Hr1). destruct (Hi2 id s1 Hok Hs1) as (s2 & Hs2 & Hr2).
      exists s2. split; [done|]. by rewrite Hr2, Hr1, flushed_removelast.
    + apply Hi2; [done|]. by rewrite Ho1.
Qed.
End Isolation.

(** Reads and writes of a shard that was never created fail with
    [NotFound] and change nothing; creating an existing shard changes nothing. *)
Theorem shard_lifecycle {M W : Type} `{OrderedMap M} `{WalStore W} (self : LsmEngine M W) id :
  match le_shards self !! id with
  | None => (forall dev batch, engine_write self dev id batch = (Err (NotFound ("shard " +:+ pretty id)), self))
            /\ (forall rounds range rev, engine_scan self rounds id range rev = Err (NotFound ("shard " +:+ pretty id)))
            /\ (forall opt wal, exists self', create_shard self id (TableLsmTree opt) wal = (Ok tt, self')
                 /\ acquire self' id = Ok (lsm_store_new opt id wal))
  | Some store => forall opt wal, create_shard self id opt wal = (Ok tt, self)
  end.
Proof.
  destruct (le_shards self !! id) as [store|] eqn:Hl.
  - intros [opt] wal. unfold create_shard. rewrite Hl. by destruct self.
  - unfold engine_write, engine_scan, acquire. rewrite Hl. split_and!; try done.
    intros opt wal. unfold create_shard. rewrite Hl. eexists. split; [done|]. cbn [le_shards].
    by rewrite lookup_insert_eq.
Qed.

(** *** Witnesses *)

Definition demo_engine : LsmEngine SortedAssoc DemoWal :=
  mkLsmEngine lsm_engine_option_default demo_disk1 (<[0%Z := demo_store2]> (<[7%Z := demo_store]> ∅)) true.
Definition demo_views : gmap Z view :=
  <[0%Z := spec_write (spec_write no_view batch1) batch2]> (<[7%Z := no_view]> ∅).

#[local] Opaque demo_store1 demo_disk1.

Lemma demo_engine_represents : engine_represents demo_engine demo_views.
Proof.
  unfold engine_represents. cbn [demo_engine le_shards le_disk]. apply map_Forall2_insert_2.
  { exists [demo_layer1]. exact demo_represents2. }
  apply map_Forall2_insert_2; [|apply map_Forall2_empty].
  exists []. split; [split_and!; [simpl; lia|constructor..]|done].
Qed.

Lemma engine_write_isolated_witness :
  exists self', engine_write demo_engine healthy 7 batch1 = (Ok tt, self')
    /\ engine_represents self' (<[7%Z := spec_write no_view batch1]> demo_views)
    /\ dom (le_shards self') = dom (le_shards demo_engine)
    /\ forall other, other <> 7%Z -> le_shards self' !! other = le_shards demo_engine !! other.
Proof.
  apply (engine_write_isolated demo_engine healthy 7 batch1 demo_views no_view demo_store (mkDemoWal [(0%Z, batch1)])
           demo_engine_represents).
  - cbn [demo_engine le_shards]. rewrite lookup_insert_ne by done. by rewrite lookup_insert_eq.
  - unfold demo_views. rewrite lookup_insert_ne by done. by rewrite lookup_insert_eq.
  - by vm_compute.
  - constructor; [|constructor]. cbn [demo_engine le_disk].
    replace (dm_block_size demo_disk1) with 256 by (vm_compute; reflexivity). table_fits_tac.
  - by split.
  - exact demo_ids1.
Defined.

(** The device of shard 7 is full. *)
Definition demo_devs (id : Z) : Device := if decide (id = 7%Z) then full_device else healthy.

Lemma demo_sweepable : sweepable demo_devs [7%Z; 0%Z; 0%Z] demo_engine.
Proof.
  unfold sweepable. split_and!.
  - vm_compute. discriminate.
  - vm_compute. reflexivity.
  - intros id. unfold demo_devs. case_decide; [right; by eexists|left; by split].
  - intros id store t. cbn [demo_engine le_shards le_disk]. rewrite lookup_insert_Some.
    intros [[<- <-]|[_ Hl]] Ht.
    + assert (imm_memtables (st_state demo_store2) = [demo_oldest]) as Hi by (vm_compute; reflexivity).
      rewrite Hi in Ht. apply list_elem_of_singleton in Ht as ->. exact demo_oldest_fits.
    + rewrite lookup_insert_Some in Hl. destruct Hl as [[<- <-]|[_ Hl]]; [|done]. by apply not_elem_of_nil in Ht.
Qed.

Lemma sweep_represents_witness :
  let self' := sweep demo_devs [7%Z; 0%Z; 0%Z] demo_engine in
  engine_represents self' demo_views
  /\ dom (le_shards self') = dom (le_shards demo_engine)
  /\ (forall id, id ∉ [7%Z; 0%Z; 0%Z] -> le_shards self' !! id = le_shards demo_engine !! id)
  /\ (forall id store, device_ok (demo_devs id) -> le_shards demo_engine !! id = Some store -> exists store',
        le_shards self' !! id = Some store'
        /\ imm_memtables (st_state store')
           = flushed (count_occ Z.eq_dec [7%Z; 0%Z; 0%Z] id) (imm_memtables (st_state store))).
Proof.
  exact (sweep_represents demo_devs [7%Z; 0%Z; 0%Z] demo_views demo_engine demo_engine_represents demo_sweepable).
Defined.
