(* ===== verification/FlushWorker.v ===== *)
(** The background flush thread (flush_worker.rs, flush_scheduler.rs) and the
    way the engine starts it ([LsmEngine::init] in lsm_engine.rs).

    The thread is cut at its loads of the stop flag, its reads of the clock, its
    sleeps and the calls of [flush_fn]. Time is in milliseconds; every step may
    take a delay of its own on top. [flush_fn] is the closure the worker is
    given: it changes the state of its owner and either returns or panics, which
    ends the thread. *)

From stdpp Require Import base list numbers relations.
From S2P Require Import Prelude.

(** The length of one sleep. *)
Definition SLICE : nat := 50.
#[local] Arguments SLICE : simpl never.

(** Where the thread is: at the head of the outer loop, at the call, computing
    the deadline, at the head of the inner loop, at its load of the stop flag, at
    its sleep, or finished. *)
Inductive WorkerPc :=
| KCheck
| KFlush
| KDeadline
| KTest (deadline : nat)
| KPoll (deadline : nat)
| KSleep (deadline : nat)
| KEnd.

(** The thread, its stop flag and what it works on; [wk_flushes] counts the
    calls of [flush_fn]. *)
Record Worker (S : Type) := mkWorker {
  wk_pc : WorkerPc;
  wk_stop : bool;
  wk_clock : nat;
  wk_state : S;
  wk_flushes : nat;
}.
Arguments mkWorker {S} _ _ _ _ _.
Arguments wk_pc {S} _.
Arguments wk_stop {S} _.
Arguments wk_clock {S} _.
Arguments wk_state {S} _.
Arguments wk_flushes {S} _.

Section Worker.
Context {S : Type} (interval : nat) (flush_fn : S -> S * bool).
Implicit Types (w : Worker S) (ds : list nat).

Definition set_pc (pc : WorkerPc) (t : nat) (w : Worker S) : Worker S :=
  mkWorker pc (wk_stop w) (wk_clock w + t) (wk_state w) (wk_flushes w).

(** [FlushWorker::start]: the thread is spawned with the flag clear. *)
Definition worker_start (now : nat) (s : S) : Worker S := mkWorker KCheck false now s 0.

(** [FlushScheduler::start]: a scheduler is its worker. *)
Definition scheduler_start (now : nat) (s : S) : Worker S := worker_start now s.

(** One step of the thread, which takes [delay] (a sleep, its slice more). *)
Definition worker_step (delay : nat) (w : Worker S) : option (Worker S) :=
  match wk_pc w with
  | KCheck => Some (set_pc (if wk_stop w then KEnd else KFlush) delay w)
  | KFlush =>
      let '(s, returned) := flush_fn (wk_state w) in
      Some (mkWorker (if returned then KDeadline else KEnd) (wk_stop w) (wk_clock w + delay) s (wk_flushes w + 1))
  | KDeadline => Some (set_pc (KTest (wk_clock w + interval)) delay w)
  | KTest deadline => Some (set_pc (if decide (wk_clock w < deadline) then KPoll deadline else KCheck) delay w)
  | KPoll deadline => Some (set_pc (if wk_stop w then KCheck else KSleep deadline) delay w)
  | KSleep deadline => Some (set_pc (KTest deadline) (SLICE + delay) w)
  | KEnd => None
  end.

(** [Drop for FlushWorker]: the flag, then the join, which waits for the end. *)
Definition worker_drop (w : Worker S) : Worker S :=
  mkWorker (wk_pc w) true (wk_clock w) (wk_state w) (wk_flushes w).
Definition worker_joinable (w : Worker S) : bool := match wk_pc w with KEnd => true | _ => false end.

(** As many steps as there are delays, or up to the end of the thread. *)
Fixpoint worker_iter (ds : list nat) (w : Worker S) : Worker S :=
  match ds with
  | [] => w
  | d :: ds' => match worker_step d w with Some w' => worker_iter ds' w' | None => w end
  end.

(** ** Stopping *)

(** Steps left once the flag is set. *)
Definition stop_rank (pc : WorkerPc) : nat :=
  match pc with
  | KFlush => 5 | KDeadline => 4 | KSleep _ => 4 | KTest _ => 3 | KPoll _ => 2 | KCheck => 1 | KEnd => 0
  end.

Definition calls_left (pc : WorkerPc) : nat := match pc with KFlush => 1 | _ => 0 end.
Definition slices_left (pc : WorkerPc) : nat := match pc with KSleep _ => SLICE | _ => 0 end.

Lemma worker_step_stop d w w' :
  wk_stop w = true -> worker_step d w = Some w' ->
  wk_stop w' = true /\ stop_rank (wk_pc w') < stop_rank (wk_pc w)
  /\ wk_flushes w' + calls_left (wk_pc w') <= wk_flushes w + calls_left (wk_pc w)
  /\ wk_clock w' + slices_left (wk_pc w') <= wk_clock w + slices_left (wk_pc w) + d.
Proof.
  intros Hs. unfold worker_step. destruct (wk_pc w) eqn:Hpc; rewrite ?Hs; intros Hw; simplify_eq; cbn;
    try (split_and!; [done|lia..]).
  - destruct (flush_fn (wk_state w)) as [s []]; simplify_eq; cbn; (split_and!; [done|lia..]).
  - case_decide; cbn; (split_and!; [done|lia..]).
Qed.

Lemma worker_iter_stop ds : forall w,
  wk_stop w = true -> stop_rank (wk_pc w) <= length ds ->
  let w' := worker_iter ds w in
  worker_joinable w' = true /\ wk_flushes w' <= wk_flushes w + calls_left (wk_pc w)
  /\ wk_clock w' <= wk_clock w + slices_left (wk_pc w) + sum_list ds.
Proof.
  induction ds as [|d ds IH]; intros w Hs Hr; cbn in *.
  - unfold worker_joinable. destruct (wk_pc w) eqn:Hpc; cbn in Hr; lia.
  - destruct (worker_step d w) as [w'|] eqn:Hw.
    + destruct (worker_step_stop d w w' Hs Hw) as (Hs' & Hr' & Hf & Hc).
      destruct (IH w' Hs') as (Hj & Hf' & Hc'); [lia|]. split_and!; [done|lia..].
    + unfold worker_joinable. unfold worker_step in Hw. destruct (wk_pc w); try done; [|split_and!; [done|lia..]].
      by destruct (flush_fn (wk_state w)).
Qed.

(** C16: Dropping the worker ends its thread: whatever the thread was doing and
    however long its steps take, within five of its steps it can be joined, after
    at most one more call of [flush_fn] (none unless it was about to make one)
    and at most one sleep slice. *)
Theorem worker_stops w ds :
  5 <= length ds ->
  let w' := worker_iter ds (worker_drop w) in
  worker_joinable w' = true
  /\ wk_flushes w' <= wk_flushes w + 1 /\ (wk_pc w <> KFlush -> wk_flushes w' <= wk_flushes w)
  /\ wk_clock w' <= wk_clock w + SLICE + sum_list ds.
Proof.
  intros Hd. destruct (worker_iter_stop ds (worker_drop w) eq_refl) as (Hj & Hf & Hc).
  { cbn. destruct (wk_pc w); cbn; lia. }
  cbn in *. split_and!; [done| | |].
  - destruct (wk_pc w); cbn in *; lia.
  - intros Hn. destruct (wk_pc w); cbn in *; done || lia.
  - destruct (wk_pc w); cbn in *; lia.
Qed.

(** ** Sweeping *)

Lemma worker_iter_app ds1 : forall ds2 w,
  (forall d, worker_step d (worker_iter ds1 w) <> None \/ ds2 = []) ->
  worker_iter (ds1 ++ ds2) w = worker_iter ds2 (worker_iter ds1 w).
Proof.
  induction ds1 as [|d ds1 IH]; intros ds2 w Hn; [done|]. cbn in *.
  destruct (worker_step d w) as [w'|] eqn:Hw; [by apply IH|].
  destruct ds2 as [|d2 ds2]; [done|]. destruct (Hn d); congruence.
Qed.

Lemma worker_iter_step d ds w w' : worker_step d w = Some w' -> worker_iter (d :: ds) w = worker_iter ds w'.
Proof. intros Hw. cbn. by rewrite Hw. Qed.

(** The inner loop ends, not before the deadline. *)
Lemma inner_loop k : forall w deadline ds,
  wk_stop w = false -> wk_pc w = KTest deadline -> deadline <= wk_clock w + SLICE * k -> 3 * k + 1 <= length ds ->
  exists m, m <= 3 * k + 1 /\ let w' := worker_iter (take m ds) w in
    wk_pc w' = KCheck /\ wk_stop w' = false /\ wk_flushes w' = wk_flushes w /\ wk_state w' = wk_state w
    /\ deadline <= wk_clock w'.
Proof.
  induction k as [|k IH]; intros w deadline ds Hs Hpc Hd Hl.
  - destruct ds as [|d ds]; cbn in Hl; [lia|]. exists 1. split; [lia|]. cbn. unfold worker_step. rewrite Hpc.
    rewrite decide_False by lia. rewrite take_0. cbn. split_and!; try done. lia.
  - destruct (decide (wk_clock w < deadline)) as [Hlt|Hge].
    2:{ destruct ds as [|d ds]; cbn in Hl; [lia|]. exists 1. split; [lia|]. cbn. unfold worker_step. rewrite Hpc.
        rewrite decide_False by done. rewrite take_0. cbn. split_and!; try done. lia. }
    destruct ds as [|d1 [|d2 [|d3 ds]]]; cbn in Hl; try lia.
    set (w1 := set_pc (KTest deadline) (SLICE + d3) (set_pc (KSleep deadline) d2 (set_pc (KPoll deadline) d1 w))).
    destruct (IH w1 deadline ds) as (m & Hm & Hw); [done|done|cbn; lia|lia|].
    exists (3 + m). split; [lia|]. cbn [take Nat.add].
    rewrite (worker_iter_step d1 _ w (set_pc (KPoll deadline) d1 w))
      by (unfold worker_step; by rewrite Hpc, decide_True by done).
    rewrite (worker_iter_step d2 _ _ (set_pc (KSleep deadline) d2 (set_pc (KPoll deadline) d1 w)))
      by (unfold worker_step; cbn; by rewrite Hs).
    rewrite (worker_iter_step d3 _ _ w1) by done. exact Hw.
Qed.

(** While the flag is clear and [flush_fn] returns, the thread calls it again:
    within a number of steps set by the interval, and not before the interval
    has passed. *)
Theorem worker_sweeps_again w s ds :
  wk_pc w = KFlush -> wk_stop w = false -> flush_fn (wk_state w) = (s, true) ->
  3 * (interval / SLICE + 1) + 4 <= length ds ->
  exists m, m <= 3 * (interval / SLICE + 1) + 4 /\ let w' := worker_iter (take m ds) w in
    wk_pc w' = KFlush /\ wk_flushes w' = wk_flushes w + 1 /\ wk_state w' = s
    /\ wk_clock w + interval <= wk_clock w'.
Proof.
  intros Hpc Hs Hf Hl. destruct ds as [|d1 [|d2 ds]]; cbn in Hl; try lia.
  set (w1 := mkWorker KDeadline (wk_stop w) (wk_clock w + d1) s (wk_flushes w + 1)).
  set (deadline := wk_clock w + d1 + interval).
  set (w2 := set_pc (KTest deadline) d2 w1).
  assert (interval < SLICE * (interval / SLICE + 1)) as Hk.
  { pose proof (Nat.mul_succ_div_gt interval SLICE). unfold SLICE in *. lia. }
  destruct (inner_loop (interval / SLICE + 1) w2 deadline ds) as (m & Hm & Hw);
    [done|done|cbn; unfold deadline; lia|lia|].
  destruct Hw as (Hp & Hst & Hfl & Hss & Hdl).
  destruct (ds !! m) as [d|] eqn:Hdm; [|apply lookup_ge_None in Hdm; lia].
  exists (2 + (m + 1)). split; [lia|]. cbn [take Nat.add].
  rewrite (worker_iter_step d1 _ w w1) by (unfold worker_step; by rewrite Hpc, Hf).
  rewrite (worker_iter_step d2 _ w1 w2) by done.
  replace (m + 1) with (Datatypes.S m) by lia. rewrite (take_S_r _ _ _ Hdm).
  rewrite worker_iter_app by (intros d0; left; unfold worker_step; by rewrite Hp).
  rewrite (worker_iter_step d _ _ (set_pc KFlush d (worker_iter (take m ds) w2)))
    by (unfold worker_step; by rewrite Hp, Hst).
  cbn. split_and!; [done|by rewrite Hfl|by rewrite Hss|]. unfold deadline in Hdl. lia.
Qed.
End Worker.

(** ** Who stops the engine's worker *)

Section Engine.
Context {S : Type} (interval : nat) (flush_fn : S -> S * bool).

(** A started engine: [rf_handles] strong references besides the one the sweep
    closure keeps until its thread ends. *)
Record Started := mkStarted { rf_handles : nat; rf_worker : Worker S }.

Definition strong (e : Started) : nat := rf_handles e + if worker_joinable (rf_worker e) then 0 else 1.

(** Without a reference left the engine is dropped, and its scheduler with it. *)
Definition release (e : Started) : Started :=
  if decide (strong e = 0) then mkStarted (rf_handles e) (worker_drop (rf_worker e)) else e.

Inductive started_step (e : Started) : Started -> Prop :=
| started_run delay w :
    worker_step interval flush_fn delay (rf_worker e) = Some w ->
    started_step e (release (mkStarted (rf_handles e) w))
| started_clone : 0 < rf_handles e -> started_step e (mkStarted (rf_handles e + 1) (rf_worker e))
| started_drop : 0 < rf_handles e -> started_step e (release (mkStarted (rf_handles e - 1) (rf_worker e))).

(** The thread is not told to stop while it runs. *)
Definition unstopped (e : Started) : Prop :=
  wk_stop (rf_worker e) = true -> worker_joinable (rf_worker e) = true.

Lemma release_unstopped e : unstopped e -> unstopped (release e).
Proof.
  unfold release, unstopped, strong. intros Hu. case_decide as Hs; [|done]. cbn. intros _.
  change (worker_joinable (rf_worker e) = true). by destruct (worker_joinable (rf_worker e)); [|lia].
Qed.

Lemma started_unstopped e e' : unstopped e -> started_step e e' -> unstopped e'.
Proof.
  intros Hu [delay w Hw|_|_]; [|done|by apply release_unstopped]. apply release_unstopped. unfold unstopped in *. cbn.
  intros Hs. exfalso. assert (wk_stop w = wk_stop (rf_worker e)) as Hsw.
  { unfold worker_step in Hw. destruct (wk_pc (rf_worker e)); try (by simplify_eq).
    by destruct (flush_fn _); simplify_eq. }
  rewrite Hsw in Hs. apply Hu in Hs. unfold worker_joinable in Hs. unfold worker_step in Hw.
  by destruct (wk_pc (rf_worker e)).
Qed.

(** The sweep closure owns a reference to the engine that owns the worker, so
    no sequence of clones and drops of the engine stops the thread: it sweeps
    until [flush_fn] panics. *)
Theorem engine_never_stops_sweeping now s handles e :
  (forall s', (flush_fn s').2 = true) ->
  rtc started_step (mkStarted handles (scheduler_start now s)) e ->
  wk_stop (rf_worker e) = false /\ worker_joinable (rf_worker e) = false.
Proof.
  intros Hok Hr.
  assert (unstopped e /\ worker_joinable (rf_worker e) = false) as [Hu Hj].
  { remember (mkStarted handles (scheduler_start now s)) as e0 eqn:He0.
    assert (unstopped e0 /\ worker_joinable (rf_worker e0) = false) as Hi by (by subst).
    clear He0. induction Hr as [e0|e0 e1 e2 Hs _ IH]; [done|]. apply IH. destruct Hi as [Hu Hj].
    split; [by eapply started_unstopped|].
    assert (forall h w, worker_joinable w = false -> worker_joinable (rf_worker (release (mkStarted h w))) = false) as Hrel.
    { intros h w Hw. unfold release. by case_decide. }
    destruct Hs as [delay w Hw|_|_]; [apply Hrel|done|by apply Hrel].
    unfold worker_joinable in *. unfold worker_step in Hw.
    destruct (wk_pc (rf_worker e0)) eqn:Hpc; try done; simplify_eq; cbn; try done.
    - destruct (wk_stop (rf_worker e0)) eqn:Hst; [|done]. specialize (Hu Hst). unfold worker_joinable in Hu. by rewrite Hpc in Hu.
    - pose proof (Hok (wk_state (rf_worker e0))). destruct (flush_fn (wk_state (rf_worker e0))) as [? []]; by simplify_eq.
    - by case_decide.
    - by destruct (wk_stop (rf_worker e0)). }
  split; [|done]. destruct (wk_stop (rf_worker e)) eqn:Hst; [|done]. by rewrite (Hu Hst) in Hj.
Qed.
End Engine.

(** ** Starting it once *)

(** Where a call of [LsmEngine::init] is: at its check, at the start of a
    scheduler, at [OnceLock::set] with scheduler [k], dropping a scheduler that
    lost, or returned. *)
Inductive InitPc := ICheck | IStart | ISet (k : nat) | ILose (k : nat) | IDone.

(** The [OnceLock], the stop flags of the workers started, and the calls. *)
Record InitSys := mkInitSys { in_once : option nat; in_stops : list bool; in_calls : list InitPc }.

Definition init_step (once : option nat) (stops : list bool) (pc : InitPc) : option (option nat * list bool * InitPc) :=
  match pc with
  | ICheck => Some (once, stops, match once with Some _ => IDone | None => IStart end)
  | IStart => Some (once, stops ++ [false], ISet (length stops))
  | ISet k => match once with
              | None => Some (Some k, stops, IDone)
              | Some _ => Some (once, stops, ILose k)
              end
  | ILose k => Some (once, <[k := true]> stops, IDone)
  | IDone => None
  end.

Inductive init_steps (s : InitSys) : InitSys -> Prop :=
| init_one i pc once stops pc' :
    in_calls s !! i = Some pc -> init_step (in_once s) (in_stops s) pc = Some (once, stops, pc') ->
    init_steps s (mkInitSys once stops (<[i := pc']> (in_calls s))).

(** The scheduler a call holds. *)
Definition init_owns (pc : InitPc) : option nat := match pc with ISet k | ILose k => Some k | _ => None end.
Definition init_past (pc : InitPc) : bool := match pc with ILose _ | IDone => true | _ => false end.

(** A running worker is the one that was set or in the hands of one call, and a
    call that lost or returned leaves one set. *)
Record init_inv (s : InitSys) : Prop := {
  ii_run k : in_stops s !! k = Some false ->
    in_once s = Some k \/ exists i pc, in_calls s !! i = Some pc /\ init_owns pc = Some k;
  ii_own i pc k : in_calls s !! i = Some pc -> init_owns pc = Some k ->
    in_once s <> Some k /\ in_stops s !! k = Some false;
  ii_one i j pc pc' k : in_calls s !! i = Some pc -> in_calls s !! j = Some pc' ->
    init_owns pc = Some k -> init_owns pc' = Some k -> i = j;
  ii_once k : in_once s = Some k -> in_stops s !! k = Some false;
  ii_past i pc : in_calls s !! i = Some pc -> init_past pc = true -> is_Some (in_once s);
}.

Lemma insert_cases {A} (l : list A) i x j y :
  <[i := x]> l !! j = Some y -> j = i /\ y = x \/ j <> i /\ l !! j = Some y.
Proof. intros [(-> & -> & _)|[? ?]]%list_lookup_insert_Some; auto. Qed.

(** A step that leaves the workers alone and gives call [i] no scheduler it did
    not hold. *)
Lemma init_inv_move s i pc pc' once :
  init_inv s -> in_calls s !! i = Some pc ->
  (init_owns pc' = init_owns pc /\ once = in_once s
   \/ init_owns pc' = None /\ in_once s = None /\ once = init_owns pc /\ is_Some once) ->
  (init_past pc' = true -> is_Some once) ->
  init_inv (mkInitSys once (in_stops s) (<[i := pc']> (in_calls s))).
Proof.
  intros [Hr Ho H1 Hs Hp] Hi Hm Hpast.
  assert (<[i := pc']> (in_calls s) !! i = Some pc') as Hn by (by apply list_lookup_insert_eq; eapply lookup_lt_Some).
  assert (forall j, j <> i -> <[i := pc']> (in_calls s) !! j = in_calls s !! j) as Hne
    by (intros j Hj; by apply list_lookup_insert_ne).
  split; cbn.
  - intros k Hk. destruct Hm as [[Hw ->]|(Hw & Hno & -> & _)].
    + destruct (Hr k Hk) as [|(j & q & Hj & Hq)]; [by left|right].
      destruct (decide (j = i)) as [->|Hji]; [exists i, pc'; split; [done|]; congruence|].
      exists j, q. by rewrite Hne.
    + destruct (Hr k Hk) as [|(j & q & Hj & Hq)]; [congruence|].
      destruct (decide (j = i)) as [->|Hji]; [left; congruence|right; exists j, q; by rewrite Hne].
  - intros j q k [[-> ->]|[Hji Hj]]%insert_cases Hq; destruct Hm as [[Hw ->]|(Hw & Hno & -> & _)].
    + apply (Ho i pc); [done|congruence].
    + congruence.
    + by apply (Ho j q).
    + split; [|by apply (Ho j q)]. intros Hpk. destruct Hji. by eapply H1.
  - intros j j' q q' k [[-> ->]|[Hji Hj]]%insert_cases [[-> ->]|[Hji' Hj']]%insert_cases Hq Hq'; try done;
      destruct Hm as [[Hw ->]|(Hw & Hno & -> & _)]; try congruence.
    + apply (H1 i j' pc q' k); try done. congruence.
    + apply (H1 j i q pc k); try done. congruence.
    + by apply (H1 j j' q q' k).
    + by apply (H1 j j' q q' k).
  - intros k Hk. destruct Hm as [[Hw ->]|(Hw & Hno & -> & _)]; [by apply Hs|]. by apply (Ho i pc).
  - intros j q [[-> ->]|[Hji Hj]]%insert_cases Hq; [by apply Hpast|]. destruct Hm as [[_ ->]|(_ & _ & _ & ?)]; [by eapply Hp|done].
Qed.

(** Starting a scheduler. *)
Lemma init_inv_start s i :
  init_inv s -> in_calls s !! i = Some IStart ->
  init_inv (mkInitSys (in_once s) (in_stops s ++ [false]) (<[i := ISet (length (in_stops s))]> (in_calls s))).
Proof.
  intros Hv Hi. destruct Hv as [Hr Ho H1 Hs Hp].
  assert (forall k, k <> length (in_stops s) -> (in_stops s ++ [false]) !! k = in_stops s !! k) as Hold.
  { intros k Hk. destruct (decide (k < length (in_stops s))); [by apply lookup_app_l|].
    rewrite lookup_app_r by lia. rewrite (lookup_ge_None_2 (in_stops s)) by lia. apply lookup_ge_None_2. cbn. lia. }
  assert (forall k, in_stops s !! k = Some false -> k < length (in_stops s)) as Hlt.
  { intros k Hk. by eapply lookup_lt_Some. }
  split; cbn.
  - intros k Hk. destruct (decide (k = length (in_stops s))) as [->|Hne].
    + right. exists i, (ISet (length (in_stops s))). split; [|done]. by apply list_lookup_insert_eq; eapply lookup_lt_Some.
    + rewrite Hold in Hk by done. destruct (Hr k Hk) as [|(j & q & Hj & Hq)]; [by left|right]. exists j, q.
      rewrite list_lookup_insert_ne; [done|]. intros <-. by simplify_eq.
  - intros j q k [[-> ->]|[Hji Hj]]%insert_cases Hq; cbn in Hq; simplify_eq.
    + split; [intros Hk%Hs%Hlt; lia|]. by rewrite lookup_app_r, Nat.sub_diag by lia.
    + destruct (Ho j q k Hj Hq) as [? Hk]. split; [done|]. rewrite Hold; [done|]. apply Hlt in Hk. lia.
  - intros j j' q q' k [[-> ->]|[Hji Hj]]%insert_cases [[-> ->]|[Hji' Hj']]%insert_cases Hq Hq'; cbn in *; simplify_eq; try done.
    + destruct (Ho j' q' _ Hj' Hq') as [_ Hk%Hlt]. lia.
    + destruct (Ho j q _ Hj Hq) as [_ Hk%Hlt]. lia.
    + by eapply H1.
  - intros k Hk. apply Hs in Hk as Hk'. rewrite Hold; [done|]. apply Hlt in Hk'. lia.
  - intros j q [[-> ->]|[Hji Hj]]%insert_cases Hq; [done|]. by eapply Hp.
Qed.

(** Dropping one that lost. *)
Lemma init_inv_lose s i k :
  init_inv s -> in_calls s !! i = Some (ILose k) ->
  init_inv (mkInitSys (in_once s) (<[k := true]> (in_stops s)) (<[i := IDone]> (in_calls s))).
Proof.
  intros Hv Hi. destruct Hv as [Hr Ho H1 Hs Hp].
  destruct (Ho i (ILose k) k Hi eq_refl) as [Hnk Hk].
  split; cbn.
  - intros k' Hk'. apply list_lookup_insert_Some in Hk' as [(_ & ? & _)|[Hne Hk']]; [done|].
    destruct (Hr k' Hk') as [|(j & q & Hj & Hq)]; [by left|right]. exists j, q.
    rewrite list_lookup_insert_ne; [done|]. intros <-. simplify_eq; cbn in Hq; congruence.
  - intros j q k' [[-> ->]|[Hji Hj]]%insert_cases Hq; [done|]. destruct (Ho j q k' Hj Hq) as [? ?]. split; [done|].
    rewrite list_lookup_insert_ne; [done|]. intros ->. destruct Hji. by eapply H1.
  - intros j j' q q' k' [[-> ->]|[Hji Hj]]%insert_cases [[-> ->]|[Hji' Hj']]%insert_cases Hq Hq'; try done. by eapply H1.
  - intros k' Hk'. rewrite list_lookup_insert_ne by congruence. by apply Hs.
  - intros j q [[-> ->]|[Hji Hj]]%insert_cases Hq; [by eapply (Hp i)|by eapply Hp].
Qed.

Lemma init_steps_inv s s' : init_inv s -> init_steps s s' -> init_inv s'.
Proof.
  intros Hv [i pc once stops pc' Hi Hst]. destruct pc as [| |k|k|]; cbn in Hst.
  - simplify_eq. eapply init_inv_move; [done|done|left; by destruct (in_once s)|]. by destruct (in_once s).
  - simplify_eq. by apply init_inv_start.
  - destruct (in_once s) eqn:Hon; simplify_eq; rewrite <- ?Hon.
    + eapply init_inv_move; [done|done|by left|]. by rewrite Hon.
    + eapply init_inv_move; [done|done|right; by split_and!|done].
  - simplify_eq. by apply init_inv_lose.
  - done.
Qed.

(** C17: However calls of [init] interleave on an engine without a scheduler, once
    all of them have returned exactly one worker runs, the one in the
    [OnceLock]: a second worker a race starts is stopped again. *)
Theorem one_sweeper n s :
  rtc init_steps (mkInitSys None [] (replicate (S n) ICheck)) s ->
  Forall (eq IDone) (in_calls s) ->
  exists k, in_once s = Some k /\ forall k', in_stops s !! k' = Some false <-> k' = k.
Proof.
  intros Hr Hd.
  assert (init_inv (mkInitSys None [] (replicate (S n) ICheck))) as Hi.
  { split; cbn [in_once in_stops in_calls]; [done| | |done|]; intros i; intros.
    all: repeat match goal with Hx : replicate _ _ !! _ = Some _ |- _ => apply lookup_replicate in Hx as [-> _] end; done. }
  assert (init_inv s /\ length (in_calls s) = S n) as [Hv Hlen].
  { assert (length (in_calls (mkInitSys None [] (replicate (S n) ICheck))) = S n) as Hl by (cbn; by rewrite length_replicate).
    revert Hi Hl. clear Hd. induction Hr as [s|s1 s2 s3 Hst _ IH]; intros Hi Hl; [done|].
    apply IH; [by eapply init_steps_inv|]. destruct Hst. cbn. by rewrite length_insert. }
  destruct (in_calls s) as [|c cs] eqn:Hcs; [done|]. apply Forall_cons in Hd as Hd'. destruct Hd' as [<- _].
  destruct (ii_past _ Hv 0 IDone) as [k Hk]; [by rewrite Hcs|done|]. exists k. split; [done|]. intros k'. split.
  - intros Hk'. destruct (ii_run _ Hv k' Hk') as [|(i & pc & Hpc & Hown)]; [congruence|].
    rewrite Hcs in Hpc. pose proof (Forall_lookup_1 _ _ _ _ Hd Hpc). by subst.
  - intros ->. by apply (ii_once _ Hv).
Qed.

(** *** Witnesses *)

(** A worker that counts its sweeps, dropped while it is about to flush. *)
Definition counting (n : nat) : nat * bool := (S n, true).
Definition busy : Worker nat := mkWorker KFlush false 1000 7 7.
Definition delays : list nat := [3; 0; 12; 1; 0; 5].

Lemma worker_stops_witness :
  let w' := worker_iter 200 counting delays (worker_drop busy) in
  wk_state w' = 8 /\ worker_joinable w' = true
  /\ wk_flushes w' <= wk_flushes busy + 1 /\ (wk_pc busy <> KFlush -> wk_flushes w' <= wk_flushes busy)
  /\ wk_clock w' <= wk_clock busy + SLICE + sum_list delays.
Proof.
  split; [vm_compute; reflexivity|]. apply (worker_stops 200 counting busy delays). cbn. lia.
Defined.

(** Two calls of [init] that both pass the check. *)
Definition raced : InitSys := mkInitSys (Some 0) [false; true] [IDone; IDone].

Lemma raced_reachable : rtc init_steps (mkInitSys None [] (replicate 2 ICheck)) raced.
Proof.
  do 7 (eapply rtc_l; [first
    [ by eapply (init_one _ 0 ICheck) | by eapply (init_one _ 1 ICheck) | by eapply (init_one _ 0 IStart)
    | by eapply (init_one _ 1 IStart) | by eapply (init_one _ 0 (ISet 0)) | by eapply (init_one _ 1 (ISet 1))
    | by eapply (init_one _ 1 (ILose 1)) ]|]).
  apply rtc_refl.
Qed.

Lemma one_sweeper_witness :
  exists k, in_once raced = Some k /\ forall k', in_stops raced !! k' = Some false <-> k' = k.
Proof. apply (one_sweeper 1 raced raced_reachable). by repeat constructor. Defined.
