(* ===== verification/LsmConc.v ===== *)
(** The per-shard store used by several threads (lsm_store.rs).

    [LsmStore] reads [write] and [flush_oldest_imm] as one step each. Here they
    are cut at every point where another thread can intervene: the log append,
    the snapshot of the state, the two atomic operations of every insertion
    into a memtable, the write-locked switch and installation, and the flush
    lock. Memtables are shared: a snapshot refers to them by position in
    [sh_mems], so a thread that kept an old snapshot still writes to the table
    it names. Building an SST is one step; it reads a table that writers have
    left unless one of them kept an old snapshot. The skip list's insertion is
    one step; [LsmConcSnapshot] and [MemLive] look inside it: an overwrite removes
    the old entry first, which readers can see. *)

From stdpp Require Import base list numbers strings sorting gmap.
From S2P Require Import Prelude.
From S2P Require Import Errors.
From S2P Require Import Iter.
From S2P Require Import MemTable.
From S2P Require Import DiskManager.
From S2P Require Import LsmStore.
From S2P Require Import LsmRefine.
From S2P Require Import LsmEngine.

(** [Arc<LsmState>]: never modified, only replaced. *)
Record Snapshot := mkSnapshot {
  sn_active : nat;
  sn_imms : list nat;
  sn_levels : list LevelMeta;
}.

(** What the threads of a store share. *)
Record Shared (M W : Type) := mkShared {
  sh_mems : list (MemTable M);
  sh_state : Snapshot;
  sh_wal : W;
  sh_disk : DiskManager;
  sh_flush_lock : bool;
}.
Arguments mkShared {M W} _ _ _ _ _.
Arguments sh_mems {M W} _.
Arguments sh_state {M W} _.
Arguments sh_wal {M W} _.
Arguments sh_disk {M W} _.
Arguments sh_flush_lock {M W} _.

(** Where a call of [flush_oldest_imm] is. *)
Inductive FlushPc :=
| FLock
| FSnapshot
| FBuild (oldest : nat)
| FInstall (meta : SstMeta)
| FUnlock (r : StorageResult unit)
| FDone (r : StorageResult unit).

(** Where a call of [write] is: [active] is the table of its snapshot. *)
Inductive WritePc :=
| WAppend (batch : WriteBatch)
| WSnapshot (batch : WriteBatch)
| WInsert (active : nat) (rest : list WriteEntry)
| WStore (active : nat) (e : WriteEntry) (rest : list WriteEntry)
| WCheck (active : nat)
| WSwitch
| WCount
| WFlush (pc : FlushPc)
| WDone (r : StorageResult unit).

Inductive Thread := Writer (pc : WritePc) | Sweeper (pc : FlushPc).

(** What a step shows: a batch in the log, or an entry in a memtable and
    whether that table was still the active one. *)
Inductive Event := Logged (batch : WriteBatch) | Inserted (e : WriteEntry) (live : bool).

Record Sys (M W : Type) := mkSys { sys_shared : Shared M W; sys_threads : list Thread }.
Arguments mkSys {M W} _ _.
Arguments sys_shared {M W} _.
Arguments sys_threads {M W} _.

Section Ops.
Context {M W : Type} `{OrderedMap M} `{WalStore W} (opt : LsmTableOption) (shard_id : Z).

Definition set_sn (sn : Snapshot) (sh : Shared M W) : Shared M W :=
  mkShared (sh_mems sh) sn (sh_wal sh) (sh_disk sh) (sh_flush_lock sh).
Definition set_disk (dm : DiskManager) (sh : Shared M W) : Shared M W :=
  mkShared (sh_mems sh) (sh_state sh) (sh_wal sh) dm (sh_flush_lock sh).
Definition set_lock (b : bool) (sh : Shared M W) : Shared M W :=
  mkShared (sh_mems sh) (sh_state sh) (sh_wal sh) (sh_disk sh) b.
Definition set_log (w : W) (sh : Shared M W) : Shared M W :=
  mkShared (sh_mems sh) (sh_state sh) w (sh_disk sh) (sh_flush_lock sh).
Definition set_mems (ms : list (MemTable M)) (sh : Shared M W) : Shared M W :=
  mkShared ms (sh_state sh) (sh_wal sh) (sh_disk sh) (sh_flush_lock sh).

Definition get_mem (sh : Shared M W) (i : nat) : MemTable M := default memtable_new (sh_mems sh !! i).

(** The two atomic operations of [MemTable::put] and [delete]. *)
Definition count_entry (e : WriteEntry) (t : MemTable M) : MemTable M :=
  mkMemTable (mt_map t)
    (mt_memory_size t + match e with WPut k v => length k + length v | WDelete k => length k end).

Definition store_entry (e : WriteEntry) (t : MemTable M) : MemTable M :=
  mkMemTable (match e with WPut k v => om_insert k (Put v) (mt_map t)
                      | WDelete k => om_insert k Delete (mt_map t) end)
    (mt_memory_size t).

(** One step of [flush_oldest_imm]; the guard of the flush lock is dropped on
    every way out. *)
Definition flush_step (dev : Device) (sh : Shared M W) (pc : FlushPc) :
    option (Shared M W * FlushPc) :=
  match pc with
  | FLock => if sh_flush_lock sh then None else Some (set_lock true sh, FSnapshot)
  | FSnapshot =>
      match last (sn_imms (sh_state sh)) with
      | Some imm => Some (sh, FBuild imm)
      | None => Some (sh, FUnlock (Ok tt))
      end
  | FBuild oldest =>
      match build_sst_from_memtable (sh_disk sh) dev (get_mem sh oldest) with
      | (Ok sst_meta, dm) => Some (set_disk dm sh, FInstall sst_meta)
      | (Err e, dm) => Some (set_disk dm sh, FUnlock (Err e))
      | (Panic, dm) => Some (set_disk dm sh, FUnlock Panic)
      end
  | FInstall sst_meta =>
      let old := sh_state sh in
      Some (set_sn (mkSnapshot (sn_active old) (removelast (sn_imms old))
                      (push_l0 (sn_levels old) sst_meta)) sh,
            FUnlock (Ok tt))
  | FUnlock r => Some (set_lock false sh, FDone r)
  | FDone _ => None
  end.

(** [switch_memtable], under the write lock. *)
Definition switch_step (sh : Shared M W) : Shared M W :=
  let old := sh_state sh in
  if decide (estimate_memory (get_mem sh (sn_active old)) < memtable_size_limit opt) then sh
  else set_mems (sh_mems sh ++ [memtable_new])
         (set_sn (mkSnapshot (length (sh_mems sh)) (sn_active old :: sn_imms old) (sn_levels old)) sh).

(** One step of [write]. *)
Definition write_step (dev : Device) (sh : Shared M W) (pc : WritePc) :
    option (Shared M W * WritePc * option Event) :=
  match pc with
  | WAppend batch =>
      let '(r, wal) := wal_append (sh_wal sh) shard_id batch in
      match r with
      | Ok _ => Some (set_log wal sh, WSnapshot batch, Some (Logged batch))
      | Err e => Some (set_log wal sh, WDone (Err e), None)
      | Panic => Some (set_log wal sh, WDone Panic, None)
      end
  | WSnapshot batch => Some (sh, WInsert (sn_active (sh_state sh)) (entries batch), None)
  | WInsert active (e :: rest) =>
      Some (set_mems (alter (count_entry e) active (sh_mems sh)) sh, WStore active e rest, None)
  | WInsert active [] => Some (sh, WCheck active, None)
  | WStore active e rest =>
      Some (set_mems (alter (store_entry e) active (sh_mems sh)) sh, WInsert active rest,
            Some (Inserted e (bool_decide (active = sn_active (sh_state sh)))))
  | WCheck active =>
      if decide (memtable_size_limit opt <= estimate_memory (get_mem sh active))
      then Some (sh, WSwitch, None) else Some (sh, WDone (Ok tt), None)
  | WSwitch => Some (switch_step sh, WCount, None)
  | WCount =>
      if decide (max_imm_memtables opt <= length (sn_imms (sh_state sh)))
      then Some (sh, WFlush FLock, None) else Some (sh, WDone (Ok tt), None)
  | WFlush pc =>
      match flush_step dev sh pc with
      | Some (sh', FDone r) => Some (sh', WDone r, None)
      | Some (sh', pc') => Some (sh', WFlush pc', None)
      | None => None
      end
  | WDone _ => None
  end.

(** One step of some thread, on a device that answers; a finished writer may
    call [write] again, a finished sweeper may sweep again, and another shard
    may add files to the shared directory. *)
Inductive step (s : Sys M W) : option Event -> Sys M W -> Prop :=
| step_write i pc dev sh pc' ev :
    sys_threads s !! i = Some (Writer pc) -> device_answers dev ->
    write_step dev (sys_shared s) pc = Some (sh, pc', ev) ->
    step s ev (mkSys sh (<[i := Writer pc']> (sys_threads s)))
| step_sweep i pc dev sh pc' :
    sys_threads s !! i = Some (Sweeper pc) -> device_answers dev ->
    flush_step dev (sys_shared s) pc = Some (sh, pc') ->
    step s None (mkSys sh (<[i := Sweeper pc']> (sys_threads s)))
| step_call i r batch :
    sys_threads s !! i = Some (Writer (WDone r)) ->
    step s None (mkSys (sys_shared s) (<[i := Writer (WAppend batch)]> (sys_threads s)))
| step_sweep_call i r :
    sys_threads s !! i = Some (Sweeper (FDone r)) ->
    step s None (mkSys (sys_shared s) (<[i := Sweeper FLock]> (sys_threads s)))
| step_other_shard dm :
    disk_grows (sh_disk (sys_shared s)) dm ->
    step s None (mkSys (set_disk dm (sys_shared s)) (sys_threads s)).

(** A run: the states passed through have SST ids left. *)
Inductive run (s : Sys M W) : list Event -> Sys M W -> Prop :=
| run_nil : run s [] s
| run_step evs s1 ev s2 :
    run s evs s1 -> ids_left (sh_disk (sys_shared s1)) -> step s1 ev s2 ->
    run s (evs ++ option_list ev) s2.

(** ** The store the threads share *)

Definition store_of (sh : Shared M W) : LsmStore M W :=
  mkLsmStore
    (mkLsmState (get_mem sh (sn_active (sh_state sh))) (get_mem sh <$> sn_imms (sh_state sh))
       (sn_levels (sh_state sh)))
    opt shard_id (sh_wal sh).

(** [LsmStore::new], with threads that have not called anything yet. *)
Definition shared_new (wal : W) (dm : DiskManager) : Shared M W :=
  mkShared [memtable_new] (mkSnapshot 0 [] []) wal dm false.

Definition idle_writer : Thread := Writer (WDone (Ok tt)).
Definition idle_sweeper : Thread := Sweeper (FDone (Ok tt)).
End Ops.
