(* ===== verification/LsmConcRefine.v ===== *)
(** What each step of the concurrent store ([LsmConc]) does to the abstract
    map of [LsmRefine].

    A step is either a flush step, which keeps the map, or a step of a write,
    which applies the entry it inserts when the table it inserts into is the
    active one. [flush_assert] is what a thread inside the flush lock relies on
    and [frame] what the steps of the other threads leave alone. *)

From stdpp Require Import base list numbers strings sorting gmap.
From S2P Require Import Prelude.
From S2P Require Import Errors.
From S2P Require Import BlockBuilder.
From S2P Require Import Iter.
From S2P Require Import SstBuilder.
From S2P Require Import SstBuilderCorrect.
From S2P Require Import MemTable.
From S2P Require Import DiskManager.
From S2P Require Import Newest.
From S2P Require Import LsmStore.
From S2P Require Import LsmRefine.
From S2P Require Import LsmEngine.
From S2P Require Import LsmConc.

(** ** Events *)

Definition inserted (evs : list Event) : list WriteEntry :=
  omap (fun ev => match ev with Inserted e _ => Some e | Logged _ => None end) evs.

Definition logged (evs : list Event) : list WriteBatch :=
  omap (fun ev => match ev with Logged b => Some b | Inserted _ _ => None end) evs.

(** The insertion reached the active memtable. *)
Definition live_event (ev : Event) : Prop :=
  match ev with Inserted _ live => live = true | Logged _ => True end.

Lemma inserted_app e1 e2 : inserted (e1 ++ e2) = inserted e1 ++ inserted e2.
Proof. apply omap_app. Qed.

Lemma logged_app e1 e2 : logged (e1 ++ e2) = logged e1 ++ logged e2.
Proof. apply omap_app. Qed.

(** ** Bounds

    Every entry written fits a block, and the number of entries written keeps
    the files of the format. *)

Definition entry_of (e : WriteEntry) : bytes * Entry :=
  match e with WPut k v => (k, Put v) | WDelete k => (k, Delete) end.

Definition write_fits (bs : nat) (e : WriteEntry) : Prop :=
  entry_fits (mkSstOption bs) (block_entry (entry_of e)).

Definition run_fits (bs n : nat) : Prop :=
  BLOCK_FIXED_HEADER_SIZE <= bs /\ (Z.of_nat (2 * bs + 20) <= u32_max)%Z
  /\ (Z.of_nat (bs * (4 * n + 3) + 24) <= u64_max)%Z
  /\ (Z.of_nat (2 * n + 2) <= u32_max)%Z.

Lemma sorted_insert_in {V} k (v : V) l x : x ∈ sorted_insert k v l -> x = (k, v) \/ x ∈ l.
Proof.
  induction l as [|[k' v'] l IH]; simpl.
  - rewrite list_elem_of_singleton. auto.
  - destruct (bytes_cmp k k'); rewrite !elem_of_cons; [tauto|tauto|].
    intros [->|Hx]; [tauto|]. destruct (IH Hx); tauto.
Qed.

Lemma sorted_insert_length {V} k (v : V) l : length (sorted_insert k v l) <= S (length l).
Proof.
  induction l as [|[k' v'] l IH]; simpl; [lia|]. destruct (bytes_cmp k k'); simpl; lia.
Qed.

Lemma removelast_fmap {A B} (f : A -> B) l : removelast (f <$> l) = f <$> removelast l.
Proof. induction l as [|x [|y l] IH]; [done|done|]. cbn in *. by rewrite IH. Qed.

Section Refine.
Context {M W : Type} `{OrderedMapLaws M} `{WalStore W} (opt : LsmTableOption) (shard_id : Z).
Implicit Types (sh : Shared M W) (s : Sys M W) (t : MemTable M).

Abbreviation store_of := (store_of opt shard_id).
Abbreviation step := (step opt shard_id).
Abbreviation run := (run opt shard_id).
Abbreviation write_step := (write_step opt shard_id).

(** The entries of a table fit, and there are at most [n]. *)
Definition mem_fits (bs n : nat) t : Prop :=
  Forall (entry_fits (mkSstOption bs)) (block_entry <$> mem_layer t) /\ length (mem_layer t) <= n.

Lemma mem_fits_table bs n N t : mem_fits bs n t -> n <= N -> run_fits bs N -> table_fits bs (mem_layer t).
Proof.
  intros [Hf Hl] HnN (Hh & Hb & Hu & Hc). split_and!; try done; [|lia].
  assert (bs * (4 * length (mem_layer t) + 3) + 24 <= bs * (4 * N + 3) + 24); [|lia].
  apply Nat.add_le_mono_r, Nat.mul_le_mono_l. lia.
Qed.

Lemma mem_fits_weaken bs n n' t : n <= n' -> mem_fits bs n t -> mem_fits bs n' t.
Proof. intros Hn [Hf Hl]. split; [done|lia]. Qed.

Lemma mem_fits_new bs n : mem_fits bs n memtable_new.
Proof. unfold mem_fits, mem_layer. cbn. rewrite om_entries_empty. split; [constructor|simpl; lia]. Qed.

Lemma mem_layer_count e t : mem_layer (count_entry e t) = mem_layer t.
Proof. done. Qed.

Lemma mem_layer_store e t : mem_layer (store_entry e t) = mem_layer (apply_write t e).
Proof. by destruct e. Qed.

Lemma mem_fits_store bs n e t :
  write_fits bs e -> mem_fits bs n t -> mem_fits bs (S n) (store_entry e t).
Proof.
  intros He [Hf Hl]. unfold mem_fits. assert (mem_layer (store_entry e t)
    = sorted_insert (entry_of e).1 (entry_of e).2 (mem_layer t)) as ->.
  { unfold mem_layer. destruct e; cbn; apply om_entries_insert. }
  split; [|pose proof (sorted_insert_length (entry_of e).1 (entry_of e).2 (mem_layer t)); lia].
  rewrite Forall_fmap, Forall_forall in *. intros x [->|Hx]%sorted_insert_in; [|by apply Hf].
  by destruct e.
Qed.

(** ** What every step keeps of the shared state *)

Record core (bs n : nat) (m : view) sh : Prop := {
  core_bs : dm_block_size (sh_disk sh) = bs;
  core_nodup : NoDup (sn_active (sh_state sh) :: sn_imms (sh_state sh));
  core_bound : Forall (fun i => i < length (sh_mems sh))
                 (sn_active (sh_state sh) :: sn_imms (sh_state sh));
  core_rep : exists l0s, represents (store_of sh) (sh_disk sh) l0s m;
  core_fits : Forall (mem_fits bs n) (sh_mems sh);
}.

(** What a thread inside the flush lock relies on. *)
Definition flush_assert sh (pc : FlushPc) : Prop :=
  match pc with
  | FBuild oldest => last (sn_imms (sh_state sh)) = Some oldest
  | FInstall meta => exists oldest, last (sn_imms (sh_state sh)) = Some oldest /\
      sst_holds (sh_disk sh) meta (mem_layer (get_mem sh oldest)) /\
      (sm_id meta < dm_next_sst_id (sh_disk sh))%Z
  | _ => True
  end.

(** What the steps of other threads do meanwhile. *)
Record frame sh sh' : Prop := {
  fr_last oldest : last (sn_imms (sh_state sh)) = Some oldest -> last (sn_imms (sh_state sh')) = Some oldest;
  fr_disk : disk_grows (sh_disk sh) (sh_disk sh');
  fr_mem i : i ∈ sn_imms (sh_state sh) -> mem_layer (get_mem sh' i) = mem_layer (get_mem sh i);
}.

Lemma frame_refl sh : frame sh sh.
Proof. split; [done|apply disk_grows_refl|done]. Qed.

Lemma flush_assert_frame sh sh' pc : frame sh sh' -> flush_assert sh pc -> flush_assert sh' pc.
Proof.
  intros Hf. destruct pc as [| |oldest|meta| |]; try done; simpl.
  - apply (fr_last _ _ Hf).
  - intros (oldest & Hl & Hh & Hid). exists oldest. split; [by apply (fr_last _ _ Hf)|].
    destruct (fr_disk _ _ Hf) as (Hbs & Hnx & Hd). split; [|lia].
    rewrite (fr_mem _ _ Hf) by (by apply last_Some_elem_of).
    eapply sst_holds_other; [done|done|by apply Hd].
Qed.

(** Replacing the tables of a state: the layers of its tables are what matters. *)
Lemma represents_layers (self self' : LsmStore M W) dm l0s m :
  represents self dm l0s m -> levels (st_state self') = levels (st_state self) ->
  mem_layers (st_state self') = mem_layers (st_state self) -> represents self' dm l0s m.
Proof.
  intros [(Hl & HF & Hid) Hv] Hlv Hm. split.
  - unfold store_wf, l0_ssts in *. by rewrite Hlv.
  - intros k. unfold store_layers. rewrite Hm. apply Hv.
Qed.

Lemma get_mem_alter f i j sh :
  i < length (sh_mems sh) ->
  get_mem (set_mems (alter f i (sh_mems sh)) sh) j
  = if decide (i = j) then f (get_mem sh j) else get_mem sh j.
Proof.
  intros Hi. unfold get_mem. cbn. case_decide as Hij.
  - subst. rewrite list_lookup_alter_eq. destruct (lookup_lt_is_Some_2 _ _ Hi) as [t Ht]. by rewrite Ht.
  - by rewrite list_lookup_alter_ne.
Qed.

(** Counting an entry changes no layer, whatever table it goes to. *)
Lemma layer_count_alter e i j sh :
  mem_layer (get_mem (set_mems (alter (count_entry e) i (sh_mems sh)) sh) j) = mem_layer (get_mem sh j).
Proof.
  unfold get_mem. cbn. destruct (decide (i = j)) as [->|].
  - rewrite list_lookup_alter_eq. by destruct (sh_mems sh !! j).
  - by rewrite list_lookup_alter_ne.
Qed.

Lemma mem_fits_get bs n sh i : Forall (mem_fits bs n) (sh_mems sh) -> mem_fits bs n (get_mem sh i).
Proof.
  intros HF. unfold get_mem. destruct (sh_mems sh !! i) eqn:E; simpl; [|apply mem_fits_new].
  by eapply Forall_lookup_1.
Qed.

Lemma store_layers_ext sh sh' :
  (forall i, i ∈ sn_active (sh_state sh) :: sn_imms (sh_state sh) ->
     mem_layer (get_mem sh' i) = mem_layer (get_mem sh i)) ->
  sn_active (sh_state sh') = sn_active (sh_state sh) -> sn_imms (sh_state sh') = sn_imms (sh_state sh) ->
  mem_layers (st_state (store_of sh')) = mem_layers (st_state (store_of sh)).
Proof.
  intros Hm Ha Hi. unfold mem_layers. cbn. rewrite Ha, Hi. f_equal; [apply Hm; by left|].
  rewrite <- !list_fmap_compose. apply list_fmap_ext. intros j x Hx. apply Hm. right.
  by apply list_elem_of_lookup_2 in Hx.
Qed.

(** A step that keeps the layers, the snapshot and the files. *)
Lemma core_same bs n m sh sh' :
  core bs n m sh -> sh_state sh' = sh_state sh -> sh_disk sh' = sh_disk sh ->
  length (sh_mems sh') = length (sh_mems sh) ->
  (forall i, mem_layer (get_mem sh' i) = mem_layer (get_mem sh i)) ->
  core bs n m sh' /\ frame sh sh'.
Proof.
  intros [Hbs Hnd Hb [l0s Hr] Hfit] Hs Hd Hl Hm. split; split; rewrite ?Hs, ?Hd, ?Hl; try done.
  - exists l0s. eapply represents_layers; [exact Hr|cbn; by rewrite Hs|].
    by apply store_layers_ext; rewrite ?Hs.
  - apply Forall_lookup. intros i t Ht. pose proof (mem_fits_get bs n sh i Hfit) as [Hf Hn].
    rewrite <- Hm in Hf, Hn. unfold get_mem in Hf, Hn. by rewrite Ht in Hf, Hn.
Qed.

Lemma core_disk bs n m sh dm : core bs n m sh -> disk_grows (sh_disk sh) dm -> core bs n m (set_disk dm sh) /\ frame sh (set_disk dm sh).
Proof.
  intros [Hbs Hnd Hb [l0s Hr] Hfit] Hg. split; split; try done.
  - cbn. rewrite <- Hbs. apply Hg.
  - exists l0s. by eapply represents_disk.
Qed.

Lemma core_weaken bs n n' m sh : n <= n' -> core bs n m sh -> core bs n' m sh.
Proof.
  intros Hn [Hbs Hnd Hb Hr Hfit]. split; try done. eapply Forall_impl; [exact Hfit|]. intros t. by apply mem_fits_weaken.
Qed.

(** ** Flushing beside other threads *)

Lemma build_sst_grows dm dev t :
  ids_left dm -> disk_grows dm (build_sst_from_memtable dm dev t).2.
Proof.
  intros Hids. assert ((dm_next_sst_id dm + 1) mod 2 ^ 64 = dm_next_sst_id dm + 1)%Z as Hm
    by (unfold ids_left in Hids; apply Z.mod_small; lia).
  unfold build_sst_from_memtable, create_sst.
  destruct (dev_create dev); [|cbn [dm_block_size]; destruct (write_memtable _ _ _) as [[? ?]| |]];
    cbn [snd]; (split_and!; [done|cbn; lia|]); intros id Hlt; cbn; rewrite ?lookup_insert_ne by lia; done.
Qed.

Lemma build_sst_holds dm dev t meta dm' :
  ids_left dm -> device_answers dev -> table_fits (dm_block_size dm) (mem_layer t) ->
  build_sst_from_memtable dm dev t = (Ok meta, dm') ->
  sst_holds dm' meta (mem_layer t) /\ (sm_id meta < dm_next_sst_id dm')%Z.
Proof.
  intros Hids [[Hc Hw]|[e He]] Hfit Hb.
  - destruct (build_sst_ok dm dev t Hfit Hc Hw) as (meta' & dm1 & Hb' & Hid & Hh & _ & _ & Hnx & _).
    rewrite Hb' in Hb. simplify_eq. split; [done|]. rewrite Hid, Hnx.
    unfold ids_left in Hids. rewrite Z.mod_small by lia. lia.
  - unfold build_sst_from_memtable, create_sst in Hb. by rewrite He in Hb.
Qed.

(** Installing the SST of the oldest table moves its layer to level 0. *)
Lemma core_install bs n m sh meta oldest :
  core bs n m sh -> last (sn_imms (sh_state sh)) = Some oldest ->
  sst_holds (sh_disk sh) meta (mem_layer (get_mem sh oldest)) ->
  (sm_id meta < dm_next_sst_id (sh_disk sh))%Z ->
  core bs n m (set_sn (mkSnapshot (sn_active (sh_state sh)) (removelast (sn_imms (sh_state sh)))
                         (push_l0 (sn_levels (sh_state sh)) meta)) sh).
Proof.
  intros [Hbs Hnd Hb [l0s [(Hl & HF & Hlt) Hv]] Hfit] Hlast Hh Hid.
  pose proof (last_snoc_inv _ _ Hlast) as Himm. split; cbn; try done.
  - rewrite Himm in Hnd. rewrite app_comm_cons in Hnd. by apply NoDup_app in Hnd as [? _].
  - rewrite Himm in Hb. rewrite app_comm_cons in Hb. by apply Forall_app in Hb as [? _].
  - exists (l0s ++ [mem_layer (get_mem sh oldest)]). split.
    + destruct (l0_push (sn_levels (sh_state sh)) meta Hl) as [Hl' Hp].
      unfold store_wf, l0_ssts in *. cbn in *. rewrite Hp. split_and!; [done| |].
      * by apply Forall2_app; [|constructor].
      * apply Forall_app. by split; [|constructor].
    + intros k. rewrite <- Hv, <- (layers_flush (st_state (store_of sh)) l0s (get_mem sh oldest)
        (push_l0 (sn_levels (sh_state sh)) meta)); [cbn; by rewrite removelast_fmap|].
      cbn. by rewrite fmap_last, Hlast.
Qed.

Definition installs (pc : FlushPc) : bool := match pc with FInstall _ => true | _ => false end.

Lemma flush_step_core bs n m sh dev pc sh' pc' :
  core bs n m sh -> flush_assert sh pc -> run_fits bs n -> ids_left (sh_disk sh) -> device_answers dev ->
  flush_step dev sh pc = Some (sh', pc') ->
  core bs n m sh' /\ flush_assert sh' pc' /\ (installs pc = false -> frame sh sh').
Proof.
  intros Hc Ha Hrun Hids Hdev Hs.
  destruct pc as [| |oldest|meta|r|r]; cbn in Hs, Ha.
  - destruct (sh_flush_lock sh); simplify_eq.
    destruct (core_same bs n m sh (set_lock true sh) Hc) as [? ?]; done.
  - destruct (last (sn_imms (sh_state sh))) eqn:Hl; simplify_eq; eauto using frame_refl.
  - pose proof (build_sst_grows (sh_disk sh) dev (get_mem sh oldest) Hids) as Hg.
    destruct (build_sst_from_memtable (sh_disk sh) dev (get_mem sh oldest)) as [r dm] eqn:Hb.
    destruct (core_disk bs n m sh dm Hc Hg) as [Hc' Hf'].
    destruct r as [meta| |]; simplify_eq; [|by split_and!..]. split_and!; [done| |done].
    exists oldest. split; [done|]. eapply build_sst_holds; [done|done| |done].
    destruct Hc as [Hbs _ _ _ Hfit]. rewrite Hbs.
    eapply mem_fits_table; [by apply mem_fits_get|done|done].
  - destruct Ha as (oldest & Hl & Hh & Hid). simplify_eq. split_and!; [|done|done]. by eapply core_install.
  - simplify_eq. destruct (core_same bs n m sh (set_lock false sh) Hc) as [? ?]; done.
  - done.
Qed.
(** ** Writing beside other threads *)

Definition flushing (pc : WritePc) : bool := match pc with WFlush _ => true | _ => false end.

(** An entry stored into the active table. *)
Lemma core_store bs n m sh e :
  core bs n m sh -> write_fits bs e ->
  let sh' := set_mems (alter (store_entry e) (sn_active (sh_state sh)) (sh_mems sh)) sh in
  core bs (S n) (spec_entry m e) sh' /\ frame sh sh'.
Proof.
  intros [Hbs Hnd Hb [l0s [Hwf Hv]] Hfit] He. apply Forall_cons in Hb as Hb'. destruct Hb' as [Ha _].
  apply NoDup_cons in Hnd as Hnd'. destruct Hnd' as [Hni _].
  assert (forall i, i ∈ sn_imms (sh_state sh) -> get_mem (set_mems (alter (store_entry e)
    (sn_active (sh_state sh)) (sh_mems sh)) sh) i = get_mem sh i) as Himm.
  { intros i Hi. rewrite get_mem_alter by done. case_decide; [by subst|done]. }
  cbn zeta. split; split; try done.
  - eapply Forall_impl; [exact Hb|]. intros i. cbn. by rewrite length_alter.
  - exists l0s. split; [done|]. intros k.
    assert (store_layers (st_state (store_of (set_mems (alter (store_entry e) (sn_active (sh_state sh)) (sh_mems sh)) sh))) l0s
      = mem_layer (apply_write (get_mem sh (sn_active (sh_state sh))) e)
        :: (mem_layer <$> (get_mem sh <$> sn_imms (sh_state sh))) ++ reverse l0s) as ->.
    { unfold store_layers, mem_layers. cbn. rewrite get_mem_alter, decide_True, mem_layer_store by done.
      do 3 f_equal. apply list_fmap_ext. intros j i Hi. apply Himm. by apply list_elem_of_lookup_2 in Hi. }
    rewrite layered_apply. unfold spec_entry. destruct e; case_decide; done || apply Hv.
  - apply Forall_alter; [|intros t Ht _; apply mem_fits_store; [done|exact (Forall_lookup_1 _ _ _ _ Hfit Ht)]].
    eapply Forall_impl; [exact Hfit|]. intros t. apply mem_fits_weaken. lia.
  - intros i Hi. by rewrite Himm.
Qed.

(** A switch puts an empty table in front. *)
Lemma core_switch bs n m sh : core bs n m sh -> core bs n m (switch_step opt sh) /\ frame sh (switch_step opt sh).
Proof.
  intros Hc. unfold switch_step. case_decide as Hsz; [split; [done|apply frame_refl]|].
  destruct Hc as [Hbs Hnd Hb [l0s [Hwf Hv]] Hfit].
  assert (forall i, i ∈ sn_active (sh_state sh) :: sn_imms (sh_state sh) ->
    default memtable_new ((sh_mems sh ++ [memtable_new]) !! i) = get_mem sh i) as Hget.
  { intros i Hi. rewrite Forall_forall in Hb. unfold get_mem. by rewrite lookup_app_l by (by apply Hb). }
  split; split; try done.
  - cbn. constructor; [|done]. intros Hin. rewrite Forall_forall in Hb. apply Hb in Hin. lia.
  - cbn. rewrite length_app. cbn. constructor; [lia|]. eapply Forall_impl; [exact Hb|]. cbn. lia.
  - exists l0s. split; [done|]. intros k. rewrite <- Hv. unfold store_layers, mem_layers. cbn.
    unfold get_mem at 1. cbn. rewrite lookup_app_r, Nat.sub_diag by lia. cbn.
    unfold mem_layer at 1. cbn. rewrite om_entries_empty. cbn.
    unfold get_mem at 1. cbn. rewrite Hget by (by left).
    erewrite (list_fmap_ext _ (get_mem sh) (sn_imms (sh_state sh))); [done|].
    intros j i Hi. apply Hget. right. by apply list_elem_of_lookup_2 in Hi.
  - cbn. apply Forall_app. split; [done|]. constructor; [apply mem_fits_new|done].
  - intros oldest Hl. cbn. by destruct (sn_imms (sh_state sh)).
  - intros i Hi. unfold get_mem at 1. cbn. rewrite Hget by (by right). done.
Qed.

Lemma write_step_core bs n m sh dev pc sh' pc' ev :
  core bs n m sh -> flushing pc = false -> write_step dev sh pc = Some (sh', pc', ev) ->
  Forall live_event (option_list ev) -> Forall (write_fits bs) (inserted (option_list ev)) ->
  core bs (n + length (inserted (option_list ev))) (foldl spec_entry m (inserted (option_list ev))) sh'
  /\ frame sh sh'.
Proof.
  intros Hc Hnf Hs Hlive Hfit. destruct pc as [batch|batch|active [|e rest]|active e rest|active| | |pc|r]; cbn in Hs; try done.
  - destruct (wal_append _ _ _) as [[[]| |] w]; simplify_eq; cbn; rewrite Nat.add_0_r;
      by apply core_same.
  - simplify_eq. cbn. rewrite Nat.add_0_r. split; [done|apply frame_refl].
  - simplify_eq. cbn. rewrite Nat.add_0_r. split; [done|apply frame_refl].
  - simplify_eq. cbn. rewrite Nat.add_0_r. apply core_same; try done; [cbn; by rewrite length_alter|].
    intros i. apply layer_count_alter.
  - simplify_eq. cbn in *. apply Forall_cons in Hlive as [Hlive%bool_decide_eq_true _]. subst active.
    rewrite Nat.add_1_r. apply core_store; [done|]. by apply Forall_cons in Hfit as [? _].
  - case_decide; simplify_eq; cbn; rewrite Nat.add_0_r; (split; [done|apply frame_refl]).
  - simplify_eq. cbn. rewrite Nat.add_0_r. by apply core_switch.
  - case_decide; simplify_eq; cbn; rewrite Nat.add_0_r; (split; [done|apply frame_refl]).
Qed.
End Refine.
