(* ===== verification/LsmConcTheorems.v ===== *)
(** Theorems of the concurrent store: the flush lock, the refinement of the
    abstract map, the single writer beside sweepers, a write run alone, and the
    run in which an acknowledged write is lost. *)

From stdpp Require Import base list numbers strings sorting gmap.
From S2P Require Import Prelude.
From S2P Require Import Errors.
From S2P Require Import Block.
From S2P Require Import BlockBuilder.
From S2P Require Import Iter.
From S2P Require Import BlockIter.
From S2P Require Import EntryDecode.
From S2P Require Import SstFooter.
From S2P Require Import SstBuilder.
From S2P Require Import SstBuilderCorrect.
From S2P Require Import IndexTreeIter.
From S2P Require Import SstIter.
From S2P Require Import ConcatIter.
From S2P Require Import MergeIter.
From S2P Require Import TwoMergeIter.
From S2P Require Import MemTable.
From S2P Require Import LsmScan.
From S2P Require Import DiskManager.
From S2P Require Import Newest.
From S2P Require Import LsmStore.
From S2P Require Import LsmRefine.
From S2P Require Import LsmTheorems.
From S2P Require Import LsmEngine.
From S2P Require Import LsmConc.
From S2P Require Import LsmConcRefine.

(** The flush call a thread is in; outside one, a finished call. *)
Definition thread_pc (t : Thread) : FlushPc :=
  match t with Writer (WFlush pc) => pc | Writer _ => FDone (Ok tt) | Sweeper pc => pc end.

(** Inside the flush lock. *)
Definition critical (pc : FlushPc) : bool :=
  match pc with FLock | FDone _ => false | _ => true end.

Definition holds (ts : list Thread) (i : nat) : Prop :=
  exists t, ts !! i = Some t /\ critical (thread_pc t) = true.

Definition at_rest (t : Thread) : Prop :=
  match t with Writer (WDone _) | Sweeper (FDone _) => True | _ => False end.

Lemma holds_insert_eq ts i t t' : ts !! i = Some t -> holds (<[i := t']> ts) i <-> critical (thread_pc t') = true.
Proof.
  intros Hi. unfold holds. rewrite list_lookup_insert_eq by (by eapply lookup_lt_Some). split; [intros (? & ? & ?); by simplify_eq|eauto].
Qed.

Lemma holds_insert_ne ts i j t' : i <> j -> holds (<[i := t']> ts) j <-> holds ts j.
Proof. intros Hne. unfold holds. by rewrite list_lookup_insert_ne. Qed.

Section Theorems.
Context {M W : Type} `{OrderedMapLaws M} `{WalStore W} (opt : LsmTableOption) (shard_id : Z).
Implicit Types (sh : Shared M W) (s : Sys M W).

Abbreviation store_of := (store_of opt shard_id).
Abbreviation step := (step opt shard_id).
Abbreviation run := (run opt shard_id).
Abbreviation write_step := (write_step opt shard_id).
Abbreviation core := (core opt shard_id).

(** ** The flush lock *)

(** The lock is taken exactly when a thread is inside, and then by one. *)
Record locked s : Prop := {
  lk_taken i : holds (sys_threads s) i -> sh_flush_lock (sys_shared s) = true;
  lk_one i j : holds (sys_threads s) i -> holds (sys_threads s) j -> i = j;
  lk_owner : sh_flush_lock (sys_shared s) = true -> exists i, holds (sys_threads s) i;
}.

(** How a step of one thread moves the lock. *)
Definition lock_moves sh (pc : FlushPc) sh' (pc' : FlushPc) : Prop :=
  match critical pc, critical pc' with
  | true, b => sh_flush_lock sh' = b
  | false, true => sh_flush_lock sh = false /\ sh_flush_lock sh' = true
  | false, false => sh_flush_lock sh' = sh_flush_lock sh
  end.

Lemma flush_step_lock dev sh pc sh' pc' :
  (critical pc = true -> sh_flush_lock sh = true) ->
  flush_step dev sh pc = Some (sh', pc') -> lock_moves sh pc sh' pc'.
Proof.
  intros Hl Hs. unfold lock_moves. destruct pc; cbn in *; try (specialize (Hl eq_refl)).
  - destruct (sh_flush_lock sh) eqn:?; by simplify_eq.
  - by destruct (last _); simplify_eq.
  - by destruct (build_sst_from_memtable _ _ _) as [[| |] ?]; simplify_eq.
  - by simplify_eq.
  - by simplify_eq.
  - done.
Qed.

(** Any step of a write, seen from the flush lock. *)
Lemma write_step_lock dev sh pc sh' pc' ev :
  (critical (thread_pc (Writer pc)) = true -> sh_flush_lock sh = true) ->
  write_step dev sh pc = Some (sh', pc', ev) ->
  lock_moves sh (thread_pc (Writer pc)) sh' (thread_pc (Writer pc')).
Proof.
  intros Hl Hs. destruct (flushing pc) eqn:Hf.
  - destruct pc as [| | | | | | |pc|]; try done. cbn in *.
    destruct (flush_step dev sh pc) as [[sh1 pc1]|] eqn:Hfs; [|done].
    apply flush_step_lock in Hfs; [|done]. by destruct pc1; simplify_eq.
  - destruct pc as [| |? []| | | | | |]; cbn in *; try done;
      try (destruct (wal_append _ _ _) as [[| |] ?]); try case_decide; simplify_eq; try done.
    unfold switch_step. by case_decide.
Qed.

Lemma locked_update s i t sh' t' :
  locked s -> sys_threads s !! i = Some t ->
  lock_moves (sys_shared s) (thread_pc t) sh' (thread_pc t') ->
  locked (mkSys sh' (<[i := t']> (sys_threads s))).
Proof.
  intros [Ht Ho Hw] Hi Hm. unfold lock_moves in Hm.
  assert (critical (thread_pc t) = true -> holds (sys_threads s) i) as Hh by (by exists t).
  assert (forall j, holds (<[i:=t']> (sys_threads s)) j ->
    j = i /\ critical (thread_pc t') = true \/ j <> i /\ holds (sys_threads s) j) as Hcase.
  { intros j. destruct (decide (j = i)) as [->|Hne].
    - rewrite holds_insert_eq by done. auto.
    - rewrite holds_insert_ne by done. auto. }
  assert (critical (thread_pc t') = true -> sh_flush_lock sh' = true) as Htake.
  { intros Hc'. rewrite Hc' in Hm. by destruct (critical (thread_pc t)); [|destruct Hm]. }
  assert (critical (thread_pc t') = true -> forall j, holds (sys_threads s) j -> j = i) as Halone.
  { intros Hc' j Hj. rewrite Hc' in Hm. destruct (critical (thread_pc t)); [by apply Ho, Hh|].
    destruct Hm as [Hf _]. by rewrite (Ht j Hj) in Hf. }
  split; cbn.
  - intros j [[-> Hc']|[Hne Hj]]%Hcase; [by apply Htake|].
    destruct (critical (thread_pc t)); [by destruct Hne; apply Ho, Hh|].
    destruct (critical (thread_pc t')); [by destruct Hm|]. rewrite Hm. by apply (Ht j).
  - intros j k [[-> Hc']|[Hne Hj]]%Hcase [[-> Hc'']|[Hne' Hk]]%Hcase; [done|by destruct Hne'; apply Halone| |by apply Ho].
    by apply Halone.
  - intros Hl. destruct (critical (thread_pc t')) eqn:Hc'; [exists i; by eapply holds_insert_eq|].
    destruct (critical (thread_pc t)) eqn:Hc; [congruence|]. destruct Hw as [j Hj]; [congruence|].
    exists j. apply holds_insert_ne; [|done]. intros <-. destruct Hj as (? & ? & ?). simplify_eq. congruence.
Qed.

Lemma step_locked s ev s' : locked s -> step s ev s' -> locked s'.
Proof.
  intros Hl Hs. destruct Hs as [i pc dev sh pc' ev Hi _ Hw|i pc dev sh pc' Hi _ Hf|i r batch Hi|i r Hi|dm _].
  - eapply locked_update; [done..|]. eapply write_step_lock; [|exact Hw]. intros Hc. apply (lk_taken _ Hl i). by eexists.
  - eapply locked_update; [done..|]. eapply flush_step_lock; [|exact Hf]. intros Hc. apply (lk_taken _ Hl i). by eexists.
  - by eapply locked_update.
  - by eapply locked_update.
  - by destruct Hl.
Qed.

Lemma run_locked s evs s' : locked s -> run s evs s' -> locked s'.
Proof. induction 2; [done|]. by eapply step_locked. Qed.

Lemma new_locked wal dm ts : Forall at_rest ts -> locked (mkSys (shared_new wal dm) ts).
Proof.
  intros Hr. assert (forall i, ~ holds ts i) as Hno.
  { intros i (t & Hi & Hc). pose proof (Forall_lookup_1 _ _ _ _ Hr Hi). by destruct t as [[]|[]]. }
  split; cbn; [|naive_solver|done]. intros i Hi. by destruct (Hno i).
Qed.

(** ** The abstract map *)

Record valid (bs n : nat) (m : view) s : Prop := {
  vd_locked : locked s;
  vd_core : core bs n m (sys_shared s);
  vd_assert i t : sys_threads s !! i = Some t -> flush_assert (sys_shared s) (thread_pc t);
}.

Lemma flush_assert_out sh pc : critical pc = false -> flush_assert sh pc.
Proof. by destruct pc. Qed.

(** What the threads inside the lock rely on survives a step of thread [i]. *)
Lemma assert_update s i t sh' t' :
  locked s -> (forall j u, sys_threads s !! j = Some u -> flush_assert (sys_shared s) (thread_pc u)) ->
  sys_threads s !! i = Some t -> flush_assert sh' (thread_pc t') ->
  (frame (sys_shared s) sh' \/ critical (thread_pc t) = true) ->
  forall j u, <[i := t']> (sys_threads s) !! j = Some u -> flush_assert sh' (thread_pc u).
Proof.
  intros Hl Ha Hi Ht' Hf j u Hj. apply list_lookup_insert_Some in Hj as [(<- & <- & _)|[Hne Hj]]; [done|].
  destruct Hf as [Hf|Hc]; [by eapply flush_assert_frame, Ha|].
  apply flush_assert_out. destruct (critical (thread_pc u)) eqn:Hu; [|done].
  destruct Hne. apply (lk_one _ Hl i j); by eexists.
Qed.

Lemma run_fits_weaken bs n n' : n <= n' -> run_fits bs n' -> run_fits bs n.
Proof.
  intros Hn (Hh & Hb & Hu & Hc). split_and!; try done; [|lia].
  assert (bs * (4 * n + 3) + 24 <= bs * (4 * n' + 3) + 24); [|lia].
  apply Nat.add_le_mono_r, Nat.mul_le_mono_l. lia.
Qed.

Lemma step_valid bs n m s ev s' :
  valid bs n m s -> run_fits bs n -> ids_left (sh_disk (sys_shared s)) -> step s ev s' ->
  Forall live_event (option_list ev) -> Forall (write_fits bs) (inserted (option_list ev)) ->
  valid bs (n + length (inserted (option_list ev))) (foldl spec_entry m (inserted (option_list ev))) s'.
Proof.
  intros [Hl Hc Ha] Hrun Hids Hs Hlive Hfit. pose proof (step_locked _ _ _ Hl Hs) as Hl'.
  destruct Hs as [i pc dev sh pc' ev Hi Hdev Hw|i pc dev sh pc' Hi Hdev Hf|i r batch Hi|i r Hi|dm Hg].
  - destruct (flushing pc) eqn:Hfl.
    + destruct pc as [| | | | | | |pc|]; try done. cbn in Hw.
      destruct (flush_step dev (sys_shared s) pc) as [[sh1 pc1]|] eqn:Hfs; [|done].
      destruct (flush_step_core _ _ _ _ _ _ _ _ _ _ Hc (Ha _ _ Hi) Hrun Hids Hdev Hfs) as (Hc' & Ha' & Hfr).
      assert (sh = sh1 /\ ev = None /\ flush_assert sh1 (thread_pc (Writer pc'))) as (-> & -> & Hw').
      { by destruct pc1; simplify_eq. }
      cbn. rewrite Nat.add_0_r. split; [done|done|]. eapply assert_update; try done. destruct pc; auto.
    + destruct (write_step_core _ _ _ _ _ _ _ _ _ _ _ Hc Hfl Hw Hlive Hfit) as [Hc' Hfr].
      split; [done|done|]. eapply assert_update; try done; [|by left].
      apply flush_assert_out. destruct pc as [| |? []| | | | | |]; cbn in Hw; try done;
        try (destruct (wal_append _ _ _) as [[| |] ?]); try case_decide; by simplify_eq.
  - destruct (flush_step_core _ _ _ _ _ _ _ _ _ _ Hc (Ha _ _ Hi) Hrun Hids Hdev Hf) as (Hc' & Ha' & Hfr).
    cbn. rewrite Nat.add_0_r. split; [done|done|]. eapply assert_update; try done. destruct pc; auto.
  - cbn. rewrite Nat.add_0_r. split; [done|done|]. eapply assert_update; try done; left. apply frame_refl.
  - cbn. rewrite Nat.add_0_r. split; [done|done|]. eapply assert_update; try done; left. apply frame_refl.
  - cbn. rewrite Nat.add_0_r. destruct (core_disk _ _ _ _ _ _ dm Hc Hg) as [Hc' Hfr].
    split; [done|done|]. intros i t Hi. eapply flush_assert_frame; [exact Hfr|by eapply Ha].
Qed.

Lemma run_valid bs m s evs s' :
  valid bs 0 m s -> run s evs s' -> Forall live_event evs -> Forall (write_fits bs) (inserted evs) ->
  run_fits bs (length (inserted evs)) ->
  valid bs (length (inserted evs)) (foldl spec_entry m (inserted evs)) s'.
Proof.
  intros Hv Hr. induction Hr as [|evs s1 ev s2 Hr IH Hids Hs]; intros Hlive Hfit Hn; [done|].
  rewrite inserted_app, ?length_app, foldl_app in *. apply Forall_app in Hlive as [Hl1 Hl2].
  apply Forall_app in Hfit as [Hf1 Hf2].
  assert (run_fits bs (length (inserted evs))) as Hn1 by (eapply run_fits_weaken; [|exact Hn]; lia).
  eapply step_valid; eauto.
Qed.

Lemma new_valid wal dm ts :
  Forall at_rest ts -> valid (dm_block_size dm) 0 no_view (mkSys (shared_new wal dm) ts).
Proof.
  intros Hr. split; [by apply new_locked| |].
  - split; cbn; try done.
    + repeat constructor. by intros ?%not_elem_of_nil.
    + repeat constructor; cbn; lia.
    + exists []. split; [split_and!; [cbn; lia|constructor..]|]. intros k.
      unfold store_layers, mem_layers, mem_layer, get_mem. cbn. by rewrite om_entries_empty.
    + constructor; [apply mem_fits_new|constructor].
  - intros i t Hi. pose proof (Forall_lookup_1 _ _ _ _ Hr Hi). by destruct t as [[]|[]].
Qed.


(** ** One writer beside any number of sweepers *)

Definition pending (pc : WritePc) : list WriteEntry :=
  match pc with
  | WSnapshot batch => entries batch
  | WInsert _ rest => rest
  | WStore _ e rest => e :: rest
  | _ => []
  end.

(** The table the writer inserts into is the active one. *)
Definition snapshot_live sh (pc : WritePc) : Prop :=
  match pc with WInsert active _ | WStore active _ _ => active = sn_active (sh_state sh) | _ => True end.

Record single evs s : Prop := {
  sg_writer : exists pc, sys_threads s !! 0 = Some (Writer pc) /\ snapshot_live (sys_shared s) pc
    /\ inserted evs ++ pending pc = concat (entries <$> logged evs);
  sg_others i pc : sys_threads s !! S i <> Some (Writer pc);
  sg_live : Forall live_event evs;
}.

Lemma flush_step_active dev sh pc sh' pc' :
  flush_step dev sh pc = Some (sh', pc') -> sn_active (sh_state sh') = sn_active (sh_state sh).
Proof.
  destruct pc; cbn; intros Hs.
  - destruct (sh_flush_lock sh); by simplify_eq.
  - destruct (last _); by simplify_eq.
  - destruct (build_sst_from_memtable _ _ _) as [[| |] ?]; by simplify_eq.
  - by simplify_eq.
  - by simplify_eq.
  - done.
Qed.

Lemma write_step_single evs dev sh pc sh' pc' ev :
  snapshot_live sh pc -> inserted evs ++ pending pc = concat (entries <$> logged evs) ->
  write_step dev sh pc = Some (sh', pc', ev) ->
  snapshot_live sh' pc' /\ Forall live_event (option_list ev) /\
  inserted (evs ++ option_list ev) ++ pending pc' = concat (entries <$> logged (evs ++ option_list ev)).
Proof.
  intros Hl Hp Hs. rewrite inserted_app, logged_app, fmap_app, concat_app.
  destruct pc as [batch|batch|active [|e rest]|active e rest|active| | |pc|r]; cbn in Hs; try done.
  - destruct (wal_append _ _ _) as [[[]| |] w]; simplify_eq; cbn in *; rewrite ?app_nil_r in *;
      split_and!; repeat constructor; by rewrite ?Hp.
  - simplify_eq. cbn in *. rewrite ?app_nil_r in *. by split_and!; [|constructor|].
  - simplify_eq. cbn in *. rewrite ?app_nil_r in *. by split_and!; [|constructor|].
  - simplify_eq. cbn in *. rewrite ?app_nil_r in *. by split_and!; [|constructor|].
  - simplify_eq. cbn in *. rewrite ?app_nil_r in *. split_and!; [done| |by rewrite <- app_assoc].
    repeat constructor. cbn. by rewrite bool_decide_eq_true_2.
  - case_decide; simplify_eq; cbn in *; rewrite ?app_nil_r in *; by split_and!; [|constructor|].
  - simplify_eq. cbn in *. rewrite ?app_nil_r in *. by split_and!; [|constructor|].
  - case_decide; simplify_eq; cbn in *; rewrite ?app_nil_r in *; by split_and!; [|constructor|].
  - destruct (flush_step dev sh pc) as [[sh1 pc1]|]; [|done].
    destruct pc1; simplify_eq; cbn in *; rewrite ?app_nil_r in *; by split_and!; [|constructor|].
Qed.

Lemma step_single evs s ev s' :
  single evs s -> step s ev s' -> single (evs ++ option_list ev) s'.
Proof.
  intros [(pc0 & H0' & Hl & Hp) Ho Hv] Hs.
  destruct Hs as [i pc dev sh pc' ev Hi _ Hw|i pc dev sh pc' Hi _ Hf|i r batch Hi|i r Hi|dm _].
  - destruct i as [|i]; [|by destruct (Ho i pc)]. assert (pc0 = pc) as -> by congruence.
    destruct (write_step_single evs dev (sys_shared s) pc sh pc' ev Hl Hp Hw) as (Hl' & Hv' & Hp').
    split; cbn; [|intros j pc1; by rewrite list_lookup_insert_ne|by apply Forall_app].
    exists pc'. by rewrite list_lookup_insert_eq by (by eapply lookup_lt_Some).
  - destruct i as [|i]; [congruence|]. cbn. rewrite app_nil_r. split; [|cbn|done].
    + exists pc0. cbn. rewrite list_lookup_insert_ne by done. split_and!; try done.
      unfold snapshot_live in *. by rewrite (flush_step_active _ _ _ _ _ Hf).
    + intros j pc1 Hj. apply list_lookup_insert_Some in Hj as [(_ & ? & _)|[_ Hj]]; [done|by destruct (Ho j pc1)].
  - destruct i as [|i]; [|by destruct (Ho i (WDone r))]. assert (pc0 = WDone r) as -> by congruence. cbn. rewrite app_nil_r.
    split; [|cbn; intros j pc1; by rewrite list_lookup_insert_ne|done].
    exists (WAppend batch). cbn. by rewrite list_lookup_insert_eq by (by eapply lookup_lt_Some).
  - destruct i as [|i]; [congruence|]. cbn. rewrite app_nil_r. split; [|cbn|done].
    + exists pc0. cbn. by rewrite list_lookup_insert_ne.
    + intros j pc1 Hj. apply list_lookup_insert_Some in Hj as [(_ & ? & _)|[_ Hj]]; [done|by destruct (Ho j pc1)].
  - cbn. rewrite app_nil_r. by split; [exists pc0| |].
Qed.

Lemma run_single s evs s' : single [] s -> run s evs s' -> single evs s'.
Proof. induction 2; [done|]. by eapply step_single. Qed.

Lemma foldl_spec_write bs m : foldl spec_write m bs = foldl spec_entry m (concat (entries <$> bs)).
Proof. revert m. induction bs as [|b bs IH]; intros m; [done|]. cbn. by rewrite IH, foldl_app. Qed.


(** ** No deadlock *)

(** Thread [i] can take its next step. *)
Definition enabled (dev : Device) s (i : nat) : Prop :=
  match sys_threads s !! i with
  | Some (Writer pc) => is_Some (write_step dev (sys_shared s) pc)
  | Some (Sweeper pc) => is_Some (flush_step dev (sys_shared s) pc)
  | None => False
  end.

(** The flush steps left before the lock is free again. *)
Definition flush_rank (pc : FlushPc) : nat :=
  match pc with FLock => 5 | FSnapshot => 4 | FBuild _ => 3 | FInstall _ => 2 | FUnlock _ => 1 | FDone _ => 0 end.

Lemma flush_step_progress dev sh pc :
  (pc = FLock -> sh_flush_lock sh = false) -> flush_rank pc <> 0 ->
  exists sh' pc', flush_step dev sh pc = Some (sh', pc') /\ flush_rank pc' < flush_rank pc.
Proof.
  intros Hl Hr. destruct pc; cbn in *; try rewrite Hl by done; try (destruct (last _));
    try (destruct (build_sst_from_memtable _ _ _) as [[| |] ?]); try done;
    do 2 eexists; (split; [done|cbn; lia]).
Qed.

Lemma write_step_progress dev sh pc :
  (pc = WFlush FLock -> sh_flush_lock sh = false) ->
  (forall r, pc <> WDone r /\ pc <> WFlush (FDone r)) -> is_Some (write_step dev sh pc).
Proof.
  intros Hl Hd. destruct pc as [| |? []| | | | |pc|r]; cbn; try (by eexists).
  - destruct (wal_append _ _ _) as [[| |] ?]; eauto.
  - case_decide; eauto.
  - case_decide; eauto.
  - destruct (flush_step_progress dev sh pc) as (sh' & pc' & -> & _).
    + intros ->. by apply Hl.
    + intros Hr. destruct pc; try done. by destruct (Hd r).
    + destruct pc'; eauto.
  - by destruct (Hd r).
Qed.

(** No call in progress is left standing in its last state. *)
Lemma run_no_stuck s evs s' :
  run s evs s' -> (forall i r, sys_threads s !! i <> Some (Writer (WFlush (FDone r)))) ->
  forall i r, sys_threads s' !! i <> Some (Writer (WFlush (FDone r))).
Proof.
  intros Hrun Hs. induction Hrun as [|evs s1 ev s2 _ IH _ Hst]; [done|]. intros i r Hi.
  destruct Hst as [j pc dev sh pc' ev Hj _ Hw|j pc dev sh pc' Hj _ Hf|j r' batch Hj|j r' Hj|dm _]; cbn in Hi;
    try (apply list_lookup_insert_Some in Hi as [(_ & ? & _)|[_ Hi]]; [|by eapply IH]; simplify_eq); [|by eapply IH].
  destruct pc as [| |? []| | | | |pc|]; cbn in Hw; try done;
    try (destruct (wal_append _ _ _) as [[| |] ?]); try case_decide; simplify_eq.
  destruct (flush_step _ _ _) as [[? []]|]; by simplify_eq.
Qed.

(** C12: A thread with a call in progress can take its next step, unless it waits
    for the flush lock; then another thread holds the lock, and that one can
    step on whatever the device answers. *)
Theorem no_deadlock wal dm ts evs s i t dev :
  Forall at_rest ts -> run (mkSys (shared_new wal dm) ts) evs s ->
  sys_threads s !! i = Some t -> ~ at_rest t ->
  enabled dev s i \/ exists j, j <> i /\ holds (sys_threads s) j /\ enabled dev s j.
Proof.
  intros Hr Hrun Hi Hn. pose proof (run_locked _ _ _ (new_locked wal dm ts Hr) Hrun) as Hl.
  assert (forall i r, sys_threads s !! i <> Some (Writer (WFlush (FDone r)))) as Hns.
  { eapply run_no_stuck; [exact Hrun|]. intros k r Hk. cbn in Hk.
    pose proof (Forall_lookup_1 _ _ _ _ Hr Hk). done. }
  assert (forall k u, sys_threads s !! k = Some u -> ~ at_rest u ->
    (thread_pc u = FLock -> sh_flush_lock (sys_shared s) = false) -> enabled dev s k) as Hen.
  { intros k u Hk Hu Hlk. unfold enabled. rewrite Hk. destruct u as [pc|pc].
    - apply write_step_progress; [by intros ->; apply Hlk|]. intros r.
      split; intros ->; [by destruct Hu|by eapply Hns].
    - destruct (flush_step_progress dev (sys_shared s) pc) as (? & ? & -> & _); [by intros ->; apply Hlk| |by eexists].
      intros Hz. by destruct pc; cbn in *. }
  destruct (sh_flush_lock (sys_shared s)) eqn:Hlk; [|left; by eapply Hen].
  assert (thread_pc t = FLock \/ thread_pc t <> FLock) as [Hw|Hw] by (destruct (thread_pc t); auto);
    [|left; eapply Hen; naive_solver].
  right. destruct (lk_owner _ Hl Hlk) as [j (u & Hj & Hc)]. exists j. split_and!.
  - intros ->. simplify_eq. by rewrite Hw in Hc.
  - by exists u.
  - eapply Hen; [exact Hj| |].
    + intros Hu. destruct u as [[]|[]]; try done.
    + intros Hp. by rewrite Hp in Hc.
Qed.

(** ** A write run alone *)

(** [write] with nothing else running; [None] when it is stuck or the fuel ends. *)
Fixpoint write_alone (fuel : nat) (dev : Device) (sh : Shared M W) (pc : WritePc) :
    option (Shared M W * StorageResult unit) :=
  match fuel, pc with
  | 0, _ => None
  | S fuel', WDone r => Some (sh, r)
  | S fuel', _ => match write_step dev sh pc with
                  | Some (sh', pc', _) => write_alone fuel' dev sh' pc'
                  | None => None
                  end
  end.

(** The tables of the state are distinct and exist. *)
Definition tables_ok sh : Prop :=
  NoDup (sn_active (sh_state sh) :: sn_imms (sh_state sh)) /\
  Forall (fun i => i < length (sh_mems sh)) (sn_active (sh_state sh) :: sn_imms (sh_state sh)).

Lemma store_entry_count e (t : MemTable M) : store_entry e (count_entry e t) = apply_write t e.
Proof. by destruct e. Qed.

Lemma write_alone_step fuel dev sh pc sh' pc' ev :
  write_step dev sh pc = Some (sh', pc', ev) ->
  write_alone (S fuel) dev sh pc = write_alone fuel dev sh' pc'.
Proof. intros Hs. destruct pc; cbn [write_alone]; by rewrite ?Hs. Qed.

Lemma write_alone_inserts dev active rest : forall sh fuel,
  write_alone (2 * length rest + S fuel) dev sh (WInsert active rest)
  = write_alone fuel dev (set_mems (alter (fun t => foldl apply_write t rest) active (sh_mems sh)) sh) (WCheck active).
Proof.
  induction rest as [|e rest IH]; intros sh fuel.
  - cbn. f_equal. destruct sh. unfold set_mems. cbn. by rewrite list_alter_id.
  - replace (2 * length (e :: rest) + S fuel) with (S (S (2 * length rest + S fuel))) by (cbn; lia).
    do 2 erewrite write_alone_step by reflexivity. rewrite IH. unfold set_mems. cbn. do 2 f_equal.
    rewrite !list_alter_alter_eq. apply list_alter_ext; [|done]. intros t _. cbn. by rewrite store_entry_count.
Qed.

Lemma store_of_alter sh f :
  tables_ok sh ->
  store_of (set_mems (alter f (sn_active (sh_state sh)) (sh_mems sh)) sh)
  = set_state (store_of sh) (mkLsmState (f (active_mem (st_state (store_of sh))))
      (imm_memtables (st_state (store_of sh))) (levels (st_state (store_of sh)))).
Proof.
  intros [[Hni _]%NoDup_cons [Ha _]%Forall_cons]. unfold LsmConc.store_of, set_state. cbn. f_equal. f_equal.
  - by rewrite get_mem_alter, decide_True.
  - apply list_fmap_ext. intros j i Hi%list_elem_of_lookup_2. rewrite get_mem_alter by done. by rewrite decide_False by congruence.
Qed.

Lemma tables_ok_alter sh f i : tables_ok sh -> tables_ok (set_mems (alter f i (sh_mems sh)) sh).
Proof. intros [? ?]. split; [done|]. cbn. by rewrite length_alter. Qed.

Lemma store_of_switch sh :
  tables_ok sh -> store_of (switch_step opt sh) = switch_memtable (store_of sh) /\ tables_ok (switch_step opt sh).
Proof.
  intros [Hnd Hb]. unfold switch_step, switch_memtable. cbn. case_decide; [done|].
  assert (forall i, i ∈ sn_active (sh_state sh) :: sn_imms (sh_state sh) ->
    default memtable_new ((sh_mems sh ++ [memtable_new]) !! i) = get_mem sh i) as Hget.
  { intros i Hi. rewrite Forall_forall in Hb. unfold get_mem. by rewrite lookup_app_l by (by apply Hb). }
  split.
  - unfold LsmConc.store_of, set_state. cbn. f_equal. f_equal.
    + unfold get_mem. cbn. by rewrite lookup_app_r, Nat.sub_diag by lia.
    + f_equal; [unfold get_mem at 1; cbn; by rewrite Hget by (by left)|].
      apply list_fmap_ext. intros j i Hi%list_elem_of_lookup_2. unfold get_mem at 1. cbn. by rewrite Hget by (by right).
  - split; cbn.
    + constructor; [|done]. intros Hin. rewrite Forall_forall in Hb. apply Hb in Hin. lia.
    + rewrite length_app. cbn. constructor; [lia|]. eapply Forall_impl; [exact Hb|]. cbn. lia.
Qed.

Lemma flush_alone dev sh :
  sh_flush_lock sh = false ->
  exists sh' r, write_alone 6 dev sh (WFlush FLock) = Some (sh', r)
    /\ flush_oldest_imm (store_of sh) (sh_disk sh) dev = (r, (store_of sh', sh_disk sh'))
    /\ sh_flush_lock sh' = false.
Proof.
  intros Hl. unfold flush_oldest_imm. cbn [LsmConc.store_of st_state imm_memtables]. rewrite fmap_last.
  erewrite write_alone_step by (cbn; by rewrite Hl).
  destruct (last (sn_imms (sh_state sh))) as [oldest|] eqn:Hlast.
  2:{ erewrite write_alone_step by (cbn; by rewrite Hlast). erewrite write_alone_step by done. by do 2 eexists. }
  erewrite write_alone_step by (cbn; by rewrite Hlast).
  destruct (build_sst_from_memtable (sh_disk sh) dev (get_mem sh oldest)) as [r dm] eqn:Hb. cbn [fmap option_fmap option_map].
  rewrite Hb.
  change (get_mem sh oldest) with (get_mem (set_lock true sh) oldest) in Hb.
  destruct r as [meta|e|]; (erewrite write_alone_step by (cbn; by rewrite Hb)).
  - do 2 erewrite write_alone_step by done. do 2 eexists. split_and!; try done.
    unfold LsmConc.store_of, set_state. cbn. by rewrite removelast_fmap.
  - erewrite write_alone_step by done. by do 2 eexists.
  - erewrite write_alone_step by done. by do 2 eexists.
Qed.

(** What [write] does once the batch is in the memtable. *)
Lemma check_alone dev sh :
  tables_ok sh -> sh_flush_lock sh = false ->
  exists sh' r, write_alone 9 dev sh (WCheck (sn_active (sh_state sh))) = Some (sh', r)
    /\ (let self := store_of sh in
        if decide (memtable_size_limit opt <= estimate_memory (active_mem (st_state self))) then
          let self := switch_memtable self in
          if decide (max_imm_memtables (st_table_option self) <= length (imm_memtables (st_state self)))
          then flush_oldest_imm self (sh_disk sh) dev
          else (Ok tt, (self, sh_disk sh))
        else (Ok tt, (self, sh_disk sh))) = (r, (store_of sh', sh_disk sh'))
    /\ sh_flush_lock sh' = false.
Proof.
  intros Hok Hl. cbn zeta. destruct (store_of_switch sh Hok) as [<- _].
  assert (sh_disk (switch_step opt sh) = sh_disk sh /\ sh_flush_lock (switch_step opt sh) = false) as [Hd Hl'].
  { unfold switch_step. by case_decide. }
  assert (write_alone 9 dev sh (WCheck (sn_active (sh_state sh)))
    = if decide (memtable_size_limit opt <= estimate_memory (get_mem sh (sn_active (sh_state sh))))
      then write_alone 7 dev (switch_step opt sh) WCount else Some (sh, Ok tt)) as ->.
  { case_decide as Hsz; (erewrite write_alone_step; [|cbn; by rewrite ?(decide_True _ _ Hsz), ?(decide_False _ _ Hsz)]);
      [by erewrite write_alone_step|done]. }
  cbn [st_state active_mem LsmConc.store_of]. case_decide; [|by do 2 eexists].
  rewrite <- Hd. generalize dependent (switch_step opt sh). intros sh3 _ Hl'.
  assert (write_alone 7 dev sh3 WCount = if decide (max_imm_memtables opt <= length (sn_imms (sh_state sh3)))
    then write_alone 6 dev sh3 (WFlush FLock) else Some (sh3, Ok tt)) as ->.
  { case_decide as Hsz; (erewrite write_alone_step; [|cbn; by rewrite ?(decide_True _ _ Hsz), ?(decide_False _ _ Hsz)]); done. }
  cbn [st_state imm_memtables st_table_option LsmConc.store_of]. rewrite length_fmap.
  case_decide; [by apply flush_alone|by do 2 eexists].
Qed.

(** [write] cut into the steps other threads can see, run without interruption,
    is the [store_write] of one step: same result, store and directory, on
    every path, errors included; the lock is free again. *)
Theorem write_alone_equiv sh dev batch :
  tables_ok sh -> sh_flush_lock sh = false ->
  exists sh' r, write_alone (2 * length (entries batch) + 12) dev sh (WAppend batch) = Some (sh', r)
    /\ store_write (store_of sh) (sh_disk sh) dev batch = (r, (store_of sh', sh_disk sh'))
    /\ sh_flush_lock sh' = false.
Proof.
  intros Hok Hl.
  replace (2 * length (entries batch) + 12) with (S (S (2 * length (entries batch) + S 9))) by lia.
  destruct (wal_append (sh_wal sh) shard_id batch) as [r wal] eqn:Hw.
  assert (forall l, write_alone (S (S l)) dev sh (WAppend batch) = match r with
    | Ok _ => write_alone l dev (set_log wal sh) (WInsert (sn_active (sh_state sh)) (entries batch))
    | Err e => Some (set_log wal sh, Err e) | Panic => Some (set_log wal sh, Panic) end) as ->.
  { intros l. destruct r; (erewrite write_alone_step; [|cbn; by rewrite Hw]); [|done..]. by erewrite write_alone_step. }
  destruct r as [[]|e|]; [|unfold store_write; cbn; rewrite Hw; by do 2 eexists..].
  rewrite write_alone_inserts, (store_write_logged (store_of sh) (sh_disk sh) dev batch wal Hw).
  assert (tables_ok (set_log wal sh)) as Hok1 by done.
  apply (tables_ok_alter _ (fun t => foldl apply_write t (entries batch)) (sn_active (sh_state (set_log wal sh)))) in Hok1 as Hok2.
  destruct (check_alone dev _ Hok2 Hl) as (sh' & r & Ha & Hs & Hl'). exists sh', r. split; [exact Ha|]. split; [|done].
  rewrite (store_of_alter _ (fun t => foldl apply_write t (entries batch)) Hok1) in Hs. exact Hs.
Qed.

(** ** Running a schedule *)

Inductive Action := Call (i : nat) (batch : WriteBatch) | Sweep (i : nat) | Go (i : nat).

(** One action on a device: a thread starts a call or takes its next step. *)
Definition act (dev : Device) (s : Sys M W) (a : Action) : option (option Event * Sys M W) :=
  let put i t sh := mkSys sh (<[i := t]> (sys_threads s)) in
  match a with
  | Call i batch => match sys_threads s !! i with
      | Some (Writer (WDone _)) => Some (None, put i (Writer (WAppend batch)) (sys_shared s))
      | _ => None end
  | Sweep i => match sys_threads s !! i with
      | Some (Sweeper (FDone _)) => Some (None, put i (Sweeper FLock) (sys_shared s))
      | _ => None end
  | Go i => match sys_threads s !! i with
      | Some (Writer pc) => '(sh, pc', ev) ← write_step dev (sys_shared s) pc; Some (ev, put i (Writer pc') sh)
      | Some (Sweeper pc) => '(sh, pc') ← flush_step dev (sys_shared s) pc; Some (None, put i (Sweeper pc') sh)
      | None => None end
  end.

#[local] Instance ids_left_dec dm : Decision (ids_left dm).
Proof. unfold ids_left. apply _. Defined.

Fixpoint schedule (dev : Device) (s : Sys M W) (l : list Action) : option (list Event * Sys M W) :=
  match l with
  | [] => Some ([], s)
  | a :: l' =>
      if decide (ids_left (sh_disk (sys_shared s))) then
        '(ev, s1) ← act dev s a; '(evs, s2) ← schedule dev s1 l'; Some (option_list ev ++ evs, s2)
      else None
  end.

Lemma act_step dev s a ev s' : device_answers dev -> act dev s a = Some (ev, s') -> step s ev s'.
Proof.
  intros Hdev Ha. destruct a as [i batch|i|i]; cbn in Ha;
    destruct (sys_threads s !! i) as [[pc|pc]|] eqn:Hi; try done.
  - destruct pc; try done. simplify_eq. by eapply step_call.
  - destruct pc; try done. simplify_eq. by eapply step_sweep_call.
  - destruct (write_step dev (sys_shared s) pc) as [[[sh pc'] ev']|] eqn:Hw; [|done]. cbn in Ha. simplify_eq.
    by eapply step_write.
  - destruct (flush_step dev (sys_shared s) pc) as [[sh pc']|] eqn:Hw; [|done]. cbn in Ha. simplify_eq.
    by eapply step_sweep.
Qed.

Lemma run_trans s1 e1 s2 e2 s3 : run s1 e1 s2 -> run s2 e2 s3 -> run s1 (e1 ++ e2) s3.
Proof.
  intros H1' H2. induction H2 as [|e2 s3 ev s4 _ IH Hids Hs]; [by rewrite app_nil_r|].
  rewrite app_assoc. by eapply run_step.
Qed.

Lemma schedule_run dev l : device_answers dev -> forall s evs s', schedule dev s l = Some (evs, s') -> run s evs s'.
Proof.
  intros Hdev. induction l as [|a l IH]; intros s evs s' Hs; cbn in Hs; [simplify_eq; constructor|].
  case_decide as Hids; [|done]. destruct (act dev s a) as [[ev s1]|] eqn:Ha; [|done]. cbn in Hs.
  destruct (schedule dev s1 l) as [[evs1 s2]|] eqn:Hl; [|done]. cbn in Hs. simplify_eq.
  eapply run_trans; [|by apply IH]. apply (run_step _ _ _ [] s); [constructor|done|by eapply act_step].
Qed.
End Theorems.

(** *** Witnesses *)

Abbreviation DemoSys := (Sys SortedAssoc DemoWal).
Definition demo_sys (ts : list Thread) : DemoSys := mkSys (shared_new (mkDemoWal []) demo_disk) ts.
Definition demo_schedule := schedule (M := SortedAssoc) (W := DemoWal) demo_table 0 healthy.

Lemma healthy_answers : device_answers healthy.
Proof. left. by split. Qed.

Definition events_of (r : option (list Event * DemoSys)) : list Event := default [] (fst <$> r).
Definition after (s : DemoSys) (r : option (list Event * DemoSys)) : DemoSys := default s (snd <$> r).

Lemma conc_demo_run ts l :
  bool_decide (is_Some (demo_schedule (demo_sys ts) l)) = true ->
  run demo_table 0 (demo_sys ts) (events_of (demo_schedule (demo_sys ts) l))
    (after (demo_sys ts) (demo_schedule (demo_sys ts) l)).
Proof.
  intros [[evs s] Hs]%bool_decide_eq_true. rewrite Hs. cbn. by apply (schedule_run _ _ healthy l healthy_answers).
Qed.

(** Two writers whose batches interleave, and a sweeper that meets them. *)
Definition one (k : bytes) (v : Byte.byte) : WriteBatch := mkWriteBatch [WPut k [v]].
Definition interleaved : list Action :=
  [Call 0 batch1; Go 0; Go 0; Call 1 batch2; Go 1; Go 1; Go 1; Go 0; Go 1; Go 0; Sweep 2; Go 2; Go 2; Go 2;
   Go 0; Go 0; Go 0; Go 0; Go 0; Go 1; Go 1; Go 1; Go 1; Go 1; Go 1; Go 1; Sweep 2; Go 1; Go 1].
Definition interleaved_ts : list Thread := [idle_writer; idle_writer; idle_sweeper].

(** ** The run in which a write is lost *)

(** Writer 0 logs its batch and takes its snapshot; writer 1 fills the same
    memtable, switches it out and flushes it; then writer 0 inserts. *)
Definition lost_schedule : list Action :=
  [Call 0 (one k1 Byte.x31); Go 0; Go 0; Go 0; Call 1 (one k2 Byte.x32)] ++ replicate 13 (Go 1) ++ replicate 5 (Go 0).
Definition two_writers : list Thread := [idle_writer; idle_writer].
Definition lost : option (list Event * DemoSys) := demo_schedule (demo_sys two_writers) lost_schedule.

(** Both writes returned [Ok], both batches are in the log, and a scan of the
    whole store lists only the key of writer 1: nothing stops a writer from
    inserting into a memtable that was switched out, and flushed, after it took
    its snapshot. *)
Theorem acknowledged_write_lost :
  exists evs s, run demo_table 0 (demo_sys two_writers) evs s
    /\ sys_threads s = [Writer (WDone (Ok tt)); Writer (WDone (Ok tt))]
    /\ logged evs = [one k1 Byte.x31; one k2 Byte.x32]
    /\ (scan <-- store_scan (store_of demo_table 0 (sys_shared s)) (sh_disk (sys_shared s)) 10
                   (Unbounded, Unbounded) false ;;
        lsm_collect Fwd 10 scan) = Ok [(k2, Put [Byte.x32])].
Proof.
  exists (events_of lost), (after (demo_sys two_writers) lost).
  split; [apply conc_demo_run; vm_compute; reflexivity|]. split_and!; vm_compute; reflexivity.
Qed.

Lemma fits_256 n : n <= 1000 -> run_fits 256 n.
Proof. intros Hn. unfold run_fits, u32_max, u64_max. cbv [BLOCK_FIXED_HEADER_SIZE]. lia. Qed.

Ltac write_fits_tac :=
  vm_compute; repeat constructor; unfold key_fits; vm_compute; lia.

Definition interleaved_end : option (list Event * DemoSys) := demo_schedule (demo_sys interleaved_ts) interleaved.


(** A writer writes twice while a sweeper flushes. *)
Definition swept : list Action :=
  [Call 0 batch1; Go 0; Sweep 1; Go 0; Go 1; Go 0; Go 1; Go 0; Go 1; Go 0; Go 0; Go 0; Go 0; Go 0; Go 0; Go 0;
   Sweep 1; Go 1; Go 1; Go 1; Go 0; Go 1; Go 1; Go 0; Go 0; Go 0;
   Call 0 batch2] ++ replicate 13 (Go 0).
Definition swept_ts : list Thread := idle_writer :: replicate 1 idle_sweeper.
Definition swept_end : option (list Event * DemoSys) := demo_schedule (demo_sys swept_ts) swept.


(** The writer waits for the lock, the sweeper is about to install its SST. *)
Definition waiting : option (list Event * DemoSys) := demo_schedule (demo_sys swept_ts) (take 21 swept).

Lemma no_deadlock_witness :
  let s := after (demo_sys swept_ts) waiting in
  sys_threads s !! 0 = Some (Writer (WFlush FLock)) /\
  (enabled demo_table 0 healthy s 0 \/
   exists j, j <> 0 /\ holds (sys_threads s) j /\ enabled demo_table 0 healthy s j).
Proof.
  split; [vm_compute; reflexivity|].
  apply (no_deadlock demo_table 0 (mkDemoWal []) demo_disk swept_ts (events_of waiting) _ 0 (Writer (WFlush FLock)) healthy).
  - by repeat constructor.
  - apply conc_demo_run. vm_compute. reflexivity.
  - vm_compute. reflexivity.
  - intros [].
Defined.

Lemma write_alone_equiv_witness :
  exists (sh' : Shared SortedAssoc DemoWal) r,
    write_alone demo_table 0 (2 * length (entries batch1) + 12) healthy (sys_shared (demo_sys [])) (WAppend batch1)
      = Some (sh', r)
    /\ store_write demo_store demo_disk healthy batch1 = (r, (store_of demo_table 0 sh', sh_disk sh'))
    /\ sh_flush_lock sh' = false.
Proof.
  apply (write_alone_equiv demo_table 0 (sys_shared (demo_sys [])) healthy batch1); [|reflexivity].
  split; [apply NoDup_singleton|]. constructor; [cbn; lia|constructor].
Defined.
