(* ===== verification/LsmConcSnapshot.v ===== *)
(** Snapshots of the concurrent store: what a reader that cloned the state
    ([LsmStore::snapshot], the first step of [scan]) sees later.

    The memtables of a snapshot are shared with the writers and its SST files
    with the directory, so its contents move on after it was taken. It stays a
    state the store went through. *)

From stdpp Require Import base list numbers strings sorting gmap.
From S2P Require Import Prelude.
From S2P Require Import Errors.
From S2P Require Import Iter.
From S2P Require Import BlockBuilder.
From S2P Require Import SstBuilder.
From S2P Require Import SstBuilderCorrect.
From S2P Require Import MemTable.
From S2P Require Import DiskManager.
From S2P Require Import Newest.
From S2P Require Import LsmStore.
From S2P Require Import LsmRefine.
From S2P Require Import LsmTheorems.
From S2P Require Import LsmEngine.
From S2P Require Import LsmConc.
From S2P Require Import LsmConcRefine.
From S2P Require Import LsmConcTheorems.

Section Snapshot.
Context {M W : Type} `{OrderedMapLaws M} `{WalStore W} (opt : LsmTableOption) (shard_id : Z).
Implicit Types (sh : Shared M W) (s : Sys M W) (sn : Snapshot).

Abbreviation step := (step opt shard_id).
Abbreviation run := (run opt shard_id).
Abbreviation write_step := (write_step opt shard_id).
Abbreviation core := (core opt shard_id).
Abbreviation valid := (valid opt shard_id).

(** The store as a reader with snapshot [sn] sees it now. *)
Definition store_at sn sh : LsmStore M W := store_of opt shard_id (set_sn sn sh).

(** The reader's tables: still written to, or all older than the active one. *)
Definition tables_of sn : list nat := sn_active sn :: sn_imms sn.
Definition behind sn sh : Prop := Forall (fun i => i < sn_active (sh_state sh)) (tables_of sn).

(** Storing into a table outside the state changes no layer of it. *)
Lemma core_store_other bs n m sh e i :
  core bs n m sh -> write_fits bs e -> i ∉ tables_of (sh_state sh) ->
  core bs (S n) m (set_mems (alter (store_entry e) i (sh_mems sh)) sh).
Proof.
  intros [Hbs Hnd Hb [l0s Hr] Hfit] He Hi. split; try done.
  - eapply Forall_impl; [exact Hb|]. intros j. cbn. by rewrite length_alter.
  - exists l0s. eapply represents_layers; [exact Hr|done|].
    apply store_layers_ext; [|done|done]. intros j Hj. unfold get_mem. cbn.
    rewrite list_lookup_alter_ne; [done|]. intros ->. by apply Hi.
  - apply Forall_alter; [|intros t Ht _; apply mem_fits_store; [done|exact (Forall_lookup_1 _ _ _ _ Hfit Ht)]].
    eapply Forall_impl; [exact Hfit|]. intros t. apply mem_fits_weaken. lia.
Qed.

(** A new table behind the others changes nothing. *)
Lemma core_grow bs n m sh : core bs n m sh -> core bs n m (set_mems (sh_mems sh ++ [memtable_new]) sh).
Proof.
  intros [Hbs Hnd Hb [l0s Hr] Hfit]. split; try done.
  - cbn. rewrite length_app. eapply Forall_impl; [exact Hb|]. cbn. lia.
  - exists l0s. eapply represents_layers; [exact Hr|done|]. apply store_layers_ext; [|done|done].
    intros j Hj. rewrite Forall_forall in Hb. unfold get_mem. cbn. by rewrite lookup_app_l by (by apply Hb).
  - cbn. apply Forall_app. split; [done|]. constructor; [apply mem_fits_new|done].
Qed.

(** What the reader relies on: it sees the map [m] after the entries [es], all
    the entries inserted since while its active table was the store's. *)
Definition sees bs n sn (m : view) (es all : list WriteEntry) sh : Prop :=
  core bs n (foldl spec_entry m es) (set_sn sn sh)
  /\ (sn_active (sh_state sh) = sn_active sn /\ es = all \/ behind sn sh /\ es `prefix_of` all).

(** Steps that keep the tables and the active one. *)
Lemma sees_same bs n sn m es all sh sh' :
  sees bs n sn m es all sh -> sn_active (sh_state sh') = sn_active (sh_state sh) ->
  length (sh_mems sh') = length (sh_mems sh) ->
  (forall i, mem_layer (get_mem sh' i) = mem_layer (get_mem sh i)) ->
  disk_grows (sh_disk sh) (sh_disk sh') -> sees bs n sn m es all sh'.
Proof.
  intros [Hc Hb] Ha Hl Hm Hd. split; [|unfold behind in *; by rewrite Ha].
  destruct (core_disk opt shard_id bs n _ (set_sn sn sh) (sh_disk sh') Hc Hd) as [Hc' _].
  by eapply core_same in Hc' as [Hc' _].
Qed.

Lemma flush_step_sees bs n sn m es all dev sh pc sh' pc' :
  ids_left (sh_disk sh) -> flush_step dev sh pc = Some (sh', pc') ->
  sees bs n sn m es all sh -> sees bs n sn m es all sh'.
Proof.
  intros Hids Hf Hs. pose proof (flush_step_active _ _ _ _ _ Hf) as Ha.
  apply (sees_same bs n sn m es all sh); [done|done|..];
    destruct pc as [| |oldest|meta|r|r]; cbn in Hf; try destruct (sh_flush_lock sh); try destruct (last _);
    try (pose proof (build_sst_grows (sh_disk sh) dev (get_mem sh oldest) Hids) as Hg;
         destruct (build_sst_from_memtable _ _ _) as [[| |] ?]); simplify_eq; try done; apply disk_grows_refl.
Qed.

Lemma write_step_sees bs n sn m es all dev sh pc sh' pc' ev :
  Forall (fun i => i < length (sh_mems sh)) (tables_of (sh_state sh)) ->
  flushing pc = false -> write_step dev sh pc = Some (sh', pc', ev) ->
  Forall live_event (option_list ev) -> Forall (write_fits bs) (inserted (option_list ev)) ->
  sees bs n sn m es all sh ->
  exists es', sees bs (n + length (inserted (option_list ev))) sn m es' (all ++ inserted (option_list ev)) sh'.
Proof.
  intros Hbd Hnf Hs Hlive Hfit Hv.
  destruct pc as [batch|batch|active [|e rest]|active e rest|active| | |pc|r]; cbn in Hs; try done.
  - exists es. destruct (wal_append _ _ _) as [[[]| |] w]; simplify_eq; cbn; rewrite Nat.add_0_r, app_nil_r;
      (eapply sees_same; [exact Hv|done..|apply disk_grows_refl]).
  - exists es. simplify_eq. cbn. by rewrite Nat.add_0_r, app_nil_r.
  - exists es. simplify_eq. cbn. by rewrite Nat.add_0_r, app_nil_r.
  - exists es. simplify_eq. cbn. rewrite Nat.add_0_r, app_nil_r. eapply sees_same; [exact Hv|done| | |apply disk_grows_refl].
    + cbn. by rewrite length_alter.
    + intros i. apply layer_count_alter.
  - simplify_eq. cbn in *. apply Forall_cons in Hlive as [Hlive%bool_decide_eq_true _]. subst active.
    apply Forall_cons in Hfit as [He _]. rewrite Nat.add_1_r. destruct Hv as [Hc [[Ha ->]|[Hb Hp]]].
    + exists (all ++ [e]). split; [|by left]. rewrite foldl_app. cbn. rewrite Ha.
      exact (proj1 (core_store opt shard_id bs n _ (set_sn sn sh) e Hc He)).
    + exists es. split; [|right; split; [done|by apply prefix_app_r]].
      apply (core_store_other bs n _ (set_sn sn sh) e); [done|done|]. intros Hin.
      unfold behind in Hb. rewrite Forall_forall in Hb. apply Hb in Hin. lia.
  - exists es. case_decide; simplify_eq; cbn; by rewrite Nat.add_0_r, app_nil_r.
  - exists es. simplify_eq. cbn. rewrite Nat.add_0_r, app_nil_r. unfold switch_step. case_decide; [done|].
    destruct Hv as [Hc Hb]. split; [exact (core_grow bs n _ (set_sn sn sh) Hc)|]. right. split.
    + destruct Hc as [_ _ Hbound _ _]. exact Hbound.
    + by destruct Hb as [[_ ->]|[_ ?]].
  - exists es. case_decide; simplify_eq; cbn; by rewrite Nat.add_0_r, app_nil_r.
Qed.

Lemma step_sees bs n N mv sn m es all s ev s' :
  valid bs N mv s -> ids_left (sh_disk (sys_shared s)) -> step s ev s' ->
  Forall live_event (option_list ev) -> Forall (write_fits bs) (inserted (option_list ev)) ->
  sees bs n sn m es all (sys_shared s) ->
  exists es', sees bs (n + length (inserted (option_list ev))) sn m es' (all ++ inserted (option_list ev)) (sys_shared s').
Proof.
  intros Hval Hids Hs Hlive Hfit Hv.
  destruct Hs as [i pc dev sh pc' ev Hi _ Hw|i pc dev sh pc' Hi _ Hf|i r batch Hi|i r Hi|dm Hg].
  - destruct (flushing pc) eqn:Hfl.
    + destruct pc as [| | | | | | |pc|]; try done. cbn in Hw.
      destruct (flush_step dev (sys_shared s) pc) as [[sh1 pc1]|] eqn:Hfs; [|done].
      assert (sh = sh1 /\ ev = None) as [-> ->] by (by destruct pc1; simplify_eq).
      exists es. cbn. rewrite Nat.add_0_r, app_nil_r. by eapply flush_step_sees.
    + eapply write_step_sees; try done. destruct Hval as [_ [_ _ Hb _ _] _]. exact Hb.
  - exists es. cbn. rewrite Nat.add_0_r, app_nil_r. by eapply flush_step_sees.
  - exists es. cbn. by rewrite Nat.add_0_r, app_nil_r.
  - exists es. cbn. by rewrite Nat.add_0_r, app_nil_r.
  - exists es. cbn. rewrite Nat.add_0_r, app_nil_r. by eapply sees_same.
Qed.

Lemma run_sees bs n m s evs s' :
  valid bs n m s -> run s evs s' ->
  Forall live_event evs -> Forall (write_fits bs) (inserted evs) -> run_fits bs (n + length (inserted evs)) ->
  valid bs (n + length (inserted evs)) (foldl spec_entry m (inserted evs)) s'
  /\ exists es, sees bs (n + length (inserted evs)) (sh_state (sys_shared s)) m es (inserted evs) (sys_shared s').
Proof.
  intros Hv Hr. induction Hr as [|evs s1 ev s2 Hr IH Hids Hs]; intros Hlive Hfit Hn.
  - cbn. rewrite Nat.add_0_r. split; [done|]. exists []. destruct Hv as [_ Hc _]. split; [|by left].
    by destruct (sys_shared s).
  - rewrite inserted_app, length_app, Nat.add_assoc, foldl_app in *. apply Forall_app in Hlive as [Hl1 Hl2].
    apply Forall_app in Hfit as [Hf1 Hf2].
    assert (run_fits bs (n + length (inserted evs))) as Hn1 by (eapply run_fits_weaken; [|exact Hn]; lia).
    destruct (IH Hl1 Hf1 Hn1) as [Hv1 [es Hes]]. split; [by eapply step_valid|]. by eapply step_sees.
Qed.

(** ** Overwrites in progress

    [LsmConc] stores an entry in one step; the skip list removes an old entry
    with its key first. A reader may come between the two, for any of the
    insertions in flight. *)

(** The insertions in flight: the table and the key. *)
Definition in_flight (ts : list Thread) : list (nat * bytes) :=
  omap (fun t => match t with Writer (WStore active e _) => Some (active, (entry_of e).1) | _ => None end) ts.

Context `{!OrderedMapRemove M} `{!OrderedMapRemoveLaws M}.

(** The tables after the removals of [gaps]. *)
Definition gap_mem (gaps : list (nat * bytes)) (i : nat) (t : MemTable M) : MemTable M :=
  mkMemTable (foldr (fun g m => if decide (g.1 = i) then om_remove g.2 m else m) (mt_map t) gaps) (mt_memory_size t).
Definition gapped (gaps : list (nat * bytes)) sh : Shared M W := set_mems (imap (gap_mem gaps) (sh_mems sh)) sh.

Lemma newest_remove {V} k k' (l : list (bytes * V)) : k <> k' -> newest k (filter (fun kv => kv.1 ≠ k') l) = newest k l.
Proof.
  intros Hne. induction l as [|[k0 v] l IH]; [done|]. rewrite filter_cons. case_decide as Hk; simpl in *.
  - by rewrite IH.
  - subst k0. rewrite IH. cbn. by rewrite decide_False by done.
Qed.

Lemma newest_gap_mem k gaps i t : k ∉ gaps.*2 -> newest k (mem_layer (gap_mem gaps i t)) = newest k (mem_layer t).
Proof.
  unfold mem_layer, gap_mem. cbn [mt_map]. induction gaps as [|[j k'] gaps IH]; [done|]. cbn [foldr fmap list_fmap fst snd].
  rewrite not_elem_of_cons. intros [Hne Hk]. case_decide; [|by apply IH].
  rewrite om_entries_remove, newest_remove by done. by apply IH.
Qed.

Lemma gapped_get k gaps sh i :
  k ∉ gaps.*2 -> newest k (mem_layer (get_mem (gapped gaps sh) i)) = newest k (mem_layer (get_mem sh i)).
Proof.
  intros Hk. unfold get_mem, gapped. cbn. rewrite list_lookup_imap. destruct (sh_mems sh !! i); [|done]. cbn.
  by apply newest_gap_mem.
Qed.

Lemma layered_ext {V} k (Ls Ms : list (list (bytes * V))) :
  Forall2 (fun l l' => newest k l = newest k l') Ls Ms -> layered k Ls = layered k Ms.
Proof. induction 1 as [|l l' Ls Ms Hl _ IH]; [done|]. simpl. by rewrite Hl, IH. Qed.

(** Keys that nobody is overwriting are not disturbed. *)
Lemma gapped_layered k gaps sn sh l0s :
  k ∉ gaps.*2 ->
  layered k (store_layers (st_state (store_at sn (gapped gaps sh))) l0s) = layered k (store_layers (st_state (store_at sn sh)) l0s).
Proof.
  intros Hk. apply layered_ext, Forall2_app; [|by apply Forall_Forall2_diag, Forall_true].
  constructor; [by apply (gapped_get k gaps (set_sn sn sh))|]. cbn. rewrite <- !list_fmap_compose.
  apply Forall2_fmap, Forall_Forall2_diag, Forall_true. intros i. by apply (gapped_get k gaps (set_sn sn sh)).
Qed.

(** C9: A snapshot stays consistent however long a reader keeps it: whatever
    writes, switches, flushes and sweeps follow, the tables and files it names
    represent the abstract map as it was at one moment since the snapshot was
    taken, with nothing lost and no later state mixed in. This holds at every
    moment of a run in which every insertion reached the memtable that was
    active then ([live_event]: the race of [acknowledged_write_lost], a writer
    that keeps its own snapshot over a switch, is excluded) and whose entries
    the SST format can hold. A reader that comes while overwrites are in
    progress, their old entries already removed from the skip lists ([gaps],
    any of the insertions in flight; none is a case of it), sees that map at
    every key but the ones being overwritten. *)
Theorem snapshot_consistent wal dm ts evs1 s evs2 s' :
  Forall at_rest ts -> run (mkSys (shared_new wal dm) ts) evs1 s -> run s evs2 s' ->
  Forall live_event (evs1 ++ evs2) -> Forall (write_fits (dm_block_size dm)) (inserted (evs1 ++ evs2)) ->
  run_fits (dm_block_size dm) (length (inserted (evs1 ++ evs2))) ->
  exists es l0s, es `prefix_of` inserted evs2
    /\ represents (store_at (sh_state (sys_shared s)) (sys_shared s')) (sh_disk (sys_shared s')) l0s
         (foldl spec_entry no_view (inserted evs1 ++ es))
    /\ forall gaps, gaps ⊆ in_flight (sys_threads s') ->
         exists m, represents (store_at (sh_state (sys_shared s)) (gapped gaps (sys_shared s'))) (sh_disk (sys_shared s')) l0s m
           /\ forall k, k ∉ gaps.*2 -> m k = foldl spec_entry no_view (inserted evs1 ++ es) k.
Proof.
  intros Hr Hrun1 Hrun2 Hlive Hfit Hn. rewrite inserted_app in *. apply Forall_app in Hlive as [Hl1 Hl2].
  apply Forall_app in Hfit as [Hf1 Hf2]. rewrite length_app in Hn.
  assert (run_fits (dm_block_size dm) (length (inserted evs1))) as Hn1 by (eapply run_fits_weaken; [|exact Hn]; lia).
  pose proof (run_valid _ _ _ _ _ _ _ (new_valid opt shard_id wal dm ts Hr) Hrun1 Hl1 Hf1 Hn1) as Hv.
  destruct (run_sees _ _ _ _ _ _ Hv Hrun2 Hl2 Hf2 Hn) as [_ [es [[_ _ _ [l0s Hrep] _] Hp]]].
  exists es, l0s. rewrite foldl_app. split_and!; [by destruct Hp as [[_ ->]|[_ ?]]|exact Hrep|].
  intros gaps _. eexists. split; [split; [apply Hrep|reflexivity]|].
  intros k Hk. cbn beta. rewrite gapped_layered by done. apply Hrep.
Qed.
End Snapshot.

(** *** Witness *)

(** The snapshot is taken after the first entry of a batch; the reader comes when
    the second is in and the third, a delete of the key of the first, is on its
    way. *)
Definition snapshot_at : option (list Event * DemoSys) := demo_schedule (demo_sys swept_ts) (take 8 swept).
Definition snapshot_sys : DemoSys := after (demo_sys swept_ts) snapshot_at.
Definition snapshot_later : option (list Event * DemoSys) := demo_schedule snapshot_sys (take 4 (drop 8 swept)).

Lemma snapshot_consistent_witness :
  let s' := after snapshot_sys snapshot_later in
  inserted (events_of snapshot_later) = [WPut k3 [Byte.x33]] /\ in_flight (sys_threads s') = [(0, k1)] /\
  exists es l0s, es `prefix_of` inserted (events_of snapshot_later)
    /\ represents (store_at demo_table 0 (sh_state (sys_shared snapshot_sys)) (sys_shared s')) (sh_disk (sys_shared s')) l0s
         (foldl spec_entry no_view (inserted (events_of snapshot_at) ++ es))
    /\ forall gaps, gaps ⊆ in_flight (sys_threads s') ->
         exists m, represents (store_at demo_table 0 (sh_state (sys_shared snapshot_sys)) (gapped gaps (sys_shared s')))
             (sh_disk (sys_shared s')) l0s m
           /\ forall k, k ∉ gaps.*2 -> m k = foldl spec_entry no_view (inserted (events_of snapshot_at) ++ es) k.
Proof.
  split; [vm_compute; reflexivity|]. split; [vm_compute; reflexivity|].
  apply (snapshot_consistent demo_table 0 (mkDemoWal []) demo_disk swept_ts).
  - by repeat constructor.
  - apply (conc_demo_run swept_ts). vm_compute. reflexivity.
  - apply (schedule_run demo_table 0 healthy (take 4 (drop 8 swept)) healthy_answers).
    destruct snapshot_later as [[evs s]|] eqn:Hl; [exact Hl|]. exfalso.
    assert (bool_decide (is_Some snapshot_later) = true) as Hb by (vm_compute; reflexivity).
    rewrite Hl in Hb. done.
  - vm_compute. by repeat constructor.
  - write_fits_tac.
  - apply fits_256. vm_compute. lia.
Defined.
