(* ===== verification/MemLive.v ===== *)
(** A memtable iterator beside writers (memtable.rs, [OwnedMemTableIter] on a
    map that [put] and [delete] keep changing).

    The iterator owns an [Arc] of the skip list, not a copy: every [seek] and
    [next] looks at the map as it is then, from the key of the entry it holds.
    The skip list documents that an insertion over an existing key removes the
    old entry before it inserts the new one, so an insertion is cut here into
    the accounting of [memory_size], the removal and the insertion proper.
    [LsmConc] reads the last two as one step ([insertion_alone] says when that
    is the same); this file is about what a reader between them can see. *)

From stdpp Require Import base list numbers strings sorting sets.
From S2P Require Import Prelude.
From S2P Require Import Errors.
From S2P Require Import Iter.
From S2P Require Import ScanLaws.
From S2P Require Import MemTable.
From S2P Require Import LsmStore.
From S2P Require Import LsmConc.
From S2P Require Import LsmConcRefine.
From S2P Require Import Block.
From S2P Require Import SstIter.
From S2P Require Import ConcatIter.
From S2P Require Import MergeIter.
From S2P Require Import TwoMergeIter.
From S2P Require Import LsmScan.
From S2P Require Import DiskManager.
From S2P Require Import LsmTheorems.

(** ** The run *)

(** The table, the insertions in flight, one reader and the entries its
    iterator has shown, oldest first. *)
Record Live (M : Type) := mkLive {
  lv_table : MemTable M;
  lv_pending : list WriteEntry;
  lv_iter : OwnedMemTableIter M;
  lv_seen : list (bytes * Entry);
}.
Arguments mkLive {M} _ _ _ _.
Arguments lv_table {M} _.
Arguments lv_pending {M} _.
Arguments lv_iter {M} _.
Arguments lv_seen {M} _.

(** What happens next: a [put] or [delete] is called, the [i]-th insertion in
    flight takes its next step, the reader moves. *)
Inductive LiveEvent := Begin (e : WriteEntry) | Writer (i : nat) | Next.

(** How a scan is opened: [seek_to_first] or [seek]. *)
Inductive Open := AtFirst | AtKey (target : bytes).

Section Run.
Context {M : Type} `{OrderedMap M} `{OrderedMapRemove M} (d : direction).
Implicit Types (m : M) (s : Live M).

Definition present (k : bytes) m : bool :=
  match om_lower_bound k m with Some kv => bool_decide (kv.1 = k) | None => false end.

(** The map after the next step of an insertion, and whether it is over. *)
Definition insert_step (e : WriteEntry) m : M * bool :=
  let '(k, v) := entry_of e in
  if present k m then (om_remove k m, false) else (om_insert k v m, true).

Definition set_map m (t : MemTable M) : MemTable M := mkMemTable m (mt_memory_size t).

(** The iterator's [Arc] at the map as it is now. *)
Definition on_map m (it : OwnedMemTableIter M) : OwnedMemTableIter M :=
  mkMemIter m (mit_current it) (mit_item it).

Definition show (it : OwnedMemTableIter M) s : Live M :=
  mkLive (lv_table s) (lv_pending s) it
    (lv_seen s ++ match mit_item it with Some kv => [kv] | None => [] end).

(** The iterator is opened on the table as it is. *)
Definition open_scan (o : Open) s : StorageResult (Live M) :=
  let it := memtable_iter (lv_table s) in
  it' <-- match o with AtFirst => mem_seek_to_first d it | AtKey t => mem_seek d t it end ;;
  Ok (show it' (mkLive (lv_table s) (lv_pending s) it [])).

Definition live_step (ev : LiveEvent) s : StorageResult (Live M) :=
  match ev with
  | Begin e => Ok (mkLive (count_entry e (lv_table s)) (lv_pending s ++ [e]) (lv_iter s) (lv_seen s))
  | Writer i =>
      match lv_pending s !! i with
      | None => Ok s
      | Some e =>
          let '(m, over) := insert_step e (mt_map (lv_table s)) in
          Ok (mkLive (set_map m (lv_table s))
                (if over : bool then delete i (lv_pending s) else lv_pending s) (lv_iter s) (lv_seen s))
      end
  | Next => it <-- mem_next d (on_map (mt_map (lv_table s)) (lv_iter s)) ;; Ok (show it s)
  end.

Fixpoint live_run (evs : list LiveEvent) s : StorageResult (Live M) :=
  match evs with [] => Ok s | ev :: evs' => s' <-- live_step ev s ;; live_run evs' s' end.

Definition scan_over s : bool := negb (valid (lv_iter s)).
End Run.

(** The insertions a run has seen. *)
Definition begun (evs : list LiveEvent) : list WriteEntry :=
  omap (fun ev => match ev with Begin e => Some e | _ => None end) evs.

(** What a scan in direction [d] starts from. *)
Definition opened {V} (d : direction) (o : Open) (l : list (bytes * V)) : list (bytes * V) :=
  match o with AtFirst => ord d l | AtKey t => seek_from d t (ord d l) end.

(** ** List facts *)

Lemma sorted_insert_keeps {V} k (v : V) l x : x ∈ l -> x.1 ≠ k -> x ∈ sorted_insert k v l.
Proof.
  induction l as [|[k' v'] l IH]; intros Hx Hne; [by apply not_elem_of_nil in Hx|]. simpl.
  apply elem_of_cons in Hx as [->|Hx]; destruct (bytes_cmp k k') eqn:Hc; rewrite ?elem_of_cons; auto.
  apply bytes_cmp_eq in Hc. by destruct Hne.
Qed.

(** ** Positions in a sorted list *)

Definition dsorted {V} (d : direction) (l : list (bytes * V)) : Prop :=
  StronglySorted (kbefore d) (fst <$> l).

Section Positions.
Context {V : Type}.
Implicit Types l : list (bytes * V).

Lemma dsorted_cons d x l : dsorted d (x :: l) <-> Forall (fun y => kbefore d x.1 y.1) l /\ dsorted d l.
Proof.
  unfold dsorted. simpl. split.
  - inversion 1; subst. by rewrite Forall_fmap in *.
  - intros [? ?]. constructor; [done|]. by rewrite Forall_fmap.
Qed.

Lemma dsorted_snoc d l x : dsorted d l -> Forall (fun y => kbefore d y.1 x.1) l -> dsorted d (l ++ [x]).
Proof.
  induction l as [|y l IH]; intros Hs HF; simpl; [apply dsorted_cons; by repeat constructor|].
  apply dsorted_cons in Hs as [Hy Hs]. apply Forall_cons in HF as [Hx HF].
  apply dsorted_cons. split; [apply Forall_app; auto|auto].
Qed.

Lemma dsorted_ord d l : ksorted l -> dsorted d (ord d l).
Proof.
  destruct d; [done|]. induction l as [|x l IH]; intros Hs; simpl; [constructor|].
  apply ksorted_cons in Hs as [HF Hs]. rewrite reverse_cons. apply dsorted_snoc; [by apply IH|].
  by apply Forall_reverse.
Qed.

Lemma kbefore_trans d a b c : kbefore d a b -> kbefore d b c -> kbefore d a c.
Proof. destruct d; simpl; eauto using klt_trans. Qed.

(** The first entry a scan has not passed yet. *)
Lemma head_skip d (P : bytes * V -> Prop) `{forall x, Decision (P x)} l :
  dsorted d l ->
  match head (skip_while P l) with
  | Some x => x ∈ l /\ ~ P x /\ forall y, y ∈ l -> ~ P y -> y = x \/ kbefore d x.1 y.1
  | None => forall y, y ∈ l -> P y
  end.
Proof.
  intros Hs. induction l as [|x l IH]; simpl; [by intros y Hy%not_elem_of_nil|].
  apply dsorted_cons in Hs as [HF Hs]. specialize (IH Hs). case_decide as Hx.
  - destruct (head (skip_while P l)).
    + destruct IH as (Hin & HP & Hmin). split_and!; [by right|done|].
      intros y [->|Hy]%elem_of_cons HPy; [done|]. auto.
    + intros y [->|Hy]%elem_of_cons; auto.
  - simpl. split_and!; [by left|done|]. intros y [->|Hy]%elem_of_cons _; [by left|].
    right. rewrite Forall_forall in HF. by apply HF.
Qed.
End Positions.

(** ** What the reader sees *)

Section Reader.
Context {M : Type} `{OrderedMapLaws M} `{!OrderedMapRemove M} `{!OrderedMapRemoveLaws M} (d : direction).
Implicit Types (m : M) (s : Live M) (k : bytes).

Lemma next_pos k m :
  match d with Fwd => om_next k m | Rev => om_prev k m end
  = head (skip_while (fun kv => ~ kbefore d k kv.1) (ord d (om_entries m))).
Proof.
  destruct d; [rewrite om_next_ok|rewrite om_prev_ok]; f_equal; apply skip_while_ext; intros x;
    simpl; by rewrite not_klt.
Qed.

(** The keys an open scan is about: at or past the target. *)
Definition within (o : Open) k : Prop :=
  match o with AtFirst => True | AtKey t => ~ kbefore d k t end.

Definition not_within (o : Open) k : Prop :=
  match o with AtFirst => False | AtKey t => kbefore d k t end.

#[local] Instance not_within_dec o k : Decision (not_within o k).
Proof. destruct o; apply _. Defined.

Lemma within_alt o k : within o k <-> ~ not_within o k.
Proof. destruct o; simpl; tauto. Qed.

Lemma opened_skip o (l : list (bytes * Entry)) :
  opened d o l = skip_while (fun kv => not_within o kv.1) (ord d l).
Proof. destruct o; [|done]. symmetry. apply skip_while_none. simpl. tauto. Qed.

Lemma open_pos o s :
  open_scan d o s = Ok (show (mem_at (mt_map (lv_table s)) (head (opened d o (om_entries (mt_map (lv_table s))))))
                          (mkLive (lv_table s) (lv_pending s) (memtable_iter (lv_table s)) [])).
Proof.
  destruct o as [|t]; unfold open_scan, mem_seek_to_first, mem_seek; simpl.
  - destruct d; simpl; [by rewrite om_front_ok|by rewrite om_back_ok].
  - destruct d; simpl; [by rewrite om_lower_bound_ok|by rewrite om_upper_bound_ok].
Qed.

Lemma in_ord (l : list (bytes * Entry)) x : x ∈ ord d l <-> x ∈ l.
Proof. destruct d; simpl; [done|]. apply elem_of_reverse. Qed.

Lemma entries_dsorted m : dsorted d (ord d (om_entries m)).
Proof. apply dsorted_ord, om_sorted. Qed.

(** No write of [ws] has key [k]. *)
Definition untouched (ws : list WriteEntry) k : Prop := Forall (fun e => (entry_of e).1 ≠ k) ws.

(** [x] was in the table at the start or was written since. *)
Definition known (ws : list WriteEntry) (all : list (bytes * Entry)) x : Prop :=
  x ∈ all \/ x ∈ entry_of <$> ws.

(** The reader's invariant: [ws] are the writes that may have happened, [all]
    the table and [sel] the selected part of it when the scan was opened. *)
Record reading (o : Open) (ws : list WriteEntry) (all : list (bytes * Entry)) s : Prop := {
  rd_pending : lv_pending s ⊆ ws;
  rd_map : forall x, x ∈ om_entries (mt_map (lv_table s)) -> known ws all x;
  rd_kept : forall x, x ∈ all -> untouched ws x.1 -> x ∈ om_entries (mt_map (lv_table s));
  rd_seen : forall x, x ∈ lv_seen s -> known ws all x /\ within o x.1;
  rd_sorted : dsorted d (lv_seen s);
  rd_item : mit_item (lv_iter s) = mit_current (lv_iter s);
  rd_last : forall c, mit_current (lv_iter s) = Some c ->
    c ∈ lv_seen s /\ forall x, x ∈ lv_seen s -> x = c \/ kbefore d x.1 c.1;
  rd_all : forall x, x ∈ opened d o all -> untouched ws x.1 ->
    x ∈ lv_seen s \/ exists c, mit_current (lv_iter s) = Some c /\ kbefore d c.1 x.1;
}.

Lemma opened_in o (l : list (bytes * Entry)) x : x ∈ opened d o l -> x ∈ l.
Proof.
  rewrite opened_skip. destruct (skip_while_suffix (fun kv => not_within o kv.1) (ord d l)) as (p & Hp & _).
  intros Hx. apply in_ord. rewrite Hp. apply elem_of_app. by right.
Qed.

Lemma opened_within o (l : list (bytes * Entry)) x : dsorted d (ord d l) -> x ∈ opened d o l -> within o x.1.
Proof.
  rewrite opened_skip. generalize (ord d l) as q. clear l. intros q Hs Hx.
  destruct o as [|t]; [done|]. cbn in *. intros Hb.
  induction q as [|y q IH]; simpl in Hx; [by apply not_elem_of_nil in Hx|].
  apply dsorted_cons in Hs as [HF Hs]. rewrite Forall_forall in HF.
  case_decide as Hy; [by apply IH|]. apply elem_of_cons in Hx as [->|Hx]; [done|].
  apply Hy. eapply kbefore_trans; [by apply HF|done].
Qed.

Lemma open_reading o s :
  exists s1, open_scan d o s = Ok s1 /\ reading o (lv_pending s) (om_entries (mt_map (lv_table s))) s1.
Proof.
  rewrite open_pos. eexists. split; [done|]. set (all := om_entries (mt_map (lv_table s))).
  pose proof (entries_dsorted (mt_map (lv_table s))) as Hs. fold all in Hs.
  pose proof (opened_in o all) as Hin. pose proof (opened_within o all) as Hw.
  assert (forall x y, head (opened d o all) = Some x -> y ∈ opened d o all -> y = x \/ kbefore d x.1 y.1) as Hmin.
  { intros x y Hx Hy. pose proof (head_skip d (fun kv => not_within o kv.1) (ord d all) Hs) as Hh.
    rewrite opened_skip in Hx. rewrite Hx in Hh. destruct Hh as (_ & _ & Hh).
    apply Hh; [by apply in_ord, Hin|]. apply within_alt, Hw; done. }
  destruct (opened d o all) as [|c l] eqn:Ho; split; rewrite ?Ho; simpl; try done.
  all: try (intros x Hx; left; done). all: try (intros x Hx%not_elem_of_nil; done).
  - constructor.
  - intros x ->%list_elem_of_singleton. split; [left; apply Hin|apply Hw]; try done; by left.
  - apply dsorted_cons. by repeat constructor.
  - intros c' [= <-]. split; [by left|]. intros x ->%list_elem_of_singleton. by left.
  - intros x Hx _. destruct (Hmin c x) as [->|Hb]; [done|done|by left; left|]. right. eauto.
Qed.

Lemma reading_more o ws ws' all s : ws ⊆ ws' -> reading o ws all s -> reading o ws' all s.
Proof.
  intros Hsub [Hp Hm Hk Hs Hd Hi Hl Ha].
  assert (forall x, known ws all x -> known ws' all x) as Hkn.
  { intros x [Hx|(e & -> & He)%list_elem_of_fmap]; [by left|right]. apply list_elem_of_fmap. eauto. }
  assert (forall k, untouched ws' k -> untouched ws k) as Hun.
  { unfold untouched. intros k. rewrite !Forall_forall. eauto. }
  split; auto; [by etrans|]. intros x Hx. destruct (Hs x Hx). auto.
Qed.

Lemma begin_reading o ws all s e s' :
  reading o ws all s -> live_step d (Begin e) s = Ok s' -> reading o (ws ++ [e]) all s'.
Proof.
  intros Hr [= <-]. assert (ws ⊆ ws ++ [e]) as Hsub by set_solver.
  destruct (reading_more _ _ _ _ _ Hsub Hr). split; simpl; try done.
  intros x [Hx|Hx]%elem_of_app; [auto|]. set_solver.
Qed.

(** An insertion touches its own key only. *)
Lemma insert_step_entries e m m' over :
  insert_step e m = (m', over) ->
  (forall x, x ∈ om_entries m' -> x = entry_of e \/ x ∈ om_entries m)
  /\ (forall x, x ∈ om_entries m -> x.1 ≠ (entry_of e).1 -> x ∈ om_entries m').
Proof.
  unfold insert_step. destruct (entry_of e) as [k v]. destruct (present k m); intros [= <- <-].
  - rewrite om_entries_remove. split; intros x; rewrite list_elem_of_filter; [tauto|done].
  - rewrite om_entries_insert. split; [apply sorted_insert_in|]. simpl. intros x Hx Hne.
    by apply sorted_insert_keeps.
Qed.

Lemma writer_reading o ws all s i s' :
  reading o ws all s -> live_step d (Writer i) s = Ok s' -> reading o ws all s'.
Proof.
  intros Hr. simpl. destruct (lv_pending s !! i) as [e|] eqn:He; [|by intros [= <-]].
  destruct (insert_step e (mt_map (lv_table s))) as [m over] eqn:Hst. intros [= <-].
  destruct (insert_step_entries _ _ _ _ Hst) as [Hfrom Hkeep]. destruct Hr as [Hp Hm Hk Hs Hd Hi Hl Ha].
  assert (e ∈ ws) as Hws by (eapply Hp, list_elem_of_lookup_2, He).
  split; simpl; try done.
  - intros x Hx. apply Hp. destruct over; [|done].
    by eapply elem_of_sublist; [exact Hx|apply sublist_delete].
  - intros x [->|Hx]%Hfrom; [right|by apply Hm]. apply list_elem_of_fmap. eauto.
  - intros x Hx Hu. apply Hkeep; [by apply Hk|]. unfold untouched in Hu. rewrite Forall_forall in Hu.
    intros Heq. by eapply Hu.
Qed.

Lemma next_reading o ws all s s' :
  reading o ws all s -> live_step d Next s = Ok s' -> reading o ws all s'.
Proof.
  intros [Hp Hm Hk Hs Hd Hi Hl Ha]. simpl. intros [= <-].
  destruct (mit_current (lv_iter s)) as [c|] eqn:Hc; simpl; rewrite ?app_nil_r.
  2:{ split; simpl; rewrite ?app_nil_r; done. }
  rewrite next_pos. pose proof (head_skip d (fun kv => ~ kbefore d c.1 kv.1)
    (ord d (om_entries (mt_map (lv_table s)))) (entries_dsorted _)) as Hh.
  destruct (Hl c eq_refl) as [Hcin Hmax].
  destruct (head _) as [x|]; split; simpl; rewrite ?app_nil_r; try done.
  - intros y [Hy| ->%list_elem_of_singleton]%elem_of_app; [by apply Hs|].
    destruct Hh as (Hx & Hb%dec_stable & _). rewrite in_ord in Hx.
    split; [by apply Hm|].
    destruct (Hs c Hcin) as [_ Hw]. destruct o as [|t]; [done|]. simpl in *.
    intros Hxt. apply Hw. by eapply kbefore_trans.
  - destruct Hh as (_ & Hb%dec_stable & _). apply dsorted_snoc; [done|]. apply Forall_forall.
    intros y Hy. destruct (Hmax y Hy) as [->|]; [done|]. by eapply kbefore_trans.
  - destruct Hh as (_ & Hb%dec_stable & _). intros ? [= <-]. split; [set_solver|].
    intros y [Hy| ->%list_elem_of_singleton]%elem_of_app; [|by left]. right.
    destruct (Hmax y Hy) as [->|]; [done|]. by eapply kbefore_trans.
  - intros y Hy Hu. destruct (Ha y Hy Hu) as [Hsn|(c' & [= <-] & Hb)]; [set_solver|].
    destruct Hh as (_ & _ & Hmin). destruct (Hmin y) as [->|Hxy]; [|tauto|set_solver|eauto].
    rewrite in_ord; apply Hk; [by eapply opened_in|done].
  - intros y Hy Hu. destruct (Ha y Hy Hu) as [Hsn|(c' & [= <-] & Hb)]; [by left|].
    destruct (Hh y); [|done]. rewrite in_ord; apply Hk; [by eapply opened_in|done].
Qed.

Lemma run_reading o all evs ws s :
  reading o ws all s ->
  exists s', live_run d evs s = Ok s' /\ reading o (ws ++ begun evs) all s'.
Proof.
  revert ws s. induction evs as [|ev evs IH]; intros ws s Hr; simpl.
  { exists s. by rewrite app_nil_r. }
  assert (exists s', live_step d ev s = Ok s') as [s' Hst].
  { destruct ev as [e|i|]; simpl; eauto. destruct (_ !! i); eauto. destruct (insert_step _ _); eauto. }
  rewrite Hst. simpl. destruct ev as [e|i|]; simpl.
  - replace (ws ++ e :: begun evs) with ((ws ++ [e]) ++ begun evs) by by rewrite <- app_assoc.
    eapply IH, begin_reading; eauto.
  - eapply IH, writer_reading; eauto.
  - eapply IH, next_reading; eauto.
Qed.

(** Once the writers pause, a reader that stands in the map reaches its end. *)
Lemma nexts_end s all rest :
  mem_iter_at d (on_map (mt_map (lv_table s)) (lv_iter s)) all rest ->
  exists s', live_run d (replicate (length rest) Next) s = Ok s' /\ scan_over s' = true.
Proof.
  revert s. induction rest as [|x rest IH]; intros s Hat.
  - exists s. split; [done|]. destruct Hat as (_ & _ & _ & Hi). simpl in Hi. unfold scan_over. simpl. by rewrite Hi.
  - destruct (@next_ok d _ _ _ _ (MemTableIter_laws d) _ all (x :: rest) Hat) as (it & [= <-] & Hat').
    destruct (IH (show (mem_at (mt_map (lv_table s)) (mit_current (lv_iter s) ≫= fun e =>
      match d with Fwd => om_next e.1 (mt_map (lv_table s)) | Rev => om_prev e.1 (mt_map (lv_table s)) end)) s))
      as (s' & Hrun & Hov); [exact Hat'|by exists s'].
Qed.

Lemma reader_ends o ws all s :
  reading o ws all s ->
  exists n s', n <= S (length (om_entries (mt_map (lv_table s))))
    /\ live_run d (replicate n Next) s = Ok s' /\ scan_over s' = true.
Proof.
  intros Hr. destruct (mit_current (lv_iter s)) as [c|] eqn:Hc.
  2:{ exists 0, s. split_and!; [lia|done|]. unfold scan_over. simpl. by rewrite (rd_item _ _ _ _ Hr), Hc. }
  set (m := mt_map (lv_table s)). set (l := ord d (om_entries m)).
  set (P := fun kv : bytes * Entry => ~ kbefore d c.1 kv.1).
  destruct (skip_while_suffix P l) as (p & Hp & _).
  set (s1 := show (mem_at m (head (skip_while P l))) s).
  assert (live_step d Next s = Ok s1) as Hst.
  { simpl. rewrite Hc. simpl. by rewrite next_pos. }
  destruct (nexts_end s1 (om_entries m) (skip_while P l)) as (s' & Hrun & Hov).
  { split_and!; try done. by exists p. }
  exists (S (length (skip_while P l))), s'. split_and!; [| |done].
  2:{ change (live_run d (Next :: replicate (length (skip_while P l)) Next) s = Ok s').
      cbn [live_run]. by rewrite Hst. }
  apply (f_equal length) in Hp. rewrite length_app in Hp. unfold l in Hp at 1. rewrite length_ord in Hp.
  fold m. lia.
Qed.

(** ** Insertions alone *)

Lemma present_in k m : present k m = true -> k ∈ (om_entries m).*1.
Proof.
  unfold present. rewrite om_lower_bound_ok. unfold seek_from. intros Hp.
  pose proof (head_skip Fwd (fun kv => kbefore Fwd kv.1 k) (om_entries m) (om_sorted m)) as Hh.
  destruct (head _) as [x|]; [|done]. apply bool_decide_eq_true in Hp as <-.
  apply list_elem_of_fmap. exists x. by destruct Hh.
Qed.

Lemma sorted_insert_filter k v (l : list (bytes * Entry)) :
  ksorted l -> sorted_insert k v (filter (fun kv => kv.1 ≠ k) l) = sorted_insert k v l.
Proof.
  induction l as [|[k' v'] l IH]; intros Hs; [done|]. apply ksorted_cons in Hs as [HF Hs]. simpl in HF.
  assert (forall q, Forall (fun x => klt k x.1) q ->
    filter (fun kv => kv.1 ≠ k) q = q /\ sorted_insert k v q = (k, v) :: q) as Hgt.
  { intros q Hq. split.
    - induction Hq as [|x q Hx Hq IHq]; [done|]. rewrite filter_cons, decide_True, IHq; [done|].
      intros Heq. rewrite Heq in Hx. by eapply klt_irrefl.
    - destruct q as [|[k1 v1] q]; [done|]. apply Forall_cons in Hq as [Hq _]. unfold klt in Hq. simpl in *. by rewrite Hq. }
  rewrite filter_cons. simpl sorted_insert at 2. destruct (bytes_cmp k k') eqn:Hc.
  - apply bytes_cmp_eq in Hc as <-. rewrite decide_False by (simpl; auto). by destruct (Hgt l HF) as [-> ->].
  - assert (Forall (fun x => klt k x.1) l) as HF'.
    { eapply Forall_impl; [exact HF|]. intros x Hx. by eapply klt_trans. }
    rewrite decide_True by (simpl; intros ->; by eapply klt_irrefl). destruct (Hgt l HF') as [-> _].
    simpl. by rewrite Hc.
  - rewrite decide_True by (simpl; intros ->; by rewrite bytes_cmp_refl in Hc). simpl. rewrite Hc. f_equal. auto.
Qed.

(** An insertion nobody looks into is the single step of [LsmConc]. *)
Definition insert_alone (e : WriteEntry) m : M * bool :=
  let '(m', over) := insert_step e m in if over : bool then (m', true) else insert_step e m'.

Lemma insertion_alone e m size :
  exists m', insert_alone e m = (m', true)
    /\ om_entries m' = om_entries (mt_map (store_entry e (mkMemTable m size))).
Proof.
  assert (om_entries (mt_map (store_entry e (mkMemTable m size)))
    = sorted_insert (entry_of e).1 (entry_of e).2 (om_entries m)) as ->.
  { destruct e; apply om_entries_insert. }
  unfold insert_alone, insert_step. destruct (entry_of e) as [k v]. simpl.
  destruct (present k m); [|eexists; split; [done|]; by rewrite om_entries_insert].
  destruct (present k (om_remove k m)) eqn:Hp.
  { apply present_in in Hp. rewrite om_entries_remove in Hp.
    apply list_elem_of_fmap in Hp as (x & -> & [Hx _]%list_elem_of_filter). done. }
  eexists. split; [done|].
  rewrite om_entries_insert, om_entries_remove. apply sorted_insert_filter, om_sorted.
Qed.
End Reader.

(** ** Theorems *)

(** C10: An iterator opened on a table that is being written to, whatever the
    writers do between its steps, never fails and lists entries strictly in
    the order of travel, so no key twice; each one lies in the requested range
    and was in the table or was written meanwhile. A scan that came to its end
    has listed every selected entry whose key nobody wrote; and once the
    writers pause it ends within one step per entry left. *)
Theorem live_scan {M} `{OrderedMapLaws M} `{!OrderedMapRemove M} `{!OrderedMapRemoveLaws M}
    d o (s : Live M) evs :
  let all := om_entries (mt_map (lv_table s)) in
  let ws := lv_pending s ++ begun evs in
  exists s1 s2, open_scan d o s = Ok s1 /\ live_run d evs s1 = Ok s2
    /\ dsorted d (lv_seen s2)
    /\ (forall x, x ∈ lv_seen s2 -> known ws all x /\ within d o x.1)
    /\ (scan_over s2 = true -> forall x, x ∈ opened d o all -> untouched ws x.1 -> x ∈ lv_seen s2)
    /\ exists n s3, n <= S (length (om_entries (mt_map (lv_table s2))))
         /\ live_run d (replicate n Next) s2 = Ok s3 /\ scan_over s3 = true.
Proof.
  destruct (open_reading d o s) as (s1 & Ho & Hr). destruct (run_reading d o _ evs _ _ Hr) as (s2 & Hrun & Hr2).
  exists s1, s2. split_and!; [done|done|by eapply rd_sorted|by eapply rd_seen| |by eapply reader_ends].
  intros Hov x Hx Hu. destruct (rd_all _ _ _ _ _ Hr2 x Hx Hu) as [|(c & Hc & _)]; [done|].
  unfold scan_over in Hov. simpl in Hov. by rewrite (rd_item _ _ _ _ _ Hr2), Hc in Hov.
Qed.

(** Two keys in the table, and a scan that has shown the first one while the
    second is written again. *)
Definition two_keys : Live SortedAssoc :=
  mkLive (memtable_put [Byte.x02] [Byte.x01] (memtable_put [Byte.x01] [Byte.x01] memtable_new)) [] (mkMemIter om_empty None None) [].

Lemma live_scan_witness :
  exists s1 s2, open_scan Fwd (AtKey [Byte.x01]) two_keys = Ok s1
    /\ live_run Fwd [Begin (WPut [Byte.x03] [Byte.x01]); Writer 0; Next; Next; Next] s1 = Ok s2
    /\ scan_over s2 = true /\ ([Byte.x02], Put [Byte.x01]) ∈ lv_seen s2.
Proof.
  destruct (live_scan Fwd (AtKey [Byte.x01]) two_keys [Begin (WPut [Byte.x03] [Byte.x01]); Writer 0; Next; Next; Next])
    as (s1 & s2 & Ho & Hr & _ & _ & Hall & _).
  exists s1, s2. assert (scan_over s2 = true) as Hov.
  { vm_compute in Ho. injection Ho as <-. vm_compute in Hr. by injection Hr as <-. }
  split_and!; [done|done|done|]. apply Hall; [done| |].
  - vm_compute. right. left.
  - repeat constructor; done.
Defined.

(** A key that is in the table throughout, in the sense of the writers, is not
    listed by a scan that passes while it is being overwritten: the removal
    before the insertion leaves a moment in which nothing is there. *)
Theorem overwritten_key_missed :
  exists s1 s2, open_scan Fwd AtFirst two_keys = Ok s1
    /\ live_run Fwd [Begin (WPut [Byte.x02] [Byte.x07]); Writer 0; Next; Writer 0] s1 = Ok s2
    /\ scan_over s2 = true /\ lv_pending s2 = []
    /\ om_entries (mt_map (lv_table two_keys)) = [([Byte.x01], Put [Byte.x01]); ([Byte.x02], Put [Byte.x01])]
    /\ om_entries (mt_map (lv_table s2)) = [([Byte.x01], Put [Byte.x01]); ([Byte.x02], Put [Byte.x07])]
    /\ lv_seen s2 = [([Byte.x01], Put [Byte.x01])].
Proof. do 2 eexists. split_and!; reflexivity. Qed.

(** *** In the store *)

Definition value1 : MemTable SortedAssoc := memtable_put k2 [Byte.x31] memtable_new.
Definition value2 : MemTable SortedAssoc := memtable_put k2 [Byte.x32] memtable_new.

(** A store with the key in its active memtable and, older, in an immutable
    one; [m] is the map of the active memtable. *)
Definition over_older (m : SortedAssoc) : DemoStore :=
  set_state demo_store (mkLsmState (set_map m value2) [value1] (levels (st_state demo_store))).

Definition scan_all (st : DemoStore) : StorageResult (list (bytes * Entry)) :=
  scan <-- store_scan st demo_disk 10 (Unbounded, Unbounded) false ;; lsm_collect Fwd 10 scan.

(** A scan lists the versions of a key newest first. Between the removal and
    the insertion of a third value it answers the first one only, although the
    second was visible before and nobody wrote the first again. *)
Theorem overwrite_shows_stale_version :
  let m := mt_map value2 in
  let '(m1, over1) := insert_step (WPut k2 [Byte.x33]) m in
  let '(m2, over2) := insert_step (WPut k2 [Byte.x33]) m1 in
  over1 = false /\ over2 = true
  /\ scan_all (over_older m) = Ok [(k2, Put [Byte.x32]); (k2, Put [Byte.x31])]
  /\ scan_all (over_older m1) = Ok [(k2, Put [Byte.x31])]
  /\ scan_all (over_older m2) = Ok [(k2, Put [Byte.x33]); (k2, Put [Byte.x31])].
Proof. by vm_compute. Qed.
