(* ===== verification/LsmEngineConc.v ===== *)
(** All shards of an engine at once.

    Every shard is a concurrent store ([LsmConc]); the shards take their steps
    in any order over the one directory the engine shares between them, and are
    created on the way. To a shard the steps of the others are files that
    appear: a run of the engine is a run of each of its shards. The sweep of the
    flush worker is a sweeper thread in every shard. *)

From stdpp Require Import base list numbers strings sorting gmap.
From S2P Require Import Prelude.
From S2P Require Import Errors.
From S2P Require Import BlockBuilder.
From S2P Require Import Iter.
From S2P Require Import SstBuilder.
From S2P Require Import SstBuilderCorrect.
From S2P Require Import MemTable.
From S2P Require Import DiskManager.
From S2P Require Import Newest.
From S2P Require Import LsmStore.
From S2P Require Import LsmRefine.
From S2P Require Import LsmTheorems.
From S2P Require Import LsmEngine.
From S2P Require Import LsmConc.
From S2P Require Import LsmConcRefine.
From S2P Require Import LsmConcTheorems.

(** The shards with their options, and the directory. *)
Record EngineSys (M W : Type) := mkEngineSys {
  es_disk : DiskManager;
  es_shards : gmap Z (LsmTableOption * Sys M W);
}.
Arguments mkEngineSys {M W} _ _.
Arguments es_disk {M W} _.
Arguments es_shards {M W} _.

Section Engine.
Context {M W : Type} `{OrderedMapLaws M} `{WalStore W}.
Implicit Types (s : Sys M W) (e : EngineSys M W).

(** A shard as it stands on the directory [dm]. *)
Definition on_disk (dm : DiskManager) (s : Sys M W) : Sys M W := mkSys (set_disk dm (sys_shared s)) (sys_threads s).

(** [LsmEngine::create_shard] with its entry taken or vacant. *)
Definition create_shard_step (e : EngineSys M W) (id : Z) (opt : LsmTableOption) (wal : W) (ts : list Thread) :
    EngineSys M W :=
  match es_shards e !! id with
  | Some _ => e
  | None => mkEngineSys (es_disk e) (<[id := (opt, mkSys (shared_new wal (es_disk e)) ts)]> (es_shards e))
  end.

(** A step of one shard, or a shard created for threads that have called
    nothing yet. *)
Inductive engine_step e : list (Z * Event) -> EngineSys M W -> Prop :=
| engine_shard id opt s ev s' :
    es_shards e !! id = Some (opt, s) -> step opt id (on_disk (es_disk e) s) ev s' ->
    engine_step e ((fun x => (id, x)) <$> option_list ev)
      (mkEngineSys (sh_disk (sys_shared s')) (<[id := (opt, s')]> (es_shards e)))
| engine_create id opt wal ts :
    Forall at_rest ts -> engine_step e [] (create_shard_step e id opt wal ts).

Inductive engine_run e : list (Z * Event) -> EngineSys M W -> Prop :=
| engine_run_nil : engine_run e [] e
| engine_run_step evs e1 new e2 :
    engine_run e evs e1 -> ids_left (es_disk e1) -> engine_step e1 new e2 -> engine_run e (evs ++ new) e2.

Definition engine_start (dm : DiskManager) : EngineSys M W := mkEngineSys dm ∅.

(** What happened on one shard. *)
Definition events_on (id : Z) (evs : list (Z * Event)) : list Event := (filter (fun x => x.1 = id) evs).*2.

Lemma events_on_app id l1 l2 : events_on id (l1 ++ l2) = events_on id l1 ++ events_on id l2.
Proof. unfold events_on. by rewrite filter_app, fmap_app. Qed.

Lemma events_on_own id l : events_on id ((fun x => (id, x)) <$> l) = l.
Proof.
  unfold events_on. induction l as [|x l IH]; [done|]. rewrite fmap_cons, filter_cons, decide_True, fmap_cons by done. by rewrite IH.
Qed.

Lemma events_on_other id id' l : id <> id' -> events_on id' ((fun x => (id, x)) <$> l) = [].
Proof.
  intros Hne. unfold events_on. induction l as [|x l IH]; [done|]. by rewrite fmap_cons, filter_cons, decide_False.
Qed.

(** A step of a shard only adds files. *)
Lemma flush_step_grows dev (sh : Shared M W) pc sh' pc' :
  ids_left (sh_disk sh) -> flush_step dev sh pc = Some (sh', pc') -> disk_grows (sh_disk sh) (sh_disk sh').
Proof.
  intros Hids Hf. destruct pc as [| |oldest|meta|r|r]; cbn in Hf; try destruct (sh_flush_lock sh); try destruct (last _);
    try (pose proof (build_sst_grows (sh_disk sh) dev (get_mem sh oldest) Hids) as Hg;
         destruct (build_sst_from_memtable _ _ _) as [[| |] ?]); simplify_eq; try done; apply disk_grows_refl.
Qed.

Lemma step_grows opt id s ev s' :
  ids_left (sh_disk (sys_shared s)) -> step opt id s ev s' -> disk_grows (sh_disk (sys_shared s)) (sh_disk (sys_shared s')).
Proof.
  intros Hids Hs. destruct Hs as [i pc dev sh pc' ev Hi _ Hw|i pc dev sh pc' Hi _ Hf|i r batch Hi|i r Hi|dm Hg]; cbn.
  - destruct pc as [| |? []| | | | |pc|]; cbn in Hw; try (destruct (wal_append _ _ _) as [[| |] ?]); try case_decide;
      simplify_eq; try apply disk_grows_refl.
    + unfold switch_step. case_decide; apply disk_grows_refl.
    + destruct (flush_step dev (sys_shared s) pc) as [[sh1 pc1]|] eqn:Hf; [|done].
      apply flush_step_grows in Hf; [|done]. by destruct pc1; simplify_eq.
  - by eapply flush_step_grows.
  - apply disk_grows_refl.
  - apply disk_grows_refl.
  - done.
Qed.

(** Every shard made a run of its own, on the directory it was created on. *)
Definition shard_runs (bs : nat) (evs : list (Z * Event)) e : Prop :=
  dm_block_size (es_disk e) = bs /\
  forall id opt s, es_shards e !! id = Some (opt, s) -> exists wal dm ts,
    Forall at_rest ts /\ dm_block_size dm = bs
    /\ run opt id (mkSys (shared_new wal dm) ts) (events_on id evs) (on_disk (es_disk e) s).

Lemma on_disk_own s : on_disk (sh_disk (sys_shared s)) s = s.
Proof. by destruct s as [[] ?]. Qed.

(** Shards that do not exist yet have no events. *)
Definition no_stray (evs : list (Z * Event)) e : Prop :=
  forall id, es_shards e !! id = None -> events_on id evs = [].

Lemma engine_step_runs bs evs e new e' :
  shard_runs bs evs e -> no_stray evs e -> ids_left (es_disk e) -> engine_step e new e' ->
  shard_runs bs (evs ++ new) e' /\ no_stray (evs ++ new) e'.
Proof.
  intros [Hbs Hr] Hn Hids Hs. destruct Hs as [id opt s ev s' Hl Hst|id opt wal ts Hts].
  - pose proof (step_grows opt id (on_disk (es_disk e) s) ev s' Hids Hst) as Hg. change (disk_grows (es_disk e) (sh_disk (sys_shared s'))) in Hg.
    split; [split|].
    + cbn. rewrite <- Hbs. apply Hg.
    + cbn. intros id' opt' s1 Hl'. destruct (decide (id = id')) as [<-|Hne].
      * rewrite lookup_insert_eq in Hl'. simplify_eq. destruct (Hr id opt' s Hl) as (wal & dm & ts & Hts & Hd & Hrun).
        exists wal, dm, ts. split_and!; [done..|]. rewrite events_on_app, events_on_own, on_disk_own. by eapply run_step.
      * rewrite lookup_insert_ne in Hl' by done. destruct (Hr id' opt' s1 Hl') as (wal & dm & ts & Hts & Hd & Hrun).
        exists wal, dm, ts. split_and!; [done..|]. rewrite events_on_app, events_on_other by done.
        change [] with (option_list (@None Event)). eapply run_step; [exact Hrun|done|].
        apply (step_other_shard opt' id' (on_disk (es_disk e) s1)). exact Hg.
    + intros id' Hl'. cbn in Hl'. destruct (decide (id = id')) as [<-|Hne]; [by rewrite lookup_insert_eq in Hl'|].
      rewrite lookup_insert_ne in Hl' by done. rewrite events_on_app, events_on_other by done. by rewrite Hn.
  - rewrite app_nil_r. unfold create_shard_step. destruct (es_shards e !! id) eqn:Hl; [done|]. split; [split; [done|]|].
    + cbn. intros id' opt' s1 Hl'. destruct (decide (id = id')) as [<-|Hne].
      * rewrite lookup_insert_eq in Hl'. simplify_eq. exists wal, (es_disk e), ts. split_and!; [done..|].
        rewrite (Hn id Hl). constructor.
      * rewrite lookup_insert_ne in Hl' by done. by apply Hr.
    + intros id' Hl'. cbn in Hl'. destruct (decide (id = id')) as [<-|Hne]; [by rewrite lookup_insert_eq in Hl'|].
      rewrite lookup_insert_ne in Hl' by done. by apply Hn.
Qed.

Lemma engine_run_runs dm evs e :
  engine_run (engine_start dm) evs e -> shard_runs (dm_block_size dm) evs e /\ no_stray evs e.
Proof.
  induction 1 as [|evs e1 new e2 Hr [IHr IHn] Hids Hs]; [split; [by split|done]|]. by eapply engine_step_runs.
Qed.

(** C13: Threads of all shards interleave in any way over the shared directory,
    while shards are created. No shard is lost: an id without a shard has seen
    no insertion. A shard into which every insertion reached the active memtable
    ([live_event]; the race of [acknowledged_write_lost] is excluded) and whose
    entries the SST format can hold represents the entries inserted into it, in
    their order, and nothing another shard does shows in it. *)
Theorem engine_concurrent_refines dm evs e id :
  engine_run (engine_start dm) evs e ->
  match es_shards e !! id with
  | None => events_on id evs = []
  | Some (opt, s) =>
      Forall live_event (events_on id evs) ->
      Forall (write_fits (dm_block_size dm)) (inserted (events_on id evs)) ->
      run_fits (dm_block_size dm) (length (inserted (events_on id evs))) ->
      exists l0s, represents (store_of opt id (sys_shared s)) (es_disk e) l0s
        (foldl spec_entry no_view (inserted (events_on id evs)))
  end.
Proof.
  intros Hr. destruct (engine_run_runs dm evs e Hr) as [[_ Hsh] Hn].
  destruct (es_shards e !! id) as [[opt s]|] eqn:Hl; [|by apply Hn]. intros Hlive Hfit Hf.
  destruct (Hsh id opt s Hl) as (wal & dm' & ts & Hts & Hd & Hrun). rewrite <- Hd in Hfit, Hf.
  exact (core_rep _ _ _ _ _ _ (vd_core _ _ _ _ _ _
    (run_valid _ _ _ _ _ _ _ (new_valid opt id wal dm' ts Hts) Hrun Hlive Hfit Hf))).
Qed.

(** ** Running a schedule *)

Inductive EngineAction := Create (id : Z) (opt : LsmTableOption) (wal : W) (writers : nat) | On (id : Z) (a : Action).

Definition engine_act (dev : Device) (e : EngineSys M W) (a : EngineAction) : option (list (Z * Event) * EngineSys M W) :=
  match a with
  | Create id opt wal n => Some ([], create_shard_step e id opt wal (idle_sweeper :: replicate n idle_writer))
  | On id a =>
      '(opt, s) ← es_shards e !! id;
      '(ev, s') ← act opt id dev (on_disk (es_disk e) s) a;
      Some ((fun x => (id, x)) <$> option_list ev,
            mkEngineSys (sh_disk (sys_shared s')) (<[id := (opt, s')]> (es_shards e)))
  end.

Fixpoint engine_schedule (dev : Device) (e : EngineSys M W) (l : list EngineAction) : option (list (Z * Event) * EngineSys M W) :=
  match l with
  | [] => Some ([], e)
  | a :: l' =>
      if decide (0 <= dm_next_sst_id (es_disk e) /\ dm_next_sst_id (es_disk e) + 1 < 2 ^ 64)%Z then
        '(new, e1) ← engine_act dev e a; '(evs, e2) ← engine_schedule dev e1 l'; Some (new ++ evs, e2)
      else None
  end.

Lemma engine_act_step dev e a new e' : device_answers dev -> engine_act dev e a = Some (new, e') -> engine_step e new e'.
Proof.
  intros Hdev Ha. destruct a as [id opt wal n|id a]; cbn in Ha.
  - simplify_eq. apply engine_create. constructor; [done|]. by apply Forall_replicate.
  - destruct (es_shards e !! id) as [[opt s]|] eqn:Hl; [|done]. cbn in Ha.
    destruct (act opt id dev (on_disk (es_disk e) s) a) as [[ev s']|] eqn:Hact; [|done]. cbn in Ha. simplify_eq.
    eapply engine_shard; [done|]. by eapply act_step.
Qed.

Lemma engine_run_trans e1 l1 e2 l2 e3 : engine_run e1 l1 e2 -> engine_run e2 l2 e3 -> engine_run e1 (l1 ++ l2) e3.
Proof.
  intros H1' H2. induction H2 as [|l2 e3 new e4 _ IH Hids Hs]; [by rewrite app_nil_r|].
  rewrite app_assoc. by eapply engine_run_step.
Qed.

Lemma engine_schedule_run dev l : device_answers dev -> forall e evs e',
  engine_schedule dev e l = Some (evs, e') -> engine_run e evs e'.
Proof.
  intros Hdev. induction l as [|a l IH]; intros e evs e' Hs; cbn in Hs; [simplify_eq; constructor|].
  case_decide as Hids; [|done]. destruct (engine_act dev e a) as [[new e1]|] eqn:Ha; [|done]. cbn in Hs.
  destruct (engine_schedule dev e1 l) as [[evs1 e2]|] eqn:Hl; [|done]. cbn in Hs. simplify_eq.
  eapply engine_run_trans; [|by apply IH]. apply (engine_run_step _ [] e); [constructor|done|by eapply engine_act_step].
Qed.
End Engine.

(** *** Witness *)

(** Two shards flush into one directory, their steps interleaved. *)
Definition two_shards : list (@EngineAction DemoWal) :=
  [Create 1 demo_table (mkDemoWal []) 1; On 1 (Call 1 batch1); On 1 (Go 1); Create 2 demo_table (mkDemoWal []) 1;
   On 2 (Call 1 batch2); Create 1 demo_table (mkDemoWal []) 1]
  ++ mjoin (replicate 10 [On 1 (Go 1); On 2 (Go 1)]) ++ replicate 6 (On 1 (Go 1)) ++ replicate 3 (On 2 (Go 1)).
Definition engine_end : option (list (Z * Event) * EngineSys SortedAssoc DemoWal) :=
  engine_schedule healthy (engine_start demo_disk) two_shards.
Definition engine_events : list (Z * Event) := default [] (fst <$> engine_end).
Definition engine_after : EngineSys SortedAssoc DemoWal := default (engine_start demo_disk) (snd <$> engine_end).

(** The first shard at the end. *)
Definition shard_end : LsmTableOption * Sys SortedAssoc DemoWal :=
  default (demo_table, demo_sys []) (es_shards engine_after !! 1%Z).

Lemma engine_concurrent_refines_witness :
  inserted (events_on 1 engine_events) = entries batch1 /\
  exists l0s, represents (store_of demo_table 1 (sys_shared shard_end.2)) (es_disk engine_after) l0s
    (foldl spec_entry no_view (inserted (events_on 1 engine_events))).
Proof.
  split; [vm_compute; reflexivity|].
  assert (es_shards engine_after !! 1%Z = Some (demo_table, shard_end.2)) as Hl by (vm_compute; reflexivity).
  pose proof (engine_concurrent_refines demo_disk engine_events engine_after 1) as Hc. rewrite Hl in Hc. apply Hc.
  - apply (engine_schedule_run healthy two_shards healthy_answers).
    destruct engine_end as [[evs e]|] eqn:Hd; [|exfalso].
    + unfold engine_events, engine_after. rewrite Hd. exact Hd.
    + assert (bool_decide (is_Some engine_end) = true) as Hb by (vm_compute; reflexivity). by rewrite Hd in Hb.
  - vm_compute. by repeat constructor.
  - write_fits_tac.
  - apply fits_256. vm_compute. lia.
Defined.
