(* ===== verification/MetaManager.v ===== *)
(** Metadata and routing: the log service (log_service.rs), the storage layer
    (storage_layer.rs) and the metadata facade (meta_manager.rs).

    The log store behind a replication group is a parameter: [wal_open_with]
    and [wal_start_sync] stand for the constructor calls of [create_rg]. *)

From stdpp Require Import base numbers strings pretty gmap fin_maps list.
From S2P Require Import Prelude.
From S2P Require Import Errors.
From S2P Require Import MemTable.
From S2P Require Import LsmScan.
From S2P Require Import DiskManager.
From S2P Require Import LsmStore.
From S2P Require Import LsmRefine.
From S2P Require Import LsmTheorems.
From S2P Require Import LsmEngine.

(** ** The log service *)

Record RgOption := mkRgOption {
  rf : Z;
  wal_buffer_size : Z;
  wal_sync_interval_ms : Z;
  wal_segment_size : Z;
}.

Definition rg_option_default : RgOption := mkRgOption 1 (1024 * 1024) 100 (64 * 1024 * 1024).

Class WalOpen (W : Type) := {
  wal_open_with : string -> Z -> Z -> Z -> W;
  wal_start_sync : Z -> W -> W;
}.

Record LogService (W : Type) := mkLogService { lg_wal_root : string; lg_stores : gmap Z W }.
Arguments mkLogService {W} _ _.
Arguments lg_wal_root {W} _.
Arguments lg_stores {W} _.

(** ** Engines and metadata *)

Inductive Engine := LsmTree.

(** [StorageLayer]: the engine map has the single possible key [LsmTree]. *)
Record StorageLayer (M W : Type) := mkStorageLayer {
  sl_engines : Engine -> option (LsmEngine M W);
  sl_log_service : LogService W;
}.
Arguments mkStorageLayer {M W} _ _.
Arguments sl_engines {M W} _.
Arguments sl_log_service {M W} _.

Record ShardMeta := mkShardMeta { shm_table_id : Z; shm_shard_id : Z; shm_engine : Engine }.
Record ReplicaGroup := mkReplicaGroup { rg_rg_id : Z; rg_rf : Z; rg_members : list Z }.

Record MetaManager (M W : Type) := mkMetaManager {
  mm_storage : StorageLayer M W;
  table_to_id : gmap string Z;
  table_to_shard : gmap Z Z;
  mm_shards : gmap Z ShardMeta;
  table_options : gmap Z TableOption;
  shard_to_rg : gmap Z Z;
  rg_meta : gmap Z ReplicaGroup;
  next_table_id : Z;
  next_shard_id : Z;
}.
Arguments mkMetaManager {M W} _ _ _ _ _ _ _ _ _.
Arguments mm_storage {M W} _.
Arguments table_to_id {M W} _.
Arguments table_to_shard {M W} _.
Arguments mm_shards {M W} _.
Arguments table_options {M W} _.
Arguments shard_to_rg {M W} _.
Arguments rg_meta {M W} _.
Arguments next_table_id {M W} _.
Arguments next_shard_id {M W} _.

Section Ops.
Context {M W : Type} `{OrderedMap M} `{WalStore W} `{WalOpen W}.

(** [LogService::new], [LogService::default]. *)
Definition log_service_new (wal_root : string) : LogService W := mkLogService wal_root ∅.
Definition log_service_default : LogService W := log_service_new "./data/wal".

(** [LogService::create_rg]. *)
Definition create_rg (self : LogService W) (rg_id : Z) (opt : RgOption) : StorageResult unit * LogService W :=
  match lg_stores self !! rg_id with
  | Some _ => (Ok tt, self)
  | None =>
      let dir := lg_wal_root self +:+ "/" +:+ pretty rg_id in
      let store := wal_open_with dir rg_id (wal_buffer_size opt) (wal_segment_size opt) in
      let store := wal_start_sync (wal_sync_interval_ms opt) store in
      (Ok tt, mkLogService (lg_wal_root self) (<[rg_id := store]> (lg_stores self)))
  end.

(** [LogService::get]. *)
Definition log_get (self : LogService W) (rg_id : Z) : StorageResult W :=
  ok_or (NotFound ("replication group " +:+ pretty rg_id)) (lg_stores self !! rg_id).

(** [StorageLayer::with_wal_root]; [StorageLayer::new] passes the default root. *)
Definition storage_layer_with_wal_root (files : gmap Z bytes) (option : LsmEngineOption) (wal_root : string)
  : StorageLayer M W :=
  let lsm := (engine_init (lsm_engine_new files option)).2 in
  mkStorageLayer (fun e => match e with LsmTree => Some lsm end) (log_service_new wal_root).
Definition storage_layer_new (files : gmap Z bytes) (option : LsmEngineOption) : StorageLayer M W :=
  let lsm := (engine_init (lsm_engine_new files option)).2 in
  mkStorageLayer (fun e => match e with LsmTree => Some lsm end) log_service_default.

(** [StorageLayer::map_engine]. *)
Definition map_engine (self : StorageLayer M W) (engine : Engine) : StorageResult (LsmEngine M W) :=
  ok_or (NotFound "engine LsmTree not registered") (sl_engines self engine).

Definition set_engine (self : StorageLayer M W) (engine : Engine) (eng : LsmEngine M W) : StorageLayer M W :=
  mkStorageLayer (fun e => match e, engine with LsmTree, LsmTree => Some eng end) (sl_log_service self).

(** [StorageLayer::create_shard]. *)
Definition layer_create_shard (self : StorageLayer M W) (engine : Engine) (shard_id rg_id : Z)
  (table_option : TableOption) : StorageResult unit * StorageLayer M W :=
  match map_engine self engine, log_get (sl_log_service self) rg_id with
  | Ok eng, Ok wal_store =>
      let '(r, eng) := create_shard eng shard_id table_option wal_store in (r, set_engine self engine eng)
  | Ok _, Err e => (Err e, self)
  | Ok _, Panic => (Panic, self)
  | Err e, _ => (Err e, self)
  | Panic, _ => (Panic, self)
  end.

(** [StorageLayer::create_replication_group]. *)
Definition layer_create_rg (self : StorageLayer M W) (rg_id : Z) (opt : RgOption)
  : StorageResult unit * StorageLayer M W :=
  let '(r, lg) := create_rg (sl_log_service self) rg_id opt in (r, mkStorageLayer (sl_engines self) lg).

(** [StorageLayer::write], [StorageLayer::scan]. *)
Definition layer_write (self : StorageLayer M W) (dev : Device) (engine : Engine) (shard_id : Z) (batch : WriteBatch)
  : StorageResult unit * StorageLayer M W :=
  match map_engine self engine with
  | Ok eng => let '(r, eng) := engine_write eng dev shard_id batch in (r, set_engine self engine eng)
  | Err e => (Err e, self)
  | Panic => (Panic, self)
  end.
Definition layer_scan (self : StorageLayer M W) (rounds : nat) (engine : Engine) (shard_id : Z)
  (range : Bound * Bound) (reverse : bool) :=
  eng <-- map_engine self engine ;; engine_scan eng rounds shard_id range reverse.

(** [MetaManager::create_replication_group]. *)
Definition create_replication_group (self : MetaManager M W) (rg_id : Z) (opt : RgOption)
  : StorageResult unit * MetaManager M W :=
  match rg_meta self !! rg_id with
  | Some _ => (Ok tt, self)
  | None =>
      let '(r, storage) := layer_create_rg (mm_storage self) rg_id opt in
      let with_storage groups :=
        mkMetaManager storage (table_to_id self) (table_to_shard self) (mm_shards self) (table_options self)
          (shard_to_rg self) groups (next_table_id self) (next_shard_id self) in
      match r with
      | Ok _ => (Ok tt, with_storage (<[rg_id := mkReplicaGroup rg_id (rf opt) []]> (rg_meta self)))
      | _ => (r, with_storage (rg_meta self))
      end
  end.

Definition DEFAULT_RG : Z := 0.

(** [MetaManager::new]. *)
Definition meta_manager_new (storage : StorageLayer M W) : MetaManager M W :=
  (create_replication_group (mkMetaManager storage ∅ ∅ ∅ ∅ ∅ ∅ 0 0) DEFAULT_RG rg_option_default).2.

(** [MetaManager::create_table]. *)
Definition create_table (self : MetaManager M W) (rg_id : Z) (name : string) (engine : Engine)
  (table_option : TableOption) : StorageResult unit * MetaManager M W :=
  match rg_meta self !! rg_id with
  | None => (Err (NotFound ("replication group " +:+ pretty rg_id +:+ " not created")), self)
  | Some _ =>
      let table_id := next_table_id self in
      let shard_id := next_shard_id self in
      let '(r, storage) := layer_create_shard (mm_storage self) engine shard_id rg_id table_option in
      (r, mkMetaManager storage
            (<[name := table_id]> (table_to_id self))
            (<[table_id := shard_id]> (table_to_shard self))
            (<[shard_id := mkShardMeta table_id shard_id engine]> (mm_shards self))
            (<[table_id := table_option]> (table_options self))
            (<[shard_id := rg_id]> (shard_to_rg self))
            (rg_meta self)
            ((table_id + 1) mod 2 ^ 64)%Z ((shard_id + 1) mod 2 ^ 64)%Z)
  end.

(** [MetaManager::shard_for]. *)
Definition shard_for (self : MetaManager M W) (name : string) : StorageResult ShardMeta :=
  table_id <-- ok_or (NotFound ("table " +:+ name)) (table_to_id self !! name) ;;
  shard_id <-- ok_or (NotFound ("table " +:+ pretty table_id)) (table_to_shard self !! table_id) ;;
  ok_or (NotFound ("shard " +:+ pretty shard_id)) (mm_shards self !! shard_id).

(** [MetaManager::table_option]. *)
Definition table_option (self : MetaManager M W) (table_id : Z) : StorageResult TableOption :=
  ok_or (NotFound ("table_option " +:+ pretty table_id)) (table_options self !! table_id).

(** ** The catalog invariant *)

(** The shards of the LSM engine. *)
Definition layer_shards (self : StorageLayer M W) : gmap Z (LsmStore M W) :=
  match sl_engines self LsmTree with Some eng => le_shards eng | None => ∅ end.

(** The disk manager of the LSM engine. *)
Definition layer_disk (self : StorageLayer M W) : option DiskManager := le_disk <$> sl_engines self LsmTree.

(** What a registered table points to. *)
Definition routed (self : MetaManager M W) (table_id : Z) : Prop :=
  exists shard_id opt rg store,
    table_to_shard self !! table_id = Some shard_id
    /\ mm_shards self !! shard_id = Some (mkShardMeta table_id shard_id LsmTree)
    /\ table_options self !! table_id = Some opt
    /\ shard_to_rg self !! shard_id = Some rg /\ is_Some (rg_meta self !! rg)
    /\ layer_shards (mm_storage self) !! shard_id = Some store
    /\ (0 <= table_id < next_table_id self)%Z /\ (0 <= shard_id < next_shard_id self)%Z.

Definition meta_wf (self : MetaManager M W) : Prop :=
  is_Some (sl_engines (mm_storage self) LsmTree)
  /\ (0 <= next_table_id self)%Z /\ (0 <= next_shard_id self)%Z
  /\ (forall rg, is_Some (rg_meta self !! rg) -> is_Some (lg_stores (sl_log_service (mm_storage self)) !! rg))
  /\ (forall name id, table_to_id self !! name = Some id -> routed self id)
  /\ (forall name1 name2 id, table_to_id self !! name1 = Some id -> table_to_id self !! name2 = Some id -> name1 = name2)
  /\ (forall id, is_Some (layer_shards (mm_storage self) !! id) -> (id < next_shard_id self)%Z).

(** Room for one more table and shard id. *)
Definition catalog_room (self : MetaManager M W) : Prop :=
  (next_table_id self + 1 < 2 ^ 64 /\ next_shard_id self + 1 < 2 ^ 64)%Z.

Lemma meta_new_wf storage :
  is_Some (sl_engines storage LsmTree) -> layer_shards storage = ∅ -> lg_stores (sl_log_service storage) = ∅ ->
  meta_wf (meta_manager_new storage).
Proof.
  intros He Hs Hl. unfold meta_manager_new, create_replication_group. cbn [rg_meta]. rewrite lookup_empty.
  cbn [mm_storage layer_create_rg]. unfold layer_create_rg, create_rg. rewrite Hl, lookup_empty.
  cbn [snd]. split_and!; simpl; try done.
  - intros rg [g Hg]. apply lookup_insert_Some in Hg as [[<- _]|[_ Hg]]; [|by rewrite lookup_empty in Hg].
    rewrite lookup_insert_eq. by eexists.
  - intros id [s Hid]. unfold layer_shards in *. cbn [sl_engines] in Hid. rewrite Hs in Hid. by rewrite lookup_empty in Hid.
Qed.

Lemma create_table_state self rg_id name opt g :
  meta_wf self -> catalog_room self -> rg_meta self !! rg_id = Some g ->
  exists eng wal, sl_engines (mm_storage self) LsmTree = Some eng
    /\ create_table self rg_id name LsmTree (TableLsmTree opt)
       = (Ok tt, mkMetaManager
            (set_engine (mm_storage self) LsmTree
               (mkLsmEngine (le_option eng) (le_disk eng)
                  (<[next_shard_id self := lsm_store_new opt (next_shard_id self) wal]> (le_shards eng))
                  (le_sweeping eng)))
            (<[name := next_table_id self]> (table_to_id self))
            (<[next_table_id self := next_shard_id self]> (table_to_shard self))
            (<[next_shard_id self := mkShardMeta (next_table_id self) (next_shard_id self) LsmTree]> (mm_shards self))
            (<[next_table_id self := TableLsmTree opt]> (table_options self))
            (<[next_shard_id self := rg_id]> (shard_to_rg self))
            (rg_meta self) (next_table_id self + 1)%Z (next_shard_id self + 1)%Z).
Proof.
  intros ([eng He] & Ht & Hs & Hrg & Hn & _ & Hsh) [Hr1 Hr2] Hg.
  destruct (Hrg rg_id) as [wal Hw]; [by eexists|]. exists eng, wal. split; [done|].
  unfold create_table, layer_create_shard, map_engine, log_get. rewrite Hg, He, Hw. cbn [ok_or].
  unfold create_shard.
  assert (le_shards eng !! next_shard_id self = None) as ->.
  { destruct (le_shards eng !! next_shard_id self) eqn:Hl; [|done].
    assert (next_shard_id self < next_shard_id self)%Z; [|lia].
    apply Hsh. unfold layer_shards. rewrite He, Hl. by eexists. }
  by rewrite !Z.mod_small by lia.
Qed.

(** The catalog invariant is kept. *)
Lemma create_table_wf self rg_id name opt g :
  meta_wf self -> catalog_room self -> rg_meta self !! rg_id = Some g ->
  meta_wf (create_table self rg_id name LsmTree (TableLsmTree opt)).2.
Proof.
  intros Hwf Hroom Hg. destruct (create_table_state self rg_id name opt g Hwf Hroom Hg) as (eng & wal & He & ->).
  pose proof Hwf as (_ & Ht & Hs & Hrg & Hn & Hinj & Hsh). cbn [snd].
  split_and!; unfold set_engine; cbn [mm_storage sl_engines sl_log_service next_table_id next_shard_id]; try done; [lia|lia| | |].
  - intros other id Hl. cbn [table_to_id] in Hl. apply lookup_insert_Some in Hl as [[<- <-]|[Hne Hl]].
    + exists (next_shard_id self), (TableLsmTree opt), rg_id. eexists.
      cbn [table_to_shard mm_shards table_options shard_to_rg rg_meta next_table_id next_shard_id].
      unfold layer_shards. cbn [mm_storage sl_engines le_shards].
      rewrite !lookup_insert_eq. split_and!; try done; try lia.
    + destruct (Hn other id Hl) as (sid & o & rg & st & H1' & H2' & H3' & H4' & H5' & H6' & H7' & H8').
      exists sid, o, rg, st. cbn [table_to_shard mm_shards table_options shard_to_rg rg_meta next_table_id next_shard_id].
      unfold layer_shards in *. cbn [mm_storage sl_engines le_shards]. rewrite He in H6'.
      rewrite !lookup_insert_ne by lia. split_and!; try done; lia.
  - intros n1 n2 id. cbn [table_to_id].
    assert (forall n, table_to_id self !! n = Some id -> id <> next_table_id self) as Hold.
    { intros n Hl ->. destruct (Hn n _ Hl) as (? & ? & ? & ? & _ & _ & _ & _ & _ & _ & Hlt & _). lia. }
    rewrite !lookup_insert_Some. intros [[<- <-]|[Hne1 Hl1]] [[<- Heq]|[Hne2 Hl2]]; try done.
    + by apply Hold in Hl2.
    + by apply Hold in Hl1.
    + by eapply Hinj.
  - intros id Hid. unfold layer_shards in *. cbn [mm_storage sl_engines le_shards] in Hid. rewrite He in Hsh.
    destruct (decide (id = next_shard_id self)) as [->|Hne]; [lia|]. rewrite lookup_insert_ne in Hid by done.
    apply Hsh in Hid. lia.
Qed.

(** The route, the store and the ids of a new table, and what stays. *)
Lemma create_table_spec self rg_id name opt g :
  meta_wf self -> catalog_room self -> rg_meta self !! rg_id = Some g ->
  exists self' wal, create_table self rg_id name LsmTree (TableLsmTree opt) = (Ok tt, self')
    /\ meta_wf self'
    /\ shard_for self' name = Ok (mkShardMeta (next_table_id self) (next_shard_id self) LsmTree)
    /\ layer_shards (mm_storage self') !! next_shard_id self = Some (lsm_store_new opt (next_shard_id self) wal)
    /\ table_option self' (next_table_id self) = Ok (TableLsmTree opt)
    /\ (forall other id, other <> name -> table_to_id self !! other = Some id -> shard_for self' other = shard_for self other)
    /\ (forall id, id <> next_shard_id self ->
          layer_shards (mm_storage self') !! id = layer_shards (mm_storage self) !! id)
    /\ layer_disk (mm_storage self') = layer_disk (mm_storage self).
Proof.
  intros Hwf Hroom Hg. destruct (create_table_state self rg_id name opt g Hwf Hroom Hg) as (eng & wal & He & Hc).
  pose proof (create_table_wf self rg_id name opt g Hwf Hroom Hg) as Hwf'.
  rewrite Hc in Hwf' |- *. do 2 eexists. split; [done|]. split; [exact Hwf'|].
  pose proof Hwf as (_ & _ & _ & _ & Hn & _ & _). unfold shard_for, table_option, layer_shards, layer_disk, set_engine.
  cbn [mm_storage sl_engines sl_log_service table_to_id table_to_shard mm_shards table_options shard_to_rg rg_meta le_shards].
  split_and!.
  - by rewrite lookup_insert_eq; cbn [ok_or rbind]; rewrite lookup_insert_eq; cbn [ok_or rbind]; rewrite lookup_insert_eq.
  - by rewrite lookup_insert_eq.
  - by rewrite lookup_insert_eq.
  - intros other id Hne Hl. destruct (Hn other id Hl) as (sid & o & rg & st & H1' & H2' & _ & _ & _ & _ & H7' & H8').
    rewrite lookup_insert_ne, Hl by done. cbn [ok_or rbind]. rewrite lookup_insert_ne, H1' by lia. cbn [ok_or rbind].
    by rewrite lookup_insert_ne by lia.
  - intros id Hne. rewrite He. by rewrite lookup_insert_ne.
  - by rewrite He.
Qed.

(** C18: Creating a table in an existing replication group always succeeds: the
    name is routed to a shard with fresh ids whose store is empty and carries
    the table's options, every other name keeps its route, and the catalog
    invariant (every registered name leads to a created shard) is kept. *)
Theorem create_table_ok self rg_id name opt g :
  meta_wf self -> catalog_room self -> rg_meta self !! rg_id = Some g ->
  exists self' wal, create_table self rg_id name LsmTree (TableLsmTree opt) = (Ok tt, self')
    /\ meta_wf self'
    /\ shard_for self' name = Ok (mkShardMeta (next_table_id self) (next_shard_id self) LsmTree)
    /\ layer_shards (mm_storage self') !! next_shard_id self = Some (lsm_store_new opt (next_shard_id self) wal)
    /\ table_option self' (next_table_id self) = Ok (TableLsmTree opt)
    /\ (forall other id, other <> name -> table_to_id self !! other = Some id -> shard_for self' other = shard_for self other)
    /\ (forall id, id <> next_shard_id self ->
          layer_shards (mm_storage self') !! id = layer_shards (mm_storage self) !! id).
Proof.
  intros Hwf Hroom Hg. destruct (create_table_spec self rg_id name opt g Hwf Hroom Hg) as (self' & wal & Hc & Hrest).
  exists self', wal. naive_solver.
Qed.

(** A table cannot be created in a replication group that does not exist,
    and the attempt changes nothing; creating a group twice changes nothing,
    and a created group has its log store. *)
Theorem replication_groups self rg_id opt :
  meta_wf self ->
  (rg_meta self !! rg_id = None ->
   forall name e o, create_table self rg_id name e o
     = (Err (NotFound ("replication group " +:+ pretty rg_id +:+ " not created")), self))
  /\ exists self', create_replication_group self rg_id opt = (Ok tt, self') /\ meta_wf self'
     /\ is_Some (rg_meta self' !! rg_id)
     /\ is_Some (lg_stores (sl_log_service (mm_storage self')) !! rg_id)
     /\ forall opt', create_replication_group self' rg_id opt' = (Ok tt, self').
Proof.
  intros Hwf. split; [intros Hg name e o; unfold create_table; by rewrite Hg|].
  pose proof Hwf as (He & Ht & Hs & Hrg & Hn & Hinj & Hsh). unfold create_replication_group.
  destruct (rg_meta self !! rg_id) as [g|] eqn:Hg.
  { exists self. rewrite Hg. split_and!; try done. apply Hrg. by rewrite Hg. }
  unfold layer_create_rg, create_rg.
  assert (forall lg, (forall rg, is_Some (lg_stores (sl_log_service (mm_storage self)) !! rg) -> is_Some (lg_stores lg !! rg)) ->
    is_Some (lg_stores lg !! rg_id) ->
    meta_wf (mkMetaManager (mkStorageLayer (sl_engines (mm_storage self)) lg) (table_to_id self) (table_to_shard self)
      (mm_shards self) (table_options self) (shard_to_rg self)
      (<[rg_id := mkReplicaGroup rg_id (rf opt) []]> (rg_meta self)) (next_table_id self) (next_shard_id self))) as Hk.
  { intros lg Hlg Hid. split_and!; try done.
    - intros rg. cbn [rg_meta]. destruct (decide (rg = rg_id)) as [->|Hne]; [done|].
      rewrite lookup_insert_ne by done. intros Hr. by apply Hlg, Hrg.
    - intros name id Hl. destruct (Hn name id Hl) as (sid & o & rg & st & Hrt).
      exists sid, o, rg, st. destruct Hrt as (? & ? & ? & ? & Hr5 & ?). split_and!; try done; try tauto.
      cbn [rg_meta]. destruct (decide (rg = rg_id)) as [->|Hne]; [rewrite lookup_insert_eq; by eexists|].
      by rewrite lookup_insert_ne. }
  destruct (lg_stores (sl_log_service (mm_storage self)) !! rg_id) as [w|] eqn:Hw; cbn [fst snd].
  - eexists. split; [done|]. split; [apply Hk; [done|by rewrite Hw]|].
    cbn [mm_storage sl_log_service rg_meta lg_stores]. rewrite lookup_insert_eq, Hw. by split_and!.
  - eexists. split; [done|]. split; [apply Hk|]; cbn [mm_storage sl_log_service rg_meta lg_stores];
      rewrite ?lookup_insert_eq; [|done|by split_and!].
    intros rg Hr. destruct (decide (rg = rg_id)) as [->|Hne]; [by rewrite lookup_insert_eq|].
    by rewrite lookup_insert_ne.
Qed.
End Ops.

(** ** Tables by name *)

Section Tables.
Context {M W : Type} `{OrderedMapLaws M} `{WalStore W} `{WalOpen W}.
Implicit Types (self : MetaManager M W) (storage : StorageLayer M W).

(** The name leads to a shard that represents [m]. *)
Definition serves self (name : string) (m : view) : Prop :=
  exists meta store dm l0s, shard_for self name = Ok meta
    /\ layer_shards (mm_storage self) !! shm_shard_id meta = Some store
    /\ layer_disk (mm_storage self) = Some dm /\ represents store dm l0s m.

(** The catalog has exactly the named tables, each with its own contents. *)
Definition catalog_represents self (tables : gmap string view) : Prop :=
  meta_wf self /\ map_Forall2 (fun name _ m => serves self name m) (table_to_id self) tables.

(** The storage layer is shared: an operation on it shows in the catalog. *)
Definition with_storage self storage : MetaManager M W :=
  mkMetaManager storage (table_to_id self) (table_to_shard self) (mm_shards self) (table_options self)
    (shard_to_rg self) (rg_meta self) (next_table_id self) (next_shard_id self).

(** Other shards of a replication group append to the log a store holds. *)
Definition relog (f : W -> W) storage : StorageLayer M W :=
  mkStorageLayer
    (fun e => (fun eng => mkLsmEngine (le_option eng) (le_disk eng)
        ((fun st => mkLsmStore (st_state st) (st_table_option st) (st_shard_id st) (f (st_wal st))) <$> le_shards eng)
        (le_sweeping eng)) <$> sl_engines storage e)
    (sl_log_service storage).

Lemma shard_for_routed self name id :
  meta_wf self -> table_to_id self !! name = Some id ->
  exists sid store, shard_for self name = Ok (mkShardMeta id sid LsmTree)
    /\ mm_shards self !! sid = Some (mkShardMeta id sid LsmTree)
    /\ layer_shards (mm_storage self) !! sid = Some store.
Proof.
  intros (_ & _ & _ & _ & Hn & _) Hl. destruct (Hn name id Hl) as (sid & o & rg & store & H1' & H2' & _ & _ & _ & H6' & _).
  exists sid, store. unfold shard_for. rewrite Hl. cbn [ok_or rbind]. rewrite H1'. cbn [ok_or rbind]. by rewrite H2'.
Qed.

(** Different names have different shards. *)
Lemma routes_apart self name1 name2 meta1 meta2 :
  meta_wf self -> shard_for self name1 = Ok meta1 -> shard_for self name2 = Ok meta2 -> name1 <> name2 ->
  shm_shard_id meta1 <> shm_shard_id meta2.
Proof.
  intros Hwf Hs1 Hs2 Hne Heq. pose proof Hwf as (_ & _ & _ & _ & _ & Hinj & _).
  destruct (table_to_id self !! name1) as [id1|] eqn:H1'; [|unfold shard_for in Hs1; by rewrite H1' in Hs1].
  destruct (table_to_id self !! name2) as [id2|] eqn:H2'; [|unfold shard_for in Hs2; by rewrite H2' in Hs2].
  destruct (shard_for_routed self name1 id1 Hwf H1') as (sid1 & st1 & Hr1 & Hm1 & _).
  destruct (shard_for_routed self name2 id2 Hwf H2') as (sid2 & st2 & Hr2 & Hm2 & _).
  rewrite Hs1 in Hr1. rewrite Hs2 in Hr2. simplify_eq. cbn in Heq. simplify_eq. by destruct Hne; eapply Hinj.
Qed.

(** The invariant looks at the shards the storage layer has, not into them. *)
Lemma meta_wf_storage self storage :
  meta_wf self -> is_Some (sl_engines storage LsmTree) -> sl_log_service storage = sl_log_service (mm_storage self) ->
  (forall id, is_Some (layer_shards storage !! id) <-> is_Some (layer_shards (mm_storage self) !! id)) ->
  meta_wf (with_storage self storage).
Proof.
  intros (_ & Ht & Hs & Hrg & Hn & Hinj & Hsh) He Hlg Hdom. split_and!; cbn [with_storage mm_storage rg_meta table_to_id]; try done.
  - rewrite Hlg. exact Hrg.
  - intros name id Hl. destruct (Hn name id Hl) as (sid & o & rg & store & H1' & H2' & H3' & H4' & H5' & H6' & H7').
    destruct (proj2 (Hdom sid)) as [store' Hst]; [by eexists|]. exists sid, o, rg, store'. split_and!; try done; apply H7'.
  - intros id Hid. by apply Hsh, Hdom.
Qed.

Lemma new_represents opt id wal dm : represents (lsm_store_new opt id wal : LsmStore M W) dm [] no_view.
Proof.
  split; [split_and!; [simpl; lia|constructor..]|]. intros k.
  unfold store_layers, mem_layers, mem_layer. cbn. by rewrite om_entries_empty.
Qed.

(** A new table is empty; the others keep their contents. *)
Lemma create_represents self tables rg_id g name opt :
  catalog_represents self tables -> catalog_room self -> rg_meta self !! rg_id = Some g ->
  exists self', create_table self rg_id name LsmTree (TableLsmTree opt) = (Ok tt, self')
    /\ catalog_represents self' (<[name := no_view]> tables).
Proof.
  intros [Hwf Ht] Hroom Hg.
  destruct (create_table_spec self rg_id name opt g Hwf Hroom Hg) as (self' & wal & Hc & Hwf' & Hs & Hl & _ & Ho & Hsh & Hd).
  exists self'. split; [done|]. split; [done|].
  destruct (create_table_state self rg_id name opt g Hwf Hroom Hg) as (eng & wal' & He & Hc'). rewrite Hc in Hc'.
  assert (table_to_id self' = <[name := next_table_id self]> (table_to_id self)) as -> by (by simplify_eq).
  intros other. destruct (decide (other = name)) as [->|Hne].
  - rewrite !lookup_insert_eq. constructor. unfold serves, layer_disk in *. rewrite He in Hd.
    eexists _, _, _, []. split; [exact Hs|]. split; [exact Hl|]. split; [by rewrite Hd|apply new_represents].
  - rewrite !lookup_insert_ne by done. specialize (Ht other). inversion Ht as [id m Hsv Hi Hm|]; constructor.
    destruct Hsv as (meta & store & dm & l0s & Hr1 & Hr2 & Hr3 & Hr4). exists meta, store, dm, l0s.
    rewrite (Ho other id), Hd by done. split_and!; try done. rewrite Hsh; [done|].
    destruct (shard_for_routed self other id Hwf (eq_sym Hi)) as (sid & st & Hsf & _ & Hst).
    rewrite Hr1 in Hsf. injection Hsf as ->. cbn.
    intros ->. destruct Hwf as (_ & _ & _ & _ & _ & _ & Hlt). assert (next_shard_id self < next_shard_id self)%Z; [|lia].
    apply Hlt. by eexists.
Qed.

(** A write through the route of a name. *)
Lemma write_represents self tables name m :
  catalog_represents self tables -> tables !! name = Some m ->
  exists meta store dm, shard_for self name = Ok meta
    /\ layer_shards (mm_storage self) !! shm_shard_id meta = Some store
    /\ layer_disk (mm_storage self) = Some dm
    /\ forall dev batch wal,
         wal_append (st_wal store) (st_shard_id store) batch = (Ok tt, wal) ->
         Forall (fun t => table_fits (dm_block_size dm) (mem_layer t))
           (active_mem (st_state (applied store wal batch)) :: imm_memtables (st_state store)) ->
         device_ok dev -> ids_left dm ->
         exists storage, layer_write (mm_storage self) dev (shm_engine meta) (shm_shard_id meta) batch = (Ok tt, storage)
           /\ catalog_represents (with_storage self storage) (<[name := spec_write m batch]> tables).
Proof.
  intros [Hwf Ht] Hm. pose proof (Ht name) as Hn. rewrite Hm in Hn. inversion Hn as [id m' Hsv Hi Hm'|]. subst m'.
  destruct Hsv as (meta & store & dm & l0s & Hr1 & Hr2 & Hr3 & Hr4). exists meta, store, dm. split_and!; try done.
  intros dev batch wal Hw Hfit Hdev Hids.
  destruct (store_write_ok store dm dev batch wal l0s m Hr4 Hw Hfit Hdev Hids) as (store' & dm' & l0s' & Hs & Hr' & _ & Hg).
  pose proof Hwf as ([eng He] & _). unfold layer_shards, layer_disk in Hr2, Hr3. rewrite He in Hr2, Hr3. simplify_eq/=.
  unfold layer_write, map_engine, engine_write, acquire. destruct (shm_engine meta). rewrite He. cbn [ok_or].
  rewrite Hr2. cbn [ok_or]. rewrite Hs. eexists. split; [done|]. split.
  - apply meta_wf_storage; [done|by eexists|done|]. intros sid. unfold layer_shards. rewrite He. cbn [set_engine sl_engines put_shard le_shards fst snd].
    destruct (decide (sid = shm_shard_id meta)) as [->|Hne]; [rewrite lookup_insert_eq, Hr2|by rewrite lookup_insert_ne].
    split; by eexists.
  - cbn [with_storage table_to_id]. intros other. destruct (decide (other = name)) as [->|Hne].
    + rewrite lookup_insert_eq, <- Hi. constructor. exists meta, store', dm', l0s'. split_and!; try done.
      unfold layer_shards. cbn [with_storage mm_storage set_engine sl_engines put_shard le_shards fst snd]. apply lookup_insert_eq.
    + rewrite lookup_insert_ne by done. specialize (Ht other). inversion Ht as [id2 m2 Hsv Hi2 Hm2|]; constructor.
      destruct Hsv as (meta2 & store2 & dm2 & l0s2 & Ha1 & Ha2 & Ha3 & Ha4). exists meta2, store2, dm', l0s2.
      unfold layer_shards, layer_disk in *. rewrite He in Ha2, Ha3. simplify_eq/=. split_and!; try done.
      * rewrite lookup_insert_ne; [done|]. by apply (routes_apart self name other).
      * by eapply represents_disk.
Qed.

(** What other shards append to a shared log does not show in any table. *)
Lemma relog_represents self tables f :
  catalog_represents self tables -> catalog_represents (with_storage self (relog f (mm_storage self))) tables.
Proof.
  intros [Hwf Ht]. pose proof Hwf as ([eng He] & _). split.
  - apply meta_wf_storage; [done|unfold relog; cbn; rewrite He; by eexists|done|]. intros id.
    unfold layer_shards, relog. cbn [sl_engines]. rewrite He. cbn [fmap option_fmap option_map le_shards].
    by rewrite lookup_fmap, fmap_is_Some.
  - cbn [with_storage table_to_id]. eapply map_Forall2_impl; [exact Ht|].
    intros name id m (meta & store & dm & l0s & Hr1 & Hr2 & Hr3 & Hr4). exists meta. eexists. exists dm, l0s.
    unfold layer_shards, layer_disk, relog in *. cbn [with_storage mm_storage sl_engines]. rewrite He in *.
    cbn [fmap option_fmap option_map le_shards le_disk] in *. split_and!; [done|by rewrite lookup_fmap, Hr2|done|done].
Qed.

(** C19: The catalog behaves as a map from table names to key-value maps. A
    table that is created is empty and takes over its name; a write through the
    route of a name succeeds (on a healthy device, with a batch the log accepts
    and the format can hold) and applies its batch to that table; every other
    table keeps its route and its contents, whatever other shards append to the
    log they share. *)
Theorem named_tables_refine self tables :
  catalog_represents self tables ->
  (forall rg_id g name opt, catalog_room self -> rg_meta self !! rg_id = Some g ->
     exists self', create_table self rg_id name LsmTree (TableLsmTree opt) = (Ok tt, self')
       /\ catalog_represents self' (<[name := no_view]> tables))
  /\ (forall name m, tables !! name = Some m ->
     exists meta store dm, shard_for self name = Ok meta
       /\ layer_shards (mm_storage self) !! shm_shard_id meta = Some store
       /\ layer_disk (mm_storage self) = Some dm
       /\ forall dev batch wal,
            wal_append (st_wal store) (st_shard_id store) batch = (Ok tt, wal) ->
            Forall (fun t => table_fits (dm_block_size dm) (mem_layer t))
              (active_mem (st_state (applied store wal batch)) :: imm_memtables (st_state store)) ->
            device_ok dev -> ids_left dm ->
            exists storage, layer_write (mm_storage self) dev (shm_engine meta) (shm_shard_id meta) batch = (Ok tt, storage)
              /\ catalog_represents (with_storage self storage) (<[name := spec_write m batch]> tables))
  /\ (forall f, catalog_represents (with_storage self (relog f (mm_storage self))) tables).
Proof.
  intros Hr. split_and!; [|by intros; apply write_represents|by intros; apply relog_represents].
  intros rg_id g name opt Hroom Hg. by apply (create_represents self tables rg_id g).
Qed.
End Tables.

(** *** Witnesses *)

#[export] Instance DemoWal_open : WalOpen DemoWal := {|
  wal_open_with _ _ _ _ := mkDemoWal [];
  wal_start_sync _ w := w;
|}.

Definition demo_meta : MetaManager SortedAssoc DemoWal :=
  meta_manager_new (storage_layer_new ∅ lsm_engine_option_default).

Lemma demo_meta_wf : meta_wf demo_meta.
Proof. by apply meta_new_wf. Qed.

Lemma create_table_ok_witness :
  exists self' wal, create_table demo_meta 0 "users" LsmTree (TableLsmTree lsm_table_option_default) = (Ok tt, self')
    /\ meta_wf self'
    /\ shard_for self' "users" = Ok (mkShardMeta (next_table_id demo_meta) (next_shard_id demo_meta) LsmTree)
    /\ layer_shards (mm_storage self') !! next_shard_id demo_meta
       = Some (lsm_store_new lsm_table_option_default (next_shard_id demo_meta) wal)
    /\ table_option self' (next_table_id demo_meta) = Ok (TableLsmTree lsm_table_option_default)
    /\ (forall other id, other <> "users" -> table_to_id demo_meta !! other = Some id ->
          shard_for self' other = shard_for demo_meta other)
    /\ (forall id, id <> next_shard_id demo_meta ->
          layer_shards (mm_storage self') !! id = layer_shards (mm_storage demo_meta) !! id).
Proof.
  apply (create_table_ok demo_meta 0 "users" lsm_table_option_default (mkReplicaGroup 0 1 []) demo_meta_wf).
  - split; vm_compute; reflexivity.
  - vm_compute. reflexivity.
Defined.

Lemma replication_groups_witness :
  (rg_meta demo_meta !! 5%Z = None ->
   forall name e o, create_table demo_meta 5 name e o
     = (Err (NotFound ("replication group " +:+ pretty 5%Z +:+ " not created")), demo_meta))
  /\ exists self', create_replication_group demo_meta 5 rg_option_default = (Ok tt, self') /\ meta_wf self'
     /\ is_Some (rg_meta self' !! 5%Z)
     /\ is_Some (lg_stores (sl_log_service (mm_storage self')) !! 5%Z)
     /\ forall opt', create_replication_group self' 5 opt' = (Ok tt, self').
Proof. exact (replication_groups demo_meta 5 rg_option_default demo_meta_wf). Defined.


(** A catalog with two tables. *)
Definition demo_meta0 : MetaManager SortedAssoc DemoWal :=
  meta_manager_new (storage_layer_new ∅ (mkLsmEngineOption "./data" 256 2 2 10000)).
Definition demo_meta1 : MetaManager SortedAssoc DemoWal :=
  (create_table demo_meta0 0 "users" LsmTree (TableLsmTree demo_table)).2.
Definition demo_meta2 : MetaManager SortedAssoc DemoWal :=
  (create_table demo_meta1 0 "orders" LsmTree (TableLsmTree demo_table)).2.
Definition demo_tables : gmap string view := <["orders" := no_view]> (<["users" := no_view]> ∅).

Lemma demo_catalog : catalog_represents demo_meta2 demo_tables.
Proof.
  assert (catalog_represents demo_meta0 ∅) as H0.
  { split; [by apply meta_new_wf|]. apply map_Forall2_empty. }
  destruct (create_represents demo_meta0 ∅ 0 (mkReplicaGroup 0 1 []) "users" demo_table H0) as (s1 & H1 & Hr1);
    [split; vm_compute; reflexivity|vm_compute; reflexivity|].
  assert (s1 = demo_meta1) as -> by (unfold demo_meta1; by rewrite H1).
  destruct (create_represents demo_meta1 _ 0 (mkReplicaGroup 0 1 []) "orders" demo_table Hr1) as (s2 & H2 & Hr2);
    [split; vm_compute; reflexivity|vm_compute; reflexivity|].
  assert (s2 = demo_meta2) as -> by (unfold demo_meta2; by rewrite H2). exact Hr2.
Qed.

Lemma named_tables_refine_witness :
  exists storage, layer_write (mm_storage demo_meta2) healthy LsmTree 0 batch1 = (Ok tt, storage)
    /\ catalog_represents (with_storage demo_meta2 storage) (<["users" := spec_write no_view batch1]> demo_tables).
Proof.
  destruct (named_tables_refine demo_meta2 demo_tables demo_catalog) as (_ & Hwr & _).
  destruct (Hwr "users" no_view) as (meta & store & dm & Hs & Hl & Hd & Hw); [reflexivity|].
  assert (shard_for demo_meta2 "users" = Ok (mkShardMeta 0 0 LsmTree)) as Hs' by (vm_compute; reflexivity).
  rewrite Hs in Hs'. injection Hs' as ->.
  assert (store = lsm_store_new demo_table 0 (mkDemoWal [])) as ->.
  { cut (Some store = Some (lsm_store_new demo_table 0 (mkDemoWal []))); [congruence|].
    rewrite <- Hl. vm_compute. reflexivity. }
  assert (dm = disk_manager_new ∅ 256) as ->.
  { cut (Some dm = Some (disk_manager_new ∅ 256)); [congruence|]. rewrite <- Hd. vm_compute. reflexivity. }
  apply (Hw healthy batch1 (mkDemoWal [(0%Z, batch1)])).
  - by vm_compute.
  - constructor; [|constructor]. change (dm_block_size _) with 256. table_fits_tac.
  - by split.
  - split; vm_compute; congruence.
Defined.
