(* ===== verification/WalFrame.v ===== *)
(** WAL primitives: log sequence numbers (wal/lsn.rs), frames (wal/frame.rs),
    slot words (wal/buffer.rs, [pack]/[unpack]), block alignment (wal/impl.rs,
    [align_up]) and the configuration (wal/config.rs).

    The CRC comes from a third-party crate: it is a parameter, a function of the
    bytes it was fed with a 32-bit result. *)

From stdpp Require Import base list numbers strings pretty.
From S2P Require Import Prelude.
From S2P Require Import Errors.

(** ** The checksum *)

(** [crc32fast::Hasher]: [finalize] after updates with [a] and [b] is the
    checksum of [a ++ b]. *)
Class Crc32 := {
  crc32 : bytes -> Z;
  crc32_range : forall b, is_u32 (crc32 b);
}.

(** ** Log sequence numbers *)

Record Lsn := mkLsn { lsn_get : Z }.

Definition LSN_ZERO : Lsn := mkLsn 0.

(** [Lsn::checked_add]. *)
Definition lsn_checked_add (l : Lsn) (n : Z) : option Lsn :=
  if decide (lsn_get l + n <= u64_max)%Z then Some (mkLsn (lsn_get l + n)) else None.

(** [Add<u64> for Lsn] and [Sub<u64> for Lsn], in the checked profile. *)
Definition lsn_add (l : Lsn) (n : Z) : WalResult Lsn :=
  v <-- u64_add (lsn_get l) n ;; Ok (mkLsn v).
Definition lsn_sub (l : Lsn) (n : Z) : WalResult Lsn :=
  if decide (n <= lsn_get l)%Z then Ok (mkLsn (lsn_get l - n)) else Panic.

(** ** Frames *)

Definition HEADER_LEN : nat := 16.

Record DecodedFrame := mkDecodedFrame { df_lsn : Lsn; df_total_len : nat }.

Section Frames.
Context `{Crc32}.

(** [crc32_of]. *)
Definition crc32_of (lsn : Lsn) (payload : bytes) : Z := crc32 (le_bytes 8 (lsn_get lsn) ++ payload).

(** [frame::encode]; [payload.len() as u32] keeps the low 32 bits. *)
Definition encode_frame (lsn : Lsn) (payload : bytes) : bytes :=
  le_bytes 4 (Z.of_nat (length payload))
  ++ le_bytes 4 (crc32_of lsn payload)
  ++ le_bytes 8 (lsn_get lsn)
  ++ payload.

(** A little-endian field of a buffer. *)
Definition field_le (buf : bytes) (a b : nat) : WalResult Z :=
  s <-- slice buf a b ;; Ok (of_le_bytes s).

(** [DecodedFrame::decode_at]. *)
Definition decode_at (buf : bytes) (offset : nat) : WalResult (option DecodedFrame) :=
  if decide (length buf < offset + HEADER_LEN) then Ok None
  else
    len <-- field_le buf offset (offset + 4) ;;
    crc <-- field_le buf (offset + 4) (offset + 8) ;;
    lsn <-- field_le buf (offset + 8) (offset + 16) ;;
    let frame_end := offset + HEADER_LEN + Z.to_nat len in
    if decide (length buf < frame_end) then Ok None
    else
      payload <-- slice buf (offset + HEADER_LEN) frame_end ;;
      if decide (crc32 (le_bytes 8 lsn ++ payload) <> crc)
      then Err (WalCrcMismatch lsn (Z.of_nat offset))
      else Ok (Some (mkDecodedFrame (mkLsn lsn) (HEADER_LEN + Z.to_nat len))).

Lemma length_encode_frame lsn payload : length (encode_frame lsn payload) = HEADER_LEN + length payload.
Proof. unfold encode_frame, HEADER_LEN. len. Qed.

(** The fields of a frame image [len | crc | lsn | payload] at [offset]. *)
Definition frame_image (len crc lsn : Z) (payload : bytes) : bytes :=
  le_bytes 4 len ++ le_bytes 4 crc ++ le_bytes 8 lsn ++ payload.

Lemma frame_fields pre len crc lsn payload post :
  is_u32 len -> is_u32 crc -> is_u64 lsn ->
  let buf := pre ++ frame_image len crc lsn payload ++ post in
  let o := length pre in
  field_le buf o (o + 4) = Ok len /\ field_le buf (o + 4) (o + 8) = Ok crc
  /\ field_le buf (o + 8) (o + 16) = Ok lsn.
Proof.
  intros Hl Hc Hn buf o. unfold is_u32, is_u64, u32_max, u64_max in *. unfold field_le, buf, frame_image.
  assert (forall a b p f q v n, pre ++ (le_bytes 4 len ++ le_bytes 4 crc ++ le_bytes 8 lsn ++ payload) ++ post = p ++ le_bytes n f ++ q ->
    a = length p -> b = length p + n -> (0 <= f < 2 ^ (Z.of_nat n * 8))%Z -> v = f ->
    (s <-- slice (E := WalError) (pre ++ (le_bytes 4 len ++ le_bytes 4 crc ++ le_bytes 8 lsn ++ payload) ++ post) a b ;; Ok (of_le_bytes s))
    = Ok v) as Hf.
  { intros a b p f q v n -> -> -> Hr ->. rewrite slice_mid by len. cbn [rbind]. by rewrite of_le_le_bytes. }
  split_and!.
  - eapply (Hf _ _ pre len _ _ 4); [by rewrite <- !app_assoc|..]; subst o; len.
  - eapply (Hf _ _ (pre ++ le_bytes 4 len) crc _ _ 4); [by rewrite <- !app_assoc|..]; subst o; len.
  - eapply (Hf _ _ (pre ++ le_bytes 4 len ++ le_bytes 4 crc) lsn _ _ 8); [by rewrite <- !app_assoc|..]; subst o; len.
Qed.

(** What decoding a complete frame image does: the checksum decides. *)
Lemma decode_at_image pre crc lsn payload post :
  (Z.of_nat (length payload) <= u32_max)%Z -> is_u32 crc -> is_u64 lsn ->
  decode_at (pre ++ frame_image (Z.of_nat (length payload)) crc lsn payload ++ post) (length pre)
  = if decide (crc32_of (mkLsn lsn) payload <> crc)
    then Err (WalCrcMismatch lsn (Z.of_nat (length pre)))
    else Ok (Some (mkDecodedFrame (mkLsn lsn) (HEADER_LEN + length payload))).
Proof.
  intros Hl Hc Hn. destruct (frame_fields pre (Z.of_nat (length payload)) crc lsn payload post) as (F1 & F2 & F3);
    [unfold is_u32; lia|done|done|].
  unfold decode_at. rewrite F1, F2, F3. cbn [rbind]. rewrite Nat2Z.id.
  assert (length (pre ++ frame_image (Z.of_nat (length payload)) crc lsn payload ++ post)
          = length pre + HEADER_LEN + length payload + length post) as Hlen by (unfold frame_image, HEADER_LEN; len).
  rewrite Hlen. rewrite !decide_False by lia.
  assert (slice (E := WalError) (pre ++ frame_image (Z.of_nat (length payload)) crc lsn payload ++ post)
    (length pre + HEADER_LEN) (length pre + HEADER_LEN + length payload) = Ok payload) as ->; [|done].
  unfold frame_image. rewrite <- !app_assoc.
  rewrite (app_assoc pre), (app_assoc (pre ++ _)), (app_assoc ((pre ++ _) ++ _)).
  apply slice_mid; unfold HEADER_LEN; len.
Qed.

Lemma decode_encode_frame pre lsn payload post :
  is_u64 (lsn_get lsn) -> (Z.of_nat (length payload) <= u32_max)%Z ->
  decode_at (pre ++ encode_frame lsn payload ++ post) (length pre)
  = Ok (Some (mkDecodedFrame lsn (HEADER_LEN + length payload))).
Proof.
  intros Hn Hl. destruct lsn as [n].
  change (encode_frame (mkLsn n) payload) with (frame_image (Z.of_nat (length payload)) (crc32_of (mkLsn n) payload) n payload).
  rewrite decode_at_image; [|done|apply crc32_range|done]. rewrite decide_False; [done|tauto].
Qed.

(** C29: A frame decodes to the LSN and length it was encoded with, wherever it
    sits in a buffer and whatever surrounds it. *)
Theorem frame_roundtrip pre lsn payload post :
  is_u64 (lsn_get lsn) -> (Z.of_nat (length payload) <= u32_max)%Z ->
  decode_at (pre ++ encode_frame lsn payload ++ post) (length pre)
  = Ok (Some (mkDecodedFrame lsn (HEADER_LEN + length payload)))
  /\ slice (E := WalError) (pre ++ encode_frame lsn payload ++ post)
       (length pre + HEADER_LEN) (length pre + HEADER_LEN + length payload) = Ok payload.
Proof.
  intros Hn Hl. split; [by apply decode_encode_frame|]. unfold encode_frame. rewrite <- !app_assoc.
  rewrite (app_assoc pre), (app_assoc (pre ++ _)), (app_assoc ((pre ++ _) ++ _)).
  apply slice_mid; unfold HEADER_LEN; len.
Qed.

(** C30: A torn tail is never taken for a frame: if the buffer ends anywhere
    inside a frame, decoding reports the end of the log, not an error; and if
    the payload was altered so that its checksum differs, decoding reports the
    mismatch. *)
Theorem frame_torn_or_tampered pre lsn payload :
  is_u64 (lsn_get lsn) -> (Z.of_nat (length payload) <= u32_max)%Z ->
  (forall k, k < length (encode_frame lsn payload) ->
     decode_at (pre ++ take k (encode_frame lsn payload)) (length pre) = Ok None)
  /\ (forall payload' post, length payload' = length payload ->
        crc32_of lsn payload' <> crc32_of lsn payload ->
        decode_at (pre ++ frame_image (Z.of_nat (length payload)) (crc32_of lsn payload) (lsn_get lsn) payload' ++ post)
          (length pre)
        = Err (WalCrcMismatch (lsn_get lsn) (Z.of_nat (length pre)))).
Proof.
  intros Hn Hl. split.
  - intros k Hk. rewrite length_encode_frame in Hk. unfold decode_at.
    assert (length (take k (encode_frame lsn payload)) = k) as Hlk by (rewrite length_take, length_encode_frame; lia).
    rewrite length_app, Hlk. case_decide as Hd; [done|].
    assert (take k (encode_frame lsn payload)
      = frame_image (Z.of_nat (length payload)) (crc32_of lsn payload) (lsn_get lsn) (take (k - HEADER_LEN) payload)) as ->.
    { unfold encode_frame, frame_image, HEADER_LEN in *. rewrite !take_app, !length_le_bytes.
      rewrite !take_ge by (rewrite ?length_le_bytes; lia). do 3 f_equal. f_equal. lia. }
    destruct (frame_fields pre (Z.of_nat (length payload)) (crc32_of lsn payload) (lsn_get lsn) (take (k - HEADER_LEN) payload) [])
      as (F1 & F2 & F3); [unfold is_u32; lia|apply crc32_range|done|].
    rewrite app_nil_r in F1, F2, F3. rewrite F1, F2, F3. cbn [rbind]. rewrite Nat2Z.id.
    rewrite decide_True; [done|]. lia.
  - intros payload' post Hlen Hne. rewrite <- Hlen. destruct lsn as [n].
    rewrite decode_at_image; [|lia|apply crc32_range|done]. by rewrite decide_True.
Qed.
End Frames.

(** ** Slot words *)

(** [pack]: [(pos as u64) << 32] drops what does not fit 64 bits; the debug
    assertion rules such positions out. *)
Definition pack (pos frame_len : Z) : WalResult Z :=
  rassert (bool_decide (pos < 2 ^ 32)%Z) ;;;
  Ok (Z.lor (Z.shiftl pos 32 mod 2 ^ 64) frame_len).

(** [unpack]. *)
Definition unpack (v : Z) : Z * Z := (Z.shiftr v 32, Z.land v 0xFFFFFFFF).

Lemma lor_disjoint a b n : (0 <= b < 2 ^ n)%Z -> (0 <= n)%Z -> Z.lor (a * 2 ^ n) b = (a * 2 ^ n + b)%Z.
Proof.
  intros Hb Hn. rewrite <- Z.add_lor_land.
  assert (Z.land (a * 2 ^ n) b = 0)%Z as ->; [|lia].
  apply Z.bits_inj'. intros i Hi. rewrite Z.land_spec, Z.bits_0. destruct (Z.lt_ge_cases i n).
  - by rewrite Z.mul_pow2_bits_low.
  - destruct (Z.eq_dec b 0%Z) as [->|]; [by rewrite Z.bits_0, andb_false_r|].
    rewrite (Z.bits_above_log2 b i), andb_false_r; [done|lia|].
    apply Z.log2_lt_pow2; [lia|]. assert (2 ^ n <= 2 ^ i)%Z by (apply Z.pow_le_mono_r; lia). lia.
Qed.

Lemma pack_unpack pos len :
  is_u32 pos -> is_u32 len -> exists v, pack pos len = Ok v /\ is_u64 v /\ unpack v = (pos, len).
Proof.
  unfold is_u32, is_u64, u32_max, u64_max. intros Hp Hl. unfold pack. rewrite bool_decide_true by lia.
  cbn [rassert rbind]. eexists. split; [done|]. rewrite Z.shiftl_mul_pow2 by lia. rewrite Z.mod_small by lia.
  rewrite lor_disjoint by lia. split; [lia|]. unfold unpack. f_equal.
  - rewrite Z.shiftr_div_pow2 by lia. rewrite Z.div_add_l by lia. rewrite Z.div_small by lia. lia.
  - change 0xFFFFFFFF%Z with (Z.ones 32). rewrite Z.land_ones by lia.
    rewrite Z.add_comm, Z.mod_add by lia. apply Z.mod_small. lia.
Qed.

(** A slot word holds its position and length exactly, for every 32-bit
    position and length; a larger position is refused by the assertion. *)
Theorem unpack_pack pos len :
  is_u64 pos -> is_u32 len ->
  match pack pos len with
  | Ok v => is_u64 v /\ unpack v = (pos, len)
  | Err _ => False
  | Panic => (u32_max < pos)%Z
  end.
Proof.
  intros Hp Hl. destruct (decide (pos <= u32_max)%Z) as [Hs|Hs].
  - destruct (pack_unpack pos len) as (v & -> & Hv); [unfold is_u32, is_u64 in *; lia|done|done].
  - unfold pack. rewrite bool_decide_false by (unfold u32_max in Hs; lia). simpl. lia.
Qed.

(** ** Alignment *)

(** [align_up] on 64-bit words. *)
Definition align_up (v align : Z) : Z :=
  Z.land ((v + align - 1) mod 2 ^ 64) (Z.lxor (align - 1) u64_max).

(** Clearing the low bits of a 64-bit word. *)
Lemma land_mask x k : (0 <= x < 2 ^ 64)%Z -> (0 <= k <= 64)%Z ->
  Z.land x (Z.lxor (2 ^ k - 1) u64_max) = (x / 2 ^ k * 2 ^ k)%Z.
Proof.
  intros Hx Hk. rewrite <- Z.shiftr_div_pow2, <- Z.shiftl_mul_pow2 by lia. apply Z.bits_inj'. intros i Hi.
  change u64_max with (Z.ones 64). replace (2 ^ k - 1)%Z with (Z.ones k) by (rewrite Z.ones_equiv; lia).
  rewrite Z.land_spec, Z.lxor_spec. destruct (Z.lt_ge_cases i k).
  - rewrite Z.shiftl_spec_low by lia. rewrite !Z.ones_spec_low by lia. by rewrite andb_false_r.
  - rewrite Z.shiftl_spec, Z.shiftr_spec by lia. replace (i - k + k)%Z with i by lia.
    rewrite (Z.ones_spec_high k) by lia. destruct (Z.lt_ge_cases i 64).
    + rewrite Z.ones_spec_low by lia. by rewrite andb_true_r.
    + destruct (Z.eq_dec x 0%Z) as [->|]; [by rewrite Z.bits_0|].
      rewrite (Z.bits_above_log2 x i); [done|lia|]. apply Z.log2_lt_pow2; [lia|].
      assert (2 ^ 64 <= 2 ^ i)%Z by (apply Z.pow_le_mono_r; lia). lia.
Qed.

Lemma align_up_spec v k :
  (0 <= v)%Z -> (0 <= k <= 63)%Z -> (v + 2 ^ k <= 2 ^ 64)%Z ->
  (v <= align_up v (2 ^ k) < v + 2 ^ k /\ align_up v (2 ^ k) mod 2 ^ k = 0)%Z.
Proof.
  intros Hv Hk Hr. assert (0 < 2 ^ k)%Z as Hp by (apply Z.pow_pos_nonneg; lia).
  unfold align_up. rewrite Z.mod_small by lia. rewrite land_mask by lia.
  split; [|apply Z.mod_mul; lia].
  pose proof (Z.div_mod (v + 2 ^ k - 1) (2 ^ k)). pose proof (Z.mod_pos_bound (v + 2 ^ k - 1) (2 ^ k)). lia.
Qed.

(** ** Configuration *)

Record WalConfig := mkWalConfig {
  segment_size : Z;
  buffer_size : Z;
  wc_block_size : Z;
  buffer_count : Z;
  read_cache_blocks : Z;
  o_direct : bool;
}.

Definition wal_config_default : WalConfig := mkWalConfig (Z.shiftl 1 30) (Z.shiftl 1 24) 4096 2 64 true.

(** [usize::is_power_of_two]. *)
Definition is_power_of_two (v : Z) : bool := bool_decide (0 < v /\ v = 2 ^ Z.log2 v)%Z.

(** [WalConfig::validate]. *)
Definition validate (self : WalConfig) : WalResult unit :=
  let misaligned v what :=
    if decide (v mod wc_block_size self <> 0)%Z
    then Err (WalInvalidConfig (what +:+ " (" +:+ pretty v +:+ ") must be a multiple of block_size ("
                                +:+ pretty (wc_block_size self) +:+ ")"))
    else Ok tt in
  if bool_decide (wc_block_size self < 512)%Z || negb (is_power_of_two (wc_block_size self))
  then Err (WalInvalidConfig ("block_size must be a power of two >= 512 (got " +:+ pretty (wc_block_size self) +:+ ")"))
  else
    misaligned (segment_size self) "segment_size" ;;;
    misaligned (buffer_size self) "buffer_size" ;;;
    if decide (segment_size self <= buffer_size self)%Z
    then Err (WalInvalidConfig ("buffer_size (" +:+ pretty (buffer_size self) +:+ ") must be < segment_size ("
                                +:+ pretty (segment_size self) +:+ ")"))
    else if decide (buffer_count self < 2)%Z
    then Err (WalInvalidConfig ("buffer_count must be >= 2 (got " +:+ pretty (buffer_count self) +:+ ")"))
    else if decide (read_cache_blocks self = 0)%Z
    then Err (WalInvalidConfig
      "read_cache_blocks must be >= 1 (empty pool has no victim and no unpinner → deadlock)")
    else Ok tt.

(** What a valid configuration gives the rest of the log. *)
Definition config_ok (self : WalConfig) : Prop :=
  (exists k, 9 <= k /\ wc_block_size self = 2 ^ k)%Z
  /\ (segment_size self mod wc_block_size self = 0)%Z /\ (buffer_size self mod wc_block_size self = 0)%Z
  /\ (buffer_size self < segment_size self)%Z /\ (2 <= buffer_count self)%Z /\ read_cache_blocks self <> 0%Z.

Lemma is_power_of_two_spec v : is_power_of_two v = true <-> exists k, (0 <= k /\ v = 2 ^ k)%Z.
Proof.
  unfold is_power_of_two. rewrite bool_decide_eq_true. split.
  - intros [Hv He]. exists (Z.log2 v). split; [apply Z.log2_nonneg|done].
  - intros (k & Hk & ->). split; [by apply Z.pow_pos_nonneg|]. by rewrite Z.log2_pow2.
Qed.

(** [validate] accepts exactly the usable configurations; every other one is
    refused with [InvalidConfig]. *)
Theorem validate_iff self :
  (validate self = Ok tt <-> config_ok self)
  /\ (validate self <> Ok tt -> exists m, validate self = Err (WalInvalidConfig m)).
Proof.
  unfold validate, config_ok.
  destruct (bool_decide_reflect (wc_block_size self < 512)%Z) as [Hb|Hb]; simpl.
  { split; [|intros _; eexists; reflexivity]. split; [done|]. intros ((k & Hk & He) & _). exfalso.
    assert (2 ^ 9 <= 2 ^ k)%Z by (apply Z.pow_le_mono_r; lia). lia. }
  destruct (is_power_of_two (wc_block_size self)) eqn:Hp; simpl.
  2:{ split; [|intros _; eexists; reflexivity]. split; [done|]. intros ((k & Hk & He) & _). exfalso.
      assert (is_power_of_two (wc_block_size self) = true); [|congruence].
      apply is_power_of_two_spec. exists k. split; [lia|done]. }
  apply is_power_of_two_spec in Hp as (k & Hk & He).
  assert (exists k, 9 <= k /\ wc_block_size self = 2 ^ k)%Z as Hpow.
  { exists k. split; [|done]. destruct (Z.lt_ge_cases k 9); [|done]. exfalso.
    assert (2 ^ k < 2 ^ 9)%Z by (apply Z.pow_lt_mono_r; lia). lia. }
  repeat case_decide; simpl;
    (split; [split; [first [done | intros _; split_and!; first [done | lia]]
                    |intros (_ & ? & ? & ? & ? & ?); first [done | lia]]
            |first [done | intros _; eexists; reflexivity]]).
Qed.

(** The padded length of a buffer's frames. *)
Lemma padded_bounds self v :
  config_ok self -> (buffer_size self + wc_block_size self <= u64_max)%Z -> (0 <= v <= buffer_size self)%Z ->
  (v <= align_up v (wc_block_size self) <= buffer_size self
   /\ align_up v (wc_block_size self) mod wc_block_size self = 0
   /\ align_up v (wc_block_size self) < segment_size self)%Z.
Proof.
  intros ((k & Hk & He) & _ & Hbm & Hlt & _) Hr Hv. rewrite He in *. unfold u64_max in Hr.
  assert (0 < 2 ^ k)%Z as Hp by (apply Z.pow_pos_nonneg; lia).
  assert (k <= 63)%Z.
  { destruct (Z.lt_ge_cases 63 k); [|lia]. exfalso. assert (2 ^ 64 <= 2 ^ k)%Z by (apply Z.pow_le_mono_r; lia).
    lia. }
  destruct (align_up_spec v k) as [Hb Hm]; [lia|lia|lia|].
  assert (align_up v (2 ^ k) <= buffer_size self)%Z; [|lia].
  apply Z.div_exact in Hm, Hbm; [|lia..]. rewrite Hm, Hbm in *.
  apply Z.mul_le_mono_nonneg_l; [lia|]. apply Z.lt_succ_r. apply (Z.mul_lt_mono_pos_l (2 ^ k)); lia.
Qed.

(** Under a valid configuration the padded image of a buffer's frames is
    block-aligned, covers them, and fits the buffer, hence a segment: a flush
    never needs more than one fresh segment. *)
Theorem padded_fits self v :
  config_ok self -> (buffer_size self + wc_block_size self <= u64_max)%Z -> (0 <= v <= buffer_size self)%Z ->
  (v <= align_up v (wc_block_size self) <= buffer_size self
   /\ align_up v (wc_block_size self) mod wc_block_size self = 0
   /\ align_up v (wc_block_size self) < segment_size self)%Z.
Proof. apply padded_bounds. Qed.

(** *** Witnesses *)

(** The result of a run that succeeds. *)
Definition ok_get {A} (d : A) (r : WalResult A) : A := match r with Ok a => a | _ => d end.

(** A checksum with the right range: the sum of the bytes. *)
Program Definition demo_crc : Crc32 := {|
  crc32 b := (foldr (fun x acc => u8_val x + acc) 0 b mod 2 ^ 32)%Z;
|}.
Next Obligation. intros b. unfold is_u32, u32_max. pose proof (Z.mod_pos_bound (foldr (fun x acc => u8_val x + acc) 0 b) (2 ^ 32))%Z. lia. Qed.

Definition demo_payload : bytes := [Byte.x68; Byte.x69].

Lemma frame_roundtrip_witness :
  let _ := demo_crc in
  decode_at ([Byte.x00] ++ encode_frame (mkLsn 42) demo_payload ++ [Byte.x01]) 1
  = Ok (Some (mkDecodedFrame (mkLsn 42) (HEADER_LEN + 2)))
  /\ slice (E := WalError) ([Byte.x00] ++ encode_frame (mkLsn 42) demo_payload ++ [Byte.x01])
       (1 + HEADER_LEN) (1 + HEADER_LEN + 2) = Ok demo_payload.
Proof.
  intros c. apply (@frame_roundtrip demo_crc [Byte.x00] (mkLsn 42) demo_payload [Byte.x01]);
    [unfold is_u64|]; vm_compute; repeat split; discriminate.
Defined.

Lemma frame_torn_or_tampered_witness :
  let _ := demo_crc in
  decode_at (take 10 (encode_frame (mkLsn 42) demo_payload)) 0 = Ok None
  /\ decode_at (frame_image 2 (crc32_of (mkLsn 42) demo_payload) 42 [Byte.x68; Byte.x70]) 0
     = Err (WalCrcMismatch 42 0).
Proof.
  intros c.
  assert (is_u64 (lsn_get (mkLsn 42))) as H1 by (split; vm_compute; discriminate).
  assert (Z.of_nat (length demo_payload) <= u32_max)%Z as H2 by (vm_compute; discriminate).
  destruct (@frame_torn_or_tampered demo_crc [] (mkLsn 42) demo_payload H1 H2) as [Ht Hc]. split.
  - apply (Ht 10). vm_compute. lia.
  - specialize (Hc [Byte.x68; Byte.x70] [] eq_refl). rewrite app_nil_r in Hc. apply Hc. vm_compute. discriminate.
Defined.

Lemma unpack_pack_witness :
  match pack 4096 100 with
  | Ok v => is_u64 v /\ unpack v = (4096%Z, 100%Z)
  | Err _ => False
  | Panic => (u32_max < 4096)%Z
  end.
Proof. apply (unpack_pack 4096 100); vm_compute; split; discriminate. Defined.

Lemma default_config_ok : config_ok wal_config_default.
Proof. split_and!; [exists 12%Z; by split|by vm_compute..]. Qed.

Lemma validate_iff_witness :
  (validate wal_config_default = Ok tt <-> config_ok wal_config_default)
  /\ (validate wal_config_default <> Ok tt -> exists m, validate wal_config_default = Err (WalInvalidConfig m)).
Proof. exact (validate_iff wal_config_default). Defined.

Lemma padded_fits_witness :
  (5000 <= align_up 5000 4096 <= 16777216 /\ align_up 5000 4096 mod 4096 = 0 /\ align_up 5000 4096 < 1073741824)%Z.
Proof. apply (padded_fits wal_config_default 5000 default_config_ok); vm_compute; repeat split; discriminate. Defined.
