(* ===== verification/WalFile.v ===== *)
(** The files of the log (wal/segment.rs, wal/aligned.rs, path helpers of
    wal/index.rs): positional writes and reads, [fdatasync], and what a crash
    leaves behind.

    The operating system is a script of outcomes: every system call takes the
    next one (a full transfer, a short one, or an error), and an exhausted
    script means that every later call succeeds in full. Written bytes are
    pending until [fdatasync]; a crash may lose, apply or tear each pending
    write independently. *)

From stdpp Require Import base strings pretty numbers list.
From S2P Require Import Prelude.
From S2P Require Import Errors.
From S2P Require Import WalFrame.

(** ** File images *)

(** A positional write; a gap past the end of the file reads as zeros. *)
Definition write_at (img : bytes) (off : nat) (data : bytes) : bytes :=
  take off img ++ replicate (off - length img) Byte.x00 ++ data ++ drop (off + length data) img.

Definition read_at (img : bytes) (off n : nat) : bytes := take n (drop off img).

Lemma length_write_at img off data :
  length (write_at img off data) = Nat.max (length img) (off + length data).
Proof. unfold write_at. len. Qed.
Lemma length_read_at img off n : length (read_at img off n) = Nat.min n (length img - off).
Proof. unfold read_at. len. Qed.
#[export] Hint Rewrite length_write_at length_read_at : len.

Lemma read_write_same img off data : read_at (write_at img off data) off (length data) = data.
Proof.
  unfold read_at, write_at. rewrite app_assoc, drop_app_length' by len. apply take_app_length.
Qed.

Lemma read_write_before img off data a n :
  a + n <= off -> a + n <= length img -> read_at (write_at img off data) a n = read_at img a n.
Proof.
  intros H1 H2. unfold read_at, write_at.
  rewrite drop_app_le by len. rewrite take_app_le by len. by rewrite skipn_firstn_comm, take_take, Nat.min_l by lia.
Qed.

Lemma read_write_after img off data a n :
  off + length data <= a -> read_at (write_at img off data) a n = read_at img a n.
Proof.
  intros H. unfold read_at, write_at. f_equal. rewrite !app_assoc. rewrite drop_app_ge by len.
  rewrite drop_drop. rewrite !length_app, length_take, length_replicate.
  f_equal. lia.
Qed.

(** A sub-window of what was written. *)
Lemma read_write_inside img off data a n :
  a + n <= length data -> read_at (write_at img off data) (off + a) n = read_at data a n.
Proof.
  intros H. unfold read_at, write_at. rewrite app_assoc, drop_app_ge by len.
  rewrite !length_app, length_take, length_replicate.
  replace (off + a - _) with a by lia. rewrite drop_app_le by lia. by rewrite take_app_le by len.
Qed.

Lemma write_at_chunks img off d1 d2 :
  write_at (write_at img off d1) (off + length d1) d2 = write_at img off (d1 ++ d2).
Proof.
  unfold write_at at 1 3. rewrite length_app, length_write_at.
  replace (off + length d1 - Nat.max (length img) (off + length d1)) with 0 by lia. simpl.
  unfold write_at. rewrite (app_assoc (take off img)), (app_assoc (_ ++ _) d1).
  rewrite (take_app_le _ (drop _ img)) by len. rewrite take_ge by len. rewrite <- !app_assoc. do 4 f_equal.
  rewrite !app_assoc, drop_app_ge by len. rewrite drop_drop. rewrite !length_app, length_take, length_replicate.
  f_equal. lia.
Qed.

(** ** Files and system calls *)

Inductive Sys := SysFull | SysShort (n : nat) | SysErr (m : string).

Record FileState := mkFile {
  f_durable : bytes;
  f_pending : list (nat * bytes);
  f_script : list Sys;
}.

(** What a reader sees: every write so far, in order. *)
Definition apply_writes (img : bytes) (ws : list (nat * bytes)) : bytes :=
  foldl (fun img w => write_at img w.1 w.2) img ws.
Definition contents (f : FileState) : bytes := apply_writes (f_durable f) (f_pending f).

(** The outcome of the next system call. *)
Definition next_sys (f : FileState) : Sys * FileState :=
  match f_script f with
  | [] => (SysFull, f)
  | s :: rest => (s, mkFile (f_durable f) (f_pending f) rest)
  end.

Definition push_write (f : FileState) (off : nat) (data : bytes) : FileState :=
  mkFile (f_durable f) (f_pending f ++ [(off, data)]) (f_script f).

(** How many bytes a call transfers; [None] is an error. *)
Definition transferred (s : Sys) (want : nat) : string + nat :=
  match s with
  | SysFull => inr want
  | SysShort n => inr (Nat.min n want)
  | SysErr m => inl m
  end.

(** [pwrite_all]; [fuel] bounds the loop, and the buffer's length is enough. *)
Fixpoint pwrite_loop (fuel : nat) (f : FileState) (buf : bytes) (offset : nat) : WalResult unit * FileState :=
  match buf, fuel with
  | [], _ => (Ok tt, f)
  | _, 0 => (Panic, f)
  | _, S fuel =>
      let (s, f) := next_sys f in
      match transferred s (length buf) with
      | inl m => (Err (WalIo m), f)
      | inr 0 => (Err (WalIo "pwrite wrote 0 bytes"), f)
      | inr n => pwrite_loop fuel (push_write f offset (take n buf)) (drop n buf) (offset + n)
      end
  end.
Definition pwrite_all (f : FileState) (buf : bytes) (offset : nat) : WalResult unit * FileState :=
  pwrite_loop (length buf) f buf offset.

(** A read transfers nothing only at the end of the file. *)
Definition read_transferred (s : Sys) (avail : nat) : string + nat :=
  match s with
  | SysFull => inr avail
  | SysShort n => inr (Nat.min (Nat.max 1 n) avail)
  | SysErr m => inl m
  end.

(** [pread_all] into a buffer: stops at the end of the file and leaves the rest
    of the buffer as it was. *)
Fixpoint pread_loop (fuel : nat) (f : FileState) (done buf : bytes) (offset : nat)
  : WalResult bytes * FileState :=
  match buf, fuel with
  | [], _ => (Ok done, f)
  | _, 0 => (Panic, f)
  | _, S fuel =>
      let (s, f) := next_sys f in
      let avail := read_at (contents f) offset (length buf) in
      match read_transferred s (length avail) with
      | inl m => (Err (WalIo m), f)
      | inr 0 => (Ok (done ++ buf), f)
      | inr n => pread_loop fuel f (done ++ take n avail) (drop n buf) (offset + n)
      end
  end.
Definition pread_all (f : FileState) (buf : bytes) (offset : nat) : WalResult bytes * FileState :=
  pread_loop (length buf) f [] buf offset.

(** [fdatasync_fd]: on success everything written is durable. *)
Definition fdatasync_fd (f : FileState) : WalResult unit * FileState :=
  let (s, f) := next_sys f in
  match s with
  | SysErr m => (Err (WalIo m), f)
  | _ => (Ok tt, mkFile (contents f) [] (f_script f))
  end.

(** [libc::fallocate] with mode 0: extend with zeros. *)
Definition fallocate_log (f : FileState) (offset len : nat) : WalResult unit * FileState :=
  let (s, f) := next_sys f in
  match s with
  | SysErr m => (Err (WalIo m), f)
  | _ => (Ok tt, mkFile (f_durable f ++ replicate (offset + len - length (f_durable f)) Byte.x00)
                   (f_pending f) (f_script f))
  end.

(** Sequencing of operations on one file; the first error stops. *)
Definition then_do {A} (r : WalResult unit * FileState) (k : FileState -> WalResult A * FileState)
  : WalResult A * FileState :=
  match r with
  | (Ok _, f) => k f
  | (Err e, f) => (Err e, f)
  | (Panic, f) => (Panic, f)
  end.

(** [AlignedMem::new]: the memory holds what the allocator left there; the
    allocator itself does not fail. *)
Definition aligned_new (uninit : nat -> Byte.byte) (len align : nat) : WalResult bytes :=
  if is_power_of_two (Z.of_nat align)
  then if decide (Z.of_nat len + Z.of_nat align <= 2 ^ 63)%Z
       then Ok (uninit <$> seq 0 len)
       else Err (WalIo "bad layout: invalid parameters to Layout::from_size_align")
  else Err (WalIo "bad layout: invalid parameters to Layout::from_size_align").

Lemma aligned_new_length uninit len align b : aligned_new uninit len align = Ok b -> length b = len.
Proof.
  unfold aligned_new. destruct (is_power_of_two _); [|done]. case_decide; [|done]. intros [= <-].
  by rewrite length_fmap, length_seq.
Qed.

(** [AlignedMem::zeroed]. *)
Definition aligned_zeroed (len align : nat) : WalResult bytes :=
  if is_power_of_two (Z.of_nat align)
  then if decide (Z.of_nat len + Z.of_nat align <= 2 ^ 63)%Z
       then Ok (replicate len Byte.x00)
       else Err (WalIo "bad layout: invalid parameters to Layout::from_size_align")
  else Err (WalIo "bad layout: invalid parameters to Layout::from_size_align").

(** ** What the loops do *)

(** Every write falls in [[lo, hi)]. *)
Definition writes_within (lo hi : nat) (ws : list (nat * bytes)) : Prop :=
  Forall (fun w => lo <= w.1 /\ w.1 + length w.2 <= hi) ws.

Lemma apply_writes_app img ws1 ws2 :
  apply_writes img (ws1 ++ ws2) = apply_writes (apply_writes img ws1) ws2.
Proof. apply foldl_app. Qed.

Lemma contents_push f off data : contents (push_write f off data) = write_at (contents f) off data.
Proof. unfold contents. simpl. by rewrite apply_writes_app. Qed.

Lemma next_sys_spec f s f' :
  next_sys f = (s, f') -> f_durable f' = f_durable f /\ f_pending f' = f_pending f /\ contents f' = contents f.
Proof. unfold next_sys, contents. destruct (f_script f); intros [= <- <-]; done. Qed.

Lemma transferred_le s want n : transferred s want = inr n -> n <= want.
Proof. destruct s; simpl; intros [= <-]; lia. Qed.

(** What one [pwrite_all] leaves: the durable image is untouched, every new
    pending write is inside the window, an [Ok] means that all of it is
    visible, and the only failure is an I/O error. *)
Definition pwrite_post (f : FileState) (buf : bytes) (off : nat) (out : WalResult unit * FileState) : Prop :=
  f_durable out.2 = f_durable f
  /\ (exists ws, f_pending out.2 = f_pending f ++ ws /\ writes_within off (off + length buf) ws)
  /\ (out.1 = Ok tt -> buf <> [] -> contents out.2 = write_at (contents f) off buf)
  /\ (out.1 = Ok tt \/ exists m, out.1 = Err (WalIo m)).

Lemma pwrite_loop_spec fuel : forall f buf off,
  length buf <= fuel -> pwrite_post f buf off (pwrite_loop fuel f buf off).
Proof.
  induction fuel as [|fuel IH]; intros f buf off Hf.
  { destruct buf; [|simpl in Hf; lia]. split_and!; [done| |done|by left].
    exists []. by rewrite app_nil_r; split; [|apply Forall_nil_2]. }
  destruct buf as [|b buf]; [|set (l := b :: buf) in *].
  { split_and!; [done| |done|by left]. exists []. by rewrite app_nil_r; split; [|apply Forall_nil_2]. }
  change (pwrite_loop (S fuel) f l off) with
    (let (s, f) := next_sys f in
     match transferred s (length l) with
     | inl m => (Err (WalIo m), f)
     | inr 0 => (Err (WalIo "pwrite wrote 0 bytes"), f)
     | inr n => pwrite_loop fuel (push_write f off (take n l)) (drop n l) (off + n)
     end).
  assert (l <> []) as Hlne by done. clearbody l.
  destruct (next_sys f) as [s f1] eqn:Hs. apply next_sys_spec in Hs as (Hd & Hp & Hc).
  assert (forall m, pwrite_post f l off (Err (WalIo m), f1)) as Herr.
  { intros m. split_and!; simpl; [done| |done|right; by eexists].
    exists []. rewrite app_nil_r. split; [done|apply Forall_nil_2]. }
  destruct (transferred s (length l)) as [m|[|n]] eqn:Ht; [apply Herr..|].
  apply transferred_le in Ht. assert (0 < S n) as Hk0 by lia. generalize dependent (S n). intros k Ht Hk0.
  destruct (IH (push_write f1 off (take k l)) (drop k l) (off + k)) as (I1 & (ws & I2 & I3) & I4 & I5); [len|].
  split_and!; [by rewrite I1| | |done].
  - exists ((off, take k l) :: ws). rewrite I2. simpl. rewrite Hp, <- app_assoc. split; [done|].
    apply Forall_cons. split; [simpl; len|]. eapply Forall_impl; [exact I3|]. intros w. len.
  - intros Hok _. destruct (decide (drop k l = [])) as [Hnil|Hne].
    + rewrite Hnil in *. destruct fuel; simpl in *; rewrite contents_push, Hc;
        rewrite <- (take_drop k l) at 2; by rewrite Hnil, app_nil_r.
    + rewrite (I4 Hok Hne), contents_push, Hc.
      replace (off + k) with (off + length (take k l)) by len. by rewrite write_at_chunks, take_drop.
Qed.

Lemma pwrite_all_spec f buf off : pwrite_post f buf off (pwrite_all f buf off).
Proof. by apply pwrite_loop_spec. Qed.

(** With no fault scheduled the write succeeds. *)
Lemma pwrite_all_healthy f buf off :
  f_script f = [] -> buf <> [] ->
  exists f', pwrite_all f buf off = (Ok tt, f') /\ f_script f' = []
    /\ contents f' = write_at (contents f) off buf /\ f_durable f' = f_durable f.
Proof.
  intros Hs Hb. destruct (pwrite_all_spec f buf off) as (Hd & _ & Hc & _).
  assert (pwrite_all f buf off = (Ok tt, push_write f off buf)) as He.
  { unfold pwrite_all. destruct buf as [|b buf]; [done|]. simpl. unfold next_sys. rewrite Hs. simpl.
    rewrite take_ge, drop_ge by lia. by destruct (length buf). }
  rewrite He in *. eexists. split_and!; [done|done|by apply Hc|done].
Qed.

Lemma read_transferred_spec s avail n :
  read_transferred s avail = inr n -> n <= avail /\ (n = 0 -> avail = 0).
Proof. destruct s; simpl; intros [= <-]; lia. Qed.

(** A read that succeeds has read all the file has in the window. *)
Lemma pread_loop_spec fuel : forall f acc buf off,
  length buf <= fuel ->
  exists out f', pread_loop fuel f acc buf off = (out, f')
    /\ f_durable f' = f_durable f /\ f_pending f' = f_pending f
    /\ ((let avail := read_at (contents f) off (length buf) in
         out = Ok (acc ++ avail ++ drop (length avail) buf) /\ (f_script f = [] -> f_script f' = []))
        \/ exists m, out = Err (WalIo m) /\ f_script f <> []).
Proof.
  induction fuel as [|fuel IH]; intros f acc buf off Hf; destruct buf as [|b buf]; try (simpl in Hf; lia);
    [eexists _, _; split; [reflexivity|]; split_and!; [done..|]; left; simpl; by rewrite app_nil_r..|].
  set (l := b :: buf) in *.
  change (pread_loop (S fuel) f acc l off) with
    (let (s, f) := next_sys f in
     let avail := read_at (contents f) off (length l) in
     match read_transferred s (length avail) with
     | inl m => (Err (WalIo m), f)
     | inr 0 => (Ok (acc ++ l), f)
     | inr n => pread_loop fuel f (acc ++ take n avail) (drop n l) (off + n)
     end).
  assert (l <> []) as Hlne by done. clearbody l.
  destruct (next_sys f) as [s f1] eqn:Hs. pose proof (next_sys_spec _ _ _ Hs) as (Hd & Hp & Hc). simpl.
  rewrite Hc. set (av := read_at (contents f) off (length l)) in *.
  assert (f_script f = [] -> s = SysFull /\ f_script f1 = []) as Hfull.
  { unfold next_sys in Hs. destruct (f_script f) eqn:Hsc; [|done]. injection Hs as <- <-. done. }
  assert (length av <= length l) as Hav by (unfold av; len).
  destruct (read_transferred s (length av)) as [m|n] eqn:Ht.
  { eexists _, _. split; [reflexivity|]. split_and!; [done..|]. right. eexists. split; [done|].
    intros Hn. apply Hfull in Hn as [-> _]. done. }
  apply read_transferred_spec in Ht as [Hk H0]. destruct n as [|n].
  { eexists _, _. split; [reflexivity|]. split_and!; [done..|]. left. rewrite (nil_length_inv av) by auto.
    split; [done|]. intros Hn. by apply Hfull. }
  assert (0 < S n) as Hk0 by lia. clear H0. generalize dependent (S n). intros k Hk Hk0.
  destruct (IH f1 (acc ++ take k av) (drop k l) (off + k)) as (out & f' & He & E1 & E2 & Hout).
  { rewrite length_drop. lia. }
  exists out, f'. split; [done|]. split_and!; [congruence..|]. rewrite Hc in Hout.
  assert (read_at (contents f) (off + k) (length (drop k l)) = drop k av) as Hrest.
  { unfold av, read_at. rewrite skipn_firstn_comm, drop_drop. f_equal. len. }
  rewrite Hrest in Hout. destruct Hout as [[-> Hfl]|(m & -> & Hm)].
  - left. split; [|intros Hn; by apply Hfl, Hfull]. f_equal. rewrite <- !app_assoc. f_equal.
    rewrite app_assoc, take_drop, drop_drop. do 2 f_equal. len.
  - right. exists m. split; [done|]. intros Hn. by apply Hm, Hfull.
Qed.

(** A read of bytes the file has returns them, or an I/O error. *)
Lemma pread_all_full f buf off :
  off + length buf <= length (contents f) ->
  exists out f', pread_all f buf off = (out, f')
    /\ f_durable f' = f_durable f /\ f_pending f' = f_pending f
    /\ ((out = Ok (read_at (contents f) off (length buf)) /\ (f_script f = [] -> f_script f' = []))
        \/ exists m, out = Err (WalIo m) /\ f_script f <> []).
Proof.
  intros Hl. destruct (pread_loop_spec (length buf) f [] buf off) as (out & f' & He & E1 & E2 & Hout); [done|].
  exists out, f'. split_and!; [done..|]. destruct Hout as [[-> Hs]|Hout]; [left|by right]. split; [|done].
  simpl. rewrite drop_ge by len. by rewrite app_nil_r.
Qed.

Lemma pread_all_healthy f buf off :
  f_script f = [] -> off + length buf <= length (contents f) ->
  exists f', pread_all f buf off = (Ok (read_at (contents f) off (length buf)), f')
    /\ f_script f' = [] /\ f_durable f' = f_durable f /\ f_pending f' = f_pending f.
Proof.
  intros Hs Hl. destruct (pread_all_full f buf off Hl) as (out & f' & He & E1 & E2 & [[-> ?]|(m & -> & ?)]); [|done].
  exists f'. split_and!; auto.
Qed.

(** ** Crashes *)

(** Each pending write is lost, or leaves its range holding anything at all. *)
Inductive crash_image : bytes -> list (nat * bytes) -> bytes -> Prop :=
| crash_done img : crash_image img [] img
| crash_lost img w ws img' : crash_image img ws img' -> crash_image img (w :: ws) img'
| crash_torn img off data left ws img' :
    length left = length data -> crash_image (write_at img off left) ws img' ->
    crash_image img ((off, data) :: ws) img'.

(** Bytes no pending write touches survive. *)
Lemma crash_outside img ws img' lo hi a n :
  crash_image img ws img' -> writes_within lo hi ws -> a + n <= length img ->
  a + n <= lo \/ hi <= a -> read_at img' a n = read_at img a n /\ length img <= length img'.
Proof.
  induction 1 as [|img w ws img' _ IH|img off data left ws img' Hlen _ IH]; intros Hw Hl Ha; [done|..];
    apply Forall_cons in Hw as [[Hw1 Hw2] Hw]; [by apply IH|]. simpl in *.
  destruct IH as [-> IHl]; [done|len|done|]. split; [|revert IHl; len].
  destruct Ha; [apply read_write_before; lia|apply read_write_after; lia].
Qed.
