(* ===== verification/WalMeta.v ===== *)
(** Segment metadata (wal/index.rs) and segments (wal/segment.rs): index keys
    and values, the checksummed header of a [.meta] file, its double write and
    the selection of a valid copy. *)

From stdpp Require Import base strings pretty numbers list.
From coqutil Require Import Byte Word.LittleEndianList.
From S2P Require Import Prelude.
From S2P Require Import Errors.
From S2P Require Import WalFrame.
From S2P Require Import WalFile.

(** ** Index keys and values *)

(** [lsn_to_key] and [key_to_lsn]. *)
Definition lsn_to_key (lsn : Z) : bytes := be_bytes 8 lsn.
Definition key_to_lsn (key : bytes) : WalResult Z :=
  k <-- slice key 0 8 ;; Ok (of_be_bytes k).

(** [encode_offset_len] and [decode_offset_len]. *)
Definition encode_offset_len (offset len : Z) : bytes := le_bytes 8 offset ++ le_bytes 4 len.
Definition decode_offset_len (b : bytes) : WalResult (Z * Z) :=
  offset <-- field_le b 0 8 ;; len <-- field_le b 8 12 ;; Ok (offset, len).

Lemma slice_head {E A} (q r : list A) b : b = length q -> slice (E := E) (q ++ r) 0 b = Ok q.
Proof. intros ->. by apply (slice_mid [] q r). Qed.

(** Big-endian bytes of one width compare like the numbers. *)
Lemma bytes_cmp_of_be a b :
  length a = length b -> bytes_cmp a b = Z.compare (of_be_bytes a) (of_be_bytes b).
Proof.
  revert b. induction a as [|x a IH]; intros [|y b] Hl; simpl in Hl; try lia; [done|].
  assert (forall z l, of_be_bytes (z :: l) = of_be_bytes l + 2 ^ (8 * Z.of_nat (length l)) * byte.unsigned z)%Z as Hcons.
  { intros z l. Transparent of_be_bytes. unfold of_be_bytes. Opaque of_be_bytes. simpl. rewrite le_combine_app.
    rewrite length_rev, le_combine_1, Z.shiftl_mul_pow2 by lia.
    pose proof (le_combine_bound (rev l)) as Hr. rewrite length_rev in Hr.
    replace (8 * Z.of_nat (length l))%Z with (Z.of_nat (length l) * 8)%Z in * by lia.
    rewrite Z.lor_comm, lor_disjoint; lia. }
  simpl. rewrite !Hcons, IH by lia. injection Hl as Hl. rewrite <- Hl.
  pose proof (of_be_bytes_range a). pose proof (of_be_bytes_range b) as Hb. rewrite <- Hl in Hb.
  set (P := (2 ^ (8 * Z.of_nat (length a)))%Z) in *.
  destruct (Z.compare_spec (byte.unsigned x) (byte.unsigned y)) as [He|Hlt|Hgt]; symmetry.
  - rewrite He. destruct (Z.compare_spec (of_be_bytes a) (of_be_bytes b));
      [apply Z.compare_eq_iff|apply Z.compare_lt_iff|apply Z.compare_gt_iff]; lia.
  - apply Z.compare_lt_iff. nia.
  - apply Z.compare_gt_iff. nia.
Qed.

Lemma lsn_key_cmp a b : is_u64 a -> is_u64 b -> bytes_cmp (lsn_to_key a) (lsn_to_key b) = Z.compare a b.
Proof.
  unfold is_u64, u64_max, lsn_to_key. intros Ha Hb.
  rewrite bytes_cmp_of_be by len. by rewrite !of_be_be_bytes by lia.
Qed.

Lemma key_to_lsn_to_key lsn : is_u64 lsn -> key_to_lsn (lsn_to_key lsn) = Ok lsn.
Proof.
  unfold is_u64, u64_max, key_to_lsn, lsn_to_key. intros H.
  rewrite <- (length_be_bytes 8 lsn) at 2. rewrite slice_all. cbn [rbind]. by rewrite of_be_be_bytes by lia.
Qed.

Lemma decode_encode_offset_len offset len :
  is_u64 offset -> is_u32 len -> decode_offset_len (encode_offset_len offset len) = Ok (offset, len).
Proof.
  unfold is_u64, u64_max, is_u32, u32_max, decode_offset_len, encode_offset_len, field_le. intros Ho Hl.
  rewrite slice_head by len. cbn [rbind].
  rewrite (slice_tail (le_bytes 8 offset)) by len. cbn [rbind]. by rewrite !of_le_le_bytes by lia.
Qed.

(** ** Headers *)

Definition IDX_HEADER_LEN : nat := 36.
Definition MAGIC : bytes := [Byte.x57; Byte.x49; Byte.x44; Byte.x58].

Record IdxHeader := mkIdxHeader {
  ih_magic : bytes;
  ih_version : Z;
  ih_seg_id : Z;
  ih_min_live_lsn : Z;
  ih_max_live_lsn : Z;
  ih_entry_count : Z;
  ih_header_crc : Z;
}.

(** The array types and widths of the fields. *)
Definition header_wf (h : IdxHeader) : Prop :=
  length (ih_magic h) = 4 /\ is_u32 (ih_version h) /\ is_u32 (ih_seg_id h)
  /\ is_u64 (ih_min_live_lsn h) /\ is_u64 (ih_max_live_lsn h)
  /\ is_u32 (ih_entry_count h) /\ is_u32 (ih_header_crc h).

(** [IdxHeader::serialize_fields] and [serialize]. *)
Definition serialize_fields (self : IdxHeader) : bytes :=
  ih_magic self ++ le_bytes 4 (ih_version self) ++ le_bytes 4 (ih_seg_id self)
  ++ le_bytes 8 (ih_min_live_lsn self) ++ le_bytes 8 (ih_max_live_lsn self)
  ++ le_bytes 4 (ih_entry_count self).
Definition serialize (self : IdxHeader) : bytes := serialize_fields self ++ le_bytes 4 (ih_header_crc self).

Section Headers.
Context `{Crc32}.

(** [crc_of_header_fields]. *)
Definition crc_of_header_fields (fields : bytes) : Z := crc32 fields.

(** [IdxHeader::new]. *)
Definition idx_header_new (seg_id min_live_lsn max_live_lsn entry_count : Z) : IdxHeader :=
  let h := mkIdxHeader MAGIC 1 seg_id min_live_lsn max_live_lsn entry_count 0 in
  mkIdxHeader (ih_magic h) (ih_version h) (ih_seg_id h) (ih_min_live_lsn h) (ih_max_live_lsn h)
    (ih_entry_count h) (crc_of_header_fields (serialize_fields h)).

(** [IdxHeader::deserialize]. *)
Definition deserialize (buf : bytes) : WalResult (option IdxHeader) :=
  if decide (length buf < IDX_HEADER_LEN) then Ok None
  else
    stored_crc <-- field_le buf 32 36 ;;
    fields <-- slice buf 0 32 ;;
    if decide (crc_of_header_fields fields <> stored_crc) then Ok None
    else
      magic <-- slice buf 0 4 ;;
      version <-- field_le buf 4 8 ;;
      seg_id <-- field_le buf 8 12 ;;
      min_live_lsn <-- field_le buf 12 20 ;;
      max_live_lsn <-- field_le buf 20 28 ;;
      entry_count <-- field_le buf 28 32 ;;
      Ok (Some (mkIdxHeader magic version seg_id min_live_lsn max_live_lsn entry_count stored_crc)).

(** [select_valid_header]. *)
Definition select_valid_header (copy_a copy_b : bytes) : WalResult IdxHeader :=
  a <-- deserialize copy_a ;;
  b <-- deserialize copy_b ;;
  match a, b with
  | Some h, _ => Ok h
  | _, Some h => Ok h
  | None, None => seg_id <-- field_le copy_a 8 12 ;; Err (WalHeaderCorrupt seg_id)
  end.

(** The checksum of a header matches its fields. *)
Definition header_valid (h : IdxHeader) : Prop :=
  header_wf h /\ ih_header_crc h = crc_of_header_fields (serialize_fields h).

Lemma length_serialize_fields h : header_wf h -> length (serialize_fields h) = 32.
Proof. intros (Hm & _). unfold serialize_fields. len. Qed.

Lemma length_serialize h : header_wf h -> length (serialize h) = IDX_HEADER_LEN.
Proof. intros Hw. unfold serialize. rewrite length_app, length_serialize_fields by done. by rewrite length_le_bytes. Qed.

Lemma field_le_mid p n z q a b :
  a = length p -> b = length p + n -> (0 <= z < 2 ^ (Z.of_nat n * 8))%Z ->
  field_le (p ++ le_bytes n z ++ q) a b = Ok z.
Proof.
  intros -> -> Hz. unfold field_le. rewrite slice_mid by len. cbn [rbind]. by rewrite of_le_le_bytes.
Qed.

Lemma deserialize_serialize h post : header_valid h -> deserialize (serialize h ++ post) = Ok (Some h).
Proof.
  intros [Hw Hcrc]. pose proof Hw as (Hm & Hv & Hs & Hmin & Hmax & Hec & Hc).
  unfold is_u32, is_u64, u32_max, u64_max in *. unfold deserialize.
  rewrite decide_False by (rewrite length_app, length_serialize by done; unfold IDX_HEADER_LEN; lia).
  assert (field_le (serialize h ++ post) 32 36 = Ok (ih_header_crc h)) as ->.
  { unfold serialize. rewrite <- app_assoc.
    apply field_le_mid; [by rewrite length_serialize_fields..|lia]. }
  assert (slice (E := WalError) (serialize h ++ post) 0 32 = Ok (serialize_fields h)) as ->.
  { unfold serialize. rewrite <- app_assoc. apply slice_head. by rewrite length_serialize_fields. }
  cbn [rbind]. rewrite decide_False by (rewrite Hcrc; tauto).
  unfold serialize, serialize_fields. destruct h as [mg v s mn mx ec c]; simpl in *.
  assert (slice (E := WalError) (((mg ++ le_bytes 4 v ++ le_bytes 4 s ++ le_bytes 8 mn ++ le_bytes 8 mx ++ le_bytes 4 ec)
            ++ le_bytes 4 c) ++ post) 0 4 = Ok mg) as ->.
  { rewrite <- !app_assoc. by apply slice_head. }
  cbn [rbind]. rewrite <- !app_assoc.
  rewrite (field_le_mid mg) by len. cbn [rbind].
  rewrite (app_assoc mg), (field_le_mid (mg ++ _)) by len. cbn [rbind].
  rewrite (app_assoc (mg ++ _)), (field_le_mid ((mg ++ _) ++ _)) by len. cbn [rbind].
  rewrite (app_assoc (_ ++ le_bytes 4 s)), (field_le_mid (_ ++ le_bytes 8 mn)) by len. cbn [rbind].
  rewrite (app_assoc (_ ++ le_bytes 8 mn)), (field_le_mid (_ ++ le_bytes 8 mx)) by len. done.
Qed.

Lemma idx_header_new_valid seg_id mn mx ec :
  is_u32 seg_id -> is_u64 mn -> is_u64 mx -> is_u32 ec -> header_valid (idx_header_new seg_id mn mx ec).
Proof.
  intros. split; [split_and!; simpl; try done|done]. apply crc32_range.
Qed.

(** Deserialization of a buffer that holds a header at its start. *)
Lemma deserialize_Ok_total buf : exists o, deserialize buf = Ok o.
Proof.
  unfold deserialize. case_decide as Hl; [by eexists|]. unfold IDX_HEADER_LEN, field_le in *.
  rewrite !slice_Ok by lia. cbn [rbind]. case_decide; by eexists.
Qed.
End Headers.

(** ** Segments *)

(** [Segment]: the descriptors are the files they name. *)
Record Segment := mkSegment {
  seg_id : Z;
  seg_segment_size : nat;
  seg_block_size : nat;
  seg_log : FileState;
  seg_meta : FileState;
}.

Definition with_log (self : Segment) (f : FileState) : Segment :=
  mkSegment (seg_id self) (seg_segment_size self) (seg_block_size self) f (seg_meta self).
Definition with_meta (self : Segment) (f : FileState) : Segment :=
  mkSegment (seg_id self) (seg_segment_size self) (seg_block_size self) (seg_log self) f.

(** The aligned block that holds a header at its start. *)
Definition header_block (block_size : nat) (header : IdxHeader) : WalResult bytes :=
  block <-- aligned_zeroed block_size block_size ;;
  rassert (bool_decide (IDX_HEADER_LEN <= length block)) ;;;
  Ok (splice block 0 (serialize header)).

(** [Segment::write_meta_header_double]. *)
Definition write_meta_header_double (self : Segment) (header : IdxHeader) : WalResult unit * Segment :=
  match header_block (seg_block_size self) header with
  | Ok block =>
      let (r, f) :=
        then_do (pwrite_all (seg_meta self) block 0) (fun f =>
        then_do (fdatasync_fd f) (fun f =>
        then_do (pwrite_all f block (seg_block_size self)) fdatasync_fd)) in
      (r, with_meta self f)
  | Err e => (Err e, self)
  | Panic => (Panic, self)
  end.

(** The two copies of a [.meta] image. *)
Definition copy_a (bs : nat) (img : bytes) : bytes := read_at img 0 bs.
Definition copy_b (bs : nat) (img : bytes) : bytes := read_at img bs bs.

Section Segments.
Context `{Crc32}.

(** [Segment::read_meta_header]. *)
Definition read_meta_header (self : Segment) : WalResult IdxHeader * Segment :=
  let bs := seg_block_size self in
  match aligned_zeroed bs bs with
  | Ok zeros =>
      match pread_all (seg_meta self) zeros 0 with
      | (Ok a, f) =>
          match pread_all f zeros bs with
          | (Ok b, f) => (select_valid_header a b, with_meta self f)
          | (Err e, f) => (Err e, with_meta self f)
          | (Panic, f) => (Panic, with_meta self f)
          end
      | (Err e, f) => (Err e, with_meta self f)
      | (Panic, f) => (Panic, with_meta self f)
      end
  | Err e => (Err e, self)
  | Panic => (Panic, self)
  end.

(** Block sizes the layout accepts and a header fits. *)
Definition block_size_ok (bs : nat) : Prop :=
  is_power_of_two (Z.of_nat bs) = true /\ IDX_HEADER_LEN <= bs /\ (2 * Z.of_nat bs <= 2 ^ 63)%Z.

Lemma header_block_ok bs h :
  block_size_ok bs -> header_wf h ->
  header_block bs h = Ok (serialize h ++ replicate (bs - IDX_HEADER_LEN) Byte.x00).
Proof.
  intros (Hp & Hl & Hm) Hw. unfold header_block, aligned_zeroed. rewrite Hp, decide_True by lia. cbn [rbind].
  rewrite length_replicate, bool_decide_true by done. cbn [rassert rbind]. unfold splice. f_equal.
  rewrite length_serialize by done. simpl. by rewrite drop_replicate.
Qed.

Lemma header_block_facts bs h :
  block_size_ok bs -> header_valid h ->
  exists block, header_block bs h = Ok block /\ length block = bs /\ 0 < bs /\ block <> []
    /\ deserialize block = Ok (Some h).
Proof.
  intros Hbs Hval. eexists. split; [by apply header_block_ok; [|apply Hval]|].
  destruct Hbs as (_ & Hge & _). assert (0 < bs) as Hpos by (unfold IDX_HEADER_LEN in Hge; lia).
  assert (length (serialize h ++ replicate (bs - IDX_HEADER_LEN) Byte.x00) = bs) as Hl.
  { rewrite length_app, length_serialize, length_replicate by apply Hval. lia. }
  split_and!; [done..| |by apply deserialize_serialize].
  intros He. rewrite He in Hl. simpl in Hl. lia.
Qed.

Lemma select_valid_a a b h : deserialize a = Ok (Some h) -> select_valid_header a b = Ok h.
Proof.
  intros Ha. unfold select_valid_header. rewrite Ha. destruct (deserialize_Ok_total b) as [o ->]. done.
Qed.

Lemma select_valid_b a b oa h :
  deserialize a = Ok oa -> deserialize b = Ok (Some h) ->
  select_valid_header a b = Ok (default h oa).
Proof. intros Ha Hb. unfold select_valid_header. rewrite Ha, Hb. by destruct oa. Qed.

(** A copy that a crash may have torn: the checksum exposes anything that is
    neither the old nor the new header. *)
Definition copy_detected (old new : IdxHeader) (copy : bytes) : Prop :=
  deserialize copy = Ok None \/ deserialize copy = Ok (Some old) \/ deserialize copy = Ok (Some new).

(** Both copies of an image hold a header. *)
Definition holds_header (bs : nat) (img : bytes) (h : IdxHeader) : Prop :=
  2 * bs <= length img /\ deserialize (copy_a bs img) = Ok (Some h) /\ deserialize (copy_b bs img) = Ok (Some h).

Definition recovers (bs : nat) (img : bytes) (h : IdxHeader) : Prop :=
  select_valid_header (copy_a bs img) (copy_b bs img) = Ok h.

(** While only copy A may be torn, recovery reads one of the two headers. *)
Lemma recover_from_b bs old new img ws img' :
  holds_header bs img old -> crash_image img ws img' -> writes_within 0 bs ws ->
  copy_detected old new (copy_a bs img') -> recovers bs img' old \/ recovers bs img' new.
Proof.
  intros (Hl & Ha & Hb) Hc Hw Hdet. unfold recovers.
  assert (deserialize (copy_b bs img') = Ok (Some old)) as Hb'.
  { unfold copy_b in *. destruct (crash_outside img ws img' 0 bs bs bs) as [-> _]; [done..|lia|lia|done]. }
  destruct Hdet as [Hd|[Hd|Hd]]; rewrite (select_valid_b _ _ _ _ Hd Hb'); simpl; auto.
Qed.

(** Once copy A is durable, recovery reads it whatever happens to copy B. *)
Lemma recover_from_a bs h img ws img' :
  2 * bs <= length img -> deserialize (copy_a bs img) = Ok (Some h) ->
  crash_image img ws img' -> writes_within bs (2 * bs) ws -> recovers bs img' h.
Proof.
  intros Hl Ha Hc Hw. apply select_valid_a. unfold copy_a in *.
  destruct (crash_outside img ws img' bs (2 * bs) 0 bs) as [-> _]; [done..|lia|lia|done].
Qed.

Lemma fdatasync_cases f :
  (exists m f', fdatasync_fd f = (Err (WalIo m), f') /\ f_durable f' = f_durable f /\ f_pending f' = f_pending f)
  \/ (exists f', fdatasync_fd f = (Ok tt, f') /\ f_durable f' = contents f /\ f_pending f' = []).
Proof.
  unfold fdatasync_fd. destruct (next_sys f) as [s f1] eqn:Hs. apply next_sys_spec in Hs as (Hd & Hp & Hc).
  destruct s; [right|right|left]; eexists; [split; [done|]; by rewrite Hc..|]. eexists. by split_and!.
Qed.

(** Where a double write can stop. *)
Inductive double_write_end (bs : nat) (d block : bytes) (r : WalResult unit) (f : FileState) : Prop :=
| stopped_in_a : r <> Ok tt -> f_durable f = d -> writes_within 0 bs (f_pending f) -> double_write_end bs d block r f
| stopped_in_b : r <> Ok tt -> f_durable f = write_at d 0 block -> writes_within bs (2 * bs) (f_pending f) ->
    double_write_end bs d block r f
| finished : r = Ok tt -> f_pending f = [] -> f_durable f = write_at (write_at d 0 block) bs block ->
    double_write_end bs d block r f.

(** A write into a file with nothing pending, followed by a sync. *)
Lemma write_sync_cases f block off (k : FileState -> WalResult unit * FileState) :
  f_pending f = [] -> block <> [] ->
  let out := then_do (pwrite_all f block off) (fun f => then_do (fdatasync_fd f) k) in
  (out.1 <> Ok tt /\ f_durable out.2 = f_durable f /\ writes_within off (off + length block) (f_pending out.2))
  \/ exists f', f_durable f' = write_at (f_durable f) off block /\ f_pending f' = [] /\ out = k f'.
Proof.
  intros Hp Hne. destruct (pwrite_all_spec f block off) as (D1 & (ws & P1 & W1) & C1 & R1).
  destruct (pwrite_all f block off) as [r1 f1]. simpl in *. rewrite Hp in P1. simpl in P1. rewrite <- P1 in W1.
  destruct R1 as [->|[m ->]]; simpl; [|by left].
  destruct (fdatasync_cases f1) as [(m & f2 & -> & E1 & E2)|(f2 & -> & D2 & P2)]; simpl.
  - left. rewrite E1, E2. done.
  - right. exists f2. split_and!; [|done..]. rewrite D2, (C1 eq_refl Hne). unfold contents. by rewrite Hp.
Qed.

Lemma then_do_sync r :
  then_do r fdatasync_fd = then_do r (fun f => then_do (fdatasync_fd f) (fun f => (Ok tt, f))).
Proof.
  destruct r as [[[]| |] f]; simpl; [|done..].
  destruct (fdatasync_cases f) as [(? & ? & -> & _)|(? & -> & _)]; done.
Qed.

Lemma double_write_ends self new block r self' :
  f_pending (seg_meta self) = [] -> header_block (seg_block_size self) new = Ok block ->
  length block = seg_block_size self -> block <> [] ->
  write_meta_header_double self new = (r, self') ->
  double_write_end (seg_block_size self) (f_durable (seg_meta self)) block r (seg_meta self').
Proof.
  intros Hp Hb Hl Hne. unfold write_meta_header_double. rewrite Hb. set (bs := seg_block_size self) in *.
  set (k := fun f => then_do (pwrite_all f block bs) fdatasync_fd).
  pose proof (write_sync_cases (seg_meta self) block 0 k Hp Hne) as Hout. cbv zeta in Hout.
  destruct (then_do _ _) as [r1 f1] in Hout |- *. intros [= <- <-]. simpl.
  destruct Hout as [(A1 & A2 & A3)|(f2 & D2 & P2 & He)].
  { apply stopped_in_a; [done..|]. by rewrite Hl in A3. }
  pose proof (write_sync_cases f2 block bs (fun f => (Ok tt, f)) P2 Hne) as Hout. cbv zeta in Hout.
  rewrite <- then_do_sync in Hout. change (then_do (pwrite_all f2 block bs) fdatasync_fd) with (k f2) in Hout.
  rewrite <- He, D2, Hl in Hout. destruct Hout as [(A1 & A2 & A3)|(f3 & D3 & P3 & [= -> ->])].
  - apply stopped_in_b; [done..|]. by replace (2 * bs) with (bs + bs) by lia.
  - by apply finished.
Qed.

(** C31: The double write of a segment header is crash-consistent. Start from a
    [.meta] file whose two copies hold [old], let any system call of the write
    be short or fail (the run stops there, which is also the state of a crash
    at that point), and let the crash lose or tear every write not yet
    synced: recovery still reads [old] or [new], provided the checksum exposes
    a torn copy. If the write returned [Ok], recovery reads [new]. *)
Theorem meta_crash_consistent self old new r self' img :
  block_size_ok (seg_block_size self) -> header_valid new ->
  f_pending (seg_meta self) = [] -> holds_header (seg_block_size self) (f_durable (seg_meta self)) old ->
  write_meta_header_double self new = (r, self') ->
  crash_image (f_durable (seg_meta self')) (f_pending (seg_meta self')) img ->
  copy_detected old new (copy_a (seg_block_size self) img) ->
  (recovers (seg_block_size self) img old \/ recovers (seg_block_size self) img new)
  /\ (r = Ok tt -> recovers (seg_block_size self) img new).
Proof.
  intros Hbs Hval Hp0 Hold Hrun Hc Hdet.
  destruct (header_block_facts _ _ Hbs Hval) as (block & Hb & Hlb & Hpos & Hne & Hdb).
  set (bs := seg_block_size self) in *. set (d := f_durable (seg_meta self)) in *.
  assert (deserialize (copy_a bs (write_at d 0 block)) = Ok (Some new)) as Ha.
  { unfold copy_a. rewrite <- Hlb. by rewrite read_write_same. }
  assert (2 * bs <= length (write_at d 0 block)) as Hlen by (destruct Hold as [? _]; len).
  destruct (double_write_ends _ _ _ _ _ Hp0 Hb Hlb Hne Hrun) as [Hr Hd Hw|Hr Hd Hw|Hr Hp Hd].
  - rewrite Hd in Hc. split; [by eapply recover_from_b|done].
  - rewrite Hd in Hc. assert (recovers bs img new) by (by eapply recover_from_a). auto.
  - rewrite Hp, Hd in Hc. inversion Hc; subst img. assert (recovers bs (write_at (write_at d 0 block) bs block) new); [|by auto].
    apply select_valid_a. unfold copy_a in *. by rewrite read_write_before by lia.
Qed.
(** Reading a header when no system call fails. *)
Lemma read_meta_header_healthy self :
  block_size_ok (seg_block_size self) -> f_script (seg_meta self) = [] ->
  2 * seg_block_size self <= length (contents (seg_meta self)) ->
  (read_meta_header self).1
  = select_valid_header (copy_a (seg_block_size self) (contents (seg_meta self)))
      (copy_b (seg_block_size self) (contents (seg_meta self))).
Proof.
  intros (Hpw & Hge & Hmx) Hs Hl. unfold read_meta_header, aligned_zeroed. rewrite Hpw, decide_True by lia.
  set (bs := seg_block_size self) in *. set (zs := replicate bs Byte.x00).
  assert (length zs = bs) as Hz by (unfold zs; len).
  destruct (pread_all_healthy (seg_meta self) zs 0) as (f1 & -> & S1 & D1 & P1); [done|lia|].
  assert (contents f1 = contents (seg_meta self)) as Hc by (unfold contents; by rewrite D1, P1).
  destruct (pread_all_healthy f1 zs bs) as (f2 & -> & _); [done|rewrite Hc; lia|]. simpl. by rewrite Hc, Hz.
Qed.

Lemma meta_write_spec self h :
  block_size_ok (seg_block_size self) -> header_valid h ->
  f_pending (seg_meta self) = [] -> f_script (seg_meta self) = [] ->
  exists f, write_meta_header_double self h = (Ok tt, with_meta self f)
    /\ f_pending f = [] /\ (read_meta_header (with_meta self f)).1 = Ok h /\ f_script f = [].
Proof.
  intros Hbs Hval Hp0 Hs0. destruct (header_block_facts _ _ Hbs Hval) as (block & Hb & Hlb & Hpos & Hne & Hdb).
  unfold write_meta_header_double. rewrite Hb. set (bs := seg_block_size self) in *.
  destruct (pwrite_all_healthy (seg_meta self) block 0 Hs0 Hne) as (f1 & -> & S1 & C1 & _). simpl.
  unfold fdatasync_fd at 1, next_sys at 1. rewrite S1. simpl. rewrite ?S1.
  destruct (pwrite_all_healthy (mkFile (contents f1) [] []) block bs eq_refl Hne) as (f3 & -> & S3 & C3 & _). simpl.
  unfold fdatasync_fd, next_sys. rewrite S3. eexists. split_and!; [reflexivity|done| |done].
  change (contents (mkFile (contents f1) [] [])) with (contents f1) in C3. rewrite C1 in C3.
  rewrite read_meta_header_healthy; [|done|done|]; change (contents (seg_meta _)) with (contents f3); rewrite C3;
    [|simpl; fold bs; len].
  apply select_valid_a. unfold copy_a. simpl. fold bs.
  rewrite read_write_before by len. rewrite <- Hlb. by rewrite read_write_same.
Qed.

(** A header written to a segment is the header read back, also from a
    [.meta] file just created, when no system call fails. *)
Theorem meta_write_read self h :
  block_size_ok (seg_block_size self) -> header_valid h ->
  f_pending (seg_meta self) = [] -> f_script (seg_meta self) = [] ->
  exists self', write_meta_header_double self h = (Ok tt, self')
    /\ f_pending (seg_meta self') = [] /\ (read_meta_header self').1 = Ok h.
Proof.
  intros Hbs Hval Hp Hs. destruct (meta_write_spec self h Hbs Hval Hp Hs) as (f & Hw & Hpf & Hr & _). eauto.
Qed.
End Segments.

(** Index keys order like the LSNs they encode, and keys and values decode
    to what was encoded. *)
Theorem index_codec a b offset len :
  is_u64 a -> is_u64 b -> is_u64 offset -> is_u32 len ->
  (klt (lsn_to_key a) (lsn_to_key b) <-> (a < b)%Z)
  /\ key_to_lsn (lsn_to_key a) = Ok a
  /\ decode_offset_len (encode_offset_len offset len) = Ok (offset, len).
Proof.
  intros Ha Hb Ho Hl. split_and!; [|by apply key_to_lsn_to_key|by apply decode_encode_offset_len].
  unfold klt. rewrite lsn_key_cmp by done. apply Z.compare_lt_iff.
Qed.

(** *** Witnesses *)

Definition demo_old : IdxHeader := @idx_header_new demo_crc 3 10 0 0.
Definition demo_new : IdxHeader := @idx_header_new demo_crc 3 10 90 8.
Definition demo_meta_image (h : IdxHeader) : bytes :=
  let block := serialize h ++ replicate 28 Byte.x00 in block ++ block.

(** A segment whose first [fdatasync] fails. *)
Definition demo_segment (script : list Sys) : Segment :=
  mkSegment 3 1024 64 (mkFile [] [] []) (mkFile (demo_meta_image demo_old) [] script).

Lemma demo_header_valid : @header_valid demo_crc demo_new.
Proof. apply idx_header_new_valid; unfold is_u32, is_u64; vm_compute; split; discriminate. Qed.

Lemma demo_block_size_ok : block_size_ok 64.
Proof. split_and!; [done|unfold IDX_HEADER_LEN; lia|by vm_compute]. Qed.

(** The sync of copy A fails and the crash tears copy A. *)
Lemma meta_crash_consistent_witness :
  let torn := write_at (demo_meta_image demo_old) 0 (replicate 64 Byte.x01) in
  (@recovers demo_crc 64 torn demo_old \/ @recovers demo_crc 64 torn demo_new).
Proof.
  intros torn.
  destruct (@meta_crash_consistent demo_crc (demo_segment [SysFull; SysErr "io"]) demo_old demo_new
    (write_meta_header_double (demo_segment [SysFull; SysErr "io"]) demo_new).1
    (write_meta_header_double (demo_segment [SysFull; SysErr "io"]) demo_new).2 torn) as [Hr _].
  - exact demo_block_size_ok.
  - exact demo_header_valid.
  - done.
  - split_and!; vm_compute; [lia|reflexivity..].
  - by destruct (write_meta_header_double _ _).
  - apply (crash_torn _ 0 (serialize demo_new ++ replicate 28 Byte.x00) (replicate 64 Byte.x01) []); [reflexivity|].
    apply crash_done.
  - left. vm_compute. reflexivity.
  - exact Hr.
Defined.

Lemma meta_write_read_witness :
  exists self', write_meta_header_double (demo_segment []) demo_new = (Ok tt, self')
    /\ f_pending (seg_meta self') = [] /\ (@read_meta_header demo_crc self').1 = Ok demo_new.
Proof.
  exact (@meta_write_read demo_crc (demo_segment []) demo_new demo_block_size_ok demo_header_valid eq_refl eq_refl).
Defined.

Lemma index_codec_witness :
  (klt (lsn_to_key 255) (lsn_to_key 256) <-> (255 < 256)%Z)
  /\ key_to_lsn (lsn_to_key 255) = Ok 255%Z
  /\ decode_offset_len (encode_offset_len 4096 88) = Ok (4096%Z, 88%Z).
Proof. apply (index_codec 255 256 4096 88); unfold is_u64, is_u32; vm_compute; split; discriminate. Defined.
