(* ===== verification/WalClock.v ===== *)
(** The block cache of the log's read path (wal/disk.rs): a CLOCK pool of
    pinned frames. [read_block]'s critical sections are functions on the pool;
    a step relation interleaves them, one step per lock acquisition, with the
    [pread] of a loader in between. *)

From stdpp Require Import base strings numbers gmap list.
From S2P Require Import Prelude.
From S2P Require Import Errors.
From S2P Require Import WalFrame.
From S2P Require Import WalFile.

Record BlockKey := mkBlockKey { bk_seg_id : Z; bk_block_idx : nat }.
#[export] Instance BlockKey_eq_dec : EqDecision BlockKey.
Proof. solve_decision. Defined.
#[export] Instance BlockKey_countable : Countable BlockKey.
Proof.
  apply (inj_countable' (fun k => (bk_seg_id k, bk_block_idx k)) (fun p => mkBlockKey p.1 p.2)).
  by intros [].
Defined.

Record Frame := mkFrame {
  fr_buf : bytes;
  fr_key : option BlockKey;
  fr_ref_bit : bool;
  fr_pin_count : Z;
}.

Record ClockCache := mkClock {
  cc_frames : list Frame;
  cc_table : gmap BlockKey nat;
  cc_hand : nat;
}.

Definition with_frame (self : ClockCache) (i : nat) (f : Frame) : ClockCache :=
  mkClock (<[i := f]> (cc_frames self)) (cc_table self) (cc_hand self).
Definition with_hand (self : ClockCache) (h : nat) : ClockCache :=
  mkClock (cc_frames self) (cc_table self) h.
Definition with_table (self : ClockCache) (t : gmap BlockKey nat) : ClockCache :=
  mkClock (cc_frames self) t (cc_hand self).

(** [ClockCache::new]. *)
Definition clock_new (capacity block_size : nat) : WalResult ClockCache :=
  frames <-- rmap (fun _ => buf <-- aligned_zeroed block_size block_size ;; Ok (mkFrame buf None false 0))
               (seq 0 capacity) ;;
  Ok (mkClock frames ∅ 0).

(** [ClockCache::find_victim]: the loop, then the function. *)
Fixpoint victim_loop (fuel : nat) (self : ClockCache) : WalResult (option nat * ClockCache) :=
  match fuel with
  | 0 => Ok (None, self)
  | S fuel =>
      let i := cc_hand self in
      let n := length (cc_frames self) in
      f <-- unwrap (cc_frames self !! i) ;;
      if decide (fr_pin_count f = 0%Z)
      then if negb (fr_ref_bit f)
           then Ok (Some i, with_hand self ((i + 1) mod n))
           else victim_loop fuel
                  (with_hand (with_frame self i (mkFrame (fr_buf f) (fr_key f) false (fr_pin_count f)))
                     ((i + 1) mod n))
      else victim_loop fuel (with_hand self ((i + 1) mod n))
  end.
Definition find_victim (self : ClockCache) : WalResult (option nat * ClockCache) :=
  let n := length (cc_frames self) in
  if decide (n = 0) then Ok (None, self) else victim_loop (2 * n) self.

(** [ClockCache::pin_hit]. *)
Definition pin_hit (self : ClockCache) (key : BlockKey) : WalResult (option nat * ClockCache) :=
  match cc_table self !! key with
  | Some idx =>
      f <-- unwrap (cc_frames self !! idx) ;;
      rassert (bool_decide (fr_pin_count f + 1 <= u32_max)%Z) ;;;
      Ok (Some idx, with_frame self idx (mkFrame (fr_buf f) (fr_key f) true (fr_pin_count f + 1)))
  | None => Ok (None, self)
  end.

(** [ClockCache::prepare_load]. *)
Definition prepare_load (self : ClockCache) (idx : nat) : WalResult ClockCache :=
  f <-- unwrap (cc_frames self !! idx) ;;
  let table := match fr_key f with Some old => delete old (cc_table self) | None => cc_table self end in
  Ok (with_table (with_frame self idx (mkFrame (fr_buf f) None false 1)) table).

(** [ClockCache::commit_load]. *)
Definition commit_load (self : ClockCache) (idx : nat) (key : BlockKey) : WalResult ClockCache :=
  f <-- unwrap (cc_frames self !! idx) ;;
  Ok (with_table (with_frame self idx (mkFrame (fr_buf f) (Some key) true (fr_pin_count f)))
        (<[key := idx]> (cc_table self))).

(** [ClockCache::unpin]: [pin_count -= 1] unwinds at zero. *)
Definition unpin (self : ClockCache) (idx : nat) : WalResult (bool * ClockCache) :=
  f <-- unwrap (cc_frames self !! idx) ;;
  rassert (bool_decide (1 <= fr_pin_count f)%Z) ;;;
  Ok (bool_decide (fr_pin_count f - 1 = 0)%Z,
      with_frame self idx (mkFrame (fr_buf f) (fr_key f) (fr_ref_bit f) (fr_pin_count f - 1))).

(** The bytes a [pread] leaves in a frame's buffer. *)
Definition fill_frame (self : ClockCache) (idx : nat) (data : bytes) : ClockCache :=
  match cc_frames self !! idx with
  | Some f => with_frame self idx (mkFrame data (fr_key f) (fr_ref_bit f) (fr_pin_count f))
  | None => self
  end.

(** [DiskManager::read_block], first critical section: pin a resident frame,
    claim a victim for loading, or wait. *)
Inductive Begin := BHit (idx : nat) | BLoad (idx : nat) | BWait.

Definition read_begin (self : ClockCache) (key : BlockKey) : WalResult (Begin * ClockCache) :=
  let! (hit, self) := pin_hit self key in
  match hit with
  | Some idx => Ok (BHit idx, self)
  | None =>
      let! (victim, self) := find_victim self in
      match victim with
      | Some idx => self <-- prepare_load self idx ;; Ok (BLoad idx, self)
      | None => Ok (BWait, self)
      end
  end.

(** [DiskManager::read_block] run without interference: [Ok None] is a reader
    that waits for an unpin, [Ok (Some idx)] a [PinGuard] on frame [idx]. *)
Definition read_block (block_size : nat) (self : ClockCache) (file : FileState) (key : BlockKey)
  : WalResult (option nat) * (ClockCache * FileState) :=
  match read_begin self key with
  | Ok (BHit idx, self) => (Ok (Some idx), (self, file))
  | Ok (BWait, self) => (Ok None, (self, file))
  | Ok (BLoad idx, self) =>
      match cc_frames self !! idx with
      | Some f =>
          match pread_all file (fr_buf f) (bk_block_idx key * block_size) with
          | (Ok data, file) =>
              match commit_load (fill_frame self idx data) idx key with
              | Ok self => (Ok (Some idx), (self, file))
              | Err e => (Err e, (self, file))
              | Panic => (Panic, (self, file))
              end
          | (Err e, file) =>
              match unpin self idx with
              | Ok (_, self) => (Err e, (self, file))
              | Err e' => (Err e', (self, file))
              | Panic => (Panic, (self, file))
              end
          | (Panic, file) => (Panic, (self, file))
          end
      | None => (Panic, (self, file))
      end
  | Err e => (Err e, (self, file))
  | Panic => (Panic, (self, file))
  end.

(** [PinGuard::deref]. *)
Definition guard_bytes (self : ClockCache) (idx : nat) : option bytes := fr_buf <$> cc_frames self !! idx.

(** [DiskManager::raw_read]. *)
Definition raw_read (block_size : nat) (file : FileState) (offset len : nat) : WalResult bytes * FileState :=
  let aligned_offset := offset / block_size * block_size in
  let offset_in_block := offset - aligned_offset in
  let total_len := offset_in_block + len in
  let aligned_len := (total_len + block_size - 1) / block_size * block_size in
  match aligned_zeroed aligned_len block_size with
  | Ok buf =>
      match pread_all file buf aligned_offset with
      | (Ok data, file) => (slice data offset_in_block (offset_in_block + len), file)
      | (Err e, file) => (Err e, file)
      | (Panic, file) => (Panic, file)
      end
  | Err e => (Err e, file)
  | Panic => (Panic, file)
  end.

(** ** Victim selection *)

(** Two pools that differ at most in the reference bits and the hand. *)
Definition same_frame (f g : Frame) : Prop :=
  fr_buf f = fr_buf g /\ fr_key f = fr_key g /\ fr_pin_count f = fr_pin_count g.
Definition same_pool (c d : ClockCache) : Prop :=
  cc_table c = cc_table d /\ Forall2 same_frame (cc_frames c) (cc_frames d).

#[export] Instance same_frame_equiv : Equivalence same_frame.
Proof.
  unfold same_frame. split; [done|intros ?? (?&?&?); done|intros ??? (?&?&?) (?&?&?); split_and!; congruence].
Qed.
#[export] Instance same_pool_equiv : Equivalence same_pool.
Proof.
  unfold same_pool. split.
  - intros c. by split.
  - intros c d [-> ?]. by split; [|symmetry].
  - intros c d e [-> ?] [-> ?]. split; [done|]. by etrans.
Qed.

Lemma same_pool_with_hand c h : same_pool c (with_hand c h).
Proof. by split. Qed.

Lemma same_pool_clear c i f h :
  cc_frames c !! i = Some f ->
  same_pool c (with_hand (with_frame c i (mkFrame (fr_buf f) (fr_key f) false (fr_pin_count f))) h).
Proof.
  intros Hi. split; [done|]. simpl. rewrite <- (list_insert_id _ _ _ Hi) at 1.
  by apply Forall2_insert.
Qed.

Definition hand_ok (c : ClockCache) : Prop := cc_hand c < length (cc_frames c).

Lemma victim_loop_spec fuel : forall c,
  hand_ok c ->
  exists v c', victim_loop fuel c = Ok (v, c') /\ same_pool c c' /\ hand_ok c'
    /\ (forall i, v = Some i -> exists f, cc_frames c !! i = Some f /\ fr_pin_count f = 0%Z).
Proof.
  induction fuel as [|fuel IH]; intros c Hh; [by eexists _, _|].
  unfold hand_ok in Hh. destruct (lookup_lt_is_Some_2 (cc_frames c) (cc_hand c) Hh) as [f Hf]. simpl.
  rewrite Hf. simpl.
  assert (forall l : list Frame, length l = length (cc_frames c) -> (cc_hand c + 1) mod length (cc_frames c) < length l) as Hmod.
  { intros l ->. apply Nat.mod_upper_bound. lia. }
  assert (forall c', hand_ok c' -> same_pool c c' ->
    exists v c'', victim_loop fuel c' = Ok (v, c'') /\ same_pool c c'' /\ hand_ok c''
      /\ (forall i, v = Some i -> exists f, cc_frames c !! i = Some f /\ fr_pin_count f = 0%Z)) as Hgo.
  { intros c' Hh' Hs. destruct (IH c' Hh') as (v & c'' & He & Hs' & Hh'' & Hv).
    exists v, c''. split_and!; [done|by etrans|done|]. intros i Hi. destruct (Hv i Hi) as (g & Hg & Hp).
    destruct (Forall2_lookup_r _ _ _ _ _ (proj2 Hs) Hg) as (g' & Hg' & (_ & _ & Hpin)). exists g'. by rewrite Hpin. }
  case_decide as Hp; [destruct (fr_ref_bit f) eqn:Hr; simpl|].
  - apply Hgo; [|by apply same_pool_clear]. unfold hand_ok. simpl. apply Hmod. len.
  - eexists _, _. split_and!; [done|apply same_pool_with_hand|by apply Hmod|]. intros i [= <-]. eauto.
  - apply Hgo; [|apply same_pool_with_hand]. by apply Hmod.
Qed.

(** The hand reaches an unpinned, unreferenced frame. *)
Lemma victim_loop_reaches fuel : forall c j d f,
  hand_ok c -> cc_frames c !! j = Some f -> fr_pin_count f = 0%Z -> fr_ref_bit f = false ->
  (cc_hand c + d) mod length (cc_frames c) = j -> d < fuel ->
  exists i c', victim_loop fuel c = Ok (Some i, c').
Proof.
  induction fuel as [|fuel IH]; intros c j d f Hh Hj Hp Hr Hd Hfu; [lia|].
  unfold hand_ok in Hh. destruct (lookup_lt_is_Some_2 (cc_frames c) (cc_hand c) Hh) as [g Hg]. simpl. rewrite Hg. simpl.
  destruct (decide (cc_hand c = j)) as [<-|Hne].
  { rewrite Hj in Hg. injection Hg as <-. rewrite decide_True, Hr by done. simpl. eauto. }
  assert (d <> 0) as Hd0.
  { intros ->. rewrite Nat.add_0_r, Nat.mod_small in Hd by done. done. }
  assert (forall c', cc_hand c' = (cc_hand c + 1) mod length (cc_frames c) ->
    length (cc_frames c') = length (cc_frames c) -> cc_frames c' !! j = Some f ->
    exists i c'', victim_loop fuel c' = Ok (Some i, c'')) as Hgo.
  { intros c' Hc' Hl Hj'. apply (IH c' j (d - 1) f); try done; [| |lia].
    - unfold hand_ok. rewrite Hc', Hl. apply Nat.mod_upper_bound. lia.
    - rewrite Hc', Hl, Nat.Div0.add_mod_idemp_l. rewrite <- Hd. f_equal. lia. }
  case_decide as Hpg; [destruct (fr_ref_bit g); simpl|].
  - apply Hgo; simpl; [done|len|]. by rewrite list_lookup_insert_ne.
  - eauto.
  - by apply Hgo.
Qed.

(** A full sweep gives every unpinned frame its second chance. *)
Lemma victim_loop_finds fuel : forall c j d f,
  hand_ok c -> cc_frames c !! j = Some f -> fr_pin_count f = 0%Z ->
  (cc_hand c + d) mod length (cc_frames c) = j -> d + length (cc_frames c) < fuel ->
  exists i c', victim_loop fuel c = Ok (Some i, c').
Proof.
  induction fuel as [|fuel IH]; intros c j d f Hh Hj Hp Hd Hfu; [lia|].
  unfold hand_ok in Hh. destruct (lookup_lt_is_Some_2 (cc_frames c) (cc_hand c) Hh) as [g Hg]. simpl. rewrite Hg. simpl.
  set (n := length (cc_frames c)) in *.
  destruct (decide (cc_hand c = j)) as [<-|Hne].
  { rewrite Hj in Hg. injection Hg as <-. rewrite decide_True by done. destruct (fr_ref_bit f) eqn:Hr; simpl; [|eauto].
    eapply (victim_loop_reaches fuel _ (cc_hand c) (n - 1)); simpl;
      [unfold hand_ok; simpl; rewrite length_insert; apply Nat.mod_upper_bound; lia|by apply list_lookup_insert_eq|done..| |lia].
    rewrite length_insert. fold n. rewrite Nat.Div0.add_mod_idemp_l.
    replace (cc_hand c + 1 + (n - 1)) with (cc_hand c + 1 * n) by lia. rewrite Nat.Div0.mod_add. by apply Nat.mod_small. }
  assert (d <> 0) as Hd0.
  { intros ->. rewrite Nat.add_0_r, Nat.mod_small in Hd by done. done. }
  assert (forall c', cc_hand c' = (cc_hand c + 1) mod n ->
    length (cc_frames c') = n -> cc_frames c' !! j = Some f ->
    exists i c'', victim_loop fuel c' = Ok (Some i, c'')) as Hgo.
  { intros c' Hc' Hl Hj'. apply (IH c' j (d - 1) f); try done; [| |lia].
    - unfold hand_ok. rewrite Hc', Hl. apply Nat.mod_upper_bound. lia.
    - rewrite Hc', Hl, Nat.Div0.add_mod_idemp_l. rewrite <- Hd. f_equal. lia. }
  case_decide as Hpg; [destruct (fr_ref_bit g); simpl|].
  - apply Hgo; simpl; [done|len|]. by rewrite list_lookup_insert_ne.
  - eauto.
  - by apply Hgo.
Qed.

Definition unpinned (c : ClockCache) (i : nat) : Prop :=
  exists f, cc_frames c !! i = Some f /\ fr_pin_count f = 0%Z.

Lemma find_victim_spec c :
  hand_ok c \/ cc_frames c = [] ->
  exists v c', find_victim c = Ok (v, c') /\ same_pool c c'
    /\ (hand_ok c -> hand_ok c')
    /\ (forall i, v = Some i -> unpinned c i)
    /\ (v = None -> forall i, ~ unpinned c i).
Proof.
  intros Hh. unfold find_victim. case_decide as Hn.
  { apply nil_length_inv in Hn. eexists _, _. split_and!; [done..|]. intros _ i (f & Hf & _). by rewrite Hn in Hf. }
  destruct Hh as [Hh|Hnil]; [|by rewrite Hnil in Hn].
  destruct (victim_loop_spec (2 * length (cc_frames c)) c Hh) as (v & c' & He & Hs & Hh' & Hv).
  exists v, c'. split_and!; [done..|]. intros -> i (f & Hf & Hp).
  pose proof (lookup_lt_Some _ _ _ Hf) as Hi. unfold hand_ok in Hh. set (n := length (cc_frames c)) in *.
  destruct (victim_loop_finds (2 * n) c i ((i + n - cc_hand c) mod n) f) as (j & c'' & He'); try done.
  - fold n. rewrite Nat.Div0.add_mod_idemp_r. replace (cc_hand c + (i + n - cc_hand c)) with (i + 1 * n) by lia.
    rewrite Nat.Div0.mod_add. by apply Nat.mod_small.
  - fold n. pose proof (Nat.mod_upper_bound (i + n - cc_hand c) n). lia.
  - fold n in He. congruence.
Qed.

(** ** Interleaved readers *)

(** The pool, the loads in progress and the guards held. *)
Record Pool := mkPool {
  p_cache : ClockCache;
  p_loads : list (nat * BlockKey);
  p_guards : list (nat * BlockKey);
}.

(** How often a frame index is held. *)
Definition holds (i : nat) (l : list (nat * BlockKey)) : nat := length (filter (fun x => x.1 = i) l).

Section Pool.
(** The files, by segment; they do not change while the pool is used. *)
Context (block_size : nat) (disk : Z -> bytes).

Definition block_off (key : BlockKey) : nat := bk_block_idx key * block_size.
(** The block a key names, when the file has all of it. *)
Definition in_file (key : BlockKey) : Prop := block_off key + block_size <= length (disk (bk_seg_id key)).
Definition block_of (key : BlockKey) : bytes := read_at (disk (bk_seg_id key)) (block_off key) block_size.

(** The critical sections of the readers. A key names its segment, not a
    descriptor, and [disk] is the one file read under a segment id; the reader of
    sealed indexes, which would read a second file under the same id, is not
    reached by the code today ([sealed_segment_unreadable]). *)
Inductive pool_step : Pool -> Pool -> Prop :=
| step_hit c c' ls gs key idx :
    read_begin c key = Ok (BHit idx, c') ->
    pool_step (mkPool c ls gs) (mkPool c' ls ((idx, key) :: gs))
| step_load c c' ls gs key idx :
    read_begin c key = Ok (BLoad idx, c') ->
    pool_step (mkPool c ls gs) (mkPool c' ((idx, key) :: ls) gs)
| step_wait c c' ls gs key :
    read_begin c key = Ok (BWait, c') ->
    pool_step (mkPool c ls gs) (mkPool c' ls gs)
| step_commit c c' l1 l2 gs key idx fr f f' data :
    cc_frames c !! idx = Some fr -> contents f = disk (bk_seg_id key) ->
    pread_all f (fr_buf fr) (block_off key) = (Ok data, f') ->
    commit_load (fill_frame c idx data) idx key = Ok c' ->
    pool_step (mkPool c (l1 ++ (idx, key) :: l2) gs) (mkPool c' (l1 ++ l2) ((idx, key) :: gs))
| step_abort c c' l1 l2 gs key idx fr junk b :
    (** the [pread] failed and left anything in the buffer *)
    cc_frames c !! idx = Some fr -> length junk = length (fr_buf fr) ->
    unpin (fill_frame c idx junk) idx = Ok (b, c') ->
    pool_step (mkPool c (l1 ++ (idx, key) :: l2) gs) (mkPool c' (l1 ++ l2) gs)
| step_drop c c' ls g1 g2 key idx b :
    unpin c idx = Ok (b, c') ->
    pool_step (mkPool c ls (g1 ++ (idx, key) :: g2)) (mkPool c' ls (g1 ++ g2)).

(** The states a fresh pool can reach. *)
Inductive pool_reachable : Pool -> Prop :=
| reach_new capacity c : clock_new capacity block_size = Ok c -> pool_reachable (mkPool c [] [])
| reach_step p p' : pool_reachable p -> pool_step p p' -> pool_reachable p'.

(** What one frame promises, given how often it is guarded and loaded. *)
Record frame_inv (ls gs : list (nat * BlockKey)) (i : nat) (f : Frame) : Prop := {
  fi_len : length (fr_buf f) = block_size;
  fi_pin : fr_pin_count f = Z.of_nat (holds i gs + holds i ls);
  fi_key : forall k, fr_key f = Some k -> in_file k -> fr_buf f = block_of k;
  fi_guard : forall k, (i, k) ∈ gs -> fr_key f = Some k;
  fi_load : holds i ls <> 0 -> fr_key f = None /\ fr_pin_count f = 1%Z;
}.

Record pool_inv (p : Pool) : Prop := {
  pi_hand : hand_ok (p_cache p) \/ cc_frames (p_cache p) = [];
  pi_table : forall k i, cc_table (p_cache p) !! k = Some i ->
    exists f, cc_frames (p_cache p) !! i = Some f /\ fr_key f = Some k;
  pi_frames : forall i f, cc_frames (p_cache p) !! i = Some f -> frame_inv (p_loads p) (p_guards p) i f;
  pi_range : forall i k, (i, k) ∈ p_guards p ++ p_loads p -> i < length (cc_frames (p_cache p));
}.

Lemma holds_cons i j k l : holds i ((j, k) :: l) = (if decide (j = i) then 1 else 0) + holds i l.
Proof. unfold holds. rewrite filter_cons. simpl. case_decide; simpl; lia. Qed.

Lemma holds_middle i j k l1 l2 : holds i (l1 ++ (j, k) :: l2) = (if decide (j = i) then 1 else 0) + holds i (l1 ++ l2).
Proof. unfold holds. rewrite !filter_app, !length_app, filter_cons. simpl. case_decide; simpl; lia. Qed.

Lemma holds_0 i l : holds i l = 0 <-> forall k, (i, k) ∉ l.
Proof.
  unfold holds. split.
  - intros H k Hk. apply nil_length_inv in H.
    assert ((i, k) ∈ filter (fun x => x.1 = i) l) as Hin by (by apply list_elem_of_filter). rewrite H in Hin.
    by apply not_elem_of_nil in Hin.
  - intros H. destruct (filter _ l) as [|[j k] t] eqn:E; [done|].
    assert ((j, k) ∈ filter (fun x => x.1 = i) l) as Hin by (rewrite E; left).
    apply list_elem_of_filter in Hin as [Hj Hin]. simpl in Hj. subst. by destruct (H k).
Qed.

(** A frame no step touches keeps its promise when the hold counts and the
    guards on it are the same. *)
Lemma frame_inv_ext ls gs ls' gs' i f g :
  frame_inv ls gs i f -> same_frame f g -> holds i ls' = holds i ls -> holds i gs' = holds i gs ->
  (forall k, (i, k) ∈ gs' -> (i, k) ∈ gs) -> frame_inv ls' gs' i g.
Proof.
  intros [] (Hb & Hk & Hp) Hl Hg Hin. split; rewrite <- ?Hb, <- ?Hk, <- ?Hp, ?Hl, ?Hg; auto.
Qed.

(** A victim search keeps the invariant: it moves the hand and clears
    reference bits. *)
Lemma same_pool_inv c c' ls gs :
  same_pool c c' -> (hand_ok c -> hand_ok c') -> pool_inv (mkPool c ls gs) -> pool_inv (mkPool c' ls gs).
Proof.
  intros [Ht Hf] Hh [I1 I2 I3 I4]. simpl in *. split; simpl.
  - destruct I1 as [|Hn]; [by left; auto|right]. rewrite Hn in Hf. by apply Forall2_nil_inv_l in Hf.
  - intros k i Hk. rewrite <- Ht in Hk. destruct (I2 k i Hk) as (f & Hi & Hkey).
    destruct (Forall2_lookup_l _ _ _ _ _ Hf Hi) as (g & Hg & (_ & Hkk & _)). exists g. split; [done|congruence].
  - intros i g Hg. destruct (Forall2_lookup_r _ _ _ _ _ Hf Hg) as (f & Hi & Hs).
    eapply frame_inv_ext; eauto.
  - intros i k Hin. rewrite <- (Forall2_length _ _ _ Hf). eauto.
Qed.

(** Replacing one frame: the other frames keep their promises, and the table
    may only lose entries or gain one for the replaced frame. *)
Lemma pool_inv_update c ls gs ls' gs' idx f g table :
  pool_inv (mkPool c ls gs) -> cc_frames c !! idx = Some f ->
  (forall i, i <> idx -> holds i ls' = holds i ls /\ holds i gs' = holds i gs
     /\ forall k, (i, k) ∈ gs' -> (i, k) ∈ gs) ->
  (forall i k, (i, k) ∈ gs' ++ ls' -> i = idx \/ (i, k) ∈ gs ++ ls) ->
  (forall k i, table !! k = Some i -> (i = idx /\ fr_key g = Some k) \/ (i <> idx /\ cc_table c !! k = Some i)) ->
  frame_inv ls' gs' idx g ->
  pool_inv (mkPool (with_table (with_frame c idx g) table) ls' gs').
Proof.
  intros [I1 I2 I3 I4] Hf Hother Hrange Htab Hg. simpl in *.
  pose proof (lookup_lt_Some _ _ _ Hf) as Hlt. split; simpl.
  - left. unfold hand_ok in *. simpl. rewrite length_insert. destruct I1 as [|Hn]; [done|]. by rewrite Hn in Hf.
  - intros k i Hk. destruct (Htab k i Hk) as [[-> Hkey]|[Hne Hk']].
    + exists g. by rewrite list_lookup_insert_eq.
    + destruct (I2 k i Hk') as (h & Hi & Hkey). exists h. by rewrite list_lookup_insert_ne.
  - intros i h Hi. destruct (decide (i = idx)) as [->|Hne].
    + rewrite list_lookup_insert_eq in Hi by done. by injection Hi as <-.
    + rewrite list_lookup_insert_ne in Hi by done. destruct (Hother i Hne) as (? & ? & ?).
      eapply frame_inv_ext; eauto. reflexivity.
  - intros i k Hin. rewrite length_insert. destruct (Hrange i k Hin) as [->|Hin']; eauto.
Qed.

Lemma pin_hit_inv c c' ls gs key idx :
  pool_inv (mkPool c ls gs) -> pin_hit c key = Ok (Some idx, c') -> pool_inv (mkPool c' ls ((idx, key) :: gs)).
Proof.
  intros Hinv Hp. unfold pin_hit in Hp. destruct (cc_table c !! key) as [j|] eqn:Ht; [|done].
  destruct (pi_table _ Hinv key j Ht) as (f & Hf & Hkey). simpl in Hf. rewrite Hf in Hp. simpl in Hp.
  destruct (bool_decide _); [|done]. injection Hp as -> <-.
  destruct (pi_frames _ Hinv idx f Hf) as [F1 F2 F3 F4 F5]. simpl in *.
  eapply (pool_inv_update c ls gs ls _ idx f _ (cc_table c)); eauto; simpl.
  - intros i Hi. rewrite holds_cons, decide_False by done. split_and!; [done..|].
    intros k [[= -> ->]|?]%elem_of_cons; done.
  - intros i k [[= -> ->]|?]%elem_of_cons; auto.
  - intros k i Hk. destruct (decide (i = idx)) as [->|]; [left|by right].
    destruct (pi_table _ Hinv k idx Hk) as (f' & Hf' & Hkey'). simpl in Hf'. split; [done|congruence].
  - split; simpl; try done.
    + rewrite holds_cons, decide_True, F2 by done. lia.
    + intros k [[= ->]|?]%elem_of_cons; [done|auto].
    + intros Hl. destruct (F5 Hl). congruence.
Qed.

Lemma prepare_load_inv c c' ls gs key idx :
  pool_inv (mkPool c ls gs) -> unpinned c idx -> prepare_load c idx = Ok c' ->
  pool_inv (mkPool c' ((idx, key) :: ls) gs).
Proof.
  intros Hinv (f & Hf & Hpin) Hp. unfold prepare_load in Hp. rewrite Hf in Hp. simpl in Hp. injection Hp as <-.
  destruct (pi_frames _ Hinv idx f Hf) as [F1 F2 F3 F4 F5]. simpl in *.
  assert (holds idx gs = 0 /\ holds idx ls = 0) as [Hg0 Hl0] by lia.
  eapply (pool_inv_update c ls gs); eauto; simpl.
  - intros i Hi. rewrite holds_cons, decide_False by done. done.
  - intros i k. rewrite !elem_of_app, elem_of_cons. intros [?|[[= -> ->]|?]]; auto.
  - intros k i Hk. right.
    assert (cc_table c !! k = Some i /\ fr_key f <> Some k) as [Hk' Hne].
    { destruct (fr_key f) as [old|] eqn:Ho; [|done]. apply lookup_delete_Some in Hk as [? ?]. split; [done|congruence]. }
    split; [|done]. intros ->. destruct (pi_table _ Hinv k idx Hk') as (f' & Hf' & Hkey'). simpl in Hf'. congruence.
  - split; simpl; try done.
    + rewrite holds_cons, decide_True by done. lia.
    + intros k Hk. apply holds_0 with (k := k) in Hg0. done.
Qed.

Lemma read_begin_inv c c' ls gs key b :
  pool_inv (mkPool c ls gs) -> read_begin c key = Ok (b, c') ->
  match b with
  | BHit idx => pool_inv (mkPool c' ls ((idx, key) :: gs))
  | BLoad idx => pool_inv (mkPool c' ((idx, key) :: ls) gs)
  | BWait => pool_inv (mkPool c' ls gs) /\ forall i, ~ unpinned c i
  end.
Proof.
  intros Hinv. unfold read_begin. destruct (pin_hit c key) as [[[idx|] c1]| |] eqn:Hp; simpl; try done.
  { intros [= <- <-]. by eapply pin_hit_inv. }
  assert (c1 = c) as ->.
  { unfold pin_hit in Hp. destruct (cc_table c !! key); [|by injection Hp].
    destruct (cc_frames c !! n); simpl in Hp; [|done]. by destruct (bool_decide _). }
  destruct (find_victim_spec c (pi_hand _ Hinv)) as (v & c2 & -> & Hs & Hh & Hv & Hn). simpl.
  pose proof (same_pool_inv _ _ _ _ Hs Hh Hinv) as Hinv2. destruct v as [idx|].
  - destruct (prepare_load c2 idx) as [c3| |] eqn:Hl; simpl; try done. intros [= <- <-].
    eapply prepare_load_inv; eauto. destruct (Hv idx eq_refl) as (f & Hf & Hpin).
    destruct (Forall2_lookup_l _ _ _ _ _ (proj2 Hs) Hf) as (g & Hg & (_ & _ & Hpp)). exists g. split; congruence.
  - intros [= <- <-]. auto.
Qed.

Lemma pread_all_length f buf off data f' : pread_all f buf off = (Ok data, f') -> length data = length buf.
Proof.
  intros He. destruct (pread_loop_spec (length buf) f [] buf off) as (out & f1 & He' & _ & _ & Hout); [done|].
  unfold pread_all in He. rewrite He in He'. injection He' as <- <-. destruct Hout as [[[= ->] _]|(m & [=] & _)].
  simpl. len.
Qed.

(** A frame being loaded: no guard, one loader. *)
Lemma loading_frame c l1 l2 gs key idx f :
  pool_inv (mkPool c (l1 ++ (idx, key) :: l2) gs) -> cc_frames c !! idx = Some f ->
  length (fr_buf f) = block_size /\ fr_key f = None /\ fr_pin_count f = 1%Z
  /\ holds idx gs = 0 /\ holds idx (l1 ++ l2) = 0.
Proof.
  intros Hinv Hf. destruct (pi_frames _ Hinv idx f Hf) as [F1 F2 F3 F4 F5]. simpl in *.
  assert (holds idx (l1 ++ (idx, key) :: l2) = 1 + holds idx (l1 ++ l2)) as Hh by (rewrite holds_middle, decide_True; done).
  destruct F5 as [Hk Hp]; [lia|]. split_and!; [done..|lia|lia].
Qed.

Lemma commit_load_inv c c' l1 l2 gs key idx fr f f' data :
  pool_inv (mkPool c (l1 ++ (idx, key) :: l2) gs) ->
  cc_frames c !! idx = Some fr -> contents f = disk (bk_seg_id key) ->
  pread_all f (fr_buf fr) (block_off key) = (Ok data, f') ->
  commit_load (fill_frame c idx data) idx key = Ok c' ->
  pool_inv (mkPool c' (l1 ++ l2) ((idx, key) :: gs)).
Proof.
  intros Hinv Hf Hc Hr Hcm. destruct (loading_frame _ _ _ _ _ _ _ Hinv Hf) as (Hlen & Hnk & Hp1 & Hg0 & Hl0).
  unfold fill_frame in Hcm. rewrite Hf in Hcm. unfold commit_load in Hcm. simpl in Hcm.
  rewrite list_lookup_insert_eq in Hcm by (by eapply lookup_lt_Some). simpl in Hcm. injection Hcm as <-.
  unfold with_frame at 1. simpl. rewrite list_insert_insert_eq.
  eapply (pool_inv_update c _ gs (l1 ++ l2) _ idx fr (mkFrame data (Some key) true (fr_pin_count fr))
            (<[key:=idx]> (cc_table c))); eauto; simpl.
  - intros i Hi. rewrite holds_cons, holds_middle, !decide_False by done. split_and!; [done..|].
    intros k [[= -> ->]|?]%elem_of_cons; done.
  - intros i k. rewrite elem_of_cons, !elem_of_app, elem_of_cons. intros [[= -> ->]|?]; [by left|right]. tauto.
  - intros k i Hk. apply lookup_insert_Some in Hk as [[-> ->]|[Hne Hk]]; [by left|right]. split; [|done].
    intros ->. destruct (pi_table _ Hinv k idx Hk) as (g & Hg & Hkey). simpl in Hg. congruence.
  - split; simpl.
    + rewrite (pread_all_length _ _ _ _ _ Hr). done.
    + rewrite holds_cons, decide_True by done. lia.
    + intros k [= <-] Hin. destruct (pread_all_full f (fr_buf fr) (block_off key)) as (out & f1 & He & _ & _ & Hout).
      { rewrite Hc, Hlen. exact Hin. }
      rewrite Hr in He. injection He as <- <-. destruct Hout as [[[= ->] _]|(m & [=] & _)].
      unfold block_of. by rewrite Hc, Hlen.
    + intros k [[= ->]|Hk]%elem_of_cons; [done|]. apply holds_0 with (k := k) in Hg0. done.
    + lia.
Qed.

Lemma unpin_spec c idx fr b c' :
  cc_frames c !! idx = Some fr -> unpin c idx = Ok (b, c') ->
  c' = with_table (with_frame c idx (mkFrame (fr_buf fr) (fr_key fr) (fr_ref_bit fr) (fr_pin_count fr - 1))) (cc_table c).
Proof.
  intros Hf Hu. unfold unpin in Hu. rewrite Hf in Hu. simpl in Hu. destruct (bool_decide (1 <= _)%Z); [|done].
  injection Hu as _ <-. done.
Qed.

Lemma unpin_inv c c' ls g1 g2 key idx b :
  pool_inv (mkPool c ls (g1 ++ (idx, key) :: g2)) -> unpin c idx = Ok (b, c') -> pool_inv (mkPool c' ls (g1 ++ g2)).
Proof.
  intros Hinv Hu.
  assert (is_Some (cc_frames c !! idx)) as [f Hf].
  { apply lookup_lt_is_Some_2. eapply (pi_range _ Hinv idx key). simpl. rewrite !elem_of_app, elem_of_cons. tauto. }
  rewrite (unpin_spec _ _ _ _ _ Hf Hu). destruct (pi_frames _ Hinv idx f Hf) as [F1 F2 F3 F4 F5]. simpl in *.
  assert (fr_key f = Some key) as Hkey by (apply F4; rewrite elem_of_app, elem_of_cons; tauto).
  eapply pool_inv_update; eauto; simpl.
  - intros i Hi. rewrite holds_middle, !decide_False by done. split_and!; [done..|].
    intros k. rewrite !elem_of_app, elem_of_cons. tauto.
  - intros i k. rewrite !elem_of_app, elem_of_cons. tauto.
  - intros k i Hk. destruct (decide (i = idx)) as [->|]; [left|by right].
    destruct (pi_table _ Hinv k idx Hk) as (f' & Hf' & Hkey'). simpl in Hf'. split; [done|congruence].
  - split; simpl; try done.
    + rewrite holds_middle, decide_True in F2 by done. lia.
    + intros k Hk. apply F4. revert Hk. rewrite !elem_of_app, elem_of_cons. tauto.
    + intros Hl. destruct (F5 Hl). congruence.
Qed.

Lemma abort_inv c c' l1 l2 gs key idx fr junk b :
  pool_inv (mkPool c (l1 ++ (idx, key) :: l2) gs) ->
  cc_frames c !! idx = Some fr -> length junk = length (fr_buf fr) ->
  unpin (fill_frame c idx junk) idx = Ok (b, c') -> pool_inv (mkPool c' (l1 ++ l2) gs).
Proof.
  intros Hinv Hf Hj Hu. destruct (loading_frame _ _ _ _ _ _ _ Hinv Hf) as (Hlen & Hnk & Hp1 & Hg0 & Hl0).
  unfold fill_frame in Hu. rewrite Hf in Hu.
  pose proof (lookup_lt_Some _ _ _ Hf) as Hlt. eapply unpin_spec in Hu; [|by apply list_lookup_insert_eq].
  subst c'. simpl. unfold with_frame at 1. simpl. rewrite list_insert_insert_eq.
  eapply (pool_inv_update c _ gs (l1 ++ l2) gs idx fr
    (mkFrame junk (fr_key fr) (fr_ref_bit fr) (fr_pin_count fr - 1)) (cc_table c)); eauto; simpl.
  - intros i Hi. rewrite holds_middle, !decide_False by done. done.
  - intros i k. rewrite !elem_of_app, elem_of_cons. tauto.
  - intros k i Hk. right. split; [|done]. intros ->.
    destruct (pi_table _ Hinv k idx Hk) as (f' & Hf' & Hkey'). simpl in Hf'. congruence.
  - split; simpl; [congruence|lia|congruence| |lia].
    intros k Hk. apply holds_0 with (k := k) in Hg0. done.
Qed.

Lemma aligned_zeroed_Ok n align b : aligned_zeroed n align = Ok b -> b = replicate n Byte.x00.
Proof. unfold aligned_zeroed. destruct (is_power_of_two _); [|done]. case_decide; [|done]. by intros [= <-]. Qed.

Lemma clock_new_inv capacity c : clock_new capacity block_size = Ok c -> pool_inv (mkPool c [] []).
Proof.
  unfold clock_new. intros H.
  assert (forall l frames, rmap (fun _ : nat => buf <-- aligned_zeroed block_size block_size ;; Ok (mkFrame buf None false 0)) l
            = Ok frames -> Forall (fun f => f = mkFrame (replicate block_size Byte.x00) None false 0) frames) as Hall.
  { induction l as [|x l IH]; simpl; [by intros ? [= <-]|]. intros frames.
    destruct (aligned_zeroed _ _) as [z| |] eqn:Ez; simpl; [|done..]. apply aligned_zeroed_Ok in Ez as ->.
    simpl in IH. destruct (rmap _ l) as [t| |] eqn:E; simpl; [|done..]. intros [= <-]. by constructor; [|apply IH]. }
  destruct (rmap _ _) as [frames| |] eqn:E; simpl in H; [|done..].
  injection H as <-. apply Hall in E. split; simpl; [|done| |].
  - destruct frames; [by right|left]. unfold hand_ok. simpl. lia.
  - intros i f Hi. rewrite Forall_lookup in E. rewrite (E i f Hi). split; simpl; try done; [len|].
    by intros k ?%not_elem_of_nil.
  - by intros i k ?%not_elem_of_nil.
Qed.

Lemma pool_step_inv p p' : pool_inv p -> pool_step p p' -> pool_inv p'.
Proof.
  intros Hinv Hs. destruct Hs.
  - by apply (read_begin_inv _ _ _ _ _ _ Hinv) in H.
  - by apply (read_begin_inv _ _ _ _ _ _ Hinv) in H.
  - by apply (read_begin_inv _ _ _ _ _ _ Hinv) in H as [? _].
  - by eapply commit_load_inv.
  - by eapply abort_inv.
  - by eapply unpin_inv.
Qed.

Lemma pool_reachable_inv p : pool_reachable p -> pool_inv p.
Proof. induction 1; [by eapply clock_new_inv|by eapply pool_step_inv]. Qed.

(** C34: Over files whose contents do not change, one per segment id (the
    write-once blocks of a log), whatever the interleaving of readers, a [PinGuard] reads the block it
    was asked for as long as it lives: its frame holds that block, is never
    chosen for a load, and dropping the guard never underflows the pin count. *)
Theorem guard_stable p i k :
  pool_reachable p -> (i, k) ∈ p_guards p ->
  (in_file k -> guard_bytes (p_cache p) i = Some (block_of k))
  /\ (forall key j c', read_begin (p_cache p) key = Ok (BLoad j, c') -> j <> i)
  /\ (exists b c', unpin (p_cache p) i = Ok (b, c')).
Proof.
  intros Hinv%pool_reachable_inv Hg.
  assert (is_Some (cc_frames (p_cache p) !! i)) as [f Hf].
  { apply lookup_lt_is_Some_2. eapply (pi_range _ Hinv i k). apply elem_of_app. by left. }
  destruct (pi_frames _ Hinv i f Hf) as [F1 F2 F3 F4 F5].
  assert (holds i (p_guards p) <> 0) as Hh by (intros H0; by apply holds_0 with (k := k) in H0).
  split_and!.
  - intros Hin. unfold guard_bytes. rewrite Hf. simpl. f_equal. apply F3; auto.
  - intros key j c' Hb. destruct p as [c ls gs]. simpl in *. apply (read_begin_inv _ _ _ _ _ _ Hinv) in Hb as Hinv2.
    intros ->. assert (is_Some (cc_frames c' !! i)) as [g Hg'].
    { apply lookup_lt_is_Some_2. eapply (pi_range _ Hinv2 i k). apply elem_of_app. by left. }
    destruct (loading_frame c' [] ls gs key i g Hinv2 Hg') as (_ & _ & _ & ? & _). done.
  - unfold unpin. rewrite Hf. simpl. rewrite bool_decide_true by lia. simpl. eauto.
Qed.

(** C35: [find_victim] finds a frame exactly when one is unpinned, within its two
    sweeps; it returns an unpinned frame and changes nothing but reference
    bits and the hand. *)
Theorem find_victim_finds p :
  pool_reachable p ->
  exists v c', find_victim (p_cache p) = Ok (v, c') /\ same_pool (p_cache p) c'
    /\ (v = None <-> forall i, ~ unpinned (p_cache p) i)
    /\ (forall i, v = Some i -> unpinned (p_cache p) i).
Proof.
  intros Hinv%pool_reachable_inv. destruct (find_victim_spec (p_cache p) (pi_hand _ Hinv)) as (v & c' & He & Hs & _ & Hv & Hn).
  exists v, c'. split_and!; [done..| |done]. split; [by apply Hn|]. intros Hall. destruct v as [i|]; [|done].
  destruct (Hall i). auto.
Qed.

Lemma holds_le i l : holds i l <= length l.
Proof. unfold holds. apply length_filter. Qed.

(** A resident block is pinned where it is. *)
Lemma pin_hit_resident p key idx :
  pool_inv p -> cc_table (p_cache p) !! key = Some idx ->
  (Z.of_nat (length (p_guards p) + length (p_loads p)) < u32_max)%Z ->
  exists c', pin_hit (p_cache p) key = Ok (Some idx, c').
Proof.
  intros Hinv Ht Hb. unfold pin_hit. rewrite Ht. destruct (pi_table _ Hinv key idx Ht) as (f & Hf & _). rewrite Hf. simpl.
  destruct (pi_frames _ Hinv idx f Hf) as [_ Hp _ _ _].
  pose proof (holds_le idx (p_guards p)). pose proof (holds_le idx (p_loads p)).
  rewrite bool_decide_true by lia. simpl. eauto.
Qed.

(** With room in the pool, the first critical section does not wait. *)
Lemma read_begin_progress p key :
  pool_inv p -> (Z.of_nat (length (p_guards p) + length (p_loads p)) < u32_max)%Z ->
  is_Some (cc_table (p_cache p) !! key) \/ (exists i, unpinned (p_cache p) i) ->
  exists b c', read_begin (p_cache p) key = Ok (b, c')
    /\ match b with BHit _ => True | BLoad idx => is_Some (cc_frames c' !! idx) | BWait => False end.
Proof.
  intros Hinv Hb Hav. unfold read_begin. destruct (cc_table (p_cache p) !! key) as [idx|] eqn:Ht.
  { destruct (pin_hit_resident _ _ _ Hinv Ht Hb) as (c' & He). rewrite He. by eexists _, _. }
  destruct Hav as [[? ?]|[i Hi]]; [done|]. unfold pin_hit. rewrite Ht. simpl.
  destruct (find_victim_spec (p_cache p) (pi_hand _ Hinv)) as ([v|] & c' & -> & Hsp & _ & Hv & Hn);
    [|by destruct (Hn eq_refl i)].
  simpl. destruct (Hv v eq_refl) as (f & Hf & _).
  destruct (Forall2_lookup_l _ _ _ _ _ (proj2 Hsp) Hf) as (g & Hg & _). unfold prepare_load. rewrite Hg. simpl.
  eexists _, _. split; [done|]. simpl. rewrite list_lookup_insert_eq; [done|by eapply lookup_lt_Some].
Qed.

(** A guard reads its block. *)
Lemma guard_reads c ls gs idx key :
  pool_inv (mkPool c ls gs) -> (idx, key) ∈ gs -> in_file key -> guard_bytes c idx = Some (block_of key).
Proof.
  intros Hinv Hg Hin. assert (is_Some (cc_frames c !! idx)) as [f Hf].
  { apply lookup_lt_is_Some_2. eapply (pi_range _ Hinv idx key). apply elem_of_app. by left. }
  destruct (pi_frames _ Hinv idx f Hf) as [_ _ F3 F4 _]. unfold guard_bytes. rewrite Hf. simpl in *. f_equal. auto.
Qed.

(** Publishing a block just read. *)
Lemma commit_load_total c idx key f data :
  cc_frames c !! idx = Some f -> exists c', commit_load (fill_frame c idx data) idx key = Ok c'.
Proof.
  intros Hf. unfold fill_frame. rewrite Hf. unfold commit_load. simpl.
  rewrite list_lookup_insert_eq by (by eapply lookup_lt_Some). simpl. eauto.
Qed.

Lemma read_block_spec p file key :
  pool_inv p -> in_file key -> contents file = disk (bk_seg_id key) -> f_script file = [] ->
  (Z.of_nat (length (p_guards p) + length (p_loads p)) < u32_max)%Z ->
  is_Some (cc_table (p_cache p) !! key) \/ (exists i, unpinned (p_cache p) i) ->
  exists idx c' file', read_block block_size (p_cache p) file key = (Ok (Some idx), (c', file'))
    /\ guard_bytes c' idx = Some (block_of key)
    /\ pool_inv (mkPool c' (p_loads p) ((idx, key) :: p_guards p))
    /\ contents file' = contents file /\ f_script file' = [].
Proof.
  intros Hinv Hin Hc Hs Hb Hav.
  destruct (read_begin_progress p key Hinv Hb Hav) as (b & c1 & Hbg & Hcase). destruct p as [c ls gs]. simpl in *.
  pose proof (read_begin_inv _ _ _ _ _ _ Hinv Hbg) as Hinv2. unfold read_block. rewrite Hbg.
  destruct b as [idx|idx|]; [| |done].
  { eexists _, _, _. split_and!; [done| |done..]. eapply guard_reads; [done|left|done]. }
  destruct Hcase as [f Hf]. rewrite Hf. destruct (loading_frame c1 [] ls gs key idx f Hinv2 Hf) as (Hlen & _).
  destruct (pread_all_healthy file (fr_buf f) (block_off key) Hs) as (file' & Hr & Hsf & Hdf & Hpf); [by rewrite Hc, Hlen|].
  fold (block_off key). rewrite Hr.
  destruct (commit_load_total c1 idx key f (read_at (contents file) (block_off key) (length (fr_buf f))) Hf) as [c2 Hcm].
  rewrite Hcm. pose proof (commit_load_inv c1 c2 [] ls gs key idx f file file' _ Hinv2 Hf Hc Hr Hcm) as Hinv3.
  eexists _, _, _. split_and!; [done| |done|unfold contents; by rewrite Hdf, Hpf|done].
  eapply guard_reads; [done|left|done].
Qed.

(** A read of a block the file has returns a guard on that block, from a
    pool with a resident copy or an unpinned frame, when the device does not
    fail; and the pool stays consistent. *)
Theorem read_block_ok p file key :
  pool_reachable p -> in_file key -> contents file = disk (bk_seg_id key) -> f_script file = [] ->
  (Z.of_nat (length (p_guards p) + length (p_loads p)) < u32_max)%Z ->
  is_Some (cc_table (p_cache p) !! key) \/ (exists i, unpinned (p_cache p) i) ->
  exists idx c' file', read_block block_size (p_cache p) file key = (Ok (Some idx), (c', file'))
    /\ guard_bytes c' idx = Some (block_of key)
    /\ pool_inv (mkPool c' (p_loads p) ((idx, key) :: p_guards p)).
Proof.
  intros Hr%pool_reachable_inv Hin Hc Hs Hb Hav.
  destruct (read_block_spec p file key Hr Hin Hc Hs Hb Hav) as (idx & c' & file' & He & Hg & Hi & _). eauto 10.
Qed.
End Pool.

Lemma raw_read_spec bs file offset n :
  is_power_of_two (Z.of_nat bs) = true ->
  (Z.of_nat (offset + n) + 3 * Z.of_nat bs <= 2 ^ 63)%Z ->
  offset + n <= length (contents file) -> f_script file = [] ->
  exists file', raw_read bs file offset n = (Ok (read_at (contents file) offset n), file')
    /\ contents file' = contents file /\ f_script file' = [].
Proof.
  intros Hp Hm Hl Hs. assert (bs <> 0) as Hbs by (intros ->; done).
  unfold raw_read. set (ao := offset / bs * bs). set (o := offset - ao).
  pose proof (Nat.div_mod_eq offset bs) as Hdm. pose proof (Nat.mod_upper_bound offset bs Hbs) as Hmo.
  assert (ao + o = offset /\ o < bs) as [Hao Hob] by (unfold o, ao; lia).
  set (al := (o + n + bs - 1) / bs * bs).
  assert (o + n <= al <= o + n + bs) as [Hal1 Hal2].
  { unfold al. pose proof (Nat.div_mod_eq (o + n + bs - 1) bs). pose proof (Nat.mod_upper_bound (o + n + bs - 1) bs Hbs). lia. }
  unfold aligned_zeroed. rewrite Hp, decide_True by lia.
  destruct (pread_loop_spec (length (replicate al Byte.x00)) file [] (replicate al Byte.x00) ao)
    as (out & f' & He & Ed & Ep & Hout); [done|].
  unfold pread_all. rewrite He. destruct Hout as [[-> Hsf]|(m & _ & ?)]; [|done]. rewrite length_replicate.
  exists f'. split_and!; [|unfold contents; by rewrite Ed, Ep|auto]. f_equal. simpl.
  rewrite slice_Ok by len. f_equal. replace (o + n - o) with n by lia. unfold read_at.
  rewrite drop_app_le by len. rewrite take_app_le by len.
  rewrite skipn_firstn_comm, take_take, drop_drop, Hao. f_equal. lia.
Qed.

(** [raw_read] returns exactly the bytes asked for, whatever their
    alignment, when the file has them. *)
Theorem raw_read_ok bs file offset n :
  is_power_of_two (Z.of_nat bs) = true ->
  (Z.of_nat (offset + n) + 3 * Z.of_nat bs <= 2 ^ 63)%Z ->
  offset + n <= length (contents file) -> f_script file = [] ->
  (raw_read bs file offset n).1 = Ok (read_at (contents file) offset n).
Proof. intros Hp Hm Hl Hs. by destruct (raw_read_spec bs file offset n Hp Hm Hl Hs) as (f' & -> & _). Qed.

(** *** Witnesses *)

Definition demo_wal_disk : Z -> bytes := fun _ => replicate 64 Byte.x61 ++ replicate 64 Byte.x62.
Definition demo_file : FileState := mkFile (demo_wal_disk 0) [] [].
Definition demo_block_key : BlockKey := mkBlockKey 0 1.
Definition demo_c0 : ClockCache := ok_get (mkClock [] ∅ 0) (clock_new 1 64).
Definition demo_c1 : ClockCache := (ok_get (BWait, demo_c0) (read_begin demo_c0 demo_block_key)).2.
Definition demo_c2 : ClockCache :=
  ok_get demo_c0 (commit_load (fill_frame demo_c1 0 (replicate 64 Byte.x62)) 0 demo_block_key).

Lemma demo_reach0 : pool_reachable 64 demo_wal_disk (mkPool demo_c0 [] []).
Proof. apply (reach_new 64 demo_wal_disk 1). vm_compute. reflexivity. Qed.

Lemma demo_reach2 : pool_reachable 64 demo_wal_disk (mkPool demo_c2 [] [(0, demo_block_key)]).
Proof.
  apply (reach_step _ _ (mkPool demo_c1 [(0, demo_block_key)] [])).
  { apply (reach_step _ _ (mkPool demo_c0 [] []) _ demo_reach0). apply step_load. vm_compute. reflexivity. }
  apply (step_commit 64 demo_wal_disk demo_c1 demo_c2 [] [] [] demo_block_key 0 (mkFrame (replicate 64 Byte.x00) None false 1)
    demo_file demo_file (replicate 64 Byte.x62)); vm_compute; reflexivity.
Qed.

Lemma guard_stable_witness : guard_bytes demo_c2 0 = Some (replicate 64 Byte.x62).
Proof.
  destruct (guard_stable 64 demo_wal_disk (mkPool demo_c2 [] [(0, demo_block_key)]) 0 demo_block_key demo_reach2) as [H _].
  - left.
  - apply H. unfold in_file, block_off. vm_compute. lia.
Defined.

Lemma find_victim_finds_witness :
  exists v c', find_victim demo_c2 = Ok (v, c') /\ same_pool demo_c2 c'
    /\ (v = None <-> forall i, ~ unpinned demo_c2 i)
    /\ (forall i, v = Some i -> unpinned demo_c2 i).
Proof. exact (find_victim_finds 64 demo_wal_disk (mkPool demo_c2 [] [(0, demo_block_key)]) demo_reach2). Defined.

Lemma read_block_ok_witness :
  exists idx c' file', read_block 64 demo_c0 demo_file demo_block_key = (Ok (Some idx), (c', file'))
    /\ guard_bytes c' idx = Some (block_of 64 demo_wal_disk demo_block_key)
    /\ pool_inv 64 demo_wal_disk (mkPool c' [] [(idx, demo_block_key)]).
Proof.
  apply (read_block_ok 64 demo_wal_disk (mkPool demo_c0 [] []) demo_file demo_block_key demo_reach0); try done.
  - unfold in_file, block_off. vm_compute. lia.
  - right. exists 0. eexists. split; vm_compute; reflexivity.
Defined.

Lemma raw_read_ok_witness : (raw_read 64 demo_file 60 8).1 = Ok (read_at (contents demo_file) 60 8).
Proof. apply (raw_read_ok 64 demo_file 60 8); [reflexivity|lia|vm_compute; lia|reflexivity]. Defined.
