(* ===== verification/WalBuffer.v ===== *)
(** The write buffer (wal/buffer.rs) and the lock-free append path (wal/impl.rs,
    [Wal::append]): writers claim byte ranges and slots with atomic
    increments, encode their frame into their range and publish it in their
    slot. A step relation interleaves any number of writers, one step per
    atomic operation. *)

From stdpp Require Import base strings numbers sorting list.
From S2P Require Import Prelude.
From S2P Require Import Errors.
From S2P Require Import WalFrame.
From S2P Require Import WalFile.

#[local] Existing Instances Permutation_cons Permutation_app'.

Inductive BufState := STATE_ACTIVE | STATE_FULL.

Record WalBuffer := mkWalBuffer {
  b_data : bytes;
  b_write_pos : Z;
  b_entries_allocated : nat;
  b_entries : list Z;
  b_in_flight : nat;
  b_state : BufState;
  b_min_lsn : Z;
  b_count : nat;
  b_seg_id : Z;
  b_capacity : nat;
  b_max_entries : nat;
}.

(** [WalBuffer::new]; the bytes of the fresh allocation are [data]. *)
Definition wal_buffer_new (data : bytes) (min_lsn seg_id : Z) : WalBuffer :=
  let buffer_size := length data in
  let max_entries := buffer_size / HEADER_LEN in
  mkWalBuffer data 0 0 (replicate max_entries 0%Z) 0 STATE_ACTIVE min_lsn 0 seg_id buffer_size max_entries.

Definition wal_buffer_alloc (uninit : nat -> Byte.byte) (buffer_size block_size : nat) (min_lsn seg_id : Z)
  : WalResult WalBuffer :=
  data <-- aligned_new uninit buffer_size block_size ;;
  Ok (wal_buffer_new data min_lsn seg_id).

(** [WalBuffer::reset]. *)
Definition buffer_reset (self : WalBuffer) (next_min_lsn : Z) : WalBuffer :=
  mkWalBuffer (b_data self) 0 0 (b_entries self) 0 STATE_ACTIVE next_min_lsn 0 (b_seg_id self)
    (b_capacity self) (b_max_entries self).

Definition set_write_pos (self : WalBuffer) (p : Z) : WalBuffer :=
  mkWalBuffer (b_data self) p (b_entries_allocated self) (b_entries self) (b_in_flight self) (b_state self)
    (b_min_lsn self) (b_count self) (b_seg_id self) (b_capacity self) (b_max_entries self).
Definition set_allocated (self : WalBuffer) (n : nat) : WalBuffer :=
  mkWalBuffer (b_data self) (b_write_pos self) n (b_entries self) (b_in_flight self) (b_state self)
    (b_min_lsn self) (b_count self) (b_seg_id self) (b_capacity self) (b_max_entries self).
Definition set_in_flight (self : WalBuffer) (n : nat) : WalBuffer :=
  mkWalBuffer (b_data self) (b_write_pos self) (b_entries_allocated self) (b_entries self) n (b_state self)
    (b_min_lsn self) (b_count self) (b_seg_id self) (b_capacity self) (b_max_entries self).
Definition set_data (self : WalBuffer) (d : bytes) : WalBuffer :=
  mkWalBuffer d (b_write_pos self) (b_entries_allocated self) (b_entries self) (b_in_flight self) (b_state self)
    (b_min_lsn self) (b_count self) (b_seg_id self) (b_capacity self) (b_max_entries self).
Definition set_entries (self : WalBuffer) (es : list Z) : WalBuffer :=
  mkWalBuffer (b_data self) (b_write_pos self) (b_entries_allocated self) es (b_in_flight self) (b_state self)
    (b_min_lsn self) (b_count self) (b_seg_id self) (b_capacity self) (b_max_entries self).

(** [WalBuffer::claim_buffer_range]: the increment wraps at 64 bits and happens
    also when the range does not fit. *)
Definition claim_buffer_range (self : WalBuffer) (frame_len : nat) : option nat * WalBuffer :=
  let pos := b_write_pos self in
  let self := set_write_pos self ((pos + Z.of_nat frame_len) mod 2 ^ 64)%Z in
  if decide (pos + Z.of_nat frame_len <= u64_max)%Z
  then if decide (Z.of_nat (b_capacity self) < pos + Z.of_nat frame_len)%Z then (None, self)
       else (Some (Z.to_nat pos), self)
  else (None, self).

(** [WalBuffer::claim_slot]. *)
Definition claim_slot (self : WalBuffer) : WalResult (nat * WalBuffer) :=
  let slot := b_entries_allocated self in
  rassert (bool_decide (slot < b_max_entries self)) ;;;
  Ok (slot, set_allocated self (slot + 1)).

(** Freezing a buffer in [Wal::try_swap_full], once [in_flight] is zero. *)
Definition freeze (self : WalBuffer) : WalBuffer :=
  mkWalBuffer (b_data self) (b_write_pos self) (b_entries_allocated self) (b_entries self) (b_in_flight self) STATE_FULL
    (b_min_lsn self) (b_entries_allocated self) (b_seg_id self) (b_capacity self) (b_max_entries self).

(** ** Writers *)

(** How far one call of [append] has come on this buffer. *)
Inductive Stage := Claimed | Slotted | InFlight | Copied | Stored | Returned.

Record Writer := mkWriter {
  w_payload : bytes;
  w_pos : nat;
  w_slot : option nat;
  w_stage : Stage;
}.

Definition w_end (w : Writer) : nat := w_pos w + (HEADER_LEN + length (w_payload w)).

Record Appending := mkAppending { a_buf : WalBuffer; a_writers : list Writer }.

Section Append.
Context `{Crc32}.

(** The frame of a writer with a slot: [lsn = min_lsn + idx]. *)
Definition writer_lsn (b : WalBuffer) (idx : nat) : Z := (b_min_lsn b + Z.of_nat idx)%Z.
Definition writer_frame (b : WalBuffer) (idx : nat) (payload : bytes) : bytes :=
  encode_frame (mkLsn (writer_lsn b idx)) payload.

(** One atomic operation of [Wal::append] on the active buffer. Fewer than
    2^64 bytes are claimed between two swaps. *)
Inductive append_step : Appending -> Appending -> Prop :=
| step_claim b b' ws (payload : bytes) pos :
    (b_write_pos b + Z.of_nat (HEADER_LEN + length payload) <= u64_max)%Z ->
    claim_buffer_range b (HEADER_LEN + length payload) = (Some pos, b') ->
    append_step (mkAppending b ws) (mkAppending b' (ws ++ [mkWriter payload pos None Claimed]))
| step_overflow b b' ws (payload : bytes) :
    (b_write_pos b + Z.of_nat (HEADER_LEN + length payload) <= u64_max)%Z ->
    claim_buffer_range b (HEADER_LEN + length payload) = (None, b') ->
    append_step (mkAppending b ws) (mkAppending b' ws)
| step_slot b b' ws1 ws2 payload pos idx :
    claim_slot b = Ok (idx, b') ->
    append_step (mkAppending b (ws1 ++ mkWriter payload pos None Claimed :: ws2))
                (mkAppending b' (ws1 ++ mkWriter payload pos (Some idx) Slotted :: ws2))
| step_enter b ws1 ws2 payload pos idx :
    append_step (mkAppending b (ws1 ++ mkWriter payload pos (Some idx) Slotted :: ws2))
                (mkAppending (set_in_flight b (b_in_flight b + 1)) (ws1 ++ mkWriter payload pos (Some idx) InFlight :: ws2))
| step_copy b ws1 ws2 payload pos idx :
    append_step (mkAppending b (ws1 ++ mkWriter payload pos (Some idx) InFlight :: ws2))
                (mkAppending (set_data b (write_at (b_data b) pos (writer_frame b idx payload)))
                   (ws1 ++ mkWriter payload pos (Some idx) Copied :: ws2))
| step_store b ws1 ws2 (payload : bytes) pos idx word :
    pack (Z.of_nat pos) (Z.of_nat (HEADER_LEN + length payload) mod 2 ^ 32)%Z = Ok word -> idx < length (b_entries b) ->
    append_step (mkAppending b (ws1 ++ mkWriter payload pos (Some idx) Copied :: ws2))
                (mkAppending (set_entries b (<[idx := word]> (b_entries b)))
                   (ws1 ++ mkWriter payload pos (Some idx) Stored :: ws2))
| step_leave b ws1 ws2 payload pos idx :
    append_step (mkAppending b (ws1 ++ mkWriter payload pos (Some idx) Stored :: ws2))
                (mkAppending (set_in_flight b (b_in_flight b - 1)) (ws1 ++ mkWriter payload pos (Some idx) Returned :: ws2)).

(** The states a fresh or recycled buffer can reach. *)
Inductive append_reachable (b0 : WalBuffer) : Appending -> Prop :=
| append_start : append_reachable b0 (mkAppending b0 [])
| append_more a a' : append_reachable b0 a -> append_step a a' -> append_reachable b0 a'.

(** A buffer ready for appends: nothing claimed, slots for every frame that
    fits, and offsets that fit a slot word. *)
Definition buffer_fresh (b : WalBuffer) : Prop :=
  b_write_pos b = 0%Z /\ b_entries_allocated b = 0 /\ b_in_flight b = 0
  /\ length (b_data b) = b_capacity b /\ b_max_entries b = b_capacity b / HEADER_LEN
  /\ length (b_entries b) = b_max_entries b /\ (Z.of_nat (b_capacity b) <= u32_max)%Z.

(** ** The invariant *)

Definition slots (ws : list Writer) : list nat := omap w_slot ws.

Definition has_copied (s : Stage) : bool := match s with Copied | Stored | Returned => true | _ => false end.
Definition has_stored (s : Stage) : bool := match s with Stored | Returned => true | _ => false end.
Definition in_barrier (s : Stage) : bool := match s with InFlight | Copied | Stored => true | _ => false end.

(** What one writer has left in the buffer. *)
Record writer_inv (b : WalBuffer) (w : Writer) : Prop := {
  wi_range : w_end w <= b_capacity b /\ (Z.of_nat (w_end w) <= b_write_pos b)%Z;
  wi_slot : w_slot w = None <-> w_stage w = Claimed;
  wi_data : forall idx, w_slot w = Some idx -> has_copied (w_stage w) = true ->
    read_at (b_data b) (w_pos w) (HEADER_LEN + length (w_payload w)) = writer_frame b idx (w_payload w);
  wi_entry : forall idx, w_slot w = Some idx -> has_stored (w_stage w) = true ->
    exists word, b_entries b !! idx = Some word
      /\ unpack word = (Z.of_nat (w_pos w), Z.of_nat (HEADER_LEN + length (w_payload w)));
}.

(** Writers in claim order occupy increasing ranges. *)
Definition w_range (w : Writer) : nat * nat := (w_pos w, w_end w).
Definition ranges_apart (ws : list Writer) : Prop :=
  StronglySorted (fun r1 r2 => r1.2 <= r2.1) (w_range <$> ws).

Record append_inv (b0 : WalBuffer) (a : Appending) : Prop := {
  ai_static : b_min_lsn (a_buf a) = b_min_lsn b0 /\ b_capacity (a_buf a) = b_capacity b0
    /\ b_max_entries (a_buf a) = b_max_entries b0;
  ai_pos : (0 <= b_write_pos (a_buf a))%Z;
  ai_data_len : length (b_data (a_buf a)) = b_capacity b0;
  ai_entries_len : length (b_entries (a_buf a)) = b_max_entries b0;
  ai_apart : ranges_apart (a_writers a);
  ai_slots : slots (a_writers a) ≡ₚ seq 0 (b_entries_allocated (a_buf a));
  ai_in_flight : b_in_flight (a_buf a) = length (filter (fun w => in_barrier (w_stage w) = true) (a_writers a));
  ai_writers : Forall (writer_inv (a_buf a)) (a_writers a);
}.

Lemma apart_split ws1 w ws2 :
  ranges_apart (ws1 ++ w :: ws2) ->
  (forall w', w' ∈ ws1 -> w_end w' <= w_pos w) /\ (forall w', w' ∈ ws2 -> w_end w <= w_pos w').
Proof.
  unfold ranges_apart. rewrite fmap_app, fmap_cons. intros Hs.
  induction ws1 as [|v ws1 IH]; simpl in Hs; apply StronglySorted_inv in Hs as [Hs HF].
  - split; [by intros w' ?%not_elem_of_nil|]. intros w' Hin. rewrite Forall_forall in HF.
    apply (HF (w_range w')). by apply list_elem_of_fmap_2.
  - destruct (IH Hs) as [I1 I2]. split; [|done]. intros w' [->|Hin]%elem_of_cons; [|auto].
    rewrite Forall_forall in HF. apply (HF (w_range w)). rewrite elem_of_app, elem_of_cons. auto.
Qed.

Lemma apart_replace ws1 w w' ws2 :
  w_range w' = w_range w -> ranges_apart (ws1 ++ w :: ws2) -> ranges_apart (ws1 ++ w' :: ws2).
Proof. unfold ranges_apart. rewrite !fmap_app, !fmap_cons. by intros ->. Qed.

Lemma apart_snoc ws w : ranges_apart ws -> Forall (fun v => w_end v <= w_pos w) ws -> ranges_apart (ws ++ [w]).
Proof.
  unfold ranges_apart. rewrite fmap_app. simpl. induction ws as [|v ws IH]; intros Hs HF; simpl in *.
  { by repeat constructor. }
  apply StronglySorted_inv in Hs as [Hs Hall]. apply Forall_cons in HF as [Hv HF]. constructor; [auto|].
  apply Forall_app. split; [done|]. by constructor; [|constructor].
Qed.

(** Disjoint frames in a buffer of [cap] bytes: at most one per header. *)
Lemma apart_count ws lo cap :
  ranges_apart ws -> Forall (fun w => lo <= w_pos w /\ w_end w <= cap) ws -> lo <= cap ->
  lo + HEADER_LEN * length ws <= cap.
Proof.
  revert lo. induction ws as [|w ws IH]; intros lo Hs HF Hlo; simpl; [lia|].
  apply StronglySorted_inv in Hs as [Hs Hall]. apply Forall_cons in HF as [[Hw1 Hw2] HF].
  specialize (IH (w_end w) Hs). unfold HEADER_LEN in *.
  assert (w_end w + 16 * length ws <= cap) as IHe.
  { apply IH; [|lia]. apply Forall_forall. intros v Hv. destruct (proj1 (Forall_forall _ _) HF v Hv). split; [|done].
    apply (proj1 (Forall_forall _ _) Hall (w_range v)). by apply (list_elem_of_fmap_2 w_range). }
  unfold w_end, HEADER_LEN in *. lia.
Qed.

Lemma slots_middle ws1 w ws2 :
  slots (ws1 ++ w :: ws2) = slots ws1 ++ (match w_slot w with Some i => [i] | None => [] end) ++ slots ws2.
Proof. unfold slots. rewrite omap_app. simpl. by destruct (w_slot w). Qed.

Lemma slots_le ws : length (slots ws) <= length ws.
Proof.
  induction ws as [|w ws IH]; [done|]. pose proof (slots_middle [] w ws) as Hm. simpl app in Hm.
  rewrite Hm, !length_app. destruct (w_slot w); simpl; lia.
Qed.

Definition barrier_count (ws : list Writer) : nat := length (filter (fun w => in_barrier (w_stage w) = true) ws).

Lemma barrier_middle ws1 w ws2 :
  barrier_count (ws1 ++ w :: ws2) = (if in_barrier (w_stage w) then 1 else 0) + barrier_count (ws1 ++ ws2).
Proof.
  unfold barrier_count. rewrite !filter_app, !length_app, filter_cons. simpl.
  destruct (in_barrier (w_stage w)); case_decide; simpl; try done; lia.
Qed.

(** A writer keeps its claim while others move. *)
Lemma writer_inv_ext b b' w :
  b_capacity b' = b_capacity b -> b_min_lsn b' = b_min_lsn b -> (b_write_pos b <= b_write_pos b')%Z ->
  read_at (b_data b') (w_pos w) (HEADER_LEN + length (w_payload w))
  = read_at (b_data b) (w_pos w) (HEADER_LEN + length (w_payload w)) ->
  (forall idx, w_slot w = Some idx -> b_entries b' !! idx = b_entries b !! idx) ->
  writer_inv b w -> writer_inv b' w.
Proof.
  intros Hc Hm Hp Hd He [[R1 R2] S D E]. split.
  - rewrite Hc. lia.
  - done.
  - intros idx Hi Hs. rewrite Hd, (D idx Hi Hs). unfold writer_frame, writer_lsn. by rewrite Hm.
  - intros idx Hi Hs. rewrite (He idx Hi). by apply E.
Qed.

(** One writer moves to its next stage, in place. *)
Lemma append_inv_replace b0 b b' ws1 w w' ws2 :
  append_inv b0 (mkAppending b (ws1 ++ w :: ws2)) ->
  w_range w' = w_range w -> w_slot w' = w_slot w ->
  b_capacity b' = b_capacity b -> b_min_lsn b' = b_min_lsn b -> b_max_entries b' = b_max_entries b ->
  b_write_pos b' = b_write_pos b -> b_entries_allocated b' = b_entries_allocated b ->
  length (b_data b') = length (b_data b) -> length (b_entries b') = length (b_entries b) ->
  b_in_flight b' + (if in_barrier (w_stage w) then 1 else 0)
  = b_in_flight b + (if in_barrier (w_stage w') then 1 else 0) ->
  (forall v, v ∈ ws1 ++ ws2 -> writer_inv b v -> writer_inv b' v) ->
  (writer_inv b w -> writer_inv b' w') ->
  append_inv b0 (mkAppending b' (ws1 ++ w' :: ws2)).
Proof.
  intros [(S1 & S2 & S3) I2 I3 I4 I5 I6 I7 I8] Hr Hs Hc Hm Hx Hp Ha Hd He Hf Hother Hw.
  cbn [a_buf a_writers] in *. rewrite <- Ha, slots_middle, <- Hs, <- slots_middle in I6.
  change (length (filter _ (ws1 ++ w :: ws2))) with (barrier_count (ws1 ++ w :: ws2)) in I7.
  rewrite barrier_middle in I7.
  apply Forall_app in I8 as [F1 F2]. apply Forall_cons in F2 as [Fw F2].
  split; simpl; [split_and!; congruence|lia|congruence|congruence|by eapply apart_replace|done| |].
  - change (length (filter _ (ws1 ++ w' :: ws2))) with (barrier_count (ws1 ++ w' :: ws2)).
    rewrite barrier_middle. lia.
  - rewrite Forall_forall in F1, F2. apply Forall_app. split; [|apply Forall_cons; split; [auto|]];
      apply Forall_forall; intros v Hv; (apply Hother; [rewrite elem_of_app; auto|auto]).
Qed.

Lemma claim_range_spec b n r b' :
  (0 <= b_write_pos b)%Z -> (b_write_pos b + Z.of_nat n <= u64_max)%Z -> claim_buffer_range b n = (r, b') ->
  b' = set_write_pos b (b_write_pos b + Z.of_nat n)
  /\ match r with
     | Some pos => Z.of_nat pos = b_write_pos b /\ pos + n <= b_capacity b
     | None => (Z.of_nat (b_capacity b) < b_write_pos b + Z.of_nat n)%Z
     end.
Proof.
  intros H0 Hmax. unfold claim_buffer_range. rewrite decide_True by done.
  rewrite Z.mod_small by (unfold u64_max in Hmax; lia). simpl. case_decide; intros [= <- <-]; split; try done. lia.
Qed.

Lemma step_claim_inv b0 b b' ws payload r :
  append_inv b0 (mkAppending b ws) ->
  (b_write_pos b + Z.of_nat (HEADER_LEN + length payload) <= u64_max)%Z ->
  claim_buffer_range b (HEADER_LEN + length payload) = (r, b') ->
  append_inv b0 (mkAppending b' match r with Some pos => ws ++ [mkWriter payload pos None Claimed] | None => ws end).
Proof.
  intros [I1 I2 I3 I4 I5 I6 I7 I8] Hmax Hcl. cbn [a_buf a_writers] in *.
  destruct (claim_range_spec _ _ _ _ I2 Hmax Hcl) as [-> Hr].
  assert (Forall (writer_inv (set_write_pos b (b_write_pos b + Z.of_nat (HEADER_LEN + length payload)))) ws) as I8'.
  { eapply Forall_impl; [exact I8|]. intros v Hv. eapply writer_inv_ext; [..|exact Hv]; simpl; try done. lia. }
  destruct r as [pos|]; [|split; simpl; try done; lia]. destruct Hr as [Hpos Hcap].
  split; cbn [a_buf a_writers]; simpl; try done; [lia| | | |].
  - apply apart_snoc; [done|]. eapply Forall_impl; [exact I8|]. intros v [[_ Hv] _ _ _]. simpl. lia.
  - rewrite slots_middle. simpl. rewrite app_nil_r. done.
  - change (length (filter _ (ws ++ _))) with (barrier_count (ws ++ [mkWriter payload pos None Claimed])).
    rewrite barrier_middle, app_nil_r. done.
  - apply Forall_app. split; [done|]. constructor; [|constructor]. split; simpl; try done.
    unfold w_end, HEADER_LEN in *. simpl in *. lia.
Qed.

Lemma append_inv_room b0 b ws :
  append_inv b0 (mkAppending b ws) -> b_max_entries b0 = b_capacity b0 / HEADER_LEN ->
  length ws <= b_max_entries b.
Proof.
  intros [(S1 & S2 & S3) I2 I3 I4 I5 I6 I7 I8] Hm. cbn [a_buf a_writers] in *.
  rewrite S3, Hm. apply Nat.div_le_lower_bound; [by unfold HEADER_LEN|].
  apply (apart_count ws 0); [done| |lia]. eapply Forall_impl; [exact I8|]. intros v [[Hv _] _ _ _]. lia.
Qed.

Lemma slots_allocated b0 a : append_inv b0 a -> length (slots (a_writers a)) = b_entries_allocated (a_buf a).
Proof. intros Hi. rewrite (ai_slots _ _ Hi). apply length_seq. Qed.

(** A claim of a slot by a writer that holds a range never fails. *)
Lemma claim_slot_ok b0 b ws1 ws2 payload pos :
  append_inv b0 (mkAppending b (ws1 ++ mkWriter payload pos None Claimed :: ws2)) ->
  b_max_entries b0 = b_capacity b0 / HEADER_LEN ->
  claim_slot b = Ok (b_entries_allocated b, set_allocated b (b_entries_allocated b + 1)).
Proof.
  intros Hi Hm. pose proof (append_inv_room _ _ _ Hi Hm) as Hroom. pose proof (slots_allocated _ _ Hi) as Hs.
  cbn [a_buf a_writers] in Hs. rewrite slots_middle in Hs. simpl in Hs. rewrite length_app in Hs.
  pose proof (slots_le ws1). pose proof (slots_le ws2). rewrite length_app in Hroom. simpl in Hroom.
  unfold claim_slot. rewrite bool_decide_true by lia. done.
Qed.

Lemma step_slot_inv b0 b b' ws1 ws2 payload pos idx :
  append_inv b0 (mkAppending b (ws1 ++ mkWriter payload pos None Claimed :: ws2)) ->
  claim_slot b = Ok (idx, b') ->
  append_inv b0 (mkAppending b' (ws1 ++ mkWriter payload pos (Some idx) Slotted :: ws2)).
Proof.
  intros [I1 I2 I3 I4 I5 I6 I7 I8] Hc. cbn [a_buf a_writers] in *. unfold claim_slot in Hc.
  destruct (bool_decide _); simpl in Hc; [|done]. injection Hc as <- <-.
  change (length (filter _ (ws1 ++ mkWriter payload pos None Claimed :: ws2)))
    with (barrier_count (ws1 ++ mkWriter payload pos None Claimed :: ws2)) in I7. rewrite barrier_middle in I7.
  rewrite slots_middle in I6. simpl in I6.
  split; cbn [a_buf a_writers]; simpl; try done.
  - by eapply apart_replace; [|exact I5].
  - rewrite slots_middle. simpl. rewrite Nat.add_1_r, seq_S. simpl.
    rewrite <- Permutation_middle, I6. by rewrite Permutation_app_comm.
  - change (length (filter _ (ws1 ++ mkWriter payload pos (Some (b_entries_allocated b)) Slotted :: ws2)))
      with (barrier_count (ws1 ++ mkWriter payload pos (Some (b_entries_allocated b)) Slotted :: ws2)).
    by rewrite barrier_middle.
  - apply Forall_app in I8 as [F1 F2]. apply Forall_cons in F2 as [Fw F2].
    apply Forall_app. split; [|apply Forall_cons; split].
    + eapply Forall_impl; [exact F1|]. intros v Hv. by eapply writer_inv_ext; [..|exact Hv].
    + destruct Fw as [R _ _ _]. split; simpl; try done.
    + eapply Forall_impl; [exact F2|]. intros v Hv. by eapply writer_inv_ext; [..|exact Hv].
Qed.

(** Two writers never hold the same slot. *)
Lemma slot_distinct b0 b ws1 w ws2 v idx :
  append_inv b0 (mkAppending b (ws1 ++ w :: ws2)) -> w_slot w = Some idx -> v ∈ ws1 ++ ws2 -> w_slot v <> Some idx.
Proof.
  intros Hi Hw Hv Hs. pose proof (ai_slots _ _ Hi) as Hp. cbn [a_buf a_writers] in Hp.
  rewrite slots_middle, Hw in Hp. simpl in Hp. rewrite <- Permutation_middle in Hp.
  assert (NoDup (idx :: slots ws1 ++ slots ws2)) as Hnd by (rewrite Hp; apply NoDup_seq).
  apply NoDup_cons in Hnd as [Hn _]. apply Hn. unfold slots. rewrite <- omap_app. apply list_elem_of_omap. eauto.
Qed.

Lemma step_copy_inv b0 b ws1 ws2 payload pos idx :
  append_inv b0 (mkAppending b (ws1 ++ mkWriter payload pos (Some idx) InFlight :: ws2)) ->
  append_inv b0 (mkAppending (set_data b (write_at (b_data b) pos (writer_frame b idx payload)))
                   (ws1 ++ mkWriter payload pos (Some idx) Copied :: ws2)).
Proof.
  intros Hi. pose proof (ai_apart _ _ Hi) as Hap. apply apart_split in Hap as [Hb Ha].
  pose proof (ai_writers _ _ Hi) as Hws. cbn [a_buf a_writers] in *. apply Forall_app in Hws as [F1 F2].
  apply Forall_cons in F2 as [[[Rw _] _ _ _] F2].
  pose proof (ai_data_len _ _ Hi) as Hdl. destruct (ai_static _ _ Hi) as (_ & Hcap & _). cbn [a_buf] in *.
  assert (length (writer_frame b idx payload) = HEADER_LEN + length payload) as Hfl by apply length_encode_frame.
  unfold w_end in Rw. cbn [w_pos w_payload] in Rw.
  eapply append_inv_replace; [exact Hi|..]; simpl; try done.
  - rewrite length_write_at, Hfl. lia.
  - intros v Hv Hvi. eapply writer_inv_ext; [..|exact Hvi]; cbn [b_data set_data]; try done.
    destruct Hvi as [[Rv _] _ _ _]. unfold w_end in Rv. apply elem_of_app in Hv as [Hv|Hv].
    + apply read_write_before; [by apply Hb|lia].
    + apply read_write_after. rewrite Hfl. by apply (Ha v).
  - intros [R S D E]. split; cbn [w_slot w_stage w_pos w_payload b_data set_data]; try done.
    intros i [= <-] _. rewrite <- Hfl. by rewrite read_write_same.
Qed.

Lemma step_store_inv b0 b ws1 ws2 payload pos idx word :
  append_inv b0 (mkAppending b (ws1 ++ mkWriter payload pos (Some idx) Copied :: ws2)) ->
  (Z.of_nat (b_capacity b0) <= u32_max)%Z ->
  pack (Z.of_nat pos) (Z.of_nat (HEADER_LEN + length payload) mod 2 ^ 32)%Z = Ok word -> idx < length (b_entries b) ->
  append_inv b0 (mkAppending (set_entries b (<[idx := word]> (b_entries b)))
                   (ws1 ++ mkWriter payload pos (Some idx) Stored :: ws2)).
Proof.
  intros Hi Hcap Hpk Hlt. pose proof (ai_writers _ _ Hi) as Hws. cbn [a_buf a_writers] in *.
  apply Forall_app in Hws as [_ F2]. apply Forall_cons in F2 as [[[Rw _] _ _ _] _]. unfold w_end in Rw. cbn [w_pos w_payload] in Rw.
  destruct (ai_static _ _ Hi) as (_ & Hc & _). cbn [a_buf] in *.
  rewrite Z.mod_small in Hpk by (unfold u32_max in Hcap; lia).
  destruct (pack_unpack (Z.of_nat pos) (Z.of_nat (HEADER_LEN + length payload))) as (v & Hv & _ & Hu);
    [unfold is_u32; lia..|]. rewrite Hpk in Hv. injection Hv as <-.
  eapply append_inv_replace; [exact Hi|..]; simpl; try done.
  - len.
  - intros v Hin Hvi. eapply writer_inv_ext; [..|exact Hvi]; try done.
    intros j Hj. simpl. rewrite list_lookup_insert_ne; [done|]. intros <-. by eapply slot_distinct in Hin.
  - intros [R S D E]. split; cbn [w_slot w_stage w_pos w_payload b_entries set_entries] in *; try done.
    intros i [= <-] _. exists word. by rewrite list_lookup_insert_eq.
Qed.

Lemma writer_inv_in_flight b n v : writer_inv b v -> writer_inv (set_in_flight b n) v.
Proof. intros Hv. by eapply writer_inv_ext; [..|exact Hv]. Qed.

Lemma append_step_inv b0 a a' :
  buffer_fresh b0 -> append_inv b0 a -> append_step a a' -> append_inv b0 a'.
Proof.
  intros (_ & _ & _ & _ & _ & _ & Hcap) Hi Hs. destruct Hs.
  - by apply (step_claim_inv _ _ _ _ _ _ Hi) in H1.
  - by apply (step_claim_inv _ _ _ _ _ _ Hi) in H1.
  - by eapply step_slot_inv.
  - eapply append_inv_replace; [exact Hi|..]; try done.
    + intros v _. apply writer_inv_in_flight.
    + intros [R S D E]. by split.
  - by apply step_copy_inv.
  - by eapply step_store_inv.
  - eapply append_inv_replace; [exact Hi|..]; try done.
    + pose proof (ai_in_flight _ _ Hi) as Hf. cbn [a_buf a_writers] in Hf.
      change (length (filter _ (ws1 ++ mkWriter payload pos (Some idx) Stored :: ws2)))
        with (barrier_count (ws1 ++ mkWriter payload pos (Some idx) Stored :: ws2)) in Hf.
      rewrite barrier_middle in Hf. simpl in *. lia.
    + intros v _. apply writer_inv_in_flight.
    + intros [R S D E]. by split.
Qed.

Lemma append_reachable_inv b0 a : buffer_fresh b0 -> append_reachable b0 a -> append_inv b0 a.
Proof.
  intros Hf. induction 1 as [|a a' _ IH Hs]; [|by eapply append_step_inv].
  destruct Hf as (H1 & H2 & H3 & H4 & H5 & H6 & H7). split; simpl; try done; [lia|constructor|by rewrite H2].
Qed.

(** ** What appends guarantee *)

(** C28: Concurrent appends never overlap while a buffer is in use, from one reset
    to the next: in every state reachable from a fresh buffer the claimed byte
    ranges are pairwise disjoint and inside the buffer, no two writers
    hold the same slot (so no two get the same LSN), and a writer that holds
    a range always gets a slot, so the assertion of [claim_slot] cannot fail. *)
Theorem appends_disjoint b0 a :
  buffer_fresh b0 -> append_reachable b0 a ->
  (forall i j v w, a_writers a !! i = Some v -> a_writers a !! j = Some w -> i < j -> w_end v <= w_pos w)
  /\ Forall (fun w => w_end w <= b_capacity b0) (a_writers a)
  /\ NoDup (slots (a_writers a))
  /\ (forall payload pos, mkWriter payload pos None Claimed ∈ a_writers a ->
        exists b', claim_slot (a_buf a) = Ok (b_entries_allocated (a_buf a), b')).
Proof.
  intros Hf Hr. pose proof (append_reachable_inv _ _ Hf Hr) as Hi. split_and!.
  - intros i j v w Hv Hw Hij. apply list_elem_of_split_length in Hw as (l1 & l2 & He & ->).
    pose proof (ai_apart _ _ Hi) as Hap. rewrite He in Hap, Hv. apply apart_split in Hap as [Hb _]. apply Hb.
    rewrite lookup_app_l in Hv by done. by eapply list_elem_of_lookup_2.
  - destruct (ai_static _ _ Hi) as (_ & Hc & _). eapply Forall_impl; [apply (ai_writers _ _ Hi)|].
    intros w [[Hw _] _ _ _]. by rewrite <- Hc.
  - rewrite (ai_slots _ _ Hi). apply NoDup_seq.
  - intros payload pos Hin. apply list_elem_of_split in Hin as (l1 & l2 & He). destruct a as [b ws]. simpl in *. subst ws.
    destruct Hf as (_ & _ & _ & _ & Hm & _). rewrite (claim_slot_ok _ _ _ _ _ _ Hi Hm). eauto.
Qed.

(** A buffer whose slots hold the frames of [payloads], with consecutive LSNs. *)
Definition slot_holds (b : WalBuffer) (i : nat) (p : bytes) : Prop :=
  exists pos word, b_entries b !! i = Some word
    /\ unpack word = (Z.of_nat pos, Z.of_nat (HEADER_LEN + length p))
    /\ pos + (HEADER_LEN + length p) <= b_capacity b
    /\ read_at (b_data b) pos (HEADER_LEN + length p) = writer_frame b i p.

Definition buffer_holds (b : WalBuffer) (payloads : list bytes) : Prop :=
  b_count b = length payloads /\ length (b_data b) = b_capacity b /\ (Z.of_nat (b_capacity b) <= u32_max)%Z
  /\ forall i p, payloads !! i = Some p -> slot_holds b i p.

Lemma same_slot b0 a v w i :
  append_inv b0 a -> v ∈ a_writers a -> w ∈ a_writers a -> w_slot v = Some i -> w_slot w = Some i -> v = w.
Proof.
  intros Hi Hv Hw Hvs Hws. apply list_elem_of_split in Hw as (l1 & l2 & He). destruct a as [b ws]. simpl in *. subst ws.
  assert (v ∉ l1 ++ l2) as Hn by (intros Hin; by destruct (slot_distinct _ _ _ _ _ _ _ Hi Hws Hin)).
  rewrite elem_of_app in Hn. rewrite elem_of_app, elem_of_cons in Hv. tauto.
Qed.

Lemma slot_owner b0 a i :
  append_inv b0 a -> i < b_entries_allocated (a_buf a) -> exists w, w ∈ a_writers a /\ w_slot w = Some i.
Proof.
  intros Hi Hlt. assert (i ∈ slots (a_writers a)) as Hin.
  { rewrite (ai_slots _ _ Hi). apply elem_of_seq. lia. }
  unfold slots in Hin. apply list_elem_of_omap in Hin as (w & ? & ?). eauto.
Qed.

Lemma quiescent_holds b0 a :
  buffer_fresh b0 -> append_reachable b0 a -> Forall (fun w => w_stage w = Returned) (a_writers a) ->
  exists payloads, buffer_holds (freeze (a_buf a)) payloads
    /\ forall w, w ∈ a_writers a -> exists idx, w_slot w = Some idx /\ payloads !! idx = Some (w_payload w).
Proof.
  intros Hf Hr Hret. pose proof (append_reachable_inv _ _ Hf Hr) as Hi.
  pose proof (ai_writers _ _ Hi) as Hws. rewrite Forall_forall in Hret, Hws.
  assert (Forall (fun i => exists p, exists w, w ∈ a_writers a /\ w_slot w = Some i /\ p = w_payload w)
            (seq 0 (b_entries_allocated (a_buf a)))) as Hex.
  { apply Forall_forall. intros i Hin. apply elem_of_seq in Hin.
    destruct (slot_owner _ _ i Hi) as (w & ? & ?); [lia|]. eauto. }
  apply Forall_exists_Forall2_l in Hex as (ps & HF2). exists ps.
  assert (forall i p, ps !! i = Some p -> exists w, w ∈ a_writers a /\ w_slot w = Some i /\ p = w_payload w) as Hps.
  { intros i p Hp. destruct (Forall2_lookup_r _ _ _ _ _ HF2 Hp) as (j & Hj & Hw).
    apply lookup_seq in Hj as [-> _]. done. }
  pose proof (Forall2_length _ _ _ HF2) as Hlen. rewrite length_seq in Hlen.
  destruct (ai_static _ _ Hi) as (Hm & Hc & _). split; [split_and!; simpl|].
  - done.
  - rewrite Hc. apply (ai_data_len _ _ Hi).
  - rewrite Hc. apply Hf.
  - intros i p Hp. destruct (Hps i p Hp) as (w & Hin & Hs & ->). destruct (Hws w Hin) as [[Rw _] _ D E].
    pose proof (Hret w Hin) as Hst. rewrite Hst in D, E. destruct (E i Hs eq_refl) as (word & Hword & Hu).
    exists (w_pos w), word. split_and!; [done|done|done|by apply D].
  - intros w Hin. assert (is_Some (w_slot w)) as [idx Hidx].
    { destruct (w_slot w) eqn:Hs; [done|]. destruct (Hws w Hin) as [_ [Hc1 _] _ _]. rewrite (Hret w Hin) in Hc1.
      by specialize (Hc1 Hs). }
    exists idx. split; [done|]. assert (idx < length ps) as Hlt.
    { rewrite <- Hlen. assert (idx ∈ slots (a_writers a)) as Hin' by (apply list_elem_of_omap; eauto).
      rewrite (ai_slots _ _ Hi) in Hin'. apply elem_of_seq in Hin'. lia. }
    destruct (lookup_lt_is_Some_2 _ _ Hlt) as [p Hp]. rewrite Hp.
    destruct (Hps idx p Hp) as (v & Hv & Hvs & ->). by rewrite (same_slot _ _ _ _ _ Hi Hv Hin Hvs Hidx).
Qed.

(** Once every writer has returned, a frozen buffer holds exactly the appended
    payloads: slot [i] points at an intact frame with LSN [min_lsn + i], and
    every append's payload sits at the LSN it was given. *)
Theorem quiescent_buffer_holds b0 a :
  buffer_fresh b0 -> append_reachable b0 a -> Forall (fun w => w_stage w = Returned) (a_writers a) ->
  exists payloads, buffer_holds (freeze (a_buf a)) payloads
    /\ forall w, w ∈ a_writers a -> exists idx, w_slot w = Some idx /\ payloads !! idx = Some (w_payload w).
Proof. apply quiescent_holds. Qed.
End Append.

(** *** Witnesses and a race *)

Definition demo_buffer : WalBuffer := wal_buffer_new (replicate 64 Byte.x00) 7 0.

Lemma demo_buffer_fresh : buffer_fresh demo_buffer.
Proof. by split_and!. Qed.

(** One writer after its range and its slot were claimed. *)
Definition demo_slotted : Appending :=
  mkAppending (set_allocated (set_write_pos demo_buffer 18) 1) [mkWriter demo_payload 0 (Some 0) Slotted].

Lemma demo_slotted_reachable : @append_reachable demo_crc demo_buffer demo_slotted.
Proof.
  eapply append_more; [eapply append_more; [apply append_start|]|].
  - apply (@step_claim demo_crc demo_buffer (set_write_pos demo_buffer 18) [] demo_payload 0); [vm_compute; discriminate|].
    vm_compute. reflexivity.
  - apply (@step_slot demo_crc _ _ [] [] demo_payload 0 0). vm_compute. reflexivity.
Qed.

(** Between [claim_slot] and the increment of [in_flight] the swap's barrier does
    not see the writer: the buffer can be frozen with a slot that was never
    stored, whose word reads as the empty frame [(0, 0)]. *)
Theorem swap_misses_claimed_slot :
  exists a, @append_reachable demo_crc demo_buffer a
    /\ b_in_flight (a_buf a) = 0 /\ b_count (freeze (a_buf a)) = 1
    /\ unpack <$> b_entries (freeze (a_buf a)) !! 0 = Some (0%Z, 0%Z).
Proof. exists demo_slotted. split; [exact demo_slotted_reachable|]. vm_compute. auto. Qed.

Lemma appends_disjoint_witness : NoDup (slots (a_writers demo_slotted)).
Proof.
  destruct (@appends_disjoint demo_crc demo_buffer demo_slotted demo_buffer_fresh demo_slotted_reachable)
    as (_ & _ & H & _). exact H.
Defined.

(** The same writer run to its end. *)
Definition demo_word : Z := 18.
Definition demo_b1 : WalBuffer := set_in_flight (a_buf demo_slotted) (b_in_flight (a_buf demo_slotted) + 1).
Definition demo_b2 : WalBuffer := set_data demo_b1 (write_at (b_data demo_b1) 0 (@writer_frame demo_crc demo_b1 0 demo_payload)).
Definition demo_b3 : WalBuffer := set_entries demo_b2 (<[0 := demo_word]> (b_entries demo_b2)).
Definition demo_b4 : WalBuffer := set_in_flight demo_b3 (b_in_flight demo_b3 - 1).
Definition demo_returned : Appending := mkAppending demo_b4 [mkWriter demo_payload 0 (Some 0) Returned].

Lemma demo_returned_reachable : @append_reachable demo_crc demo_buffer demo_returned.
Proof.
  eapply append_more; [eapply append_more; [eapply append_more; [eapply append_more; [exact demo_slotted_reachable|]|]|]|].
  - exact (@step_enter demo_crc (a_buf demo_slotted) [] [] demo_payload 0 0).
  - exact (@step_copy demo_crc demo_b1 [] [] demo_payload 0 0).
  - apply (@step_store demo_crc demo_b2 [] [] demo_payload 0 0 demo_word); [vm_compute; reflexivity|vm_compute; lia].
  - exact (@step_leave demo_crc demo_b3 [] [] demo_payload 0 0).
Qed.

Lemma quiescent_buffer_holds_witness :
  exists payloads, @buffer_holds demo_crc (freeze (a_buf demo_returned)) payloads
    /\ forall w, w ∈ a_writers demo_returned -> exists idx, w_slot w = Some idx /\ payloads !! idx = Some (w_payload w).
Proof.
  apply (@quiescent_buffer_holds demo_crc demo_buffer demo_returned demo_buffer_fresh demo_returned_reachable).
  by repeat constructor.
Defined.
