(* ===== verification/WalIndexFile.v ===== *)
(** The index file of a segment: the O_DIRECT writers (wal/odirect_writer.rs),
    sealing a segment's index into an SST (wal/impl.rs, [finalize_segment]) and
    opening it again (wal/iter.rs, [from_sealed_segment]). *)

From stdpp Require Import base strings numbers list sorting.
From S2P Require Import Prelude.
From S2P Require Import Errors.
From S2P Require Import WalFrame.
From S2P Require Import WalFile.
From S2P Require Import WalClock.
From S2P Require Import WalMeta.
From S2P Require Import Block.
From S2P Require Import BlockBuilder.
From S2P Require Import Iter.
From S2P Require Import EntryDecode.
From S2P Require Import SstFooter.
From S2P Require Import SstBuilder.
From S2P Require Import SstTree.
From S2P Require Import SstIter.
From S2P Require Import SstRoundTrip.
From S2P Require Import MemTable.
From S2P Require Import DiskManager.
From S2P Require Import LsmStore.
From S2P Require Import LsmRefine.

(** ** The writers *)

Record SegmentIndexBlockWriter := mkIndexWriter {
  iw_file : FileState;
  iw_block_size : nat;
  iw_next_offset : Z;
}.

(** [SegmentIndexBlockWriter::create]: the file is opened as it is, not
    truncated. *)
Definition index_writer_create (file : FileState) (block_size : nat) : SegmentIndexBlockWriter :=
  mkIndexWriter file block_size 0.

(** [SegmentIndexBlockWriter::file_size]. *)
Definition index_writer_file_size (self : SegmentIndexBlockWriter) : Z := iw_next_offset self.

(** [SegmentIndexBlockWriter::sync_all]. *)
Definition index_writer_sync_all (self : SegmentIndexBlockWriter) : StorageResult SegmentIndexBlockWriter :=
  let (r, f) := WalFile.fdatasync_fd (iw_file self) in
  map_err storage_error_of_wal r ;;;
  Ok (mkIndexWriter f (iw_block_size self) (iw_next_offset self)).

(** [SegmentIndexBlockWriter::write_block]. *)
Definition index_writer_write_block (self : SegmentIndexBlockWriter) (data : bytes)
  : StorageResult (Position * SegmentIndexBlockWriter) :=
  rassert (bool_decide (length data = iw_block_size self)) ;;;
  block <-- map_err storage_error_of_wal (aligned_zeroed (iw_block_size self) (iw_block_size self)) ;;
  rassert (bool_decide (length block = length data)) ;;;
  let block := data in
  let pos := mkPosition (iw_next_offset self) in
  let (r, f) := pwrite_all (iw_file self) block (Z.to_nat (iw_next_offset self)) in
  map_err storage_error_of_wal r ;;;
  next <-- u64_add (iw_next_offset self) (Z.of_nat (iw_block_size self)) ;;
  Ok (pos, mkIndexWriter f (iw_block_size self) next).

Record ODirectSstWriter := mkODirectSstWriter {
  ow_inner : SegmentIndexBlockWriter;
  ow_block_size : nat;
}.

(** [ODirectSstWriter::new] and [into_inner]. *)
Definition odirect_sst_writer_new (inner : SegmentIndexBlockWriter) (option : SstOption) : ODirectSstWriter :=
  mkODirectSstWriter inner (block_size option).
Definition odirect_into_inner (self : ODirectSstWriter) : SegmentIndexBlockWriter := ow_inner self.

(** [ODirectSstWriter::write_block]. *)
Definition odirect_write_block (self : ODirectSstWriter) (data : bytes)
  : StorageResult (Position * ODirectSstWriter) :=
  let! (pos, inner) := index_writer_write_block (ow_inner self) data in
  Ok (pos, mkODirectSstWriter inner (ow_block_size self)).

(** [ODirectSstWriter::write_footer]. *)
Definition odirect_write_footer (self : ODirectSstWriter) (footer : SstFooter)
  : StorageResult (Position * ODirectSstWriter) :=
  let encoded := footer_encode footer in
  let n := length encoded in
  rassert (bool_decide (4 <= n /\ n <= ow_block_size self)) ;;;
  let body_len := n - 4 in
  block <-- map_err storage_error_of_wal (aligned_zeroed (ow_block_size self) (ow_block_size self)) ;;
  let block := splice block 0 (take body_len encoded) in
  let trailer_off := ow_block_size self - 4 in
  let block := splice block trailer_off (drop body_len encoded) in
  let! (pos, inner) := index_writer_write_block (ow_inner self) block in
  Ok (pos, mkODirectSstWriter inner (ow_block_size self)).

#[export] Instance ODirectSstWriter_writer : SstWriter ODirectSstWriter :=
  {| sst_write_block := odirect_write_block; sst_write_footer := odirect_write_footer |}.

(** ** They keep the promises of an SST writer *)

(** The footer block: body, padding, trailer. *)
Definition footer_block (bs : nat) (f : SstFooter) : bytes :=
  footer_body f ++ replicate (bs - 4 - length (footer_body f)) Byte.x00
  ++ be_bytes 4 (Z.of_nat (length (footer_body f))).

Lemma write_at_end img data : write_at img (length img) data = img ++ data.
Proof.
  unfold write_at. rewrite take_ge, Nat.sub_diag, drop_ge by lia. simpl. by rewrite app_nil_r.
Qed.

Definition odirect_ready (bs : nat) (w : ODirectSstWriter) : Prop :=
  f_script (iw_file (ow_inner w)) = []
  /\ iw_next_offset (ow_inner w) = Z.of_nat (length (contents (iw_file (ow_inner w))))
  /\ iw_block_size (ow_inner w) = bs /\ ow_block_size w = bs
  /\ is_power_of_two (Z.of_nat bs) = true /\ (2 * Z.of_nat bs <= 2 ^ 63)%Z.

Lemma odirect_write_block_ok bs w data :
  odirect_ready bs w -> length data = bs ->
  (Z.of_nat (length (contents (iw_file (ow_inner w))) + bs) <= u64_max)%Z ->
  exists w', odirect_write_block w data
             = Ok (mkPosition (Z.of_nat (length (contents (iw_file (ow_inner w))))), w')
    /\ odirect_ready bs w' /\ contents (iw_file (ow_inner w')) = contents (iw_file (ow_inner w)) ++ data.
Proof.
  intros (Hs & Hn & Hb & Ho & Hp & Hm) Hl Hfit. unfold odirect_write_block, index_writer_write_block.
  rewrite Hb, bool_decide_true by done. unfold aligned_zeroed. rewrite Hp, decide_True by lia.
  cbn [rassert rbind map_err]. rewrite bool_decide_true by len. cbn [rassert rbind].
  assert (data <> []) as Hne.
  { intros ->. simpl in Hl. apply is_power_of_two_spec in Hp as (k & Hk & He).
    pose proof (Z.pow_pos_nonneg 2 k). lia. }
  rewrite Hn, Nat2Z.id.
  destruct (pwrite_all_healthy (iw_file (ow_inner w)) data (length (contents (iw_file (ow_inner w)))) Hs Hne)
    as (f' & -> & Hs' & Hc & _).
  cbn [map_err rbind]. unfold u64_add. rewrite decide_True by lia. cbn [rbind]. rewrite write_at_end in Hc.
  eexists. split; [done|]. split; [|done]. split_and!; simpl; try done. rewrite Hc. len.
Qed.

Lemma splice_footer bs f :
  length (footer_encode f) <= bs ->
  splice (splice (replicate bs Byte.x00) 0 (take (length (footer_encode f) - 4) (footer_encode f))) (bs - 4)
    (drop (length (footer_encode f) - 4) (footer_encode f)) = footer_block bs f.
Proof.
  unfold footer_encode, footer_block. intros Hl. rewrite length_app, length_be_bytes in *.
  replace (length (footer_body f) + 4 - 4) with (length (footer_body f)) by lia.
  rewrite take_app_length, drop_app_length. unfold splice. rewrite take_0. simpl.
  rewrite drop_replicate, length_be_bytes. rewrite take_app, take_ge by lia.
  rewrite take_replicate, (drop_ge (_ ++ _)) by len. rewrite app_nil_r, <- app_assoc. do 2 f_equal. f_equal. lia.
Qed.

#[export] Program Instance ODirectSstWriter_laws : SstWriterLaws ODirectSstWriter := {|
  sw_target w := contents (iw_file (ow_inner w));
  sw_ready := odirect_ready;
  sw_footer_image := footer_block;
  sw_footer_fits bs f := length (footer_encode f) <= bs;
|}.
Next Obligation. intros bs w data Hr Hl Hfit. by apply odirect_write_block_ok. Qed.
Next Obligation.
  intros bs w f Hr Hff Hfit. simpl. unfold odirect_write_footer. pose proof Hr as (_ & _ & _ & Ho & Hp & Hm).
  assert (length (footer_block bs f) = bs) as Hlb.
  { unfold footer_block. unfold footer_encode in Hff. rewrite length_app, length_be_bytes in Hff. len. }
  rewrite Ho, bool_decide_true by (split; [rewrite length_footer_encode; unfold MIN_LEN; lia|done]).
  unfold aligned_zeroed. rewrite Hp, decide_True by lia. cbn [rassert rbind map_err]. rewrite splice_footer by done.
  destruct (odirect_write_block_ok bs w (footer_block bs f) Hr Hlb) as (w' & Hw & Hr' & Hc); [by rewrite Hlb in Hfit|].
  unfold odirect_write_block in Hw. destruct (index_writer_write_block _ _) as [[pos inner]| |]; [|done..].
  cbn [rbind] in Hw |- *. rewrite Ho in Hw. injection Hw as -> Hw. eexists _, _. split; [done|]. by rewrite Hw.
Qed.

(** The last block of an index file decodes to its footer. *)
Lemma footer_block_decode bs f :
  footer_wf f -> length (footer_encode f) <= bs -> footer_decode (footer_block bs f) = Ok f.
Proof.
  intros Hwf Hl. pose proof (footer_decode_body f Hwf) as (F1 & F2 & F3 & F4 & F5 & F6).
  pose proof Hwf as (_ & _ & Hlen). unfold u32_max in Hlen. pose proof (length_footer_body f) as Hb.
  unfold footer_encode in Hl. rewrite length_app, length_be_bytes in Hl.
  unfold footer_decode, footer_block. set (pad := replicate _ _).
  assert (length pad = bs - 4 - length (footer_body f)) as Hpad by (unfold pad; len).
  rewrite decide_False by len. rewrite app_assoc.
  rewrite (field_be_tail (footer_body f ++ pad) (be_bytes 4 (Z.of_nat (length (footer_body f)))) _ _
             (Z.of_nat (length (footer_body f))) 4); [|len|len|done|rewrite Hb; lia].
  cbn [rbind]. rewrite Nat2Z.id, decide_False by len. rewrite <- app_assoc.
  rewrite slice_head by done. cbn [rbind].
  rewrite decide_False by lia. rewrite F1, F2, F3, F4. cbn [rbind].
  rewrite !Nat2Z.id, decide_False by lia. rewrite F5, F6. cbn [rbind].
  by destruct f as [[off] h fk lk].
Qed.

(** ** Sealing *)

(** [Result::expect]: an error unwinds. *)
Definition expect {E F A : Type} (r : res E A) : res F A :=
  match r with Ok a => Ok a | _ => Panic end.

Section Seal.
Context {M : Type} `{OrderedMapLaws M}.

(** The SST part of [FlushState::finalize_segment]: drain the index table into
    the [.idx] file and sync it. Every error is an [expect]. *)
Definition seal_index (bs : nat) (idx : FileState) (mem : MemTable M) : WalResult FileState :=
  let option := mkSstOption bs in
  let writer := index_writer_create idx bs in
  let builder := sst_builder_new (odirect_sst_writer_new writer option) option in
  it <-- expect (seek_to_first Fwd (memtable_iter mem)) ;;
  builder <-- expect (feed (memtable_len mem + 1) it builder) ;;
  let! (_footer, sst_writer) := expect (sst_finish builder) in
  w <-- expect (index_writer_sync_all (odirect_into_inner sst_writer)) ;;
  Ok (iw_file w).

Lemma seal_index_build bs idx (mem : MemTable M) :
  seal_index bs idx mem =
  (let! (_footer, sst_writer) :=
     expect (sst_build (odirect_sst_writer_new (index_writer_create idx bs) (mkSstOption bs)) (mkSstOption bs)
       (block_entry <$> mem_layer mem)) in
   w <-- expect (index_writer_sync_all (odirect_into_inner sst_writer)) ;;
   Ok (iw_file w)).
Proof.
  unfold seal_index, sst_build.
  assert (seekable Fwd (memtable_iter mem) (mem_layer mem)) as Hs by done.
  destruct (seek_to_first_ok _ _ Hs) as (it & -> & Hat).
  cbn [expect rbind ord] in *.
  rewrite (feed_ok _ _ _ _ _ Hat) by (unfold memtable_len; rewrite om_len_ok; unfold mem_layer; lia).
  by destruct (rfold _ _ _).
Qed.

(** The entries of the index fit the format and the footer fits a block. *)
Definition index_fits (bs : nat) (l : layer) : Prop :=
  table_fits bs l /\ is_power_of_two (Z.of_nat bs) = true
  /\ MIN_LEN + length (default [] (fst <$> head l)) + length (default [] (fst <$> last l)) <= bs.

Lemma index_build_fits bs idx l :
  index_fits bs l -> f_script idx = [] -> contents idx = [] ->
  build_fits (mkSstOption bs) (odirect_sst_writer_new (index_writer_create idx bs) (mkSstOption bs)) (block_entry <$> l).
Proof.
  intros ((Hbs & Hbs2 & Hfit & Hroom & Hn) & Hp & Hfoot) Hs Hc. unfold u32_max, u64_max in *.
  split_and!; try done.
  - split_and!; simpl; try done; [by rewrite Hc|lia].
  - simpl. unfold u32_max. lia.
  - intros f Hf Hl. assert (length (footer_encode f) <= bs) as Hle.
    { rewrite length_footer_encode, Hf, Hl, first_entry_key, last_entry_key. done. }
    split; [done|]. simpl sw_target. rewrite Hc.
    change (sw_footer_image _ _ f) with (footer_block bs f).
    assert (length (footer_block bs f) = bs) as ->.
    { unfold footer_encode in Hle. rewrite length_app, length_be_bytes in Hle. unfold footer_block. len. }
    rewrite length_fmap. unfold u64_max. simpl block_size. simpl length. nia.
  - by rewrite length_fmap.
Qed.

Lemma sealed_index_spec {R} `{BlockReaderLaws R} bs idx (mem : MemTable M) :
  index_fits bs (mem_layer mem) -> f_script idx = [] -> contents idx = [] ->
  exists idx' footer, seal_index bs idx mem = Ok idx'
    /\ f_pending idx' = [] /\ bs <= length (f_durable idx')
    /\ footer_decode (drop (length (f_durable idx') - bs) (f_durable idx')) = Ok footer
    /\ forall (r : R), br_source r = f_durable idx' -> reader_block_size r = bs ->
         exists it, seek_to_first Fwd (sst_iter_new r footer) = Ok it
                 /\ forall fuel, length (mem_layer mem) <= fuel -> drain Fwd fuel it = Ok (map_kv <$> mem_layer mem).
Proof.
  intros Hfit Hs Hc. rewrite seal_index_build. pose proof (index_build_fits bs idx _ Hfit Hs Hc) as Hbf.
  destruct (sst_build_ok _ _ _ Hbf) as (footer & w & G & Hb & Ht & _ & Hh & Hu & Hf & Hl & Hr).
  rewrite Hb. cbn [expect rbind]. unfold index_writer_sync_all, odirect_into_inner, WalFile.fdatasync_fd, next_sys.
  pose proof Hr as (Hsw & _). rewrite Hsw. cbn [map_err rbind expect].
  change (sw_target w) with (contents (iw_file (ow_inner w))) in *.
  change (sw_footer_image _ _ footer) with (footer_block bs footer) in *.
  pose proof Hfit as ((_ & Hbs2 & _) & _ & Hfoot). rewrite first_entry_key in Hf. rewrite last_entry_key in Hl.
  assert (length (footer_encode footer) <= bs) as Hle by (rewrite length_footer_encode, Hf, Hl; done).
  assert (length (footer_block bs footer) = bs) as Hlb.
  { unfold footer_encode in Hle. rewrite length_app, length_be_bytes in Hle. unfold footer_block. len. }
  eexists _, footer. split_and!; [done|done| | |]; cbn [f_durable iw_file].
  - rewrite Ht. len.
  - rewrite Ht, length_app, Hlb. rewrite drop_app_length' by lia. apply footer_block_decode; [|done].
    split_and!; try apply Hu; try apply Hh. rewrite Hf, Hl. unfold u32_max, MIN_LEN in *. lia.
  - intros r Hsrc Hrbs. rewrite <- kvs_block_entry.
    assert (ksorted (kvs (block_entry <$> mem_layer mem))) as Hsorted.
    { rewrite kvs_block_entry. apply ksorted_map_kv, om_sorted. }
    destruct (seek_to_first_ok _ _ (built_seekable _ _ _ footer w r Hbf Hsorted Hb (conj Hsrc Hrbs) Fwd)) as (it & Hit & Hat).
    exists it. split; [done|]. intros fuel Hfuel. eapply drain_ok; [exact Hat|]. simpl. rewrite kvs_block_entry. len.
Qed.

(** C33: Sealing a segment's index into a new [.idx] file, on a device that works
    and within the sizes the format can hold ([index_fits]), writes a complete,
    durable SST: its last block decodes to the footer, and a scan of the file
    with that footer, through any block reader, returns every index entry in LSN
    order and then ends. *)
Theorem sealed_index_roundtrip {R} `{BlockReaderLaws R} bs idx (mem : MemTable M) :
  index_fits bs (mem_layer mem) -> f_script idx = [] -> contents idx = [] ->
  exists idx' footer, seal_index bs idx mem = Ok idx'
    /\ f_pending idx' = [] /\ bs <= length (f_durable idx')
    /\ footer_decode (drop (length (f_durable idx') - bs) (f_durable idx')) = Ok footer
    /\ forall (r : R), br_source r = f_durable idx' -> reader_block_size r = bs ->
         exists it, seek_to_first Fwd (sst_iter_new r footer) = Ok it
                 /\ forall fuel, length (mem_layer mem) <= fuel -> drain Fwd fuel it = Ok (map_kv <$> mem_layer mem).
Proof. apply sealed_index_spec. Qed.
End Seal.

(** ** Opening a sealed segment *)

(** [Display] of [StorageError]. *)
Definition storage_error_display (e : StorageError) : string :=
  match e with
  | InvalidKey m => "invalid key: " +:+ m
  | InvalidValue m => "invalid values: " +:+ m
  | InvalidConfig m => "invalid config: " +:+ m
  | RowEncodeError m => "row encode error: " +:+ m
  | TransactionConflict m => "transaction conflict: " +:+ m
  | NotFound m => "not found: " +:+ m
  | InternalError m => "internal error: " +:+ m
  | IoError m => "I/O error: " +:+ m
  | WalCorrupted m => "wal corrupted: " +:+ m
  end.

(** The footer part of [SegmentIndexIter::from_sealed_segment]: it reads the
    descriptor [meta_fd] of the segment, expecting the footer's body and
    trailer next to each other at the end of the file. *)
Definition sealed_footer (bs : nat) (segment : Segment) : WalResult SstFooter :=
  let file := seg_meta segment in
  let file_size := length (contents file) in
  if decide (file_size < 4) then Err (WalIo "idx file too small")
  else
    let (trailer, file) := raw_read bs file (file_size - 4) 4 in
    trailer <-- trailer ;;
    t <-- slice trailer 0 4 ;;
    let body_len := Z.to_nat (of_be_bytes t) in
    let footer_total := body_len + 4 in
    if decide (file_size < footer_total) then Err (WalIo "idx file too small for footer")
    else
      let (footer_buf, file) := raw_read bs file (file_size - footer_total) footer_total in
      footer_buf <-- footer_buf ;;
      map_err (fun e => WalIo ("decode footer: " +:+ storage_error_display e)) (footer_decode footer_buf).

(** A sealed segment cannot be opened: [from_sealed_segment] looks for the footer
    in the [.meta] file, whose tail is the zero padding of header copy B. *)
Theorem sealed_segment_unreadable segment h block :
  let bs := seg_block_size segment in
  block_size_ok bs -> IDX_HEADER_LEN + 4 <= bs -> (5 * Z.of_nat bs <= 2 ^ 63)%Z -> header_wf h ->
  header_block bs h = Ok block -> contents (seg_meta segment) = block ++ block -> f_script (seg_meta segment) = [] ->
  sealed_footer bs segment = Err (WalIo "decode footer: invalid values: footer body too short").
Proof.
  intros bs Hbs H40 Hmax Hwf Hb Hc Hs. rewrite header_block_ok in Hb by done. injection Hb as <-.
  pose proof Hbs as (Hp & Hge & Hm). set (img := contents (seg_meta segment)) in *.
  assert (length img = 2 * bs) as Hl.
  { rewrite Hc, !length_app, !length_serialize, !length_replicate by done. lia. }
  assert (read_at img (2 * bs - 4) 4 = replicate 4 Byte.x00) as Htail.
  { rewrite Hc. unfold read_at. set (n := bs - IDX_HEADER_LEN) in *. rewrite app_assoc.
    rewrite drop_app_ge by (rewrite !length_app, !length_serialize, !length_replicate by done; lia).
    rewrite drop_replicate, take_replicate. f_equal.
    rewrite !length_app, !length_serialize, !length_replicate by done. lia. }
  assert (forall file, contents file = img -> f_script file = [] ->
    exists file', raw_read bs file (2 * bs - 4) 4 = (Ok (replicate 4 Byte.x00), file')
      /\ contents file' = img /\ f_script file' = []) as Hraw.
  { intros file Hcf Hsf. destruct (raw_read_spec bs file (2 * bs - 4) 4) as (f' & -> & Hc' & Hs');
      [done|lia|rewrite Hcf; lia|done|]. exists f'. by rewrite Hc', Hcf, Htail. }
  unfold sealed_footer. fold img. rewrite Hl, decide_False by (unfold IDX_HEADER_LEN in *; lia).
  destruct (Hraw (seg_meta segment) eq_refl Hs) as (f1 & -> & Hc1 & Hs1). cbn [rbind].
  change (slice (E := WalError) (replicate 4 Byte.x00) 0 4) with (Ok (E := WalError) (replicate 4 Byte.x00)).
  cbn [rbind]. change (Z.to_nat (of_be_bytes (replicate 4 Byte.x00))) with 0. simpl plus.
  rewrite decide_False by (unfold IDX_HEADER_LEN in *; lia).
  destruct (Hraw f1 Hc1 Hs1) as (f2 & -> & _). vm_compute. reflexivity.
Qed.

(** *** Witnesses *)

(** An index of three frames, in 64-byte blocks. *)
Definition demo_index : MemTable SortedAssoc :=
  memtable_put (lsn_to_key 2) (encode_offset_len 128 40)
    (memtable_put (lsn_to_key 1) (encode_offset_len 64 40)
      (memtable_put (lsn_to_key 0) (encode_offset_len 0 40) memtable_new)).

Lemma demo_index_fits : index_fits 64 (mem_layer demo_index).
Proof.
  split; [|split; [reflexivity|vm_compute; lia]].
  split_and!; [vm_compute; lia|vm_compute; discriminate| |vm_compute; discriminate|vm_compute; discriminate].
  simpl; repeat constructor; unfold key_fits; vm_compute; lia.
Qed.

Lemma sealed_index_roundtrip_witness :
  exists idx' footer, seal_index 64 (mkFile [] [] []) demo_index = Ok idx'
    /\ f_pending idx' = [] /\ 64 <= length (f_durable idx')
    /\ footer_decode (drop (length (f_durable idx') - 64) (f_durable idx')) = Ok footer
    /\ forall (r : InMemoryBlockReader), br_source r = f_durable idx' -> reader_block_size r = 64 ->
         exists it, seek_to_first Fwd (sst_iter_new r footer) = Ok it
                 /\ forall fuel, 3 <= fuel -> drain Fwd fuel it = Ok (map_kv <$> mem_layer demo_index).
Proof. exact (sealed_index_roundtrip 64 (mkFile [] [] []) demo_index demo_index_fits eq_refl eq_refl). Defined.
