(* ===== verification/WalFlush.v ===== *)
(** The flush thread (wal/impl.rs, [FlushState] and [Inner]): frozen buffers are
    written to the segment's log, synced and indexed; a segment that cannot
    hold the next buffer is sealed and a new one opened. *)

From stdpp Require Import base strings numbers sorting list.
From S2P Require Import Prelude.
From S2P Require Import Errors.
From S2P Require Import Block.
From S2P Require Import Iter.
From S2P Require Import EntryDecode.
From S2P Require Import SstFooter.
From S2P Require Import SstIter.
From S2P Require Import BlockBuilder.
From S2P Require Import MemTable.
From S2P Require Import LsmRefine.
From S2P Require Import WalFrame.
From S2P Require Import WalFile.
From S2P Require Import WalBuffer.
From S2P Require Import WalMeta.
From S2P Require Import WalIndexFile.

(** ** State *)

(** The files of one segment id in the log's directory, and how [open_fd]
    answers for each of them. *)
Record SegFiles := mkSegFiles {
  sf_exists : bool;
  sf_open_log : WalResult unit;
  sf_open_meta : WalResult unit;
  sf_open_idx : WalResult unit;
  sf_log : FileState;
  sf_meta : FileState;
  sf_idx : FileState;
}.

(** The shared state the flush thread touches. The active segment and its index
    are the ones of [FlushState], which holds the same handles. *)
Record Inner := mkInner {
  i_config : WalConfig;
  i_dir : Z -> SegFiles;
  i_next_seg_id : Z;
  i_durable_lsn : Z;
  i_sealed : list Segment;
  i_free_pool : list WalBuffer;
  i_stop_flag : bool;
}.

Definition inner_bs (i : Inner) : nat := Z.to_nat (wc_block_size (i_config i)).
Definition inner_segment_size (i : Inner) : nat := Z.to_nat (segment_size (i_config i)).

Definition set_idx (i : Inner) (id : Z) (f : FileState) : Inner :=
  mkInner (i_config i)
    (fun j => if decide (j = id)
              then let d := i_dir i id in
                   mkSegFiles (sf_exists d) (sf_open_log d) (sf_open_meta d) (sf_open_idx d) (sf_log d) (sf_meta d) f
              else i_dir i j)
    (i_next_seg_id i) (i_durable_lsn i) (i_sealed i) (i_free_pool i) (i_stop_flag i).
Definition set_durable (i : Inner) (lsn : Z) : Inner :=
  mkInner (i_config i) (i_dir i) (i_next_seg_id i) lsn (i_sealed i) (i_free_pool i) (i_stop_flag i).

Record FlushState (M : Type) := mkFlushState {
  fl_cur_seg : option Segment;
  fl_cur_mem : MemTable M;
  fl_seg_written : nat;
  fl_seg_min_lsn : Z;
  fl_seg_max_lsn : Z;
}.
Arguments mkFlushState {M} _ _ _ _ _.
Arguments fl_cur_seg {M} _.
Arguments fl_cur_mem {M} _.
Arguments fl_seg_written {M} _.
Arguments fl_seg_min_lsn {M} _.
Arguments fl_seg_max_lsn {M} _.

(** ** Operations *)

(** [Segment::open]. *)
Definition segment_open (files : SegFiles) (id : Z) (segment_size block_size : nat) : WalResult (Segment * bool) :=
  let seg log := mkSegment id segment_size block_size log (sf_meta files) in
  _ <-- sf_open_log files ;;
  _ <-- sf_open_meta files ;;
  if sf_exists files then Ok (seg (sf_log files), false)
  else
    match fallocate_log (sf_log files) 0 segment_size with
    | (Ok _, log) => Ok (seg log, true)
    | (Err e, _) => Err e
    | (Panic, _) => Panic
    end.

(** [Inner::recycle_buffer]. *)
Definition recycle_buffer (self : Inner) (buf : WalBuffer) : Inner :=
  if i_stop_flag self then self
  else mkInner (i_config self) (i_dir self) (i_next_seg_id self) (i_durable_lsn self) (i_sealed self)
         (i_free_pool self ++ [buffer_reset buf 0]) (i_stop_flag self).

Section Ops.
Context {M : Type} `{OrderedMap M} `{Crc32}.

(** A file operation whose failure unwinds. *)
Definition expect_file {A} (r : WalResult A * FileState) : WalResult (A * FileState) :=
  match r with (Ok a, f) => Ok (a, f) | _ => Panic end.
Definition expect_segment (r : WalResult unit * Segment) : WalResult Segment :=
  match r with (Ok _, s) => Ok s | _ => Panic end.

(** [FlushState::finalize_segment]. *)
Definition finalize_segment (self : FlushState M) (inner : Inner) : WalResult (FlushState M * Inner) :=
  match fl_cur_seg self with
  | None => Ok (self, inner)
  | Some seg =>
      let entry_count := (Z.of_nat (memtable_len (fl_cur_mem self)) mod 2 ^ 32)%Z in
      inner <-- (if decide (0 < entry_count)%Z
                 then _ <-- expect (sf_open_idx (i_dir inner (seg_id seg))) ;;
                      idx <-- seal_index (inner_bs inner) (sf_idx (i_dir inner (seg_id seg))) (fl_cur_mem self) ;;
                      Ok (set_idx inner (seg_id seg) idx)
                 else Ok inner) ;;
      let header := idx_header_new (seg_id seg) (fl_seg_min_lsn self) (fl_seg_max_lsn self) entry_count in
      seg <-- expect_segment (write_meta_header_double seg header) ;;
      Ok (mkFlushState (Some seg) (fl_cur_mem self) (fl_seg_written self) (fl_seg_min_lsn self) (fl_seg_max_lsn self),
          inner)
  end.

(** [FlushState::ensure_segment]. *)
Definition ensure_segment (self : FlushState M) (inner : Inner) (min_lsn : Z) (padded : nat)
  : WalResult (FlushState M * Inner) :=
  if decide (fl_seg_written self + padded <= inner_segment_size inner) then Ok (self, inner)
  else
    let! (self, inner) := finalize_segment self inner in
    let id := i_next_seg_id inner in
    let! (seg, was_created) := expect (segment_open (i_dir inner id) id (inner_segment_size inner) (inner_bs inner)) in
    seg <-- (if was_created
             then expect_segment (write_meta_header_double seg (idx_header_new id min_lsn 0 0))
             else Ok seg) ;;
    let sealed := match fl_cur_seg self with Some old => i_sealed inner ++ [old] | None => i_sealed inner end in
    Ok (mkFlushState (Some seg) memtable_new 0 min_lsn min_lsn,
        mkInner (i_config inner) (i_dir inner) ((id + 1) mod 2 ^ 32)%Z (i_durable_lsn inner) sealed
          (i_free_pool inner) (i_stop_flag inner)).

(** The end of the last frame: the first loop of [flush_buffer]. *)
Definition logical_end (buf : WalBuffer) : WalResult nat :=
  rfold (fun acc i =>
    word <-- unwrap (b_entries buf !! i) ;;
    let (pos, flen) := unpack word in
    Ok (Nat.max acc (Z.to_nat pos + Z.to_nat flen))) (seq 0 (b_count buf)) 0.

(** The index entries: the second loop of [flush_buffer]. *)
Definition index_entries (buf : WalBuffer) (base : nat) (mem : MemTable M) : WalResult (MemTable M) :=
  rfold (fun mem i =>
    word <-- unwrap (b_entries buf !! i) ;;
    let (pos, flen) := unpack word in
    Ok (memtable_put (lsn_to_key (b_min_lsn buf + Z.of_nat i)) (encode_offset_len (Z.of_nat base + pos) flen) mem))
    (seq 0 (b_count buf)) mem.

(** [FlushState::flush_buffer]. *)
Definition flush_buffer (self : FlushState M) (inner : Inner) (buf : WalBuffer) : WalResult (FlushState M * Inner) :=
  if decide (b_count buf = 0) then Ok (self, recycle_buffer inner buf)
  else
    logical_end <-- logical_end buf ;;
    let padded := Z.to_nat (align_up (Z.of_nat logical_end) (wc_block_size (i_config inner))) in
    let! (self, inner) := ensure_segment self inner (b_min_lsn buf) padded in
    seg <-- unwrap (fl_cur_seg self) ;;
    let data := if decide (logical_end < padded)
                then write_at (b_data buf) logical_end (replicate (padded - logical_end) Byte.x00)
                else b_data buf in
    out <-- slice data 0 padded ;;
    let! (_, log) := expect_file (pwrite_all (seg_log seg) out (fl_seg_written self)) in
    let! (_, log) := expect_file (WalFile.fdatasync_fd log) in
    let base := fl_seg_written self in
    mem <-- index_entries buf base (fl_cur_mem self) ;;
    let max_lsn := (b_min_lsn buf + Z.of_nat (b_count buf) - 1)%Z in
    Ok (mkFlushState (Some (with_log seg log)) mem (base + padded) (fl_seg_min_lsn self) max_lsn,
        recycle_buffer (set_durable inner max_lsn) (set_data buf data)).

(** [FlushState::run]: drain the queue, then seal the last segment. *)
Definition flush_run (self : FlushState M) (inner : Inner) (queue : list WalBuffer) : WalResult (FlushState M * Inner) :=
  let! (self, inner) := rfold (fun s buf => flush_buffer s.1 s.2 buf) queue (self, inner) in
  finalize_segment self inner.
End Ops.

(** ** What a flush does *)

Lemma sorted_insert_last {V} k (v : V) l :
  Forall (fun kv => klt kv.1 k) l -> sorted_insert k v l = l ++ [(k, v)].
Proof.
  induction l as [|[k' v'] l IH]; intros HF; [done|]. apply Forall_cons in HF as [Hk HF]. simpl in *.
  rewrite bytes_cmp_antisym, Hk. simpl. by rewrite IH.
Qed.

(** The records of a buffer: consecutive LSNs from [min_lsn]. *)
Definition records (min_lsn : Z) (ps : list bytes) : list (Z * bytes) :=
  imap (fun i p => ((min_lsn + Z.of_nat i)%Z, p)) ps.

Definition frame_len (payload : bytes) : nat := HEADER_LEN + length payload.

Section Spec.
Context {M : Type} `{OrderedMapLaws M} `{Crc32}.

(** An index entry that points at the frame of a record. *)
Definition rec_at (log : bytes) (written : nat) (r : Z * bytes) (kv : bytes * Entry) : Prop :=
  exists off, kv = (lsn_to_key r.1, Put (encode_offset_len (Z.of_nat off) (Z.of_nat (frame_len r.2))))
    /\ off + frame_len r.2 <= written
    /\ read_at log off (frame_len r.2) = encode_frame (mkLsn r.1) r.2.

(** The current segment holds [recs]: they are durable in the block-aligned,
    written part of its log, and its index lists them in order. *)
Definition seg_holds (bs : nat) (self : FlushState M) (recs : list (Z * bytes)) : Prop :=
  exists seg, fl_cur_seg self = Some seg /\ f_pending (seg_log seg) = [] /\ f_script (seg_log seg) = []
    /\ seg_block_size seg = bs /\ fl_seg_written self mod bs = 0 /\ fl_seg_written self <= length (f_durable (seg_log seg))
    /\ Forall2 (rec_at (f_durable (seg_log seg)) (fl_seg_written self)) recs (mem_layer (fl_cur_mem self)).

Lemma rec_at_write log written r kv data :
  rec_at log written r kv -> rec_at (write_at log written data) (written + length data) r kv.
Proof.
  intros (off & -> & Hle & Hr). exists off. split_and!; [done|lia|]. rewrite <- Hr.
  apply (f_equal length) in Hr. rewrite length_read_at, length_encode_frame in Hr. fold (frame_len r.2) in Hr.
  assert (0 < frame_len r.2) by (unfold frame_len, HEADER_LEN; lia).
  apply read_write_before; lia.
Qed.

Lemma logical_end_spec buf ps n :
  buffer_holds buf ps -> n <= length ps ->
  exists e, rfold (fun acc i =>
      word <-- unwrap (b_entries buf !! i) ;;
      let (pos, flen) := unpack word in
      Ok (Nat.max acc (Z.to_nat pos + Z.to_nat flen))) (seq 0 n) 0 = Ok (E := WalError) e
    /\ e <= b_capacity buf
    /\ forall i p word pos, i < n -> ps !! i = Some p -> b_entries buf !! i = Some word ->
         unpack word = (Z.of_nat pos, Z.of_nat (frame_len p)) -> pos + frame_len p <= e.
Proof.
  intros (_ & _ & _ & Hsl). induction n as [|n IH]; intros Hn.
  { exists 0. split_and!; [done|lia|]. intros. lia. }
  destruct IH as (e & He & Hcap & Hall); [lia|]. rewrite seq_S, rfold_app, He. cbn [rbind rfold Nat.add].
  destruct (lookup_lt_is_Some_2 ps n) as [p Hp]; [lia|]. destruct (Hsl n p Hp) as (pos & word & Hw & Hu & Hle & _).
  rewrite Hw. cbn [unwrap rbind]. rewrite Hu, !Nat2Z.id. eexists. split_and!; [done|lia|].
  intros i p' word' pos' Hi Hp' Hw' Hu'. destruct (decide (i = n)) as [->|Hne].
  - rewrite Hw in Hw'. injection Hw' as <-. rewrite Hu in Hu'. apply pair_eq in Hu' as [Hpos Hlen].
    apply Nat2Z.inj in Hpos, Hlen. unfold frame_len in *. lia.
  - specialize (Hall i p' word' pos'). unfold frame_len in *. assert (i < n) by lia. apply Hall in Hp'; [lia|done..].
Qed.

(** Every key of the index is an LSN below [bound]. *)
Definition lsns_below (bound : Z) (l : list (bytes * Entry)) : Prop :=
  Forall (fun kv => exists lsn, kv.1 = lsn_to_key lsn /\ (0 <= lsn < bound)%Z) l.

Lemma lsns_below_klt bound l :
  (bound <= u64_max)%Z -> lsns_below bound l -> Forall (fun kv => klt kv.1 (lsn_to_key bound)) l.
Proof.
  intros Hb HF. eapply Forall_impl; [exact HF|]. intros kv (lsn & -> & Hl). unfold klt.
  rewrite lsn_key_cmp; [apply Z.compare_lt_iff; lia|unfold is_u64; lia..].
Qed.

(** The entry of slot [i]. *)
Definition entry_of (buf : WalBuffer) (base i : nat) (p : bytes) (kv : bytes * Entry) : Prop :=
  exists pos word, b_entries buf !! i = Some word /\ unpack word = (Z.of_nat pos, Z.of_nat (frame_len p))
    /\ kv = (lsn_to_key (b_min_lsn buf + Z.of_nat i), Put (encode_offset_len (Z.of_nat (base + pos)) (Z.of_nat (frame_len p)))).

Lemma index_entries_spec buf ps base (mem : MemTable M) n :
  buffer_holds buf ps -> n <= length ps -> (0 <= b_min_lsn buf)%Z ->
  (b_min_lsn buf + Z.of_nat (length ps) <= u64_max)%Z -> lsns_below (b_min_lsn buf) (mem_layer mem) ->
  exists mem' new, rfold (fun mem i =>
      word <-- unwrap (b_entries buf !! i) ;;
      let (pos, flen) := unpack word in
      Ok (memtable_put (lsn_to_key (b_min_lsn buf + Z.of_nat i)) (encode_offset_len (Z.of_nat base + pos) flen) mem))
      (seq 0 n) mem = Ok (E := WalError) mem'
    /\ mem_layer mem' = mem_layer mem ++ new /\ length new = n
    /\ lsns_below (b_min_lsn buf + Z.of_nat n) (mem_layer mem')
    /\ forall i kv, new !! i = Some kv -> exists p, ps !! i = Some p /\ entry_of buf base i p kv.
Proof.
  intros (_ & _ & _ & Hsl) Hn Hmin Hmax Hbelow. induction n as [|n IH].
  { exists mem, []. rewrite app_nil_r, Z.add_0_r. by split_and!. }
  destruct IH as (mem' & new & He & Hm & Hl & Hb & Hnew); [lia|]. rewrite seq_S, rfold_app, He. cbn [rbind rfold Nat.add].
  destruct (lookup_lt_is_Some_2 ps n) as [p Hp]; [lia|]. destruct (Hsl n p Hp) as (pos & word & Hw & Hu & _).
  rewrite Hw. cbn [unwrap rbind]. rewrite Hu. set (k := lsn_to_key (b_min_lsn buf + Z.of_nat n)).
  set (v := encode_offset_len (Z.of_nat base + Z.of_nat pos) (Z.of_nat (HEADER_LEN + length p))).
  exists (memtable_put k v mem'), (new ++ [(k, Put v)]).
  assert (mem_layer (memtable_put k v mem') = mem_layer mem' ++ [(k, Put v)]) as Hput.
  { unfold mem_layer, memtable_put. simpl. rewrite om_entries_insert. apply sorted_insert_last.
    apply (lsns_below_klt (b_min_lsn buf + Z.of_nat n)); [lia|exact Hb]. }
  split_and!; [done|by rewrite Hput, Hm, app_assoc|len| |].
  - rewrite Hput. apply Forall_app. split.
    + eapply Forall_impl; [exact Hb|]. intros kv (lsn & ? & ?). exists lsn. split; [done|lia].
    + constructor; [|constructor]. eexists. split; [done|lia].
  - intros i kv Hi. apply lookup_app_Some in Hi as [Hi|[Hge Hi]]; [by apply Hnew|].
    apply list_lookup_singleton_Some in Hi as [Hz <-]. assert (i = n) as -> by lia.
    exists p. split; [done|]. exists pos, word. split_and!; [done..|]. unfold k, v. do 2 f_equal. unfold frame_len. f_equal. lia.
Qed.

(** The sizes a flush relies on. *)
Definition flush_sizes (inner : Inner) (buf : WalBuffer) : Prop :=
  config_ok (i_config inner) /\ Z.of_nat (b_capacity buf) = buffer_size (i_config inner)
  /\ (buffer_size (i_config inner) + wc_block_size (i_config inner) <= u64_max)%Z.

(** The padded image of a buffer. *)
Definition padded_len (inner : Inner) (e : nat) : nat := Z.to_nat (align_up (Z.of_nat e) (wc_block_size (i_config inner))).

Lemma padded_len_ok inner buf e :
  flush_sizes inner buf -> e <= b_capacity buf ->
  e <= padded_len inner e <= b_capacity buf /\ padded_len inner e mod inner_bs inner = 0
  /\ padded_len inner e < inner_segment_size inner.
Proof.
  intros (Hc & Hcap & Hmax) He.
  destruct (padded_bounds (i_config inner) (Z.of_nat e)) as (P1 & P2 & P3); [done|done|lia|].
  destruct Hc as ((k & Hk & Hbs) & _). assert (0 < wc_block_size (i_config inner))%Z by (rewrite Hbs; lia).
  unfold padded_len, inner_bs, inner_segment_size. split_and!; [lia|lia| |lia].
  apply Nat2Z.inj. rewrite Nat2Z.inj_mod, !Z2Nat.id by lia. done.
Qed.

Lemma seg_holds_lsns bs self recs bound :
  seg_holds bs self recs -> Forall (fun r => 0 <= r.1 < bound)%Z recs -> lsns_below bound (mem_layer (fl_cur_mem self)).
Proof.
  intros (seg & _ & _ & _ & _ & _ & _ & HF2) HF. apply Forall_forall. intros kv Hin. apply list_elem_of_lookup in Hin as [i Hi].
  destruct (Forall2_lookup_r _ _ _ _ _ HF2 Hi) as (r & Hr & (off & -> & _)). exists r.1. split; [done|].
  rewrite Forall_lookup in HF. by apply (HF i).
Qed.

(** What the flush writes: the frames of the buffer, then zeros. *)
Definition padded_data (buf : WalBuffer) (e padded : nat) : bytes :=
  if decide (e < padded) then write_at (b_data buf) e (replicate (padded - e) Byte.x00) else b_data buf.

Lemma padded_data_frame buf ps e padded i p pos word :
  buffer_holds buf ps -> e <= padded <= b_capacity buf -> pos + frame_len p <= e ->
  ps !! i = Some p -> b_entries buf !! i = Some word -> unpack word = (Z.of_nat pos, Z.of_nat (frame_len p)) ->
  read_at (take padded (padded_data buf e padded)) pos (frame_len p)
  = encode_frame (mkLsn (b_min_lsn buf + Z.of_nat i)) p.
Proof.
  intros (_ & Hlen & _ & Hsl) Hpad Hle Hp Hw Hu.
  destruct (Hsl i p Hp) as (pos' & word' & Hw' & Hu' & _ & Hr). rewrite Hw in Hw'. injection Hw' as <-.
  rewrite Hu in Hu'. apply pair_eq in Hu' as [Hpos _]. apply Nat2Z.inj in Hpos as <-.
  transitivity (read_at (b_data buf) pos (frame_len p)); [|exact Hr].
  transitivity (read_at (padded_data buf e padded) pos (frame_len p)).
  - unfold read_at. rewrite skipn_firstn_comm, take_take. f_equal. lia.
  - unfold padded_data. case_decide; [|done]. apply read_write_before; lia.
Qed.

Lemma length_padded_data buf ps e padded :
  buffer_holds buf ps -> e <= padded <= b_capacity buf -> length (padded_data buf e padded) = b_capacity buf.
Proof. intros (_ & Hlen & _) Hp. unfold padded_data. case_decide; [|done]. len. Qed.

(** The new index entries point at the frames just written. *)
Lemma new_records_at buf ps e padded base log new :
  buffer_holds buf ps -> e <= padded <= b_capacity buf -> length new = length ps ->
  (forall i p word pos, i < length ps -> ps !! i = Some p -> b_entries buf !! i = Some word ->
     unpack word = (Z.of_nat pos, Z.of_nat (frame_len p)) -> pos + frame_len p <= e) ->
  (forall i kv, new !! i = Some kv -> exists p, ps !! i = Some p /\ entry_of buf base i p kv) ->
  Forall2 (rec_at (write_at log base (take padded (padded_data buf e padded))) (base + padded))
    (records (b_min_lsn buf) ps) new.
Proof.
  intros Hb Hpad Hl He Hnew. apply Forall2_same_length_lookup. split; [unfold records; by rewrite length_imap|].
  intros i r kv Hr Hkv. unfold records in Hr. rewrite list_lookup_imap in Hr.
  destruct (Hnew i kv Hkv) as (p & Hp & pos & word & Hw & Hu & ->). rewrite Hp in Hr. simpl in Hr. injection Hr as <-.
  assert (pos + frame_len p <= e) as Hle.
  { eapply (He i); eauto. by eapply lookup_lt_Some. }
  exists (base + pos). simpl fst. simpl snd. split_and!; [done|lia|].
  rewrite read_write_inside by (rewrite length_take, (length_padded_data _ _ _ _ Hb Hpad); lia).
  by eapply padded_data_frame.
Qed.

(** A flush, given what [ensure_segment] did. *)
Lemma flush_after_ensure self inner buf ps self1 inner1 recs :
  buffer_holds buf ps -> ps <> [] -> flush_sizes inner buf ->
  (forall e, logical_end buf = Ok e ->
     ensure_segment self inner (b_min_lsn buf) (padded_len inner e) = Ok (self1, inner1)) ->
  seg_holds (inner_bs inner) self1 recs -> Forall (fun r => 0 <= r.1 < b_min_lsn buf)%Z recs ->
  (0 <= b_min_lsn buf)%Z -> (b_min_lsn buf + Z.of_nat (length ps) <= u64_max)%Z ->
  exists self' padded seg log data, let max_lsn := (b_min_lsn buf + Z.of_nat (length ps) - 1)%Z in
    flush_buffer self inner buf = Ok (self', recycle_buffer (set_durable inner1 max_lsn) (set_data buf data))
    /\ seg_holds (inner_bs inner) self' (recs ++ records (b_min_lsn buf) ps)
    /\ fl_seg_written self' = fl_seg_written self1 + padded /\ padded mod inner_bs inner = 0
    /\ fl_seg_max_lsn self' = max_lsn /\ fl_seg_min_lsn self' = fl_seg_min_lsn self1
    /\ fl_cur_seg self1 = Some seg /\ fl_cur_seg self' = Some (with_log seg log)
    /\ length data = length (b_data buf) /\ (exists e, logical_end buf = Ok e /\ padded = padded_len inner e).
Proof.
  intros Hb Hne Hsz Hens Hseg Hrecs Hmin Hmax. pose proof Hb as (Hcount & _).
  destruct (logical_end_spec buf ps (length ps) Hb) as (e & He & Hcap & Hends); [lia|].
  rewrite <- Hcount in He. fold (logical_end buf) in He. specialize (Hens e He).
  destruct (padded_len_ok inner buf e Hsz Hcap) as (Hpad & Hmod & _). set (padded := padded_len inner e) in *.
  pose proof (seg_holds_lsns _ _ _ _ Hseg Hrecs) as Hbelow.
  destruct Hseg as (seg & Hcs & Hpd & Hscr & Hsbs & Hwm & Hwl & HF2).
  destruct (index_entries_spec buf ps (fl_seg_written self1) (fl_cur_mem self1) (length ps) Hb)
    as (mem' & new & Hix & Hml & Hnl & Hb' & Hnew); [lia|done|done|done|].
  rewrite <- Hcount in Hix. fold (index_entries buf (fl_seg_written self1) (fl_cur_mem self1)) in Hix.
  assert (0 < length ps) as Hpos by (destruct ps; [done|simpl; lia]).
  assert (0 < e) as He0.
  { destruct ps as [|p ps']; [done|]. destruct Hb as (_ & _ & _ & Hsl). destruct (Hsl 0 p eq_refl) as (pos & word & Hw & Hu & _).
    specialize (Hends 0 p word pos Hpos eq_refl Hw Hu). unfold frame_len, HEADER_LEN in Hends. lia. }
  pose proof (length_padded_data buf ps e padded Hb Hpad) as Hld.
  unfold flush_buffer. rewrite decide_False by lia. rewrite He. cbn [rbind].
  change (Z.to_nat (align_up (Z.of_nat e) (wc_block_size (i_config inner)))) with padded. rewrite Hens. cbn [rbind].
  rewrite Hcs. cbn [unwrap rbind]. fold (padded_data buf e padded).
  rewrite slice_Ok by lia. rewrite drop_0, Nat.sub_0_r. cbn [rbind].
  set (out := take padded (padded_data buf e padded)).
  assert (length out = padded) as Hlo by (unfold out; len).
  assert (out <> []) as Hone by (intros Hn; rewrite Hn in Hlo; simpl in Hlo; lia).
  destruct (pwrite_all_healthy (seg_log seg) out (fl_seg_written self1) Hscr Hone) as (log1 & -> & Hs1 & Hc1 & _).
  cbn [expect_file rbind]. unfold WalFile.fdatasync_fd, next_sys. rewrite Hs1. cbn [expect_file rbind].
  rewrite Hix. cbn [rbind]. rewrite Hcount.
  assert (contents (seg_log seg) = f_durable (seg_log seg)) as Hcd by (unfold contents; by rewrite Hpd).
  eexists _, padded, seg, _, _. split; [reflexivity|]. split_and!; simpl; try done.
  - exists (with_log seg (mkFile (contents log1) [] (f_script log1))). split_and!; simpl; try done.
    { by rewrite Nat.Div0.add_mod, Hwm, Hmod, Nat.Div0.mod_0_l. }
    { rewrite Hc1, Hcd. len. }
    rewrite Hc1, Hcd, Hml. apply Forall2_app; [|by apply new_records_at].
    eapply Forall2_impl; [exact HF2|]. intros r kv Hr. apply (rec_at_write _ _ _ _ out) in Hr. by rewrite Hlo in Hr.
  - rewrite Hld. by destruct Hb as (_ & -> & _).
  - by exists e.
Qed.

(** What recycling leaves of the shared state. *)
Lemma recycle_inner i buf :
  i_config (recycle_buffer i buf) = i_config i /\ i_dir (recycle_buffer i buf) = i_dir i
  /\ i_next_seg_id (recycle_buffer i buf) = i_next_seg_id i /\ i_durable_lsn (recycle_buffer i buf) = i_durable_lsn i
  /\ i_sealed (recycle_buffer i buf) = i_sealed i /\ i_stop_flag (recycle_buffer i buf) = i_stop_flag i.
Proof. unfold recycle_buffer. by destruct (i_stop_flag i) eqn:?. Qed.

Lemma flush_fits_ok self inner buf ps recs :
  buffer_holds buf ps -> ps <> [] -> flush_sizes inner buf -> seg_holds (inner_bs inner) self recs ->
  Forall (fun r => 0 <= r.1 < b_min_lsn buf)%Z recs ->
  (0 <= b_min_lsn buf)%Z -> (b_min_lsn buf + Z.of_nat (length ps) <= u64_max)%Z ->
  fl_seg_written self + b_capacity buf <= inner_segment_size inner ->
  exists self' inner', flush_buffer self inner buf = Ok (self', inner')
    /\ seg_holds (inner_bs inner) self' (recs ++ records (b_min_lsn buf) ps)
    /\ i_durable_lsn inner' = (b_min_lsn buf + Z.of_nat (length ps) - 1)%Z
    /\ i_sealed inner' = i_sealed inner.
Proof.
  intros Hb Hne Hsz Hseg Hrecs Hmin Hmax Hfit.
  destruct (flush_after_ensure self inner buf ps self inner recs Hb Hne Hsz) as (self' & padded & seg & log & data & Hf & Hs & _);
    try done.
  2:{ destruct (recycle_inner (set_durable inner (b_min_lsn buf + Z.of_nat (length ps) - 1)) (set_data buf data))
        as (_ & _ & _ & Hd & Hse & _).
      eexists self', _. split_and!; [exact Hf|done|by rewrite Hd|by rewrite Hse]. }
  intros e He. unfold ensure_segment. rewrite decide_True; [done|].
  destruct (logical_end_spec buf ps (length ps) Hb) as (e' & He' & Hcap & _); [lia|].
  pose proof Hb as (Hcount & _). unfold logical_end in He. rewrite Hcount in He. rewrite He in He'. injection He' as <-.
  destruct (padded_len_ok inner buf e Hsz Hcap) as (Hpad & _). lia.
Qed.


(** The files of a segment id that was never used, and that can be opened. *)
Definition fresh_files (files : SegFiles) : Prop :=
  sf_open_log files = Ok tt /\ sf_open_meta files = Ok tt /\ sf_exists files = false /\ sf_log files = mkFile [] [] [] /\ sf_meta files = mkFile [] [] [].

Definition idx_new (files : SegFiles) : Prop := sf_open_idx files = Ok tt /\ sf_idx files = mkFile [] [] [].

(** A segment that is ready to be sealed: its index fits the SST format, its
    [.idx] file is new and its [.meta] file has nothing pending. *)
Definition sealable (self : FlushState M) (inner : Inner) (seg : Segment) : Prop :=
  fl_cur_seg self = Some seg /\ seg_block_size seg = inner_bs inner /\ block_size_ok (inner_bs inner)
  /\ index_fits (inner_bs inner) (mem_layer (fl_cur_mem self)) /\ mem_layer (fl_cur_mem self) <> []
  /\ idx_new (i_dir inner (seg_id seg))
  /\ f_pending (seg_meta seg) = [] /\ f_script (seg_meta seg) = []
  /\ is_u32 (seg_id seg) /\ is_u64 (fl_seg_min_lsn self) /\ is_u64 (fl_seg_max_lsn self).

(** The header of a sealed segment. *)
Definition sealed_header (self : FlushState M) (seg : Segment) : IdxHeader :=
  idx_header_new (seg_id seg) (fl_seg_min_lsn self) (fl_seg_max_lsn self)
    (Z.of_nat (length (mem_layer (fl_cur_mem self)))).

Lemma finalize_ok self inner seg :
  sealable self inner seg ->
  exists f idx, finalize_segment self inner
    = Ok (mkFlushState (Some (with_meta seg f)) (fl_cur_mem self) (fl_seg_written self)
            (fl_seg_min_lsn self) (fl_seg_max_lsn self), set_idx inner (seg_id seg) idx)
    /\ seal_index (inner_bs inner) (sf_idx (i_dir inner (seg_id seg))) (fl_cur_mem self) = Ok idx
    /\ (read_meta_header (with_meta seg f)).1 = Ok (sealed_header self seg).
Proof.
  intros (Hcs & Hsb & Hbs & Hix & Hne & [Hoi Hidx] & Hp & Hs & Hid & Hmn & Hmx).
  assert (memtable_len (fl_cur_mem self) = length (mem_layer (fl_cur_mem self))) as Hlen by apply om_len_ok.
  pose proof Hix as ((_ & _ & _ & _ & Hn) & _). unfold u32_max in Hn.
  assert (0 < length (mem_layer (fl_cur_mem self))) as Hpos by (destruct (mem_layer _); [done|simpl; lia]).
  destruct (sealed_index_spec (R := InMemoryBlockReader) (inner_bs inner) (sf_idx (i_dir inner (seg_id seg)))
    (fl_cur_mem self) Hix) as (idx & footer & Hseal & _); [by rewrite Hidx..|].
  unfold finalize_segment. rewrite Hcs, Hlen, Z.mod_small by lia. rewrite decide_True by lia.
  rewrite Hoi. cbn [expect rbind]. rewrite Hseal. cbn [rbind].
  destruct (meta_write_spec seg (sealed_header self seg)) as (f & Hw & _ & Hr & _); [by rewrite Hsb| |done|done|].
  { apply idx_header_new_valid; try done. unfold is_u32, u32_max. lia. }
  change (idx_header_new _ _ _ _) with (sealed_header self seg). rewrite Hw. cbn [expect_segment rbind].
  exists f, idx. done.
Qed.

(** A segment just opened, before its first record. *)
Definition new_segment (inner : Inner) (id : Z) (meta : FileState) : Segment :=
  mkSegment id (inner_segment_size inner) (inner_bs inner) (mkFile (replicate (inner_segment_size inner) Byte.x00) [] []) meta.

(** The shared state after a rollover: the old segment is listed as sealed. *)
Definition rolled (inner : Inner) (old : Segment) (idx : FileState) : Inner :=
  mkInner (i_config inner) (i_dir (set_idx inner (seg_id old) idx)) ((i_next_seg_id inner + 1) mod 2 ^ 32)%Z
    (i_durable_lsn inner) (i_sealed inner ++ [old]) (i_free_pool inner) (i_stop_flag inner).

(** [ensure_segment] when the buffer does not fit. *)
Lemma ensure_rolls self inner seg min_lsn padded :
  sealable self inner seg -> inner_segment_size inner < fl_seg_written self + padded -> is_u64 min_lsn ->
  is_u32 (i_next_seg_id inner) -> i_next_seg_id inner <> seg_id seg -> fresh_files (i_dir inner (i_next_seg_id inner)) ->
  exists f idx meta, ensure_segment self inner min_lsn padded
    = Ok (mkFlushState (Some (new_segment inner (i_next_seg_id inner) meta)) memtable_new 0 min_lsn min_lsn,
          rolled inner (with_meta seg f) idx)
    /\ seal_index (inner_bs inner) (sf_idx (i_dir inner (seg_id seg))) (fl_cur_mem self) = Ok idx
    /\ (read_meta_header (with_meta seg f)).1 = Ok (sealed_header self seg)
    /\ f_pending meta = [] /\ f_script meta = [].
Proof.
  intros Hsl Hroll Hmin Hid Hnid (Hol & Hom & Hx & Hlog & Hmeta).
  destruct (finalize_ok self inner seg Hsl) as (f & idx & Hfin & Hseal & Hhdr).
  pose proof Hsl as (_ & _ & Hbs & _). set (id := i_next_seg_id inner) in *.
  destruct (meta_write_spec (new_segment inner id (mkFile [] [] [])) (idx_header_new id min_lsn 0 0))
    as (meta & Hw & Hp & _ & Hsc); [done| |done|done|].
  { apply idx_header_new_valid; unfold is_u32, is_u64, u32_max, u64_max in *; lia. }
  exists f, idx, meta. split_and!; try done.
  unfold ensure_segment. rewrite decide_False by lia. rewrite Hfin. cbn [rbind i_next_seg_id set_idx i_dir]. fold id.
  rewrite decide_False by done. unfold segment_open. rewrite Hol, Hom, Hx, Hlog, Hmeta. cbn. rewrite Nat.sub_0_r.
  change (mkSegment id _ _ _ _) with (new_segment inner id (mkFile [] [] [])). rewrite Hw. done.
Qed.

Lemma seg_holds_fresh inner id meta lsn :
  seg_holds (inner_bs inner) (mkFlushState (Some (new_segment inner id meta)) memtable_new 0 lsn lsn) [].
Proof.
  eexists. split_and!; [done|done|done|done|apply Nat.Div0.mod_0_l|simpl; lia|].
  change (mem_layer _) with (om_entries (om_empty (M := M))). rewrite om_entries_empty. constructor.
Qed.

(** The index entries [l] can be read from a sealed [.idx] file: nothing of it is
    left unsynced, its last block is the footer, and a scan lists them. *)
Definition index_readable (bs : nat) (idx : FileState) (l : layer) : Prop :=
  f_pending idx = [] /\ exists footer it,
    footer_decode (drop (length (f_durable idx) - bs) (f_durable idx)) = Ok footer
    /\ seek_to_first Fwd (sst_iter_new (mkInMemoryBlockReader (f_durable idx) bs) footer) = Ok it
    /\ forall fuel, length l <= fuel -> drain Fwd fuel it = Ok (map_kv <$> l).

Lemma seal_readable self inner seg idx :
  sealable self inner seg ->
  seal_index (inner_bs inner) (sf_idx (i_dir inner (seg_id seg))) (fl_cur_mem self) = Ok idx ->
  index_readable (inner_bs inner) idx (mem_layer (fl_cur_mem self)).
Proof.
  intros (_ & _ & _ & Hix & _ & [_ Hidx] & _) Hs.
  destruct (sealed_index_spec (R := InMemoryBlockReader) (inner_bs inner) (sf_idx (i_dir inner (seg_id seg)))
    (fl_cur_mem self) Hix) as (idx' & footer & Hs' & Hp & _ & Hf & Hr); [by rewrite Hidx..|].
  rewrite Hs in Hs'. injection Hs' as <-. split; [done|].
  destruct (Hr (mkInMemoryBlockReader (f_durable idx) (inner_bs inner)) eq_refl eq_refl) as (it & Hit & Hd).
  by exists footer, it.
Qed.

(** C11: A buffer that does not fit the current segment seals it and starts a new
    one, on files that work and can be opened: the sealed segment keeps its log,
    its header carries the LSN range and the entry count, and its [.idx] file is
    durable and reads back as the index entries; the new segment, under the next
    id, holds exactly the buffer's records, durably, and [durable_lsn] is the
    last of them. *)
Theorem flush_rolls_over self inner buf ps seg :
  buffer_holds buf ps -> ps <> [] -> flush_sizes inner buf -> sealable self inner seg ->
  (0 <= b_min_lsn buf)%Z -> (b_min_lsn buf + Z.of_nat (length ps) <= u64_max)%Z ->
  (forall e, logical_end buf = Ok e -> inner_segment_size inner < fl_seg_written self + padded_len inner e) ->
  is_u32 (i_next_seg_id inner) -> i_next_seg_id inner <> seg_id seg -> fresh_files (i_dir inner (i_next_seg_id inner)) ->
  exists self' inner' old new, flush_buffer self inner buf = Ok (self', inner')
    /\ seg_holds (inner_bs inner) self' (records (b_min_lsn buf) ps)
    /\ fl_cur_seg self' = Some new /\ seg_id new = i_next_seg_id inner
    /\ i_next_seg_id inner' = ((i_next_seg_id inner + 1) mod 2 ^ 32)%Z
    /\ i_durable_lsn inner' = (b_min_lsn buf + Z.of_nat (length ps) - 1)%Z
    /\ i_sealed inner' = i_sealed inner ++ [old] /\ seg_log old = seg_log seg
    /\ (read_meta_header old).1 = Ok (sealed_header self seg)
    /\ index_readable (inner_bs inner) (sf_idx (i_dir inner' (seg_id seg))) (mem_layer (fl_cur_mem self)).
Proof.
  intros Hb Hne Hsz Hsl Hmin Hmax Hroll Hid Hnid Hfresh.
  destruct (logical_end_spec buf ps (length ps) Hb) as (e & He & _); [lia|]. pose proof Hb as (Hcount & _).
  rewrite <- Hcount in He. fold (logical_end buf) in He.
  destruct (ensure_rolls self inner seg (b_min_lsn buf) (padded_len inner e) Hsl (Hroll e He))
    as (f & idx & meta & Hens & Hseal & Hhdr & _); [unfold is_u64 in *; lia|done..|].
  edestruct (flush_after_ensure self inner buf ps) as (self' & padded & s & log & data & Hf & Hs & _ & _ & _ & _ & Hcs & Hcs' & _); [done..| | | |done|done|].
  { intros e' He'. rewrite He in He'. injection He' as <-. exact Hens. }
  { apply seg_holds_fresh. }
  { constructor. }
  destruct (recycle_inner (set_durable (rolled inner (with_meta seg f) idx) (b_min_lsn buf + Z.of_nat (length ps) - 1))
    (set_data buf data)) as (_ & Hdir & Hnx & Hd & Hse & _).
  eexists self', _, (with_meta seg f), _. split_and!; [exact Hf|done|exact Hcs'| |by rewrite Hnx|by rewrite Hd|by rewrite Hse|done|done|].
  - cbn in Hcs. by injection Hcs as <-.
  - rewrite Hdir. simpl. rewrite decide_True by done. by apply (seal_readable self inner seg).
Qed.
End Spec.

(** *** Witnesses *)

Definition demo_config : WalConfig := mkWalConfig 1024 512 512 2 4 false.
Definition demo_frozen : WalBuffer :=
  mkWalBuffer (write_at (replicate 512 Byte.x00) 0 (@encode_frame demo_crc (mkLsn 7) demo_payload)) 18 1
    (18%Z :: replicate 31 0%Z) 0 STATE_FULL 7 1 0 512 32.
Definition demo_files : SegFiles := mkSegFiles false (Ok tt) (Ok tt) (Ok tt) (mkFile [] [] []) (mkFile [] [] []) (mkFile [] [] []).
Definition demo_inner : Inner := mkInner demo_config (fun _ => demo_files) 1 0 [] [] false.
Definition demo_seg : Segment := mkSegment 0 1024 512 (mkFile (replicate 1024 Byte.x00) [] []) (mkFile [] [] []).
(** An empty segment, and a full one with one entry. *)
Definition demo_flush : FlushState SortedAssoc := mkFlushState (Some demo_seg) memtable_new 0 0 0.
Definition demo_full : FlushState SortedAssoc :=
  mkFlushState (Some demo_seg) (memtable_put (lsn_to_key 6) (encode_offset_len 0 18) memtable_new) 1024 6 6.

Lemma demo_frozen_holds : @buffer_holds demo_crc demo_frozen [demo_payload].
Proof.
  split_and!; [done|by vm_compute|vm_compute; discriminate|]. intros [|i] p Hp; [|by destruct i].
  injection Hp as <-. exists 0, 18%Z. split_and!; [done|by vm_compute|vm_compute; lia|by vm_compute].
Qed.

Lemma demo_sizes : flush_sizes demo_inner demo_frozen.
Proof.
  split; [|by split]. split_and!; try done. exists 9%Z. by split.
Qed.

Lemma demo_flush_holds : @seg_holds SortedAssoc _ _ demo_crc 512 demo_flush [].
Proof. exists demo_seg. split_and!; try done; simpl; lia. Qed.

Lemma demo_sealable : sealable demo_full demo_inner demo_seg.
Proof.
  split_and!; try done; try (vm_compute; discriminate).
  - split_and!; [done|vm_compute; lia|vm_compute; discriminate].
  - split; [|split; [reflexivity|vm_compute; lia]].
    split_and!; [vm_compute; lia|vm_compute; discriminate| |vm_compute; discriminate|vm_compute; discriminate].
    simpl; repeat constructor; unfold key_fits; vm_compute; lia.
Qed.


Lemma demo_must_roll e :
  logical_end demo_frozen = Ok e -> inner_segment_size demo_inner < fl_seg_written demo_full + padded_len demo_inner e.
Proof. intros He. vm_compute in He. injection He as <-. vm_compute. lia. Qed.

Lemma flush_rolls_over_witness :
  exists self' inner' old new, @flush_buffer SortedAssoc _ demo_crc demo_full demo_inner demo_frozen = Ok (self', inner')
    /\ @seg_holds SortedAssoc _ _ demo_crc (inner_bs demo_inner) self' (records (b_min_lsn demo_frozen) [demo_payload])
    /\ fl_cur_seg self' = Some new /\ seg_id new = i_next_seg_id demo_inner
    /\ i_next_seg_id inner' = ((i_next_seg_id demo_inner + 1) mod 2 ^ 32)%Z
    /\ i_durable_lsn inner' = (b_min_lsn demo_frozen + Z.of_nat (length [demo_payload]) - 1)%Z
    /\ i_sealed inner' = i_sealed demo_inner ++ [old] /\ seg_log old = seg_log demo_seg
    /\ (@read_meta_header demo_crc old).1 = Ok (@sealed_header SortedAssoc _ _ demo_crc demo_full demo_seg)
    /\ index_readable (inner_bs demo_inner) (sf_idx (i_dir inner' (seg_id demo_seg))) (mem_layer (fl_cur_mem demo_full)).
Proof.
  assert ([demo_payload] <> []) as H1 by done.
  assert (0 <= b_min_lsn demo_frozen)%Z as H2 by (vm_compute; discriminate).
  assert (b_min_lsn demo_frozen + Z.of_nat (length [demo_payload]) <= u64_max)%Z as H3 by (vm_compute; discriminate).
  assert (is_u32 (i_next_seg_id demo_inner)) as H4 by (vm_compute; split; discriminate).
  assert (i_next_seg_id demo_inner <> seg_id demo_seg) as H5 by (vm_compute; discriminate).
  assert (fresh_files (i_dir demo_inner (i_next_seg_id demo_inner))) as H6 by (split_and!; reflexivity).
  exact (@flush_rolls_over SortedAssoc _ _ demo_crc demo_full demo_inner demo_frozen [demo_payload] demo_seg
    demo_frozen_holds H1 demo_sizes demo_sealable H2 H3 demo_must_roll H4 H5 H6).
Defined.
