(* ===== verification/WalLog.v ===== *)
(** The log facade (wal/impl.rs, [Wal]): opening, appending, swapping the active
    buffer for a free one, syncing and closing, with the flush thread behind a
    channel.

    One client thread calls the log and the flush thread runs beside it. A
    client call is split where another thread can intervene or where it
    waits: after a buffer was sent to the flush thread, while the free pool is
    empty, while [durable_lsn] is behind, while the flush thread has not
    ended. Between those points a call is one turn. Concurrent appends to one
    buffer are the subject of [WalBuffer]. *)

From stdpp Require Import base strings numbers sorting list.
From S2P Require Import Prelude.
From S2P Require Import Errors.
From S2P Require Import MemTable.
From S2P Require Import WalFrame.
From S2P Require Import WalFile.
From S2P Require Import WalBuffer.
From S2P Require Import WalMeta.
From S2P Require Import WalIndexFile.
From S2P Require Import WalFlush.

(** ** State *)

(** The log. A buffer carries a number, its identity as an [Arc]; the free
    buffers of [Inner] are numbered by [wl_pool_ids]. The channel outlives its
    sender, so the queue and the sender are two fields. *)
Record Wal (M : Type) := mkWal {
  wl_active : nat * WalBuffer;
  wl_inner : Inner;
  wl_pool_ids : list nat;
  wl_flush_tx : bool;
  wl_queue : list (nat * WalBuffer);
  wl_flush : FlushState M;
  wl_flush_running : bool;
  wl_flush_handle : bool;
}.
Arguments mkWal {M} _ _ _ _ _ _ _ _.
Arguments wl_active {M} _.
Arguments wl_inner {M} _.
Arguments wl_pool_ids {M} _.
Arguments wl_flush_tx {M} _.
Arguments wl_queue {M} _.
Arguments wl_flush {M} _.
Arguments wl_flush_running {M} _.
Arguments wl_flush_handle {M} _.

Definition wl_set_active {M} (self : Wal M) (a : nat * WalBuffer) : Wal M :=
  mkWal a (wl_inner self) (wl_pool_ids self) (wl_flush_tx self) (wl_queue self) (wl_flush self)
    (wl_flush_running self) (wl_flush_handle self).
Definition wl_set_queue {M} (self : Wal M) (q : list (nat * WalBuffer)) : Wal M :=
  mkWal (wl_active self) (wl_inner self) (wl_pool_ids self) (wl_flush_tx self) q (wl_flush self)
    (wl_flush_running self) (wl_flush_handle self).
Definition wl_set_tx {M} (self : Wal M) (tx : bool) : Wal M :=
  mkWal (wl_active self) (wl_inner self) (wl_pool_ids self) tx (wl_queue self) (wl_flush self)
    (wl_flush_running self) (wl_flush_handle self).
Definition wl_set_handle {M} (self : Wal M) (h : bool) : Wal M :=
  mkWal (wl_active self) (wl_inner self) (wl_pool_ids self) (wl_flush_tx self) (wl_queue self) (wl_flush self)
    (wl_flush_running self) h.
Definition wl_set_pool {M} (self : Wal M) (pool : list WalBuffer) (ids : list nat) : Wal M :=
  let i := wl_inner self in
  mkWal (wl_active self)
    (mkInner (i_config i) (i_dir i) (i_next_seg_id i) (i_durable_lsn i) (i_sealed i) pool (i_stop_flag i))
    ids (wl_flush_tx self) (wl_queue self) (wl_flush self) (wl_flush_running self) (wl_flush_handle self).
Definition wl_set_stop {M} (self : Wal M) : Wal M :=
  let i := wl_inner self in
  mkWal (wl_active self)
    (mkInner (i_config i) (i_dir i) (i_next_seg_id i) (i_durable_lsn i) (i_sealed i) (i_free_pool i) true)
    (wl_pool_ids self) (wl_flush_tx self) (wl_queue self) (wl_flush self) (wl_flush_running self) (wl_flush_handle self).

(** The call the client thread is in. *)
Inductive Resume := RAppend (payload : bytes) (old : nat) | RSync (target : Z) | RClose.
Inductive Client :=
| CIdle
| CAppend (payload : bytes)
| CSwap (next_min_lsn : Z) (k : Resume)
| CWait (payload : bytes) (old : nat)
| CSync (target : Z)
| CJoin.

(** ** Operations *)

Section Ops.
Context {M : Type} `{OrderedMap M} `{Crc32}.

(** [FlushState::new]. *)
Definition flush_state_new (active_seg : Segment) (active_mem : MemTable M) : FlushState M :=
  mkFlushState (Some active_seg) active_mem 0 0 0.

(** [Wal::open]; [mkdir] is the outcome of [create_dir_all], [uninit i] what the
    memory of the [i]-th buffer holds when it is allocated. *)
Definition wal_open (mkdir : WalResult unit) (uninit : nat -> nat -> Byte.byte) (dir : Z -> SegFiles)
    (config : WalConfig) : WalResult (Wal M) :=
  validate config ;;;
  mkdir ;;;
  let block_size := Z.to_nat (wc_block_size config) in
  let count := Z.to_nat (buffer_count config) in
  active <-- wal_buffer_alloc (uninit 0) (Z.to_nat (buffer_size config)) block_size 0 0 ;;
  free <-- rmap (fun i => wal_buffer_alloc (uninit i) (Z.to_nat (buffer_size config)) block_size 0 0) (seq 1 count) ;;
  let! (seg0, was_created) := segment_open (dir 0%Z) 0 (Z.to_nat (segment_size config)) block_size in
  seg0 <-- (if was_created
            then match write_meta_header_double seg0 (idx_header_new 0 0 0 0) with
                 | (Ok _, s) => Ok s
                 | (Err e, _) => Err e
                 | (Panic, _) => Panic
                 end
            else Ok seg0) ;;
  Ok (mkWal (0, active) (mkInner config dir 1 0 [] free false) (seq 1 count) true []
        (flush_state_new seg0 memtable_new) true true).

(** [Wal::durable_lsn]. *)
Definition wal_durable_lsn (self : Wal M) : Lsn := mkLsn (i_durable_lsn (wl_inner self)).

(** One round of the loop of [Wal::append] on the active buffer: [None] when the
    frame does not fit. *)
Definition append_frame (b : WalBuffer) (payload : bytes) : WalResult (option Z * WalBuffer) :=
  let frame_len := HEADER_LEN + length payload in
  let (claim, b) := claim_buffer_range b frame_len in
  match claim with
  | None => Ok (None, b)
  | Some pos =>
      let! (idx, b) := claim_slot b in
      let lsn := (b_min_lsn b + Z.of_nat idx)%Z in
      let b := set_in_flight b (b_in_flight b + 1) in
      let b := set_data b (write_at (b_data b) pos (encode_frame (mkLsn lsn) payload)) in
      word <-- pack (Z.of_nat pos) (Z.of_nat frame_len mod 2 ^ 32)%Z ;;
      rassert (bool_decide (idx < length (b_entries b))) ;;;
      let b := set_entries b (<[idx := word]> (b_entries b)) in
      Ok (Some lsn, set_in_flight b (b_in_flight b - 1))
  end.

(** [Wal::try_swap_full] up to [pop_free_buffer]: freeze the active buffer and send
    it; [None] when the buffer is already full. *)
Definition try_swap_full (self : Wal M) : option (Z * Wal M) :=
  let (id, old) := wl_active self in
  match b_state old with
  | STATE_FULL => None
  | STATE_ACTIVE =>
      let old := freeze old in
      let next_min_lsn := (b_min_lsn old + Z.of_nat (b_count old))%Z in
      let self := wl_set_active self (id, old) in
      Some (next_min_lsn,
            if wl_flush_tx self then wl_set_queue self (wl_queue self ++ [(id, old)]) else self)
  end.

(** [Wal::pop_free_buffer] and the end of [Wal::try_swap_full]: install a free
    buffer, give up when stopping, or wait ([None]). *)
Definition pop_free_buffer (self : Wal M) (next_min_lsn : Z) : option (Wal M) :=
  match last (i_free_pool (wl_inner self)), last (wl_pool_ids self) with
  | Some b, Some id =>
      Some (wl_set_active
              (wl_set_pool self (removelast (i_free_pool (wl_inner self))) (removelast (wl_pool_ids self)))
              (id, buffer_reset b next_min_lsn))
  | _, _ => if i_stop_flag (wl_inner self) then Some self else None
  end.

(** What a call does after its swap. *)
Definition resume (self : Wal M) (k : Resume) : Wal M * Client :=
  match k with
  | RAppend payload old => (self, CWait payload old)
  | RSync target => (self, CSync target)
  | RClose => (wl_set_tx self false, CJoin)
  end.

(** Start a swap on behalf of a call, or skip it when another one runs. *)
Definition swap_then (self : Wal M) (k : Resume) : Wal M * Client :=
  match try_swap_full self with
  | Some (next_min_lsn, self) => (self, CSwap next_min_lsn k)
  | None => resume self k
  end.

(** [Wal::append], up to its loop. *)
Definition call_append (self : Wal M) (payload : bytes) : Wal M * Client := (self, CAppend payload).

(** [Wal::sync], up to its wait. *)
Definition call_sync (self : Wal M) : Wal M * Client :=
  if i_stop_flag (wl_inner self) then (self, CIdle)
  else
    let buf := (wl_active self).2 in
    let target :=
      if decide (0 < b_entries_allocated buf) then (b_min_lsn buf + Z.of_nat (b_entries_allocated buf) - 1)%Z
      else Z.max 0 (b_min_lsn buf - 1) in
    swap_then self (RSync target).

(** [Wal::close], up to the join. *)
Definition call_close (self : Wal M) : Wal M * Client :=
  if wl_flush_handle self then swap_then (wl_set_stop self) RClose else (self, CIdle).

(** The client's next turn: the new state, and the record a finished append
    returned; [None] while it waits. *)
Definition client_turn (self : Wal M) (c : Client) : WalResult (option (Wal M * Client * option (Z * bytes))) :=
  match c with
  | CIdle => Ok None
  | CAppend payload =>
      if i_stop_flag (wl_inner self) then Ok (Some (self, CIdle, None))
      else
        let! (r, b) := append_frame (wl_active self).2 payload in
        let id := (wl_active self).1 in
        let self := wl_set_active self (id, b) in
        match r with
        | Some lsn => Ok (Some (self, CIdle, Some (lsn, payload)))
        | None => Ok (Some (swap_then self (RAppend payload id), None))
        end
  | CSwap next_min_lsn k =>
      match pop_free_buffer self next_min_lsn with
      | Some self => Ok (Some (resume self k, None))
      | None => Ok None
      end
  | CWait payload old =>
      if decide ((wl_active self).1 <> old) then Ok (Some (self, CAppend payload, None))
      else if i_stop_flag (wl_inner self) then Ok (Some (self, CAppend payload, None))
      else Ok None
  | CSync target =>
      if decide (target <= i_durable_lsn (wl_inner self))%Z then Ok (Some (self, CIdle, None))
      else if i_stop_flag (wl_inner self) then Ok (Some (self, CIdle, None))
      else Ok None
  | CJoin => if wl_flush_running self then Ok None else Ok (Some (wl_set_handle self false, CIdle, None))
  end.

(** The flush thread's next turn ([FlushState::run]): one buffer, or the end once
    the channel is closed and drained; [None] while it waits for a buffer. *)
Definition flush_turn (self : Wal M) : WalResult (option (Wal M)) :=
  if wl_flush_running self then
    match wl_queue self with
    | (id, buf) :: queue =>
        let! (st, inner) := flush_buffer (wl_flush self) (wl_inner self) buf in
        Ok (Some (mkWal (wl_active self) inner
                    (if i_stop_flag (wl_inner self) then wl_pool_ids self else wl_pool_ids self ++ [id])
                    (wl_flush_tx self) queue st true (wl_flush_handle self)))
    | [] =>
        if wl_flush_tx self then Ok None
        else
          let! (st, inner) := finalize_segment (wl_flush self) (wl_inner self) in
          Ok (Some (mkWal (wl_active self) inner (wl_pool_ids self) false [] st false (wl_flush_handle self)))
    end
  else Ok None.

(** ** Runs *)

(** The log, the client's call, and the records its appends returned so far. *)
Record Sys := mkSys { s_wal : Wal M; s_client : Client; s_returned : list (Z * bytes) }.

Definition returned_by (r : option (Z * bytes)) : list (Z * bytes) := match r with Some x => [x] | None => [] end.

(** A slice is shorter than 2^63 bytes. A sync may give up at its deadline. *)
Inductive wal_step : Sys -> Sys -> Prop :=
| step_call_append w payload rs :
    (Z.of_nat (length payload) < 2 ^ 63 - 16)%Z ->
    wal_step (mkSys w CIdle rs) (mkSys (call_append w payload).1 (call_append w payload).2 rs)
| step_call_sync w rs :
    wal_step (mkSys w CIdle rs) (mkSys (call_sync w).1 (call_sync w).2 rs)
| step_call_close w rs :
    wal_step (mkSys w CIdle rs) (mkSys (call_close w).1 (call_close w).2 rs)
| step_client w c rs w' c' r :
    client_turn w c = Ok (Some (w', c', r)) ->
    wal_step (mkSys w c rs) (mkSys w' c' (rs ++ returned_by r))
| step_timeout w target rs :
    wal_step (mkSys w (CSync target) rs) (mkSys w CIdle rs)
| step_flush w c rs w' :
    flush_turn w = Ok (Some w') -> wal_step (mkSys w c rs) (mkSys w' c rs).

Inductive wal_reachable (w0 : Wal M) : Sys -> Prop :=
| wal_start : wal_reachable w0 (mkSys w0 CIdle [])
| wal_more s s' : wal_reachable w0 s -> wal_step s s' -> wal_reachable w0 s'.
End Ops.
Arguments Sys : clear implicits.
Arguments mkSys {M} _ _ _.
