(* ===== verification/WalLogInv.v ===== *)
(** Invariants of the log facade of [WalLog]: an append with the buffer to itself read
    as a run of the steps of [WalBuffer], what a frozen buffer and a sealed or
    current segment hold, and the invariant of the flush thread with the effect
    of each of its turns. The invariant of whole runs is in [WalLogRun]. *)

From stdpp Require Import base strings numbers sorting list.
From S2P Require Import Prelude.
From S2P Require Import Errors.
From S2P Require Import Block.
From S2P Require Import BlockBuilder.
From S2P Require Import SstFooter.
From S2P Require Import SstBuilder.
From S2P Require Import SstBuilderCorrect.
From S2P Require Import MemTable.
From S2P Require Import LsmRefine.
From S2P Require Import WalFrame.
From S2P Require Import WalFile.
From S2P Require Import WalBuffer.
From S2P Require Import WalMeta.
From S2P Require Import WalIndexFile.
From S2P Require Import WalFlush.
From S2P Require Import WalLog.

#[local] Existing Instances Permutation_cons Permutation_app'.

Section Append.
Context `{Crc32}.

(** One append with the buffer to itself is a run of the steps of [append_step]. *)
Lemma append_frame_spec b0 b ws p :
  buffer_fresh b0 -> append_reachable b0 (mkAppending b ws) -> Forall (fun w => w_stage w = Returned) ws ->
  (b_write_pos b + Z.of_nat (HEADER_LEN + length p) <= u64_max)%Z ->
  exists r b', append_frame b p = Ok (r, b') /\ b_state b' = b_state b
    /\ b_write_pos b' = (b_write_pos b + Z.of_nat (HEADER_LEN + length p))%Z
    /\ match r with
       | Some lsn => lsn = (b_min_lsn b0 + Z.of_nat (b_entries_allocated b))%Z
           /\ (b_write_pos b + Z.of_nat (HEADER_LEN + length p) <= Z.of_nat (b_capacity b0))%Z
           /\ exists pos, append_reachable b0
                (mkAppending b' (ws ++ [mkWriter p pos (Some (b_entries_allocated b)) Returned]))
       | None => append_reachable b0 (mkAppending b' ws)
           /\ (Z.of_nat (b_capacity b0) < b_write_pos b + Z.of_nat (HEADER_LEN + length p))%Z
       end.
Proof.
  intros Hf Hr Hret Hmax. pose proof (append_reachable_inv _ _ Hf Hr) as Hi.
  pose proof (ai_pos _ _ Hi) as Hpos0. pose proof (ai_static _ _ Hi) as (Hmin & Hcap & Hmx). cbn [a_buf] in *.
  destruct (claim_buffer_range b (HEADER_LEN + length p)) as [[pos|] b1] eqn:Hcl;
    destruct (claim_range_spec _ _ _ _ Hpos0 Hmax Hcl) as [Hb1 Hfit].
  2:{ exists None, b1. unfold append_frame. rewrite Hcl. subst b1. split_and!; try done; [|simpl in Hcap; lia].
      eapply append_more; [exact Hr|]. by eapply step_overflow. }
  destruct Hfit as [Hpos Hfit].
  assert (append_reachable b0 (mkAppending b1 (ws ++ [mkWriter p pos None Claimed]))) as R1
    by (eapply append_more; [exact Hr|]; by eapply step_claim).
  pose proof (append_reachable_inv _ _ Hf R1) as I1. pose proof Hf as (_ & _ & _ & _ & Hmd & _ & Hc32).
  pose proof (claim_slot_ok b0 b1 ws [] p pos I1 Hmd) as Hslot. set (idx := b_entries_allocated b1) in *.
  assert (idx < length (b_entries b1)) as Hidx.
  { pose proof (ai_entries_len _ _ I1) as He1. destruct (ai_static _ _ I1) as (_ & _ & Hm1). cbn [a_buf] in He1, Hm1.
    rewrite He1, <- Hm1.
    unfold claim_slot in Hslot. destruct (bool_decide_reflect (b_entries_allocated b1 < b_max_entries b1)); [done|].
    done. }
  set (b2 := set_allocated b1 (idx + 1)) in *.
  set (b3 := set_in_flight b2 (b_in_flight b2 + 1)).
  set (b4 := set_data b3 (write_at (b_data b3) pos (writer_frame b3 idx p))).
  assert (exists word, pack (Z.of_nat pos) (Z.of_nat (HEADER_LEN + length p) mod 2 ^ 32)%Z = Ok (E := WalError) word) as [word Hpk].
  { unfold pack. rewrite bool_decide_true; [by eexists|]. unfold u32_max in Hc32. rewrite Hcap in Hfit. lia. }
  set (b5 := set_entries b4 (<[idx := word]> (b_entries b4))).
  exists (Some (b_min_lsn b + Z.of_nat idx)%Z), (set_in_flight b5 (b_in_flight b5 - 1)).
  assert (idx = b_entries_allocated b) as Hib by (unfold idx; by rewrite Hb1).
  split.
  { unfold append_frame. rewrite Hcl, Hslot. cbn [rbind]. change (b_min_lsn (set_allocated b1 (idx + 1))) with (b_min_lsn b1).
    rewrite Hpk. cbn [rbind]. rewrite bool_decide_true by done. cbn [rassert rbind].
    unfold b5, b4, b3, b2, writer_frame, writer_lsn. rewrite Hb1. done. }
  rewrite Hmin, Hcap in *. split_and!;
    [change (b_state b1 = b_state b); by rewrite Hb1
    |change (b_write_pos b1 = (b_write_pos b + Z.of_nat (HEADER_LEN + length p))%Z); by rewrite Hb1
    |by rewrite Hib|lia|].
  exists pos. rewrite <- Hib.
  assert (append_reachable b0 (mkAppending b2 (ws ++ [mkWriter p pos (Some idx) Slotted]))) as R2
    by (eapply append_more; [exact R1|]; by eapply (step_slot _ _ ws [])).
  assert (append_reachable b0 (mkAppending b3 (ws ++ [mkWriter p pos (Some idx) InFlight]))) as R3
    by (eapply append_more; [exact R2|]; by eapply (step_enter _ ws [])).
  assert (append_reachable b0 (mkAppending b4 (ws ++ [mkWriter p pos (Some idx) Copied]))) as R4
    by (eapply append_more; [exact R3|]; by eapply (step_copy _ ws [])).
  assert (append_reachable b0 (mkAppending b5 (ws ++ [mkWriter p pos (Some idx) Stored]))) as R5
    by (eapply append_more; [exact R4|]; by eapply (step_store _ ws [])).
  eapply append_more; [exact R5|]. by eapply (step_leave _ ws []).
Qed.
End Append.

(** ** Buffers *)

(** A configuration [validate] accepts, of machine sizes, with buffers a slot word
    can address and blocks the index format can hold. *)
Definition log_config (c : WalConfig) : Prop :=
  config_ok c /\ (0 <= buffer_size c <= u32_max)%Z /\ (wc_block_size c <= 2 ^ 30)%Z
  /\ (segment_size c <= u64_max)%Z.

Lemma config_block_size c : log_config c -> block_size_ok (Z.to_nat (wc_block_size c)).
Proof.
  intros (((k & Hk & Hbs) & _) & _ & Hmax & _).
  assert (2 ^ 9 <= wc_block_size c)%Z by (rewrite Hbs; apply Z.pow_le_mono_r; lia).
  split_and!; [|unfold IDX_HEADER_LEN; lia|lia]. rewrite Z2Nat.id by lia. apply is_power_of_two_spec. exists k. split; [lia|done].
Qed.

Definition buffer_shape (c : WalConfig) (b : WalBuffer) : Prop :=
  Z.of_nat (b_capacity b) = buffer_size c /\ length (b_data b) = b_capacity b
  /\ b_max_entries b = b_capacity b / HEADER_LEN /\ length (b_entries b) = b_max_entries b.

Section Buffers.
Context `{Crc32} (c : WalConfig).

(** A buffer on its way to the flush thread, with the records from LSN [n] on. *)
Definition frozen_ok (n : nat) (b : WalBuffer) (ps : list bytes) : Prop :=
  b_min_lsn b = Z.of_nat n /\ buffer_shape c b /\ buffer_holds b ps.

(** A buffer appends have filled, one after the other, from LSN [n] on. *)
Definition appended (n : nat) (b : WalBuffer) (ps : list bytes) : Prop :=
  exists b0 ws, buffer_fresh b0 /\ append_reachable b0 (mkAppending b ws)
    /\ Forall (fun w => w_stage w = Returned) ws /\ (forall i w, ws !! i = Some w -> w_slot w = Some i)
    /\ w_payload <$> ws = ps /\ b_min_lsn b0 = Z.of_nat n /\ buffer_shape c b0.

Definition active_ok (n : nat) (b : WalBuffer) (ps : list bytes) : Prop :=
  appended n b ps /\ b_state b = STATE_ACTIVE /\ (b_write_pos b <= buffer_size c)%Z.

Lemma reset_active b n :
  log_config c -> buffer_shape c b -> active_ok n (buffer_reset b (Z.of_nat n)) [].
Proof.
  intros (_ & Hsz & _) (S1 & S2 & S3 & S4). split_and!; [|done|simpl; lia].
  exists (buffer_reset b (Z.of_nat n)), []. split_and!; try done; [|by constructor].
  split_and!; try done. simpl. lia.
Qed.

Lemma slots_all ws : Forall (fun w => is_Some (w_slot w)) ws -> length (slots ws) = length ws.
Proof.
  induction 1 as [|w ws [i Hi] _ IH]; [done|]. pose proof (slots_middle [] w ws) as Hm. simpl app in Hm.
  rewrite Hm, Hi, !length_app, IH. done.
Qed.

Lemma appended_inv n b ps :
  appended n b ps -> b_min_lsn b = Z.of_nat n /\ b_entries_allocated b = length ps /\ buffer_shape c b
    /\ b_in_flight b = 0 /\ (0 <= b_write_pos b)%Z.
Proof.
  intros (b0 & ws & Hf & Hr & Hret & Hsl & Hps & Hmin & S1 & S2 & S3 & S4).
  pose proof (append_reachable_inv _ _ Hf Hr) as Hi. pose proof (ai_static _ _ Hi) as (E1 & E2 & E3).
  pose proof (slots_allocated _ _ Hi) as Ha. pose proof (ai_data_len _ _ Hi) as Hd.
  pose proof (ai_entries_len _ _ Hi) as He. pose proof (ai_in_flight _ _ Hi) as Hn. pose proof (ai_pos _ _ Hi) as Hp.
  cbn [a_buf a_writers] in *. rewrite slots_all in Ha.
  2:{ apply Forall_lookup. intros i w Hw. rewrite (Hsl i w Hw). by eexists. }
  split_and!; [congruence|by rewrite <- Hps, length_fmap|split_and!; congruence| |done].
  rewrite Hn. clear -Hret. induction Hret as [|w ws Hw _ IH]; [done|]. by rewrite filter_cons, Hw.
Qed.

(** One append, with the buffer to itself. *)
Lemma active_append n b ps p :
  log_config c -> active_ok n b ps -> (Z.of_nat (length p) < 2 ^ 63 - 16)%Z ->
  exists r b', append_frame b p = Ok (r, b')
    /\ match r with
       | Some lsn => lsn = Z.of_nat (n + length ps) /\ active_ok n b' (ps ++ [p])
       | None => appended n b' ps /\ b_state b' = STATE_ACTIVE
           /\ (buffer_size c < b_write_pos b + Z.of_nat (HEADER_LEN + length p))%Z
       end.
Proof.
  intros (_ & Hsz & _) (Ha & Hst & Hwp) Hp. pose proof (appended_inv _ _ _ Ha) as (Hmin & Hal & (S1 & _) & _ & H0).
  pose proof Ha as (b0 & ws & Hf & Hr & Hret & Hsl & Hps & Hm0 & Hsh). pose proof Hsh as (S1' & _).
  destruct (append_frame_spec b0 b ws p Hf Hr Hret) as (r & b' & Hap & Hst' & Hwp' & Hres).
  { unfold u32_max, u64_max, HEADER_LEN in *. lia. }
  exists r, b'. split; [done|]. rewrite Hst in Hst'. destruct r as [lsn|].
  - destruct Hres as (-> & Hfit & pos & Hr'). split; [rewrite Hm0, Hal; lia|]. split_and!; [|done|lia].
    exists b0, (ws ++ [mkWriter p pos (Some (b_entries_allocated b)) Returned]). split_and!; try done.
    + apply Forall_app. split; [done|]. by repeat constructor.
    + assert (length ws = b_entries_allocated b) as Hlw by (by rewrite Hal, <- Hps, length_fmap).
      intros i w [Hi|[Hi Hw]]%lookup_app_Some; [by apply Hsl|]. destruct (i - length ws) as [|k] eqn:Hk; [|done].
      simpl in Hw. injection Hw as <-. simpl. f_equal. lia.
    + by rewrite fmap_app, Hps.
  - destruct Hres as (Hr' & Hfull). split_and!; [|done|lia]. exists b0, ws. by split_and!.
Qed.

(** Freezing the active buffer. *)
Lemma appended_freeze n b ps : appended n b ps -> frozen_ok n (freeze b) ps.
Proof.
  intros Ha. pose proof (appended_inv _ _ _ Ha) as (Hmin & Hal & Hsh & _).
  destruct Ha as (b0 & ws & Hf & Hr & Hret & Hsl & Hps & _). split_and!; [done|done|].
  destruct (quiescent_holds _ _ Hf Hr Hret) as (ps' & Hb & Hws). cbn [a_buf a_writers] in *.
  replace ps with ps'; [done|]. apply list_eq_same_length with (length ps).
  - done.
  - destruct Hb as (Hc & _). by rewrite <- Hc, <- Hal.
  - intros i p' p Hi Hp' Hpi. rewrite <- Hps, list_lookup_fmap in Hpi. destruct (ws !! i) as [w|] eqn:Hw; [|done].
    simpl in Hpi. injection Hpi as <-. destruct (Hws w) as (idx & Hidx & Hpw); [by apply list_elem_of_lookup_2 with i|].
    rewrite (Hsl i w Hw) in Hidx. injection Hidx as <-. congruence.
Qed.
End Buffers.

(** ** The flush thread *)

Section Flush.
Context {M : Type} `{OrderedMapLaws M} `{Crc32}.

(** A sealed segment keeps its records: durable in its log, listed in order by the
    index its [.idx] file was sealed from, and counted by its header. *)
Definition sealed_holds (inner : Inner) (seg : Segment) (recs : list (Z * bytes)) : Prop :=
  exists (mem : MemTable M) written h,
    f_pending (seg_log seg) = [] /\ Forall2 (rec_at (f_durable (seg_log seg)) written) recs (mem_layer mem)
    /\ seal_index (inner_bs inner) (mkFile [] [] []) mem = Ok (sf_idx (i_dir inner (seg_id seg)))
    /\ (read_meta_header seg).1 = Ok h /\ ih_entry_count h = Z.of_nat (length recs).

(** The segments hold [recs] in LSN order: the sealed ones, then the current one. *)
Definition log_holds (inner : Inner) (st : FlushState M) (recs : list (Z * bytes)) : Prop :=
  exists sealed cur, recs = concat sealed ++ cur /\ Forall2 (sealed_holds inner) (i_sealed inner) sealed
    /\ seg_holds (inner_bs inner) st cur.

Definition unused (files : SegFiles) : Prop := fresh_files files /\ idx_new files.

Record flush_inv (c : WalConfig) (inner : Inner) (st : FlushState M) (ps : list bytes)
  (sealed : list (list (Z * bytes))) (cur : list (Z * bytes)) (seg : Segment) : Prop := {
  fi_config : i_config inner = c;
  fi_recs : records 0 ps = concat sealed ++ cur;
  fi_sealed : Forall2 (sealed_holds inner) (i_sealed inner) sealed;
  fi_cur : seg_holds (inner_bs inner) st cur;
  fi_seg : fl_cur_seg st = Some seg;
  fi_id : seg_id seg = Z.of_nat (length sealed);
  fi_ids : Forall (fun s => seg_id s < seg_id seg)%Z (i_sealed inner);
  fi_next : i_next_seg_id inner = (seg_id seg + 1)%Z;
  fi_used : Forall (fun recs => recs <> []) sealed;
  fi_written : cur = [] -> fl_seg_written st = 0;
  fi_meta : f_pending (seg_meta seg) = [] /\ f_script (seg_meta seg) = [];
  fi_idx : idx_new (i_dir inner (seg_id seg));
  fi_unused : forall j, (seg_id seg < j)%Z -> unused (i_dir inner j);
  fi_min : is_u64 (fl_seg_min_lsn st);
  fi_max : is_u64 (fl_seg_max_lsn st);
  fi_room : fl_seg_written st <= inner_segment_size inner;
  fi_small : Forall (fun p => Z.of_nat (frame_len p) <= buffer_size c)%Z ps;
}.

Lemma length_records n ps : length (records n ps) = length ps.
Proof. apply length_imap. Qed.
Lemma records_app n ps ps' :
  records n (ps ++ ps') = records n ps ++ records (n + Z.of_nat (length ps)) ps'.
Proof. unfold records. rewrite imap_app. f_equal. apply imap_ext. intros i p _. simpl. f_equal. lia. Qed.
Lemma records_lsns n ps r :
  r ∈ records n ps -> (n <= r.1 < n + Z.of_nat (length ps))%Z.
Proof.
  intros Hin. unfold records in Hin. apply list_elem_of_lookup in Hin as [i Hi].
  rewrite list_lookup_imap in Hi. destruct (ps !! i) eqn:Hp; [|done]. simpl in Hi. injection Hi as <-.
  apply lookup_lt_Some in Hp. simpl. lia.
Qed.

(** An index of records fits the SST format. *)
Lemma index_of_records_fits c log written recs l :
  log_config c -> Forall2 (rec_at log written) recs l -> (Z.of_nat (length recs) <= 2 ^ 30)%Z ->
  index_fits (Z.to_nat (wc_block_size c)) l.
Proof.
  intros (((k & Hk & Hbs) & _) & _ & Hmax & _) HF Hn. rewrite (Forall2_length _ _ _ HF) in Hn.
  assert (2 ^ 9 <= wc_block_size c)%Z by (rewrite Hbs; apply Z.pow_le_mono_r; lia).
  assert (forall kv, kv ∈ l -> length kv.1 = 8 /\ exists v, kv.2 = Put v /\ length v = 12) as Hl.
  { intros kv Hin. apply list_elem_of_lookup in Hin as [i Hi]. destruct (Forall2_lookup_r _ _ _ _ _ HF Hi) as (r & _ & off & -> & _).
    simpl. split; [apply length_be_bytes|]. eexists. split; [done|]. unfold encode_offset_len.
    by rewrite length_app, !length_le_bytes. }
  split_and!; [split_and!| |].
  - unfold BLOCK_FIXED_HEADER_SIZE. lia.
  - unfold u32_max. lia.
  - apply Forall_fmap, Forall_forall. intros [key v] Hin. destruct (Hl _ Hin) as [Hk8 (v' & Hv & Hv12)]. simpl in *. subst v.
    unfold entry_fits, key_fits, block_entry, BLOCK_FIXED_HEADER_SIZE. simpl. lia.
  - unfold u64_max. nia.
  - unfold u32_max. lia.
  - rewrite Z2Nat.id by lia. apply is_power_of_two_spec. exists k. split; [lia|done].
  - assert (length (default [] (fst <$> head l)) <= 8) as H8.
    { destruct l as [|kv l]; simpl; [lia|]. destruct (Hl kv) as [-> _]; [apply elem_of_cons; auto|lia]. }
    assert (length (default [] (fst <$> last l)) <= 8) as H8'.
    { destruct (last l) as [kv|] eqn:Hlast; simpl; [|lia]. destruct (Hl kv) as [-> _]; [by apply last_Some_elem_of|lia]. }
    unfold MIN_LEN. lia.
Qed.

Lemma flush_inv_ext c inner inner' st ps sealed cur seg :
  i_config inner' = i_config inner -> i_dir inner' = i_dir inner -> i_next_seg_id inner' = i_next_seg_id inner ->
  i_sealed inner' = i_sealed inner ->
  flush_inv c inner st ps sealed cur seg -> flush_inv c inner' st ps sealed cur seg.
Proof.
  intros E1 E2 E3 E4 []. assert (inner_bs inner' = inner_bs inner) as Eb by (unfold inner_bs; by rewrite E1).
  assert (inner_segment_size inner' = inner_segment_size inner) as Es by (unfold inner_segment_size; by rewrite E1).
  split; rewrite ?E1, ?E2, ?E3, ?E4, ?Eb, ?Es; try done.
  eapply Forall2_impl; [exact fi_sealed0|]. intros s r (mem & written & h & Hs). exists mem, written, h.
  by rewrite Eb, E2.
Qed.

Lemma concat_nonempty {A} (ls : list (list A)) : Forall (fun l => l <> []) ls -> length ls <= length (concat ls).
Proof. induction 1 as [|l ls Hl _ IH]; [done|]. simpl. rewrite length_app. destruct l; [done|]. simpl in *. lia. Qed.

Section Turn.
Context (c : WalConfig) (inner : Inner) (st : FlushState M) (ps : list bytes)
  (sealed : list (list (Z * bytes))) (cur : list (Z * bytes)) (seg : Segment).
Context (Hcfg : log_config c) (Hinv : flush_inv c inner st ps sealed cur seg) (Hn : (Z.of_nat (length ps) <= 2 ^ 30)%Z).

Lemma flush_counts : length sealed + length cur <= length ps /\ is_u32 (seg_id seg) /\ is_u32 (i_next_seg_id inner).
Proof.
  pose proof (concat_nonempty _ (fi_used _ _ _ _ _ _ _ Hinv)) as Hc.
  pose proof (f_equal length (fi_recs _ _ _ _ _ _ _ Hinv)) as Hl. rewrite length_records, length_app in Hl.
  rewrite (fi_next _ _ _ _ _ _ _ Hinv), (fi_id _ _ _ _ _ _ _ Hinv). unfold is_u32, u32_max. split_and!; lia.
Qed.

Lemma block_size_fine : block_size_ok (inner_bs inner).
Proof. unfold inner_bs. rewrite (fi_config _ _ _ _ _ _ _ Hinv). by apply config_block_size. Qed.

Lemma inv_sealable : cur <> [] -> sealable st inner seg.
Proof.
  intros Hne. pose proof flush_counts as (Hc & Hid & _). pose proof block_size_fine as Hbs.
  destruct (fi_cur _ _ _ _ _ _ _ Hinv) as (seg' & Hs & Hp & Hscr & Hsb & Hmod & Hwl & HF2).
  rewrite (fi_seg _ _ _ _ _ _ _ Hinv) in Hs. injection Hs as <-.
  split_and!; try done; try apply Hinv.
  - unfold inner_bs. rewrite (fi_config _ _ _ _ _ _ _ Hinv).
    eapply index_of_records_fits; [done|exact HF2|]. lia.
  - intros Hm. rewrite Hm in HF2. by inversion HF2; subst.
Qed.

Lemma buffer_flush_sizes buf n ps' : frozen_ok c n buf ps' -> flush_sizes inner buf.
Proof.
  intros (_ & (Hcap & _) & _). unfold flush_sizes. rewrite (fi_config _ _ _ _ _ _ _ Hinv).
  destruct Hcfg as (Hok & Hsz & Hbs & _). split_and!; [done|done|]. unfold u32_max, u64_max in *. lia.
Qed.

Lemma flushed_lsns : Forall (fun r => 0 <= r.1 < Z.of_nat (length ps))%Z cur.
Proof.
  apply Forall_forall. intros r Hr. apply (records_lsns 0 ps). rewrite (fi_recs _ _ _ _ _ _ _ Hinv).
  apply elem_of_app. auto.
Qed.

(** Rolling over keeps the sealed segments and seals the current one. *)
Lemma rolled_sealed f idx :
  (read_meta_header (with_meta seg f)).1 = Ok (sealed_header st seg) ->
  seal_index (inner_bs inner) (sf_idx (i_dir inner (seg_id seg))) (fl_cur_mem st) = Ok idx ->
  Forall2 (sealed_holds (rolled inner (with_meta seg f) idx)) (i_sealed inner ++ [with_meta seg f]) (sealed ++ [cur]).
Proof.
  intros Hhdr Hseal. rewrite (proj2 (fi_idx _ _ _ _ _ _ _ Hinv)) in Hseal.
  apply Forall2_app; [|constructor; [|constructor]].
  - pose proof (fi_ids _ _ _ _ _ _ _ Hinv) as Hids. pose proof (fi_sealed _ _ _ _ _ _ _ Hinv) as Hsd.
    apply Forall2_same_length_lookup_2; [by eapply Forall2_length|].
    intros i s r Hs Hr. destruct (Forall2_lookup_lr _ _ _ _ _ _ Hsd Hs Hr) as (mem & written & h & A1 & A2 & A3 & A4).
    exists mem, written, h. split_and!; try done; try apply A4. simpl. rewrite decide_False; [done|].
    pose proof (Forall_lookup_1 _ _ _ _ Hids Hs). simpl in *. lia.
  - destruct (fi_cur _ _ _ _ _ _ _ Hinv) as (seg' & Hs & Hp & _ & _ & _ & _ & HF2).
    rewrite (fi_seg _ _ _ _ _ _ _ Hinv) in Hs. injection Hs as <-.
    exists (fl_cur_mem st), (fl_seg_written st), (sealed_header st seg). split_and!; try done; simpl.
    + by rewrite decide_True.
    + by rewrite (Forall2_length _ _ _ HF2).
Qed.

Context (buf : WalBuffer) (ps' : list bytes).
Context (Hbuf : frozen_ok c (length ps) buf ps') (Hne : ps' <> []) (Hn' : (Z.of_nat (length (ps ++ ps')) <= 2 ^ 30)%Z).

(** The shared state after the flush of [buf]. *)
Definition flushed_inner (i : Inner) (data : bytes) : Inner :=
  recycle_buffer (set_durable i (Z.of_nat (length (ps ++ ps')) - 1)) (set_data buf data).

Lemma flushed_inner_ext i data st' sealed' cur' seg' :
  flush_inv c i st' (ps ++ ps') sealed' cur' seg' -> flush_inv c (flushed_inner i data) st' (ps ++ ps') sealed' cur' seg'.
Proof.
  destruct (recycle_inner (set_durable i (Z.of_nat (length (ps ++ ps')) - 1)) (set_data buf data))
    as (E1 & E2 & E3 & _ & E5 & _). by apply flush_inv_ext.
Qed.

Lemma flushed_small : Forall (fun p => Z.of_nat (frame_len p) <= buffer_size c)%Z (ps ++ ps').
Proof.
  apply Forall_app. split; [apply Hinv|]. destruct Hbuf as (_ & (Hcap & _) & (_ & _ & _ & Hsl)).
  apply Forall_lookup. intros i p Hp. destruct (Hsl i p Hp) as (pos & word & _ & _ & Hle & _). unfold frame_len. lia.
Qed.

Lemma flushed_some : 0 < length ps'.
Proof. clear Hbuf Hn'. destruct ps'; [done|simpl; lia]. Qed.

(** A flush into the current segment. *)
Lemma turn_fits e :
  logical_end buf = Ok e -> fl_seg_written st + padded_len inner e <= inner_segment_size inner ->
  exists st' data seg', flush_buffer st inner buf = Ok (st', flushed_inner inner data)
    /\ length data = length (b_data buf)
    /\ flush_inv c (flushed_inner inner data) st' (ps ++ ps') sealed (cur ++ records (Z.of_nat (length ps)) ps') seg'.
Proof.
  intros He Hfit. pose proof Hbuf as (Hmin & Hsh & Hholds). rewrite length_app in Hn'.
  edestruct (flush_after_ensure st inner buf ps' st inner cur)
    as (st' & padded & sg & log & data & Hf & Hs & Hw & _ & Hmax & Hmn & Hcs & Hcs' & Hd & (e2 & He2 & Hpad));
    [done|done|by eapply buffer_flush_sizes| |apply Hinv|rewrite Hmin; apply flushed_lsns; done|rewrite Hmin; lia|rewrite Hmin; unfold u64_max; lia|].
  { intros e' He'. rewrite He in He'. injection He' as <-. unfold ensure_segment. by rewrite decide_True. }
  rewrite Hmin in *. replace (Z.of_nat (length ps) + Z.of_nat (length ps') - 1)%Z with (Z.of_nat (length (ps ++ ps')) - 1)%Z in *
    by (rewrite length_app; lia).
  exists st', data, (with_log sg log). split_and!; [exact Hf|done|]. apply flushed_inner_ext.
  rewrite (fi_seg _ _ _ _ _ _ _ Hinv) in Hcs. injection Hcs as <-. destruct Hinv. split; try done.
  - rewrite records_app, fi_recs0, app_assoc. done.
  - intros Happ. apply app_eq_nil in Happ as [_ Hr]. apply (f_equal length) in Hr. rewrite length_records in Hr.
    pose proof flushed_some. simpl in Hr. lia.
  - by rewrite Hmn.
  - rewrite Hmax. unfold is_u64, u64_max. rewrite length_app. pose proof flushed_some. lia.
  - rewrite Hw, Hpad. rewrite He in He2. injection He2 as <-. done.
  - apply flushed_small.
Qed.

(** A flush that seals the current segment and opens the next. *)
Lemma turn_rolls e :
  logical_end buf = Ok e -> inner_segment_size inner < fl_seg_written st + padded_len inner e ->
  exists st' inner1 data seg', flush_buffer st inner buf = Ok (st', flushed_inner inner1 data)
    /\ length data = length (b_data buf)
    /\ i_free_pool inner1 = i_free_pool inner /\ i_stop_flag inner1 = i_stop_flag inner
    /\ flush_inv c (flushed_inner inner1 data) st' (ps ++ ps') (sealed ++ [cur]) (records (Z.of_nat (length ps)) ps') seg'.
Proof.
  intros He Hroll. pose proof Hbuf as (Hmin & Hsh & Hholds).
  pose proof (buffer_flush_sizes _ _ _ Hbuf) as Hsz. pose proof flush_counts as (Hcnt & Hid & Hnid).
  assert (cur <> []) as Hcne.
  { intros ->. rewrite (fi_written _ _ _ _ _ _ _ Hinv eq_refl) in Hroll.
    destruct (logical_end_spec buf ps' (length ps') Hholds) as (e' & He' & Hcap & _); [lia|].
    pose proof Hholds as (Hct & _). unfold logical_end in He. rewrite Hct in He. rewrite He in He'. injection He' as <-.
    destruct (padded_len_ok inner buf e Hsz Hcap) as (_ & _ & Hlt). lia. }
  pose proof (inv_sealable Hcne) as Hsl. rewrite length_app in Hn'.
  destruct (ensure_rolls st inner seg (b_min_lsn buf) (padded_len inner e) Hsl Hroll)
    as (f & idx & meta & Hens & Hseal & Hhdr & Hmp & Hms).
  { rewrite Hmin. unfold is_u64, u64_max. lia. } { done. }
  { rewrite (fi_next _ _ _ _ _ _ _ Hinv). lia. }
  { apply (fi_unused _ _ _ _ _ _ _ Hinv). rewrite (fi_next _ _ _ _ _ _ _ Hinv). lia. }
  edestruct (flush_after_ensure st inner buf ps')
    as (st' & padded & sg & log & data & Hf & Hs & Hw & _ & Hmax & Hmn & Hcs & Hcs' & Hd & (e2 & He2 & Hpad));
    [done|done|done| |apply seg_holds_fresh|constructor|rewrite Hmin; lia|rewrite Hmin; unfold u64_max; lia|].
  { intros e' He'. rewrite He in He'. injection He' as <-. exact Hens. }
  rewrite Hmin in *. replace (Z.of_nat (length ps) + Z.of_nat (length ps') - 1)%Z with (Z.of_nat (length (ps ++ ps')) - 1)%Z in *
    by (rewrite length_app; lia).
  exists st', (rolled inner (with_meta seg f) idx), data, (with_log sg log). split_and!; [exact Hf|done|done|done|].
  apply flushed_inner_ext. cbn [fl_cur_seg] in Hcs. injection Hcs as <-. pose proof flushed_some as Hpos.
  assert (inner_bs (rolled inner (with_meta seg f) idx) = inner_bs inner) as Eb by done.
  split; rewrite ?Eb; try done.
  - apply Hinv.
  - rewrite records_app, (fi_recs _ _ _ _ _ _ _ Hinv), concat_app. simpl. by rewrite app_nil_r.
  - by apply rolled_sealed.
  - simpl. rewrite length_app, (fi_next _ _ _ _ _ _ _ Hinv), (fi_id _ _ _ _ _ _ _ Hinv). simpl. lia.
  - simpl. rewrite (fi_next _ _ _ _ _ _ _ Hinv). apply Forall_app. split; [|constructor; [simpl; lia|constructor]].
    eapply Forall_impl; [apply Hinv|]. intros s0 Hs0. simpl in *. lia.
  - simpl. pose proof (fi_id _ _ _ _ _ _ _ Hinv). rewrite (fi_next _ _ _ _ _ _ _ Hinv), Z.mod_small; lia.
  - apply Forall_app. split; [apply Hinv|]. by repeat constructor.
  - intros Hr. apply (f_equal length) in Hr. rewrite length_records in Hr. simpl in Hr. lia.
  - simpl. rewrite (fi_next _ _ _ _ _ _ _ Hinv). rewrite decide_False by lia.
    apply (fi_unused _ _ _ _ _ _ _ Hinv). lia.
  - simpl. rewrite (fi_next _ _ _ _ _ _ _ Hinv). intros j Hj. rewrite decide_False by lia.
    apply (fi_unused _ _ _ _ _ _ _ Hinv). lia.
  - rewrite Hmn. simpl. unfold is_u64, u64_max. lia.
  - rewrite Hmax. unfold is_u64, u64_max. rewrite length_app. lia.
  - rewrite Hw, Hpad. cbn [fl_seg_written Nat.add]. change (inner_segment_size (rolled _ _ _)) with (inner_segment_size inner).
    destruct (logical_end_spec buf ps' (length ps') Hholds) as (e' & He' & Hcap & _); [lia|].
    pose proof Hholds as (Hct & _). unfold logical_end in He2. rewrite Hct in He2. rewrite He2 in He'. injection He' as <-.
    destruct (padded_len_ok inner buf e2 Hsz Hcap) as (_ & _ & Hlt). lia.
  - apply flushed_small.
Qed.
End Turn.
End Flush.

(** ** The invariant of the log *)

Section Inv.
Context {M : Type} `{OrderedMapLaws M} `{Crc32} (c : WalConfig).

Definition log_inv (inner : Inner) (st : FlushState M) (ps : list bytes) : Prop :=
  exists sealed cur seg, flush_inv c inner st ps sealed cur seg.

(** The log after its flush thread has ended: every segment with a record is sealed. *)
Definition closed_holds (inner : Inner) (st : FlushState M) (recs : list (Z * bytes)) : Prop :=
  exists sealed cur seg, recs = concat sealed ++ cur /\ Forall2 (sealed_holds (M := M) inner) (i_sealed inner) sealed
    /\ fl_cur_seg st = Some seg /\ (cur <> [] -> sealed_holds (M := M) inner seg cur).

(** What one flush turn leaves, for records [ps] before it and [ps'] in the buffer. *)
Definition turned (inner : Inner) (st : FlushState M) (buf : WalBuffer) (ps ps' : list bytes) : Prop :=
  exists st' inner' b, flush_buffer st inner buf = Ok (st', inner') /\ log_inv inner' st' (ps ++ ps')
    /\ i_config inner' = i_config inner /\ i_stop_flag inner' = i_stop_flag inner
    /\ i_free_pool inner' = (if i_stop_flag inner then i_free_pool inner else i_free_pool inner ++ [b]) /\ buffer_shape c b
    /\ i_durable_lsn inner' = (if decide (ps' = []) then i_durable_lsn inner else Z.of_nat (length (ps ++ ps')) - 1)%Z.

Lemma turned_flushed inner st buf ps ps' st' inner1 data sealed cur seg :
  ps' <> [] -> buffer_shape c buf ->
  flush_buffer st inner buf = Ok (st', flushed_inner ps buf ps' inner1 data) -> length data = length (b_data buf) ->
  i_free_pool inner1 = i_free_pool inner -> i_stop_flag inner1 = i_stop_flag inner -> i_config inner = c ->
  flush_inv c (flushed_inner ps buf ps' inner1 data) st' (ps ++ ps') sealed cur seg -> turned inner st buf ps ps'.
Proof.
  intros Hne (S1 & S2 & S3 & S4) Hf Hd Hp Hs Hc Hi. eexists st', _, (buffer_reset (set_data buf data) 0).
  rewrite decide_False by done. split; [exact Hf|]. split; [by exists sealed, cur, seg|].
  split; [by rewrite (fi_config _ _ _ _ _ _ _ Hi)|]. unfold flushed_inner.
  destruct (recycle_inner (set_durable inner1 (Z.of_nat (length (ps ++ ps')) - 1)) (set_data buf data))
    as (_ & _ & _ & E4 & _ & E6). rewrite E4, E6. simpl. split_and!; try done.
  - unfold recycle_buffer. simpl. rewrite Hs, Hp. by destruct (i_stop_flag inner).
  - split_and!; [exact S1|exact (eq_trans Hd S2)|exact S3|exact S4].
Qed.

(** The flush thread handles any frozen buffer that follows its records. *)
Lemma flush_buffer_turn inner st ps buf ps' :
  log_config c -> log_inv inner st ps -> frozen_ok c (length ps) buf ps' ->
  (Z.of_nat (length (ps ++ ps')) <= 2 ^ 30)%Z -> turned inner st buf ps ps'.
Proof.
  intros Hcfg (sealed & cur & seg & Hinv) Hbuf Hn. pose proof Hbuf as (_ & Hsh & Hholds). pose proof Hholds as (Hct & _).
  destruct (decide (ps' = [])) as [->|Hne].
  { exists st, (recycle_buffer inner buf), (buffer_reset buf 0). rewrite app_nil_r in *. rewrite decide_True by done.
    destruct (recycle_inner inner buf) as (E1 & E2 & E3 & E4 & E5 & E6). unfold flush_buffer. rewrite decide_True by done.
    split_and!; try done; try apply Hsh; [|unfold recycle_buffer; by destruct (i_stop_flag inner)].
    exists sealed, cur, seg. by eapply flush_inv_ext. }
  assert (Z.of_nat (length ps) <= 2 ^ 30)%Z as Hn0 by (rewrite length_app in Hn; lia).
  destruct (logical_end_spec buf ps' (length ps') Hholds) as (e & He & _); [lia|]. rewrite <- Hct in He.
  fold (logical_end buf) in He. pose proof (fi_config _ _ _ _ _ _ _ Hinv) as Hc.
  destruct (decide (fl_seg_written st + padded_len inner e <= inner_segment_size inner)) as [Hfit|Hroll].
  - destruct (turn_fits c inner st ps sealed cur seg Hcfg Hinv buf ps' Hbuf Hne Hn e He Hfit)
      as (st' & data & seg' & Hf & Hd & Hi). by eapply turned_flushed.
  - apply Nat.nle_gt in Hroll.
    destruct (turn_rolls c inner st ps sealed cur seg Hcfg Hinv Hn0 buf ps' Hbuf Hne Hn e He Hroll)
      as (st' & inner1 & data & seg' & Hf & Hd & Hp & Hs & Hi). by eapply turned_flushed.
Qed.

(** The end of the flush thread seals the last segment. *)
Lemma finalize_turn inner st ps :
  log_config c -> log_inv inner st ps -> (Z.of_nat (length ps) <= 2 ^ 30)%Z ->
  exists st' inner', finalize_segment st inner = Ok (st', inner') /\ closed_holds inner' st' (records 0 ps)
    /\ i_config inner' = i_config inner /\ i_stop_flag inner' = i_stop_flag inner
    /\ i_free_pool inner' = i_free_pool inner /\ i_durable_lsn inner' = i_durable_lsn inner.
Proof.
  intros Hcfg (sealed & cur & seg & Hinv) Hn. destruct (decide (cur = [])) as [->|Hne].
  - destruct (fi_cur _ _ _ _ _ _ _ Hinv) as (seg' & Hs & _ & _ & Hsb & _ & _ & HF2).
    rewrite (fi_seg _ _ _ _ _ _ _ Hinv) in Hs. injection Hs as <-. apply Forall2_nil_inv_l in HF2.
    assert (memtable_len (fl_cur_mem st) = 0) as Hlen.
    { etransitivity; [apply om_len_ok|]. unfold mem_layer in HF2. by rewrite HF2. }
    pose proof (flush_counts _ _ _ _ _ _ _ Hinv Hn) as (_ & Hid & _). destruct (fi_meta _ _ _ _ _ _ _ Hinv) as [Hmp Hms].
    destruct (meta_write_spec seg (idx_header_new (seg_id seg) (fl_seg_min_lsn st) (fl_seg_max_lsn st) 0))
      as (f & Hw & _); [rewrite Hsb; by eapply block_size_fine|apply idx_header_new_valid; [done|apply Hinv|apply Hinv|by vm_compute]|done|done|].
    eexists _, inner. split_and!; try done.
    { unfold finalize_segment. rewrite (fi_seg _ _ _ _ _ _ _ Hinv), Hlen. cbn [rbind Z.of_nat].
      rewrite Z.mod_0_l, decide_False by done. cbn [rbind]. rewrite Hw. done. }
    exists sealed, [], (with_meta seg f). split_and!; try done; apply Hinv.
  - destruct (finalize_ok st inner seg) as (f & idx & Hf & Hseal & Hhdr); [by eapply inv_sealable|].
    pose proof (rolled_sealed _ _ _ _ _ _ _ Hinv f idx Hhdr Hseal) as HF.
    apply Forall2_app_inv in HF as [HF1 HF2]; [|by eapply Forall2_length, Hinv].
    apply Forall2_cons_1 in HF2 as [HF2 _].
    eexists _, _. split_and!; [exact Hf| |done..]. exists sealed, cur, (with_meta seg f).
    split_and!; [apply Hinv|exact HF1|done|]. intros _. exact HF2.
Qed.
End Inv.
