(* ===== verification/WalLogRun.v ===== *)
(** Runs of the log facade: the invariant every reachable state satisfies, and the
    properties of the log it gives. *)

From stdpp Require Import base strings numbers sorting list.
From S2P Require Import Prelude.
From S2P Require Import Errors.
From S2P Require Import MemTable.
From S2P Require Import LsmRefine.
From S2P Require Import WalFrame.
From S2P Require Import WalFile.
From S2P Require Import WalBuffer.
From S2P Require Import WalMeta.
From S2P Require Import WalIndexFile.
From S2P Require Import WalFlush.
From S2P Require Import WalLog.
From S2P Require Import WalLogInv.

#[local] Existing Instances Permutation_cons Permutation_app'.

Section Run.
Context {M : Type} `{OrderedMapLaws M} `{Crc32} (c : WalConfig).

(** ** The invariant *)

(** The queue holds frozen buffers with consecutive records from LSN [n] on. *)
Fixpoint queue_holds (n : nat) (q : list (nat * WalBuffer)) (ps : list bytes) : Prop :=
  match q with
  | [] => ps = []
  | (_, b) :: q => exists ps1 ps2, ps = ps1 ++ ps2 /\ frozen_ok c n b ps1 /\ queue_holds (n + length ps1) q ps2
  end.

Lemma queue_snoc n q ps id b ps' :
  queue_holds n q ps -> frozen_ok c (n + length ps) b ps' -> queue_holds n (q ++ [(id, b)]) (ps ++ ps').
Proof.
  revert n ps. induction q as [|[i b1] q IH]; intros n ps Hq Hb; simpl in *.
  { subst ps. simpl in *. rewrite Nat.add_0_r in Hb. exists ps', []. by rewrite app_nil_r. }
  destruct Hq as (ps1 & ps2 & -> & Hb1 & Hq). exists ps1, (ps2 ++ ps'). split_and!; [by rewrite app_assoc|done|].
  apply IH; [done|]. by rewrite length_app, Nat.add_assoc in Hb.
Qed.

Definition stopped (w : Wal M) : bool := i_stop_flag (wl_inner w).

(** What does not depend on the client: [flushed] records are in the segments,
    [queued] ones in the channel. *)
Record core_inv (w : Wal M) (flushed queued : list bytes) : Prop := {
  ci_config : i_config (wl_inner w) = c;
  ci_log : if wl_flush_running w then log_inv c (wl_inner w) (wl_flush w) flushed
           else closed_holds (wl_inner w) (wl_flush w) (records 0 flushed);
  ci_durable : i_durable_lsn (wl_inner w) = Z.max 0 (Z.of_nat (length flushed) - 1);
  ci_queue : queue_holds (length flushed) (wl_queue w) queued;
  ci_pool : Forall (buffer_shape c) (i_free_pool (wl_inner w))
            /\ length (wl_pool_ids w) = length (i_free_pool (wl_inner w));
  ci_open : stopped w = false -> wl_flush_tx w = true /\ wl_flush_handle w = true;
  ci_tx : wl_flush_tx w = true -> wl_flush_running w = true;
  ci_ended : wl_flush_running w = false -> wl_queue w = [];
  ci_closed : wl_flush_handle w = false -> wl_flush_running w = false;
}.

(** The active buffer holds [act], from LSN [n] on, until the log is closed. *)
Definition active_inv (w : Wal M) (n : nat) (act : list bytes) : Prop :=
  if stopped w then wl_flush_handle w = false /\ act = [] else active_ok c n (wl_active w).2 act.

Definition payload_ok (p : bytes) : Prop := (Z.of_nat (length p) < 2 ^ 63 - 16)%Z.
Definition sync_target (n : nat) : Z := Z.max 0 (Z.of_nat n - 1).

(** The client's call, after [n] records left the active buffer. *)
Definition client_inv (w : Wal M) (cl : Client) (n : nat) (act : list bytes) : Prop :=
  match cl with
  | CIdle => active_inv w n act
  | CAppend p => active_inv w n act /\ payload_ok p
  | CWait p _ => stopped w = false /\ active_ok c n (wl_active w).2 [] /\ act = [] /\ payload_ok p
  | CSync t => stopped w = false /\ active_ok c n (wl_active w).2 [] /\ act = [] /\ t = sync_target n
  | CSwap next k => act = [] /\ next = Z.of_nat n /\ wl_flush_tx w = true
      /\ match k with
         | RAppend p _ => stopped w = false /\ payload_ok p
         | RSync t => stopped w = false /\ t = sync_target n
         | RClose => stopped w = true
         end
  | CJoin => act = [] /\ stopped w = true /\ wl_flush_tx w = false
  end.

(** Every buffer is active, queued or free; during a swap the old active buffer is
    queued or free again. *)
Definition ids (w : Wal M) (cl : Client) : list nat :=
  (match cl with CSwap _ _ => [] | _ => [(wl_active w).1] end) ++ (fst <$> wl_queue w) ++ wl_pool_ids w.
Definition ids_inv (w : Wal M) (cl : Client) : Prop :=
  stopped w = false -> NoDup (ids w cl) /\ length (ids w cl) = S (Z.to_nat (buffer_count c)).

Definition wal_inv (s : Sys M) : Prop :=
  exists flushed queued act, s_returned s = records 0 (flushed ++ queued ++ act)
    /\ core_inv (s_wal s) flushed queued /\ client_inv (s_wal s) (s_client s) (length (flushed ++ queued)) act
    /\ ids_inv (s_wal s) (s_client s).

(** ** The flush thread's turn *)

Lemma client_inv_ext w w' cl n act :
  wl_active w' = wl_active w -> stopped w' = stopped w -> wl_flush_tx w' = wl_flush_tx w ->
  wl_flush_handle w' = wl_flush_handle w -> client_inv w cl n act -> client_inv w' cl n act.
Proof.
  intros Ha Hs Ht Hh. unfold client_inv, active_inv. rewrite Ha, Hs, Ht, Hh. done.
Qed.

Lemma flush_turn_inv w flushed queued :
  log_config c -> core_inv w flushed queued -> (Z.of_nat (length (flushed ++ queued)) <= 2 ^ 30)%Z ->
  exists r, flush_turn w = Ok r
    /\ (r = None <-> wl_flush_running w = false \/ (wl_queue w = [] /\ wl_flush_tx w = true))
    /\ forall w', r = Some w' -> exists flushed' queued', flushed' ++ queued' = flushed ++ queued
         /\ core_inv w' flushed' queued' /\ wl_active w' = wl_active w /\ stopped w' = stopped w
         /\ wl_flush_tx w' = wl_flush_tx w /\ wl_flush_handle w' = wl_flush_handle w
         /\ (forall cl, ids_inv w cl -> ids_inv w' cl)
         /\ (stopped w = false -> wl_queue w <> [] -> i_free_pool (wl_inner w') <> []).
Proof.
  intros Hcfg Hc Hn. unfold flush_turn. pose proof (ci_log _ _ _ Hc) as Hlog.
  destruct (wl_flush_running w) eqn:Hrun; [|exists None; split; [done|split; [by split; auto|done]]].
  pose proof (ci_queue _ _ _ Hc) as Hq. destruct (wl_queue w) as [|[id buf] q] eqn:Hwq; simpl in Hq.
  - subst queued. rewrite app_nil_r in Hn. destruct (wl_flush_tx w) eqn:Htx; [exists None; split; [done|split; [by split; auto|done]]|].
    destruct (finalize_turn c _ _ _ Hcfg Hlog Hn) as (st' & inner' & -> & Hcl & Ec & Es & Ep & Ed). cbn [rbind].
    eexists. split; [done|]. split; [split; [done|intros [|[_ ?]]; done]|]. intros w' [= <-]. exists flushed, [].
    split; [done|]. destruct Hc. unfold stopped in *. split_and!; try done.
    + split; unfold stopped; simpl; rewrite ?Ec, ?Es, ?Ep, ?Ed; try done. intros Hst. destruct (ci_open0 Hst); congruence.
    + unfold ids_inv, ids, stopped. simpl. by rewrite Es, Hwq.
  - destruct Hq as (ps1 & ps2 & -> & Hb & Hq).
    destruct (flush_buffer_turn c (wl_inner w) (wl_flush w) flushed buf ps1 Hcfg Hlog Hb)
      as (st' & inner' & b & -> & Hlog' & Ec & Es & Ep & Hsh & Ed); [rewrite app_assoc, !length_app in Hn; rewrite length_app; lia|].
    cbn [rbind]. eexists. split; [done|]. split; [split; [done|intros [|[? _]]; done]|]. intros w' [= <-].
    exists (flushed ++ ps1), ps2. split; [by rewrite app_assoc|]. destruct Hc as [C1 C2 C3 C4 [C5 C5'] C6 C7 C8 C9].
    split_and!; try done.
    + split; unfold stopped; simpl; rewrite ?Ec, ?Es; try done.
      * rewrite Ed, C3. case_decide as Hps; [by rewrite Hps, app_nil_r|]. rewrite length_app.
        destruct ps1; [done|]. simpl. lia.
      * by rewrite length_app.
      * rewrite Ep. destruct (i_stop_flag (wl_inner w)); [done|]. rewrite !length_app, C5'. split; [|done].
        apply Forall_app. split; [done|]. by constructor.
      * intros Hh. by rewrite (C9 Hh) in Hrun.
    + intros cl Hids. unfold ids_inv, ids, stopped in *. simpl. rewrite Es. intros Hst. specialize (Hids Hst).
      rewrite Hst. rewrite Hwq in Hids. simpl in Hids.
      assert (forall l : list nat, l ++ (fst <$> q) ++ wl_pool_ids w ++ [id] ≡ₚ l ++ id :: (fst <$> q) ++ wl_pool_ids w) as Hperm.
      { intros l. apply Permutation_app_head. rewrite app_assoc. symmetry. apply Permutation_cons_append. }
      split; [rewrite Hperm; apply Hids|by rewrite (Permutation_length (Hperm _)); apply Hids].
    + unfold stopped. intros Hs _. simpl. rewrite Ep, Hs. by destruct (i_free_pool (wl_inner w)).
Qed.

(** ** The client's turns *)

Definition resume_ok (w : Wal M) (n : nat) (k : Resume) : Prop :=
  match k with
  | RAppend p _ => stopped w = false /\ payload_ok p
  | RSync t => stopped w = false /\ t = sync_target n
  | RClose => stopped w = true
  end.

(** The first half of a swap. *)
Lemma swap_then_inv w k flushed queued act :
  core_inv w flushed queued -> appended c (length (flushed ++ queued)) (wl_active w).2 act ->
  b_state (wl_active w).2 = STATE_ACTIVE -> wl_flush_tx w = true -> ids_inv w CIdle ->
  resume_ok w (length (flushed ++ queued ++ act)) k ->
  exists w' cl, swap_then w k = (w', cl) /\ core_inv w' flushed (queued ++ act)
    /\ client_inv w' cl (length (flushed ++ queued ++ act)) [] /\ ids_inv w' cl
    /\ cl = CSwap (Z.of_nat (length (flushed ++ queued ++ act))) k
    /\ i_free_pool (wl_inner w') = i_free_pool (wl_inner w) /\ wl_pool_ids w' = wl_pool_ids w.
Proof.
  intros Hc Ha Hst Htx Hids Hk. pose proof (appended_inv _ _ _ _ Ha) as (Hmin & Hal & _).
  pose proof (appended_freeze _ _ _ _ Ha) as Hfr.
  unfold swap_then, try_swap_full. destruct (wl_active w) as [id old] eqn:Hact. cbn [snd fst] in *. rewrite Hst.
  change (wl_flush_tx (wl_set_active w (id, freeze old))) with (wl_flush_tx w). rewrite Htx.
  eexists _, _. split; [reflexivity|].
  assert (b_min_lsn (freeze old) + Z.of_nat (b_count (freeze old)) = Z.of_nat (length (flushed ++ queued ++ act)))%Z as Hnext.
  { simpl. rewrite Hmin, Hal, app_assoc, (length_app _ act). lia. }
  split_and!; [| | |by rewrite Hnext|done|done].
  - destruct Hc. split; try done; simpl.
    + apply queue_snoc; [done|]. by rewrite <- length_app.
    + by rewrite (ci_tx0 Htx).
  - rewrite Hnext. split_and!; [done|done|done|exact Hk].
  - intros Hs. destruct (Hids Hs) as [Hnd Hlen]. unfold ids in *. rewrite Hact in *. simpl in *.
    assert (((wl_queue w ++ [(id, freeze old)]).*1 ++ wl_pool_ids w) ≡ₚ id :: (wl_queue w).*1 ++ wl_pool_ids w) as Hp.
    { rewrite fmap_app, <- app_assoc. symmetry. apply Permutation_middle. }
    split; [by rewrite Hp|by rewrite (Permutation_length Hp)].
Qed.

Lemma removelast_last {A} (l : list A) x : last l = Some x -> l = removelast l ++ [x].
Proof.
  intros Hl. apply last_Some in Hl as [l' ->]. by rewrite removelast_last.
Qed.

(** The second half: a free buffer becomes active, or the log is stopping. *)
Lemma pop_inv w next k flushed queued w1 :
  log_config c -> core_inv w flushed queued -> next = Z.of_nat (length (flushed ++ queued)) ->
  ids_inv w (CSwap next k) -> pop_free_buffer w next = Some w1 ->
  core_inv w1 flushed queued /\ stopped w1 = stopped w /\ wl_flush_tx w1 = wl_flush_tx w
  /\ wl_flush_handle w1 = wl_flush_handle w
  /\ (stopped w = false -> active_ok c (length (flushed ++ queued)) (wl_active w1).2 [] /\ ids_inv w1 CIdle).
Proof.
  intros Hcfg Hc -> Hids Hpop. unfold pop_free_buffer in Hpop.
  assert ((if i_stop_flag (wl_inner w) then Some w else None) = Some w1 -> w1 = w /\ stopped w = true) as Hgive.
  { unfold stopped. destruct (i_stop_flag (wl_inner w)); [by intros [= ->]|done]. }
  destruct (last (i_free_pool (wl_inner w))) as [b|] eqn:Hb; [destruct (last (wl_pool_ids w)) as [id|] eqn:Hid|].
  2,3: destruct (Hgive Hpop) as [-> Hs]; rewrite Hs; done.
  injection Hpop as <-. pose proof (removelast_last _ _ Hb) as Eb. pose proof (removelast_last _ _ Hid) as Eid.
  destruct Hc as [C1 C2 C3 C4 [C5 C5'] C6 C7 C8 C9].
  rewrite Eb in C5. apply Forall_app in C5 as [C5 Hshb]. apply Forall_cons in Hshb as [Hshb _].
  split_and!; try done.
  - split; try done; simpl.
    + destruct (wl_flush_running w); [|exact C2]. destruct C2 as (sealed & cur & seg & Hf). exists sealed, cur, seg.
      by eapply flush_inv_ext; [..|exact Hf].
    + split; [done|]. apply (f_equal length) in Eb, Eid. rewrite length_app in Eb, Eid. simpl in *. lia.
  - intros Hs. split; [exact (reset_active c b _ Hcfg Hshb)|]. intros _. destruct (Hids Hs) as [Hnd Hl]. unfold ids in *. simpl in *.
    rewrite Eid in Hnd, Hl.
    assert ((wl_queue w).*1 ++ removelast (wl_pool_ids w) ++ [id] ≡ₚ id :: (wl_queue w).*1 ++ removelast (wl_pool_ids w)) as Hp.
    { rewrite app_assoc. symmetry. apply Permutation_cons_append. }
    rewrite Hp in Hnd. by rewrite (Permutation_length Hp) in Hl.
Qed.

Lemma core_close w flushed queued :
  stopped w = true -> core_inv w flushed queued -> core_inv (wl_set_tx w false) flushed queued.
Proof. intros Hs []. split; try done. unfold stopped in *. simpl. by rewrite Hs. Qed.

(** A client's turn never fails, and keeps the invariant. *)
Lemma client_turn_inv w cl flushed queued act :
  log_config c -> core_inv w flushed queued -> client_inv w cl (length (flushed ++ queued)) act -> ids_inv w cl ->
  exists r, client_turn w cl = Ok r /\ forall w' cl' rec, r = Some (w', cl', rec) ->
    exists queued' act', queued' ++ act' = queued ++ act ++ (returned_by rec).*2
      /\ (forall x, rec = Some x -> x.1 = Z.of_nat (length (flushed ++ queued ++ act)))
      /\ core_inv w' flushed queued' /\ client_inv w' cl' (length (flushed ++ queued')) act' /\ ids_inv w' cl'.
Proof.
  intros Hcfg Hc Hcl Hids. destruct cl as [|p|next k|p old|t|]; cbn [client_turn].
  - by exists None.
  - destruct Hcl as [Hcl Hp]. unfold active_inv, stopped in Hcl. destruct (i_stop_flag (wl_inner w)) eqn:Hst.
    { eexists. split; [done|]. intros ??? [= <- <- <-]. exists queued, act. rewrite app_nil_r. split_and!; try done.
      unfold client_inv, active_inv, stopped. by rewrite Hst. }
    destruct (active_append c _ _ _ p Hcfg Hcl Hp) as (r & b & -> & Hr). cbn [rbind].
    set (w1 := wl_set_active w ((wl_active w).1, b)). assert (core_inv w1 flushed queued) as Hc1 by (destruct Hc; by split).
    destruct r as [lsn|]; eexists; (split; [done|]); intros w' cl' rec Heq.
    + injection Heq as <- <- <-. destruct Hr as [-> Ha]. exists queued, (act ++ [p]). split_and!; try done.
      * intros ? [= <-]. simpl. by rewrite app_assoc, (length_app _ act).
      * unfold client_inv, active_inv, stopped. simpl. by rewrite Hst.
    + destruct Hr as (Ha & Hs & _). destruct (swap_then_inv w1 (RAppend p (wl_active w).1) flushed queued act)
        as (w2 & cl2 & Hsw & Hc2 & Hcl2 & Hids2 & _); [done|done|done|by apply (ci_open _ _ _ Hc)|done|done|].
      fold w1 in Heq. rewrite Hsw in Heq. injection Heq as <- <- <-. exists (queued ++ act), [].
      by rewrite !app_nil_r.
  - destruct Hcl as (-> & Hnext & Htx & Hk). destruct (pop_free_buffer w next) as [w1|] eqn:Hpop; [|by exists None].
    eexists. split; [done|]. intros w' cl' rec Heq.
    destruct (pop_inv w next k flushed queued w1 Hcfg Hc Hnext Hids Hpop) as (Hc1 & Es & Et & Eh & Hact).
    exists queued, []. destruct k as [p old|t|]; simpl in Heq; injection Heq as <- <- <-; (split; [done|]); (split; [done|]);
      simpl in Hk; rewrite <- Es in *.
    + destruct Hk as [Hs Hp]. by destruct (Hact Hs).
    + destruct Hk as [Hs Ht]. by destruct (Hact Hs).
    + split; [by apply core_close|]. split; [done|]. intros Hs. unfold stopped in *. simpl in Hs. congruence.
  - destruct Hcl as (Hs & Ha & -> & Hp). unfold stopped in Hs. rewrite Hs.
    case_decide; [|by exists None]. eexists. split; [done|]. intros ??? [= <- <- <-]. exists queued, [].
    split_and!; try done. unfold client_inv, active_inv, stopped. by rewrite Hs.
  - destruct Hcl as (Hs & Ha & -> & Ht). unfold stopped in Hs. rewrite Hs.
    case_decide; [|by exists None]. eexists. split; [done|]. intros ??? [= <- <- <-]. exists queued, [].
    split_and!; try done. unfold client_inv, active_inv, stopped. by rewrite Hs.
  - destruct Hcl as (-> & Hs & Htx). destruct (wl_flush_running w) eqn:Hrun; [by exists None|].
    eexists. split; [done|]. intros ??? [= <- <- <-]. exists queued, []. split_and!; try done.
    + destruct Hc. split; try done. unfold stopped in *. simpl. by rewrite Hs.
    + unfold client_inv, active_inv, stopped in *. simpl. by rewrite Hs.
Qed.

(** ** Calls and whole runs *)

Lemma call_sync_inv w flushed queued act :
  core_inv w flushed queued -> active_inv w (length (flushed ++ queued)) act -> ids_inv w CIdle ->
  exists queued' act', queued' ++ act' = queued ++ act /\ core_inv (call_sync w).1 flushed queued'
    /\ client_inv (call_sync w).1 (call_sync w).2 (length (flushed ++ queued')) act' /\ ids_inv (call_sync w).1 (call_sync w).2.
Proof.
  intros Hc Ha Hids. unfold call_sync. destruct (i_stop_flag (wl_inner w)) eqn:Hs; [by exists queued, act|].
  unfold active_inv, stopped in Ha. rewrite Hs in Ha. destruct Ha as (Ha & Hst & _).
  pose proof (appended_inv _ _ _ _ Ha) as (Hmin & Hal & _). set (t := if decide _ then _ else _).
  destruct (swap_then_inv w (RSync t) flushed queued act) as (w' & cl & -> & Hc' & Hcl & Hi & _);
    [done|done|done|by apply (ci_open _ _ _ Hc)|done| |].
  { split; [done|]. unfold t, sync_target. rewrite Hmin, Hal, (app_assoc flushed), (length_app _ act).
    case_decide; [lia|]. assert (length act = 0) as -> by lia. f_equal. lia. }
  exists (queued ++ act), []. by rewrite app_nil_r.
Qed.

Lemma call_close_inv w flushed queued act :
  core_inv w flushed queued -> active_inv w (length (flushed ++ queued)) act -> ids_inv w CIdle ->
  exists queued' act', queued' ++ act' = queued ++ act /\ core_inv (call_close w).1 flushed queued'
    /\ client_inv (call_close w).1 (call_close w).2 (length (flushed ++ queued')) act' /\ ids_inv (call_close w).1 (call_close w).2.
Proof.
  intros Hc Ha Hids. unfold call_close. destruct (wl_flush_handle w) eqn:Hh; [|by exists queued, act].
  unfold active_inv in Ha. destruct (stopped w) eqn:Hs; [by rewrite Hh in Ha; destruct Ha|].
  destruct Ha as (Ha & Hst & _). destruct (ci_open _ _ _ Hc Hs) as [Htx _].
  assert (core_inv (wl_set_stop w) flushed queued) as Hc1.
  { destruct Hc as [C1 C2 C3 C4 C5 C6 C7 C8 C9]. split; try done. simpl. rewrite (C7 Htx) in C2 |- *.
    destruct C2 as (sealed & cur & seg & Hf). exists sealed, cur, seg. by eapply flush_inv_ext; [..|exact Hf]. }
  destruct (swap_then_inv (wl_set_stop w) RClose flushed queued act) as (w' & cl & -> & Hc' & Hcl & Hi & _); try done.
  exists (queued ++ act), []. by rewrite app_nil_r.
Qed.

Lemma returned_grows s s' : wal_step s s' -> length (s_returned s) <= length (s_returned s').
Proof. destruct 1; simpl; rewrite ?length_app; lia. Qed.

Lemma records_snoc ps rec :
  (forall x, rec = Some x -> x.1 = Z.of_nat (length ps)) -> records 0 ps ++ returned_by rec = records 0 (ps ++ (returned_by rec).*2).
Proof.
  intros Hr. rewrite records_app. destruct rec as [[lsn p]|]; [|done]. specialize (Hr _ eq_refl). simpl in Hr. subst lsn.
  unfold records. simpl. do 3 f_equal. lia.
Qed.

Lemma wal_step_inv s s' :
  log_config c -> wal_inv s -> wal_step s s' -> (Z.of_nat (length (s_returned s)) <= 2 ^ 30)%Z -> wal_inv s'.
Proof.
  intros Hcfg (flushed & queued & act & Hret & Hc & Hcl & Hids) Hstep Hn.
  rewrite Hret, length_records, app_assoc, length_app in Hn.
  destruct Hstep as [w p rs Hp|w rs|w rs|w cl rs w' cl' rec Ht|w t rs|w cl rs w' Ht]; simpl in *.
  - exists flushed, queued, act. by split_and!.
  - destruct (call_sync_inv w flushed queued act Hc Hcl Hids) as (q & a & Hqa & H1' & H2' & H3').
    exists flushed, q, a. split_and!; try done. simpl. by rewrite Hqa.
  - destruct (call_close_inv w flushed queued act Hc Hcl Hids) as (q & a & Hqa & H1' & H2' & H3').
    exists flushed, q, a. split_and!; try done. simpl. by rewrite Hqa.
  - destruct (client_turn_inv w cl flushed queued act Hcfg Hc Hcl Hids) as (r & Hr & Hinv). rewrite Hr in Ht. injection Ht as ->.
    destruct (Hinv _ _ _ eq_refl) as (q & a & Hqa & Hlsn & H1' & H2' & H3'). exists flushed, q, a. split_and!; try done.
    simpl. rewrite Hqa, Hret, records_snoc by done. by rewrite <- !app_assoc.
  - destruct Hcl as (Hs & Ha & -> & _). exists flushed, queued, []. split_and!; try done.
    simpl. unfold active_inv. by rewrite Hs.
  - destruct (flush_turn_inv w flushed queued Hcfg Hc) as (r & Hr & _ & Hinv); [lia|]. rewrite Hr in Ht. injection Ht as ->.
    destruct (Hinv _ eq_refl) as (f & q & Hfq & Hc' & Ea & Es & Et & Eh & Hi & _). exists f, q, act.
    split_and!; try done; [by rewrite Hret, !app_assoc, Hfq| |by apply Hi]. simpl. rewrite Hfq. by eapply client_inv_ext.
Qed.

Lemma wal_reachable_inv w0 s :
  log_config c -> wal_inv (mkSys w0 CIdle []) -> wal_reachable w0 s -> (Z.of_nat (length (s_returned s)) <= 2 ^ 30)%Z -> wal_inv s.
Proof.
  intros Hcfg H0' Hr. induction Hr as [|s s' Hr IH Hstep]; intros Hn; [done|].
  pose proof (returned_grows _ _ Hstep). eapply wal_step_inv; [done|apply IH; lia|done|lia].
Qed.

(** ** Opening *)

Lemma new_buffer_shape data :
  Z.of_nat (length data) = buffer_size c -> buffer_shape c (wal_buffer_new data 0 0).
Proof. intros Hl. split_and!; try done. simpl. apply length_replicate. Qed.

Lemma new_buffer_active data :
  log_config c -> Z.of_nat (length data) = buffer_size c -> active_ok c 0 (wal_buffer_new data 0 0) [].
Proof. intros Hcfg Hl. apply (reset_active c (wal_buffer_new data 0 0) 0 Hcfg (new_buffer_shape data Hl)). Qed.

(** Every buffer is new, whatever its memory holds. *)
Lemma alloc_new uninit bs b :
  wal_buffer_alloc uninit (Z.to_nat (buffer_size c)) bs 0 0 = Ok b ->
  log_config c -> exists data, b = wal_buffer_new data 0 0 /\ Z.of_nat (length data) = buffer_size c.
Proof.
  unfold wal_buffer_alloc. intros Ha (_ & Hsz & _). destruct (aligned_new _ _ _) as [data| |] eqn:Hd; [|done|done].
  injection Ha as <-. exists data. apply aligned_new_length in Hd. split; [done|lia].
Qed.

Lemma alloc_shapes (uninit : nat -> nat -> Byte.byte) bs l : forall free,
  rmap (fun i => wal_buffer_alloc (uninit i) (Z.to_nat (buffer_size c)) bs 0 0) l = Ok free ->
  log_config c -> length free = length l /\ Forall (buffer_shape c) free.
Proof.
  induction l as [|i l IH]; intros free Hf Hcfg; simpl in Hf; [by injection Hf as <-|].
  destruct (wal_buffer_alloc _ _ _ _ _) as [b| |] eqn:Hb; [|done|done]. cbn [rbind] in Hf.
  destruct (rmap _ l) as [bs'| |]; [|done|done]. injection Hf as <-.
  destruct (IH bs' eq_refl Hcfg) as [Hl HF]. destruct (alloc_new _ _ _ Hb Hcfg) as (data & -> & Hd).
  split; [simpl; by rewrite Hl|]. constructor; [by apply new_buffer_shape|done].
Qed.

(** The log opened on an empty directory. *)
Lemma wal_open_inv uninit dir w0 :
  log_config c -> (forall j, (0 <= j)%Z -> unused (dir j)) -> wal_open (Ok tt) uninit dir c = Ok w0 ->
  wal_inv (mkSys w0 CIdle []).
Proof.
  intros Hcfg Hdir Hopen. unfold wal_open in Hopen. destruct (validate c); try done. cbn [rbind] in Hopen.
  destruct (wal_buffer_alloc _ _ _ _ _) as [b| |] eqn:Hb; [|done|done]. cbn [rbind] in Hopen.
  destruct (alloc_new _ _ _ Hb Hcfg) as (data & -> & Hl).
  destruct (rmap _ _) as [free| |] eqn:Hfree; [|done|done]. cbn [rbind] in Hopen.
  destruct (alloc_shapes _ _ _ _ Hfree Hcfg) as [Hflen Hfshape]. rewrite length_seq in Hflen.
  destruct (Hdir 0%Z) as ((Hol & Hom & Hx & Hlog & Hmeta) & Hidx); [lia|]. unfold segment_open in Hopen. rewrite Hol, Hom, Hx, Hlog, Hmeta in Hopen.
  set (inner := mkInner c dir 1 0 [] free false) in *.
  unfold fallocate_log, next_sys in Hopen. cbn -[idx_header_new write_meta_header_double replicate] in Hopen. rewrite Nat.sub_0_r in Hopen.
  change (mkSegment 0 _ _ _ _) with (new_segment inner 0 (mkFile [] [] [])) in Hopen.
  pose proof (config_block_size c Hcfg) as Hbs.
  destruct (meta_write_spec (new_segment inner 0 (mkFile [] [] [])) (idx_header_new 0 0 0 0)) as (f & Hw & Hp & _ & Hs);
    [done|apply idx_header_new_valid; by vm_compute|done|done|].
  rewrite Hw in Hopen. cbn [rbind] in Hopen. injection Hopen as <-.
  exists [], [], []. split_and!; try done.
  - split; try done.
    + exists [], [], (new_segment inner 0 f). split; try done.
      * apply seg_holds_fresh.
      * intros j Hj. apply Hdir. simpl in Hj. lia.
      * simpl. lia.
    + simpl. rewrite length_seq, Hflen. done.
  - by apply new_buffer_active.
  - intros _. unfold ids. simpl. split.
    + change (NoDup (seq 0 (S (Z.to_nat (buffer_count c))))). apply NoDup_seq.
    + by rewrite length_seq.
Qed.
End Run.
