(* ===== verification/WalLogTheorems.v ===== *)
(** The properties of the log facade, over every run of one client and the flush
    thread from an empty directory: consecutive LSNs, durability, [sync],
    [close], progress of [append]; and runs in which the code does not do what it
    is meant to. *)

From stdpp Require Import base strings numbers sorting list.
From S2P Require Import Prelude.
From S2P Require Import Errors.
From S2P Require Import Iter.
From S2P Require Import MemTable.
From S2P Require Import LsmRefine.
From S2P Require Import WalFrame.
From S2P Require Import WalFile.
From S2P Require Import WalBuffer.
From S2P Require Import WalMeta.
From S2P Require Import WalIndexFile.
From S2P Require Import WalFlush.
From S2P Require Import WalLog.
From S2P Require Import WalLogInv.
From S2P Require Import WalLogRun.

Section Log.
Context {M : Type} `{OrderedMapLaws M} `{Crc32}.

(** A state some run of one client thread and the flush thread reaches: the log
    was opened with a usable configuration on an empty directory whose files can
    be opened and written ([unused]: no system call fails), its buffers holding
    whatever the memory held, and at most 2^30 records were appended. *)
Definition run_of (c : WalConfig) (s : Sys M) : Prop :=
  exists uninit dir w0, log_config c /\ (forall j, (0 <= j)%Z -> unused (dir j))
    /\ wal_open (Ok tt) uninit dir c = Ok w0
    /\ wal_reachable w0 s /\ (Z.of_nat (length (s_returned s)) <= 2 ^ 30)%Z.

Lemma run_of_inv c s :
  run_of c s -> log_config c /\ wal_inv c s /\ (Z.of_nat (length (s_returned s)) <= 2 ^ 30)%Z.
Proof.
  intros (uninit & dir & w0 & Hcfg & Hdir & Hopen & Hr & Hn). split_and!; [done| |done].
  eapply wal_reachable_inv; [done|by eapply wal_open_inv|done|done].
Qed.

Lemma log_inv_holds c inner st ps : log_inv c inner st ps -> log_holds inner st (records 0 ps).
Proof. intros (sealed & cur & seg & Hi). exists sealed, cur. split_and!; apply Hi. Qed.

(** C20: The log refines an append-only list. In every state one client thread
    and the flush thread reach, in any interleaving, from an empty directory on
    which no system call fails, with at most 2^30 records ([run_of]), the
    appends so far returned the LSNs 0, 1, 2, ... in order; a prefix of them is
    in the segments, durable and indexed in LSN order; [durable_lsn] is the last
    LSN of that prefix, or 0 while the prefix is empty; and the next turn of
    either thread neither fails nor panics. (A system call that fails panics the
    flush thread: [flush_thread_panics].) *)
Theorem wal_refines_log c s :
  run_of c s ->
  exists flushed pending, s_returned s = records 0 (flushed ++ pending)
    /\ (if wl_flush_running (s_wal s) then log_holds (wl_inner (s_wal s)) (wl_flush (s_wal s)) (records 0 flushed)
        else closed_holds (wl_inner (s_wal s)) (wl_flush (s_wal s)) (records 0 flushed))
    /\ wal_durable_lsn (s_wal s) = mkLsn (Z.max 0 (Z.of_nat (length flushed) - 1))
    /\ (exists r, client_turn (s_wal s) (s_client s) = Ok r) /\ (exists r, flush_turn (s_wal s) = Ok r).
Proof.
  intros Hrun. destruct (run_of_inv c s Hrun) as (Hcfg & (flushed & queued & act & Hret & Hc & Hcl & Hids) & Hn).
  exists flushed, (queued ++ act). split; [done|]. split_and!.
  - pose proof (ci_log _ _ _ _ Hc) as Hl. destruct (wl_flush_running (s_wal s)); [|done]. by eapply log_inv_holds.
  - unfold wal_durable_lsn. by rewrite (ci_durable _ _ _ _ Hc).
  - destruct (client_turn_inv c _ _ _ _ _ Hcfg Hc Hcl Hids) as (r & Hr & _). by exists r.
  - rewrite Hret, length_records, app_assoc, length_app in Hn.
    destruct (flush_turn_inv c _ _ _ Hcfg Hc) as (r & Hr & _); [lia|]. by exists r.
Qed.

(** C21: In every run of one client thread and the flush thread ([run_of]), a
    [sync] that returns before its deadline has made every record appended
    before it durable, once there are two of them. (With a single record the
    target is LSN 0, which [durable_lsn] shows from the start.) *)
Theorem sync_makes_durable c s t w' :
  run_of c s -> s_client s = CSync t -> client_turn (s_wal s) (CSync t) = Ok (Some (w', CIdle, None)) ->
  2 <= length (s_returned s) -> log_holds (wl_inner (s_wal s)) (wl_flush (s_wal s)) (s_returned s).
Proof.
  intros Hrun Hcs Ht Hlen. destruct (run_of_inv c s Hrun) as (Hcfg & (flushed & queued & act & Hret & Hc & Hcl & Hids) & Hn).
  rewrite Hcs in Hcl. destruct Hcl as (Hs & _ & -> & Htg). unfold stopped in Hs. cbn [client_turn] in Ht.
  rewrite Hs in Ht. case_decide as Hd; [|done]. rewrite (ci_durable _ _ _ _ Hc), Htg in Hd. unfold sync_target in Hd.
  rewrite app_nil_r in Hret. rewrite Hret, length_records in Hlen.
  assert (queued = []) as ->. { apply length_zero_iff_nil. rewrite length_app in *. lia. }
  rewrite Hret, app_nil_r. destruct (ci_open _ _ _ _ Hc Hs) as [Htx _]. pose proof (ci_log _ _ _ _ Hc) as Hl.
  rewrite (ci_tx _ _ _ _ Hc Htx) in Hl. by eapply log_inv_holds.
Qed.

(** C23: In every run of one client thread and the flush thread ([run_of]), once
    [close] has returned, every record ever appended is in a segment that was
    sealed with its index and header; the log then refuses appends and syncs,
    and closing it again changes nothing. *)
Theorem close_keeps_everything c s :
  run_of c s -> wl_flush_handle (s_wal s) = false ->
  closed_holds (wl_inner (s_wal s)) (wl_flush (s_wal s)) (s_returned s)
  /\ (forall p, client_turn (s_wal s) (CAppend p) = Ok (Some (s_wal s, CIdle, None)))
  /\ call_sync (s_wal s) = (s_wal s, CIdle) /\ call_close (s_wal s) = (s_wal s, CIdle).
Proof.
  intros Hrun Hh. destruct (run_of_inv c s Hrun) as (Hcfg & (flushed & queued & act & Hret & Hc & Hcl & Hids) & Hn).
  pose proof (ci_closed _ _ _ _ Hc Hh) as Hend.
  assert (stopped (s_wal s) = true) as Hs.
  { destruct (stopped (s_wal s)) eqn:Hs; [done|]. destruct (ci_open _ _ _ _ Hc Hs) as [_ ?]. congruence. }
  split_and!.
  - pose proof (ci_queue _ _ _ _ Hc) as Hq. rewrite (ci_ended _ _ _ _ Hc Hend) in Hq. simpl in Hq. subst queued.
    assert (act = []) as ->.
    { destruct (s_client s); simpl in Hcl; unfold active_inv in Hcl; rewrite ?Hs in Hcl; intuition congruence. }
    pose proof (ci_log _ _ _ _ Hc) as Hl. rewrite Hend in Hl. by rewrite Hret, !app_nil_r.
  - intros p. unfold stopped in Hs. cbn [client_turn]. by rewrite Hs.
  - unfold stopped in Hs. unfold call_sync. by rewrite Hs.
  - unfold call_close. by rewrite Hh.
Qed.

(** ** Progress *)

(** The client runs alone until its call returns, for at most [fuel] turns. *)
Fixpoint client_run (fuel : nat) (s : Sys M) : option (Sys M) :=
  match s_client s, fuel with
  | CIdle, _ => Some s
  | _, 0 => None
  | cl, S fuel =>
      match client_turn (s_wal s) cl with
      | Ok (Some (w, cl, r)) => client_run fuel (mkSys w cl (s_returned s ++ returned_by r))
      | _ => None
      end
  end.

(** With an empty pool and no swap under way, some buffer is queued. *)
Lemma empty_pool_queue c w cl flushed queued :
  log_config c -> core_inv c w flushed queued -> ids_inv c w cl -> (forall n k, cl <> CSwap n k) -> stopped w = false ->
  i_free_pool (wl_inner w) = [] -> wl_queue w <> [].
Proof.
  intros ((_ & _ & _ & _ & Hbc & _) & _) Hc Hids Hcl Hs Hp Hq. destruct (Hids Hs) as [_ Hl].
  destruct (ci_pool _ _ _ _ Hc) as [_ Hpl]. rewrite Hp in Hpl. unfold ids in Hl. rewrite Hq in Hl.
  rewrite (nil_length_inv _ Hpl) in Hl. by destruct cl; simpl in Hl; try lia.
Qed.

(** A fresh buffer takes any frame that fits a buffer. *)
Lemma fresh_takes c n b p :
  log_config c -> buffer_shape c b -> payload_ok p -> (Z.of_nat (HEADER_LEN + length p) <= buffer_size c)%Z ->
  exists b', append_frame (buffer_reset b (Z.of_nat n)) p = Ok (Some (Z.of_nat n), b').
Proof.
  intros Hcfg Hsh Hp Hfit. destruct (active_append c n _ [] p Hcfg (reset_active c b n Hcfg Hsh) Hp) as (r & b' & Hap & Hr).
  exists b'. rewrite Hap. destruct r as [lsn|]; [|destruct Hr as (_ & _ & Hr); cbn [buffer_reset b_write_pos] in Hr; lia].
  destruct Hr as [-> _]. do 3 f_equal. simpl. lia.
Qed.

(** Four turns of the client: overflow, swap, look again, append. *)
Lemma append_alone c w p rs flushed queued act :
  log_config c -> core_inv c w flushed queued -> client_inv c w (CAppend p) (length (flushed ++ queued)) act ->
  ids_inv c w (CAppend p) -> stopped w = false -> (Z.of_nat (HEADER_LEN + length p) <= buffer_size c)%Z ->
  i_free_pool (wl_inner w) <> [] ->
  exists s', client_run 4 (mkSys w (CAppend p) rs) = Some s'
    /\ s_returned s' = rs ++ [(Z.of_nat (length (flushed ++ queued ++ act)), p)].
Proof.
  intros Hcfg Hc [Ha Hp] Hids Hs Hfit Hpool. unfold active_inv in Ha. rewrite Hs in Ha. unfold stopped in Hs.
  destruct (active_append c _ _ _ p Hcfg Ha Hp) as (r & b & Hap & Hr).
  cbn [client_run s_client client_turn s_wal]. rewrite Hs, Hap. cbn [rbind]. destruct r as [lsn|].
  { destruct Hr as [-> _]. eexists. split; [reflexivity|]. simpl. by rewrite app_assoc, (length_app _ act). }
  destruct Hr as (Ha' & Hst & _). set (w1 := wl_set_active w ((wl_active w).1, b)).
  destruct (swap_then_inv c w1 (RAppend p (wl_active w).1) flushed queued act)
    as (w2 & cl2 & -> & Hc2 & Hcl2 & Hids2 & -> & Epool & Eids);
    [by destruct Hc; split|done|done|by apply (ci_open _ _ _ _ Hc)|done|done|].
  change (i_free_pool (wl_inner w1)) with (i_free_pool (wl_inner w)) in Epool. change (wl_pool_ids w1) with (wl_pool_ids w) in Eids.
  destruct (last (i_free_pool (wl_inner w))) as [fb|] eqn:Hfb; [|by apply last_None in Hfb].
  destruct (ci_pool _ _ _ _ Hc) as [Hshapes Hpl].
  destruct (last (wl_pool_ids w)) as [fid|] eqn:Hfid.
  2:{ apply last_None in Hfid. rewrite Hfid in Hpl. by destruct (i_free_pool (wl_inner w)). }
  cbn [s_returned client_run s_client client_turn s_wal]. unfold pop_free_buffer. rewrite Epool, Eids, Hfb, Hfid.
  cbn [resume s_client client_turn s_wal wl_active wl_set_active fst snd].
  assert (fid <> (wl_active w).1) as Hne.
  { intros ->. destruct (Hids Hs) as [Hnd _]. unfold ids in Hnd. simpl in Hnd. apply NoDup_cons in Hnd as [Hnd _].
    apply Hnd. apply elem_of_app. right. by apply last_Some_elem_of. }
  rewrite decide_True by done. destruct Hcl2 as (_ & _ & _ & Hs2 & _). unfold stopped in Hs2.
  cbn [s_returned client_run s_client client_turn s_wal wl_active wl_set_active fst snd].
  change (i_stop_flag (wl_inner (wl_set_active _ _))) with (i_stop_flag (wl_inner w2)). rewrite Hs2.
  destruct (fresh_takes c (length (flushed ++ queued ++ act)) fb p Hcfg) as (b' & ->); [|done|done|].
  { apply last_Some_elem_of in Hfb. by eapply Forall_forall in Hshapes. }
  eexists. split; [reflexivity|]. simpl. by rewrite !app_nil_r.
Qed.

(** C24: [append] is obstruction-free in every run of one client thread and the
    flush thread ([run_of]). While the log is open and the frame fits a buffer,
    the client returns the next LSN within four turns of its own if a free
    buffer is left and the flush thread takes no turn meanwhile; when none is
    left, the flush thread has a buffer to write and its next turn frees one.
    ([append_can_wait_for_ever] is a run in which the flush thread does take a
    turn in between and the append waits for ever.) *)
Theorem append_makes_progress c s p :
  run_of c s -> s_client s = CAppend p -> stopped (s_wal s) = false ->
  (Z.of_nat (HEADER_LEN + length p) <= buffer_size c)%Z ->
  (i_free_pool (wl_inner (s_wal s)) <> [] ->
   exists s', client_run 4 s = Some s'
     /\ s_returned s' = s_returned s ++ [(Z.of_nat (length (s_returned s)), p)])
  /\ (i_free_pool (wl_inner (s_wal s)) = [] ->
      exists w', flush_turn (s_wal s) = Ok (Some w') /\ i_free_pool (wl_inner w') <> []).
Proof.
  intros Hrun Hcs Hs Hfit. destruct (run_of_inv c s Hrun) as (Hcfg & (flushed & queued & act & Hret & Hc & Hcl & Hids) & Hn).
  destruct s as [w cl rs]. simpl in *. subst cl. split.
  - intros Hpool. destruct (append_alone c w p rs flushed queued act) as (s' & Hrun' & Hr'); try done.
    exists s'. split; [done|]. by rewrite Hr', Hret, length_records.
  - intros Hpool. rewrite Hret, length_records, app_assoc, length_app in Hn.
    pose proof (empty_pool_queue c w (CAppend p) flushed queued Hcfg Hc Hids) as Hq.
    destruct (flush_turn_inv c w flushed queued Hcfg Hc) as (r & Hr & Hnone & Hinv); [lia|].
    destruct r as [w'|].
    + exists w'. split; [done|]. destruct (Hinv w' eq_refl) as (f & q & _ & _ & _ & _ & _ & _ & _ & Hp').
      apply Hp'; [done|]. by apply Hq.
    + destruct (proj1 Hnone eq_refl) as [He|[He _]].
      * destruct (ci_open _ _ _ _ Hc Hs) as [Htx _]. rewrite (ci_tx _ _ _ _ Hc Htx) in He. done.
      * by destruct Hq.
Qed.
End Log.

(** ** Schedules *)

(** A schedule of calls and turns, run as far as it is enabled. *)
Inductive Turn := TAppend (payload : bytes) | TSync | TClose | TClient | TFlush.

Section Schedule.
Context {M : Type} `{OrderedMap M} `{Crc32}.

Definition run_turn (s : Sys M) (t : Turn) : option (Sys M) :=
  match t, s_client s with
  | TAppend p, CIdle =>
      if decide (Z.of_nat (length p) < 2 ^ 63 - 16)%Z
      then Some (mkSys (call_append (s_wal s) p).1 (call_append (s_wal s) p).2 (s_returned s)) else None
  | TSync, CIdle => Some (mkSys (call_sync (s_wal s)).1 (call_sync (s_wal s)).2 (s_returned s))
  | TClose, CIdle => Some (mkSys (call_close (s_wal s)).1 (call_close (s_wal s)).2 (s_returned s))
  | TClient, cl =>
      match client_turn (s_wal s) cl with
      | Ok (Some (w, cl, r)) => Some (mkSys w cl (s_returned s ++ returned_by r))
      | _ => None
      end
  | TFlush, cl =>
      match flush_turn (s_wal s) with Ok (Some w) => Some (mkSys w cl (s_returned s)) | _ => None end
  | _, _ => None
  end.

Fixpoint run_turns (s : Sys M) (ts : list Turn) : option (Sys M) :=
  match ts with
  | [] => Some s
  | t :: ts => match run_turn s t with Some s => run_turns s ts | None => None end
  end.

Lemma run_turn_step s t s' : run_turn s t = Some s' -> wal_step s s'.
Proof.
  destruct s as [w cl rs], t; unfold run_turn; cbn [s_client s_wal s_returned].
  - destruct cl; try done. case_decide; [|done]. intros [= <-]. by constructor.
  - destruct cl; try done. intros [= <-]. by constructor.
  - destruct cl; try done. intros [= <-]. by constructor.
  - intros Ht. assert (exists w' cl' r, client_turn w cl = Ok (Some (w', cl', r)) /\ s' = mkSys w' cl' (rs ++ returned_by r))
      as (w' & cl' & r & Hc & ->).
    { destruct cl; cbn [s_client s_wal s_returned] in Ht;
        (destruct (client_turn w _) as [[[[w' cl'] r]|]|e|]; try done; injection Ht as <-; by eexists _, _, _). }
    by constructor.
  - intros Ht. assert (exists w', flush_turn w = Ok (Some w') /\ s' = mkSys w' cl rs) as (w' & Hf & ->).
    { destruct cl; (destruct (flush_turn w) as [[w'|]|e|]; try done; injection Ht as <-; by eexists). }
    by constructor.
Qed.

Lemma run_turns_reachable w0 ts : forall s s', wal_reachable w0 s -> run_turns s ts = Some s' -> wal_reachable w0 s'.
Proof.
  induction ts as [|t ts IH]; intros s s' Hr Hts; simpl in Hts; [by injection Hts as <-|].
  destruct (run_turn s t) as [s1|] eqn:Ht; [|done]. eapply IH; [|exact Hts].
  eapply wal_more; [exact Hr|]. by apply run_turn_step in Ht.
Qed.
End Schedule.

(** *** Witnesses *)

#[local] Existing Instance demo_crc.

Definition demo_start : Wal SortedAssoc :=
  ok_get (mkWal (0, wal_buffer_new [] 0 0) demo_inner [] true [] demo_flush true true)
    (wal_open (Ok tt) (fun _ _ => Byte.xff) (fun _ => demo_files) demo_config).

Lemma demo_log_config : log_config demo_config.
Proof.
  split_and!; [|vm_compute; discriminate..]. split_and!; try (vm_compute; done). exists 9%Z. split; [lia|reflexivity].
Qed.

Lemma demo_run ts s :
  run_turns (mkSys demo_start CIdle []) ts = Some s -> (Z.of_nat (length (s_returned s)) <= 2 ^ 30)%Z ->
  run_of demo_config s.
Proof.
  intros Hts Hn. exists (fun _ _ => Byte.xff), (fun _ => demo_files), demo_start.
  split; [apply demo_log_config|]. split; [by intros; split|]. split; [by vm_compute|]. split; [|done].
  eapply run_turns_reachable; [constructor|exact Hts].
Qed.

(** A payload that leaves no room for a second one in a buffer of 512 bytes. *)
Definition demo_big : bytes := replicate 400 Byte.x61.

Definition demo_after (ts : list Turn) : Sys SortedAssoc :=
  default (mkSys demo_start CIdle []) (run_turns (mkSys demo_start CIdle []) ts).

Definition two_appends : list Turn := [TAppend demo_big; TClient; TAppend demo_big; TClient; TClient; TClient; TClient].

Lemma wal_refines_log_witness :
  exists flushed pending, s_returned (demo_after (two_appends ++ [TFlush])) = records 0 (flushed ++ pending).
Proof.
  destruct (wal_refines_log demo_config (demo_after (two_appends ++ [TFlush]))) as (flushed & pending & Hr & _).
  - apply (demo_run (two_appends ++ [TFlush])); [vm_compute; reflexivity|vm_compute; discriminate].
  - exists flushed, pending. exact Hr.
Defined.

Definition synced : list Turn := two_appends ++ [TFlush; TSync; TClient; TFlush].

Lemma sync_makes_durable_witness :
  log_holds (wl_inner (s_wal (demo_after synced))) (wl_flush (s_wal (demo_after synced))) (s_returned (demo_after synced)).
Proof.
  apply (sync_makes_durable demo_config (demo_after synced) 1 (s_wal (demo_after synced))).
  - apply (demo_run synced); [vm_compute; reflexivity|vm_compute; discriminate].
  - vm_compute. reflexivity.
  - vm_compute. reflexivity.
  - vm_compute. repeat constructor.
Defined.

Definition closed : list Turn := two_appends ++ [TClose; TClient; TFlush; TFlush; TFlush; TClient].

Lemma close_keeps_everything_witness :
  closed_holds (wl_inner (s_wal (demo_after closed))) (wl_flush (s_wal (demo_after closed))) (s_returned (demo_after closed)).
Proof.
  apply (close_keeps_everything demo_config (demo_after closed)).
  - apply (demo_run closed); [vm_compute; reflexivity|vm_compute; discriminate].
  - vm_compute. reflexivity.
Defined.

Definition appending : list Turn := [TAppend demo_big; TClient; TAppend demo_big].

Lemma append_makes_progress_witness :
  exists s', client_run 4 (demo_after appending) = Some s'
    /\ s_returned s' = s_returned (demo_after appending) ++ [(Z.of_nat (length (s_returned (demo_after appending))), demo_big)].
Proof.
  apply (append_makes_progress demo_config (demo_after appending) demo_big).
  - apply (demo_run appending); [vm_compute; reflexivity|vm_compute; discriminate].
  - vm_compute. reflexivity.
  - vm_compute. reflexivity.
  - vm_compute. discriminate.
  - vm_compute. discriminate.
Defined.

(** *** Runs that go wrong *)

(** The flush thread may recycle the buffer an append has just sent before that
    append takes a free one; the pool is a stack, so the append gets the same
    buffer back, and then waits for the active buffer to change: no step of the
    client or of the flush thread is left. *)
Definition hanging : list Turn := [TAppend demo_big; TClient; TAppend demo_big; TClient; TFlush; TClient].

Theorem append_can_wait_for_ever :
  run_of demo_config (demo_after hanging) /\ s_client (demo_after hanging) = CWait demo_big 0
  /\ forall s', ~ wal_step (demo_after hanging) s'.
Proof.
  assert (s_client (demo_after hanging) = CWait demo_big 0) as Hcl by (vm_compute; reflexivity).
  split; [apply (demo_run hanging); [vm_compute; reflexivity|vm_compute; discriminate]|]. split; [exact Hcl|].
  assert (client_turn (s_wal (demo_after hanging)) (s_client (demo_after hanging)) = Ok None) as Hc by (vm_compute; reflexivity).
  assert (flush_turn (s_wal (demo_after hanging)) = Ok None) as Hf by (vm_compute; reflexivity).
  generalize (demo_after hanging), Hcl, Hc, Hf. clear. intros s Hcl Hc Hf s' Hstep.
  destruct Hstep; simpl in *; congruence.
Qed.

(** A sync after the first record returns at once: its target is LSN 0, which
    [durable_lsn] shows before anything was written. *)
Definition early_sync : list Turn := [TAppend demo_payload; TClient; TSync; TClient; TClient].

Theorem sync_misses_first_record :
  run_of demo_config (demo_after early_sync) /\ s_client (demo_after early_sync) = CIdle
  /\ s_returned (demo_after early_sync) = [(0%Z, demo_payload)]
  /\ ~ log_holds (wl_inner (s_wal (demo_after early_sync))) (wl_flush (s_wal (demo_after early_sync))) [(0%Z, demo_payload)].
Proof.
  split; [apply (demo_run early_sync); [vm_compute; reflexivity|vm_compute; discriminate]|].
  split; [vm_compute; reflexivity|]. split; [vm_compute; reflexivity|].
  intros (sealed & cur & Heq & HF & (seg & _ & _ & _ & _ & _ & _ & HF2)).
  assert (i_sealed (wl_inner (s_wal (demo_after early_sync))) = []) as Hs by (vm_compute; reflexivity).
  rewrite Hs in HF. apply Forall2_nil_inv_l in HF. subst sealed. simpl in Heq. subst cur.
  assert (mem_layer (fl_cur_mem (wl_flush (s_wal (demo_after early_sync)))) = []) as Hm by (vm_compute; reflexivity).
  rewrite Hm in HF2. inversion HF2.
Qed.

(** Files that cannot be opened when the log rolls over to segment 1, as when the
    process has no descriptors left: the flush thread panics on the buffer that
    needs the segment, with the records of that buffer never written. *)
Definition refusing (id : Z) : SegFiles :=
  if decide (id = 0%Z) then demo_files
  else mkSegFiles false (Err (WalIo "Too many open files")) (Ok tt) (Ok tt) (mkFile [] [] []) (mkFile [] [] []) (mkFile [] [] []).

Definition refused_start : Wal SortedAssoc :=
  ok_get demo_start (wal_open (Ok tt) (fun _ _ => Byte.xff) refusing demo_config).
Definition one_append : list Turn := [TAppend demo_big; TClient; TClient; TClient; TClient; TFlush].

Theorem flush_thread_panics :
  exists s, run_turns (mkSys refused_start CIdle []) (TAppend demo_big :: TClient :: one_append ++ one_append ++ removelast one_append) = Some s
    /\ length (s_returned s) = 4 /\ flush_turn (s_wal s) = Panic.
Proof.
  destruct (run_turns _ _) as [s|] eqn:Hs; [|vm_compute in Hs; discriminate].
  exists s. split; [done|]. vm_compute in Hs. injection Hs as <-. split; vm_compute; reflexivity.
Qed.
