(* ===== verification/WalRead.v ===== *)
(** Reading a record back (wal/iter.rs, [WalIter::load_current_frame] and
    [value]): pin the blocks that cover a frame, assemble its bytes and
    decode it. *)

From stdpp Require Import base strings numbers gmap list.
From S2P Require Import Prelude.
From S2P Require Import Errors.
From S2P Require Import WalFrame.
From S2P Require Import WalFile.
From S2P Require Import WalClock.

#[local] Existing Instances Permutation_cons Permutation_app'.

(** The copy loop over the blocks after the first. *)
Fixpoint copy_blocks (bs remaining : nat) (guards : list bytes) : WalResult bytes :=
  match guards with
  | [] => Ok []
  | g :: guards =>
      if decide (remaining = 0) then Ok []
      else
        let copy_len := Nat.min remaining bs in
        part <-- slice g 0 copy_len ;;
        rest <-- copy_blocks bs (remaining - copy_len) guards ;;
        Ok (part ++ rest)
  end.

(** The assembly of a frame from the blocks that cover it. *)
Definition assemble_frame (bs offset len : nat) (guards : list bytes) : WalResult bytes :=
  let block_offset := offset mod bs in
  let first_copy_len := Nat.min (bs - block_offset) len in
  g <-- unwrap (head guards) ;;
  part <-- slice g block_offset (block_offset + first_copy_len) ;;
  rest <-- copy_blocks bs (len - first_copy_len) (tail guards) ;;
  Ok (part ++ rest).

(** Dropping guards. *)
Fixpoint drop_guards (cache : ClockCache) (guards : list nat) : WalResult ClockCache :=
  match guards with
  | [] => Ok cache
  | g :: guards => let! (_, cache) := unpin cache g in drop_guards cache guards
  end.

(** Pinning a run of blocks; [Ok None] is a reader that waits with the earlier
    guards in its hands. *)
Fixpoint pin_blocks (bs : nat) (cache : ClockCache) (file : FileState) (seg : Z) (idxs : list nat)
  : WalResult (option (list nat)) * (ClockCache * FileState) :=
  match idxs with
  | [] => (Ok (Some []), (cache, file))
  | i :: idxs =>
      match read_block bs cache file (mkBlockKey seg i) with
      | (Ok (Some g), (cache, file)) =>
          match pin_blocks bs cache file seg idxs with
          | (Ok (Some gs), st) => (Ok (Some (g :: gs)), st)
          | (Ok None, st) => (Ok None, st)
          | (Err e, (cache, file)) =>
              match drop_guards cache [g] with
              | Ok cache => (Err e, (cache, file))
              | _ => (Panic, (cache, file))
              end
          | (Panic, st) => (Panic, st)
          end
      | (Ok None, st) => (Ok None, st)
      | (Err e, st) => (Err e, st)
      | (Panic, st) => (Panic, st)
      end
  end.

Section Load.
Context `{Crc32}.

(** [WalIter::load_current_frame] for an index entry [(offset, len)]: the decoded
    header, the assembled buffer, and the cache after the guards are gone. *)
Definition load_frame (bs : nat) (cache : ClockCache) (file : FileState) (seg : Z) (offset len : nat)
  : WalResult (option (DecodedFrame * bytes * ClockCache)) :=
  rassert (bool_decide (1 <= offset + len)) ;;;
  let start_block := offset / bs in
  let end_block := (offset + len - 1) / bs in
  match pin_blocks bs cache file seg (seq start_block (end_block + 1 - start_block)) with
  | (Ok (Some guards), (cache, _)) =>
      blocks <-- rmap (fun g => unwrap (guard_bytes cache g)) guards ;;
      buffer <-- assemble_frame bs offset len blocks ;;
      cache <-- drop_guards cache guards ;;
      frame <-- decode_at buffer 0 ;;
      frame <-- ok_or (WalIo "incomplete frame") frame ;;
      Ok (Some (frame, buffer, cache))
  | (Ok None, _) => Ok None
  | (Err e, _) => Err e
  | (Panic, _) => Panic
  end.

(** [WalIter::value]. *)
Definition wal_value (bs : nat) (cache : ClockCache) (file : FileState) (seg : Z) (offset len : nat)
  : WalResult (option bytes) :=
  r <-- load_frame bs cache file seg offset len ;;
  match r with
  | Some (decoded, buffer, _) =>
      let payload_len := df_total_len decoded - HEADER_LEN in
      payload <-- slice buffer HEADER_LEN (HEADER_LEN + payload_len) ;;
      Ok (Some payload)
  | None => Ok None
  end.
End Load.

(** ** Assembly *)

Lemma copy_blocks_ok bs guards : forall n,
  0 < bs -> Forall (fun g => length g = bs) guards -> n <= length (concat guards) ->
  copy_blocks bs n guards = Ok (take n (concat guards)).
Proof.
  induction guards as [|g guards IH]; intros n Hbs HF Hn; simpl in *.
  { by rewrite take_nil. }
  apply Forall_cons in HF as [Hg HF]. rewrite length_app in Hn. case_decide as H0; [by subst|].
  rewrite slice_Ok by lia. cbn [rbind]. rewrite IH by (done || lia). cbn [rbind]. f_equal.
  rewrite take_app, drop_0, Hg. f_equal; [|f_equal; lia].
  rewrite Nat.sub_0_r. destruct (Nat.le_gt_cases n bs); [by rewrite Nat.min_l|].
  rewrite Nat.min_r, !take_ge by lia. done.
Qed.

Lemma assemble_frame_ok bs offset len guards :
  0 < bs -> Forall (fun g => length g = bs) guards -> offset mod bs + len <= length (concat guards) ->
  0 < len -> assemble_frame bs offset len guards = Ok (read_at (concat guards) (offset mod bs) len).
Proof.
  intros Hbs HF Hl Hpos. destruct guards as [|g guards]; [simpl in Hl; lia|].
  apply Forall_cons in HF as [Hg HF]. unfold assemble_frame. cbn [head tail unwrap rbind concat] in *.
  set (o := offset mod bs) in *. rewrite length_app, Hg in Hl. pose proof (Nat.mod_upper_bound offset bs) as Ho. fold o in Ho.
  rewrite slice_Ok by lia. cbn [rbind]. rewrite copy_blocks_ok by (done || lia). cbn [rbind]. f_equal.
  unfold read_at. rewrite drop_app_le by lia. rewrite take_app, length_drop, Hg. f_equal; [|f_equal; lia].
  replace (o + Nat.min (bs - o) len - o) with (Nat.min len (bs - o)) by lia.
  rewrite <- take_take. f_equal. rewrite take_ge by len. done.
Qed.

Lemma read_at_app l a n1 n2 : read_at l a n1 ++ read_at l (a + n1) n2 = read_at l a (n1 + n2).
Proof. unfold read_at. rewrite <- drop_drop. apply take_take_drop. Qed.

Lemma read_at_read_at l a n b m : b + m <= n -> read_at (read_at l a n) b m = read_at l (a + b) m.
Proof.
  intros Hb. unfold read_at. rewrite skipn_firstn_comm, take_take, drop_drop. f_equal. lia.
Qed.

(** The blocks of a run, concatenated. *)
Lemma concat_blocks log bs s n :
  concat ((fun i => read_at log (i * bs) bs) <$> seq s n) = read_at log (s * bs) (n * bs).
Proof.
  revert s. induction n as [|n IH]; intros s; [done|]. simpl. rewrite IH.
  rewrite <- read_at_app. do 2 f_equal. lia.
Qed.

(** ** Pinning *)

Lemma victim_loop_frames fuel : forall c v c', victim_loop fuel c = Ok (v, c') -> length (cc_frames c') = length (cc_frames c).
Proof.
  induction fuel as [|fuel IH]; intros c v c'; simpl; [by intros [= _ <-]|].
  destruct (cc_frames c !! cc_hand c) as [f|]; simpl; [|done].
  case_decide; [destruct (fr_ref_bit f); simpl|]; [|by intros [= _ <-]|]; intros He; apply IH in He; rewrite He; simpl; len.
Qed.

Lemma read_begin_frames c key b c' : read_begin c key = Ok (b, c') -> length (cc_frames c') = length (cc_frames c).
Proof.
  unfold read_begin, pin_hit. destruct (cc_table c !! key) as [idx|]; simpl.
  { destruct (cc_frames c !! idx); simpl; [|done]. destruct (bool_decide _); simpl; [|done]. intros [= _ <-]. simpl. len. }
  unfold find_victim. case_decide; simpl; [by intros [= _ <-]|].
  destruct (victim_loop _ c) as [[[idx|] c1]| |] eqn:Hv; simpl; [| |done..]; apply victim_loop_frames in Hv.
  - unfold prepare_load. destruct (cc_frames c1 !! idx); simpl; [|done]. intros [= _ <-]. simpl. len.
  - intros [= _ <-]. done.
Qed.

Lemma fill_frame_frames c idx data : length (cc_frames (fill_frame c idx data)) = length (cc_frames c).
Proof. unfold fill_frame. destruct (cc_frames c !! idx); [|done]. simpl. len. Qed.

Lemma read_block_frames bs c file key idx c' file' :
  read_block bs c file key = (Ok (Some idx), (c', file')) -> length (cc_frames c') = length (cc_frames c).
Proof.
  unfold read_block. destruct (read_begin c key) as [[[i|i|] c1]| |] eqn:Hb; try done; apply read_begin_frames in Hb.
  - intros [= _ <- _]. done.
  - destruct (cc_frames c1 !! i) as [f|]; [|done]. destruct (pread_all _ _ _) as [[data|e|] f1]; [| |done].
    + unfold commit_load. destruct (cc_frames (fill_frame c1 i data) !! i); simpl; [|done].
      intros [= _ <- _]. simpl. rewrite length_insert, fill_frame_frames. done.
    + by destruct (unpin c1 i) as [[]| |].
Qed.

Section Pin.
Context (bs : nat) (disk : Z -> bytes).

(** Fewer holders than frames: some frame is free. *)
Lemma free_frame p :
  pool_inv bs disk p -> length (p_guards p) + length (p_loads p) < length (cc_frames (p_cache p)) ->
  exists i, unpinned (p_cache p) i.
Proof.
  intros Hi Hlt. destruct (decide (Exists (fun f => fr_pin_count f = 0%Z) (cc_frames (p_cache p)))) as [He|Hn].
  { apply Exists_exists in He as (f & Hin & Hp). apply list_elem_of_lookup in Hin as [i Hf]. by exists i, f. }
  exfalso. assert (seq 0 (length (cc_frames (p_cache p))) ⊆+ (fst <$> p_guards p ++ p_loads p)) as Hsub.
  { apply NoDup_submseteq; [apply NoDup_seq|]. intros i Hin. apply elem_of_seq in Hin.
    destruct (lookup_lt_is_Some_2 (cc_frames (p_cache p)) i) as [f Hf]; [lia|].
    apply not_Exists_Forall in Hn; [|apply _]. rewrite Forall_lookup in Hn. specialize (Hn i f Hf). simpl in Hn.
    destruct (pi_frames _ _ _ Hi i f Hf) as [_ Hp _ _ _].
    destruct (filter (fun x => x.1 = i) (p_guards p ++ p_loads p)) as [|[j k] t] eqn:E.
    - exfalso. apply (f_equal length) in E. rewrite filter_app, length_app in E. simpl in E.
      fold (holds i (p_guards p)) (holds i (p_loads p)) in E. lia.
    - assert ((j, k) ∈ filter (fun x => x.1 = i) (p_guards p ++ p_loads p)) as Hjk by (rewrite E; left).
      apply list_elem_of_filter in Hjk as [Hj Hjk]. simpl in Hj. subst j. by apply (list_elem_of_fmap_2 fst) in Hjk. }
  apply submseteq_length in Hsub. rewrite length_seq, length_fmap, length_app in Hsub. lia.
Qed.

Lemma unpin_total c ls gs i k : pool_inv bs disk (mkPool c ls gs) -> (i, k) ∈ gs -> exists b c', unpin c i = Ok (b, c').
Proof.
  intros Hi Hg. assert (is_Some (cc_frames c !! i)) as [f Hf].
  { apply lookup_lt_is_Some_2. eapply (pi_range _ _ _ Hi i k). apply elem_of_app. by left. }
  destruct (pi_frames _ _ _ Hi i f Hf) as [_ F2 _ _ _]. simpl in F2.
  assert (holds i gs <> 0) as Hh by (intros H0; by apply holds_0 with (k := k) in H0).
  unfold unpin. rewrite Hf. simpl. rewrite bool_decide_true by lia. simpl. eauto.
Qed.

Lemma drop_guards_ok guards : forall c gs,
  pool_inv bs disk (mkPool c [] gs) -> fst <$> gs ≡ₚ guards ->
  exists c', drop_guards c guards = Ok c' /\ pool_inv bs disk (mkPool c' [] []).
Proof.
  induction guards as [|g guards IH]; intros c gs Hi Hp.
  { apply Permutation_nil_r, fmap_nil_inv in Hp as ->. by exists c. }
  assert (g ∈ fst <$> gs) as Hin by (rewrite Hp; left).
  apply list_elem_of_fmap in Hin as ([i k] & Hg & Hin). simpl in Hg. subst i.
  destruct (unpin_total _ _ _ _ _ Hi Hin) as (b & c1 & Hu). apply list_elem_of_split in Hin as (g1 & g2 & ->).
  simpl. rewrite Hu. cbn [rbind]. apply (IH c1 (g1 ++ g2)).
  - by eapply unpin_inv.
  - rewrite fmap_app, fmap_cons in Hp. rewrite <- Permutation_middle in Hp. apply Permutation_cons_inv in Hp.
    by rewrite fmap_app.
Qed.

Lemma pin_blocks_ok seg idxs : forall c gs file,
  pool_inv bs disk (mkPool c [] gs) -> Forall (fun i => in_file bs disk (mkBlockKey seg i)) idxs ->
  contents file = disk seg -> f_script file = [] ->
  length gs + length idxs <= length (cc_frames c) -> (Z.of_nat (length gs + length idxs) < u32_max)%Z ->
  exists guards c' file' new, pin_blocks bs c file seg idxs = (Ok (Some guards), (c', file'))
    /\ pool_inv bs disk (mkPool c' [] (new ++ gs)) /\ fst <$> new ≡ₚ guards
    /\ Forall2 (fun g i => (g, mkBlockKey seg i) ∈ new) guards idxs.
Proof.
  induction idxs as [|i idxs IH]; intros c gs file Hi HF Hc Hs Hl Hu.
  { exists [], c, file, []. by split_and!. }
  apply Forall_cons in HF as [Hif HF]. simpl in Hl, Hu.
  destruct (read_block_spec bs disk (mkPool c [] gs) file (mkBlockKey seg i) Hi Hif Hc Hs) as (g & c1 & file1 & Hr & _ & Hi1 & Hc1 & Hs1).
  { simpl. lia. }
  { right. apply free_frame; [done|simpl; lia]. }
  pose proof (read_block_frames _ _ _ _ _ _ _ Hr) as Hfl. simpl in Hr, Hi1, Hfl.
  destruct (IH c1 ((g, mkBlockKey seg i) :: gs) file1 Hi1 HF) as (guards & c2 & file2 & new & Hp & Hi2 & Hperm & HF2);
    [congruence|done|simpl; lia|simpl; lia|].
  exists (g :: guards), c2, file2, (new ++ [(g, mkBlockKey seg i)]). simpl. rewrite Hr, Hp. split_and!; [done| | |].
  - rewrite <- app_assoc. done.
  - rewrite fmap_app. simpl. rewrite Hperm. symmetry. apply Permutation_cons_append.
  - constructor; [rewrite elem_of_app, list_elem_of_singleton; by right|].
    eapply Forall2_impl; [exact HF2|]. intros x y Hxy. rewrite elem_of_app. by left.
Qed.
End Pin.

(** Reading leaves the number of cache frames alone. *)
Lemma unpin_frames c i b c' : unpin c i = Ok (b, c') -> length (cc_frames c') = length (cc_frames c).
Proof.
  unfold unpin. destruct (cc_frames c !! i) as [f|]; [|done]. cbn [unwrap rbind]. intros He.
  destruct (bool_decide _); [|done]. cbn [rassert rbind] in He. injection He as _ <-. apply length_insert.
Qed.

Lemma drop_guards_frames guards : forall c c',
  drop_guards c guards = Ok c' -> length (cc_frames c') = length (cc_frames c).
Proof.
  induction guards as [|g guards IH]; intros c c' Hd; simpl in Hd; [by injection Hd as <-|].
  destruct (unpin c g) as [[b c1]|e|] eqn:Hu; try done. cbn [rbind] in Hd.
  rewrite (IH _ _ Hd). by eapply unpin_frames.
Qed.

Lemma pin_blocks_frames bs seg idxs : forall c file guards c' file',
  pin_blocks bs c file seg idxs = (Ok (Some guards), (c', file')) -> length (cc_frames c') = length (cc_frames c).
Proof.
  induction idxs as [|i idxs IH]; intros c file guards c' file' Hp; simpl in Hp; [by injection Hp as <- <- <-|].
  destruct (read_block bs c file (mkBlockKey seg i)) as [[[g|]|e|] [c1 f1]] eqn:Hr; try done.
  destruct (pin_blocks bs c1 f1 seg idxs) as [[[gs|]|e|] [c2 f2]] eqn:Hp2; try done.
  - injection Hp as <- <- <-. rewrite (IH _ _ _ _ _ Hp2). by eapply read_block_frames.
  - by repeat case_match.
Qed.

(** ** Reading a frame *)

Section Value.
Context `{Crc32} (bs : nat) (disk : Z -> bytes).

(** The blocks of a frame are inside the file and the pool has a frame for each. *)
Definition frame_readable (c : ClockCache) (seg : Z) (offset len : nat) : Prop :=
  let n := (offset + len - 1) / bs + 1 - offset / bs in
  ((offset + len - 1) / bs + 1) * bs <= length (disk seg) /\ n <= length (cc_frames c) /\ (Z.of_nat n < u32_max)%Z.

Lemma guards_bytes c gs (new : list (nat * BlockKey)) seg guards idxs :
  pool_inv bs disk (mkPool c [] gs) -> (forall x, x ∈ new -> x ∈ gs) ->
  Forall (fun i => in_file bs disk (mkBlockKey seg i)) idxs ->
  Forall2 (fun g i => (g, mkBlockKey seg i) ∈ new) guards idxs ->
  rmap (fun g => unwrap (E := WalError) (guard_bytes c g)) guards
  = Ok ((fun i => read_at (disk seg) (i * bs) bs) <$> idxs).
Proof.
  intros Hi Hin HF HF2. induction HF2 as [|g i guards idxs Hg _ IH]; [done|].
  apply Forall_cons in HF as [Hif HF]. simpl. rewrite (guard_reads bs disk _ _ _ _ _ Hi (Hin _ Hg) Hif). cbn [unwrap rbind].
  by rewrite (IH HF).
Qed.

Lemma load_frame_ok p file seg offset lsn payload :
  let len := HEADER_LEN + length payload in
  0 < bs -> pool_inv bs disk p -> p_guards p = [] -> p_loads p = [] ->
  contents file = disk seg -> f_script file = [] -> frame_readable (p_cache p) seg offset len ->
  read_at (disk seg) offset len = encode_frame lsn payload -> is_u64 (lsn_get lsn) ->
  (Z.of_nat (length payload) <= u32_max)%Z ->
  exists c', load_frame bs (p_cache p) file seg offset len
             = Ok (Some (mkDecodedFrame lsn len, encode_frame lsn payload, c'))
    /\ pool_inv bs disk (mkPool c' [] []) /\ length (cc_frames c') = length (cc_frames (p_cache p)).
Proof.
  intros len Hbs Hi Hg0 Hl0 Hc Hs (Hfile & Hn & Hu) Hread Hlsn Hpl. destruct p as [c ls gs]. simpl in *. subst ls gs.
  assert (0 < len) as Hlen by (unfold len, HEADER_LEN; lia).
  pose proof (Nat.div_mod_eq offset bs) as Hdo. pose proof (Nat.mod_upper_bound offset bs ltac:(lia)) as Hmo.
  pose proof (Nat.div_mod_eq (offset + len - 1) bs) as Hde. pose proof (Nat.mod_upper_bound (offset + len - 1) bs ltac:(lia)) as Hme.
  set (s := offset / bs) in *. set (e := (offset + len - 1) / bs) in *.
  assert (s <= e) as Hse by (apply Nat.Div0.div_le_mono; lia).
  assert (Forall (fun i => in_file bs disk (mkBlockKey seg i)) (seq s (e + 1 - s))) as HF.
  { apply Forall_forall. intros i Hin%elem_of_seq. unfold in_file, block_off. simpl. nia. }
  unfold load_frame. rewrite bool_decide_true by lia. cbn [rassert rbind]. fold s e.
  destruct (pin_blocks_ok bs disk seg (seq s (e + 1 - s)) c [] file Hi HF Hc Hs) as
    (guards & c1 & file1 & new & Hp1 & Hi1 & Hperm & HF2); [by rewrite length_seq|by rewrite length_seq|]. rewrite Hp1.
  rewrite app_nil_r in Hi1. rewrite (guards_bytes c1 new new seg guards _ Hi1 (fun x Hx => Hx) HF HF2). cbn [rbind].
  assert (Forall (fun g : bytes => length g = bs) ((fun i => read_at (disk seg) (i * bs) bs) <$> seq s (e + 1 - s))) as Hbl.
  { apply Forall_fmap, Forall_forall. intros i Hin%elem_of_seq. simpl. rewrite length_read_at. nia. }
  rewrite (assemble_frame_ok bs offset len _ Hbs Hbl); [| |done].
  2:{ rewrite concat_blocks, length_read_at. nia. }
  rewrite concat_blocks, read_at_read_at by nia. replace (s * bs + offset mod bs) with offset by lia. rewrite Hread. cbn [rbind].
  destruct (drop_guards_ok bs disk guards c1 new Hi1 Hperm) as (c2 & Hd & Hi2). rewrite Hd. cbn [rbind].
  pose proof (decode_encode_frame [] lsn payload [] Hlsn Hpl) as Hdec. rewrite app_nil_r in Hdec. simpl in Hdec.
  rewrite Hdec. cbn [ok_or rbind]. exists c2. split_and!; [done..|].
  by rewrite (drop_guards_frames _ _ _ Hd), (pin_blocks_frames _ _ _ _ _ _ _ _ Hp1).
Qed.

Lemma wal_value_ok p file seg offset lsn payload :
  let len := HEADER_LEN + length payload in
  0 < bs -> pool_inv bs disk p -> p_guards p = [] -> p_loads p = [] ->
  contents file = disk seg -> f_script file = [] -> frame_readable (p_cache p) seg offset len ->
  read_at (disk seg) offset len = encode_frame lsn payload -> is_u64 (lsn_get lsn) ->
  (Z.of_nat (length payload) <= u32_max)%Z ->
  wal_value bs (p_cache p) file seg offset len = Ok (Some payload).
Proof.
  intros len Hbs Hi Hg Hl Hc Hs Hfr Hread Hlsn Hpl. unfold wal_value.
  destruct (load_frame_ok p file seg offset lsn payload Hbs Hi Hg Hl Hc Hs Hfr Hread Hlsn Hpl) as (c' & He & _).
  fold len in He. rewrite He. cbn [rbind df_total_len].
  assert (slice (E := WalError) (encode_frame lsn payload) HEADER_LEN (HEADER_LEN + (len - HEADER_LEN)) = Ok payload) as ->; [|done].
  unfold encode_frame. rewrite !app_assoc. apply slice_tail; unfold len, HEADER_LEN; len.
Qed.
End Value.
