(* ===== verification/WalTheorems.v ===== *)
(** End-to-end theorems of the log: what is appended and flushed is what is read
    back under the LSN the append returned. *)

From stdpp Require Import base strings numbers sorting gmap list.
From S2P Require Import Prelude.
From S2P Require Import Errors.
From S2P Require Import Block.
From S2P Require Import Iter.
From S2P Require Import BlockBuilder.
From S2P Require Import MemTable.
From S2P Require Import LsmRefine.
From S2P Require Import WalFrame.
From S2P Require Import WalFile.
From S2P Require Import WalBuffer.
From S2P Require Import WalMeta.
From S2P Require Import WalIndexFile.
From S2P Require Import WalClock.
From S2P Require Import WalRead.
From S2P Require Import WalFlush.

Section ReadBack.
Context {M : Type} `{OrderedMapLaws M} `{Crc32}.

(** An idle block cache over the log of a segment, large enough for a frame of
    [n] bytes at any offset. *)
Definition reader_ready (bs : nat) (log : FileState) (cache : ClockCache) (n : nat) : Prop :=
  pool_inv bs (fun _ => contents log) (mkPool cache [] [])
  /\ n / bs + 2 <= length (cc_frames cache) /\ (Z.of_nat (n / bs + 2) < u32_max)%Z.

Lemma div_blocks bs offset n :
  0 < bs -> 0 < n -> (offset + n - 1) / bs + 1 - offset / bs <= n / bs + 2.
Proof.
  intros Hbs Hn.
  pose proof (Nat.div_mod_eq offset bs). pose proof (Nat.mod_upper_bound offset bs ltac:(lia)).
  pose proof (Nat.div_mod_eq (offset + n - 1) bs). pose proof (Nat.mod_upper_bound (offset + n - 1) bs ltac:(lia)).
  pose proof (Nat.div_mod_eq n bs). pose proof (Nat.mod_upper_bound n bs ltac:(lia)). nia.
Qed.

(** The last block of a window that ends in an aligned prefix. *)
Lemma last_block_end bs x w : 0 < bs -> w mod bs = 0 -> x < w -> (x / bs + 1) * bs <= w.
Proof.
  intros Hbs Hw Hx. apply Nat.Div0.div_exact in Hw. rewrite Hw, (Nat.mul_comm bs). apply Nat.mul_le_mono_r.
  assert (x / bs < w / bs); [|lia]. apply (Nat.mul_lt_mono_pos_l bs); [done|]. rewrite <- Hw.
  pose proof (Nat.Div0.mul_div_le x bs). lia.
Qed.

(** A record the current segment holds is found through the index and read
    back. *)
Lemma held_record_reads bs (self : FlushState M) seg recs lsn payload cache :
  seg_holds bs self recs -> fl_cur_seg self = Some seg -> 0 < bs -> (lsn, payload) ∈ recs -> is_u64 lsn ->
  (Z.of_nat (length (f_durable (seg_log seg))) <= u32_max)%Z ->
  reader_ready bs (seg_log seg) cache (frame_len payload) ->
  exists v off, (lsn_to_key lsn, Put v) ∈ mem_layer (fl_cur_mem self)
    /\ decode_offset_len v = Ok (Z.of_nat off, Z.of_nat (frame_len payload))
    /\ wal_value bs cache (seg_log seg) (seg_id seg) off (frame_len payload) = Ok (Some payload).
Proof.
  intros (seg' & Hcs & Hp & Hs & Hbs & Hwm & Hwl & HF2) Hseg Hpos Hin Hlsn Hmax (Hinv & Hfr & Hu).
  rewrite Hseg in Hcs. injection Hcs as <-. apply list_elem_of_lookup in Hin as [i Hi].
  destruct (Forall2_lookup_l _ _ _ _ _ HF2 Hi) as (kv & Hkv & (off & -> & Hle & Hread)). simpl in *.
  assert (contents (seg_log seg) = f_durable (seg_log seg)) as Hc by (unfold contents; by rewrite Hp).
  assert (0 < frame_len payload) as Hfl by (unfold frame_len, HEADER_LEN; lia).
  eexists _, off. split_and!; [by eapply list_elem_of_lookup_2| |].
  - apply decode_encode_offset_len; unfold is_u64, is_u32, u64_max, u32_max in *; lia.
  - apply (wal_value_ok bs (fun _ => contents (seg_log seg)) (mkPool cache [] []) (seg_log seg) (seg_id seg) off (mkLsn lsn) payload);
      try done; [|by rewrite Hc|unfold u32_max, frame_len in *; lia].
    pose proof (div_blocks bs off (frame_len payload) Hpos Hfl) as Hn. fold (frame_len payload). split_and!; simpl; [|lia|lia].
    rewrite Hc. pose proof (last_block_end bs (off + frame_len payload - 1) (fl_seg_written self) Hpos Hwm). lia.
Qed.

(** Every record the current segment holds can be read back: its index entry
    decodes to an offset and length at which the iterator returns exactly the
    payload. *)
Theorem held_record_readable bs (self : FlushState M) seg recs lsn payload cache :
  seg_holds bs self recs -> fl_cur_seg self = Some seg -> 0 < bs -> (lsn, payload) ∈ recs -> is_u64 lsn ->
  (Z.of_nat (length (f_durable (seg_log seg))) <= u32_max)%Z ->
  reader_ready bs (seg_log seg) cache (frame_len payload) ->
  exists v off, (lsn_to_key lsn, Put v) ∈ mem_layer (fl_cur_mem self)
    /\ decode_offset_len v = Ok (Z.of_nat off, Z.of_nat (frame_len payload))
    /\ wal_value bs cache (seg_log seg) (seg_id seg) off (frame_len payload) = Ok (Some payload).
Proof. apply held_record_reads. Qed.

(** C25: Append, flush, read: whatever the interleaving of the appends on a fresh
    buffer, once they have returned and the buffer is flushed into a segment
    that has room for it, on files that work, every payload is durable (nothing
    of the log is left unsynced) and indexed under the LSN its append returned.
    A payload is read back under that LSN through an idle block cache that has
    two frames more than the record has blocks ([reader_ready]), from a log of
    at most 4 GiB; [large_record_never_read] shows what happens to a record
    larger than the cache. *)
Theorem append_flush_read b0 a (self : FlushState M) inner recs :
  buffer_fresh b0 -> append_reachable b0 a -> Forall (fun w => w_stage w = Returned) (a_writers a) -> a_writers a <> [] ->
  flush_sizes inner (freeze (a_buf a)) -> seg_holds (inner_bs inner) self recs ->
  Forall (fun r => 0 <= r.1 < b_min_lsn b0)%Z recs -> (0 <= b_min_lsn b0)%Z ->
  (b_min_lsn b0 + Z.of_nat (b_entries_allocated (a_buf a)) <= u64_max)%Z ->
  fl_seg_written self + b_capacity b0 <= inner_segment_size inner ->
  exists self' inner' seg, flush_buffer self inner (freeze (a_buf a)) = Ok (self', inner')
    /\ fl_cur_seg self' = Some seg /\ f_pending (seg_log seg) = []
    /\ forall w, w ∈ a_writers a -> exists idx, w_slot w = Some idx
         /\ (b_min_lsn b0 + Z.of_nat idx <= i_durable_lsn inner')%Z
         /\ forall cache, (Z.of_nat (length (f_durable (seg_log seg))) <= u32_max)%Z ->
              reader_ready (inner_bs inner) (seg_log seg) cache (frame_len (w_payload w)) ->
              exists v off, (lsn_to_key (b_min_lsn b0 + Z.of_nat idx), Put v) ∈ mem_layer (fl_cur_mem self')
                /\ decode_offset_len v = Ok (Z.of_nat off, Z.of_nat (frame_len (w_payload w)))
                /\ wal_value (inner_bs inner) cache (seg_log seg) (seg_id seg) off (frame_len (w_payload w))
                   = Ok (Some (w_payload w)).
Proof.
  intros Hf Hr Hret Hne Hsz Hseg Hrecs Hmin Hmax Hfit.
  destruct (quiescent_holds b0 a Hf Hr Hret) as (ps & Hb & Hws).
  pose proof (append_reachable_inv _ _ Hf Hr) as Hi. destruct (ai_static _ _ Hi) as (Hm & Hc & _).
  assert (b_min_lsn (freeze (a_buf a)) = b_min_lsn b0) as Hm' by done.
  pose proof Hb as (Hcount & _). simpl in Hcount.
  assert (ps <> []) as Hps.
  { intros ->. destruct (a_writers a) as [|w ws] eqn:E; [done|]. destruct (Hws w) as (idx & _ & Hx); [left|done]. }
  destruct (flush_fits_ok self inner (freeze (a_buf a)) ps recs Hb Hps Hsz Hseg) as (self' & inner' & Hfl & Hseg' & Hd & _);
    [by rewrite Hm'|by rewrite Hm'|rewrite Hm'; lia|by simpl; rewrite Hc|].
  pose proof Hseg' as (seg & Hcs & Hpend & _). exists self', inner', seg. split_and!; [done..|]. intros w Hw.
  destruct (Hws w Hw) as (idx & Hidx & Hp). exists idx. pose proof (lookup_lt_Some _ _ _ Hp) as Hlt.
  split_and!; [done|rewrite Hd, Hm'; lia|]. intros cache Hmx Hrd.
  assert (0 < inner_bs inner) as Hbs.
  { destruct Hsz as (((k & Hk & He) & _) & _). unfold inner_bs. rewrite He. pose proof (Z.pow_pos_nonneg 2 k). lia. }
  apply (held_record_reads _ self' seg _ _ _ cache Hseg' Hcs Hbs); [|unfold is_u64; lia|done|done].
  rewrite Hm'. apply elem_of_app. right. apply list_elem_of_lookup. exists idx. unfold records.
  rewrite list_lookup_imap, Hp. done.
Qed.
End ReadBack.

(** *** Witnesses *)

(** A segment whose log starts with one frame, and its index. *)
Definition demo_log : FileState :=
  mkFile (write_at (replicate 1024 Byte.x00) 0 (@encode_frame demo_crc (mkLsn 7) demo_payload)) [] [].
Definition demo_held_seg : Segment := mkSegment 0 1024 512 demo_log (mkFile [] [] []).
Definition demo_held : FlushState SortedAssoc :=
  mkFlushState (Some demo_held_seg) (memtable_put (lsn_to_key 7) (encode_offset_len 0 18) memtable_new) 512 7 7.

Lemma demo_held_holds : @seg_holds SortedAssoc _ _ demo_crc 512 demo_held [(7%Z, demo_payload)].
Proof.
  exists demo_held_seg. split_and!; try reflexivity.
  - change (f_durable (seg_log demo_held_seg)) with (f_durable demo_log). unfold demo_log. simpl f_durable. len.
  - constructor; [|constructor]. exists 0. split_and!; [reflexivity|vm_compute; lia|vm_compute; reflexivity].
Qed.

Definition demo_reader : ClockCache := ok_get (mkClock [] ∅ 0) (clock_new 4 512).

Lemma demo_reader_ready : reader_ready 512 demo_log demo_reader (frame_len demo_payload).
Proof.
  split_and!; [|vm_compute; lia|vm_compute; reflexivity].
  apply (clock_new_inv 512 _ 4). unfold demo_reader, ok_get. by vm_compute.
Qed.

Lemma held_record_readable_witness :
  exists v off, (lsn_to_key 7, Put v) ∈ mem_layer (fl_cur_mem demo_held)
    /\ decode_offset_len v = Ok (Z.of_nat off, Z.of_nat (frame_len demo_payload))
    /\ @wal_value demo_crc 512 demo_reader demo_log 0 off (frame_len demo_payload) = Ok (Some demo_payload).
Proof.
  apply (@held_record_readable SortedAssoc _ _ demo_crc 512 demo_held demo_held_seg [(7%Z, demo_payload)] 7 demo_payload demo_reader
    demo_held_holds eq_refl).
  - lia.
  - left.
  - vm_compute. split; discriminate.
  - vm_compute. discriminate.
  - exact demo_reader_ready.
Defined.

(** One append on a 512-byte buffer, run to its end. *)
Definition demo_wb : WalBuffer := wal_buffer_new (replicate 512 Byte.x00) 7 0.
Definition wb1 : WalBuffer := set_allocated (set_write_pos demo_wb 18) 1.
Definition wb2 : WalBuffer := set_in_flight wb1 (b_in_flight wb1 + 1).
Definition wb3 : WalBuffer := set_data wb2 (write_at (b_data wb2) 0 (@writer_frame demo_crc wb2 0 demo_payload)).
Definition wb4 : WalBuffer := set_entries wb3 (<[0 := 18%Z]> (b_entries wb3)).
Definition wb5 : WalBuffer := set_in_flight wb4 (b_in_flight wb4 - 1).
Definition demo_appended : Appending := mkAppending wb5 [mkWriter demo_payload 0 (Some 0) Returned].

Lemma demo_wb_fresh : buffer_fresh demo_wb.
Proof. split_and!; try reflexivity. vm_compute. discriminate. Qed.

Lemma demo_appended_reachable : @append_reachable demo_crc demo_wb demo_appended.
Proof.
  eapply append_more; [eapply append_more; [eapply append_more; [eapply append_more;
    [eapply append_more; [eapply append_more; [apply append_start|]|]|]|]|]|].
  - apply (@step_claim demo_crc demo_wb (set_write_pos demo_wb 18) [] demo_payload 0); [vm_compute; discriminate|].
    vm_compute. reflexivity.
  - apply (@step_slot demo_crc _ wb1 [] [] demo_payload 0 0). vm_compute. reflexivity.
  - exact (@step_enter demo_crc wb1 [] [] demo_payload 0 0).
  - exact (@step_copy demo_crc wb2 [] [] demo_payload 0 0).
  - apply (@step_store demo_crc wb3 [] [] demo_payload 0 0 18%Z); [vm_compute; reflexivity|vm_compute; lia].
  - exact (@step_leave demo_crc wb4 [] [] demo_payload 0 0).
Qed.

Lemma append_flush_read_witness :
  exists self' inner' seg, @flush_buffer SortedAssoc _ demo_crc demo_flush demo_inner (freeze (a_buf demo_appended)) = Ok (self', inner')
    /\ fl_cur_seg self' = Some seg /\ f_pending (seg_log seg) = [].
Proof.
  assert (Forall (fun w => w_stage w = Returned) (a_writers demo_appended)) as H1 by (by repeat constructor).
  assert (a_writers demo_appended <> []) as H2 by discriminate.
  assert (flush_sizes demo_inner (freeze (a_buf demo_appended))) as H3.
  { split; [|split; vm_compute; [reflexivity|discriminate]]. apply demo_sizes. }
  assert (Forall (fun r : Z * bytes => 0 <= r.1 < b_min_lsn demo_wb)%Z []) as H4 by constructor.
  assert (0 <= b_min_lsn demo_wb)%Z as H5 by (vm_compute; discriminate).
  assert (b_min_lsn demo_wb + Z.of_nat (b_entries_allocated (a_buf demo_appended)) <= u64_max)%Z as H6 by (vm_compute; discriminate).
  assert (fl_seg_written demo_flush + b_capacity demo_wb <= inner_segment_size demo_inner) as H7 by (vm_compute; lia).
  destruct (@append_flush_read SortedAssoc _ _ demo_crc demo_wb demo_appended demo_flush demo_inner []
    demo_wb_fresh demo_appended_reachable H1 H2 H3 demo_flush_holds H4 H5 H6 H7) as (self' & inner' & seg & Hf & Hs & Hp & _).
  exists self', inner', seg. split; [exact Hf|]. split; [exact Hs|exact Hp].
Defined.
