(* ===== verification/WalScan.v ===== *)
(** The scan of the log (wal/iter.rs and wal/index_reader.rs): index iterators
    that attach a segment to the entries of an index, their merge, and the
    iterator that reads a frame for each entry.

    A reader of an index file keeps the block cache it was made with: what a
    read returns does not depend on which blocks are resident
    ([WalClock.read_block_spec]). *)

From stdpp Require Import base strings numbers sorting gmap list.
From S2P Require Import Prelude.
From S2P Require Import Errors.
From S2P Require Import Block.
From S2P Require Import Iter.
From S2P Require Import BlockBuilder.
From S2P Require Import EntryDecode.
From S2P Require Import SstFooter.
From S2P Require Import SstIter.
From S2P Require Import ScanLaws.
From S2P Require Import ConcatIter.
From S2P Require Import TwoMergeIter.
From S2P Require Import MemTable.
From S2P Require Import LsmRefine.
From S2P Require Import WalFrame.
From S2P Require Import WalFile.
From S2P Require Import WalMeta.
From S2P Require Import WalClock.
From S2P Require Import WalIndexFile.
From S2P Require Import WalBuffer.
From S2P Require Import WalFlush.
From S2P Require Import WalRead.
From S2P Require Import WalTheorems.

(** ** Reading an index file *)

(** [WalIndexReader]. *)
Record WalIndexReader := mkWalIndexReader {
  ir_dm : ClockCache;
  ir_block_size : nat;
  ir_file_id : Z;
  ir_fd : FileState;
}.

(** [WalIndexReader::read_block]; a reader that waits for ever is a panic here. *)
Definition index_read_block (self : WalIndexReader) (position : Position) : StorageResult bytes :=
  let off := Z.to_nat (offset position) in
  let block_idx := off / ir_block_size self in
  rassert (bool_decide (off mod ir_block_size self = 0)) ;;;
  match WalClock.read_block (ir_block_size self) (ir_dm self) (ir_fd self) (mkBlockKey (ir_file_id self) block_idx) with
  | (Ok (Some guard), (cache, _)) => unwrap (guard_bytes cache guard)
  | (Err e, _) => Err (storage_error_of_wal e)
  | (Ok None, _) | (Panic, _) => Panic
  end.

#[export] Instance WalIndexReader_read : BlockReader WalIndexReader := {|
  Block.read_block := index_read_block;
  reader_block_size := ir_block_size;
|}.

(** ** Index iterators *)

(** [IndexEntry] of the log: a frame in a segment's [.log]. *)
Record WalIndexEntry := mkWalIndexEntry { we_segment : Segment; we_offset : Z; we_len : Z }.

(** [SegmentIndexIter]. *)
Record SegmentIndexIter (I : Type) := mkSegmentIndexIter { sx_inner : I; sx_segment : Segment }.
Arguments mkSegmentIndexIter {I} _ _.
Arguments sx_inner {I} _.
Arguments sx_segment {I} _.

(** The bytes of a put; a delete yields no entry. *)
Class IndexValue (V : Type) := put_bytes : V -> option bytes.
#[export] Instance Entry_index : IndexValue Entry := fun e => match e with Put b => Some b | Delete => None end.
#[export] Instance EntryValue_index : IndexValue EntryValue :=
  fun e => match e with EPut b => Some b | EDelete => None end.

Section IndexIter.
Context {I V : Type} `{IterRead I V} `{IndexValue V}.

Definition index_value (self : SegmentIndexIter I) : StorageResult (option WalIndexEntry) :=
  v <-- value (sx_inner self) ;;
  match v ≫= put_bytes with
  | None => Ok None
  | Some b =>
      match decode_offset_len b with
      | Ok (offset, len) => Ok (Some (mkWalIndexEntry (sx_segment self) offset len))
      | _ => Panic
      end
  end.

#[export] Instance SegmentIndexIter_read : IterRead (SegmentIndexIter I) WalIndexEntry := {|
  valid self := valid (sx_inner self);
  key self := key (sx_inner self);
  value := index_value;
|}.

#[export] Instance SegmentIndexIter_dir `{DirIter Fwd I} : DirIter Fwd (SegmentIndexIter I) := {|
  seek_to_first self := i <-- seek_to_first Fwd (sx_inner self) ;; Ok (mkSegmentIndexIter i (sx_segment self));
  seek target self := i <-- seek Fwd target (sx_inner self) ;; Ok (mkSegmentIndexIter i (sx_segment self));
  next self := i <-- next Fwd (sx_inner self) ;; Ok (mkSegmentIndexIter i (sx_segment self));
|}.
End IndexIter.

(** [SegmentIndexIter::from_sealed_segment]. *)
Definition from_sealed_segment (bs : nat) (dm : ClockCache) (segment : Segment)
  : WalResult (SegmentIndexIter (SstIter WalIndexReader)) :=
  footer <-- sealed_footer bs segment ;;
  let reader := mkWalIndexReader dm bs (seg_id segment) (seg_meta segment) in
  Ok (mkSegmentIndexIter (sst_iter_new reader footer) segment).

(** ** The log iterator *)

Abbreviation SealedIndex := (ConcatIter (SegmentIndexIter (SstIter WalIndexReader))).
Abbreviation ActiveIndex M := (SegmentIndexIter (OwnedMemTableIter M)).

(** [WalIter]; [wi_block_size] is the one of its [DiskManager]. *)
Record WalIter (M : Type) := mkWalIter {
  wi_index_iter : TwoMergeIter SealedIndex (ActiveIndex M);
  wi_dm : ClockCache;
  wi_block_size : nat;
}.
Arguments mkWalIter {M} _ _ _.
Arguments wi_index_iter {M} _.
Arguments wi_dm {M} _.
Arguments wi_block_size {M} _.

Section Iter.
Context {M : Type} `{OrderedMap M} `{Crc32}.

(** An iterator error as the log reports it. *)
Definition iter_err {A} (what : string) (r : StorageResult A) : WalResult A :=
  map_err (fun e => WalIo (what +:+ ": " +:+ storage_error_display e)) r.

(** [WalIter::new]; the range is ignored by the source. [rounds] bounds the rounds of
    the merge's skip loop. *)
Definition wal_iter_new (rounds bs : nat) (sealed : list Segment) (active_seg : Segment) (active_mem : MemTable M)
  (dm : ClockCache) : WalResult (WalIter M) :=
  sealed_iters <-- rmap (from_sealed_segment bs dm) sealed ;;
  let active_iter := mkSegmentIndexIter (memtable_iter active_mem) active_seg in
  index_iter <-- iter_err "merge iter" (two_merge_new rounds (concat_iter_new sealed_iters) active_iter) ;;
  Ok (mkWalIter index_iter dm bs).

(** [WalIter::valid], [key], [next], [seek_to_first], [seek]. *)
Definition wal_iter_valid (self : WalIter M) : bool := valid (wi_index_iter self).
Definition wal_iter_key (self : WalIter M) : WalResult (option Z) :=
  match key (wi_index_iter self) with
  | Ok (Some k) => lsn <-- key_to_lsn k ;; Ok (Some lsn)
  | Ok None => Ok None
  | _ => Panic
  end.
Definition with_index (self : WalIter M) (i : TwoMergeIter SealedIndex (ActiveIndex M)) : WalIter M :=
  mkWalIter i (wi_dm self) (wi_block_size self).
Definition wal_iter_next (self : WalIter M) : WalResult (WalIter M) :=
  i <-- iter_err "iter next" (next Fwd (wi_index_iter self)) ;; Ok (with_index self i).
Definition wal_iter_seek_to_first (self : WalIter M) : WalResult (WalIter M) :=
  i <-- iter_err "seek_to_first" (seek_to_first Fwd (wi_index_iter self)) ;; Ok (with_index self i).
Definition wal_iter_seek (lsn : Z) (self : WalIter M) : WalResult (WalIter M) :=
  i <-- iter_err "seek" (seek Fwd (lsn_to_key lsn) (wi_index_iter self)) ;; Ok (with_index self i).

(** [WalIter::value]: the payload, and the iterator with the cache the read left;
    [None] when the read waits for ever. *)
Definition wal_iter_value (self : WalIter M) : WalResult (option (bytes * WalIter M)) :=
  if wal_iter_valid self then
    match value (wi_index_iter self) with
    | Ok entry =>
        entry <-- ok_or (WalIo "index iterator not valid") entry ;;
        let seg := we_segment entry in
        r <-- load_frame (wi_block_size self) (wi_dm self) (seg_log seg) (seg_id seg)
                (Z.to_nat (we_offset entry)) (Z.to_nat (we_len entry)) ;;
        match r with
        | Some (decoded, buffer, dm) =>
            let payload_len := df_total_len decoded - HEADER_LEN in
            payload <-- slice buffer HEADER_LEN (HEADER_LEN + payload_len) ;;
            Ok (Some (payload, mkWalIter (wi_index_iter self) dm (wi_block_size self)))
        | None => Ok None
        end
    | _ => Panic
    end
  else Err (WalIo "iterator not valid").

(** The loop of a consumer:
    [while it.valid() { out.push((it.key().unwrap(), it.value()?)); it.next()? }]. *)
Fixpoint wal_collect (fuel : nat) (self : WalIter M) : WalResult (option (list (Z * bytes))) :=
  match fuel with
  | 0 => Ok (Some [])
  | S fuel =>
      if wal_iter_valid self then
        lsn <-- wal_iter_key self ;; lsn <-- unwrap lsn ;;
        v <-- wal_iter_value self ;;
        match v with
        | Some (payload, self) =>
            self <-- wal_iter_next self ;;
            rest <-- wal_collect fuel self ;;
            Ok (cons (lsn, payload) <$> rest)
        | None => Ok None
        end
      else Ok (Some [])
  end.
End Iter.

(** ** Correctness *)

(** An entry of an index iterator against the entry under it. *)
Definition entry_at {V} `{IndexValue V} (seg : Segment) (kv : bytes * V) (e : bytes * WalIndexEntry) : Prop :=
  e.1 = kv.1 /\ exists b off len, put_bytes kv.2 = Some b /\ decode_offset_len b = Ok (off, len)
    /\ e.2 = mkWalIndexEntry seg off len.

Lemma seek_from_same {V W} d t (R : bytes * V -> bytes * W -> Prop) l l' :
  (forall x y, R x y -> y.1 = x.1) -> Forall2 R l l' -> Forall2 R (seek_from d t l) (seek_from d t l').
Proof.
  intros Hk HF. induction HF as [|x y l l' Hxy HF IH]; [constructor|]. unfold seek_from in *. simpl.
  rewrite (Hk _ _ Hxy). case_decide; [done|]. by constructor.
Qed.

Section IndexLaws.
Context {I V : Type} `{ScanLaws Fwd I V} `{IndexValue V}.

#[export] Program Instance SegmentIndexIter_scan : ScanLaws Fwd (SegmentIndexIter I) WalIndexEntry := {|
  scannable self all := exists l, scannable Fwd (sx_inner self) l /\ Forall2 (entry_at (sx_segment self)) l all;
  scan_at self all rest := exists l r, scan_at Fwd (sx_inner self) l r
    /\ Forall2 (entry_at (sx_segment self)) l all /\ Forall2 (entry_at (sx_segment self)) r rest;
|}.
Next Obligation.
  intros self all rest (l & r & Hat & _ & HF). simpl. rewrite (scan_valid _ _ _ Hat). by destruct HF.
Qed.
Next Obligation.
  intros self all rest (l & r & Hat & _ & HF). simpl. rewrite (scan_key _ _ _ Hat). destruct HF as [|x y r rest [Hk _]]; [done|].
  simpl. by rewrite Hk.
Qed.
Next Obligation.
  intros self all rest (l & r & Hat & _ & HF). simpl. unfold index_value. rewrite (scan_value _ _ _ Hat).
  destruct HF as [|x y r rest (_ & b & off & len & Hp & Hd & He)]; [done|].
  cbn. rewrite Hp, Hd, He. done.
Qed.
Next Obligation.
  intros self all (l & Hs & HF). simpl. destruct (scan_first_ok _ _ Hs) as (it & -> & Hat). cbn [rbind].
  eexists. split; [done|]. exists l, l. done.
Qed.
Next Obligation.
  intros self all t (l & Hs & HF). simpl. destruct (scan_seek_ok _ _ t Hs) as (it & -> & Hat). cbn [rbind].
  eexists. split; [done|]. exists l, (seek_from Fwd t l). split_and!; [done|done|]. apply seek_from_same; [|done].
  by intros x y [? _].
Qed.
Next Obligation.
  intros self all rest (l & r & Hat & HF & HFr). simpl. destruct (scan_next_ok _ _ _ Hat) as (it & -> & Hat'). cbn [rbind].
  eexists. split; [done|]. exists l, (tail r). split_and!; [done|done|]. by destruct HFr.
Qed.
End IndexLaws.

(** The scans below have no sealed segment, so nothing is asked of the iterators
    over sealed indexes: the merge only needs some contract for them. *)
#[local] Program Instance NoSealedIndex : ScanLaws Fwd (SegmentIndexIter (SstIter WalIndexReader)) WalIndexEntry := {|
  scannable _ _ := False;
  scan_at _ _ _ := False;
|}.
Solve All Obligations with done.

Section Collect.
Context {M : Type} `{OrderedMapLaws M} `{Crc32} (bs : nat) (seg : Segment).
Context (Hbs : 0 < bs) (Hpend : f_pending (seg_log seg) = []) (Hscript : f_script (seg_log seg) = []).

(** An entry of the merged index that points at the frame of a record, in a log
    written up to [written]. *)
Definition points_at (written : nat) (e : bytes * WalIndexEntry) (r : Z * bytes) : Prop :=
  exists off, e = (lsn_to_key r.1, mkWalIndexEntry seg (Z.of_nat off) (Z.of_nat (frame_len r.2)))
    /\ off + frame_len r.2 <= written
    /\ read_at (f_durable (seg_log seg)) off (frame_len r.2) = encode_frame (mkLsn r.1) r.2.

(** A record the cache can hold. *)
Definition record_fits (frames : nat) (r : Z * bytes) : Prop :=
  is_u64 r.1 /\ (Z.of_nat (frame_len r.2) <= u32_max)%Z /\ frame_len r.2 / bs + 2 <= frames.

Lemma collect_ok written frames all : forall recs rest (it : WalIter M) fuel,
  written mod bs = 0 -> written <= length (f_durable (seg_log seg)) -> (Z.of_nat frames < u32_max)%Z ->
  scan_at Fwd (wi_index_iter it) all rest -> Forall2 (points_at written) rest recs -> Forall (record_fits frames) recs ->
  wi_block_size it = bs -> pool_inv bs (fun _ => contents (seg_log seg)) (mkPool (wi_dm it) [] []) ->
  length (cc_frames (wi_dm it)) = frames -> length recs <= fuel ->
  wal_collect fuel it = Ok (Some recs).
Proof.
  induction recs as [|[lsn p] recs IH]; intros rest it fuel Hmod Hlen Hfr Hat HF HFf Hb Hp Hn Hfuel.
  { apply Forall2_nil_inv_r in HF. subst rest. destruct fuel; [done|]. cbn [wal_collect]. unfold wal_iter_valid.
    by rewrite (scan_valid _ _ _ Hat). }
  destruct fuel as [|fuel]; [simpl in Hfuel; lia|]. destruct rest as [|e rest]; [inversion HF|].
  apply Forall2_cons_1 in HF as [(off & -> & Hle & Hread) HF]. apply Forall_cons in HFf as [(Hl64 & H32 & Hroom) HFf]. cbn [fst snd length] in *.
  assert (contents (seg_log seg) = f_durable (seg_log seg)) as Hc by (unfold contents; by rewrite Hpend).
  assert (0 < frame_len p) as Hfl by (unfold frame_len, HEADER_LEN; lia).
  pose proof (div_blocks bs off (frame_len p) Hbs Hfl) as Hblocks.
  destruct (load_frame_ok bs (fun _ => contents (seg_log seg)) (mkPool (wi_dm it) [] []) (seg_log seg) (seg_id seg) off (mkLsn lsn) p)
    as (dm & Hload & Hp' & Hn'); try done.
  { pose proof (last_block_end bs (off + frame_len p - 1) written Hbs Hmod). fold (frame_len p).
    split_and!; cbn [p_cache]; [rewrite Hc; lia|lia|lia]. }
  { by rewrite Hc. } { unfold frame_len in H32. lia. }
  fold (frame_len p) in Hload. cbn [p_cache] in Hload. cbn [wal_collect]. unfold wal_iter_valid. rewrite (scan_valid _ _ _ Hat).
  unfold wal_iter_key. rewrite (scan_key _ _ _ Hat). cbn [head fmap option_fmap option_map fst].
  rewrite key_to_lsn_to_key by done. cbn [rbind unwrap].
  unfold wal_iter_value, wal_iter_valid. rewrite (scan_valid _ _ _ Hat), (scan_value _ _ _ Hat).
  cbn [head fmap option_fmap option_map snd ok_or rbind we_segment we_offset we_len]. rewrite !Nat2Z.id, Hb, Hload. cbn [rbind df_total_len].
  assert (slice (E := WalError) (encode_frame (mkLsn lsn) p) HEADER_LEN (HEADER_LEN + (frame_len p - HEADER_LEN)) = Ok p) as ->.
  { unfold encode_frame. rewrite !app_assoc. apply slice_tail; unfold frame_len, HEADER_LEN; len. }
  cbn [rbind]. unfold wal_iter_next. cbn [wi_index_iter]. destruct (scan_next_ok _ _ _ Hat) as (i & -> & Hat').
  cbn [iter_err map_err rbind].
  rewrite (IH rest (with_index (mkWalIter (wi_index_iter it) dm bs) i) fuel); try done; [|lia]. cbn [p_cache] in Hn'. by rewrite <- Hn.
Qed.
End Collect.

(** ** Scans without sealed segments *)

Section Merged.
Context {M : Type} `{OrderedMapLaws M}.
Implicit Types b : ActiveIndex M.

(** The merge of no sealed segment with the active index is the active index. *)
Lemma merged_scannable b lb rounds cur :
  scannable Fwd b lb -> weak_order Fwd lb -> length lb < rounds ->
  scannable Fwd (mkTwoMergeIter (concat_iter_new [] : SealedIndex) b cur rounds) lb.
Proof.
  intros Hb Hw Hr. exists [], lb. split; [exists []; split; [constructor|done]|]. split; [done|]. split; [constructor|].
  split_and!; [done|done|]. unfold two_merge_contents. rewrite shadow_nil. by destruct lb.
Qed.

Lemma active_rescan b all rest : scan_at Fwd b all rest -> scannable Fwd b all.
Proof.
  intros (l & r & (m & Hat & ->) & HF & _). exists (ord Fwd m). split; [|done]. exists m. split; [by eapply reseek|done].
Qed.

(** [TwoMergeIter::new] on the two. *)
Lemma merged_new b lb rounds :
  scannable Fwd b lb -> weak_order Fwd lb -> length lb < rounds ->
  exists b' cur, two_merge_new rounds (concat_iter_new [] : SealedIndex) b
      = Ok (mkTwoMergeIter (concat_iter_new []) b' cur rounds)
    /\ scan_at Fwd (mkTwoMergeIter (concat_iter_new [] : SealedIndex) b' cur rounds) lb lb /\ scannable Fwd b' lb.
Proof.
  intros Hb Hw Hr. destruct (scan_first_ok _ _ (merged_scannable b lb rounds None Hb Hw Hr)) as (it & Hf & Hat).
  destruct (scan_first_ok _ _ Hb) as (b' & Hfb & Hatb).
  assert (exists cur, it = mkTwoMergeIter (concat_iter_new []) b' cur rounds) as [cur ->].
  { destruct rounds as [|rounds]; [lia|].
    cbn [seek_to_first TwoMergeIter_dir] in Hf. unfold two_merge_seek_to_first in Hf. cbn [tm_a tm_b tm_rounds] in Hf.
    change (seek_to_first Fwd (concat_iter_new [] : SealedIndex)) with (Ok (E := StorageError) (concat_iter_new [] : SealedIndex)) in Hf.
    cbn [rbind] in Hf. rewrite Hfb in Hf. cbn [rbind] in Hf. unfold settle in Hf. cbn [skip_b_if_equal] in Hf.
    change (valid (concat_iter_new [] : SealedIndex)) with false in Hf. cbn [andb rbind] in Hf. unfold choose in Hf.
    change (valid (concat_iter_new [] : SealedIndex)) with false in Hf.
    destruct (valid b'); cbn [rbind] in Hf; injection Hf as <-; by eexists. }
  exists b', cur. split_and!; [exact Hf|done|]. by eapply active_rescan.
Qed.

(** A seek on it. *)
Lemma merged_seek b lb rounds cur t :
  scannable Fwd b lb -> weak_order Fwd lb -> length lb < rounds ->
  exists i, seek Fwd t (mkTwoMergeIter (concat_iter_new [] : SealedIndex) b cur rounds) = Ok i
    /\ scan_at Fwd i lb (seek_from Fwd t lb).
Proof. intros Hb Hw Hr. apply scan_seek_ok, (merged_scannable b lb rounds cur Hb Hw Hr). Qed.
End Merged.

(** Seeking in the index is seeking in the records. *)
Lemma seek_points `{Crc32} seg written lsn es recs :
  is_u64 lsn -> Forall (fun r => is_u64 r.1) recs -> Forall2 (points_at seg written) es recs ->
  Forall2 (points_at seg written) (seek_from Fwd (lsn_to_key lsn) es) (skip_while (fun r => r.1 < lsn)%Z recs).
Proof.
  intros Hl HF HF2. induction HF2 as [|e r es recs Hp HF2 IH]; [constructor|]. apply Forall_cons in HF as [Hr HF].
  unfold seek_from in *. simpl. pose proof Hp as (off & -> & _). simpl.
  assert (klt (lsn_to_key r.1) (lsn_to_key lsn) <-> (r.1 < lsn)%Z) as Hiff.
  { unfold klt. rewrite lsn_key_cmp by done. apply Z.compare_lt_iff. }
  destruct (decide (klt _ _)) as [Hk|Hk], (decide (r.1 < lsn)%Z) as [Hz|Hz]; try tauto. by constructor.
Qed.

Lemma skip_records lsn ps : forall n,
  skip_while (fun r => r.1 < lsn)%Z (records n ps) = drop (Z.to_nat (lsn - n)) (records n ps).
Proof.
  induction ps as [|p ps IH]; intros n; [by destruct (Z.to_nat _)|].
  assert (records n (p :: ps) = (n, p) :: records (n + 1) ps) as ->.
  { unfold records. simpl. f_equal; [f_equal; lia|]. apply imap_ext. intros i q _. simpl. f_equal. lia. }
  simpl. case_decide as Hd.
  - rewrite IH. destruct (Z.to_nat (lsn - n)) as [|k] eqn:Hk; [lia|]. simpl. f_equal. lia.
  - by replace (Z.to_nat (lsn - n)) with 0 by lia.
Qed.

(** A new pool has a frame for every block asked for. *)
Lemma clock_new_ok capacity bs :
  block_size_ok bs -> exists dm, clock_new capacity bs = Ok dm /\ length (cc_frames dm) = capacity.
Proof.
  intros (Hp & _ & Hmax). unfold clock_new.
  assert (forall l : list nat, exists fs, rmap (fun _ => buf <-- aligned_zeroed bs bs ;; Ok (mkFrame buf None false 0)) l
    = Ok (E := WalError) fs /\ length fs = length l) as Hrm.
  { induction l as [|x l (fs & Hfs & Hlen)]; [by exists []|]. unfold aligned_zeroed in *. rewrite Hp, decide_True in * by lia.
    simpl in *. rewrite Hfs. simpl. eexists. split; [done|]. simpl. by rewrite Hlen. }
  destruct (Hrm (seq 0 capacity)) as (fs & -> & Hlen). cbn [rbind]. eexists. split; [done|]. simpl. by rewrite Hlen, length_seq.
Qed.
