(* ===== verification/WalScanTheorems.v ===== *)
(** Scans of the log of [WalLog]: a scan of a log without sealed segments returns
    exactly the flushed records, in LSN order and from any LSN; a record too
    large for the block cache is never returned. *)

From stdpp Require Import base strings numbers sorting gmap list.
From S2P Require Import Prelude.
From S2P Require Import Errors.
From S2P Require Import Block.
From S2P Require Import Iter.
From S2P Require Import ScanLaws.
From S2P Require Import ConcatIter.
From S2P Require Import TwoMergeIter.
From S2P Require Import MemTable.
From S2P Require Import LsmRefine.
From S2P Require Import WalFrame.
From S2P Require Import WalFile.
From S2P Require Import WalMeta.
From S2P Require Import WalClock.
From S2P Require Import WalIndexFile.
From S2P Require Import WalBuffer.
From S2P Require Import WalFlush.
From S2P Require Import WalLog.
From S2P Require Import WalLogInv.
From S2P Require Import WalLogRun.
From S2P Require Import WalLogTheorems.
From S2P Require Import WalRead.
From S2P Require Import WalTheorems.
From S2P Require Import WalScan.

Section Scan.
Context {M : Type} `{OrderedMapLaws M} `{Crc32}.

(** [Wal::scan]; the active segment and index are those of the flush thread, as
    they are when the scan is opened. (The iterator of the code keeps the index
    the flush thread goes on filling; [MemLive] is about such iterators.) *)
Definition wal_scan (rounds : nat) (self : Wal M) : WalResult (WalIter M) :=
  let inner := wl_inner self in
  seg <-- unwrap (fl_cur_seg (wl_flush self)) ;;
  dm <-- clock_new (Z.to_nat (read_cache_blocks (i_config inner))) (inner_bs inner) ;;
  wal_iter_new rounds (inner_bs inner) (i_sealed inner) seg (fl_cur_mem (wl_flush self)) dm.

(** The index of the active segment lists its records. *)
Lemma active_index_points seg (st : FlushState M) recs :
  (Z.of_nat (fl_seg_written st) <= u64_max)%Z ->
  Forall (fun r => Z.of_nat (frame_len r.2) <= u32_max)%Z recs ->
  Forall2 (rec_at (f_durable (seg_log seg)) (fl_seg_written st)) recs (mem_layer (fl_cur_mem st)) ->
  exists es, scannable Fwd (mkSegmentIndexIter (memtable_iter (fl_cur_mem st)) seg) es
    /\ weak_order Fwd es /\ Forall2 (points_at seg (fl_seg_written st)) es recs.
Proof.
  intros Hw Hlen HF2.
  assert (exists es, Forall2 (entry_at seg) (mem_layer (fl_cur_mem st)) es
    /\ Forall2 (points_at seg (fl_seg_written st)) es recs) as (es & He & Hp).
  { induction HF2 as [|r kv recs l (off & -> & Hle & Hread) HF2 IH]; [exists []; by split; constructor|].
    apply Forall_cons in Hlen as [Hr Hlen]. destruct (IH Hlen) as (es & He & Hp).
    exists ((lsn_to_key r.1, mkWalIndexEntry seg (Z.of_nat off) (Z.of_nat (frame_len r.2))) :: es).
    split; constructor; try done; [|by exists off]. split; [done|]. eexists _, _, _. split; [reflexivity|]. split; [|done].
    apply decode_encode_offset_len; unfold is_u64, is_u32; lia. }
  exists es. split_and!; [|apply (strict_weak Fwd)|done].
  - exists (mem_layer (fl_cur_mem st)). split; [|done]. exists (mem_layer (fl_cur_mem st)). done.
  - pose proof (om_sorted (mt_map (fl_cur_mem st))) as Hs. apply (ksorted_strict Fwd) in Hs. simpl in Hs.
    unfold strict_order in *. replace (fst <$> es) with (fst <$> mem_layer (fl_cur_mem st)); [done|].
    clear -He. induction He as [|kv e l es [Hk _] _ IH]; [done|]. rewrite !fmap_cons, IH. by rewrite Hk.
Qed.

(** A record whose blocks, two more for its ends, fit the block cache: the
    iterator pins all the blocks of a frame at once. *)
Definition cacheable (c : WalConfig) (r : Z * bytes) : Prop :=
  (Z.of_nat (frame_len r.2) / wc_block_size c + 2 <= read_cache_blocks c)%Z.

(** Flushed records fit the reader. *)
Lemma records_fit c ps :
  log_config c -> Forall (fun p => Z.of_nat (frame_len p) <= buffer_size c)%Z ps ->
  Forall (cacheable c) (records 0 ps) -> (Z.of_nat (length ps) <= 2 ^ 30)%Z ->
  Forall (record_fits (Z.to_nat (wc_block_size c)) (Z.to_nat (read_cache_blocks c))) (records 0 ps).
Proof.
  intros Hcfg HF Hcache Hn. pose proof (config_block_size c Hcfg) as (_ & Hge & _). unfold IDX_HEADER_LEN in Hge.
  destruct Hcfg as (_ & Hsz & _). apply Forall_forall. intros r Hr. pose proof (records_lsns _ _ _ Hr) as Hl.
  rewrite Forall_forall in Hcache. pose proof (Hcache r Hr) as Hcr. unfold cacheable in Hcr.
  unfold records in Hr. apply list_elem_of_lookup in Hr as [i Hi]. rewrite list_lookup_imap in Hi.
  destruct (ps !! i) as [p|] eqn:Hp; [|done]. simpl in Hi. injection Hi as <-. simpl in *.
  pose proof (Forall_lookup_1 _ _ _ _ HF Hp) as Hfp. simpl in Hfp.
  split_and!; cbn [fst snd]; [unfold is_u64, u64_max; lia|lia|].
  assert (0 <= Z.of_nat (frame_len p) / wc_block_size c)%Z as Hq by (apply Z.div_pos; lia).
  apply Nat2Z.inj_le. rewrite Nat2Z.inj_add, Nat2Z.inj_div, !Z2Nat.id by lia. lia.
Qed.

(** What a scan of the active segment returns. *)
Lemma scan_active rounds bs seg (st : FlushState M) recs dm frames :
  seg_holds bs st recs -> fl_cur_seg st = Some seg -> 0 < bs ->
  (Z.of_nat (fl_seg_written st) <= u64_max)%Z -> Forall (record_fits bs frames) recs -> length recs < rounds ->
  pool_inv bs (fun _ => contents (seg_log seg)) (mkPool dm [] []) -> length (cc_frames dm) = frames ->
  (Z.of_nat frames < u32_max)%Z ->
  exists it, wal_iter_new rounds bs [] seg (fl_cur_mem st) dm = Ok it
    /\ (forall fuel, length recs <= fuel -> wal_collect fuel it = Ok (Some recs))
    /\ forall lsn, is_u64 lsn -> exists it', wal_iter_seek lsn it = Ok it'
         /\ forall fuel, length recs <= fuel ->
              wal_collect fuel it' = Ok (Some (skip_while (fun r => r.1 < lsn)%Z recs)).
Proof.
  intros (seg' & Hcs & Hpend & Hscr & _ & Hmod & Hwl & HF2) Hseg Hbs Hw Hfit Hrounds Hpool Hfr H32.
  rewrite Hseg in Hcs. injection Hcs as <-.
  destruct (active_index_points seg st recs Hw) as (es & Hsc & Hord & Hpts); [|done|].
  { eapply Forall_impl; [exact Hfit|]. by intros r (_ & ? & _). }
  pose proof (Forall2_length _ _ _ Hpts) as Hlen.
  destruct (merged_new _ es rounds Hsc Hord) as (b & cur & Hnew & Hat & Hb); [lia|].
  exists (mkWalIter (mkTwoMergeIter (concat_iter_new []) b cur rounds) dm bs). split_and!.
  - unfold wal_iter_new. cbn [rmap rbind]. rewrite Hnew. done.
  - intros fuel Hf. eapply (collect_ok bs seg Hbs Hpend Hscr (fl_seg_written st) frames es); try done.
  - intros lsn Hl.
    destruct (merged_seek b es rounds cur (lsn_to_key lsn) Hb Hord) as (i & Hi & Hati); [lia|].
    exists (mkWalIter i dm bs). split.
    { unfold wal_iter_seek. cbn [wi_index_iter]. rewrite Hi. done. }
    intros fuel Hf. eapply (collect_ok bs seg Hbs Hpend Hscr (fl_seg_written st) frames es); try done.
    + apply seek_points; [done| |done]. eapply Forall_impl; [exact Hfit|]. by intros r (? & _).
    + clear -Hfit. induction Hfit as [|r recs Hr Hfit IH]; [constructor|]. simpl. case_decide; [done|]. by constructor.
    + assert (length (skip_while (fun r => r.1 < lsn)%Z recs) <= length recs); [|lia]. apply length_skip_while.
Qed.

(** C26: A scan of a log that is open and has no sealed segments, in any state a
    client reaches on files that work, returns exactly the records flushed by
    then and ends: every one of them with its payload, in LSN order, and after a
    seek the ones from that LSN on. Every appended record must fit the block
    cache ([cacheable]: its blocks and two more; with the default configuration,
    payloads up to about 250 KiB), since the iterator pins the blocks of a frame
    all at once; [large_record_never_read] shows that this is needed. *)
Theorem wal_scan_lists c s rounds :
  run_of c s -> wl_flush_running (s_wal s) = true -> i_sealed (wl_inner (s_wal s)) = [] ->
  Forall (cacheable c) (s_returned s) -> (read_cache_blocks c < u32_max)%Z -> length (s_returned s) < rounds ->
  exists flushed pending it, s_returned s = records 0 (flushed ++ pending)
    /\ wal_durable_lsn (s_wal s) = mkLsn (Z.max 0 (Z.of_nat (length flushed) - 1))
    /\ wal_scan rounds (s_wal s) = Ok it
    /\ (forall fuel, length flushed <= fuel -> wal_collect fuel it = Ok (Some (records 0 flushed)))
    /\ forall lsn, is_u64 lsn -> exists it', wal_iter_seek lsn it = Ok it'
         /\ forall fuel, length flushed <= fuel ->
              wal_collect fuel it' = Ok (Some (drop (Z.to_nat lsn) (records 0 flushed))).
Proof.
  intros Hrun Hrn Hsealed Hcache H32 Hrounds.
  destruct (run_of_inv c s Hrun) as (Hcfg & (flushed & queued & act & Hret & Hc & _) & Hn).
  pose proof (ci_log _ _ _ _ Hc) as Hl. rewrite Hrn in Hl. destruct Hl as (sealed & cur & seg & Hi).
  pose proof (fi_sealed _ _ _ _ _ _ _ Hi) as HF. rewrite Hsealed in HF. apply Forall2_nil_inv_l in HF. subst sealed.
  pose proof (fi_recs _ _ _ _ _ _ _ Hi) as Hrecs. simpl in Hrecs. subst cur.
  pose proof (config_block_size c Hcfg) as Hbs. pose proof (fi_config _ _ _ _ _ _ _ Hi) as Hci.
  assert (inner_bs (wl_inner (s_wal s)) = Z.to_nat (wc_block_size c)) as Eb by (unfold inner_bs; by rewrite Hci).
  assert (length flushed <= length (s_returned s)) as Hfl.
  { rewrite Hret, length_records, length_app. lia. }
  destruct (clock_new_ok (Z.to_nat (read_cache_blocks c)) (inner_bs (wl_inner (s_wal s)))) as (dm & Hdm & Hfr); [by rewrite Eb|].
  assert (0 < inner_bs (wl_inner (s_wal s))) as Hbpos by (rewrite Eb; destruct Hbs as (_ & Hge & _); unfold IDX_HEADER_LEN in Hge; lia).
  destruct (scan_active rounds (inner_bs (wl_inner (s_wal s))) seg (wl_flush (s_wal s)) (records 0 flushed) dm (Z.to_nat (read_cache_blocks c)))
    as (it & Hit & Hcol & Hseek).
  { apply Hi. } { apply Hi. } { done. }
  { pose proof (fi_room _ _ _ _ _ _ _ Hi) as Hroom. unfold inner_segment_size in Hroom. rewrite Hci in Hroom.
    destruct Hcfg as (_ & _ & _ & Hseg). unfold u64_max in *. lia. }
  { rewrite Eb. apply records_fit; [done|apply Hi| |lia]. rewrite Hret, records_app in Hcache.
    by apply Forall_app in Hcache as [? _]. }
  { rewrite length_records. lia. } { by eapply clock_new_inv. } { done. } { unfold u32_max in *. lia. }
  exists flushed, (queued ++ act), it. split_and!; [done| | |by rewrite length_records in Hcol|].
  - unfold wal_durable_lsn. by rewrite (ci_durable _ _ _ _ Hc).
  - unfold wal_scan. rewrite (fi_seg _ _ _ _ _ _ _ Hi), Hci, Hsealed. cbn [unwrap rbind]. rewrite Hdm. cbn [rbind]. done.
  - intros lsn Hlsn. destruct (Hseek lsn Hlsn) as (it' & Hs' & Hc'). exists it'. split; [done|].
    rewrite length_records, skip_records, Z.sub_0_r in Hc'. done.
Qed.
End Scan.

(** *** Witnesses *)

#[local] Existing Instance demo_crc.

Definition scanned : list Turn := two_appends ++ [TFlush].

Lemma wal_scan_lists_witness :
  exists flushed pending it, s_returned (demo_after scanned) = records 0 (flushed ++ pending)
    /\ wal_scan 8 (s_wal (demo_after scanned)) = Ok it
    /\ forall fuel, length flushed <= fuel -> wal_collect fuel it = Ok (Some (records 0 flushed)).
Proof.
  destruct (wal_scan_lists demo_config (demo_after scanned) 8) as (flushed & pending & it & Hr & _ & Hs & Hc & _).
  - apply (demo_run scanned); [vm_compute; reflexivity|vm_compute; discriminate].
  - vm_compute. reflexivity.
  - vm_compute. reflexivity.
  - vm_compute. repeat constructor; discriminate.
  - vm_compute. reflexivity.
  - vm_compute. repeat constructor.
  - exists flushed, pending, it. split; [exact Hr|]. split; [exact Hs|exact Hc].
Defined.

(** *** A record the reader cannot hold *)

(** The default configuration has buffers of 16 MiB and a cache of 256 KiB. Here the
    cache has one block and the record two: the append succeeds and the record
    becomes durable, but the iterator, which pins every block of a frame before
    it copies the first, waits for its own pin. *)
Definition narrow_config : WalConfig := mkWalConfig 2048 1024 512 2 1 false.
Definition narrow_run : option (Sys SortedAssoc) :=
  match wal_open (Ok tt) (fun _ _ => Byte.xff) (fun _ => demo_files) narrow_config with
  | Ok w => run_turns (mkSys w CIdle []) [TAppend (replicate 600 Byte.x61); TClient; TSync; TClient; TFlush]
  | _ => None
  end.

Theorem large_record_never_read :
  validate narrow_config = Ok tt
  /\ exists s it, narrow_run = Some s /\ s_returned s = [(0%Z, replicate 600 Byte.x61)] /\ wl_queue (s_wal s) = []
       /\ wal_scan 8 (s_wal s) = Ok it /\ wal_iter_valid it = true /\ wal_iter_value it = Ok None.
Proof.
  split; [vm_compute; reflexivity|].
  destruct narrow_run as [s|] eqn:Hs; [|vm_compute in Hs; discriminate].
  destruct (wal_scan 8 (s_wal s)) as [it|e|] eqn:Hit.
  - exists s, it. split; [reflexivity|]. vm_compute in Hs. injection Hs as <-. vm_compute in Hit. injection Hit as <-.
    vm_compute. done.
  - vm_compute in Hs. injection Hs as <-. vm_compute in Hit. discriminate.
  - vm_compute in Hs. injection Hs as <-. vm_compute in Hit. discriminate.
Qed.
