(* ===== verification/WalSync.v ===== *)
(** A call of [Wal::sync] (wal/impl.rs) and everything it can wait for: the
    writers in the buffer it swaps out, a free buffer, and the loop that polls
    [durable_lsn] until the target, a stop or the deadline.

    [WalLog] lets a waiting sync go on or give up at any time. Here the call is
    run on what it reads: the values of the atomics, of the pool and of the
    clock at every round. Times are in microseconds. *)

From Stdlib Require Import String.
From stdpp Require Import base numbers strings list.
From S2P Require Import Prelude.
From S2P Require Import Errors.
From S2P Require Import WalFrame.

Definition SYNC_POLL_INTERVAL : Z := 200.
Definition SYNC_DEADLINE : Z := 30000000.

(** What one round of the polling loop reads: [durable_lsn], [stop_flag] and the
    clock, and [durable_lsn] again if the loop is left. *)
Record Poll := mkPoll { p_durable : Z; p_stop : bool; p_now : Z; p_again : Z }.

(** What one look at the free pool shows: whether it has a buffer, and
    [stop_flag]. *)
Record PoolLook := mkPoolLook { l_buffer : bool; l_stop : bool }.

(** What a call of [sync] reads, in the order it reads it: [stop_flag], the
    fields of the active buffer, the outcome of the compare-exchange on its
    state, [in_flight] at every spin, the pool at every wake-up, the clock when
    the deadline is set, and the polls. *)
Record SyncObs := mkSyncObs {
  o_stop : bool;
  o_min_lsn : Z;
  o_allocated : Z;
  o_won : bool;
  o_in_flight : nat -> Z;
  o_pool : nat -> PoolLook;
  o_start : Z;
  o_polls : nat -> Poll;
}.

(** The barrier of [try_swap_full]; [None] while it spins. *)
Fixpoint drain_barrier (fuel : nat) (in_flight : nat -> Z) (i : nat) : option unit :=
  match fuel with
  | 0 => None
  | S fuel => if decide (in_flight i = 0%Z) then Some tt else drain_barrier fuel in_flight (S i)
  end.

(** The loop of [pop_free_buffer]: a buffer was found, or the log is being
    closed; [None] while it waits on the condition variable, which has no
    timeout. *)
Fixpoint pool_wait (fuel : nat) (pool : nat -> PoolLook) (i : nat) : option bool :=
  match fuel with
  | 0 => None
  | S fuel =>
      if l_buffer (pool i) then Some true
      else if l_stop (pool i) then Some false
      else pool_wait fuel pool (S i)
  end.

(** The waits of [try_swap_full]: none when another thread swaps. *)
Definition swap_wait (fuel : nat) (o : SyncObs) : option unit :=
  if o_won o then
    _ ← drain_barrier fuel (o_in_flight o) 0;
    _ ← pool_wait fuel (o_pool o) 0;
    Some tt
  else Some tt.

(** The loop from round [i], at most [fuel] rounds; [None] while it waits. *)
Fixpoint sync_wait (fuel : nat) (target deadline : Z) (obs : nat -> Poll) (i : nat) : option (WalResult Lsn) :=
  match fuel with
  | 0 => None
  | S fuel =>
      if decide (p_durable (obs i) < target)%Z then
        if p_stop (obs i) then Some (Err WalClosed)
        else if decide (deadline <= p_now (obs i))%Z
        then Some (Err (WalIo "sync timed out waiting for durable_lsn"))
        else sync_wait fuel target deadline obs (S i)
      else Some (Ok (mkLsn (p_again (obs i))))
  end.

Definition target_lsn (o : SyncObs) : Z :=
  if decide (0 < o_allocated o)%Z then (o_min_lsn o + o_allocated o - 1)%Z else Z.max 0 (o_min_lsn o - 1).

(** [Wal::sync]: every loop of it takes at most [fuel] rounds; [None] while it
    waits in one of them. *)
Definition sync_call (fuel : nat) (o : SyncObs) : option (WalResult Lsn) :=
  if o_stop o then Some (Err WalClosed)
  else
    _ ← swap_wait fuel o;
    sync_wait fuel (target_lsn o) (o_start o + SYNC_DEADLINE) (o_polls o) 0.

(** The clock does not run backwards and [thread::sleep] sleeps at least its
    interval; [durable_lsn] never decreases. *)
Definition paced (start : Z) (obs : nat -> Poll) : Prop :=
  (start <= p_now (obs 0%nat))%Z
  /\ (forall i, (p_now (obs i) + SYNC_POLL_INTERVAL <= p_now (obs (S i)))%Z)
  /\ (forall i, (p_durable (obs i) <= p_again (obs i))%Z).

(** Enough rounds for any polling. *)
Definition sync_rounds : nat := S (Z.to_nat (SYNC_DEADLINE / SYNC_POLL_INTERVAL)).

Lemma paced_now start obs i : paced start obs -> (start + SYNC_POLL_INTERVAL * Z.of_nat i <= p_now (obs i))%Z.
Proof.
  intros (H0 & Hs & _). induction i as [|i IH]; [lia|]. specialize (Hs i). lia.
Qed.

Lemma sync_wait_done target deadline (obs : nat -> Poll) : forall n i : nat,
  (deadline <= p_now (obs (i + n)%nat))%Z -> is_Some (sync_wait (S n) target deadline obs i).
Proof.
  induction n as [|n IH]; intros i Hd; cbn [sync_wait].
  - rewrite Nat.add_0_r in Hd. case_decide; [|by eexists]. destruct (p_stop _); [by eexists|].
    rewrite decide_True by done. by eexists.
  - case_decide; [|by eexists]. destruct (p_stop _); [by eexists|]. case_decide; [by eexists|].
    apply (IH (S i)). by rewrite Nat.add_succ_comm.
Qed.

Lemma sync_wait_more target deadline (obs : nat -> Poll) r : forall fuel fuel' i : nat,
  sync_wait fuel target deadline obs i = Some r -> fuel <= fuel' -> sync_wait fuel' target deadline obs i = Some r.
Proof.
  induction fuel as [|fuel IH]; intros [|fuel'] i Hr Hf; try done; [lia|]. cbn [sync_wait] in *.
  case_decide; [|done]. destruct (p_stop _); [done|]. case_decide; [done|]. apply IH; [done|lia].
Qed.

Lemma sync_wait_result target deadline (obs : nat -> Poll) : forall fuel i r,
  sync_wait fuel target deadline obs i = Some r ->
  exists j, i <= j < i + fuel /\ match r with
    | Ok l => l = mkLsn (p_again (obs j)) /\ (target <= p_durable (obs j))%Z
    | Err e => (p_durable (obs j) < target)%Z
        /\ ((e = WalClosed /\ p_stop (obs j) = true)
            \/ (e = WalIo "sync timed out waiting for durable_lsn" /\ (deadline <= p_now (obs j))%Z))
    | Panic => False
    end.
Proof.
  induction fuel as [|fuel IH]; intros i r Hr; simpl in Hr; [done|]. case_decide as Hlt.
  - destruct (p_stop (obs i)) eqn:Hst; [injection Hr as <-; exists i; split; [lia|]; auto|].
    case_decide as Hd; [injection Hr as <-; exists i; split; [lia|]; auto|].
    apply IH in Hr as (j & Hj & Hr). exists j. split; [lia|done].
  - injection Hr as <-. exists i. split; [lia|]. split; [done|lia].
Qed.

Lemma drain_barrier_done (in_flight : nat -> Z) : forall n i fuel : nat,
  in_flight (i + n) = 0%Z -> n < fuel -> drain_barrier fuel in_flight i = Some tt.
Proof.
  induction n as [|n IH]; intros i [|fuel] Hz Hf; try lia; simpl.
  - rewrite Nat.add_0_r in Hz. by rewrite decide_True.
  - case_decide; [done|]. apply IH; [by rewrite Nat.add_succ_comm|lia].
Qed.

Lemma pool_wait_done (pool : nat -> PoolLook) : forall n i fuel : nat,
  l_buffer (pool (i + n)) || l_stop (pool (i + n)) = true -> n < fuel -> is_Some (pool_wait fuel pool i).
Proof.
  induction n as [|n IH]; intros i [|fuel] Hz Hf; try lia; simpl.
  - rewrite Nat.add_0_r in Hz. destruct (l_buffer (pool i)); [by eexists|]. simpl in Hz. rewrite Hz. by eexists.
  - destruct (l_buffer (pool i)); [by eexists|]. destruct (l_stop (pool i)); [by eexists|].
    apply IH; [by rewrite Nat.add_succ_comm|lia].
Qed.

(** The swap comes to an end within [n] looks at each of the things it waits
    for: the writers leave the buffer, and a buffer is freed or the log closed. *)
Definition swap_ends (n : nat) (o : SyncObs) : Prop :=
  o_won o = true ->
  (exists i, i < n /\ o_in_flight o i = 0%Z) /\ (exists i, i < n /\ l_buffer (o_pool o i) || l_stop (o_pool o i) = true).

Lemma swap_wait_done n o fuel : swap_ends n o -> n <= fuel -> swap_wait fuel o = Some tt.
Proof.
  intros Hs Hf. unfold swap_wait. destruct (o_won o) eqn:Hw; [|done].
  destruct (Hs Hw) as [(i & Hi & Hz) (j & Hj & Hb)].
  rewrite (drain_barrier_done (o_in_flight o) i 0) by (done || lia). cbn.
  destruct (pool_wait_done (o_pool o) j 0 fuel Hb) as [b ->]; [lia|]. done.
Qed.

(** What the answer of a sync says about its reads. *)
Definition sync_answer (o : SyncObs) (r : WalResult Lsn) : Prop :=
  match r with
  | Ok l => o_stop o = false /\ (target_lsn o <= lsn_get l)%Z
  | Err e =>
      (e = WalClosed /\ o_stop o = true)
      \/ o_stop o = false /\ exists j, j < sync_rounds /\ (p_durable (o_polls o j) < target_lsn o)%Z
           /\ ((e = WalClosed /\ p_stop (o_polls o j) = true)
               \/ (e = WalIo "sync timed out waiting for durable_lsn"
                   /\ (o_start o + SYNC_DEADLINE <= p_now (o_polls o j))%Z))
  | Panic => False
  end.


(** The wait for a free buffer has no deadline: while the pool stays empty and
    nobody closes the log (the flush thread died, say), a sync that swaps never
    returns, however long it is polled. *)
Theorem sync_waits_for_a_buffer o :
  o_stop o = false -> o_won o = true -> (forall i, o_pool o i = mkPoolLook false false) ->
  forall fuel, sync_call fuel o = None.
Proof.
  intros Hst Hw Hpool fuel. unfold sync_call, swap_wait. rewrite Hst, Hw.
  assert (forall f i, pool_wait f (o_pool o) i = None) as Hnone.
  { induction f as [|f IH]; intros i; [done|]. simpl. by rewrite Hpool, IH. }
  destruct (drain_barrier _ _ _); cbn; [|done]. by rewrite Hnone.
Qed.

(** *** Witnesses *)

(** A writer leaves the buffer after two spins, a buffer is freed at the third
    look, and the flush thread makes one more record durable in every round. *)
Definition steady (i : nat) : Poll := mkPoll (Z.of_nat i) false (1000 + 250 * Z.of_nat i) (Z.of_nat i + 1).
Definition steady_call : SyncObs :=
  mkSyncObs false 3 5 true (fun i => if decide (i < 2) then 1%Z else 0%Z)
    (fun i => mkPoolLook (bool_decide (2 <= i)) false) 1000 steady.


(** The same call with a dead flush thread and an empty pool. *)
Lemma sync_waits_for_a_buffer_witness : forall fuel,
  sync_call fuel (mkSyncObs false 3 5 true (fun _ => 0%Z) (fun _ => mkPoolLook false false) 1000 steady) = None.
Proof. apply sync_waits_for_a_buffer; reflexivity. Defined.
