(* ===== verification/RustText.v ===== *)
(** Numbers as text, as the Rust standard library reads and writes them: what
    server/src/query.rs and server/src/pgwire.rs rely on when they turn cells
    into JSON values and PostgreSQL text.

    [str::parse] for [bool], [i64], [u64] and floats, and [to_string] for
    integers and floats. Floats are the binary interchange formats of
    [SpecFloat] at the precision and exponent range of [f32] and [f64]. *)

From Stdlib Require Import SpecFloat Ascii String.
From stdpp Require Import base numbers list strings pretty.
From S2P Require Import Prelude.

(** ** Integers *)

Definition i64_min : Z := - 2 ^ 63.
Definition i64_max : Z := 2 ^ 63 - 1.

Definition digit_of (c : ascii) : option Z :=
  let n := Z.of_N (Ascii.N_of_ascii c) in
  if decide (48 <= n <= 57)%Z then Some (n - 48)%Z else None.

(** [checked_mul] and [checked_add] at a type with the given bounds. *)
Definition checked (lo hi z : Z) : option Z :=
  if decide (lo <= z <= hi)%Z then Some z else None.

(** The loop of [from_str_radix]: every step is checked; a negative number is
    accumulated downwards, so that the minimum of the type can be read. *)
Fixpoint parse_digits (lo hi sg : Z) (s : string) (acc : Z) : option Z :=
  match s with
  | EmptyString => Some acc
  | String c s' =>
      d ← digit_of c;
      t ← checked lo hi (acc * 10);
      acc' ← checked lo hi (t + sg * d);
      parse_digits lo hi sg s' acc'
  end.

(** [from_str_radix(src, 10)]: no digits is an error, a leading plus is
    allowed, a leading minus only at a signed type. *)
Definition parse_int (signed : bool) (lo hi : Z) (s : string) : option Z :=
  match s with
  | EmptyString => None
  | String "+" EmptyString | String "-" EmptyString => None
  | String "+" s' => parse_digits lo hi 1 s' 0
  | String "-" s' =>
      if signed then parse_digits lo hi (-1) s' 0 else parse_digits lo hi 1 s 0
  | _ => parse_digits lo hi 1 s 0
  end.

Definition parse_i64 : string -> option Z := parse_int true i64_min i64_max.
Definition parse_u64 : string -> option Z := parse_int false 0 u64_max.

(** [str::parse::<bool>]. *)
Definition parse_bool (s : string) : option bool :=
  if decide (s = "true") then Some true
  else if decide (s = "false") then Some false
  else None.

(** ** Floats *)

Section Floats.
Context (prec emax : Z).

(** The float nearest to [m * 10^e], ties to even. *)
Definition round_decimal (neg : bool) (m e : Z) : spec_float :=
  match m, e with
  | Zpos p, Zneg k =>
      let '(q, e', l) := SFdiv_core_binary prec emax (Zpos p) 0 (10 ^ Zpos k) 0 in
      binary_round_aux prec emax neg q e' l
  | Zpos p, _ =>
      match (Zpos p * 10 ^ e)%Z with
      | Zpos m' => binary_round prec emax neg m' 0
      | _ => S754_zero neg
      end
  | _, _ => S754_zero neg
  end.

(** A run of digits: its value after [acc], its length, and the rest. *)
Fixpoint digit_run (s : string) (acc : Z) (n : nat) : Z * nat * string :=
  match s with
  | String c s' =>
      match digit_of c with
      | Some d => digit_run s' (acc * 10 + d) (S n)
      | None => (acc, n, s)
      end
  | EmptyString => (acc, n, s)
  end.

(** The digits of an exponent; the accumulator saturates. *)
Fixpoint exponent_run (s : string) (acc : Z) : Z * string :=
  match s with
  | String c s' =>
      match digit_of c with
      | Some d => exponent_run s' (if decide (acc < 65536)%Z then acc * 10 + d else acc)%Z
      | None => (acc, s)
      end
  | EmptyString => (acc, s)
  end.

Definition starts_digit (s : string) : bool :=
  match s with String c _ => bool_decide (is_Some (digit_of c)) | EmptyString => false end.

(** [parse_scientific]: a sign and at least one digit. *)
Definition parse_scientific (s : string) : option (Z * string) :=
  let '(neg, s') :=
    match s with
    | String "-" r => (true, r)
    | String "+" r => (false, r)
    | _ => (false, s)
    end in
  if starts_digit s' then
    let '(e, r) := exponent_run s' 0 in
    Some ((if neg then - e else e)%Z, r)
  else None.

(** [parse_number]: digits, a fraction, an exponent, and nothing after it;
    one digit at least on either side of the point. *)
Definition parse_number (s : string) : option (Z * Z) :=
  let '(m, n1, s1) := digit_run s 0 0 in
  let '(m, n2, s2) :=
    match s1 with
    | String "." r => digit_run r m 0
    | _ => (m, O, s1)
    end in
  if decide (n1 + n2 = 0)%nat then None else
  match s2 with
  | String "e" r | String "E" r =>
      '(e, rest) ← parse_scientific r;
      if decide (rest = "") then Some (m, e - Z.of_nat n2)%Z else None
  | EmptyString => Some (m, - Z.of_nat n2)%Z
  | _ => None
  end.

Definition ascii_lower (c : ascii) : ascii :=
  let n := Ascii.N_of_ascii c in
  if decide (65 <= n <= 90)%N then Ascii.ascii_of_N (n + 32) else c.

Fixpoint lower (s : string) : string :=
  match s with
  | EmptyString => EmptyString
  | String c s' => String (ascii_lower c) (lower s')
  end.

(** [parse_inf_nan], in any case. *)
Definition parse_inf_nan (neg : bool) (s : string) : option spec_float :=
  if decide (lower s = "nan") then Some S754_nan
  else if decide (lower s = "inf" \/ lower s = "infinity") then Some (S754_infinity neg)
  else None.

Definition parse_float (s : string) : option spec_float :=
  let '(neg, s') :=
    match s with
    | String "-" r => (true, r)
    | String "+" r => (false, r)
    | _ => (false, s)
    end in
  match parse_number s' with
  | Some (m, e) => Some (round_decimal neg m e)
  | None => parse_inf_nan neg s'
  end.

(** *** Printing

    [Display] prints the shortest decimal that reads back as the same float,
    the nearest to it if there are several, without an exponent. [num / den]
    is the absolute value. *)

(** The [p] with [10^(p-1) <= num/den < 10^p]. *)
Fixpoint decimal_point (fuel : nat) (num den : Z) (p : Z) : Z :=
  match fuel with
  | O => p
  | S f =>
      if decide (den <= num)%Z then decimal_point f num (den * 10) (p + 1)
      else if decide (num * 10 < den)%Z then decimal_point f (num * 10) den (p - 1)
      else p
  end.

(** The decimal with [n] digits on either side of the value that reads back. *)
Definition shortest_at (x : spec_float) (num den p : Z) (n : nat) : option (Z * Z) :=
  let s := (p - Z.of_nat n)%Z in
  let '(a, b) := if decide (s < 0)%Z then (num * 10 ^ (- s), den)%Z
                 else (num, den * 10 ^ s)%Z in
  let d := (a / b)%Z in
  let down := SFeqb (round_decimal false d s) x in
  let up := SFeqb (round_decimal false (d + 1) s) x in
  if up && (negb down || bool_decide (b <= 2 * (a mod b))%Z)
  then Some (if decide (d + 1 = 10 ^ Z.of_nat n)%Z then (1, s + Z.of_nat n) else (d + 1, s))%Z
  else if down then Some (d, s) else None.

Fixpoint shortest_from (fuel : nat) (x : spec_float) (num den p : Z) (n : nat) : Z * Z :=
  match fuel with
  | O => (0, 0)%Z
  | S f =>
      match shortest_at x num den p n with
      | Some r => r
      | None => shortest_from f x num den p (S n)
      end
  end.

Fixpoint zeros (n : nat) : string :=
  match n with O => "" | S n' => String "0" (zeros n') end.

(** [d * 10^s] without an exponent. *)
Definition decimal_text (d s : Z) : string :=
  let t := pretty d in
  if decide (0 <= s)%Z then t +:+ zeros (Z.to_nat s)
  else
    let k := Z.to_nat (- s) in
    let n := String.length t in
    if decide (n <= k) then "0." +:+ zeros (k - n) +:+ t
    else substring 0 (n - k) t +:+ "." +:+ substring (n - k) k t.

(** [to_string] of a float. 1100 places cover the decimal points of [f64]
    values, and every [f64] has at most 767 significant decimal digits. *)
Definition float_to_string (x : spec_float) : string :=
  let sign (s : bool) := if s then "-" else "" in
  match x with
  | S754_nan => "NaN"
  | S754_infinity s => sign s +:+ "inf"
  | S754_zero s => sign s +:+ "0"
  | S754_finite s m e =>
      let '(num, den) := if decide (0 <= e)%Z then (Zpos m * 2 ^ e, 1)%Z
                         else (Zpos m, 2 ^ (- e))%Z in
      let p := decimal_point 1100 num den 0 in
      let '(d, k) := shortest_from 800 (S754_finite false m e) num den p 1 in
      sign s +:+ decimal_text d k
  end.
End Floats.

Definition parse_f64 : string -> option spec_float := parse_float 53 1024.
Definition f64_to_string : spec_float -> string := float_to_string 53 1024.
Definition f32_to_string : spec_float -> string := float_to_string 24 128.

Definition is_finite (x : spec_float) : bool :=
  match x with S754_zero _ | S754_finite _ _ _ => true | _ => false end.

(** ** Reading back what was printed *)

Lemma digit_of_pretty (d : N) :
  (d < 10)%N -> digit_of (pretty_N_char d) = Some (Z.of_N d).
Proof.
  intros Hd. assert (d = 0 \/ d = 1 \/ d = 2 \/ d = 3 \/ d = 4 \/ d = 5 \/ d = 6 \/ d = 7
    \/ d = 8 \/ d = 9)%N as Hc by lia.
  by repeat destruct Hc as [->|Hc]; [..|subst].
Qed.

Lemma parse_digits_step lo hi sg c s acc (d : Z) :
  digit_of c = Some d -> (lo <= acc * 10 <= hi)%Z -> (lo <= acc * 10 + sg * d <= hi)%Z ->
  parse_digits lo hi sg (String c s) acc = parse_digits lo hi sg s (acc * 10 + sg * d).
Proof.
  intros Hc H1 H2. simpl. rewrite Hc. simpl.
  unfold checked. by rewrite decide_True by done; simpl; rewrite decide_True by done.
Qed.

(** The digits of [x] in front of [s] leave the accumulator at [x], counted in
    the direction [sg], as long as that is in range. *)
Lemma parse_digits_pretty lo hi sg (x : N) s :
  (lo <= 0 <= hi)%Z -> (sg = 1 \/ sg = -1)%Z -> (lo <= sg * Z.of_N x <= hi)%Z ->
  parse_digits lo hi sg (pretty_N_go x s) 0 = parse_digits lo hi sg s (sg * Z.of_N x).
Proof.
  intros H0 Hsg. revert s. induction (N.lt_wf_0 x) as [x _ IH]; intros s Hx.
  destruct (decide (x = 0)%N) as [->|Hn].
  { rewrite pretty_N_go_0. f_equal. lia. }
  rewrite pretty_N_go_step by lia.
  pose proof (N.div_mod x 10 ltac:(lia)) as Hdm.
  pose proof (N.mod_lt x 10 ltac:(lia)) as Hm.
  assert (x `div` 10 < x)%N by (apply N.div_lt; lia).
  set (q := (x `div` 10)%N) in *. set (r := (x `mod` 10)%N) in *. clearbody q r.
  rewrite IH by (done || (destruct Hsg as [-> | ->]; lia)).
  rewrite (parse_digits_step _ _ _ _ _ _ _ (digit_of_pretty _ Hm))
    by (destruct Hsg as [-> | ->]; lia).
  f_equal. destruct Hsg as [-> | ->]; lia.
Qed.

(** A printed number starts with a digit. *)
Lemma pretty_N_go_head (x : N) s :
  (0 < x)%N -> exists d s', (d < 10)%N /\ pretty_N_go x s = String (pretty_N_char d) s'.
Proof.
  revert s. induction (N.lt_wf_0 x) as [x _ IH]; intros s Hx.
  rewrite pretty_N_go_step by lia.
  destruct (decide (x `div` 10 = 0)%N) as [->|Hn].
  - rewrite pretty_N_go_0. eexists _, _. split; [|done]. apply N.mod_lt. lia.
  - apply IH; [apply N.div_lt; lia|by apply N.neq_0_lt_0].
Qed.

Lemma parse_int_digit signed lo hi c s (d : Z) :
  digit_of c = Some d ->
  parse_int signed lo hi (String c s) = parse_digits lo hi 1 (String c s) 0.
Proof. destruct c as [[] [] [] [] [] [] [] []]; try done; by destruct s. Qed.

Lemma parse_int_pos signed lo hi (p : positive) :
  (lo <= 0)%Z -> (Zpos p <= hi)%Z -> parse_int signed lo hi (pretty (Zpos p)) = Some (Zpos p).
Proof.
  intros Hlo Hhi. change (pretty (Zpos p)) with (pretty_N_go (N.pos p) "").
  destruct (pretty_N_go_head (N.pos p) "" ltac:(lia)) as (d & s' & Hd & Heq).
  rewrite Heq, (parse_int_digit _ _ _ _ _ _ (digit_of_pretty d Hd)), <- Heq.
  rewrite parse_digits_pretty; [simpl; f_equal; lia|lia|lia|simpl Z.of_N; lia].
Qed.

Lemma parse_int_neg lo hi (p : positive) :
  (0 <= hi)%Z -> (lo <= Zneg p)%Z -> parse_int true lo hi (pretty (Zneg p)) = Some (Zneg p).
Proof.
  intros Hhi Hlo. change (pretty (Zneg p)) with (String "-" (pretty_N_go (N.pos p) "")).
  destruct (pretty_N_go_head (N.pos p) "" ltac:(lia)) as (d & s' & Hd & Heq).
  transitivity (parse_digits lo hi (-1) (pretty_N_go (N.pos p) "") 0); [by rewrite Heq|].
  rewrite parse_digits_pretty; [simpl; f_equal; lia|lia|lia|simpl Z.of_N; lia].
Qed.

Lemma parse_i64_pretty z : (i64_min <= z <= i64_max)%Z -> parse_i64 (pretty z) = Some z.
Proof.
  intros Hz. unfold parse_i64. destruct z as [|p|p]; [done| |].
  - apply parse_int_pos; [done|lia].
  - apply parse_int_neg; [done|lia].
Qed.

Lemma parse_u64_pretty z : is_u64 z -> parse_u64 (pretty z) = Some z.
Proof.
  intros [H1 H2]. unfold parse_u64. destruct z as [|p|p]; [done| |lia].
  apply parse_int_pos; lia.
Qed.

(** What is read is in the range of the type. *)
Lemma parse_digits_range lo hi sg s acc z :
  (lo <= acc <= hi)%Z -> parse_digits lo hi sg s acc = Some z -> (lo <= z <= hi)%Z.
Proof.
  revert acc. induction s as [|c s IH]; intros acc Hacc; simpl; [by intros [= <-]|].
  unfold checked. intros H. repeat case_match; simplify_option_eq; eauto.
Qed.

Lemma parse_int_range signed lo hi s z :
  (lo <= 0 <= hi)%Z -> parse_int signed lo hi s = Some z -> (lo <= z <= hi)%Z.
Proof.
  intros H0 H. unfold parse_int in H.
  repeat case_match; simplify_eq; eauto using parse_digits_range.
Qed.

(** The text of a number is not the text of a Boolean. *)
Lemma parse_bool_pretty (z : Z) : parse_bool (pretty z) = None.
Proof.
  assert (forall c s, pretty z = String c s -> c <> "t"%char /\ c <> "f"%char) as Hc.
  { intros c s. destruct z as [|p|p].
    - by intros [= <- <-].
    - change (pretty (Zpos p)) with (pretty_N_go (N.pos p) "").
      destruct (pretty_N_go_head (N.pos p) "" ltac:(lia)) as (d & s' & Hd & ->).
      intros [= <- _]. pose proof (digit_of_pretty d Hd) as H.
      split; intros Heq; by rewrite Heq in H.
    - by intros [= <- _]. }
  unfold parse_bool. rewrite !decide_False; [done| |]; intros Heq;
    destruct (Hc _ _ Heq); congruence.
Qed.

(** A number too large for a signed type is refused by it, not truncated. *)
Lemma parse_i64_too_big z : (i64_max < z)%Z -> parse_i64 (pretty z) = None.
Proof.
  intros Hz. destruct (parse_i64 (pretty z)) as [z'|] eqn:E; [|done].
  exfalso. pose proof (parse_int_range _ _ _ _ _ (conj (ltac:(done) : (i64_min <= 0)%Z) (ltac:(done) : (0 <= i64_max)%Z)) E) as Hr.
  destruct z as [|p|p]; [done| |done].
  assert (parse_int true i64_min (Zpos p) (pretty (Zpos p)) = Some (Zpos p)) as H1
    by (apply parse_int_pos; [done|lia]).
  revert E H1. unfold parse_i64.
  change (pretty (Zpos p)) with (pretty_N_go (N.pos p) "").
  destruct (pretty_N_go_head (N.pos p) "" ltac:(lia)) as (d & s' & Hd & ->).
  rewrite !(parse_int_digit _ _ _ _ _ _ (digit_of_pretty d Hd)).
  generalize (String (pretty_N_char d) s') 0%Z. intros s.
  induction s as [|c s IH]; intros acc; simpl; [intros [= ->] [= ->]; lia|].
  unfold checked. intros E H1.
  repeat case_match; simplify_option_eq; eauto.
Qed.

(** Floats read and print as in Rust, on values that exercise the rounding. *)
Example float_texts :
  (from_option f64_to_string "none" <$> (parse_f64 <$>
    ["1e3"; "0.1"; ".5"; "5."; "."; "1e23"; "0.30000000000000004"; "-0"; "inf"; "1e400";
     "9007199254740993"; "1e"]))
  = ["1000"; "0.1"; "0.5"; "5"; "none"; "100000000000000000000000"; "0.30000000000000004";
     "-0"; "inf"; "inf"; "9007199254740992"; "none"].
Proof. vm_compute. reflexivity. Qed.
