(* ===== verification/WalPath.v ===== *)
(** The files of a segment (wal/index.rs, wal/segment.rs): their paths, the
    order of a directory listing, and record handles (wal/record.rs). *)

From Stdlib Require Import Ascii String.
From stdpp Require Import base numbers list strings pretty.
From S2P Require Import Prelude.
From S2P Require Import Errors.
From S2P Require Import WalFile.
From S2P Require Import RustText.

(** [Path::join] with a relative name. *)
Fixpoint ends_with_slash (s : string) : bool :=
  match s with
  | EmptyString => false
  | String c EmptyString => bool_decide (c = "/"%char)
  | String _ s' => ends_with_slash s'
  end.
Definition path_join (dir name : string) : string :=
  if bool_decide (dir = "") then name
  else if ends_with_slash dir then dir +:+ name else dir +:+ "/" +:+ name.

(** [{n:05}]. *)
Definition padded (w : nat) (n : N) : string := let t := pretty n in zeros (w - String.length t) +:+ t.

Definition segment_name (seg_id : Z) (ext : string) : string := "seg_" +:+ padded 5 (Z.to_N seg_id) +:+ ext.

Definition log_path (dir : string) (seg_id : Z) : string := path_join dir (segment_name seg_id ".log").
Definition meta_path (dir : string) (seg_id : Z) : string := path_join dir (segment_name seg_id ".meta").
Definition idx_path (dir : string) (seg_id : Z) : string := path_join dir (segment_name seg_id ".idx").

(** [RecordRef]: a range of a block; slicing past the block panics. *)
Record RecordRef := mkRecordRef { rr_lsn : Z; rr_block : bytes; rr_payload : nat * nat }.
Definition record_ref_payload (self : RecordRef) : WalResult bytes :=
  let '(from, to) := rr_payload self in
  if decide (from <= to /\ to <= length (rr_block self)) then Ok (read_at (rr_block self) from (to - from)) else Panic.

(** ** Padded numbers *)

(** The [w] lowest decimal digits of [n], in front of [s]. *)
Fixpoint fixed (w : nat) (n : N) (s : string) : string :=
  match w with
  | 0 => s
  | S w => fixed w (n `div` 10) (String (pretty_N_char (n `mod` 10)) s)
  end.

Lemma zeros_snoc k s : zeros k +:+ String "0" s = zeros (S k) +:+ s.
Proof.
  induction k as [|k IH]; [done|]. change (String "0" (zeros k +:+ String "0" s) = String "0" (zeros (S k) +:+ s)).
  by rewrite IH.
Qed.

Lemma fixed_pretty w : forall n s, (n < 10 ^ N.of_nat w)%N ->
  fixed w n s = zeros (w + String.length s - String.length (pretty_N_go n s)) +:+ pretty_N_go n s.
Proof.
  induction w as [|w IH]; intros n s Hn.
  - assert (n = 0%N) as -> by (cbn in Hn; lia). rewrite pretty_N_go_0. cbn. by rewrite Nat.sub_diag.
  - cbn [fixed]. assert (n `div` 10 < 10 ^ N.of_nat w)%N as Hd.
    { apply N.Div0.div_lt_upper_bound. rewrite Nat2N.inj_succ, N.pow_succ_r' in Hn. lia. }
    rewrite (IH _ _ Hd). destruct (decide (n = 0%N)) as [->|Hz].
    + rewrite !pretty_N_go_0. change (pretty_N_char (0 `mod` 10)) with "0"%char. cbn [String.length].
      replace (w + S (String.length s) - S (String.length s)) with w by lia.
      rewrite zeros_snoc. f_equal. f_equal. lia.
    + rewrite (pretty_N_go_step n) by lia. cbn [String.length]. f_equal. f_equal. lia.
Qed.

Lemma padded_fixed w n : (n < 10 ^ N.of_nat w)%N -> 0 < w -> padded w n = fixed w n "".
Proof.
  intros Hn Hw. rewrite fixed_pretty by done. unfold padded, pretty, pretty_N. case_decide as Hz; [|by rewrite Nat.add_0_r].
  subst. rewrite pretty_N_go_0. destruct w as [|w]; [lia|]. cbn. rewrite !Nat.sub_0_r, Nat.add_0_r.
  change "0" with (String "0" "") at 1. by rewrite zeros_snoc.
Qed.

Lemma char_compare (a b : N) :
  (a < 10)%N -> (b < 10)%N -> Ascii.compare (pretty_N_char a) (pretty_N_char b) = (a ?= b)%N.
Proof.
  intros Ha Hb.
  assert (a = 0 \/ a = 1 \/ a = 2 \/ a = 3 \/ a = 4 \/ a = 5 \/ a = 6 \/ a = 7 \/ a = 8 \/ a = 9)%N as Hca by lia.
  assert (b = 0 \/ b = 1 \/ b = 2 \/ b = 3 \/ b = 4 \/ b = 5 \/ b = 6 \/ b = 7 \/ b = 8 \/ b = 9)%N as Hcb by lia.
  by repeat destruct Hca as [->|Hca]; subst; repeat destruct Hcb as [->|Hcb]; subst.
Qed.

(** Numbers of one width are listed in numeric order. *)
Lemma fixed_compare w : forall a b s s', (a < 10 ^ N.of_nat w)%N -> (b < 10 ^ N.of_nat w)%N ->
  String.compare (fixed w a s) (fixed w b s') = match (a ?= b)%N with Eq => String.compare s s' | c => c end.
Proof.
  induction w as [|w IH]; intros a b s s' Ha Hb.
  - assert (a = 0 /\ b = 0)%N as [-> ->] by (cbn in *; lia). done.
  - cbn [fixed]. rewrite Nat2N.inj_succ, N.pow_succ_r' in Ha, Hb.
    rewrite IH by (apply N.Div0.div_lt_upper_bound; lia).
    pose proof (N.div_mod a 10 ltac:(lia)) as Hda. pose proof (N.div_mod b 10 ltac:(lia)) as Hdb.
    pose proof (N.mod_lt a 10 ltac:(lia)) as Hma. pose proof (N.mod_lt b 10 ltac:(lia)) as Hmb.
    cbn [String.compare]. rewrite char_compare by done.
    set (qa := (a `div` 10)%N) in *. set (qb := (b `div` 10)%N) in *.
    set (ra := (a `mod` 10)%N) in *. set (rb := (b `mod` 10)%N) in *. clearbody qa qb ra rb. subst a b.
    destruct (N.compare_spec qa qb), (N.compare_spec ra rb), (N.compare_spec (10 * qa + ra) (10 * qb + rb)); done || lia.
Qed.

Lemma ascii_compare_refl c : Ascii.compare c c = Eq.
Proof. unfold Ascii.compare. apply N.compare_refl. Qed.

(** A common prefix does not matter. *)
Lemma compare_app_l p s s' : String.compare (p +:+ s) (p +:+ s') = String.compare s s'.
Proof.
  induction p as [|c p IH]; [done|].
  change (match Ascii.compare c c with Eq => String.compare (p +:+ s) (p +:+ s') | cmp => cmp end = String.compare s s').
  by rewrite ascii_compare_refl.
Qed.

(** Nor what follows a difference of names of one length. *)
Lemma compare_app_r : forall a b s, String.length a = String.length b ->
  String.compare a b = Lt -> String.compare (a +:+ s) (b +:+ s) = Lt.
Proof.
  induction a as [|c a IH]; intros [|d b] s Hl Hc; try done. injection Hl as Hl.
  change (match Ascii.compare c d with Eq => String.compare (a +:+ s) (b +:+ s) | cmp => cmp end = Lt).
  change (match Ascii.compare c d with Eq => String.compare a b | cmp => cmp end = Lt) in Hc.
  destruct (Ascii.compare c d); [by apply IH|done|done].
Qed.

Lemma fixed_length w : forall n s, String.length (fixed w n s) = w + String.length s.
Proof. induction w as [|w IH]; intros n s; [done|]. cbn. rewrite IH. cbn. lia. Qed.

(** Below 100000 segments a directory listing is in the order of the ids. *)
Theorem listing_in_order a b ext :
  (0 <= a < b)%Z -> (b < 100000)%Z ->
  String.compare (segment_name a ext) (segment_name b ext) = Lt.
Proof.
  intros Hab Hb. unfold segment_name. rewrite compare_app_l, !padded_fixed by (cbn; lia).
  apply compare_app_r; [by rewrite !fixed_length|]. rewrite fixed_compare by (cbn; lia).
  by rewrite (proj2 (N.compare_lt_iff _ _)) by lia.
Qed.

(** The comment on the path helpers promises the order for every id; a [u32]
    with more than five digits breaks it. *)
Theorem listing_out_of_order :
  String.compare (segment_name 100000 ".log") (segment_name 99999 ".log") = Lt.
Proof. vm_compute. reflexivity. Qed.

(** ** Distinct files *)

Lemma parse_zeros lo hi k s : (lo <= 0 <= hi)%Z -> parse_digits lo hi 1 (zeros k +:+ s) 0 = parse_digits lo hi 1 s 0.
Proof.
  intros Hr. induction k as [|k IH]; [done|].
  change (zeros (S k) +:+ s) with (String "0" (zeros k +:+ s)).
  rewrite (parse_digits_step _ _ _ "0" _ 0 0) by (done || lia). exact IH.
Qed.

Lemma parse_padded w n : (Z.of_N n <= u32_max)%Z -> parse_digits 0 u32_max 1 (padded w n) 0 = Some (Z.of_N n).
Proof.
  intros Hn. unfold padded. rewrite parse_zeros by done. unfold pretty, pretty_N. case_decide as Hz; [by subst|].
  rewrite parse_digits_pretty; [cbn; f_equal; lia|done|by left|lia].
Qed.

Lemma app_length a b : String.length (a +:+ b) = String.length a + String.length b.
Proof.
  induction a as [|c a IH]; [done|]. change (S (String.length (a +:+ b)) = S (String.length a + String.length b)).
  by rewrite IH.
Qed.

Lemma app_inj_r : forall a b s, a +:+ s = b +:+ s -> a = b.
Proof.
  intros a b s He. assert (String.length a = String.length b) as Hl.
  { apply (f_equal String.length) in He. rewrite !app_length in He. lia. }
  revert b He Hl. induction a as [|c a IH]; intros [|d b] He Hl; try done.
  injection He as -> He. injection Hl as Hl. f_equal. by apply IH.
Qed.

Lemma path_join_inj dir a b : path_join dir a = path_join dir b -> a = b.
Proof.
  unfold path_join. case_bool_decide; [done|]. destruct (ends_with_slash dir); intros He; [by apply (inj _) in He|].
  apply (inj _) in He. by apply (inj _) in He.
Qed.

Fixpoint last_char (s : string) : option ascii :=
  match s with EmptyString => None | String c EmptyString => Some c | String _ s' => last_char s' end.

Lemma app_nonempty a b : b <> "" -> a +:+ b <> "".
Proof. by destruct a. Qed.

Lemma last_char_app a b : b <> "" -> last_char (a +:+ b) = last_char b.
Proof.
  intros Hb. induction a as [|d a IH]; [done|]. rewrite <- IH. change (String d a +:+ b) with (String d (a +:+ b)).
  pose proof (app_nonempty a b Hb). by destruct (a +:+ b).
Qed.

(** No two segments share a file, and a segment's three files differ: a path
    determines the id and the kind. *)
Theorem segment_paths_distinct dir a b :
  (0 <= a <= u32_max)%Z -> (0 <= b <= u32_max)%Z ->
  (log_path dir a = log_path dir b -> a = b) /\ (meta_path dir a = meta_path dir b -> a = b)
  /\ (idx_path dir a = idx_path dir b -> a = b)
  /\ log_path dir a <> meta_path dir b /\ log_path dir a <> idx_path dir b /\ meta_path dir a <> idx_path dir b.
Proof.
  intros Ha Hb.
  assert (forall ext, segment_name a ext = segment_name b ext -> a = b) as Hn.
  { intros ext He. unfold segment_name in He. apply (inj (String.append _)) in He. apply app_inj_r in He.
    apply (f_equal (fun s => parse_digits 0 u32_max 1 s 0)) in He. rewrite !parse_padded in He by lia. simplify_eq. lia. }
  assert (forall x y e f, last_char e <> last_char f -> e <> "" -> f <> "" -> segment_name x e <> segment_name y f) as Hk.
  { intros x y e f Hl He Hf Heq. apply Hl. apply (f_equal last_char) in Heq. unfold segment_name in Heq.
    by rewrite !last_char_app in Heq by auto using app_nonempty. }
  split_and!; try (intros ?%path_join_inj; by eapply Hn); intros He%path_join_inj; by apply Hk in He.
Qed.
