(* ===== verification/WalFd.v ===== *)
(** The descriptors of the log's files (wal/segment.rs, wal/odirect_writer.rs).

    [Segment] and [SegmentIndexBlockWriter] own raw descriptors: integers that
    the code must close itself. Here the operating system keeps the table of
    open descriptors and the lengths of the files, every call may fail as a
    script says, and opening fails when the process holds as many descriptors
    as it may. The contents of the files are the business of [WalFile] and
    [WalFlush]; paths are strings, so they are always UTF-8. *)

From Stdlib Require Import Ascii String.
From stdpp Require Import base numbers list strings pretty gmap fin_maps.
From S2P Require Import Prelude.
From S2P Require Import Errors.
From S2P Require Import WalPath.

(** ** The operating system *)

Inductive OpenFlag := O_RDWR | O_CREAT | O_DIRECT.

Record Os := mkOs {
  os_files : gmap string Z;
  os_fds : gmap nat (string * list OpenFlag);
  os_limit : nat;
  os_script : list (option string);
  os_errno : string;
}.

Definition EMFILE : string := "Too many open files (os error 24)".
Definition EINVAL : string := "Invalid argument (os error 22)".

Definition set_files (fs : gmap string Z) (os : Os) : Os :=
  mkOs fs (os_fds os) (os_limit os) (os_script os) (os_errno os).
Definition set_fds (fds : gmap nat (string * list OpenFlag)) (os : Os) : Os :=
  mkOs (os_files os) fds (os_limit os) (os_script os) (os_errno os).
Definition set_errno (m : string) (os : Os) : Os :=
  mkOs (os_files os) (os_fds os) (os_limit os) (os_script os) m.

(** The outcome of the next call: the script's, and success after its end. *)
Definition next_call (os : Os) : option string * Os :=
  match os_script os with
  | [] => (None, os)
  | o :: rest => (o, mkOs (os_files os) (os_fds os) (os_limit os) rest (os_errno os))
  end.

(** The lowest descriptor that is not open. *)
Fixpoint lowest_from {A} (fuel i : nat) (fds : gmap nat A) : nat :=
  match fuel with
  | 0 => i
  | S fuel => match fds !! i with None => i | Some _ => lowest_from fuel (S i) fds end
  end.
Definition lowest {A} (fds : gmap nat A) : nat := lowest_from (size fds) 0 fds.

(** [open(2)] with [O_CREAT]. *)
Definition sys_open (path : string) (flags : list OpenFlag) (os : Os) : Z * Os :=
  let (o, os) := next_call os in
  match o with
  | Some m => ((-1)%Z, set_errno m os)
  | None =>
      if decide (os_limit os <= size (os_fds os)) then ((-1)%Z, set_errno EMFILE os)
      else
        let fd := lowest (os_fds os) in
        let files := match os_files os !! path with Some _ => os_files os | None => <[path := 0%Z]> (os_files os) end in
        (Z.of_nat fd, set_fds (<[fd := (path, flags)]> (os_fds os)) (set_files files os))
  end.

(** [close(2)]: the descriptor is released whatever is returned. *)
Definition sys_close (fd : nat) (os : Os) : Os :=
  let (o, os) := next_call os in
  let os := set_fds (delete fd (os_fds os)) os in
  match o with Some m => set_errno m os | None => os end.

(** [metadata(path).is_ok()]. *)
Definition sys_exists (path : string) (os : Os) : bool * Os :=
  let (o, os) := next_call os in
  match o with
  | Some _ => (false, os)
  | None => (bool_decide (is_Some (os_files os !! path)), os)
  end.

(** A call on the length of the file behind a descriptor: zero on success. *)
Definition sys_length (fd : nat) (ok : bool) (f : Z -> Z) (os : Os) : Z * Os :=
  let (o, os) := next_call os in
  match o, ok, os_fds os !! fd with
  | Some m, _, _ => ((-1)%Z, set_errno m os)
  | None, true, Some (path, _) => (0%Z, set_files (alter f path (os_files os)) os)
  | None, _, _ => ((-1)%Z, set_errno EINVAL os)
  end.

(** [fallocate(fd, 0, offset, len)]: extends, never shrinks. *)
Definition sys_fallocate (fd : nat) (offset len : Z) : Os -> Z * Os :=
  sys_length fd (bool_decide (0 <= offset /\ 0 < len)%Z) (fun n => Z.max n (offset + len)).

(** [ftruncate(fd, len)]. *)
Definition sys_ftruncate (fd : nat) (len : Z) : Os -> Z * Os :=
  sys_length fd (bool_decide (0 <= len)%Z) (fun _ => len).

(** [as i64]. *)
Definition as_i64 (z : Z) : Z := ((z + 2 ^ 63) mod 2 ^ 64 - 2 ^ 63)%Z.

(** ** Segments *)

(** The position of the first NUL of a path, as [CString::new] reports it. *)
Fixpoint nul_position (s : string) : option nat :=
  match s with
  | EmptyString => None
  | String c s' => if bool_decide (c = "000"%char) then Some 0 else S <$> nul_position s'
  end.

(** [open_fd]. *)
Definition open_fd (path : string) (o_direct : bool) (os : Os) : WalResult nat * Os :=
  match nul_position path with
  | Some n => (Err (WalIo ("path nul: nul byte found in provided data at position: " +:+ pretty n)), os)
  | None =>
      let flags := [O_RDWR; O_CREAT] ++ (if o_direct then [O_DIRECT] else []) in
      let (fd, os) := sys_open path flags os in
      if decide (fd < 0)%Z then (Err (WalIo (os_errno os)), os) else (Ok (Z.to_nat fd), os)
  end.

(** [Segment]. *)
Record SegmentFds := mkSegmentFds {
  log_fd : nat;
  meta_fd : nat;
  sfd_seg_id : Z;
  sfd_segment_size : Z;
  sfd_block_size : Z;
}.

(** [Segment::fallocate_log], [Segment::truncate_log]. *)
Definition seg_fallocate_log (self : SegmentFds) (offset len : Z) (os : Os) : WalResult unit * Os :=
  let (r, os) := sys_fallocate (log_fd self) offset len os in
  if decide (r = 0)%Z then (Ok tt, os) else (Err (WalIo (os_errno os)), os).
Definition seg_truncate_log (self : SegmentFds) (len : Z) (os : Os) : WalResult unit * Os :=
  let (r, os) := sys_ftruncate (log_fd self) (as_i64 len) os in
  if decide (r = 0)%Z then (Ok tt, os) else (Err (WalIo (os_errno os)), os).

(** [Drop for Segment]. *)
Definition segment_drop (self : SegmentFds) (os : Os) : Os := sys_close (meta_fd self) (sys_close (log_fd self) os).

(** [Segment::open]; a failure after [seg] was built drops it, a failure
    before drops nothing. *)
Definition segment_open_fds (dir : string) (seg_id segment_size block_size : Z) (o_direct : bool) (os : Os)
  : WalResult (SegmentFds * bool) * Os :=
  let log_p := log_path dir seg_id in
  let (exists_, os) := sys_exists log_p os in
  match open_fd log_p o_direct os with
  | (Ok log_fd, os) =>
      match open_fd (meta_path dir seg_id) o_direct os with
      | (Ok meta_fd, os) =>
          let seg := mkSegmentFds log_fd meta_fd seg_id segment_size block_size in
          if negb exists_ then
            match seg_fallocate_log seg 0 (as_i64 segment_size) os with
            | (Ok _, os) => (Ok (seg, negb exists_), os)
            | (Err e, os) => (Err e, segment_drop seg os)
            | (Panic, os) => (Panic, segment_drop seg os)
            end
          else (Ok (seg, negb exists_), os)
      | (Err e, os) => (Err e, os)
      | (Panic, os) => (Panic, os)
      end
  | (Err e, os) => (Err e, os)
  | (Panic, os) => (Panic, os)
  end.

(** The descriptor side of [SegmentIndexBlockWriter]: [create] and [Drop]. *)
Record IndexWriterFd := mkIdxWriter { ibw_fd : nat; ibw_block_size : Z; ibw_next_offset : Z }.

Definition idx_writer_create (path : string) (block_size : Z) (o_direct : bool) (os : Os)
  : StorageResult IndexWriterFd * Os :=
  let (r, os) := open_fd path o_direct os in
  (fd <-- map_err storage_error_of_wal r ;; Ok (mkIdxWriter fd block_size 0), os).
Definition idx_writer_drop (self : IndexWriterFd) (os : Os) : Os := sys_close (ibw_fd self) os.

(** ** Rolling over *)

(** The descriptors a log holds: its sealed segments, kept open for readers,
    and the active one. *)
Record LogFds := mkLogFds { lf_sealed : list SegmentFds; lf_active : SegmentFds; lf_next : Z }.

(** The descriptor side of [FlushState::ensure_segment] when the active segment
    is full: the index is written and closed, the next segment is opened, the
    old one is kept. Failures panic the flush thread. *)
Definition roll_over (dir : string) (segment_size block_size : Z) (o_direct : bool) (self : LogFds) (os : Os)
  : res WalError LogFds * Os :=
  match idx_writer_create (idx_path dir (sfd_seg_id (lf_active self))) block_size o_direct os with
  | (Ok w, os) =>
      match segment_open_fds dir (lf_next self) segment_size block_size o_direct (idx_writer_drop w os) with
      | (Ok (seg, _), os) =>
          (Ok (mkLogFds (lf_sealed self ++ [lf_active self]) seg ((lf_next self + 1) mod 2 ^ 32)), os)
      | (_, os) => (Panic, os)
      end
  | (_, os) => (Panic, os)
  end.

Fixpoint roll_overs (n : nat) (dir : string) (segment_size block_size : Z) (o_direct : bool)
    (self : LogFds) (os : Os) : res WalError LogFds * Os :=
  match n with
  | 0 => (Ok self, os)
  | S n =>
      match roll_over dir segment_size block_size o_direct self os with
      | (Ok self, os) => roll_overs n dir segment_size block_size o_direct self os
      | r => r
      end
  end.

(** The end of the log: the last references to its segments go. *)
Definition log_drop (self : LogFds) (os : Os) : Os :=
  segment_drop (lf_active self) (foldl (fun os seg => segment_drop seg os) os (lf_sealed self)).

(** ** Descriptors *)

Lemma lowest_from_spec {A} fuel : forall i (fds : gmap nat A),
  fds !! lowest_from fuel i fds = None
  \/ (lowest_from fuel i fds = i + fuel /\ forall j, i <= j < i + fuel -> is_Some (fds !! j)).
Proof.
  induction fuel as [|fuel IH]; intros i fds; simpl.
  { right. split; [lia|]. intros j. lia. }
  destruct (fds !! i) as [a|] eqn:Hi; [|by left].
  destruct (IH (S i) fds) as [|[-> Hall]]; [by left|right]. split; [lia|].
  intros j Hj. destruct (decide (j = i)) as [->|]; [by rewrite Hi|]. apply Hall. lia.
Qed.

Lemma lowest_free {A} (fds : gmap nat A) : fds !! lowest fds = None.
Proof.
  unfold lowest. destruct (lowest_from_spec (size fds) 0 fds) as [|[-> Hall]]; [done|].
  simpl in *. apply eq_None_not_Some. intros Hs.
  assert (set_seq 0 (S (size fds)) ⊆ dom fds) as Hsub.
  { intros j [_ Hj]%elem_of_set_seq. apply elem_of_dom. destruct (decide (j = size fds)) as [->|]; [done|].
    apply Hall. lia. }
  apply subseteq_size in Hsub. rewrite size_set_seq, size_dom in Hsub. lia.
Qed.

Definition flags_of (o_direct : bool) : list OpenFlag := [O_RDWR; O_CREAT] ++ (if o_direct then [O_DIRECT] else []).

Lemma next_call_fds os : os_fds (next_call os).2 = os_fds os.
Proof. unfold next_call. by destruct (os_script os). Qed.
Lemma next_call_files os : os_files (next_call os).2 = os_files os.
Proof. unfold next_call. by destruct (os_script os). Qed.
Lemma next_call_limit os : os_limit (next_call os).2 = os_limit os.
Proof. unfold next_call. by destruct (os_script os). Qed.

(** The next outcome of the script, with what the call leaves alone. *)
Ltac next_outcome os :=
  let o := fresh "o" in let os1 := fresh "os" in let Hn := fresh "Hn" in
  pose proof (next_call_fds os); pose proof (next_call_files os); pose proof (next_call_limit os);
  destruct (next_call os) as [o os1] eqn:Hn; simpl in *.

Lemma sys_close_fds fd os : os_fds (sys_close fd os) = delete fd (os_fds os).
Proof. unfold sys_close. next_outcome os. destruct o; simpl; congruence. Qed.
Lemma sys_close_limit fd os : os_limit (sys_close fd os) = os_limit os.
Proof. unfold sys_close. next_outcome os. destruct o; simpl; congruence. Qed.
Lemma sys_exists_fds p os : os_fds (sys_exists p os).2 = os_fds os.
Proof. unfold sys_exists. next_outcome os. by destruct o. Qed.
Lemma sys_exists_limit p os : os_limit (sys_exists p os).2 = os_limit os.
Proof. unfold sys_exists. next_outcome os. by destruct o. Qed.

Lemma open_fd_spec path od os :
  match open_fd path od os with
  | (Ok fd, os') => os_fds os !! fd = None /\ os_fds os' = <[fd := (path, flags_of od)]> (os_fds os)
      /\ is_Some (os_files os' !! path) /\ (forall p, is_Some (os_files os !! p) -> is_Some (os_files os' !! p))
      /\ S (size (os_fds os)) <= os_limit os /\ os_limit os' = os_limit os
  | (Err _, os') => os_fds os' = os_fds os /\ os_limit os' = os_limit os
  | (Panic, _) => False
  end.
Proof.
  unfold open_fd. destruct (nul_position path); [done|]. unfold sys_open. next_outcome os.
  destruct o as [m|]; simpl; [done|]. case_decide as Hl; simpl; [done|].
  rewrite decide_False by lia. rewrite Nat2Z.id. simpl.
  split_and!; [by rewrite <- H; apply lowest_free|by rewrite H| | | |done].
  - destruct (os_files os0 !! path) eqn:Hf; [by rewrite Hf|by rewrite lookup_insert_eq].
  - intros p Hp. rewrite H0. destruct (os_files os !! path) eqn:Hf; [done|].
    destruct (decide (p = path)) as [->|]; [by rewrite lookup_insert_eq|by rewrite lookup_insert_ne].
  - rewrite <- H. lia.
Qed.

Lemma seg_fallocate_spec self off len os :
  os_fds (seg_fallocate_log self off len os).2 = os_fds os
  /\ os_limit (seg_fallocate_log self off len os).2 = os_limit os
  /\ ((seg_fallocate_log self off len os).1 = Ok tt ->
      exists p fl, os_fds os !! log_fd self = Some (p, fl)
        /\ os_files (seg_fallocate_log self off len os).2 = alter (fun n => Z.max n (off + len)) p (os_files os)).
Proof.
  unfold seg_fallocate_log, sys_fallocate, sys_length. next_outcome os. rewrite H.
  destruct o as [m|]; simpl; [done|]. case_bool_decide; simpl; [|done].
  destruct (os_fds os !! log_fd self) as [[p fl]|]; simpl; [|done].
  split_and!; [done|done|]. intros _. exists p, fl. by rewrite H0.
Qed.

Lemma segment_drop_fds seg os : os_fds (segment_drop seg os) = delete (meta_fd seg) (delete (log_fd seg) (os_fds os)).
Proof. unfold segment_drop. by rewrite !sys_close_fds. Qed.
Lemma segment_drop_limit seg os : os_limit (segment_drop seg os) = os_limit os.
Proof. unfold segment_drop. by rewrite !sys_close_limit. Qed.

(** Two descriptors that were free, opened and closed again. *)
Lemma open_two_close {A} (fds : gmap nat A) a b x y :
  fds !! a = None -> (<[a := x]> fds) !! b = None ->
  delete b (delete a (<[b := y]> (<[a := x]> fds))) = fds.
Proof.
  intros Ha Hb. assert (a <> b) as Hne by (intros ->; by rewrite lookup_insert_eq in Hb).
  rewrite lookup_insert_ne in Hb by done. rewrite (insert_insert_ne fds) by done.
  rewrite delete_insert_id; [by rewrite delete_insert_id|by rewrite lookup_insert_ne].
Qed.

Definition holds_both (dir : string) (id : Z) (od : bool) seg (fds fds' : gmap nat (string * list OpenFlag)) : Prop :=
  fds !! log_fd seg = None /\ fds !! meta_fd seg = None /\ log_fd seg <> meta_fd seg
  /\ fds' = <[meta_fd seg := (meta_path dir id, flags_of od)]> (<[log_fd seg := (log_path dir id, flags_of od)]> fds).

Lemma segment_open_spec dir id ss bs od os :
  match segment_open_fds dir id ss bs od os with
  | (Ok (seg, created), os') =>
      holds_both dir id od seg (os_fds os) (os_fds os') /\ sfd_seg_id seg = id
      /\ S (S (size (os_fds os))) <= os_limit os /\ os_limit os' = os_limit os
      /\ (created = true -> exists n, os_files os' !! log_path dir id = Some n /\ (as_i64 ss <= n)%Z)
  | (Err _, os') =>
      os_limit os' = os_limit os /\
      (os_fds os' = os_fds os
       \/ exists fd os1 e, open_fd (log_path dir id) od (sys_exists (log_path dir id) os).2 = (Ok fd, os1)
            /\ open_fd (meta_path dir id) od os1 = (Err e, os')
            /\ os_fds os !! fd = None /\ os_fds os' = <[fd := (log_path dir id, flags_of od)]> (os_fds os))
  | (Panic, _) => False
  end.
Proof.
  unfold segment_open_fds. pose proof (sys_exists_fds (log_path dir id) os) as He.
  pose proof (sys_exists_limit (log_path dir id) os) as Hel.
  destruct (sys_exists (log_path dir id) os) as [ex os0]. simpl in *. rewrite <- He, <- Hel.
  pose proof (open_fd_spec (log_path dir id) od os0) as Hl.
  destruct (open_fd (log_path dir id) od os0) as [[lfd|e|] os1]; [|by destruct Hl; auto|done].
  destruct Hl as (Hfree & Hfds & Hfile & _ & Hsz & Hlim).
  pose proof (open_fd_spec (meta_path dir id) od os1) as Hm.
  destruct (open_fd (meta_path dir id) od os1) as [[mfd|e|] os2] eqn:Hom; [| |done].
  2:{ destruct Hm as [Hm Hml]. split; [congruence|]. right. exists lfd, os1, e. by rewrite Hm, Hfds. }
  destruct Hm as (Hmfree & Hmfds & _ & Hkeep & Hmsz & Hmlim).
  set (seg := mkSegmentFds lfd mfd id ss bs). rewrite Hfds in Hmfree, Hmfds.
  assert (holds_both dir id od seg (os_fds os0) (os_fds os2)) as Hboth.
  { assert (lfd <> mfd) as Hne by (intros ->; by rewrite lookup_insert_eq in Hmfree).
    rewrite lookup_insert_ne in Hmfree by done. done. }
  rewrite Hfds, map_size_insert_None, Hlim in Hmsz by done.
  assert (os_limit os2 = os_limit os0) as Hl2 by congruence.
  destruct ex; simpl; [by split_and!|].
  destruct (seg_fallocate_spec seg 0 (as_i64 ss) os2) as (Hf1 & Hf2 & Hf3).
  assert (forall r os3, seg_fallocate_log seg 0 (as_i64 ss) os2 = (r, os3) ->
    os_fds (segment_drop seg os3) = os_fds os0 /\ os_limit (segment_drop seg os3) = os_limit os0) as Hdrop.
  { intros r os3 Hr. rewrite segment_drop_fds, segment_drop_limit. rewrite Hr in Hf1, Hf2. simpl in Hf1, Hf2.
    rewrite Hf1, Hf2, Hmfds. split; [by apply open_two_close|done]. }
  destruct (seg_fallocate_log seg 0 (as_i64 ss) os2) as [[[]|e|] os3] eqn:Hfa; simpl in *.
  - split_and!; [by rewrite Hf1|done|done|congruence|]. intros _.
    destruct (Hf3 eq_refl) as (p & fl & Hp & Hfiles). rewrite Hmfds in Hp.
    rewrite lookup_insert_ne, lookup_insert_eq in Hp by (symmetry; apply Hboth). injection Hp as <- <-.
    destruct (Hkeep _ Hfile) as [n Hn]. exists (Z.max n (0 + as_i64 ss)).
    rewrite Hfiles, lookup_alter_eq, Hn. split; [done|lia].
  - destruct (Hdrop _ _ eq_refl). auto.
  - revert Hfa. unfold seg_fallocate_log. destruct (sys_fallocate _ _ _ _). by case_decide.
Qed.

(** ** The descriptors of a log *)

Definition seg_fds (seg : SegmentFds) : list nat := [log_fd seg; meta_fd seg].
Definition fds_of (self : LogFds) : list nat := (lf_sealed self ++ [lf_active self]) ≫= seg_fds.

(** The process holds the descriptors of [base] and those of the log [l]. *)
Definition owns (base : gmap nat (string * list OpenFlag)) (l : list nat) (os : Os) : Prop :=
  NoDup l
  /\ (forall fd, fd ∈ l -> base !! fd = None /\ is_Some (os_fds os !! fd))
  /\ (forall fd, fd ∉ l -> os_fds os !! fd = base !! fd).

Lemma length_seg_fds l : length (l ≫= seg_fds) = 2 * length l.
Proof. induction l as [|s l IH]; [done|]. rewrite bind_cons, length_app, IH. simpl. lia. Qed.

Section Owns.
Context (base : gmap nat (string * list OpenFlag)).

Lemma owns_size l os : owns base l os -> size (os_fds os) = size base + length l.
Proof.
  intros (Hnd & Hin & Hout). rewrite <- !size_dom.
  assert (dom (os_fds os) = dom base ∪ list_to_set l) as ->.
  { apply set_eq. intros fd. rewrite elem_of_union, elem_of_list_to_set, !elem_of_dom.
    destruct (decide (fd ∈ l)) as [Hl|Hl]; [destruct (Hin fd Hl); tauto|]. rewrite Hout by done. tauto. }
  rewrite size_union; [by rewrite size_list_to_set|].
  intros fd [x Hx]%elem_of_dom Hl%elem_of_list_to_set. destruct (Hin fd Hl). congruence.
Qed.

Lemma owns_same l os os' : os_fds os' = os_fds os -> owns base l os -> owns base l os'.
Proof. unfold owns. by intros ->. Qed.

Lemma owns_open l os fd x : owns base l os -> os_fds os !! fd = None ->
  forall os', os_fds os' = <[fd := x]> (os_fds os) -> owns base (l ++ [fd]) os'.
Proof.
  intros (Hnd & Hin & Hout) Hfree os' Hos'. unfold owns. rewrite Hos'.
  assert (fd ∉ l) as Hnew by (intros Hl; destruct (Hin fd Hl) as [_ [y Hy]]; congruence).
  split_and!.
  - apply NoDup_app. split_and!; [done| |apply NoDup_singleton]. by intros y Hy ->%list_elem_of_singleton.
  - intros y [Hy| ->%list_elem_of_singleton]%elem_of_app.
    + rewrite lookup_insert_ne by (intros ->; done). auto.
    + rewrite lookup_insert_eq, <- Hout by done. eauto.
  - intros y [Hy Hne]%not_elem_of_app. rewrite list_elem_of_singleton in Hne.
    rewrite lookup_insert_ne by (intros ->; done). auto.
Qed.

Lemma owns_close fd l os : owns base (fd :: l) os -> owns base l (sys_close fd os).
Proof.
  intros (Hnd & Hin & Hout). unfold owns. rewrite sys_close_fds. apply NoDup_cons in Hnd as [Hnew Hnd].
  split_and!; [done| |].
  - intros y Hy. destruct (Hin y) as [Hb Hs]; [by right|]. split; [done|].
    rewrite lookup_delete_ne; [done|]. by intros ->.
  - intros y Hy. destruct (decide (y = fd)) as [->|Hne].
    + rewrite lookup_delete_eq. symmetry. apply Hin. by left.
    + rewrite lookup_delete_ne by done. apply Hout. by intros [?|?]%elem_of_cons.
Qed.

Lemma owns_drop_segment seg l os : owns base (seg_fds seg ++ l) os -> owns base l (segment_drop seg os).
Proof. intros Ho. unfold segment_drop. by do 2 apply owns_close. Qed.

Lemma owns_drop_sealed sealed : forall l os, owns base ((sealed ≫= seg_fds) ++ l) os ->
  owns base l (foldl (fun os seg => segment_drop seg os) os sealed).
Proof.
  induction sealed as [|seg sealed IH]; intros l os Ho; [done|]. simpl.
  apply IH, owns_drop_segment. by rewrite app_assoc.
Qed.

Lemma owns_log_drop self os : owns base (fds_of self) os -> os_fds (log_drop self os) = base.
Proof.
  intros Ho. unfold fds_of in Ho. rewrite bind_app in Ho.
  apply owns_drop_sealed, owns_drop_segment in Ho as (_ & _ & Hout).
  apply map_eq. intros fd. apply Hout, not_elem_of_nil.
Qed.

Lemma owns_open_segment dir id ss bs od l os seg created os' :
  owns base l os -> segment_open_fds dir id ss bs od os = (Ok (seg, created), os') ->
  owns base (l ++ seg_fds seg) os' /\ size (os_fds os') <= os_limit os /\ os_limit os' = os_limit os.
Proof.
  intros Ho Hopen. pose proof (segment_open_spec dir id ss bs od os) as Hs. rewrite Hopen in Hs.
  destruct Hs as ((Hl & Hm & Hne & Hfds) & _ & Hsz & Hlim & _).
  assert (owns base (l ++ seg_fds seg) os') as Ho'.
  { unfold seg_fds. change [log_fd seg; meta_fd seg] with ([log_fd seg] ++ [meta_fd seg]). rewrite app_assoc.
    eapply owns_open; [eapply owns_open with (os' := set_fds (<[log_fd seg := (log_path dir id, flags_of od)]> (os_fds os)) os)|..];
      [done|done|done| |exact Hfds]. simpl. by rewrite lookup_insert_ne. }
  split_and!; [done| |done]. rewrite (owns_size _ _ Ho'). rewrite (owns_size _ _ Ho) in Hsz. rewrite length_app. simpl. lia.
Qed.

Lemma owns_roll_over dir ss bs od self os self' os' :
  owns base (fds_of self) os -> roll_over dir ss bs od self os = (Ok self', os') ->
  owns base (fds_of self') os' /\ size (os_fds os') <= os_limit os /\ os_limit os' = os_limit os
  /\ length (lf_sealed self') = S (length (lf_sealed self)).
Proof.
  intros Ho. unfold roll_over, idx_writer_create.
  pose proof (open_fd_spec (idx_path dir (sfd_seg_id (lf_active self))) od os) as Hi.
  destruct (open_fd (idx_path dir (sfd_seg_id (lf_active self))) od os) as [[fd|e|] os1]; [|done|done]. simpl.
  destruct Hi as (Hfree & Hfds & _ & _ & _ & Hlim).
  set (os2 := idx_writer_drop (mkIdxWriter fd bs 0) os1).
  assert (os_fds os2 = os_fds os) as Hos2.
  { unfold os2, idx_writer_drop. rewrite sys_close_fds, Hfds. by rewrite delete_insert_id. }
  assert (os_limit os2 = os_limit os) as Hlim2 by (unfold os2, idx_writer_drop; by rewrite sys_close_limit).
  destruct (segment_open_fds dir (lf_next self) ss bs od os2) as [[[seg cr]|e|] os3] eqn:Hopen; [|done|done].
  intros [= <- <-]. eapply owns_open_segment in Hopen as (Ho' & Hsz & Hl'); [|by eapply owns_same].
  rewrite Hlim2 in Hsz, Hl'. split_and!; [|done|done|simpl; rewrite length_app; simpl; lia].
  unfold fds_of. simpl. by rewrite bind_app.
Qed.
End Owns.

(** ** Theorems *)

(** C32: Opening a segment, whatever each system call answers: on success it holds
    exactly two new descriptors, on its log and its header file, dropping it
    gives the table of before, and a segment reported as created has a log of
    the full length; on failure nothing stays open, except that the log's
    descriptor does when it was the header file that could not be opened. *)
Theorem segment_descriptors dir id ss bs od os :
  match segment_open_fds dir id ss bs od os with
  | (Ok (seg, created), os') =>
      holds_both dir id od seg (os_fds os) (os_fds os')
      /\ os_fds (segment_drop seg os') = os_fds os
      /\ (created = true -> exists n, os_files os' !! log_path dir id = Some n /\ (as_i64 ss <= n)%Z)
  | (Err _, os') =>
      os_fds os' = os_fds os
      \/ exists fd os1 e, open_fd (log_path dir id) od (sys_exists (log_path dir id) os).2 = (Ok fd, os1)
           /\ open_fd (meta_path dir id) od os1 = (Err e, os')
           /\ os_fds os !! fd = None /\ os_fds os' = <[fd := (log_path dir id, flags_of od)]> (os_fds os)
  | (Panic, _) => False
  end.
Proof.
  pose proof (segment_open_spec dir id ss bs od os) as Hs.
  destruct (segment_open_fds dir id ss bs od os) as [[[seg cr]|e|] os']; [|by destruct Hs|done].
  destruct Hs as (Hb & _ & _ & _ & Hc). split_and!; [done| |done].
  destruct Hb as (Hl & Hm & Hne & Hfds). rewrite segment_drop_fds, Hfds.
  apply open_two_close; [done|]. by rewrite lookup_insert_ne.
Qed.

(** A log that rolled over [n] times holds two descriptors for every segment
    it has written, the sealed ones included; so it cannot roll over more
    often than half the process's limit. Dropping it gives all of them back. *)
Theorem roll_over_descriptors base n dir ss bs od : forall self os self' os',
  owns base (fds_of self) os -> size (os_fds os) <= os_limit os ->
  roll_overs n dir ss bs od self os = (Ok self', os') ->
  size (os_fds os') = size base + 2 * S (length (lf_sealed self) + n)
  /\ size (os_fds os') <= os_limit os
  /\ os_fds (log_drop self' os') = base.
Proof.
  induction n as [|n IH]; intros self os self' os' Ho Hsz; simpl.
  - intros [= <- <-]. split_and!; [|done|by apply owns_log_drop].
    rewrite (owns_size _ _ _ Ho). f_equal. unfold fds_of. rewrite length_seg_fds, length_app. simpl. lia.
  - destruct (roll_over dir ss bs od self os) as [[self1|e|] os1] eqn:Hr; [|done|done]. intros Hrun.
    destruct (owns_roll_over _ _ _ _ _ _ _ _ _ Ho Hr) as (Ho1 & Hsz1 & Hlim & Hlen).
    rewrite <- Hlim in Hsz1. destruct (IH _ _ _ _ Ho1 Hsz1 Hrun) as (H1 & H2 & H3).
    rewrite Hlen in H1. split_and!; [|by rewrite <- Hlim|done]. lia.
Qed.

(** A process that may hold ten descriptors. *)
Definition ten : Os := mkOs ∅ ∅ 10 [] "".
Definition log0 : SegmentFds := mkSegmentFds 0 1 0 64 16.
Definition ten1 : Os := (segment_open_fds "d" 0 64 16 false ten).2.

Lemma ten1_fds : os_fds ten1
  = <[1 := (meta_path "d" 0, flags_of false)]> (<[0 := (log_path "d" 0, flags_of false)]> ∅).
Proof. by vm_compute. Qed.

Lemma ten1_owns : owns ∅ (fds_of (mkLogFds [] log0 1)) ten1.
Proof.
  change (fds_of (mkLogFds [] log0 1)) with [0; 1]. unfold owns. rewrite ten1_fds. split_and!.
  - by apply (bool_decide_unpack _).
  - intros fd Hfd. split; [done|]. apply elem_of_cons in Hfd as [->|Hfd%list_elem_of_singleton]; [|subst fd];
      by eexists.
  - intros fd Hfd. by rewrite !lookup_insert_ne by (intros <-; apply Hfd; set_solver).
Qed.

Lemma roll_over_descriptors_witness :
  exists self' os', roll_overs 3 "d" 64 16 false (mkLogFds [] log0 1) ten1 = (Ok self', os')
    /\ size (os_fds os') = 8 /\ os_fds (log_drop self' os') = ∅.
Proof.
  destruct (roll_overs 3 "d" 64 16 false (mkLogFds [] log0 1) ten1) as [[self'|e|] os'] eqn:Hr;
    [|by vm_compute in Hr..].
  exists self', os'. destruct (roll_over_descriptors ∅ 3 "d" 64 16 false (mkLogFds [] log0 1) ten1 self' os')
    as (H1 & _ & H3); [apply ten1_owns|rewrite ten1_fds; vm_compute; lia|done|].
  split_and!; [done|by rewrite H1|done].
Defined.

(** With ten descriptors the fifth segment is the last: the next roll-over
    panics. *)
Example descriptors_run_out :
  (roll_overs 4 "d" 64 16 false (mkLogFds [] log0 1) ten1).1 <> Panic
  /\ (roll_overs 5 "d" 64 16 false (mkLogFds [] log0 1) ten1).1 = Panic.
Proof. by vm_compute. Qed.

(** The header file cannot be opened: the log's descriptor stays open and no
    value owns it. *)
Example meta_failure_leaks :
  let '(r, os') := segment_open_fds "d" 0 64 16 false (mkOs ∅ ∅ 10 [None; None; Some EMFILE] "") in
  r = Err (WalIo EMFILE) /\ size (os_fds os') = 1.
Proof. by vm_compute. Qed.

(** The disk is full when a segment is created: the attempt fails, but its
    empty log stays, so the next attempt takes it for a segment that needs
    neither preallocation nor a first header. *)
Example failed_creation_sticks :
  let '(r1, os1) := segment_open_fds "d" 0 64 16 false (mkOs ∅ ∅ 10 [None; None; None; Some "No space left on device (os error 28)"] "") in
  let '(r2, os2) := segment_open_fds "d" 0 64 16 false os1 in
  r1 = Err (WalIo "No space left on device (os error 28)") /\ os_script os1 = []
  /\ r2 = Ok (log0, false) /\ os_files os2 !! log_path "d" 0 = Some 0%Z.
Proof. by vm_compute. Qed.
