(* ===== verification/Arrow.v ===== *)
(** The interface of Arrow and DataFusion as the SQL crate and the server use
    it: data types, fields, schemas, arrays, record batches and the in-memory
    scan plan.

    These libraries are not part of the repository. [Arrow] lists the types
    and functions the sources call, [ArrowLaws] their documented behaviour;
    the enumerations the sources match on are seen through [type_view] and
    [array_view], whose constructors are the ones the sources name. [Plain] is
    an instance that satisfies the laws. *)

From Stdlib Require Import SpecFloat String.
From stdpp Require Import base numbers list strings pretty.
From S2P Require Import Prelude.
From S2P Require Import RustText.

(** ** Views *)

(** The constructors of [DataType] that a match of the sources names; every
    other one is [TOther]. *)
Inductive TypeView :=
| TInt8 | TInt16 | TInt32 | TInt64
| TUInt8 | TUInt16 | TUInt32 | TUInt64
| TFloat32 | TFloat64
| TUtf8 | TLargeUtf8
| TBoolean
| TDate32 | TDate64
| TOther.
#[export] Instance TypeView_eq_dec : EqDecision TypeView.
Proof. solve_decision. Defined.

(** The array types that the sources build or downcast to, with their cells;
    a null cell is [None]. Of any other array only the nulls are seen. *)
Inductive ArrayView :=
| AInt8 (cells : list (option Z)) | AInt16 (cells : list (option Z))
| AInt32 (cells : list (option Z)) | AInt64 (cells : list (option Z))
| AUInt8 (cells : list (option Z)) | AUInt16 (cells : list (option Z))
| AUInt32 (cells : list (option Z)) | AUInt64 (cells : list (option Z))
| AFloat32 (cells : list (option spec_float)) | AFloat64 (cells : list (option spec_float))
| AString (cells : list (option string))
| ABoolean (cells : list (option bool))
| AOther (cells : list (option unit)).

(** Where a column has a value: [Some true] there, [Some false] at a null,
    [None] past its end. *)
Definition present {A : Type} (cells : list (option A)) (i : nat) : option bool :=
  (fun c => bool_decide (is_Some c)) <$> cells !! i.

Definition view_len (v : ArrayView) : nat :=
  match v with
  | AInt8 l | AInt16 l | AInt32 l | AInt64 l
  | AUInt8 l | AUInt16 l | AUInt32 l | AUInt64 l => length l
  | AFloat32 l | AFloat64 l => length l
  | AString l => length l
  | ABoolean l => length l
  | AOther l => length l
  end.

Definition view_present (v : ArrayView) : nat -> option bool :=
  match v with
  | AInt8 l | AInt16 l | AInt32 l | AInt64 l
  | AUInt8 l | AUInt16 l | AUInt32 l | AUInt64 l => present l
  | AFloat32 l | AFloat64 l => present l
  | AString l => present l
  | ABoolean l => present l
  | AOther l => present l
  end.

(** The integer in a cell of an integer array, [None] at any other cell. *)
Definition view_int (v : ArrayView) (i : nat) : option Z :=
  match v with
  | AInt8 l | AInt16 l | AInt32 l | AInt64 l
  | AUInt8 l | AUInt16 l | AUInt32 l | AUInt64 l => mjoin (l !! i)
  | _ => None
  end.

(** Integer cells are in the range of their type. *)
Definition in_width (signed : bool) (bits : Z) (z : Z) : Prop :=
  if signed then (- 2 ^ (bits - 1) <= z < 2 ^ (bits - 1))%Z else (0 <= z < 2 ^ bits)%Z.

Definition int_width (v : ArrayView) : option (bool * Z) :=
  match v with
  | AInt8 _ => Some (true, 8%Z) | AInt16 _ => Some (true, 16%Z)
  | AInt32 _ => Some (true, 32%Z) | AInt64 _ => Some (true, 64%Z)
  | AUInt8 _ => Some (false, 8%Z) | AUInt16 _ => Some (false, 16%Z)
  | AUInt32 _ => Some (false, 32%Z) | AUInt64 _ => Some (false, 64%Z)
  | _ => None
  end.

(** The cells are values of the array's type. *)
Definition view_wf (v : ArrayView) : Prop :=
  (forall sg w i z, int_width v = Some (sg, w) -> view_int v i = Some z -> in_width sg w z) /\
  match v with
  | AFloat32 l => Forall (fun c => forall x, c = Some x -> valid_binary 24 128 x = true) l
  | AFloat64 l => Forall (fun c => forall x, c = Some x -> valid_binary 53 1024 x = true) l
  | _ => True
  end.

(** The data type of an array of one of the named types. *)
Definition type_agrees (t : TypeView) (v : ArrayView) : Prop :=
  match v with
  | AInt8 _ => t = TInt8 | AInt16 _ => t = TInt16
  | AInt32 _ => t = TInt32 | AInt64 _ => t = TInt64
  | AUInt8 _ => t = TUInt8 | AUInt16 _ => t = TUInt16
  | AUInt32 _ => t = TUInt32 | AUInt64 _ => t = TUInt64
  | AFloat32 _ => t = TFloat32 | AFloat64 _ => t = TFloat64
  | AString _ => t = TUtf8
  | ABoolean _ => t = TBoolean
  | AOther _ => True
  end.

(** ** The interface *)

Class Arrow := {
  DataType : Type;
  Field : Type;
  Schema : Type;
  Array : Type;
  RecordBatch : Type;
  ArrowError : Type;
  MemoryExec : Type;

  type_view : DataType -> TypeView;
  data_type_to_string : DataType -> string;
  dt_UInt64 : DataType;
  dt_Int64 : DataType;
  dt_Float64 : DataType;
  dt_Utf8 : DataType;
  dt_Boolean : DataType;

  field_new : string -> DataType -> bool -> Field;
  field_name : Field -> string;
  field_data_type : Field -> DataType;
  field_is_nullable : Field -> bool;

  schema_new : list Field -> Schema;
  schema_fields : Schema -> list Field;
  logically_equivalent_names_and_types : Schema -> Schema -> bool;

  array_from : ArrayView -> Array;
  array_view : Array -> ArrayView;
  array_data_type : Array -> DataType;
  array_value_to_string : Array -> nat -> res ArrowError string;

  batch_try_new : Schema -> list Array -> res ArrowError RecordBatch;
  batch_schema : RecordBatch -> Schema;
  batch_columns : RecordBatch -> list Array;
  batch_num_rows : RecordBatch -> nat;
  batch_project : RecordBatch -> list nat -> res ArrowError RecordBatch;

  memory_exec_try_new : list (list RecordBatch) -> Schema -> res ArrowError MemoryExec;
  exec_schema : MemoryExec -> Schema;
  exec_batches : MemoryExec -> list RecordBatch;
}.

Section Derived.
Context `{Arrow}.

(** [array.is_null(i)]: an index past the end panics in the library. *)
Definition array_is_null {E} (a : Array) (i : nat) : res E bool :=
  unwrap (negb <$> view_present (array_view a) i).

(** [batch.column(i)]. *)
Definition batch_column {E} (b : RecordBatch) (i : nat) : res E Array :=
  unwrap (batch_columns b !! i).

Definition batch_num_columns (b : RecordBatch) : nat := length (batch_columns b).

(** [schema.field(i)]. *)
Definition schema_field {E} (s : Schema) (i : nat) : res E Field :=
  unwrap (schema_fields s !! i).

(** What [RecordBatch::try_new] requires of its columns. *)
Definition columns_fit (s : Schema) (cols : list Array) (n : nat) : Prop :=
  cols <> [] /\
  Forall2 (fun f a =>
    field_data_type f = array_data_type a /\ view_len (array_view a) = n /\
    (field_is_nullable f = false ->
     forall i, i < n -> view_present (array_view a) i = Some true)) (schema_fields s) cols.
End Derived.

Class ArrowLaws `{Arrow} := {
  type_view_UInt64 : type_view dt_UInt64 = TUInt64;
  type_view_Int64 : type_view dt_Int64 = TInt64;
  type_view_Float64 : type_view dt_Float64 = TFloat64;
  type_view_Utf8 : type_view dt_Utf8 = TUtf8;
  type_view_Boolean : type_view dt_Boolean = TBoolean;

  field_name_new n t b : field_name (field_new n t b) = n;
  field_data_type_new n t b : field_data_type (field_new n t b) = t;
  field_is_nullable_new n t b : field_is_nullable (field_new n t b) = b;

  schema_fields_new fs : schema_fields (schema_new fs) = fs;
  schema_equivalent_refl s : logically_equivalent_names_and_types s s = true;

  array_view_from v : view_wf v -> array_view (array_from v) = v;
  array_type_UInt64 l : array_data_type (array_from (AUInt64 l)) = dt_UInt64;
  array_type_Int64 l : array_data_type (array_from (AInt64 l)) = dt_Int64;
  array_type_Float64 l : array_data_type (array_from (AFloat64 l)) = dt_Float64;
  array_type_Utf8 l : array_data_type (array_from (AString l)) = dt_Utf8;
  array_type_Boolean l : array_data_type (array_from (ABoolean l)) = dt_Boolean;

  array_type_view a : type_agrees (type_view (array_data_type a)) (array_view a);

  (** The display of a cell: integers in decimal, strings as they are. *)
  array_string_int a i (z : Z) :
    view_int (array_view a) i = Some z -> array_value_to_string a i = Ok (pretty z);
  array_string_str a l i (s : string) :
    array_view a = AString l -> l !! i = Some (Some s) -> array_value_to_string a i = Ok s;
  array_string_bool a l i (b : bool) :
    array_view a = ABoolean l -> l !! i = Some (Some b) ->
    array_value_to_string a i = Ok (if b then "true" else "false");

  try_new_fits s cols n :
    columns_fit s cols n ->
    exists b, batch_try_new s cols = Ok b /\ batch_num_rows b = n;
  try_new_ok s cols b :
    batch_try_new s cols = Ok b ->
    batch_schema b = s /\ batch_columns b = cols /\ columns_fit s cols (batch_num_rows b);
  try_new_total s cols : batch_try_new s cols <> Panic;

  (** Every column of a batch has its rows, and there is one per field. *)
  batch_rows b :
    Forall (fun a => view_len (array_view a) = batch_num_rows b) (batch_columns b);
  batch_arity b : length (batch_columns b) = length (schema_fields (batch_schema b));

  project_ok b idx :
    Forall (fun i => i < length (batch_columns b)) idx ->
    exists b', batch_project b idx = Ok b' /\ batch_num_rows b' = batch_num_rows b /\
      (forall j, batch_columns b' !! j = idx !! j ≫= fun i => batch_columns b !! i);
  project_out_of_bounds b idx :
    ~ Forall (fun i => i < length (batch_columns b)) idx -> exists e, batch_project b idx = Err e;

  memory_exec_ok ps s :
    exists p, memory_exec_try_new ps s = Ok p /\ exec_schema p = s /\
      exec_batches p = concat ps;
}.

(** ** The plain instance *)

Module Plain.

Record Batch := mkBatch {
  b_schema : list (string * TypeView * bool);
  b_cols : list ArrayView;
  b_rows : nat;
  b_ok : bool_decide (Forall (fun a => view_len a = b_rows) b_cols
                      /\ length b_cols = length b_schema) = true;
}.

Definition view_type (v : ArrayView) : TypeView :=
  match v with
  | AInt8 _ => TInt8 | AInt16 _ => TInt16 | AInt32 _ => TInt32 | AInt64 _ => TInt64
  | AUInt8 _ => TUInt8 | AUInt16 _ => TUInt16 | AUInt32 _ => TUInt32 | AUInt64 _ => TUInt64
  | AFloat32 _ => TFloat32 | AFloat64 _ => TFloat64
  | AString _ => TUtf8
  | ABoolean _ => TBoolean
  | AOther _ => TOther
  end.

Definition value_to_string (v : ArrayView) (i : nat) : res string string :=
  match v with
  | AString l => match mjoin (l !! i) with Some s => Ok s | None => Err "no value" end
  | ABoolean l =>
      match mjoin (l !! i) with
      | Some true => Ok "true"
      | Some false => Ok "false"
      | None => Err "no value"
      end
  | AFloat32 l => match mjoin (l !! i) with Some x => Ok (f32_to_string x) | None => Err "no value" end
  | AFloat64 l => match mjoin (l !! i) with Some x => Ok (f64_to_string x) | None => Err "no value" end
  | _ => match view_int v i with Some z => Ok (pretty z) | None => Err "no value" end
  end.

(** Builds a batch of [n] rows from columns that agree with the fields in
    number and length. *)
Definition make (s : list (string * TypeView * bool)) (cols : list ArrayView) (n : nat) :
    res string Batch :=
  match bool_dec (bool_decide (Forall (fun a => view_len a = n) cols
                               /\ length cols = length s)) true with
  | left H => Ok (mkBatch s cols n H)
  | right _ => Err "columns do not agree"
  end.

Definition fits (n : nat) (f : string * TypeView * bool) (a : ArrayView) : bool :=
  bool_decide (f.1.2 = view_type a) &&
  (f.2 || forallb (fun i => bool_decide (view_present a i = Some true)) (seq 0 n)).

Definition try_new (s : list (string * TypeView * bool)) (cols : list ArrayView) :
    res string Batch :=
  match cols with
  | [] => Err "must either specify a row count or at least one column"
  | a :: _ =>
      b <-- make s cols (view_len a) ;;
      if forallb (fun p => fits (view_len a) p.1 p.2) (zip s cols) then Ok b
      else Err "columns do not fit the schema"
  end.

Definition project (b : Batch) (idx : list nat) : res string Batch :=
  match mapM (fun i => b_schema b !! i) idx, mapM (fun i => b_cols b !! i) idx with
  | Some s, Some cols => make s cols (b_rows b)
  | _, _ => Err "project index out of bounds"
  end.

#[export] Instance arrow : Arrow := {
  DataType := TypeView;
  Field := string * TypeView * bool;
  Schema := list (string * TypeView * bool);
  Array := ArrayView;
  RecordBatch := Batch;
  ArrowError := string;
  MemoryExec := list Batch * list (string * TypeView * bool);
  type_view t := t;
  data_type_to_string t :=
    match t with TUInt64 => "UInt64" | TInt64 => "Int64" | TUtf8 => "Utf8"
            | TBoolean => "Boolean" | TFloat64 => "Float64" | _ => "Other" end;
  dt_UInt64 := TUInt64; dt_Int64 := TInt64; dt_Float64 := TFloat64;
  dt_Utf8 := TUtf8; dt_Boolean := TBoolean;
  field_new n t b := (n, t, b);
  field_name f := f.1.1; field_data_type f := f.1.2; field_is_nullable f := f.2;
  schema_new fs := fs; schema_fields s := s;
  logically_equivalent_names_and_types s1 s2 := bool_decide (s1.*1 = s2.*1);
  array_from v := v; array_view v := v; array_data_type := view_type;
  array_value_to_string := value_to_string;
  batch_try_new := try_new;
  batch_schema := b_schema; batch_columns := b_cols; batch_num_rows := b_rows;
  batch_project := project;
  memory_exec_try_new ps s := Ok (concat ps, s);
  exec_schema := snd; exec_batches := fst;
}.

Lemma make_ok s cols n :
  Forall (fun a => view_len a = n) cols -> length cols = length s ->
  exists b, make s cols n = Ok b /\ b_schema b = s /\ b_cols b = cols /\ b_rows b = n.
Proof.
  intros H1 H2. unfold make. destruct bool_dec as [Hd|Hd]; [by eexists|].
  exfalso. apply Hd. by apply bool_decide_eq_true.
Qed.

Lemma make_inv s cols n b :
  make s cols n = Ok b -> b_schema b = s /\ b_cols b = cols /\ b_rows b = n.
Proof. unfold make. destruct bool_dec; [|done]. by intros [= <-]. Qed.

Lemma batch_inv (b : Batch) :
  Forall (fun a => view_len a = b_rows b) (b_cols b) /\ length (b_cols b) = length (b_schema b).
Proof. apply (bool_decide_eq_true_1 _ (b_ok b)). Qed.

Lemma fits_spec n f a :
  fits n f a = true <->
  f.1.2 = view_type a /\ (f.2 = false -> forall i, i < n -> view_present a i = Some true).
Proof.
  unfold fits. rewrite andb_true_iff, bool_decide_eq_true, orb_true_iff, forallb_forall.
  setoid_rewrite bool_decide_eq_true. setoid_rewrite in_seq.
  split.
  - intros [? [->|?]]; split; try done; auto with lia.
  - intros [? Hn]. split; [done|]. destruct f.2; [by left|right].
    intros i Hi. apply Hn; [done|lia].
Qed.

Lemma fits_all n s cols :
  length s = length cols ->
  forallb (fun p => fits n p.1 p.2) (zip s cols) = true <->
  Forall2 (fun f a => f.1.2 = view_type a /\
    (f.2 = false -> forall i, i < n -> view_present a i = Some true)) s cols.
Proof.
  revert cols. induction s as [|f s IH]; intros [|a cols] Hl; simplify_eq/=.
  - by split.
  - rewrite andb_true_iff, fits_spec, IH by done. split.
    + intros []. by constructor.
    + by inversion 1.
Qed.

(** Projecting a list on positions inside it. *)
Lemma mapM_positions {A} (l : list A) idx :
  Forall (fun i => i < length l) idx ->
  exists k, mapM (fun i => l !! i) idx = Some k /\ length k = length idx /\
    (forall j, k !! j = idx !! j ≫= fun i => l !! i) /\
    forall P, Forall P l -> Forall P k.
Proof.
  induction 1 as [|i idx Hi _ (k & Hk & Hl & Hj & HP)].
  { exists []. split_and!; [done|done|by intros []|constructor]. }
  destruct (lookup_lt_is_Some_2 l i Hi) as [x Hx].
  exists (x :: k). cbn. rewrite Hx. cbn. rewrite Hk. cbn. split_and!; [done|lia| |].
  - intros [|j]; cbn; [done|apply Hj].
  - intros P Pl. constructor; [by eapply Forall_lookup_1|auto].
Qed.

Lemma project_spec b idx :
  Forall (fun i => i < length (b_cols b)) idx ->
  exists b', project b idx = Ok b' /\ b_rows b' = b_rows b /\
    (forall j, b_cols b' !! j = idx !! j ≫= fun i => b_cols b !! i).
Proof.
  intros His. destruct (batch_inv b) as [Hr Hl].
  destruct (mapM_positions (b_cols b) idx His) as (k & Hk & Hkl & Hkj & HP).
  destruct (mapM_positions (b_schema b) idx) as (s & Hs & Hsl & _); [by rewrite <- Hl|].
  destruct (make_ok s k (b_rows b)) as (b' & Hb & _ & Hc & Hn); [auto|lia|].
  exists b'. unfold project. rewrite Hs, Hk, Hc. auto.
Qed.

Lemma project_bad_spec b idx :
  ~ Forall (fun i => i < length (b_cols b)) idx -> exists e, project b idx = Err e.
Proof.
  intros Hn. unfold project. destruct (mapM (fun i => b_cols b !! i) idx) as [cols|] eqn:Hc.
  - destruct Hn. apply mapM_Some in Hc. apply Forall_forall. intros i Hi.
    apply list_elem_of_lookup in Hi as [j Hj]. destruct (Forall2_lookup_l _ _ _ _ _ Hc Hj) as (c & _ & Hic).
    by eapply lookup_lt_Some.
  - eexists. by destruct (mapM (fun i => b_schema b !! i) idx).
Qed.

Lemma try_new_spec s cols b :
  try_new s cols = Ok b ->
  b_schema b = s /\ b_cols b = cols /\ columns_fit (H := arrow) s cols (b_rows b).
Proof.
  unfold try_new. destruct cols as [|a cols]; [done|]. intros H. res_inv H.
  apply make_inv in H0 as (<- & Hc & Hn). case_match eqn:Hf; [|done]. injection H as <-.
  destruct (batch_inv a0) as [Hr Hl]. rewrite Hc in Hr, Hl. rewrite Hn in Hr |- *.
  repeat split; [done..|]. apply fits_all in Hf; [|done].
  apply Forall2_same_length_lookup_2; [done|]. intros i f x Hi Hx. cbn.
  pose proof (Forall2_lookup_lr _ _ _ _ _ _ Hf Hi Hx) as [? ?].
  pose proof (Forall_lookup_1 _ _ _ _ Hr Hx). naive_solver.
Qed.

Lemma try_new_fitting s cols n :
  columns_fit (H := arrow) s cols n -> exists b, try_new s cols = Ok b /\ b_rows b = n.
Proof.
  intros [Hne Hf]. destruct cols as [|a cols]; [done|].
  assert (Forall (fun a => view_len a = n) (a :: cols)) as Hr.
  { apply Forall_forall. intros x (i & Hi)%list_elem_of_lookup.
    destruct (Forall2_lookup_r _ _ _ _ _ Hf Hi) as (f & _ & _ & ? & _). done. }
  pose proof (Forall_inv Hr) as Hn. unfold try_new. rewrite Hn.
  destruct (make_ok s (a :: cols) n) as (b & -> & _ & _ & <-); [done|symmetry; apply (Forall2_length _ _ _ Hf)|].
  exists b. cbn [rbind]. rewrite (proj2 (fits_all _ s _ (Forall2_length _ _ _ Hf))); [done|].
  eapply Forall2_impl; [exact Hf|]. intros f x (? & _ & ?). done.
Qed.

#[export] Instance arrow_laws : ArrowLaws (H := arrow).
Proof.
  split; try done.
  - cbn. intros s. by apply bool_decide_eq_true.
  - by intros [].
  - intros a i z. cbn. intros Hz. destruct a; cbn in *; first [discriminate | by rewrite Hz].
  - intros a l i s. cbn. intros -> Hi. cbn. by rewrite Hi.
  - intros a l i []; cbn; intros -> Hi; cbn; by rewrite Hi.
  - intros s cols n. cbn. apply try_new_fitting.
  - intros s cols b. cbn. apply try_new_spec.
  - intros s cols. cbn. unfold try_new. destruct cols; [done|].
    unfold make. destruct bool_dec; cbn; [by case_match|done].
  - intros b. apply batch_inv.
  - intros b. apply batch_inv.
  - intros b idx. cbn. apply project_spec.
  - intros b idx. cbn. apply project_bad_spec.
  - intros ps s. by eexists.
Qed.

End Plain.
