(* ===== verification/SystemTables.v ===== *)
(** System tables (crates/sql/src/catalog/mod.rs): the definitions read from
    bootstrap/system_tables.yaml and the record batches built from them.

    [Yaml] is the value type of the YAML library with the accessors the code
    calls. *)

From Stdlib Require Import SpecFloat String.
From stdpp Require Import base numbers list strings pretty.
From S2P Require Import Prelude.
From S2P Require Import RustText.
From S2P Require Import Arrow.

(** [serde_yaml::Value]: every accessor answers [None] at a value of another
    type, null included. *)
Class Yaml := {
  Value : Type;
  v_null : Value;
  is_null : Value -> bool;
  as_u64 : Value -> option Z;
  as_i64 : Value -> option Z;
  as_f64 : Value -> option spec_float;
  as_str : Value -> option string;
  as_bool : Value -> option bool;
}.

Class YamlLaws `{Yaml} := {
  is_null_null : is_null v_null = true;
  null_no_value v : is_null v = true ->
    as_u64 v = None /\ as_i64 v = None /\ as_f64 v = None /\ as_str v = None /\ as_bool v = None;
  as_u64_range v z : as_u64 v = Some z -> in_width false 64 z;
  as_i64_range v z : as_i64 v = Some z -> in_width true 64 z;
  as_f64_valid v x : as_f64 v = Some x -> valid_binary 53 1024 x = true;
}.

Record ColumnDef := mkColumnDef {
  cd_name : string;
  cd_data_type : string;
  cd_nullable : bool;
}.

Record SystemTableDef `{Yaml} := mkSystemTableDef {
  std_name : string;
  std_columns : list ColumnDef;
  std_rows : list (list Value);
}.

(** The failures [anyhow] carries. *)
Inductive AnyError `{Arrow} :=
| Message (msg : string)
| OfArrow (e : ArrowError)
| ReadFile (context : string)
| ParseYaml (context : string).

Section Catalog.
Context `{Arrow} `{Yaml}.

Definition unsupported {A} (name : string) : res AnyError A :=
  Err (Message ("unsupported type: " +:+ name)).

Definition arrow_type (name : string) : res AnyError DataType :=
  if decide (name = "UInt64") then Ok dt_UInt64
  else if decide (name = "Int64") then Ok dt_Int64
  else if decide (name = "Float64") then Ok dt_Float64
  else if decide (name = "Utf8") then Ok dt_Utf8
  else if decide (name = "Boolean") then Ok dt_Boolean
  else unsupported name.

Definition build_schema (columns : list ColumnDef) : res AnyError Schema :=
  fields <-- rmap (fun c =>
    dt <-- arrow_type (cd_data_type c) ;;
    Ok (field_new (cd_name c) dt (cd_nullable c))) columns ;;
  Ok (schema_new fields).

(** [if v.is_null() { None } else { v.as_x() }]. *)
Definition unless_null {A} (as_x : Value -> option A) (v : Value) : option A :=
  if is_null v then None else as_x v.

Definition value_to_array (values : list Value) (data_type : DataType) : res AnyError Array :=
  match type_view data_type with
  | TUInt64 => Ok (array_from (AUInt64 (unless_null as_u64 <$> values)))
  | TInt64 => Ok (array_from (AInt64 (unless_null as_i64 <$> values)))
  | TFloat64 => Ok (array_from (AFloat64 (unless_null as_f64 <$> values)))
  | TUtf8 => Ok (array_from (AString (unless_null as_str <$> values)))
  | TBoolean => Ok (array_from (ABoolean (unless_null as_bool <$> values)))
  | _ => unsupported (data_type_to_string data_type)
  end.

(** One column of the table: a row without it has a null there. *)
Definition column_values (rows : list (list Value)) (col_idx : nat) : list Value :=
  if decide (length rows = 0) then []
  else (fun row : list Value => default v_null (row !! col_idx)) <$> rows.

Definition build_record_batch (def : SystemTableDef) : res AnyError RecordBatch :=
  schema <-- build_schema (std_columns def) ;;
  columns <-- rmap (fun p : nat * ColumnDef =>
      dt <-- arrow_type (cd_data_type p.2) ;;
      value_to_array (column_values (std_rows def) p.1) dt)
    (imap (fun i c => (i, c)) (std_columns def)) ;;
  map_err OfArrow (batch_try_new schema columns).

(** [load_system_table_defs]: [read_to_string] and [from_str] are the file
    system and the YAML parser. *)
Definition load_system_table_defs
    (read_to_string : string -> option string)
    (from_str : string -> option (list SystemTableDef))
    (path : string) : res AnyError (list SystemTableDef) :=
  content <-- ok_or (ReadFile ("read system tables file: " +:+ path)) (read_to_string path) ;;
  ok_or (ParseYaml ("parse " +:+ path)) (from_str content).
End Catalog.

(** ** What a definition means *)

Section Meaning.
Context `{Arrow} `{Yaml}.

(** A cell of the column holds what the definition has there: the value, when
    it is one of the column's type, and null otherwise. *)
Definition cell_is (type : string) (v : ArrayView) (r : nat) (y : option Value) : Prop :=
  match v with
  | AUInt64 l => type = "UInt64" /\ l !! r = Some (y ≫= as_u64)
  | AInt64 l => type = "Int64" /\ l !! r = Some (y ≫= as_i64)
  | AFloat64 l => type = "Float64" /\ l !! r = Some (y ≫= as_f64)
  | AString l => type = "Utf8" /\ l !! r = Some (y ≫= as_str)
  | ABoolean l => type = "Boolean" /\ l !! r = Some (y ≫= as_bool)
  | _ => False
  end.

Definition supported (type : string) : Prop :=
  type ∈ ["UInt64"; "Int64"; "Float64"; "Utf8"; "Boolean"].

(** The value has the column's type. *)
Definition of_type (type : string) (v : Value) : Prop :=
  (type = "UInt64" /\ is_Some (as_u64 v)) \/ (type = "Int64" /\ is_Some (as_i64 v)) \/
  (type = "Float64" /\ is_Some (as_f64 v)) \/ (type = "Utf8" /\ is_Some (as_str v)) \/
  (type = "Boolean" /\ is_Some (as_bool v)).

(** A definition from which a table can be built: it has a column, every type
    is known, and columns that may not be null have a value in every row. *)
Definition usable (def : SystemTableDef) : Prop :=
  std_columns def <> [] /\
  forall i c, std_columns def !! i = Some c ->
    supported (cd_data_type c) /\
    (cd_nullable c = false -> forall r row, std_rows def !! r = Some row ->
      exists v, row !! i = Some v /\ of_type (cd_data_type c) v).

(** The batch is the table of the definition. *)
Definition batch_is (def : SystemTableDef) (b : RecordBatch) : Prop :=
  batch_num_rows b = length (std_rows def) /\
  batch_num_columns b = length (std_columns def) /\
  forall i c, std_columns def !! i = Some c ->
    exists f a, schema_fields (batch_schema b) !! i = Some f /\ batch_columns b !! i = Some a /\
      field_name f = cd_name c /\ field_is_nullable f = cd_nullable c /\
      field_data_type f = array_data_type a /\
      forall r row, std_rows def !! r = Some row ->
        cell_is (cd_data_type c) (array_view a) r (row !! i).
End Meaning.

Section Correct.
Context `{ArrowLaws} `{YamlLaws}.

Lemma arrow_type_supported t : supported t <-> exists dt, arrow_type t = Ok dt.
Proof.
  unfold supported, arrow_type. rewrite !elem_of_cons, elem_of_nil. split.
  - intros Ht. repeat (case_decide; [by eexists|]). tauto.
  - intros [dt Hdt]. repeat case_decide; first [tauto|discriminate].
Qed.

(** Converting the values of a column drops nothing but wrong types. *)
Lemma unless_null_all {A} (as_x : Value -> option A) (values : list Value) :
  (forall v, is_null v = true -> as_x v = None) ->
  unless_null as_x <$> values = as_x <$> values.
Proof.
  intros Hv. apply list_fmap_ext. intros i v _. unfold unless_null.
  destruct (is_null v) eqn:E; [by rewrite Hv|done].
Qed.

(** The array of a column of a supported type. *)
Record column_array (t : string) (values : list Value) (a : Array) (dt : DataType) : Prop := {
  ca_type : array_data_type a = dt;
  ca_len : view_len (array_view a) = length values;
  ca_cell r v : values !! r = Some v -> cell_is t (array_view a) r (Some v);
  ca_present r v : values !! r = Some v ->
    view_present (array_view a) r = Some true <-> of_type t v;
}.

(** What the five branches of [value_to_array] have in common. *)
Lemma column_array_intro {A} (as_x : Value -> option A) (con : list (option A) -> ArrayView)
    (t : string) (values : list Value) dt :
  (forall v, is_null v = true -> as_x v = None) ->
  array_data_type (array_from (con (as_x <$> values))) = dt ->
  view_wf (con (as_x <$> values)) ->
  (forall l, view_len (con l) = length l) ->
  (forall l, view_present (con l) = present l) ->
  (forall l r y, l !! r = Some (y ≫= as_x) -> cell_is t (con l) r y) ->
  (forall v, is_Some (as_x v) <-> of_type t v) ->
  column_array t values (array_from (con (unless_null as_x <$> values))) dt.
Proof.
  intros Hn Ht Hwf Hl Hp Hc Ho. rewrite (unless_null_all _ _ Hn).
  split; [done|rewrite array_view_from by done..].
  - by rewrite Hl, length_fmap.
  - intros r v Hv. apply Hc. by rewrite list_lookup_fmap, Hv.
  - intros r v Hv. rewrite Hp, <- Ho. unfold present. rewrite list_lookup_fmap, Hv. simpl.
    split; [intros [= Hb]; by apply bool_decide_eq_true in Hb|].
    intros Hb. by rewrite bool_decide_true.
Qed.

Lemma cells_wf {A} (as_x : Value -> option A) (P : A -> Prop) (values : list Value) i z :
  (forall v x, as_x v = Some x -> P x) -> mjoin ((as_x <$> values) !! i) = Some z -> P z.
Proof.
  intros HP. rewrite list_lookup_fmap. destruct (values !! i); simpl; [apply HP|done].
Qed.

Lemma value_to_array_ok t dt (values : list Value) :
  arrow_type t = Ok dt -> exists a, value_to_array values dt = Ok a /\ column_array t values a dt.
Proof.
  unfold arrow_type, value_to_array. intros Ht.
  repeat case_decide; simplify_eq;
    rewrite ?type_view_UInt64, ?type_view_Int64, ?type_view_Float64, ?type_view_Utf8,
      ?type_view_Boolean; (eexists; split; [done|]); apply column_array_intro; try done;
    try (intros v Hv; apply null_no_value in Hv; tauto);
    try (intros v; unfold of_type; intuition discriminate).
  - apply array_type_UInt64.
  - split; [|done]. intros sg w i z [= <- <-]. cbn [view_int]. apply cells_wf, as_u64_range.
  - apply array_type_Int64.
  - split; [|done]. intros sg w i z [= <- <-]. cbn [view_int]. apply cells_wf, as_i64_range.
  - apply array_type_Float64.
  - split; [done|]. apply Forall_fmap, Forall_true. intros v x. apply as_f64_valid.
  - apply array_type_Utf8.
  - apply array_type_Boolean.
Qed.

Definition field_of (c : ColumnDef) : res AnyError Field :=
  dt <-- arrow_type (cd_data_type c) ;; Ok (field_new (cd_name c) dt (cd_nullable c)).

Definition array_of (rows : list (list Value)) (p : nat * ColumnDef) : res AnyError Array :=
  dt <-- arrow_type (cd_data_type p.2) ;; value_to_array (column_values rows p.1) dt.

(** Field and array of one column. *)
Lemma column_built rows i c f a :
  field_of c = Ok f -> array_of rows (i, c) = Ok a ->
  exists dt, f = field_new (cd_name c) dt (cd_nullable c) /\
    column_array (cd_data_type c) (column_values rows i) a dt.
Proof.
  unfold field_of, array_of. cbn [fst snd]. intros Hf Ha. res_inv Hf. subst.
  rewrite Hf0 in Ha. cbn [rbind] in Ha.
  destruct (value_to_array_ok _ _ (column_values rows i) Hf0) as (a' & Ha' & Hc).
  rewrite Ha in Ha'. simplify_eq. eauto.
Qed.

Lemma column_values_lookup rows i r row :
  rows !! r = Some row -> column_values rows i !! r = Some (default v_null (row !! i)).
Proof.
  intros Hr. unfold column_values. case_decide as Hl.
  { apply length_zero_iff_nil in Hl. by subst. }
  by rewrite list_lookup_fmap, Hr.
Qed.

Lemma column_values_length rows i : length (column_values rows i) = length rows.
Proof.
  unfold column_values. case_decide as Hl; [done|]. by rewrite length_fmap.
Qed.

(** A missing cell and a null one mean the same. *)
Lemma cell_is_default t v r y :
  cell_is t v r (Some (default v_null y)) -> cell_is t v r y.
Proof.
  destruct (null_no_value v_null is_null_null) as (U & I & F & S & B).
  destruct y as [y|]; [done|]. cbn [default from_option].
  destruct v; cbn; rewrite ?U, ?I, ?F, ?S, ?B; done.
Qed.

Lemma of_type_default t y :
  of_type t (default v_null y) <-> exists v, y = Some v /\ of_type t v.
Proof.
  destruct (null_no_value v_null is_null_null) as (U & I & F & S & B).
  destruct y as [y|]; cbn [default from_option].
  - split; [by eauto|by intros (? & [= <-] & ?)].
  - split; [|by intros (? & ? & _)].
    unfold of_type. rewrite U, I, F, S, B. intros Ho. exfalso.
    repeat destruct Ho as [[_ [? ?]]|Ho]; try done. by destruct Ho as [_ [? ?]].
Qed.

(** The fields and arrays [build_record_batch] hands to the library. *)
Lemma build_record_batch_inv def b :
  build_record_batch def = Ok b ->
  exists fields arrays,
    Forall2 (fun c f => field_of c = Ok f) (std_columns def) fields /\
    Forall2 (fun p a => array_of (std_rows def) p = Ok a)
      (imap (fun i c => (i, c)) (std_columns def)) arrays /\
    batch_try_new (schema_new fields) arrays = Ok b.
Proof.
  unfold build_record_batch, build_schema. intros Hb. res_inv Hb. subst.
  exists a0, a1. split_and!; [by apply rmap_Ok..|]. by destruct batch_try_new; simplify_eq/=.
Qed.

(** The [i]-th column of a batch that was built. *)
Lemma built_column def b i c :
  build_record_batch def = Ok b -> std_columns def !! i = Some c ->
  exists f a dt, schema_fields (batch_schema b) !! i = Some f /\ batch_columns b !! i = Some a /\
    f = field_new (cd_name c) dt (cd_nullable c) /\
    column_array (cd_data_type c) (column_values (std_rows def) i) a dt /\
    supported (cd_data_type c) /\
    batch_num_rows b = length (std_rows def) /\
    (cd_nullable c = false -> forall r, r < batch_num_rows b ->
      view_present (array_view a) r = Some true).
Proof.
  intros Hb Hc. apply build_record_batch_inv in Hb as (fields & arrays & Hf & Ha & Hb).
  apply try_new_ok in Hb as (-> & -> & _ & Hfit). rewrite schema_fields_new in *.
  destruct (Forall2_lookup_l _ _ _ _ _ Hf Hc) as (f & Hfi & Hfo).
  destruct (Forall2_lookup_l _ _ _ i (i, c) Ha) as (a & Hai & Hao).
  { by rewrite list_lookup_imap, Hc. }
  destruct (column_built _ _ _ _ _ Hfo Hao) as (dt & -> & Hca).
  destruct (Forall2_lookup_lr _ _ _ _ _ _ Hfit Hfi Hai) as (_ & Hlen & Hnn).
  rewrite field_is_nullable_new in Hnn.
  exists (field_new (cd_name c) dt (cd_nullable c)), a, dt. split_and!; try done.
  - apply arrow_type_supported. unfold field_of in Hfo.
    destruct (arrow_type (cd_data_type c)) eqn:E; [by eauto|done|done].
  - by rewrite <- Hlen, (ca_len _ _ _ _ Hca), column_values_length.
Qed.

Lemma built_arity def b :
  build_record_batch def = Ok b ->
  batch_num_columns b = length (std_columns def) /\ std_columns def <> [].
Proof.
  intros Hb. apply build_record_batch_inv in Hb as (fields & arrays & Hf & Ha & Hb).
  apply try_new_ok in Hb as (_ & Hc & Hne & _). unfold batch_num_columns. rewrite Hc.
  apply Forall2_length in Ha. rewrite length_imap in Ha. split; [done|].
  destruct arrays; [done|]. by destruct (std_columns def).
Qed.

Lemma batch_is_built def b : build_record_batch def = Ok b -> batch_is def b.
Proof.
  intros Hb. destruct (built_arity _ _ Hb) as [Hn Hne]. split_and!; [|done|].
  - destruct (std_columns def) as [|c cs] eqn:E; [done|].
    destruct (built_column def b 0 c Hb) as (_ & _ & _ & _ & _ & _ & _ & _ & ? & _);
      [by rewrite E|done].
  - intros i c Hc. destruct (built_column def b i c Hb Hc)
      as (f & a & dt & Hf & Ha & -> & Hca & _ & _ & _).
    exists (field_new (cd_name c) dt (cd_nullable c)), a. split_and!; try done.
    + apply field_name_new.
    + apply field_is_nullable_new.
    + by rewrite field_data_type_new, (ca_type _ _ _ _ Hca).
    + intros r row Hr. apply cell_is_default, (ca_cell _ _ _ _ Hca).
      by apply column_values_lookup.
Qed.

Lemma built_usable def b : build_record_batch def = Ok b -> usable def.
Proof.
  intros Hb. destruct (built_arity _ _ Hb) as [_ Hne]. split; [done|].
  intros i c Hc. destruct (built_column def b i c Hb Hc)
    as (f & a & dt & _ & _ & _ & Hca & Hs & Hrows & Hnn).
  split; [done|]. intros Hnull r row Hr. apply of_type_default.
  rewrite <- (ca_present _ _ _ _ Hca r) by (by apply column_values_lookup).
  apply Hnn; [done|]. rewrite Hrows. by eapply lookup_lt_Some.
Qed.

(** The arrays of a usable definition fit its schema. *)
Lemma usable_fits def fields arrays :
  usable def ->
  Forall2 (fun c f => field_of c = Ok f) (std_columns def) fields ->
  Forall2 (fun p a => array_of (std_rows def) p = Ok a)
    (imap (fun i c => (i, c)) (std_columns def)) arrays ->
  columns_fit (schema_new fields) arrays (length (std_rows def)).
Proof.
  intros [Hne Hu] Hf Ha.
  pose proof (Forall2_length _ _ _ Hf) as Hlf. pose proof (Forall2_length _ _ _ Ha) as Hla.
  rewrite length_imap in Hla. split.
  { intros ->. simpl in Hla. destruct (std_columns def); [done|discriminate]. }
  rewrite schema_fields_new. apply Forall2_same_length_lookup_2; [congruence|].
  intros i f a Hfi Hai. destruct (Forall2_lookup_r _ _ _ _ _ Hf Hfi) as (c & Hc & Hfo).
  assert (array_of (std_rows def) (i, c) = Ok a) as Hao.
  { eapply Forall2_lookup_lr in Ha; [exact Ha| |exact Hai]. by rewrite list_lookup_imap, Hc. }
  destruct (column_built _ _ _ _ _ Hfo Hao) as (dt & -> & Hca).
  rewrite field_data_type_new, field_is_nullable_new.
  split_and!; [symmetry; apply Hca|by rewrite (ca_len _ _ _ _ Hca), column_values_length|].
  intros Hnull r Hr. destruct (lookup_lt_is_Some_2 _ _ Hr) as [row Hrow].
  apply (ca_present _ _ _ _ Hca r (default v_null (row !! i))); [by apply column_values_lookup|].
  apply of_type_default. by eapply Hu.
Qed.

Lemma usable_built def : usable def -> exists b, build_record_batch def = Ok b.
Proof.
  intros Hu. assert (forall c, c ∈ std_columns def -> supported (cd_data_type c)) as Hs.
  { intros c (i & Hi)%list_elem_of_lookup. by apply (proj2 Hu i c). }
  destruct (rmap_total field_of (std_columns def)) as [fields Hf].
  { intros c [dt Hc]%Hs%arrow_type_supported. unfold field_of. rewrite Hc. by eexists. }
  destruct (rmap_total (array_of (std_rows def)) (imap (fun i c => (i, c)) (std_columns def)))
    as [arrays Ha].
  { intros [i c] (j & Hj)%list_elem_of_lookup. rewrite list_lookup_imap in Hj.
    destruct (std_columns def !! j) as [c'|] eqn:Hc; simplify_eq/=.
    destruct (proj1 (arrow_type_supported (cd_data_type c))) as [dt Hdt].
    { eapply Hs, list_elem_of_lookup_2, Hc. }
    unfold array_of. cbn [fst snd]. rewrite Hdt. cbn [rbind].
    destruct (value_to_array_ok _ _ (column_values (std_rows def) i) Hdt) as (a & -> & _).
    by eexists. }
  destruct (try_new_fits (schema_new fields) arrays (length (std_rows def))) as (b & Hb & _).
  { eapply usable_fits; [done|by apply rmap_Ok..]. }
  exists b. unfold build_record_batch, build_schema.
  change (fun c => dt <-- arrow_type (cd_data_type c) ;; _) with field_of. rewrite Hf. cbn [rbind].
  change (fun p : nat * ColumnDef => dt <-- _ ;; _) with (array_of (std_rows def)).
  rewrite Ha. cbn [rbind]. by rewrite Hb.
Qed.

(** A system table can be built exactly from the usable definitions: at least one
    column, known types, and a value of the right type in every row of a column
    that may not be null. The batch then has one row per row of the definition
    and one column per column, with its name and nullability, and every cell is
    the value given there, null where the value is missing or has another type. *)
Theorem system_table_built def :
  (usable def <-> exists b, build_record_batch def = Ok b) /\
  (forall b, build_record_batch def = Ok b -> batch_is def b).
Proof.
  split; [split; [apply usable_built|intros [b Hb]; by eapply built_usable]|].
  apply batch_is_built.
Qed.

End Correct.

(** ** A concrete YAML value type *)

Module PlainYaml.

Inductive Val := YNull | YInt (z : Z) | YStr (s : string) | YBool (b : bool).

Definition int_in (lo hi : Z) (v : Val) : option Z :=
  match v with
  | YInt z => if decide (lo <= z < hi)%Z then Some z else None
  | _ => None
  end.

#[export] Instance yaml : Yaml := {
  Value := Val;
  v_null := YNull;
  is_null v := match v with YNull => true | _ => false end;
  as_u64 := int_in 0 (2 ^ 64);
  as_i64 := int_in (- 2 ^ 63) (2 ^ 63);
  as_f64 _ := None;
  as_str v := match v with YStr s => Some s | _ => None end;
  as_bool v := match v with YBool b => Some b | _ => None end;
}.

#[export] Instance yaml_laws : YamlLaws (H := yaml).
Proof.
  split; cbn; try done.
  - by intros [].
  - intros [|y|s|b] z; cbn; try done. case_decide; [|done]. by intros [= <-].
  - intros [|y|s|b] z; cbn; try done. case_decide; [|done]. by intros [= <-].
Qed.

(** The first rows of the table of types, one of them too short, and a flag. *)
Definition types_def : SystemTableDef (H := yaml) := mkSystemTableDef yaml "types"
  [mkColumnDef "type_id" "UInt64" false; mkColumnDef "type_name" "Utf8" false;
   mkColumnDef "bytes" "UInt64" true]
  [[YInt 1; YStr "Boolean"; YInt 1]; [YInt 12; YStr "Utf8"; YNull]; [YInt 13; YStr "Date32"]].
End PlainYaml.

Lemma system_table_built_witness :
  exists b, build_record_batch (H := Plain.arrow) PlainYaml.types_def = Ok b
    /\ batch_is (H := Plain.arrow) PlainYaml.types_def b.
Proof.
  assert (match build_record_batch (H := Plain.arrow) PlainYaml.types_def with
          | Ok _ => true | _ => false end = true) as Hok by (vm_compute; reflexivity).
  destruct (build_record_batch (H := Plain.arrow) PlainYaml.types_def) as [b| |] eqn:E;
    [|discriminate Hok..].
  exists b. split; [reflexivity|].
  apply (proj2 (system_table_built (H0 := Plain.arrow_laws)
    (H2 := PlainYaml.yaml_laws) PlainYaml.types_def)).
  exact E.
Defined.
