(* ===== verification/ServerTables.v ===== *)
(** The tables of the server: in-memory tables (server/src/provider.rs), the
    schema provider that names them (schema_provider.rs), the catalogs
    (catalog_provider.rs) and the engine state that ties them together
    (engine.rs).

    Objects the code shares through [Arc] live in a [World] and are referred
    to by their position in it, so that a table reached by two ways is one
    table. A lock is its value and whether it is poisoned. DataFusion enters
    through [Arrow] and through the calls it makes on the providers. *)

From stdpp Require Import base numbers list strings pretty gmap fin_maps.
From S2P Require Import Prelude.
From S2P Require Import Arrow.
From S2P Require Import SystemTables.

Record RwLock (A : Type) := mkRwLock { lk_value : A; lk_poisoned : bool }.
Arguments mkRwLock {A} _ _.
Arguments lk_value {A} _.
Arguments lk_poisoned {A} _.

Definition lock_new {A} (a : A) : RwLock A := mkRwLock a false.

Inductive InsertOp := Append | Overwrite | Replace.
#[export] Instance InsertOp_eq_dec : EqDecision InsertOp.
Proof. solve_decision. Defined.

Inductive DfError `{Arrow} :=
| Execution (msg : string)
| InsertSchemaMismatch (expected got : list DataType)
| InsertNotImplemented (op : InsertOp)
| DfArrow (e : ArrowError).

(** A table: the schema and the shared lock of its batches. *)
Record TodbTableProvider `{Arrow} := mkTable { tp_schema : Schema; tp_batches : nat }.

(** [Arc<dyn TableProvider>]: one of ours, or a table of another library of
    which the code asks only the schema. *)
Inductive TableProvider `{Arrow} :=
| Todb (t : TodbTableProvider)
| ForeignTable (schema : Schema).

Record TodbSink := mkSink { sink_batches : nat }.

Record TodbSchemaProvider `{Arrow} := mkSchemaProvider {
  tables : RwLock (gmap string TableProvider);
  system_tables : RwLock (gmap string TableProvider);
}.

Inductive SchemaHandle := TodbSchema (i : nat) | ForeignSchema (id : nat).
Record TodbCatalogProvider := mkCatalogProvider { schemas : RwLock (gmap string SchemaHandle) }.

Inductive CatalogHandle := TodbCatalog (i : nat) | ForeignCatalog (id : nat).
Record TodbCatalogProviderList := mkCatalogProviderList {
  catalogs : RwLock (gmap string CatalogHandle);
}.

(** The shared objects. *)
Record World `{Arrow} := mkWorld {
  w_batches : list (RwLock (list RecordBatch));
  w_schemas : list TodbSchemaProvider;
  w_catalogs : list TodbCatalogProvider;
  w_catalog_lists : list TodbCatalogProviderList;
}.

Arguments mkTable {_} _ _.
Arguments mkSchemaProvider {_} _ _.
Arguments mkWorld {_} _ _ _ _.

Section Tables.
Context `{Arrow}.

Definition set_batches (bs : list (RwLock (list RecordBatch))) (w : World) : World :=
  mkWorld bs (w_schemas w) (w_catalogs w) (w_catalog_lists w).
Definition set_schemas (ss : list TodbSchemaProvider) (w : World) : World :=
  mkWorld (w_batches w) ss (w_catalogs w) (w_catalog_lists w).
Definition set_catalogs (cs : list TodbCatalogProvider) (w : World) : World :=
  mkWorld (w_batches w) (w_schemas w) cs (w_catalog_lists w).
Definition set_catalog_lists (ls : list TodbCatalogProviderList) (w : World) : World :=
  mkWorld (w_batches w) (w_schemas w) (w_catalogs w) ls.

(** ** One table *)

Definition table_new_with_data (schema : Schema) (batches : list RecordBatch) (w : World) :
    TodbTableProvider * World :=
  (mkTable schema (length (w_batches w)), set_batches (w_batches w ++ [lock_new batches]) w).

Definition table_new (schema : Schema) (w : World) : TodbTableProvider * World :=
  table_new_with_data schema [] w.

Definition table_schema (t : TableProvider) : Schema :=
  match t with Todb t => tp_schema t | ForeignTable s => s end.

(** [row_count]: zero when the lock is poisoned. *)
Definition row_count (t : TodbTableProvider) (w : World) : nat :=
  match w_batches w !! tp_batches t with
  | Some l => if lk_poisoned l then 0 else sum_list (batch_num_rows <$> lk_value l)
  | None => 0
  end.

(** [self.batches.read().map_err(..)?]; the handle keeps the lock alive. *)
Definition lock_batches (i : nat) (w : World) : res DfError (list RecordBatch) :=
  l <-- unwrap (w_batches w !! i) ;;
  if lk_poisoned l then Err (Execution "lock poisoned: poisoned lock: another task failed inside") else Ok (lk_value l).

(** The plan of a scan over given batches. *)
Definition scan_plan (schema : Schema) (batches : list RecordBatch)
    (projection : option (list nat)) : res DfError MemoryExec :=
  projected_schema <-- match projection with
    | Some projection =>
        fields <-- rmap (schema_field schema) projection ;; Ok (schema_new fields)
    | None => Ok schema
    end ;;
  projected_batches <-- rmap (fun batch =>
    match projection with
    | Some projection => map_err DfArrow (batch_project batch projection)
    | None => Ok batch
    end) batches ;;
  map_err DfArrow (memory_exec_try_new [projected_batches] projected_schema).

Definition table_scan (t : TodbTableProvider) (projection : option (list nat)) (w : World) :
    res DfError MemoryExec :=
  batches <-- lock_batches (tp_batches t) w ;;
  scan_plan (tp_schema t) batches projection.

(** [insert_into]: the plan writes to the sink, which shares the batches. *)
Definition insert_into (t : TodbTableProvider) (input : Schema) (op : InsertOp) :
    res DfError TodbSink :=
  if negb (logically_equivalent_names_and_types (tp_schema t) input)
  then Err (InsertSchemaMismatch (field_data_type <$> schema_fields (tp_schema t))
                                 (field_data_type <$> schema_fields input))
  else if decide (op <> Append) then Err (InsertNotImplemented op)
  else Ok (mkSink (tp_batches t)).

(** The loop of [write_all] over the stream: nothing is stored before its end. *)
Fixpoint collect_stream (data : list (res DfError RecordBatch)) (new_batches : list RecordBatch)
    (rows : Z) : res DfError (list RecordBatch * Z) :=
  match data with
  | [] => Ok (new_batches, rows)
  | item :: data' =>
      batch <-- item ;;
      rows' <-- u64_add rows (Z.of_nat (batch_num_rows batch)) ;;
      collect_stream data' (new_batches ++ [batch]) rows'
  end.

Definition write_all (s : TodbSink) (data : list (res DfError RecordBatch)) (w : World) :
    World * res DfError Z :=
  match collect_stream data [] 0 with
  | Ok (new_batches, rows) =>
      match lock_batches (sink_batches s) w with
      | Ok batches =>
          (set_batches (<[sink_batches s := lock_new (batches ++ new_batches)]> (w_batches w)) w,
           Ok rows)
      | Err e => (w, Err e)
      | Panic => (w, Panic)
      end
  | Err e => (w, Err e)
  | Panic => (w, Panic)
  end.

(** ** A schema: user tables in front of system tables *)

Definition schema_provider_new : TodbSchemaProvider :=
  mkSchemaProvider (lock_new ∅) (lock_new ∅).

(** [lock.read().expect(..)] and [lock.write().expect(..)]. *)
Definition expect {E A} (l : RwLock A) : res E A :=
  if lk_poisoned l then Panic else Ok (lk_value l).

Definition register_system_table (sp : TodbSchemaProvider) (name : string)
    (table : TableProvider) : res DfError TodbSchemaProvider :=
  m <-- expect (system_tables sp) ;;
  Ok (mkSchemaProvider (tables sp) (lock_new (<[name := table]> m))).

Definition table_names (sp : TodbSchemaProvider) : res DfError (gset string) :=
  m <-- expect (tables sp) ;; Ok (dom m).

Definition table (sp : TodbSchemaProvider) (name : string) : res DfError (option TableProvider) :=
  m <-- expect (tables sp) ;;
  match m !! name with
  | Some t => Ok (Some t)
  | None => s <-- expect (system_tables sp) ;; Ok (s !! name)
  end.

(** A registered table is a new, empty one with the schema of the given one. *)
Definition register_table (sp : TodbSchemaProvider) (name : string) (t : TableProvider)
    (w : World) : World * TodbSchemaProvider * res DfError (option TableProvider) :=
  match expect (E := DfError) (tables sp) with
  | Ok m =>
      if decide (is_Some (m !! name))
      then (w, sp, Err (Execution ("table already exists: " +:+ name)))
      else
        let '(t', w') := table_new (table_schema t) w in
        (w', mkSchemaProvider (lock_new (<[name := Todb t']> m)) (system_tables sp),
         Ok (m !! name))
  | _ => (w, sp, Panic)
  end.

Definition deregister_table (sp : TodbSchemaProvider) (name : string) :
    TodbSchemaProvider * res DfError (option TableProvider) :=
  match expect (E := DfError) (tables sp) with
  | Ok m => (mkSchemaProvider (lock_new (delete name m)) (system_tables sp), Ok (m !! name))
  | _ => (sp, Panic)
  end.

Definition table_exist (sp : TodbSchemaProvider) (name : string) : res DfError bool :=
  m <-- expect (tables sp) ;;
  if decide (is_Some (m !! name)) then Ok true
  else s <-- expect (system_tables sp) ;; Ok (bool_decide (is_Some (s !! name))).

(** ** Catalogs *)

Definition catalog_provider_new : TodbCatalogProvider := mkCatalogProvider (lock_new ∅).

Definition catalog_schema_names (c : TodbCatalogProvider) : res DfError (gset string) :=
  m <-- expect (schemas c) ;; Ok (dom m).

Definition catalog_schema (c : TodbCatalogProvider) (name : string) :
    res DfError (option SchemaHandle) :=
  m <-- expect (schemas c) ;; Ok (m !! name).

Definition register_schema (c : TodbCatalogProvider) (name : string) (s : SchemaHandle) :
    res DfError (TodbCatalogProvider * option SchemaHandle) :=
  m <-- expect (schemas c) ;;
  Ok (mkCatalogProvider (lock_new (<[name := s]> m)), m !! name).

Definition deregister_schema (c : TodbCatalogProvider) (name : string) (cascade : bool) :
    res DfError (TodbCatalogProvider * option SchemaHandle) :=
  m <-- expect (schemas c) ;;
  Ok (mkCatalogProvider (lock_new (delete name m)), m !! name).

Definition catalog_list_new : TodbCatalogProviderList := mkCatalogProviderList (lock_new ∅).

Definition register_catalog (l : TodbCatalogProviderList) (name : string) (c : CatalogHandle) :
    res DfError (TodbCatalogProviderList * option CatalogHandle) :=
  m <-- expect (catalogs l) ;;
  Ok (mkCatalogProviderList (lock_new (<[name := c]> m)), m !! name).

Definition list_catalog_names (l : TodbCatalogProviderList) : res DfError (gset string) :=
  m <-- expect (catalogs l) ;; Ok (dom m).

Definition list_catalog (l : TodbCatalogProviderList) (name : string) :
    res DfError (option CatalogHandle) :=
  m <-- expect (catalogs l) ;; Ok (m !! name).

(** ** The engine *)

Definition DEFAULT_CATALOG : string := "todb".
Definition DEFAULT_SCHEMA : string := "public".
End Tables.

Record BuildVersion := mkBuildVersion { commit_short : string; build_time : string }.

Record EngineState := mkEngineState { es_catalog_list : nat; es_build_version : BuildVersion }.

Inductive EngineError `{Arrow} :=
| OfCatalog (e : AnyError)
| OfDataFusion (e : DfError).

Section Engine.
Context `{Arrow} `{Yaml}.

(** [load_system_tables]: one table per definition, with its batch. *)
Fixpoint load_tables (defs : list SystemTableDef) (w : World) :
    World * res AnyError (list (string * TableProvider)) :=
  match defs with
  | [] => (w, Ok [])
  | def :: defs' =>
      match build_record_batch def with
      | Ok batch =>
          let '(t, w1) := table_new_with_data (batch_schema batch) [batch] w in
          let '(w2, rest) := load_tables defs' w1 in
          (w2, ts <-- rest ;; Ok ((std_name def, Todb t) :: ts))
      | Err e => (w, Err e)
      | Panic => (w, Panic)
      end
  end.

Definition load_system_tables (defs : res AnyError (list SystemTableDef)) (w : World) :
    World * res AnyError (list (string * TableProvider)) :=
  match defs with
  | Ok defs => load_tables defs w
  | Err e => (w, Err e)
  | Panic => (w, Panic)
  end.

(** [EngineState::new], given what [load_system_table_defs] returns. *)
Definition engine_new (version : BuildVersion) (defs : res AnyError (list SystemTableDef))
    (w : World) : World * res EngineError EngineState :=
  let '(w1, loaded) := load_system_tables defs w in
  let r :=
    system_tables <-- map_err OfCatalog loaded ;;
    sp <-- map_err OfDataFusion
      (rfold (fun sp p => register_system_table sp p.1 p.2) system_tables schema_provider_new) ;;
    let! (c, _) := map_err OfDataFusion
      (register_schema catalog_provider_new DEFAULT_SCHEMA (TodbSchema (length (w_schemas w1)))) in
    let! (l, _) := map_err OfDataFusion
      (register_catalog catalog_list_new DEFAULT_CATALOG (TodbCatalog (length (w_catalogs w1)))) in
    Ok (sp, c, l) in
  match r with
  | Ok (sp, c, l) =>
      (mkWorld (w_batches w1) (w_schemas w1 ++ [sp]) (w_catalogs w1 ++ [c])
         (w_catalog_lists w1 ++ [l]),
       Ok (mkEngineState (length (w_catalog_lists w1)) version))
  | Err e => (w1, Err e)
  | Panic => (w1, Panic)
  end.

(** [EngineState::schema_provider]: a missing default unwinds. *)
Definition engine_schema_provider (e : EngineState) (w : World) : res DfError SchemaHandle :=
  l <-- unwrap (w_catalog_lists w !! es_catalog_list e) ;;
  h <-- list_catalog l DEFAULT_CATALOG ;;
  ch <-- unwrap h ;;
  match ch with
  | TodbCatalog i =>
      c <-- unwrap (w_catalogs w !! i) ;;
      s <-- catalog_schema c DEFAULT_SCHEMA ;;
      unwrap s
  | ForeignCatalog _ => Panic
  end.
End Engine.

(** ** The calls a session makes

    Statements reach the tables through the default schema: a name is looked
    up and the table it names is asked to scan or insert. *)

Section Calls.
Context `{Arrow}.

Inductive Call :=
| RegisterTable (name : string) (t : TableProvider)
| DeregisterTable (name : string)
| InsertInto (name : string) (input : Schema) (op : InsertOp)
    (data : list (res DfError RecordBatch))
| Scan (name : string) (projection : option (list nat))
| TableNames
| TableExist (name : string).

(** What the caller sees. A table that was removed is seen by its schema. *)
Inductive Answer :=
| ANoTable
| ARegister (r : res DfError (option Schema))
| ADeregister (r : res DfError (option Schema))
| AInsert (r : res DfError Z)
| AScan (r : res DfError MemoryExec)
| ANames (r : res DfError (gset string))
| AExist (r : res DfError bool)
| AFailed.

Definition seen (o : option TableProvider) : option Schema := table_schema <$> o.

Definition rmap_value {E A B} (f : A -> B) (r : res E A) : res E B := a <-- r ;; Ok (f a).

(** Looks the name up and runs [k] on the table. *)
Definition on_table (sp : TodbSchemaProvider) (name : string) (w : World)
    (k : TodbTableProvider -> World * Answer) : World * Answer :=
  match table sp name with
  | Ok (Some (Todb t)) => k t
  | Ok (Some (ForeignTable _)) | Ok None => (w, ANoTable)
  | _ => (w, AFailed)
  end.

(** A call on the schema provider at position [i]. *)
Definition call_schema (i : nat) (sp : TodbSchemaProvider) (c : Call) (w : World) :
    World * Answer :=
  match c with
  | RegisterTable name t =>
      let '(w', sp', r) := register_table sp name t w in
      (set_schemas (<[i := sp']> (w_schemas w')) w', ARegister (rmap_value seen r))
  | DeregisterTable name =>
      let '(sp', r) := deregister_table sp name in
      (set_schemas (<[i := sp']> (w_schemas w)) w, ADeregister (rmap_value seen r))
  | InsertInto name input op data =>
      on_table sp name w (fun t =>
        match insert_into t input op with
        | Ok sink => let '(w', r) := write_all sink data w in (w', AInsert r)
        | Err e => (w, AInsert (Err e))
        | Panic => (w, AInsert Panic)
        end)
  | Scan name projection => on_table sp name w (fun t => (w, AScan (table_scan t projection w)))
  | TableNames => (w, ANames (table_names sp))
  | TableExist name => (w, AExist (table_exist sp name))
  end.

Definition call_engine (e : EngineState) (c : Call) (w : World) : World * Answer :=
  match engine_schema_provider e w with
  | Ok (TodbSchema i) =>
      match w_schemas w !! i with
      | Some sp => call_schema i sp c w
      | None => (w, AFailed)
      end
  | _ => (w, AFailed)
  end.

Fixpoint run_engine (e : EngineState) (cs : list Call) (w : World) : World * list Answer :=
  match cs with
  | [] => (w, [])
  | c :: cs' =>
      let '(w', a) := call_engine e c w in
      let '(w'', r) := run_engine e cs' w' in (w'', a :: r)
  end.
End Calls.

(** ** The database the calls implement *)

(** Tables by name, each with its schema and its batches; no sharing. *)
Record Db `{Arrow} := mkDb {
  db_user : gmap string (Schema * list RecordBatch);
  db_system : gmap string (Schema * list RecordBatch);
}.

Arguments mkDb {_} _ _.

Section Spec.
Context `{Arrow}.

(** Which of the two maps a name resolves in. *)
Definition db_resolve (db : Db) (name : string) : option (bool * (Schema * list RecordBatch)) :=
  match db_user db !! name with
  | Some t => Some (false, t)
  | None => pair true <$> db_system db !! name
  end.

Definition db_set (system : bool) (name : string) (t : Schema * list RecordBatch) (db : Db) : Db :=
  if system then mkDb (db_user db) (<[name := t]> (db_system db))
  else mkDb (<[name := t]> (db_user db)) (db_system db).

(** The rows of some batches. *)
Definition total_rows (bs : list RecordBatch) : Z := foldr (fun b n => Z.of_nat (batch_num_rows b) + n)%Z 0%Z bs.

(** What inserting a stream of items may answer, and what it stores: all the
    batches of the stream with their number of rows; or nothing, with the first
    error of the stream; or nothing, unwinding where an item does or where the
    count of rows leaves its type. *)
Definition insert_outcome (data : list (res DfError RecordBatch)) (stored : list RecordBatch) (r : res DfError Z) : Prop :=
  match r with
  | Ok n => data = Ok <$> stored /\ n = total_rows stored /\ (n <= u64_max)%Z
  | Err e => stored = [] /\ exists before after, data = (Ok <$> before) ++ Err e :: after
  | Panic => stored = [] /\ exists before after, data = (Ok <$> before) ++ after
      /\ (head after = Some Panic \/ (u64_max < total_rows before)%Z)
  end.

(** The batch [b'] has the columns [idx] of [b]. *)
Definition projects (idx : list nat) (b b' : RecordBatch) : Prop :=
  batch_num_rows b' = batch_num_rows b
  /\ forall j, batch_columns b' !! j = idx !! j ≫= fun i => batch_columns b !! i.

(** What a scan of a table may answer: all its batches in order, whole or with
    the columns asked for. It fails when a batch has not got such a column, and
    unwinds when the schema has not. *)
Definition scan_answers (schema : Schema) (batches : list RecordBatch) (projection : option (list nat))
    (r : res DfError MemoryExec) : Prop :=
  match projection with
  | None => exists p, r = Ok p /\ exec_schema p = schema /\ exec_batches p = batches
  | Some idx =>
      if decide (Forall (fun i => i < length (schema_fields schema)) idx) then
        match r with
        | Ok p => (forall j, schema_fields (exec_schema p) !! j = idx !! j ≫= fun i => schema_fields schema !! i)
            /\ Forall2 (projects idx) batches (exec_batches p)
        | Err _ => Exists (fun b => ~ Forall (fun i => i < length (batch_columns b)) idx) batches
        | Panic => False
        end
      else r = Panic
  end.

(** The calls on the database: [a] may be the answer to [c], and [db'] the
    database after it. *)
Definition db_call (c : Call) (db db' : Db) (a : Answer) : Prop :=
  match c with
  | RegisterTable name t =>
      if decide (is_Some (db_user db !! name))
      then db' = db /\ a = ARegister (Err (Execution ("table already exists: " +:+ name)))
      else db' = db_set false name (table_schema t, []) db /\ a = ARegister (Ok None)
  | DeregisterTable name =>
      db' = mkDb (delete name (db_user db)) (db_system db) /\ a = ADeregister (Ok (fst <$> db_user db !! name))
  | InsertInto name input op data =>
      match db_resolve db name with
      | None => db' = db /\ a = ANoTable
      | Some (system, (schema, batches)) =>
          if logically_equivalent_names_and_types schema input then
            if decide (op = Append) then
              exists stored r, insert_outcome data stored r
                /\ db' = db_set system name (schema, batches ++ stored) db /\ a = AInsert r
            else db' = db /\ a = AInsert (Err (InsertNotImplemented op))
          else db' = db /\ a = AInsert (Err (InsertSchemaMismatch
                 (field_data_type <$> schema_fields schema) (field_data_type <$> schema_fields input)))
      end
  | Scan name projection =>
      db' = db /\
      match db_resolve db name with
      | None => a = ANoTable
      | Some (_, (schema, batches)) => exists r, a = AScan r /\ scan_answers schema batches projection r
      end
  | TableNames => db' = db /\ a = ANames (Ok (dom (db_user db)))
  | TableExist name => db' = db /\ a = AExist (Ok (bool_decide (is_Some (db_resolve db name))))
  end.

(** The answers [l] are answers of the database to the calls [cs]. *)
Fixpoint db_answers (cs : list Call) (db : Db) (l : list Answer) : Prop :=
  match cs, l with
  | [], [] => True
  | c :: cs', a :: l' => exists db', db_call c db db' a /\ db_answers cs' db' l'
  | _, _ => False
  end.
End Spec.

(** ** The refinement *)

Section Refine.
Context `{ArrowLaws}.

(** A table is named by the map it is in and its name. *)
Definition tbl (sp : TodbSchemaProvider) (k : bool * string) : option TableProvider :=
  lk_value (if k.1 then system_tables sp else tables sp) !! k.2.

Definition dbt (db : Db) (k : bool * string) : option (Schema * list RecordBatch) :=
  (if k.1 then db_system db else db_user db) !! k.2.

(** The table at the end of a handle has these contents. *)
Definition holds (w : World) (p : TableProvider) (c : Schema * list RecordBatch) : Prop :=
  exists t, p = Todb t /\ c.1 = tp_schema t /\ w_batches w !! tp_batches t = Some (lock_new c.2).

(** Names of the provider and of the database agree, locks are not poisoned,
    and no two names share the batches of a table. *)
Record rep (w : World) (sp : TodbSchemaProvider) (db : Db) : Prop := {
  rep_tables_open : lk_poisoned (tables sp) = false;
  rep_system_open : lk_poisoned (system_tables sp) = false;
  rep_contents k : option_relation (holds w) (fun _ => False) (fun _ => False) (tbl sp k) (dbt db k);
  rep_distinct k1 k2 t1 t2 :
    tbl sp k1 = Some (Todb t1) -> tbl sp k2 = Some (Todb t2) ->
    tp_batches t1 = tp_batches t2 -> k1 = k2;
}.

Definition sp_set (k : bool * string) (p : TableProvider) (sp : TodbSchemaProvider) :
    TodbSchemaProvider :=
  if k.1 then mkSchemaProvider (tables sp) (lock_new (<[k.2 := p]> (lk_value (system_tables sp))))
  else mkSchemaProvider (lock_new (<[k.2 := p]> (lk_value (tables sp)))) (system_tables sp).

Lemma tbl_set k k' p sp : tbl (sp_set k p sp) k' = if decide (k = k') then Some p else tbl sp k'.
Proof.
  destruct k as [[] n], k' as [[] n']; unfold tbl, sp_set; cbn; case_decide; simplify_eq;
    by rewrite ?lookup_insert_eq, ?lookup_insert_ne by congruence.
Qed.

Lemma dbt_set k k' c db :
  dbt (db_set k.1 k.2 c db) k' = if decide (k = k') then Some c else dbt db k'.
Proof.
  destruct k as [[] n], k' as [[] n']; unfold dbt, db_set; cbn; case_decide; simplify_eq;
    by rewrite ?lookup_insert_eq, ?lookup_insert_ne by congruence.
Qed.

Lemma rep_lookup w sp db k p :
  rep w sp db -> tbl sp k = Some p ->
  exists t b, p = Todb t /\ dbt db k = Some (tp_schema t, b) /\
    w_batches w !! tp_batches t = Some (lock_new b).
Proof.
  intros R Hk. pose proof (rep_contents _ _ _ R k) as Hc. rewrite Hk in Hc.
  destruct (dbt db k) as [[s b]|]; [|done]. destruct Hc as (t & -> & Hs & Hb). cbn in *. subst. eauto.
Qed.

Lemma rep_missing w sp db k : rep w sp db -> tbl sp k = None -> dbt db k = None.
Proof.
  intros R Hk. pose proof (rep_contents _ _ _ R k) as Hc. rewrite Hk in Hc. by destruct (dbt db k).
Qed.

(** Only the batches of the world matter. *)
Lemma rep_world w w' sp db : w_batches w' = w_batches w -> rep w sp db -> rep w' sp db.
Proof.
  intros Hw R. split; [apply R..| |apply R].
  intros k. pose proof (rep_contents _ _ _ R k) as Hc. unfold holds in *. by rewrite Hw.
Qed.

(** A table whose batches belong to no other name can be put under a name. *)
Lemma rep_put w sp db k t b :
  rep w sp db -> w_batches w !! tp_batches t = Some (lock_new b) ->
  (forall k' t', tbl sp k' = Some (Todb t') -> tp_batches t' = tp_batches t -> k' = k) ->
  rep w (sp_set k (Todb t) sp) (db_set k.1 k.2 (tp_schema t, b) db).
Proof.
  intros R Hb Hown. split.
  - destruct k as [[] n]; [apply R|done].
  - destruct k as [[] n]; [done|apply R].
  - intros k'. rewrite tbl_set, dbt_set. case_decide; [|apply R]. cbn. by eexists.
  - intros k1 k2 t1 t2. rewrite !tbl_set.
    repeat case_decide; intros; simplify_eq; try done.
    + symmetry. by eapply Hown.
    + by eapply Hown.
    + by eapply (rep_distinct _ _ _ R).
Qed.

(** A new lock is behind no name. *)
Lemma rep_alloc w sp db b :
  rep w sp db -> rep (set_batches (w_batches w ++ [lock_new b]) w) sp db.
Proof.
  intros R. split; [apply R..| |apply R].
  intros k. pose proof (rep_contents _ _ _ R k) as Hc.
  destruct (tbl sp k) as [p|], (dbt db k); try done. destruct Hc as (t & -> & Hs & Hb).
  exists t. split_and!; [done..|]. cbn. by apply lookup_app_l_Some.
Qed.

Lemma rep_fresh w sp db k t :
  rep w sp db -> tbl sp k = Some (Todb t) -> tp_batches t < length (w_batches w).
Proof.
  intros R Hk. destruct (rep_lookup _ _ _ _ _ R Hk) as (t' & b & [= <-] & _ & Hb).
  by eapply lookup_lt_Some.
Qed.

Lemma rep_new_table w sp db k s b :
  rep w sp db ->
  rep (set_batches (w_batches w ++ [lock_new b]) w)
    (sp_set k (Todb (mkTable s (length (w_batches w)))) sp) (db_set k.1 k.2 (s, b) db).
Proof.
  intros R. apply (rep_put _ sp db k (mkTable s (length (w_batches w))) b).
  - by apply rep_alloc.
  - cbn. by apply list_lookup_middle.
  - intros k' t' Hk' Heq. cbn in Heq. pose proof (rep_fresh _ _ _ _ _ R Hk'). lia.
Qed.

(** Rewriting the batches of one table changes the contents of its name only. *)
Lemma rep_write w sp db k t b' :
  rep w sp db -> tbl sp k = Some (Todb t) ->
  rep (set_batches (<[tp_batches t := lock_new b']> (w_batches w)) w) sp
    (db_set k.1 k.2 (tp_schema t, b') db).
Proof.
  intros R Hk. pose proof (rep_fresh _ _ _ _ _ R Hk) as Hlt.
  split; [apply R..| |apply R].
  intros k'. rewrite dbt_set. case_decide as Heq.
  - subst k'. rewrite Hk. exists t. split_and!; [done..|]. cbn. by apply list_lookup_insert_eq.
  - pose proof (rep_contents _ _ _ R k') as Hc. destruct (tbl sp k') as [p|] eqn:Hk', (dbt db k'); try done.
    destruct Hc as (t' & -> & Hs & Hb). exists t'. split_and!; [done..|]. cbn.
    rewrite list_lookup_insert_ne; [done|]. intros E. by pose proof (rep_distinct _ _ _ R _ _ _ _ Hk Hk' E).
Qed.

(** Batches that no name leads to may be written without effect: a sink that
    outlives its table. *)
Lemma rep_orphan_write w sp db i b' :
  rep w sp db -> (forall k t, tbl sp k = Some (Todb t) -> tp_batches t <> i) ->
  rep (set_batches (<[i := b']> (w_batches w)) w) sp db.
Proof.
  intros R Hi. split; [apply R..| |apply R].
  intros k. pose proof (rep_contents _ _ _ R k) as Hc.
  destruct (tbl sp k) as [p|] eqn:Hk, (dbt db k); try done.
  destruct Hc as (t & -> & Hs & Hb). exists t. split_and!; [done..|]. cbn.
  rewrite list_lookup_insert_ne; [done|]. intros E. by eapply Hi.
Qed.

Lemma rep_drop w sp db name :
  rep w sp db ->
  rep w (mkSchemaProvider (lock_new (delete name (lk_value (tables sp)))) (system_tables sp))
    (mkDb (delete name (db_user db)) (db_system db)).
Proof.
  intros R. set (sp' := mkSchemaProvider _ _). set (db' := mkDb _ _).
  assert (forall k, tbl sp' k = if decide (k = (false, name)) then None else tbl sp k) as Ht.
  { intros [[] n]; unfold tbl; cbn; case_decide; simplify_eq;
      by rewrite ?lookup_delete_eq, ?lookup_delete_ne by congruence. }
  assert (forall k, dbt db' k = if decide (k = (false, name)) then None else dbt db k) as Hd.
  { intros [[] n]; unfold dbt; cbn; case_decide; simplify_eq;
      by rewrite ?lookup_delete_eq, ?lookup_delete_ne by congruence. }
  split; [done|apply R| |].
  - intros k. rewrite Ht, Hd. case_decide; [done|]. apply R.
  - intros k1 k2 t1 t2. rewrite !Ht. repeat case_decide; try done. apply R.
Qed.

(** A name resolves to the same table on both sides. *)
Lemma table_resolves w sp db name :
  rep w sp db ->
  match db_resolve db name with
  | None => table sp name = Ok None
  | Some (system, (s, b)) =>
      exists t, table sp name = Ok (Some (Todb t)) /\ tbl sp (system, name) = Some (Todb t) /\
        tp_schema t = s /\ w_batches w !! tp_batches t = Some (lock_new b)
  end.
Proof.
  intros R. pose proof (rep_contents _ _ _ R (false, name)) as Hu.
  pose proof (rep_contents _ _ _ R (true, name)) as Hs.
  unfold tbl, dbt in *. cbn in Hu, Hs.
  unfold table, expect, db_resolve. rewrite (rep_tables_open _ _ _ R), (rep_system_open _ _ _ R).
  cbn. destruct (lk_value (tables sp) !! name) as [p|] eqn:Ep,
    (db_user db !! name) as [[s b]|]; try done.
  { destruct Hu as (t & -> & ? & ?). by exists t. }
  destruct (lk_value (system_tables sp) !! name) as [p|] eqn:Es,
    (db_system db !! name) as [[s b]|]; try done.
  destruct Hs as (t & -> & ? & ?). by exists t.
Qed.

Lemma user_table_iff w sp db name :
  rep w sp db -> is_Some (lk_value (tables sp) !! name) <-> is_Some (db_user db !! name).
Proof.
  intros R. pose proof (rep_contents _ _ _ R (false, name)) as Hu. unfold tbl, dbt in Hu.
  cbn in Hu. destruct (lk_value _ !! name), (db_user db !! name); try done; split; by eauto.
Qed.

(** The engine finds its schema provider at [i]. *)
Definition engine_at (e : EngineState) (w : World) (i : nat) (sp : TodbSchemaProvider) : Prop :=
  engine_schema_provider e w = Ok (TodbSchema i) /\ w_schemas w !! i = Some sp.

Lemma engine_at_batches e w i sp bs : engine_at e w i sp -> engine_at e (set_batches bs w) i sp.
Proof. done. Qed.

Lemma engine_at_update e w i sp sp' bs :
  engine_at e w i sp ->
  engine_at e (set_schemas (<[i := sp']> (w_schemas w)) (set_batches bs w)) i sp'.
Proof.
  intros [He Hi]. split; [done|]. cbn. apply list_lookup_insert_eq. by eapply lookup_lt_Some.
Qed.

Lemma set_batches_same w : set_batches (w_batches w) w = w.
Proof. by destruct w. Qed.

Lemma db_set_same db system name c : dbt db (system, name) = Some c -> db_set system name c db = db.
Proof. unfold dbt, db_set. destruct db, system; cbn; intros Hl; by rewrite insert_id. Qed.

Lemma total_rows_app l l' : total_rows (l ++ l') = (total_rows l + total_rows l')%Z.
Proof. induction l as [|b l IH]; cbn [total_rows foldr app]; [done|]. unfold total_rows in *. lia. Qed.

(** The loop of [write_all], from the batches [acc] on. *)
Lemma collect_stream_spec data : forall acc,
  match collect_stream data acc (total_rows acc) with
  | Ok (new, n) => exists stored, new = acc ++ stored /\ data = Ok <$> stored /\ n = total_rows new
      /\ (stored = [] \/ n <= u64_max)%Z
  | Err e => exists before after, data = (Ok <$> before) ++ Err e :: after
  | Panic => exists before after, data = (Ok <$> before) ++ after
      /\ (head after = Some Panic \/ (u64_max < total_rows (acc ++ before))%Z)
  end.
Proof.
  induction data as [|item data IH]; intros acc; cbn [collect_stream].
  { exists []. rewrite app_nil_r. by split_and!; [..|left]. }
  destruct item as [b|e|]; cbn [rbind]; [|by exists [], data|by exists [], (Panic :: data); split; [|left]].
  assert (total_rows acc + Z.of_nat (batch_num_rows b) = total_rows (acc ++ [b]))%Z as Hr
    by (rewrite total_rows_app; cbn; lia).
  unfold u64_add. rewrite Hr. case_decide as Hd; cbn [rbind].
  2:{ exists [b], data. split; [done|]. right. lia. }
  specialize (IH (acc ++ [b])). destruct (collect_stream data (acc ++ [b]) _) as [[new n]|e|].
  - destruct IH as (stored & -> & -> & -> & Hn). exists (b :: stored). rewrite <- app_assoc. split_and!; try done.
    right. destruct Hn as [->|Hn]; [by rewrite app_nil_r|]. by rewrite <- app_assoc in Hn.
  - destruct IH as (before & after & ->). by exists (b :: before), after.
  - destruct IH as (before & after & -> & Hp). exists (b :: before), after. split; [done|]. by rewrite <- app_assoc in Hp.
Qed.

(** A scan answers as the database does. *)
Lemma scan_plan_answers schema batches projection :
  scan_answers schema batches projection (scan_plan schema batches projection).
Proof.
  unfold scan_plan, scan_answers. destruct projection as [idx|]; cbn [rbind].
  2:{ replace (rmap _ batches) with (Ok batches : res DfError (list RecordBatch)).
      - cbn [rbind]. destruct (memory_exec_ok [batches] schema) as (p & -> & Hs & Hb). exists p.
        split_and!; [done|done|]. rewrite Hb. cbn. by rewrite app_nil_r.
      - symmetry. apply rmap_Ok. by apply Forall_Forall2_diag, Forall_true. }
  case_decide as Hin.
  - destruct (rmap_total (E := DfError) (schema_field schema) idx) as [fields Hf].
    { intros i Hi. rewrite Forall_forall in Hin. destruct (lookup_lt_is_Some_2 _ _ (Hin i Hi)) as [f Hl].
      exists f. unfold schema_field. by rewrite Hl. }
    rewrite Hf. cbn [rbind]. apply rmap_Ok in Hf.
    destruct (rmap _ batches) as [bs|e|] eqn:Hp; cbn [rbind].
    + destruct (memory_exec_ok [bs] (schema_new fields)) as (p & -> & Hs & Hb). cbn [map_err]. split.
      * intros j. rewrite Hs, schema_fields_new. destruct (idx !! j) as [i|] eqn:Hj; cbn.
        -- destruct (Forall2_lookup_l _ _ _ _ _ Hf Hj) as (f & -> & Hfi). unfold schema_field in Hfi.
           destruct (schema_fields schema !! i); [|done]. by injection Hfi as ->.
        -- apply lookup_ge_None in Hj. apply lookup_ge_None. by rewrite <- (Forall2_length _ _ _ Hf).
      * rewrite Hb. cbn. rewrite app_nil_r. apply rmap_Ok in Hp. eapply Forall2_impl; [exact Hp|].
        intros b b' Hbb. cbn beta in Hbb. destruct (decide (Forall (fun i => i < length (batch_columns b)) idx)) as [Hr|Hr].
        -- destruct (project_ok b idx Hr) as (b1 & Hb1 & Hn & Hc). rewrite Hb1 in Hbb. injection Hbb as ->. by split.
        -- destruct (project_out_of_bounds b idx Hr) as [e He]. by rewrite He in Hbb.
    + clear -Hp H0. induction batches as [|b bs IH]; cbn in Hp; [done|].
      destruct (decide (Forall (fun i => i < length (batch_columns b)) idx)) as [Hr|Hr]; [|by left].
      right. apply IH. destruct (project_ok b idx Hr) as (b1 & Hb1 & _). rewrite Hb1 in Hp. cbn in Hp.
      by destruct (rmap _ bs); simplify_eq/=.
    + clear -Hp H0. induction batches as [|b bs IH]; cbn in Hp; [done|]. apply IH.
      destruct (decide (Forall (fun i => i < length (batch_columns b)) idx)) as [Hr|Hr].
      * destruct (project_ok b idx Hr) as (b1 & Hb1 & _). rewrite Hb1 in Hp. cbn in Hp. by destruct (rmap _ bs).
      * destruct (project_out_of_bounds b idx Hr) as [e He]. by rewrite He in Hp.
  - replace (rmap (schema_field schema) idx) with (Panic : res DfError (list Field)); [done|]. symmetry.
    clear -Hin. induction idx as [|i idx IH]; [by destruct Hin|]. cbn. unfold schema_field at 1.
    destruct (schema_fields schema !! i) as [f|] eqn:Hl; cbn; [|done]. rewrite IH; [done|].
    intros HF. apply Hin. constructor; [by eapply lookup_lt_Some|done].
Qed.

(** An insert on a table that the database resolves. *)
Lemma insert_refines w sp db system name t b input op data :
  rep w sp db -> tbl sp (system, name) = Some (Todb t) ->
  w_batches w !! tp_batches t = Some (lock_new b) ->
  db_resolve db name = Some (system, (tp_schema t, b)) -> dbt db (system, name) = Some (tp_schema t, b) ->
  let '(w', a) := match insert_into t input op with
    | Ok sink => let '(w', r) := write_all sink data w in (w', AInsert r)
    | Err e => (w, AInsert (Err e))
    | Panic => (w, AInsert Panic)
    end in
  exists db', db_call (InsertInto name input op data) db db' a /\ rep w' sp db' /\ exists bs, w' = set_batches bs w.
Proof.
  intros R Hk Hb Hres Hdb. assert (exists bs, w = set_batches bs w) as Hw
    by (eexists; symmetry; apply set_batches_same).
  cbn [db_call]. rewrite Hres. unfold insert_into.
  destruct logically_equivalent_names_and_types; cbn [negb]; [|by exists db].
  destruct (decide (op = Append)) as [->|Hop].
  2:{ rewrite decide_True by done. by exists db. }
  rewrite decide_False by auto. unfold write_all. cbn [sink_batches].
  pose proof (collect_stream_spec data []) as Hs. change (total_rows []) with 0%Z in Hs.
  destruct (collect_stream data [] 0) as [[new rows]|e|].
  - destruct Hs as (stored & -> & -> & -> & Hn). unfold lock_batches. rewrite Hb. cbn. eexists. split.
    { exists stored, (Ok (total_rows stored)). split; [|by split]. split_and!; [done|done|].
      destruct Hn as [->|Hn]; [|done]. unfold u64_max. cbn. lia. }
    split; [|by eexists]. by apply (rep_write w sp db (system, name) t).
  - exists db. split; [|done]. exists [], (Err e). split; [by split|]. rewrite app_nil_r. by rewrite db_set_same.
  - exists db. split; [|done]. exists [], Panic. split; [by split|]. rewrite app_nil_r. by rewrite db_set_same.
Qed.

Lemma resolve_dbt db name system c : db_resolve db name = Some (system, c) -> dbt db (system, name) = Some c.
Proof.
  unfold db_resolve, dbt. destruct (db_user db !! name) eqn:Hu; [by intros [= <- <-]|].
  destruct (db_system db !! name) eqn:Hs; [by intros [= <- <-]|done].
Qed.

Lemma call_refines e w i sp db c :
  engine_at e w i sp -> rep w sp db ->
  let '(w', a) := call_engine e c w in
  exists db', db_call c db db' a /\ exists sp', engine_at e w' i sp' /\ rep w' sp' db'.
Proof.
  intros [He Hi] R. unfold call_engine. rewrite He, Hi.
  pose proof (rep_tables_open _ _ _ R) as Ho. pose proof (rep_system_open _ _ _ R) as Ho'.
  destruct c as [name t|name|name input op data|name projection| |name]; cbn [call_schema].
  - cbn [db_call]. unfold register_table, expect. rewrite Ho.
    pose proof (user_table_iff w sp db name R) as Hiff.
    destruct (decide (is_Some (lk_value (tables sp) !! name))) as [Hs|Hs].
    + exists db. rewrite decide_True by (by apply Hiff). split; [done|].
      exists sp. split; [|by apply (rep_world w)].
      by apply (engine_at_update e w i sp sp (w_batches w)).
    + eexists. rewrite decide_False by (by rewrite <- Hiff). cbn. split.
      * split; [done|]. by rewrite (proj2 (eq_None_not_Some _) Hs).
      * eexists. split; [by eapply engine_at_update|].
        eapply rep_world; [|apply (rep_new_table w sp db (false, name)), R]. done.
  - cbn [db_call]. unfold deregister_table, expect. rewrite Ho. cbn. eexists. split.
    + split; [done|].
      pose proof (rep_contents _ _ _ R (false, name)) as Hu. unfold tbl, dbt in Hu. cbn in Hu.
      destruct (lk_value (tables sp) !! name) as [p|], (db_user db !! name) as [[]|]; try done.
      destruct Hu as (t & -> & ? & _). cbn in *. by subst.
    + eexists. split; [by apply (engine_at_update e w i sp _ (w_batches w))|].
      apply (rep_world w); [done|]. by apply rep_drop.
  - pose proof (table_resolves w sp db name R) as Hr. unfold on_table.
    destruct (db_resolve db name) as [[system [s b]]|] eqn:Hres.
    + destruct Hr as (t & -> & Hk & <- & Hb).
      pose proof (insert_refines w sp db system name t b input op data R Hk Hb Hres (resolve_dbt _ _ _ _ Hres)) as Hins.
      destruct (match insert_into t input op with Ok _ => _ | Err _ => _ | Panic => _ end) as [w' a].
      destruct Hins as (db' & Hc & R' & bs & ->). exists db'. split; [done|]. exists sp. by split.
    + rewrite Hr. exists db. cbn [db_call]. rewrite Hres. split; [done|]. by exists sp.
  - pose proof (table_resolves w sp db name R) as Hr. unfold on_table.
    destruct (db_resolve db name) as [[system [s b]]|] eqn:Hres.
    + destruct Hr as (t & -> & Hk & <- & Hb). exists db. split; [|by exists sp]. cbn [db_call]. split; [done|].
      rewrite Hres. eexists. split; [done|]. unfold table_scan, lock_batches. rewrite Hb. cbn. apply scan_plan_answers.
    + rewrite Hr. exists db. cbn [db_call]. rewrite Hres. split; [done|]. by exists sp.
  - exists db. cbn [db_call]. unfold table_names, expect. rewrite Ho. cbn. split; [|by exists sp].
    split; [done|]. do 2 f_equal. apply set_eq. intros n. rewrite !elem_of_dom. by eapply user_table_iff.
  - exists db. cbn [db_call]. pose proof (table_resolves w sp db name R) as Hr.
    unfold table_exist, table, expect in *. rewrite Ho, Ho' in *. cbn in *. split; [|by exists sp]. split; [done|].
    destruct (db_resolve db name) as [[system [s b]]|];
      [destruct Hr as (t & Hr & _)|]; destruct (lk_value (tables sp) !! name); try done;
      injection Hr as Hr; by rewrite Hr.
Qed.

Lemma run_refines e cs w i sp db :
  engine_at e w i sp -> rep w sp db -> db_answers cs db (run_engine e cs w).2.
Proof.
  revert w sp db. induction cs as [|c cs IH]; intros w sp db He R; [done|].
  cbn [run_engine]. pose proof (call_refines e w i sp db c He R) as Hc.
  destruct (call_engine e c w) as [w' a]. destruct Hc as (db' & Hc & sp' & He' & R').
  specialize (IH w' sp' db' He' R'). destruct (run_engine e cs w') as [w'' r]. cbn in *. by exists db'.
Qed.
End Refine.

(** ** The engine starts with the system tables *)

Section Start.
Context `{ArrowLaws} `{Yaml}.

(** The database after start-up: a later definition of a name wins. *)
Definition db_initial (defs : list SystemTableDef) (bs : list RecordBatch) : Db :=
  foldl (fun db p => db_set true (std_name p.1) (batch_schema p.2, [p.2]) db)
    (mkDb ∅ ∅) (zip defs bs).

(** The tables [load_tables] returns, the first at position [off]. *)
Fixpoint handles (off : nat) (defs : list SystemTableDef) (bs : list RecordBatch) :
    list (string * TableProvider) :=
  match defs, bs with
  | d :: defs', b :: bs' =>
      (std_name d, Todb (mkTable (batch_schema b) off)) :: handles (S off) defs' bs'
  | _, _ => []
  end.

Lemma load_tables_ok defs bs w :
  rmap build_record_batch defs = Ok bs ->
  load_tables defs w =
    (set_batches (w_batches w ++ ((fun b => lock_new [b]) <$> bs)) w,
     Ok (handles (length (w_batches w)) defs bs)).
Proof.
  revert bs w. induction defs as [|d defs IH]; intros bs w; cbn.
  - intros [= <-]. cbn. by rewrite app_nil_r, set_batches_same.
  - intros Hbs. res_inv Hbs. subst. rewrite Hbs0. cbn. rewrite (IH _ _ Hbs1). cbn.
    rewrite <- app_assoc, length_app. cbn. by rewrite Nat.add_1_r.
Qed.

Lemma register_handles defs : forall bs off w sp db,
  rep w sp db ->
  (forall k t, tbl sp k = Some (Todb t) -> tp_batches t < off) ->
  (forall j b, bs !! j = Some b -> w_batches w !! (off + j) = Some (lock_new [b])) ->
  exists sp', rfold (fun sp p => register_system_table sp p.1 p.2) (handles off defs bs) sp = Ok sp'
    /\ rep w sp' (foldl (fun db p => db_set true (std_name p.1) (batch_schema p.2, [p.2]) db)
         db (zip defs bs)).
Proof.
  induction defs as [|d defs IH]; intros bs off w sp db R Hlt Hb; [by exists sp|].
  destruct bs as [|b bs]; [by exists sp|]. cbn [handles rfold zip foldl].
  unfold register_system_table at 1, expect. rewrite (rep_system_open _ _ _ R). cbn [rbind fst snd].
  set (t := mkTable (batch_schema b) off).
  change (mkSchemaProvider _ _) with (sp_set (true, std_name d) (Todb t) sp).
  assert (w_batches w !! off = Some (lock_new [b])) as Hb0.
  { specialize (Hb 0 b eq_refl). by rewrite Nat.add_0_r in Hb. }
  apply IH.
  - apply (rep_put w sp db (true, std_name d) t [b]); [done..|].
    intros k' t' Hk' Heq. apply Hlt in Hk'. cbn in Heq. lia.
  - intros k' t'. rewrite tbl_set. case_decide; [intros [= <-]; cbn; lia|].
    intros Hk'. apply Hlt in Hk'. lia.
  - intros j b' Hj. replace (S off + j) with (off + S j) by lia. by apply Hb.
Qed.

Lemma rep_empty w : rep w schema_provider_new (mkDb ∅ ∅).
Proof.
  split; [done|done| |].
  - intros [[] n]; unfold tbl, dbt; cbn; by rewrite !lookup_empty.
  - intros [[] n1] k2 t1 t2; unfold tbl at 1; cbn; by rewrite lookup_empty.
Qed.

Lemma engine_new_ok version defs bs w :
  rmap build_record_batch defs = Ok bs ->
  exists w' e i sp, engine_new version (Ok defs) w = (w', Ok e) /\
    engine_at e w' i sp /\ rep w' sp (db_initial defs bs).
Proof.
  intros Hbs. unfold engine_new, load_system_tables. rewrite (load_tables_ok _ _ w Hbs).
  set (w1 := set_batches _ w).
  destruct (register_handles defs bs (length (w_batches w)) w1 schema_provider_new (mkDb ∅ ∅))
    as (sp & Hsp & R).
  - apply rep_empty.
  - intros [[] n] t; unfold tbl; cbn; by rewrite lookup_empty.
  - intros j b Hj. cbn. rewrite lookup_app_r by lia.
    replace (length (w_batches w) + j - length (w_batches w)) with j by lia.
    by rewrite list_lookup_fmap, Hj.
  - cbn [map_err rbind]. rewrite Hsp. cbn [map_err rbind].
    eexists _, _, _, sp. split; [done|]. split; [|by apply (rep_world w1)].
    split; cbn; [|by apply list_lookup_middle].
    unfold engine_schema_provider. cbn. rewrite list_lookup_middle by done. cbn.
    rewrite lookup_insert_eq. cbn. rewrite list_lookup_middle by done. cbn.
    by rewrite lookup_insert_eq.
Qed.

(** C36: The engine starts whenever every system table can be built, and from
    then on the tables of the server behave as a database that maps names to a
    schema and batches: whatever sessions call, in any order, the answers are
    answers of the database ([db_call]). User tables come before system tables
    of the same name and uncover them when dropped; a new table is empty; an
    insert appends all the batches of its stream to the one table the name
    resolves to and answers their number of rows, or, if the stream fails, the
    schema differs or the operation is not an append, appends nothing and
    answers an error; a scan answers exactly the batches inserted so far, in
    order and with the columns asked for. *)
Theorem tables_refine version defs bs w :
  rmap build_record_batch defs = Ok bs ->
  exists w' e, engine_new version (Ok defs) w = (w', Ok e) /\
    forall cs, db_answers cs (db_initial defs bs) (run_engine e cs w').2.
Proof.
  intros Hbs. destruct (engine_new_ok version defs bs w Hbs) as (w' & e & i & sp & He & Hat & R).
  exists w', e. split; [done|]. intros cs. by eapply run_refines.
Qed.

(** Registering a table keeps nothing of it but the schema: the table found
    under the name afterwards is empty, whatever the given one held. *)
Theorem registered_table_is_empty sp name (t : TodbTableProvider) w w' sp' r :
  register_table sp name (Todb t) w = (w', sp', Ok r) ->
  exists t', lk_value (tables sp') !! name = Some (Todb t') /\ tp_schema t' = tp_schema t /\
    row_count t' w' = 0.
Proof.
  unfold register_table, expect. case_match eqn:E; [|intros; simplify_eq..].
  case_decide; intros [= <- <- <-]. exists (mkTable (tp_schema t) (length (w_batches w))).
  cbn. rewrite lookup_insert_eq. split_and!; [done..|].
  unfold row_count. cbn. by rewrite list_lookup_middle.
Qed.
End Start.

(** ** A session on the concrete instances *)

Module Demo.
Import Plain PlainYaml.

Definition w0 : World := mkWorld [] [] [] [].
Definition version : BuildVersion := mkBuildVersion "abc1234" "20260418215711".
Definition schema_a : Schema := [("a", TInt64, true)].

(** A batch of one column. *)
Definition batch_of (cells : list (option Z)) : res DfError RecordBatch :=
  map_err DfArrow (batch_try_new schema_a [AInt64 cells]).

Definition session : list Call :=
  [RegisterTable "types" (ForeignTable schema_a);
   InsertInto "types" schema_a Append [batch_of [Some 1%Z; None]];
   InsertInto "types" schema_a Append [batch_of [Some 2%Z]; Err (Execution "cancelled")];
   InsertInto "types" schema_a Overwrite [];
   Scan "types" (Some [0]);
   DeregisterTable "types";
   Scan "types" None;
   Scan "nowhere" None].

(** What a session sees, with batches shown by their row counts. *)
Definition show (a : Answer) : string * list nat :=
  match a with
  | AScan (Ok p) => ("scan", batch_num_rows <$> exec_batches p)
  | AInsert (Ok n) => ("inserted", [Z.to_nat n])
  | AInsert (Err _) => ("refused", [])
  | ANoTable => ("no table", [])
  | _ => ("done", [])
  end.

Definition started : World * res EngineError EngineState := engine_new version (Ok [types_def]) w0.

Example session_answers :
  match started with
  | (w, Ok e) => show <$> (run_engine e session w).2
  | _ => []
  end =
  [("done", []); ("inserted", [2]); ("refused", []); ("refused", []); ("scan", [2]);
   ("done", []); ("scan", [3]); ("no table", [])].
Proof. vm_compute. reflexivity. Qed.
End Demo.

Lemma tables_refine_witness :
  exists bs, rmap build_record_batch [PlainYaml.types_def] = Ok bs /\
  exists w' e, engine_new Demo.version (Ok [PlainYaml.types_def]) Demo.w0 = (w', Ok e) /\
    forall cs, db_answers cs (db_initial [PlainYaml.types_def] bs) (run_engine (H := Plain.arrow) e cs w').2.
Proof.
  assert (match rmap (build_record_batch (H := Plain.arrow)) [PlainYaml.types_def] with
          | Ok _ => true | _ => false end = true) as Hok by (vm_compute; reflexivity).
  destruct (rmap (build_record_batch (H := Plain.arrow)) [PlainYaml.types_def]) as [bs| |] eqn:E;
    [|discriminate Hok..].
  exists bs. split; [reflexivity|].
  apply (tables_refine (H := Plain.arrow) (H0 := Plain.arrow_laws) Demo.version [PlainYaml.types_def] bs Demo.w0). exact E.
Defined.
