(* ===== verification/ServerQuery.v ===== *)
(** Query results as JSON (server/src/query.rs): the response built from
    record batches, cell by cell through the text of the value.

    [Json] is the number type of the JSON library; its [Map] is a finite map
    from names to values. *)

From Stdlib Require Import SpecFloat String.
From stdpp Require Import base numbers list strings pretty gmap fin_maps.
From S2P Require Import Prelude.
From S2P Require Import RustText.
From S2P Require Import Arrow.

(** [serde_json::Number]. *)
Class Json := {
  Number : Type;
  number_of_i64 : Z -> Number;
  number_of_u64 : Z -> Number;
  number_from_f64 : spec_float -> option Number;
  number_as_int : Number -> option Z;
}.

(** Integers are kept; NaN and the infinities have no JSON number. *)
Class JsonLaws `{Json} := {
  as_int_i64 z : (i64_min <= z <= i64_max)%Z -> number_as_int (number_of_i64 z) = Some z;
  as_int_u64 z : is_u64 z -> number_as_int (number_of_u64 z) = Some z;
  from_f64_finite x : is_Some (number_from_f64 x) <-> is_finite x = true;
}.

Inductive JsonValue `{Json} :=
| JNull
| JBool (b : bool)
| JNumber (n : Number)
| JString (s : string).

Record QuerySchemaField := mkQuerySchemaField { qsf_name : string; qsf_data_type : string }.

Record QueryResponse `{Json} := mkQueryResponse {
  qr_schema : list QuerySchemaField;
  qr_data : list (gmap string JsonValue);
}.
Arguments mkQueryResponse {_} _ _.

Section Query.
Context `{Arrow} `{Json}.

(** The first reading that succeeds: Boolean, signed, unsigned, float, text. *)
Definition rendered_value_to_json (rendered : string) : JsonValue :=
  match parse_bool rendered with
  | Some boolean => JBool boolean
  | None =>
  match parse_i64 rendered with
  | Some integer => JNumber (number_of_i64 integer)
  | None =>
  match parse_u64 rendered with
  | Some unsigned => JNumber (number_of_u64 unsigned)
  | None =>
  match parse_f64 rendered ≫= number_from_f64 with
  | Some number => JNumber number
  | None => JString rendered
  end end end end.

Definition array_value_to_json (array : Array) (row_index : nat) : res ArrowError JsonValue :=
  null <-- array_is_null array row_index ;;
  if (null : bool) then Ok JNull
  else
    rendered <-- array_value_to_string array row_index ;;
    Ok (rendered_value_to_json rendered).

Definition batch_field_names (b : RecordBatch) : list string :=
  field_name <$> schema_fields (batch_schema b).

(** One row: a map from column names to values. *)
Definition row_to_json (b : RecordBatch) (row_index : nat) : res ArrowError (gmap string JsonValue) :=
  rfold (fun row (p : nat * string) =>
      column <-- batch_column b p.1 ;;
      value <-- array_value_to_json column row_index ;;
      Ok (<[p.2 := value]> row))
    (imap pair (batch_field_names b)) ∅.

Definition batch_to_json (b : RecordBatch) : res ArrowError (list (gmap string JsonValue)) :=
  rmap (row_to_json b) (seq 0 (batch_num_rows b)).

Definition record_batches_to_response (batches : list RecordBatch) : res ArrowError QueryResponse :=
  match batches with
  | [] => Ok (mkQueryResponse [] [])
  | first_batch :: _ =>
      let schema := (fun f => mkQuerySchemaField (field_name f)
                       (data_type_to_string (field_data_type f)))
                    <$> schema_fields (batch_schema first_batch) in
      data <-- rfold (fun data b => rows <-- batch_to_json b ;; Ok (data ++ rows)) batches [] ;;
      Ok (mkQueryResponse schema data)
  end.

(** [execute_query]: [run] stands for planning and collecting the statement. *)
Definition execute_query {E} (run : string -> res E (list RecordBatch)) (of_arrow : ArrowError -> E)
    (sql : string) : res E QueryResponse :=
  batches <-- run sql ;;
  map_err of_arrow (record_batches_to_response batches).
End Query.

(** ** What a response says *)

Section Meaning.
Context `{Arrow} `{Json}.

(** The text reads as none of the other JSON values. *)
Definition plain_text (s : string) : Prop :=
  parse_bool s = None /\ parse_i64 s = None /\ parse_u64 s = None /\
  forall x, parse_f64 s = Some x -> is_finite x = false.

(** The JSON value of a cell: null, the same Boolean, a number with the same
    integer, and the same text unless it reads as one of those. *)
Record cell_json (v : ArrayView) (k : nat) (j : JsonValue) : Prop := {
  cj_null : view_present v k = Some false -> j = JNull;
  cj_int z : view_int v k = Some z -> exists n, j = JNumber n /\ number_as_int n = Some z;
  cj_bool l b : v = ABoolean l -> l !! k = Some (Some b) -> j = JBool b;
  cj_text l s : v = AString l -> l !! k = Some (Some s) -> plain_text s -> j = JString s;
}.

(** The object of row [k]: every column is there under its name, the last of
    those that share one, and nothing else is. *)
Definition row_is (b : RecordBatch) (k : nat) (m : gmap string JsonValue) : Prop :=
  dom m =@{gset string} list_to_set (batch_field_names b) /\
  forall i name a, batch_field_names b !! i = Some name -> batch_columns b !! i = Some a ->
    (forall i', i < i' -> batch_field_names b !! i' <> Some name) ->
    exists j, m !! name = Some j /\ cell_json (array_view a) k j.

(** The rows of the batches in order. *)
Definition all_rows (batches : list RecordBatch) : list (RecordBatch * nat) :=
  batches ≫= fun b => pair b <$> seq 0 (batch_num_rows b).

(** Every cell that is not null has a text. *)
Definition displayable (b : RecordBatch) : Prop :=
  forall a k, a ∈ batch_columns b -> view_present (array_view a) k = Some true ->
    exists s, array_value_to_string a k = Ok s.

Definition columns_wf (b : RecordBatch) : Prop :=
  forall a, a ∈ batch_columns b -> view_wf (array_view a).
End Meaning.

Section Correct.
Context `{ArrowLaws} `{JsonLaws}.

Lemma json_of_int z :
  (i64_min <= z <= i64_max)%Z \/ is_u64 z ->
  exists n, rendered_value_to_json (pretty z) = JNumber n /\ number_as_int n = Some z.
Proof.
  intros Hz. unfold rendered_value_to_json. rewrite parse_bool_pretty.
  destruct (decide (z <= i64_max)%Z) as [Hle|Hgt].
  - assert (i64_min <= z <= i64_max)%Z as Hr
      by (destruct Hz as [?|[? ?]]; [lia|unfold i64_min; lia]).
    rewrite (parse_i64_pretty z Hr). eexists. split; [done|by apply as_int_i64].
  - assert (is_u64 z) as Hu by (destruct Hz as [?|?]; [lia|done]).
    rewrite parse_i64_too_big, (parse_u64_pretty z Hu) by lia.
    eexists. split; [done|by apply as_int_u64].
Qed.

Lemma json_of_text s : plain_text s -> rendered_value_to_json s = JString s.
Proof.
  intros (Hb & Hi & Hu & Hf). unfold rendered_value_to_json. rewrite Hb, Hi, Hu.
  destruct (parse_f64 s) as [x|]; [|done]. cbn.
  destruct (number_from_f64 x) as [n|] eqn:E; [|done].
  assert (is_finite x = true) as Hx by (apply from_f64_finite; by rewrite E).
  by rewrite (Hf x eq_refl) in Hx.
Qed.

(** Every integer of an integer column fits [i64] or [u64]. *)
Lemma view_int_range v k z :
  view_wf v -> view_int v k = Some z -> (i64_min <= z <= i64_max)%Z \/ is_u64 z.
Proof.
  intros [Hw _] Hz. destruct (int_width v) as [[sg w]|] eqn:Ew.
  - specialize (Hw sg w k z eq_refl Hz). unfold in_width in Hw.
    destruct v; simplify_eq/=; unfold i64_min, i64_max, is_u64, u64_max; lia.
  - by destruct v.
Qed.

Lemma view_int_present v k z : view_int v k = Some z -> view_present v k = Some true.
Proof.
  destruct v; cbn; try done; unfold present; destruct (_ !! k) as [[]|]; cbn; by intros [= <-].
Qed.

(** One cell. *)
Lemma array_value_to_json_ok a k :
  view_wf (array_view a) -> k < view_len (array_view a) ->
  (view_present (array_view a) k = Some true -> exists s, array_value_to_string a k = Ok s) ->
  exists j, array_value_to_json a k = Ok j /\ cell_json (array_view a) k j.
Proof.
  intros Hwf Hk Hs. unfold array_value_to_json, array_is_null.
  assert (is_Some (view_present (array_view a) k)) as [p Hp].
  { destruct (array_view a); cbn in *; apply fmap_is_Some, lookup_lt_is_Some_2; done. }
  rewrite Hp. cbn. destruct p; cbn.
  2:{ eexists. split; [done|]. split.
      - done.
      - intros z Hz. apply view_int_present in Hz. congruence.
      - intros l b Hv Hl. rewrite Hv in Hp. cbn in Hp. unfold present in Hp. by rewrite Hl in Hp.
      - intros l s Hv Hl. rewrite Hv in Hp. cbn in Hp. unfold present in Hp. by rewrite Hl in Hp. }
  destruct (Hs Hp) as [s Es]. rewrite Es. cbn. eexists. split; [done|]. split.
  - by rewrite Hp.
  - intros z Hz. pose proof (array_string_int _ _ _ Hz) as Hz'. rewrite Es in Hz'. injection Hz' as ->.
    apply json_of_int. by eapply view_int_range.
  - intros l b Hv Hl. pose proof (array_string_bool _ _ _ _ Hv Hl) as Hb. rewrite Es in Hb.
    injection Hb as ->. by destruct b.
  - intros l t Hv Hl Ht. pose proof (array_string_str _ _ _ _ Hv Hl) as Hb. rewrite Es in Hb.
    injection Hb as ->. by apply json_of_text.
Qed.

(** The loop over the columns of a row, from the [off]-th on. *)
Lemma row_loop b k (names : list string) : forall off cols (m : gmap string JsonValue),
  displayable b -> columns_wf b -> k < batch_num_rows b ->
  length cols = length names -> (forall i, cols !! i = batch_columns b !! (off + i)) ->
  (forall a, a ∈ cols -> view_len (array_view a) = batch_num_rows b) ->
  exists m', rfold (fun row (p : nat * string) =>
        column <-- batch_column b p.1 ;;
        value <-- array_value_to_json column k ;;
        Ok (<[p.2 := value]> row)) (imap (fun i n => (off + i, n)) names) m = Ok m' /\
    dom m' =@{gset string} list_to_set names ∪ dom m /\
    (forall i name a, names !! i = Some name -> cols !! i = Some a ->
      (forall i', i < i' -> names !! i' <> Some name) ->
      exists j, m' !! name = Some j /\ cell_json (array_view a) k j) /\
    (forall name, name ∉ names -> m' !! name = m !! name).
Proof.
  induction names as [|n names IH]; intros off cols m Hd Hwf Hk Hl Hc Hlen.
  { exists m. split_and!; [done|set_solver|done|done]. }
  destruct cols as [|a cols]; [done|].
  assert (batch_columns b !! off = Some a) as Ha by (rewrite <- (Nat.add_0_r off); by rewrite <- Hc).
  assert (a ∈ batch_columns b) as Hin by (by eapply list_elem_of_lookup_2).
  destruct (array_value_to_json_ok a k) as (j & Hj & Hcj).
  { by apply Hwf. }
  { rewrite Hlen; [done|by left]. }
  { by apply Hd. }
  destruct (IH (S off) cols (<[n := j]> m)) as (m' & Hm & Hdom & Hcell & Hkeep); try done.
  { cbn in Hl. lia. }
  { intros i. transitivity ((a :: cols) !! S i); [done|]. rewrite Hc. f_equal. lia. }
  { intros a' Ha'. apply Hlen. by right. }
  exists m'. cbn. rewrite Nat.add_0_r. unfold batch_column at 1. rewrite Ha. cbn. rewrite Hj. cbn.
  split_and!.
  - rewrite <- Hm. f_equal. apply imap_ext. intros i x _. cbn. f_equal. lia.
  - rewrite Hdom, dom_insert_L. set_solver.
  - intros [|i] name x Hn Hx Hlast; simplify_eq/=.
    + rewrite Hkeep; [|intros (i' & Hi')%list_elem_of_lookup; by apply (Hlast (S i') ltac:(lia))].
      rewrite lookup_insert_eq. eauto.
    + apply (Hcell i); [done..|]. intros i' Hi'. apply (Hlast (S i')). lia.
  - intros name Hn. apply not_elem_of_cons in Hn as [Hne Hn]. rewrite Hkeep by done.
    by rewrite lookup_insert_ne.
Qed.

Lemma row_to_json_ok b k :
  displayable b -> columns_wf b -> k < batch_num_rows b ->
  exists m, row_to_json b k = Ok m /\ row_is b k m.
Proof.
  intros Hd Hwf Hk.
  destruct (row_loop b k (batch_field_names b) 0 (batch_columns b) ∅)
    as (m & Hm & Hdom & Hcell & _); try done.
  { unfold batch_field_names. rewrite length_fmap. apply batch_arity. }
  { intros a Ha. exact (proj1 (Forall_forall _ _) (batch_rows b) a Ha). }
  exists m. split; [done|]. split; [|done]. rewrite Hdom. set_solver.
Qed.

Lemma rmap_Forall2_ok {E A B} (f : A -> res E B) (P : A -> B -> Prop) (l : list A) :
  (forall x, x ∈ l -> exists y, f x = Ok y /\ P x y) ->
  exists ys, rmap f l = Ok ys /\ Forall2 P l ys.
Proof.
  induction l as [|x l IH]; intros Hf; cbn; [by exists []|].
  destruct (Hf x) as (y & -> & Hy); [by left|].
  destruct IH as (ys & -> & Hys); [intros z Hz; apply Hf; by right|].
  exists (y :: ys). split; [done|by constructor].
Qed.

Lemma batches_loop batches : forall data,
  Forall displayable batches -> Forall columns_wf batches ->
  exists rows, rfold (fun data b => rows <-- batch_to_json b ;; Ok (data ++ rows)) batches data
      = Ok (data ++ rows) /\
    Forall2 (fun p m => row_is p.1 p.2 m) (all_rows batches) rows.
Proof.
  induction batches as [|b batches IH]; intros data Hd Hwf; cbn.
  { exists []. by rewrite app_nil_r. }
  inversion Hd; inversion Hwf; subst.
  destruct (rmap_Forall2_ok (row_to_json b) (row_is b) (seq 0 (batch_num_rows b)))
    as (rows & Hr & Hrs).
  { intros k Hk%elem_of_seq. apply row_to_json_ok; [done..|lia]. }
  unfold batch_to_json at 1. rewrite Hr. cbn.
  destruct (IH (data ++ rows)) as (rest & -> & Hrest); [done..|].
  exists (rows ++ rest). rewrite app_assoc. split; [done|].
  unfold all_rows. cbn. apply Forall2_app; [|done]. by apply Forall2_fmap_l.
Qed.

(** A query response has the schema of the first batch and exactly one
    object per row of the batches, in order. Each object has the column names as
    its keys; under each name is the value of the (last) column with that name:
    null for a null, the same Boolean, a number equal to the integer whatever the
    width and sign of the column, and the same text when it does not read as a
    Boolean or a number. *)
Theorem json_response batches :
  Forall displayable batches -> Forall columns_wf batches ->
  exists r, record_batches_to_response batches = Ok r /\
    qr_schema r = (fun f => mkQuerySchemaField (field_name f)
                     (data_type_to_string (field_data_type f)))
                  <$> (default [] ((fun b => schema_fields (batch_schema b)) <$> head batches)) /\
    Forall2 (fun p m => row_is p.1 p.2 m) (all_rows batches) (qr_data r).
Proof.
  intros Hd Hwf. destruct batches as [|b batches].
  { eexists. split; [done|]. by split. }
  destruct (batches_loop (b :: batches) [] Hd Hwf) as (rows & Hr & Hrows).
  eexists. unfold record_batches_to_response. rewrite Hr. by split.
Qed.

(** Text that looks like a number is not kept: two different strings of a
    text column become the same number. *)
Theorem json_text_collapses :
  rendered_value_to_json "007" = rendered_value_to_json "7" /\
  forall s, rendered_value_to_json "7" <> JString s.
Proof. split; [reflexivity|discriminate]. Qed.
End Correct.

(** ** A response on concrete batches *)

Module PlainJson.

(** Numbers as an integer or a finite float. *)
#[export] Instance json : Json := {
  Number := Z + spec_float;
  number_of_i64 := inl;
  number_of_u64 := inl;
  number_from_f64 x := if is_finite x then Some (inr x) else None;
  number_as_int n := match n with inl z => Some z | inr _ => None end;
}.

#[export] Instance json_laws : JsonLaws (H := json).
Proof.
  split; cbn; [done..|]. intros x. destruct (is_finite x); cbn; split; intros Hs; try done.
Qed.

Lemma plain_text_of (v : ArrayView) k :
  (forall l, v <> AOther l) -> view_present v k = Some true ->
  exists s, Plain.value_to_string v k = Ok s.
Proof.
  intros Hv. destruct v as [l|l|l|l|l|l|l|l|l|l|l|l|l]; cbn; unfold present;
    destruct (l !! k) as [[x|]|]; cbn; intros Hp;
    first [discriminate Hp | eexists; reflexivity | by destruct (Hv l)
          | destruct x; eexists; reflexivity].
Qed.

Definition people : Plain.Batch := Plain.mkBatch
  [("id", TUInt64, false); ("name", TUtf8, false); ("admin", TBoolean, true)]
  [AUInt64 [Some (2 ^ 64 - 1)%Z; Some 7%Z]; AString [Some "Alice"; Some "007"];
   ABoolean [Some true; None]] 2 eq_refl.

Lemma people_wf : columns_wf (H := Plain.arrow) people.
Proof.
  intros a Ha. cbn in Ha. repeat (apply elem_of_cons in Ha as [->|Ha]; [split; [|done]|]).
  - intros sg w [|[|[]]] z [= <- <-]; cbn; intros [= <-]; done.
  - done.
  - done.
  - by apply elem_of_nil in Ha.
Qed.

Lemma people_displayable : displayable (H := Plain.arrow) people.
Proof.
  intros a k Ha Hp. apply plain_text_of; [|done]. cbn in Ha.
  repeat (apply elem_of_cons in Ha as [->|Ha]; [done|]). by apply elem_of_nil in Ha.
Qed.
End PlainJson.

Lemma json_response_witness :
  exists r, record_batches_to_response (H := Plain.arrow) (H0 := PlainJson.json)
      [PlainJson.people] = Ok r /\
    Forall2 (fun p m => row_is (H := Plain.arrow) p.1 p.2 m)
      [(PlainJson.people, 0); (PlainJson.people, 1)] (qr_data r).
Proof.
  destruct (json_response (H0 := Plain.arrow_laws) (H2 := PlainJson.json_laws) [PlainJson.people])
    as (r & Hr & _ & Hrows).
  - constructor; [exact PlainJson.people_displayable|constructor].
  - constructor; [exact PlainJson.people_wf|constructor].
  - exists r. split; [exact Hr|exact Hrows].
Defined.
