(* ===== verification/ServerPg.v ===== *)
(** Statements over the PostgreSQL protocol: the executor that classifies and
    runs a statement (server/src/executor.rs) and the handler that turns its
    result into protocol responses (server/src/pgwire.rs).

    DataFusion's planner and the protocol library are parameters: [run] plans
    and collects a statement, [Encoder] is the data-row encoder. Of the
    Unicode case tables only ASCII is written out; [upper_table] is the rest. *)

From Stdlib Require Import SpecFloat Ascii String.
From stdpp Require Import base numbers list strings pretty.
From S2P Require Import Prelude.
From S2P Require Import RustText.
From S2P Require Import Arrow.
From S2P Require Import ServerQuery.

(** ** Characters *)

(** A [str] as its Unicode scalar values. *)
Abbreviation chars := (list Z).

Definition chars_of (s : string) : chars :=
  (fun c => Z.of_N (Ascii.N_of_ascii c)) <$> list_ascii_of_string s.

(** [char::is_whitespace]. *)
Definition is_whitespace (c : Z) : bool :=
  bool_decide ((9 <= c <= 13)%Z \/ c ∈ [32; 133; 160; 5760; 8232; 8233; 8239; 8287; 12288]%Z
               \/ (8192 <= c <= 8202)%Z).

Fixpoint trim_start (s : chars) : chars :=
  match s with
  | c :: s' => if is_whitespace c then trim_start s' else s
  | [] => []
  end.

(** [str::trim]. *)
Definition trim (s : chars) : chars := reverse (trim_start (reverse (trim_start s))).

Section Upper.
Context (upper_table : Z -> chars).

(** [char::to_uppercase]. *)
Definition char_upper (c : Z) : chars :=
  if decide (c < 128)%Z then [if decide (97 <= c <= 122)%Z then c - 32 else c]%Z
  else upper_table c.

(** [str::to_uppercase]. *)
Definition to_uppercase (s : chars) : chars := s ≫= char_upper.
End Upper.

(** [str::starts_with]. *)
Fixpoint starts_with (s p : chars) {struct p} : bool :=
  match p, s with
  | [], _ => true
  | c :: p', d :: s' => bool_decide (c = d) && starts_with s' p'
  | _ :: _, [] => false
  end.

(** ** The executor *)

Inductive ExecutionResult `{Arrow} :=
| Query (schema : Schema) (batches : list RecordBatch)
| AffectedRows (rows : Z)
| CommandComplete (tag : string).

Section Executor.
Context `{Arrow} {Err_ W : Type} (upper_table : Z -> chars).
(** [engine.session_context()?.sql(sql).await?] with its schema, then
    [collect().await?]: the result and the state the statement leaves. *)
Context (run : chars -> W -> W * res Err_ (Schema * list RecordBatch)).

(** [sum] at a 64-bit [usize]. *)
Definition sum_usize {E} (l : list Z) : res E Z := rfold u64_add l 0%Z.

(** The rows one result batch of an insert reports. *)
Definition batch_inserted (b : RecordBatch) : res Err_ Z :=
  match batch_columns b with
  | col :: _ =>
      match array_view col with
      | AUInt64 cells => sum_usize (default 0%Z <$> cells)
      | _ => Ok (Z.of_nat (batch_num_rows b))
      end
  | [] => Ok (Z.of_nat (batch_num_rows b))
  end.

Definition inserted_rows (batches : list RecordBatch) : res Err_ Z :=
  counts <-- rmap batch_inserted batches ;; sum_usize counts.

Definition starts (normalized : chars) (word : string) : bool :=
  starts_with normalized (chars_of word).

(** The result of a statement that ran, by its first word. *)
Definition classify (normalized : chars) (schema : Schema) (batches : list RecordBatch) :
    res Err_ ExecutionResult :=
  if starts normalized "INSERT" then
    rows <-- inserted_rows batches ;; Ok (AffectedRows rows)
  else if starts normalized "CREATE" || starts normalized "DROP" then
    Ok (CommandComplete (if starts normalized "CREATE" then "CREATE TABLE" else "DROP TABLE"))
  else Ok (Query schema batches).

(** [QueryExecutor::execute]. *)
Definition execute (sql : chars) (w : W) : W * res Err_ ExecutionResult :=
  let normalized := to_uppercase upper_table (trim sql) in
  if starts normalized "SET" then (w, Ok (CommandComplete "SET"))
  else
    let '(w', r) := run sql w in
    (w', let! (schema, batches) := r in classify normalized schema batches).
End Executor.

(** ** Protocol responses *)

Inductive PgType := INT2 | INT4 | INT8 | FLOAT4 | FLOAT8 | TEXT | BOOL | DATE.

Record FieldInfo := mkFieldInfo { fi_name : string; fi_type : PgType }.

Class Encoder := {
  Enc : Type;
  DataRow : Type;
  encoder_new : list FieldInfo -> Enc;
  encode_field : Enc -> option string -> Enc;
  take_row : Enc -> DataRow * Enc;
  row_fields : DataRow -> list (option string);
  pending : Enc -> list (option string);
}.

(** A row holds the fields encoded since the last one was taken. *)
Class EncoderLaws `{Encoder} := {
  pending_new fs : pending (encoder_new fs) = [];
  pending_encode e v : pending (encode_field e v) = pending e ++ [v];
  take_row_fields e : row_fields (take_row e).1 = pending e;
  take_row_clears e : pending (take_row e).2 = [];
}.

Record Tag := mkTag { tag_command : string; tag_rows : option Z }.
Record ErrorInfo := mkErrorInfo { severity : string; code : string; message : string }.

Inductive Response `{Encoder} :=
| RQuery (fields : list FieldInfo) (rows : list DataRow)
| RExecution (tag : Tag)
| RError (e : ErrorInfo).

Section Pgwire.
Context `{Arrow} `{Encoder}.

Definition arrow_type_to_pg (dt : DataType) : PgType :=
  match type_view dt with
  | TInt8 | TInt16 => INT2
  | TInt32 => INT4
  | TInt64 => INT8
  | TUInt8 | TUInt16 => INT2
  | TUInt32 => INT4
  | TUInt64 => INT8
  | TFloat32 => FLOAT4
  | TFloat64 => FLOAT8
  | TUtf8 | TLargeUtf8 => TEXT
  | TBoolean => BOOL
  | TDate32 | TDate64 => DATE
  | TOther => TEXT
  end.

Definition arrow_schema_to_field_infos (schema : Schema) : list FieldInfo :=
  (fun field => mkFieldInfo (field_name field) (arrow_type_to_pg (field_data_type field)))
  <$> schema_fields schema.

(** [value(row)] of a typed array, at a cell that is not null. *)
Definition cell {E A} (cells : list (option A)) (row : nat) : res E A := unwrap (mjoin (cells !! row)).

Definition column_to_string {E} (array : Array) (row : nat) : res E string :=
  null <-- array_is_null array row ;;
  if (null : bool) then Ok "" else
  match array_view array with
  | AInt8 l | AInt16 l | AInt32 l | AInt64 l
  | AUInt8 l | AUInt16 l | AUInt32 l | AUInt64 l => v <-- cell l row ;; Ok (pretty v)
  | AFloat32 l => v <-- cell l row ;; Ok (f32_to_string v)
  | AFloat64 l => v <-- cell l row ;; Ok (f64_to_string v)
  | AString l => cell l row
  | ABoolean l => v <-- cell l row ;; Ok (if (v : bool) then "t" else "f")
  | AOther _ => Ok "NULL"
  end.

(** Encodes one cell; the result of the encoder is ignored. *)
Definition encode_cell {E} (b : RecordBatch) (row_idx : nat) (e : Enc) (col_idx : nat) : res E Enc :=
  col <-- batch_column b col_idx ;;
  null <-- array_is_null col row_idx ;;
  if (null : bool) then Ok (encode_field e None)
  else v <-- column_to_string col row_idx ;; Ok (encode_field e (Some v)).

Definition encode_row {E} (b : RecordBatch) (s : list DataRow * Enc) (row_idx : nat) :
    res E (list DataRow * Enc) :=
  e <-- rfold (encode_cell b row_idx) (seq 0 (batch_num_columns b)) s.2 ;;
  let '(row, e') := take_row e in
  Ok (s.1 ++ [row], e').

Definition batches_to_data_rows {E} (batches : list RecordBatch) (fields : list FieldInfo) :
    res E (list DataRow) :=
  s <-- rfold (fun s b => rfold (encode_row b) (seq 0 (batch_num_rows b)) s)
    batches ([], encoder_new fields) ;;
  Ok s.1.

(** The response to what [execute] returned, as [do_query] makes it. *)
Definition respond {Err_} (err_to_string : Err_ -> string) (r : res Err_ ExecutionResult) :
    res Err_ (list Response) :=
  match r with
  | Ok (Query schema batches) =>
      let fields := arrow_schema_to_field_infos schema in
      rows <-- batches_to_data_rows batches fields ;;
      Ok [RQuery fields rows]
  | Ok (AffectedRows rows) => Ok [RExecution (mkTag "INSERT" (Some rows))]
  | Ok (CommandComplete tag) => Ok [RExecution (mkTag tag None)]
  | Err e => Ok [RError (mkErrorInfo "ERROR" "42000" (err_to_string e))]
  | Panic => Panic
  end.

Definition do_query {Err_ W} (upper_table : Z -> chars)
    (run : chars -> W -> W * res Err_ (Schema * list RecordBatch))
    (err_to_string : Err_ -> string) (query : chars) (w : W) : W * res Err_ (list Response) :=
  let '(w', r) := execute upper_table run query w in (w', respond err_to_string r).
End Pgwire.

(** ** What the client reads *)

(** The range of an integer type of the protocol. *)
Definition pg_range (t : PgType) : option (Z * Z) :=
  match t with
  | INT2 => Some (- 2 ^ 15, 2 ^ 15 - 1)%Z
  | INT4 => Some (- 2 ^ 31, 2 ^ 31 - 1)%Z
  | INT8 => Some (- 2 ^ 63, 2 ^ 63 - 1)%Z
  | _ => None
  end.

(** Integer columns whose values all fit the type announced for them. *)
Definition fits_announced (v : ArrayView) : bool :=
  match v with
  | AInt8 _ | AInt16 _ | AInt32 _ | AInt64 _ | AUInt8 _ => true
  | _ => false
  end.

(** The field sent for a cell, announced as type [t]. *)
Record cell_text (t : PgType) (v : ArrayView) (k : nat) (c : option string) : Prop := {
  ct_null : view_present v k = Some false <-> c = None;
  ct_int z : view_int v k = Some z -> c = Some (pretty z);
  ct_read z : fits_announced v = true -> view_int v k = Some z ->
    exists lo hi s, pg_range t = Some (lo, hi) /\ c = Some s /\ parse_int true lo hi s = Some z;
  ct_str l s : v = AString l -> l !! k = Some (Some s) -> c = Some s /\ t = TEXT;
  ct_bool l (b : bool) : v = ABoolean l -> l !! k = Some (Some b) ->
    c = Some (if b then "t" else "f") /\ t = BOOL;
}.

Lemma parse_int_pretty lo hi z :
  (lo <= 0 <= hi)%Z -> (lo <= z <= hi)%Z -> parse_int true lo hi (pretty z) = Some z.
Proof.
  intros H0 Hz. destruct z as [|p|p]; [|apply parse_int_pos; lia|apply parse_int_neg; lia].
  change (pretty 0%Z) with "0".
  rewrite (parse_int_digit _ _ _ "0"%char "" 0 eq_refl).
  by rewrite (parse_digits_step _ _ _ "0"%char _ _ 0 eq_refl) by lia.
Qed.

Section Rows.
Context `{ArrowLaws} `{EncoderLaws}.

Lemma view_present_cases v k :
  k < view_len v -> view_present v k = Some true \/ view_present v k = Some false.
Proof.
  intros Hk. assert (is_Some (view_present v k)) as [[] Hp]; [|auto..].
  destruct v; cbn in *; by apply fmap_is_Some, lookup_lt_is_Some_2.
Qed.

Lemma cell_some {E A} (l : list (option A)) k :
  present l k = Some true -> exists x, l !! k = Some (Some x) /\ cell (E := E) l k = Ok x.
Proof.
  unfold present, cell. destruct (l !! k) as [[x|]|]; cbn; try done. eauto.
Qed.

(** The integers of a column that fits are in the range announced. *)
Lemma announced_range dt v k z :
  type_agrees (type_view dt) v -> view_wf v -> fits_announced v = true ->
  view_int v k = Some z ->
  exists lo hi, pg_range (arrow_type_to_pg dt) = Some (lo, hi) /\ (lo <= 0 <= hi)%Z /\ (lo <= z <= hi)%Z.
Proof.
  intros Ht [Hw _] Hf Hz. unfold arrow_type_to_pg.
  destruct (int_width v) as [[sg w]|] eqn:Ew; [|by destruct v].
  specialize (Hw sg w k z eq_refl Hz). unfold in_width in Hw.
  destruct v; try discriminate; cbn in Ht; rewrite Ht; simplify_eq/=;
    eexists _, _; (split; [done|]); lia.
Qed.

(** The text of a cell that is not null. *)
Lemma column_to_string_ok {E} a k :
  view_wf (array_view a) -> view_present (array_view a) k = Some true ->
  exists s, column_to_string (E := E) a k = Ok s /\
    cell_text (arrow_type_to_pg (array_data_type a)) (array_view a) k (Some s).
Proof.
  intros Hwf Hp. pose proof (array_type_view a) as Ht.
  assert (exists s, column_to_string (E := E) a k = Ok s /\
    (forall z, view_int (array_view a) k = Some z -> s = pretty z) /\
    (forall l t, array_view a = AString l -> l !! k = Some (Some t) -> s = t) /\
    (forall l (b : bool), array_view a = ABoolean l -> l !! k = Some (Some b) -> s = if b then "t" else "f"))
    as (s & Hs & Hi & Hst & Hb).
  { unfold column_to_string, array_is_null. rewrite Hp. cbn.
    destruct (array_view a) as [l|l|l|l|l|l|l|l|l|l|l|l|l]; cbn in *;
      try (destruct (cell_some (E := E) l k Hp) as (x & Hx & ->); cbn; rewrite ?Hx; cbn);
      (eexists; split; [reflexivity|]); split_and!; intros; simplify_eq; done. }
  exists s. split; [done|]. split.
  - split; [by rewrite Hp|done].
  - intros z Hz. by rewrite (Hi z Hz).
  - intros z Hf Hz. rewrite (Hi z Hz).
    destruct (announced_range _ _ _ _ Ht Hwf Hf Hz) as (lo & hi & Hr & H0' & Hz').
    exists lo, hi, (pretty z). split_and!; [done..|by apply parse_int_pretty].
  - intros l t Hv Hl. split; [by rewrite (Hst l t)|]. rewrite Hv in Ht. cbn in Ht.
    unfold arrow_type_to_pg. by rewrite Ht.
  - intros l b Hv Hl. split; [by rewrite (Hb l b)|]. rewrite Hv in Ht. cbn in Ht.
    unfold arrow_type_to_pg. by rewrite Ht.
Qed.

Lemma null_cell t v k : view_present v k = Some false -> cell_text t v k None.
Proof.
  intros Hp. assert (forall z, view_int v k <> Some z) as Hn.
  { intros z Hz. apply view_int_present in Hz. congruence. }
  split; [done|by intros z ?%Hn|by intros z _ ?%Hn|..];
    intros l x Hv Hl; rewrite Hv in Hp; cbn in Hp; unfold present in Hp; by rewrite Hl in Hp.
Qed.

(** Field [c] for column [i] of row [k]. *)
Definition field_is (b : RecordBatch) (k i : nat) (c : option string) : Prop :=
  exists a, batch_columns b !! i = Some a /\
    cell_text (arrow_type_to_pg (array_data_type a)) (array_view a) k c.

Lemma encode_cell_ok {E} b k e i :
  columns_wf b -> k < batch_num_rows b -> i < batch_num_columns b ->
  exists c, encode_cell (E := E) b k e i = Ok (encode_field e c) /\ field_is b k i c.
Proof.
  intros Hwf Hk Hi. destruct (lookup_lt_is_Some_2 (batch_columns b) i Hi) as [a Ha].
  assert (a ∈ batch_columns b) as Hin by (by eapply list_elem_of_lookup_2).
  assert (k < view_len (array_view a)) as Hk'.
  { by rewrite (proj1 (Forall_forall _ _) (batch_rows b) a Hin). }
  unfold encode_cell, batch_column, array_is_null. rewrite Ha. cbn [unwrap rbind].
  destruct (view_present_cases _ _ Hk') as [Hp|Hp]; rewrite Hp; cbn [fmap option_fmap option_map unwrap negb rbind].
  - destruct (column_to_string_ok (E := E) a k (Hwf a Hin) Hp) as (s & Hs & Hc).
    rewrite Hs. cbn [rbind]. exists (Some s). split; [done|]. by exists a.
  - exists None. split; [done|]. exists a. split; [done|by apply null_cell].
Qed.

Lemma encode_cells {E} b k n : forall off e,
  columns_wf b -> k < batch_num_rows b -> off + n <= batch_num_columns b ->
  exists e' cs, rfold (encode_cell (E := E) b k) (seq off n) e = Ok e' /\
    pending e' = pending e ++ cs /\ Forall2 (field_is b k) (seq off n) cs.
Proof.
  induction n as [|n IH]; intros off e Hwf Hk Hn; cbn.
  { exists e, []. by rewrite app_nil_r. }
  destruct (encode_cell_ok (E := E) b k e off Hwf Hk) as (c & -> & Hc); [lia|]. cbn.
  destruct (IH (S off) (encode_field e c)) as (e' & cs & -> & Hp & Hcs); [done..|lia|].
  exists e', (c :: cs). rewrite Hp, pending_encode, <- app_assoc.
  split_and!; [done..|by constructor].
Qed.

(** A data row has one field per column. *)
Definition data_row_is (p : RecordBatch * nat) (r : DataRow) : Prop :=
  Forall2 (field_is p.1 p.2) (seq 0 (batch_num_columns p.1)) (row_fields r).

Lemma encode_rows {E} b n : forall off s,
  columns_wf b -> off + n <= batch_num_rows b -> pending s.2 = [] ->
  exists e' rows, rfold (encode_row (E := E) b) (seq off n) s = Ok (s.1 ++ rows, e') /\
    pending e' = [] /\ Forall2 data_row_is (pair b <$> seq off n) rows.
Proof.
  induction n as [|n IH]; intros off [out e] Hwf Hn Hp; cbn in *.
  { exists e, []. by rewrite app_nil_r. }
  destruct (encode_cells (E := E) b off (batch_num_columns b) 0 e) as (e1 & cs & He & Hp1 & Hcs);
    [done|lia|lia|].
  unfold encode_row at 1. cbn. rewrite He. cbn. rewrite Hp in Hp1.
  destruct (take_row e1) as [row e2] eqn:Et. cbn.
  pose proof (take_row_fields e1) as Hrow. pose proof (take_row_clears e1) as Hclear.
  rewrite Et in Hrow, Hclear. cbn in Hrow, Hclear.
  destruct (IH (S off) (out ++ [row], e2)) as (e' & rows & -> & Hp' & Hrows); [done|lia|done|].
  exists e', (row :: rows). cbn. rewrite <- app_assoc. split_and!; [done..|].
  constructor; [|done]. unfold data_row_is. cbn. by rewrite Hrow, Hp1.
Qed.

Lemma encode_batches {E} batches : forall s,
  Forall columns_wf batches -> pending s.2 = [] ->
  exists e' rows,
    rfold (fun s b => rfold (encode_row (E := E) b) (seq 0 (batch_num_rows b)) s) batches s
      = Ok (s.1 ++ rows, e') /\
    pending e' = [] /\ Forall2 data_row_is (all_rows batches) rows.
Proof.
  induction batches as [|b batches IH]; intros s Hwf Hp; cbn.
  { exists s.2, []. rewrite app_nil_r. by destruct s. }
  inversion Hwf; subst.
  destruct (encode_rows (E := E) b (batch_num_rows b) 0 s) as (e1 & rows & -> & Hp1 & Hr);
    [done|lia|done|]. cbn.
  destruct (IH (s.1 ++ rows, e1)) as (e2 & rest & -> & Hp2 & Hrest); [done..|].
  exists e2, (rows ++ rest). cbn. rewrite app_assoc. split_and!; [done..|].
  unfold all_rows. cbn. by apply Forall2_app.
Qed.

(** C39: The data rows of a result are one per row of the batches, in order, with one
    field per column: absent for a null, the decimal text for an integer, the
    text itself for a string, t or f for a Boolean. Read at the type announced
    for the column, the text of every signed integer and of every 8-bit unsigned
    one is in range and gives the integer back. *)
Theorem pg_rows_faithful {E} batches fields :
  Forall columns_wf batches ->
  exists rows, batches_to_data_rows (E := E) batches fields = Ok rows /\
    Forall2 data_row_is (all_rows batches) rows.
Proof.
  intros Hwf. destruct (encode_batches (E := E) batches ([], encoder_new fields) Hwf)
    as (e' & rows & Hr & _ & Hrows); [apply pending_new|].
  exists rows. unfold batches_to_data_rows. by rewrite Hr.
Qed.
End Rows.

(** ** Dispatch on the first word *)

Section Dispatch.
Context `{Arrow} `{Encoder} {Err_ W : Type} (upper_table : Z -> chars).
Context (run : chars -> W -> W * res Err_ (Schema * list RecordBatch)).
Context (err_to_string : Err_ -> string).

Definition ascii_letter (c : Z) : Prop := (65 <= c <= 90)%Z \/ (97 <= c <= 122)%Z.

Lemma letter_not_space c : ascii_letter c -> is_whitespace c = false.
Proof.
  intros Hc. apply bool_decide_eq_false. intros [?|[Hin|?]];
    [destruct Hc; lia| |destruct Hc; lia].
  repeat (apply elem_of_cons in Hin as [->|Hin]; [destruct Hc; lia|]). by apply elem_of_nil in Hin.
Qed.

Lemma trim_start_space ws s :
  Forall (fun c => is_whitespace c = true) ws -> trim_start (ws ++ s) = trim_start s.
Proof. induction 1 as [|c ws Hc _ IH]; cbn; [done|]. by rewrite Hc. Qed.

Lemma trim_start_app s c t :
  is_whitespace c = false -> trim_start (s ++ c :: t) = trim_start s ++ c :: t.
Proof.
  intros Hc. induction s as [|d s IH]; cbn; [by rewrite Hc|].
  by destruct (is_whitespace d).
Qed.

(** Trimming a statement leaves its first word in front. *)
Lemma trim_word ws (kw rest : chars) :
  Forall (fun c => is_whitespace c = true) ws -> Forall ascii_letter kw -> kw <> [] ->
  exists rest', trim (ws ++ kw ++ rest) = kw ++ rest'.
Proof.
  intros Hws Hkw Hne. unfold trim. rewrite trim_start_space by done.
  destruct kw as [|c kw] using rev_ind; [done|]. clear IHkw.
  apply Forall_app in Hkw as [Hkw Hc]. apply Forall_singleton, letter_not_space in Hc.
  assert (trim_start ((kw ++ [c]) ++ rest) = (kw ++ [c]) ++ rest) as ->.
  { destruct kw as [|d kw]; cbn; [by rewrite Hc|].
    apply Forall_cons in Hkw as [Hd _]. by rewrite (letter_not_space d Hd). }
  rewrite !reverse_app, reverse_singleton. cbn [app]. rewrite trim_start_app by done.
  exists (reverse (trim_start (reverse rest))).
  rewrite reverse_app, reverse_cons, reverse_involutive. done.
Qed.

(** The classifier sees the word in capitals, whatever surrounds it. *)
Lemma normalized_word ws kw rest word :
  Forall (fun c => is_whitespace c = true) ws -> Forall ascii_letter kw -> kw <> [] ->
  to_uppercase upper_table kw = chars_of word ->
  exists rest', to_uppercase upper_table (trim (ws ++ kw ++ rest)) = chars_of word ++ rest'.
Proof.
  intros Hws Hkw Hne Hup. destruct (trim_word ws kw rest Hws Hkw Hne) as [rest' ->].
  exists (to_uppercase upper_table rest'). unfold to_uppercase in *. by rewrite bind_app, Hup.
Qed.

(** Decides which words a statement with a known first word starts with. *)
Ltac decide_starts :=
  unfold classify;
  repeat match goal with
  | |- context [starts ?s ?p] => first [change (starts s p) with true | change (starts s p) with false]
  end; cbv beta iota zeta.

(** C38: The first word of a statement decides its answer, whatever white space is
    before it and however its letters are cased. SET is acknowledged without
    reaching the engine; an INSERT answers with the count the engine reports;
    CREATE and DROP answer with their tag; and a statement that fails in the
    engine gets exactly one error response, with SQLSTATE 42000 and the text of
    the failure. *)
Theorem statement_dispatch ws kw rest word w w' :
  Forall (fun c => is_whitespace c = true) ws -> Forall ascii_letter kw -> kw <> [] ->
  to_uppercase upper_table kw = chars_of word ->
  let sql := ws ++ kw ++ rest in
  let answer := do_query upper_table run err_to_string sql w in
  (word = "SET" -> answer = (w, Ok [RExecution (mkTag "SET" None)])) /\
  (word = "INSERT" -> forall schema b col n,
     run sql w = (w', Ok (schema, [b])) -> batch_columns b = [col] ->
     array_view col = AUInt64 [Some n] -> is_u64 n ->
     answer = (w', Ok [RExecution (mkTag "INSERT" (Some n))])) /\
  (word = "CREATE" \/ word = "DROP" -> forall result,
     run sql w = (w', Ok result) ->
     answer = (w', Ok [RExecution (mkTag (word +:+ " TABLE") None)])) /\
  (word = "INSERT" \/ word = "CREATE" \/ word = "DROP" \/ word = "SELECT" -> forall e,
     run sql w = (w', Err e) ->
     answer = (w', Ok [RError (mkErrorInfo "ERROR" "42000" (err_to_string e))])).
Proof.
  intros Hws Hkw Hne Hup sql answer.
  destruct (normalized_word ws kw rest word Hws Hkw Hne Hup) as [rest' Hn].
  subst answer. unfold do_query, execute. fold sql in Hn. rewrite Hn. split_and!.
  - intros ->. by decide_starts.
  - intros -> schema b col n Hr Hc Hv [Hn1 Hn2]. decide_starts. rewrite Hr. cbn [rbind].
    unfold inserted_rows, batch_inserted. cbn [rmap rbind]. rewrite Hc, Hv.
    unfold sum_usize, u64_add. cbn. rewrite decide_True by done. cbn. by rewrite decide_True.
  - intros [-> | ->] [schema bs] Hr; decide_starts; by rewrite Hr.
  - intros [-> | [-> | [-> | ->]]] e Hr; decide_starts; by rewrite Hr.
Qed.
End Dispatch.

(** ** Announced types and texts that do not agree *)

Section Divergences.
Context `{ArrowLaws}.

(** A 16-bit unsigned column is announced as INT2, which cannot hold its
    larger values. *)
Theorem unsigned_overflows_announced a l k :
  array_view a = AUInt16 l -> l !! k = Some (Some 65535%Z) ->
  column_to_string (E := unit) a k = Ok "65535" /\ arrow_type_to_pg (array_data_type a) = INT2 /\
  parse_int true (- 2 ^ 15) (2 ^ 15 - 1) "65535" = None.
Proof.
  intros Hv Hl. pose proof (array_type_view a) as Ht. rewrite Hv in Ht. cbn in Ht.
  unfold column_to_string, array_is_null, arrow_type_to_pg. rewrite Hv, Ht. cbn.
  unfold present, cell. rewrite Hl. done.
Qed.

(** Every value of a type the printer does not name, a date for one, is sent
    as the text NULL; it is not sent as a null. *)
Theorem unnamed_type_sent_as_text a l k :
  array_view a = AOther l -> l !! k = Some (Some tt) ->
  column_to_string (E := unit) a k = Ok "NULL".
Proof.
  intros Hv Hl. unfold column_to_string, array_is_null. rewrite Hv. cbn.
  unfold present. by rewrite Hl.
Qed.
End Divergences.

(** ** Concrete statements *)

Module PlainPg.

(** An encoder that keeps the fields of the row under construction. *)
#[export] Instance encoder : Encoder := {
  Enc := list (option string);
  DataRow := list (option string);
  encoder_new _ := [];
  encode_field e v := e ++ [v];
  take_row e := (e, []);
  row_fields r := r;
  pending e := e;
}.

#[export] Instance encoder_laws : EncoderLaws (H := encoder).
Proof. by split. Qed.

(** An engine whose state counts statements, and which refuses DROP. *)
Definition counted : Plain.Batch :=
  Plain.mkBatch [("count", TUInt64, false)] [AUInt64 [Some 3%Z]] 1 eq_refl.

Definition run (sql : chars) (w : nat) :
    nat * res string (@Schema Plain.arrow * list (@RecordBatch Plain.arrow)) :=
  if starts (to_uppercase (fun c => [c]) (trim sql)) "DROP" then (S w, Err "no such table")
  else (S w, Ok (Plain.b_schema counted, [counted])).

(** The answer of the handler to a statement given as text. *)
Definition ask (sql : string) (w : nat) : nat * res string (list Response) :=
  do_query (H := Plain.arrow) (H0 := encoder) (fun c => [c]) run (fun e => e) (chars_of sql) w.

Example answers :
  ask "  set x = 1" 0 = (0, Ok [RExecution (mkTag "SET" None)]) /\
  ask "Insert into t values (1)" 0 = (1, Ok [RExecution (mkTag "INSERT" (Some 3%Z))]) /\
  ask "drop table t" 1 = (2, Ok [RError (mkErrorInfo "ERROR" "42000" "no such table")]) /\
  ask "select count from t" 2
    = (3, Ok [RQuery [mkFieldInfo "count" INT8] [[Some "3"]]]).
Proof. vm_compute. auto. Qed.
End PlainPg.

Lemma statement_dispatch_witness :
  do_query (H := Plain.arrow) (H0 := PlainPg.encoder) (fun c => [c]) PlainPg.run (fun e => e)
    (chars_of " " ++ chars_of "Insert" ++ chars_of " into t") 0
  = (1, Ok [RExecution (mkTag "INSERT" (Some 3%Z))]).
Proof.
  apply (proj1 (proj2 (statement_dispatch (H := Plain.arrow) (H0 := PlainPg.encoder) (fun c => [c])
    PlainPg.run (fun e => e) (chars_of " ") (chars_of "Insert") (chars_of " into t") "INSERT" 0 1
    ltac:(repeat constructor)
    ltac:(repeat (apply Forall_cons; split; [unfold ascii_letter; cbn; lia|]); constructor)
    ltac:(discriminate) ltac:(reflexivity))) eq_refl
    (Plain.b_schema PlainPg.counted) PlainPg.counted (AUInt64 [Some 3%Z]) 3%Z).
  - reflexivity.
  - reflexivity.
  - reflexivity.
  - split; vm_compute; discriminate.
Defined.

Lemma pg_rows_faithful_witness :
  exists rows, batches_to_data_rows (H := Plain.arrow) (H0 := PlainPg.encoder) (E := unit)
      [PlainJson.people] [] = Ok rows /\
    Forall2 (data_row_is (H := Plain.arrow))
      [(PlainJson.people, 0); (PlainJson.people, 1)] rows.
Proof.
  apply (pg_rows_faithful (H0 := Plain.arrow_laws) (H2 := PlainPg.encoder_laws) (E := unit)
    [PlainJson.people] []).
  constructor; [exact PlainJson.people_wf|constructor].
Defined.
