(* ===== verification/SqlSession.v ===== *)
(** SQL sessions (crates/sql/src/lib.rs, catalog/mod.rs and udf/version.rs;
    server/src/engine.rs, version.rs and query.rs): the system catalog and the
    version function as they are registered with a DataFusion session, the
    engine that answers queries as JSON, and the sessions of the server.

    DataFusion is not part of the repository: [DataFusion] lists what the
    sources call, [DataFusionLaws] its documented behaviour, [PlainDf] is an
    instance. *)

From Stdlib Require Import String.
From stdpp Require Import base numbers list strings gmap.
From S2P Require Import Prelude.
From S2P Require Import RustText.
From S2P Require Import Arrow.
From S2P Require Import SystemTables.
From S2P Require Import ServerTables.
From S2P Require Import ServerQuery.

Inductive Volatility := Immutable | Stable | Volatile.

(** [ScalarUDF] as [create_udf] makes it; the arguments of the function are
    arrays. *)
Record ScalarUDF `{Arrow} := mkUdf {
  udf_name : string;
  udf_arg_types : list DataType;
  udf_return_type : DataType;
  udf_volatility : Volatility;
  udf_fun : list Array -> Array;
}.
Arguments mkUdf {_} _ _ _ _ _.

(** A setting of [SessionConfig]. *)
Inductive Setting :=
| InformationSchema (b : bool)
| SetStr (key value : string)
| SetBool (key : string) (value : bool).

Class DataFusion `{Arrow} := {
  SessionContext : Type;
  DataFrame : Type;
  MemTable : Type;
  MemorySchemaProvider : Type;
  DfErr : Type;

  ctx_new : SessionContext;
  ctx_with_state : list Setting -> nat -> SessionContext;
  ctx_default_catalog : SessionContext -> string;
  ctx_has_catalog : SessionContext -> string -> bool;
  catalog_register_schema : SessionContext -> string -> string -> MemorySchemaProvider -> res DfErr SessionContext;
  ctx_register_udf : SessionContext -> ScalarUDF -> SessionContext;
  ctx_sql : SessionContext -> string -> res DfErr DataFrame;
  df_collect : DataFrame -> res DfErr (list RecordBatch);

  mem_table_try_new : Schema -> list (list RecordBatch) -> res DfErr MemTable;
  msp_new : MemorySchemaProvider;
  msp_register_table : MemorySchemaProvider -> string -> MemTable -> res DfErr MemorySchemaProvider;

  (** What a statement can reach. *)
  mem_batches : MemTable -> list RecordBatch;
  msp_table : MemorySchemaProvider -> string -> option MemTable;
  ctx_table : SessionContext -> string -> string -> string -> option MemTable;
  ctx_udf : SessionContext -> string -> option ScalarUDF;
  ctx_settings : SessionContext -> list Setting;
  ctx_catalogs : SessionContext -> option nat;
}.

Class DataFusionLaws `{DataFusion} := {
  new_has_default : ctx_has_catalog ctx_new (ctx_default_catalog ctx_new) = true;
  with_state_settings st l : ctx_settings (ctx_with_state st l) = st;
  with_state_catalogs st l : ctx_catalogs (ctx_with_state st l) = Some l;

  register_schema_ok c cat s m : ctx_has_catalog c cat = true ->
    exists c', catalog_register_schema c cat s m = Ok c'
      /\ (forall t, ctx_table c' cat s t = msp_table m t)
      /\ (forall cat' s' t, (cat', s') <> (cat, s) -> ctx_table c' cat' s' t = ctx_table c cat' s' t)
      /\ (forall n, ctx_udf c' n = ctx_udf c n)
      /\ ctx_default_catalog c' = ctx_default_catalog c;

  register_udf_get c u n : ctx_udf (ctx_register_udf c u) n = if decide (n = udf_name u) then Some u else ctx_udf c n;
  register_udf_table c u cat s t : ctx_table (ctx_register_udf c u) cat s t = ctx_table c cat s t;
  register_udf_default c u : ctx_default_catalog (ctx_register_udf c u) = ctx_default_catalog c;
  register_udf_settings c u : ctx_settings (ctx_register_udf c u) = ctx_settings c;
  register_udf_catalogs c u : ctx_catalogs (ctx_register_udf c u) = ctx_catalogs c;

  (** A table of batches of its own schema is accepted. *)
  mem_table_ok s parts : Forall (fun b => batch_schema b = s) (concat parts) ->
    exists t, mem_table_try_new s parts = Ok t /\ mem_batches t = concat parts;

  msp_new_empty n : msp_table msp_new n = None;
  msp_register_fresh m n t : msp_table m n = None ->
    exists m', msp_register_table m n t = Ok m'
      /\ forall n', msp_table m' n' = if decide (n' = n) then Some t else msp_table m n';
  msp_register_taken m n t : is_Some (msp_table m n) -> exists e, msp_register_table m n t = Err e;
}.

(** The failures [anyhow] carries here. *)
Inductive SqlError `{DataFusion} :=
| SqlCatalog (e : AnyError)
| SqlDf (e : DfErr)
| SqlArrow (e : ArrowError)
| SqlMessage (m : string).

Section Session.
Context `{DataFusion} `{Yaml}.

(** [create_session_context]. *)
Definition create_session_context : SessionContext := ctx_new.

(** One round of the loop of [register_system_catalog]. *)
Definition register_def (schema : MemorySchemaProvider) (def : SystemTableDef) : res SqlError MemorySchemaProvider :=
  batch <-- map_err SqlCatalog (build_record_batch def) ;;
  table <-- map_err SqlDf (mem_table_try_new (batch_schema batch) [[batch]]) ;;
  map_err SqlDf (msp_register_table schema (std_name def) table).

(** [register_system_catalog], given what [load_system_table_defs] returns. *)
Definition register_system_catalog (ctx : SessionContext) (defs : res AnyError (list SystemTableDef))
  : res SqlError SessionContext :=
  defs <-- map_err SqlCatalog defs ;;
  schema <-- rfold register_def defs msp_new ;;
  let default_catalog_name := ctx_default_catalog ctx in
  if ctx_has_catalog ctx default_catalog_name
  then map_err SqlDf (catalog_register_schema ctx default_catalog_name "system" schema)
  else Err (SqlMessage "default catalog not found").

(** [VersionInfo] and [register_version_udf]. *)
Record VersionInfo := mkVersionInfo { vi_commit_short : string; vi_build_time : string }.

Definition register_version_udf (ctx : SessionContext) (version : VersionInfo) : res SqlError SessionContext :=
  let value := vi_commit_short version +:+ "-" +:+ vi_build_time version in
  let udf := mkUdf "version" [] dt_Utf8 Immutable (fun _ => array_from (AString [Some value])) in
  Ok (ctx_register_udf ctx udf).

(** [QueryEngine::new]. *)
Definition query_engine_new (build_version : BuildVersion) (defs : res AnyError (list SystemTableDef))
  : res SqlError SessionContext :=
  let ctx := create_session_context in
  ctx <-- register_system_catalog ctx defs ;;
  register_version_udf ctx (mkVersionInfo (commit_short build_version) (build_time build_version)).

(** [execute_query] on a session. *)
Definition query_engine_execute `{Json} (ctx : SessionContext) : string -> res SqlError QueryResponse :=
  execute_query (fun sql =>
    dataframe <-- map_err SqlDf (ctx_sql ctx sql) ;;
    map_err SqlDf (df_collect dataframe)) SqlArrow.

(** [EngineState::session_context]. *)
Definition session_settings : list Setting :=
  [InformationSchema true;
   SetStr "datafusion.catalog.default_catalog" DEFAULT_CATALOG;
   SetStr "datafusion.catalog.default_schema" DEFAULT_SCHEMA;
   SetBool "datafusion.catalog.create_default_catalog_and_schema" false;
   SetStr "datafusion.sql_parser.dialect" "postgres"].

Definition session_context (self : EngineState) : res SqlError SessionContext :=
  let ctx := ctx_with_state session_settings (es_catalog_list self) in
  register_version_udf ctx
    (mkVersionInfo (commit_short (es_build_version self)) (build_time (es_build_version self))).
End Session.

(** [format_version_string]. *)
Definition format_version_string (commit_short build_time : string) : string := commit_short +:+ "-" +:+ build_time.

(** [current_build_version]: what the build script left in the environment. *)
Definition current_build_version (env : string -> option string) : BuildVersion :=
  mkBuildVersion (default "unknown" (env "TODB_GIT_COMMIT_SHORT")) (default "00000000000000" (env "TODB_BUILD_TIME")).

(** ** What is registered *)

Section Correct.
Context {A : Arrow} {AL : ArrowLaws} {D : DataFusion} {DL : DataFusionLaws} {Y : Yaml} {YL : YamlLaws}.
Implicit Types (m : MemorySchemaProvider) (c : SessionContext) (defs : list SystemTableDef).

(** Under its name [m] has the table of the definition. *)
Definition table_of (def : SystemTableDef) (o : option MemTable) : Prop :=
  exists t b, o = Some t /\ mem_batches t = [b] /\ batch_is def b.

(** Definitions from which the catalog can be made. *)
Definition registrable defs : Prop := Forall usable defs /\ NoDup (std_name <$> defs).

Lemma register_def_iff m def :
  (usable def /\ msp_table m (std_name def) = None) <-> exists m', register_def m def = Ok m'.
Proof.
  unfold register_def. split.
  - intros [Hu Hn]. destruct (usable_built def Hu) as [b ->]. cbn [map_err rbind].
    destruct (mem_table_ok (batch_schema b) [[b]]) as (t & -> & _); [by repeat constructor|]. cbn [map_err rbind].
    destruct (msp_register_fresh m (std_name def) t Hn) as (m' & -> & _). by exists m'.
  - intros [m' Hm]. destruct (build_record_batch def) as [b| |] eqn:Hb; [|done|done]. cbn [map_err rbind] in Hm.
    split; [by eapply built_usable|]. destruct (mem_table_try_new _ _) as [t| |]; [|done|done]. cbn [map_err rbind] in Hm.
    apply eq_None_not_Some. intros Hs. destruct (msp_register_taken m (std_name def) t Hs) as [e He].
    by rewrite He in Hm.
Qed.

Lemma register_def_tables m def m' :
  register_def m def = Ok m' ->
  table_of def (msp_table m' (std_name def))
  /\ forall n, n <> std_name def -> msp_table m' n = msp_table m n.
Proof.
  intros Hm. assert (msp_table m (std_name def) = None) as Hn by (apply register_def_iff; eauto).
  unfold register_def in Hm. destruct (build_record_batch def) as [b| |] eqn:Hb; [|done|done]. cbn [map_err rbind] in Hm.
  destruct (mem_table_ok (batch_schema b) [[b]]) as (t & Ht & Hbs); [by repeat constructor|].
  rewrite Ht in Hm. cbn [map_err rbind] in Hm.
  destruct (msp_register_fresh m (std_name def) t Hn) as (m1 & Hm1 & Hget). rewrite Hm1 in Hm. injection Hm as <-.
  split.
  - exists t, b. rewrite Hget, decide_True by done. split_and!; [done|done|by apply batch_is_built].
  - intros n Hne. by rewrite Hget, decide_False.
Qed.

Lemma register_defs_iff defs : forall m,
  (registrable defs /\ Forall (fun def => msp_table m (std_name def) = None) defs)
  <-> exists m', rfold register_def defs m = Ok m'.
Proof.
  induction defs as [|def defs IH]; intros m; simpl.
  { split; [by exists m|]. by repeat constructor. }
  unfold registrable. rewrite !Forall_cons, fmap_cons, NoDup_cons. split.
  - intros [[[Hu HU] [Hnew Hnd]] [Hn HN]]. destruct (proj1 (register_def_iff m def)) as [m1 Hm1]; [done|].
    rewrite Hm1. simpl. apply IH. split; [done|]. apply register_def_tables in Hm1 as [_ Hother].
    rewrite Forall_forall in HN |- *. intros def' Hd. rewrite Hother; [by apply HN|].
    intros Heq. apply Hnew. rewrite <- Heq. by apply list_elem_of_fmap_2.
  - intros [m' Hm']. destruct (register_def m def) as [m1| |] eqn:Hm1; [|done|done]. simpl in Hm'.
    destruct (proj2 (register_def_iff m def)) as [Hu Hn]; [eauto|].
    destruct (proj2 (IH m1)) as [[HU Hnd] HN]; [eauto|]. apply register_def_tables in Hm1 as [(t & b & Ht & _) Hother].
    assert (std_name def ∉ std_name <$> defs) as Hnew.
    { intros (def' & Heq & Hd)%list_elem_of_fmap. rewrite Forall_forall in HN. specialize (HN _ Hd).
      rewrite <- Heq in HN. congruence. }
    split_and!; try done. rewrite Forall_forall in HN |- *. intros def' Hd. rewrite <- Hother; [by apply HN|].
    intros Heq. apply Hnew. rewrite <- Heq. by apply list_elem_of_fmap_2.
Qed.

Lemma register_defs_tables defs : forall m m',
  rfold register_def defs m = Ok m' ->
  Forall (fun def => table_of def (msp_table m' (std_name def))) defs
  /\ forall n, n ∉ std_name <$> defs -> msp_table m' n = msp_table m n.
Proof.
  induction defs as [|def defs IH]; intros m m' Hm'; [by injection Hm' as <-|].
  assert (std_name def ∉ std_name <$> defs) as Hnew.
  { destruct (proj2 (register_defs_iff (def :: defs) m)) as [[_ Hnd] _]; [eauto|].
    rewrite fmap_cons in Hnd. by apply NoDup_cons in Hnd as []. }
  simpl in Hm'. destruct (register_def m def) as [m1| |] eqn:Hm1; [|done|done]. simpl in Hm'.
  apply register_def_tables in Hm1 as [Ht Hother]. destruct (IH _ _ Hm') as [Hall Hrest]. split.
  - constructor; [|done]. by rewrite Hrest.
  - intros n [Hne Hn]%not_elem_of_cons. rewrite Hrest by done. by apply Hother.
Qed.

(** [version()] answers one row with the build's version. *)
Definition answers_version (v : BuildVersion) c : Prop :=
  exists u, ctx_udf c "version" = Some u /\ udf_arg_types u = [] /\ udf_return_type u = dt_Utf8
    /\ forall args, array_view (udf_fun u args)
         = AString [Some (format_version_string (commit_short v) (build_time v))].

Lemma version_registered v c :
  exists c', register_version_udf c (mkVersionInfo (commit_short v) (build_time v)) = Ok c'
    /\ answers_version v c' /\ (forall cat s t, ctx_table c' cat s t = ctx_table c cat s t)
    /\ ctx_default_catalog c' = ctx_default_catalog c
    /\ ctx_settings c' = ctx_settings c /\ ctx_catalogs c' = ctx_catalogs c.
Proof.
  eexists. split; [done|]. split_and!;
    [|intros; apply register_udf_table|apply register_udf_default|apply register_udf_settings|apply register_udf_catalogs].
  eexists. rewrite register_udf_get, decide_True by done. split_and!; [done|done|done|].
  intros args. cbn [udf_fun vi_commit_short vi_build_time]. apply array_view_from. by split.
Qed.

(** C37: A query engine is made exactly from definitions that can all be built and
    have different names. It then serves, in the schema [system] of the default
    catalog, one table per definition with the rows given there and no other
    table, and [version()] answers the commit and the build time. *)
Theorem query_engine_serves v defs :
  (registrable defs <-> exists c, query_engine_new v (Ok defs) = Ok c)
  /\ forall c, query_engine_new v (Ok defs) = Ok c ->
       Forall (fun def => table_of def (ctx_table c (ctx_default_catalog c) "system" (std_name def))) defs
       /\ (forall n, n ∉ std_name <$> defs -> ctx_table c (ctx_default_catalog c) "system" n = None)
       /\ answers_version v c.
Proof.
  unfold query_engine_new, register_system_catalog, create_session_context. cbn [map_err rbind].
  pose proof (register_defs_iff defs msp_new) as Hiff.
  assert (registrable defs <-> exists m, rfold register_def defs msp_new = Ok m) as Hiff'.
  { rewrite <- Hiff. split; [|tauto]. intros Hr. split; [done|]. apply Forall_forall. intros. apply msp_new_empty. }
  rewrite new_has_default. clear Hiff.
  destruct (rfold register_def defs msp_new) as [m|e|] eqn:Hm; cbn [rbind];
    [|split; [rewrite Hiff'; split; intros [? ?]; done|done]..].
  destruct (register_schema_ok ctx_new _ "system" m new_has_default) as (c1 & -> & Htab & _ & _ & Hdef).
  cbn [map_err rbind]. destruct (version_registered v c1) as (c2 & -> & Hv & Hsame & Hd2 & _).
  split; [split; [by exists c2|intros _; apply Hiff'; by exists m]|]. intros c [= <-].
  destruct (register_defs_tables _ _ _ Hm) as [Hall Hrest]. rewrite Hd2, Hdef. split_and!; [| |done].
  - eapply Forall_impl; [exact Hall|]. intros def Hd. cbn. by rewrite Hsame, Htab.
  - intros n Hn. by rewrite Hsame, Htab, Hrest, msp_new_empty.
Qed.

(** Every session of a server that started looks names up in the catalogs of
    the engine, by default under the names its schema is registered with, and
    answers [version()]. *)
Theorem session_ready v loaded w w' e :
  engine_new v loaded w = (w', Ok e) ->
  exists c i, session_context e = Ok c
    /\ ctx_catalogs c = Some (es_catalog_list e)
    /\ SetStr "datafusion.catalog.default_catalog" DEFAULT_CATALOG ∈ ctx_settings c
    /\ SetStr "datafusion.catalog.default_schema" DEFAULT_SCHEMA ∈ ctx_settings c
    /\ engine_schema_provider e w' = Ok (TodbSchema i)
    /\ answers_version v c.
Proof.
  intros He. assert (es_build_version e = v /\ exists i, engine_schema_provider e w' = Ok (TodbSchema i)) as [<- [i Hi]].
  { unfold engine_new in He. destruct (load_system_tables loaded w) as [w1 r].
    destruct r as [l| |]; [|done|done]. cbn [map_err rbind] in He.
    destruct (rfold _ l schema_provider_new) as [sp| |]; [|done|done]. cbn in He. injection He as <- <-.
    split; [done|]. exists (length (w_schemas w1)). unfold engine_schema_provider. cbn.
    rewrite list_lookup_middle by done. cbn. rewrite lookup_insert_eq. cbn.
    rewrite list_lookup_middle by done. cbn. by rewrite lookup_insert_eq. }
  unfold session_context.
  destruct (version_registered (es_build_version e) (ctx_with_state session_settings (es_catalog_list e)))
    as (c & Hc & Hv & _ & _ & Hst & Hcat).
  exists c, i. rewrite Hst, Hcat, with_state_settings, with_state_catalogs. split_and!; [done|done| | |done|done].
  - right. left.
  - right. right. left.
Qed.
End Correct.

(** ** A concrete session *)

Module PlainDf.

Record Ctx := mkCtx {
  settings : list Setting;
  cats : option nat;
  tables : gmap (string * string) (gmap string (list Plain.Batch));
  udfs : gmap string (ScalarUDF (H := Plain.arrow));
}.

Definition put_schema (c : Ctx) (cat s : string) (m : gmap string (list Plain.Batch)) : res string Ctx :=
  Ok (mkCtx (settings c) (cats c) (<[(cat, s) := m]> (tables c)) (udfs c)).

#[export] Instance df : DataFusion (H := Plain.arrow) := {
  SessionContext := Ctx;
  DataFrame := list Plain.Batch;
  MemTable := list Plain.Batch;
  MemorySchemaProvider := gmap string (list Plain.Batch);
  DfErr := string;
  ctx_new := mkCtx [] None ∅ ∅;
  ctx_with_state st l := mkCtx st (Some l) ∅ ∅;
  ctx_default_catalog _ := "datafusion";
  ctx_has_catalog _ n := bool_decide (n = "datafusion");
  catalog_register_schema := put_schema;
  ctx_register_udf c u := mkCtx (settings c) (cats c) (tables c) (<[udf_name u := u]> (udfs c));
  ctx_sql c q := ok_or "no such table" (tables c !! ("datafusion", "system") ≫= fun m => m !! q);
  df_collect l := Ok l;
  mem_table_try_new s parts := Ok (concat parts);
  msp_new := ∅;
  msp_register_table m n t :=
    match m !! n with Some _ => Err "The table already exists" | None => Ok (<[n := t]> m) end;
  mem_batches t := t;
  msp_table m n := m !! n;
  ctx_table c cat s t := tables c !! (cat, s) ≫= fun m => m !! t;
  ctx_udf c n := udfs c !! n;
  ctx_settings := settings;
  ctx_catalogs := cats;
}.

#[export] Instance df_laws : DataFusionLaws (H0 := df).
Proof.
  split; cbn; try done.
  - intros c cat s m Hc. eexists. split; [done|]. cbn. split_and!; try done.
    + intros t. by rewrite lookup_insert_eq.
    + intros cat' s' t Hne. by rewrite lookup_insert_ne by congruence.
  - intros c u n. case_decide as Hn; [subst n; by rewrite lookup_insert_eq|by rewrite lookup_insert_ne].
  - intros s parts _. by eexists.
  - intros m n t ->. eexists. split; [done|]. intros n'. case_decide as Hn.
    + subst n'. by rewrite lookup_insert_eq.
    + by rewrite lookup_insert_ne.
  - intros m n t [x ->]. by eexists.
Qed.
End PlainDf.

Definition is_ok {E A} (r : res E A) : bool := match r with Ok _ => true | _ => false end.

Lemma query_engine_serves_witness :
  exists c, query_engine_new (H0 := PlainDf.df) (mkBuildVersion "abc1234" "20260418215711")
      (Ok [PlainYaml.types_def]) = Ok c
    /\ answers_version (D := PlainDf.df) (mkBuildVersion "abc1234" "20260418215711") c
    /\ table_of (D := PlainDf.df) PlainYaml.types_def
         (ctx_table (DataFusion := PlainDf.df) c "datafusion" "system" "types").
Proof.
  destruct (query_engine_serves (AL := Plain.arrow_laws) (DL := PlainDf.df_laws)
    (YL := PlainYaml.yaml_laws) (mkBuildVersion "abc1234" "20260418215711") [PlainYaml.types_def]) as [_ Hs].
  assert (is_ok (query_engine_new (H0 := PlainDf.df) (mkBuildVersion "abc1234" "20260418215711")
      (Ok [PlainYaml.types_def])) = true) as Hok by (vm_compute; reflexivity).
  destruct (query_engine_new _ _) as [c| |] eqn:Hc; [|discriminate Hok..].
  exists c. split; [reflexivity|]. destruct (Hs c eq_refl) as (Ht & _ & Hv). split; [exact Hv|].
  apply Forall_cons in Ht as [Ht _]. exact Ht.
Defined.

Definition started : World (H := Plain.arrow) * res (EngineError (H := Plain.arrow)) EngineState :=
  engine_new (H := Plain.arrow) (H0 := PlainYaml.yaml) (mkBuildVersion "unknown" "00000000000000")
    (Ok [PlainYaml.types_def]) (mkWorld [] [] [] []).

Lemma session_ready_witness :
  exists e c i, started.2 = Ok e /\ session_context (H0 := PlainDf.df) e = Ok c
    /\ engine_schema_provider (H := Plain.arrow) e started.1 = Ok (TodbSchema i)
    /\ answers_version (D := PlainDf.df) (mkBuildVersion "unknown" "00000000000000") c.
Proof.
  assert (is_ok started.2 = true) as Hok by (vm_compute; reflexivity).
  destruct started.2 as [e| |] eqn:He; [|discriminate Hok..].
  destruct (session_ready (AL := Plain.arrow_laws) (DL := PlainDf.df_laws) (Y := PlainYaml.yaml)
    (mkBuildVersion "unknown" "00000000000000") (Ok [PlainYaml.types_def]) (mkWorld [] [] [] []) started.1 e)
    as (c & i & Hc & _ & _ & _ & Hs & Hv).
  - change (started = (started.1, Ok e)). rewrite <- He. by destruct started.
  - exists e, c, i. split_and!; [reflexivity|assumption..].
Defined.
