(* ===== verification/ServerMain.v ===== *)
(** Starting the server and accepting connections (server/src/main.rs,
    config.rs, client_session.rs, error.rs).

    The environment of the build, the listening socket and the connections it
    yields are arguments: [bind] fails with a message or not, and every call of
    [accept] gives a socket or an error. What a connection then sends is the
    business of [ServerPg]. *)

From Stdlib Require Import String.
From stdpp Require Import base numbers list strings gmap.
From S2P Require Import Prelude.
From S2P Require Import Arrow.
From S2P Require Import SystemTables.
From S2P Require Import ServerTables.
From S2P Require Import SqlSession.

(** [ServerConfig] and its [Default]. *)
Record ServerConfig := mkServerConfig { listen_addr : string }.
Definition server_config_default : ServerConfig := mkServerConfig "127.0.0.1:5432".

(** [ClientSession]. *)
Record ClientSession := mkClientSession { cs_current_database : string }.
Definition client_session_new (current_database : string) : ClientSession := mkClientSession current_database.
Definition current_database (self : ClientSession) : string := cs_current_database self.

(** [ServerError] and its [Display]; an [anyhow::Error] is the text it shows. *)
Inductive ServerError := UnsupportedStatement (s : string) | ServerInternal (text : string).
Definition server_error_display (self : ServerError) : string :=
  match self with UnsupportedStatement s => "unsupported statement: " +:+ s | ServerInternal text => text end.

Section Main.
Context `{Arrow} `{Yaml} {Socket : Type}.

(** [TodbHandlers]: the engine, shared. *)
Record TodbHandlers := mkHandlers { th_engine : EngineState }.

(** A spawned task: [process_socket] on a connection. *)
Record ServeTask := mkTask { task_socket : Socket; task_handlers : TodbHandlers }.

Inductive MainError :=
| EngineFailed (e : EngineError)
| EnginePanicked
| BindFailed (m : string)
| AcceptFailed (m : string).

(** What [main] has done: the tasks it spawned, and how it ended if it did. *)
Record MainRun := mkMainRun { mr_tasks : list ServeTask; mr_end : option MainError }.

(** The loop of [main], as far as connections arrive. *)
Fixpoint accept_loop (handlers : TodbHandlers) (accepts : list (string + Socket)) : MainRun :=
  match accepts with
  | [] => mkMainRun [] None
  | inl m :: _ => mkMainRun [] (Some (AcceptFailed m))
  | inr socket :: rest =>
      let run := accept_loop handlers rest in
      mkMainRun (mkTask socket handlers :: mr_tasks run) (mr_end run)
  end.

(** [main]. *)
Definition server_main (env : string -> option string) (defs : res AnyError (list SystemTableDef))
    (bind : string -> option string) (accepts : list (string + Socket)) (w : World) : World * MainRun :=
  let config := server_config_default in
  let build_version := current_build_version env in
  let '(w, r) := engine_new build_version defs w in
  match r with
  | Err e => (w, mkMainRun [] (Some (EngineFailed e)))
  | Panic => (w, mkMainRun [] (Some EnginePanicked))
  | Ok engine =>
      let handlers := mkHandlers engine in
      match bind (listen_addr config) with
      | Some m => (w, mkMainRun [] (Some (BindFailed m)))
      | None => (w, accept_loop handlers accepts)
      end
  end.

(** The connections that arrive before the first error. *)
Fixpoint before_error (accepts : list (string + Socket)) : list Socket :=
  match accepts with inr s :: rest => s :: before_error rest | _ => [] end.
Fixpoint first_error (accepts : list (string + Socket)) : option string :=
  match accepts with [] => None | inl m :: _ => Some m | inr _ :: rest => first_error rest end.

(** Connections are served one task each, in the order they arrive, all on one
    engine; the first error of [accept] ends the loop, and the process with
    it, whatever could still be accepted. *)
Theorem accept_loop_serves handlers accepts :
  mr_tasks (accept_loop handlers accepts) = (fun s => mkTask s handlers) <$> before_error accepts
  /\ mr_end (accept_loop handlers accepts) = AcceptFailed <$> first_error accepts.
Proof.
  induction accepts as [|[m|s] rest [IH1 IH2]]; [done|done|]. simpl. by rewrite IH1, IH2.
Qed.

(** The server listens only if its system tables could be loaded; it never
    serves on an engine that did not start. *)
Theorem server_main_starts env defs bind accepts w w' run :
  server_main env defs bind accepts w = (w', run) ->
  (exists e, engine_new (current_build_version env) defs w = (w', Ok e)
     /\ bind (listen_addr server_config_default) = None /\ run = accept_loop (mkHandlers e) accepts)
  \/ (mr_tasks run = [] /\ is_Some (mr_end run)).
Proof.
  unfold server_main. destruct (engine_new _ defs w) as [w1 [e|e|]] eqn:He; [|intros [= <- <-]; by right..].
  destruct (bind _) as [m|] eqn:Hb; intros [= <- <-]; [by right|]. left. by exists e.
Qed.

(** One failed [accept] and the connections after it are not served. *)
Corollary one_bad_accept_ends_server handlers (s1 s2 : Socket) m :
  accept_loop handlers [inr s1; inl m; inr s2] = mkMainRun [mkTask s1 handlers] (Some (AcceptFailed m)).
Proof. done. Qed.
End Main.
