(* ===== verification/Observability.v ===== *)
(** The runtime, the metrics, the log subscriber and the request interceptor
    (crates/runtime, crates/observability, crates/rpc).

    Tokio, Prometheus, tracing, OpenTelemetry and tonic are not part of the
    repository: what they answer is an argument or, for the metrics registry,
    the class [Prometheus]. *)

From Stdlib Require Import SpecFloat Ascii String.
From stdpp Require Import base numbers list strings.
From S2P Require Import Prelude.
From S2P Require Import Common.
From S2P Require Import RustText.

(** ** Runtime *)

(** [AsyncRuntime::new]: [create] is the outcome of [Runtime::new]. *)
Definition async_runtime_new {Rt : Type} (create : string + Rt) (_worker_threads : Z) : res Error Rt :=
  match create with
  | inr rt => Ok rt
  | inl e => Err (Known Internal ("failed to create tokio runtime: " +:+ e))
  end.

(** ** Metrics *)

Class Prometheus := {
  HistogramVec : Type;
  IntCounter : Type;
  IntGauge : Type;
  Registry : Type;
  registry_new : Registry;
  exponential_buckets : spec_float -> spec_float -> nat -> string + list spec_float;
  histogram_vec_new : string -> string -> list spec_float -> list string -> string + HistogramVec;
  int_counter_new : string -> string -> string + IntCounter;
  int_gauge_new : string -> string -> string + IntGauge;
  Collector : Type;
  of_histogram : HistogramVec -> Collector;
  of_counter : IntCounter -> Collector;
  of_gauge : IntGauge -> Collector;
  register : Registry -> Collector -> string + Registry;
  (** The names a collector exposes, and those a registry gathers. *)
  collector_name : Collector -> string;
  registry_names : Registry -> list string;
}.

(** The names Prometheus accepts: letters, digits, underscores and colons, no
    digit first. *)
Definition name_char (first : bool) (c : ascii) : bool :=
  let n := Ascii.N_of_ascii c in
  bool_decide (65 <= n <= 90 \/ 97 <= n <= 122 \/ n = 95 \/ n = 58 \/ (first = false /\ 48 <= n <= 57))%N.
Fixpoint name_rest (s : string) : bool :=
  match s with EmptyString => true | String c s' => name_char false c && name_rest s' end.
Definition valid_name (s : string) : bool :=
  match s with EmptyString => false | String c s' => name_char true c && name_rest s' end.

Class PrometheusLaws `{Prometheus} := {
  registry_new_empty : registry_names registry_new = [];
  buckets_ok s f n : 0 < n -> SFltb (S754_zero false) s = true -> SFltb (round_decimal 53 1024 false 1 0) f = true ->
    exists l, exponential_buckets s f n = inr l;
  histogram_ok name help buckets labels :
    valid_name name = true -> help <> "" -> Forall (fun l => valid_name l = true) labels ->
    exists h, histogram_vec_new name help buckets labels = inr h /\ collector_name (of_histogram h) = name;
  counter_ok name help : valid_name name = true -> help <> "" ->
    exists c, int_counter_new name help = inr c /\ collector_name (of_counter c) = name;
  gauge_ok name help : valid_name name = true -> help <> "" ->
    exists g, int_gauge_new name help = inr g /\ collector_name (of_gauge g) = name;
  register_fresh r c : collector_name c ∉ registry_names r ->
    exists r', register r c = inr r' /\ registry_names r' = registry_names r ++ [collector_name c];
}.

Section Metrics.
Context `{Prometheus}.

Record MetricsCollector := mkMetrics {
  registry : Registry;
  rpc_duration : HistogramVec;
  rpc_requests_total : IntCounter;
  rpc_active : IntGauge;
  memory_allocated : IntGauge;
}.

(** [.map_err(|e| Error::Known { code: Internal, message })]. *)
Definition internal {A : Type} (what : string) (r : string + A) : res Error A :=
  match r with inr a => Ok a | inl e => Err (Known Internal (what +:+ ": " +:+ e)) end.

Definition sf (m e : Z) : spec_float := round_decimal 53 1024 false m e.

(** [MetricsCollector::new]. *)
Definition metrics_new : res Error MetricsCollector :=
  buckets <-- match exponential_buckets (sf 1 (-3)) (sf 2 0) 16 with inr l => Ok l | inl _ => Panic end ;;
  rpc_duration <-- internal "failed to create rpc_duration metric"
    (histogram_vec_new "todb_rpc_duration_seconds" "RPC request duration" buckets ["method"; "status"]) ;;
  rpc_requests_total <-- internal "failed to create rpc_requests_total metric"
    (int_counter_new "todb_rpc_requests_total" "Total number of RPC requests") ;;
  rpc_active <-- internal "failed to create rpc_active metric"
    (int_gauge_new "todb_rpc_active" "Number of active RPC requests") ;;
  memory_allocated <-- internal "failed to create memory_allocated metric"
    (int_gauge_new "todb_memory_allocated_bytes" "Total allocated memory") ;;
  r <-- internal "failed to register rpc_duration" (register registry_new (of_histogram rpc_duration)) ;;
  r <-- internal "failed to register rpc_requests_total" (register r (of_counter rpc_requests_total)) ;;
  r <-- internal "failed to register rpc_active" (register r (of_gauge rpc_active)) ;;
  r <-- internal "failed to register memory_allocated" (register r (of_gauge memory_allocated)) ;;
  Ok (mkMetrics r rpc_duration rpc_requests_total rpc_active memory_allocated).
End Metrics.

(** The collector can always be made, and its registry gathers the four
    metrics of the node under different names. *)
Theorem metrics_registered `{PrometheusLaws} :
  exists m, metrics_new = Ok m /\ registry_names (registry m)
    = ["todb_rpc_duration_seconds"; "todb_rpc_requests_total"; "todb_rpc_active"; "todb_memory_allocated_bytes"].
Proof.
  unfold metrics_new. destruct (buckets_ok (sf 1 (-3)) (sf 2 0) 16) as [l ->]; [lia|reflexivity..|]. cbn [rbind].
  destruct (histogram_ok "todb_rpc_duration_seconds" "RPC request duration" l ["method"; "status"])
    as (h & -> & Hh); [done|done|by repeat constructor|]. cbn [internal rbind].
  destruct (counter_ok "todb_rpc_requests_total" "Total number of RPC requests") as (c & -> & Hc); [done|done|].
  cbn [internal rbind].
  destruct (gauge_ok "todb_rpc_active" "Number of active RPC requests") as (g & -> & Hg); [done|done|].
  cbn [internal rbind].
  destruct (gauge_ok "todb_memory_allocated_bytes" "Total allocated memory") as (g' & -> & Hg'); [done|done|].
  cbn [internal rbind].
  destruct (register_fresh registry_new (of_histogram h)) as (r1 & -> & H1); [rewrite registry_new_empty; apply not_elem_of_nil|].
  rewrite registry_new_empty, Hh in H1. cbn [internal rbind app] in *.
  destruct (register_fresh r1 (of_counter c)) as (r2 & -> & H2); [rewrite H1, Hc; by apply (bool_decide_unpack _)|].
  rewrite H1, Hc in H2. cbn [internal rbind app] in *.
  destruct (register_fresh r2 (of_gauge g)) as (r3 & -> & H3); [rewrite H2, Hg; by apply (bool_decide_unpack _)|].
  rewrite H2, Hg in H3. cbn [internal rbind app] in *.
  destruct (register_fresh r3 (of_gauge g')) as (r4 & -> & H4); [rewrite H3, Hg'; by apply (bool_decide_unpack _)|].
  rewrite H3, Hg' in H4. cbn [internal rbind app] in *. by eexists.
Qed.

(** A registry that only knows names. *)
Module PlainProm.
Definition named (name help : string) : string + string :=
  if valid_name name && bool_decide (help <> "") then inr name else inl "invalid name or help".

#[export] Instance prom : Prometheus := {
  HistogramVec := string; IntCounter := string; IntGauge := string; Registry := list string; Collector := string;
  registry_new := [];
  exponential_buckets s f n := inr (replicate n s);
  histogram_vec_new name help _ labels := if forallb valid_name labels then named name help else inl "invalid label";
  int_counter_new := named;
  int_gauge_new := named;
  of_histogram n := n; of_counter n := n; of_gauge n := n;
  register r c := if bool_decide (c ∈ r) then inl "Duplicate metrics collector registration attempted" else inr (r ++ [c]);
  collector_name c := c;
  registry_names r := r;
}.

#[export] Instance prom_laws : PrometheusLaws.
Proof.
  assert (forall n h, valid_name n = true -> h <> "" -> exists x, named n h = inr x /\ x = n) as Hn.
  { intros n h Hv Hh. unfold named. rewrite Hv, bool_decide_true by done. by exists n. }
  split; cbn; eauto.
  - intros name help _ labels Hv Hh Hl. replace (forallb valid_name labels) with true; [by apply Hn|].
    symmetry. apply forallb_forall. intros x Hx. rewrite Forall_forall in Hl. by apply Hl, list_elem_of_In.
  - intros r c Hc. rewrite bool_decide_false by done. by eexists.
Qed.

(** A second collector in the same registry would be refused. *)
Example second_registration_fails :
  match metrics_new with Ok m => register (registry m) (of_gauge (rpc_active m)) | _ => inr [] end
  = inl "Duplicate metrics collector registration attempted".
Proof. reflexivity. Qed.
End PlainProm.

(** ** Logging and tracing *)

Record ObservabilityConfig := mkObsConfig {
  service_name : string;
  log_level : string;
  log_format : string;
  enable_otlp : bool;
  otlp_endpoint : option string;
  enable_prometheus : bool;
  prometheus_listen_addr : option string;
}.

Section Tracing.
Context `{Prometheus} {Exporter Tracer : Type}.

(** [TracerProvider::build_otlp]; [build_exporter] connects to the endpoint,
    [tracer_of] is the provider with the service's name as its resource. *)
Definition build_otlp (build_exporter : string -> string + Exporter)
    (tracer_of : Exporter -> list (string * string) -> string -> Tracer) (endpoint service : string)
  : res Error Tracer :=
  match build_exporter endpoint with
  | inl e => Err (Known CodeConfig ("failed to build OTLP exporter: " +:+ e))
  | inr exporter => Ok (tracer_of exporter [("service.name", service)] "todb")
  end.

(** The global subscriber: the filter's directives, the format of the log
    lines and the tracer. *)
Record Subscriber := mkSubscriber { sub_filter : string; sub_json : bool; sub_tracer : option Tracer }.

(** [init_observability]: [env_filter] is the filter of the environment, if it
    has a valid one; [init] panics when a subscriber is installed already. *)
Definition init_observability (config : ObservabilityConfig) (env_filter : option string)
    (otlp : string -> string -> res Error Tracer) (global : option Subscriber)
  : option Subscriber * res Error MetricsCollector :=
  let filter := default (log_level config) env_filter in
  let tracer :=
    if enable_otlp config then
      match otlp (default "http://localhost:4317" (otlp_endpoint config)) (service_name config) with
      | Ok t => Some t
      | _ => None
      end
    else None in
  let sub := mkSubscriber filter (bool_decide (log_format config = "json")) tracer in
  match global with
  | Some _ => (global, Panic)
  | None => (Some sub, metrics_new)
  end.
End Tracing.

(** Observability starts whatever the environment and the tracing backend
    answer: a bad filter falls back to the configured level and an exporter
    that cannot be built is left out. Started twice, it panics and keeps the
    first subscriber. *)
Theorem observability_starts `{PrometheusLaws} {Tracer} config env_filter (otlp : string -> string -> res Error Tracer) :
  exists sub m, init_observability config env_filter otlp None = (Some sub, Ok m)
    /\ sub_filter sub = default (log_level config) env_filter
    /\ (is_Some (sub_tracer sub) -> enable_otlp config = true)
    /\ forall config' env' otlp', init_observability config' env' otlp' (Some sub) = (Some sub, Panic).
Proof.
  destruct metrics_registered as (m & Hm & _). unfold init_observability. rewrite Hm.
  eexists _, m. split_and!; [done|done| |done]. simpl. destruct (enable_otlp config); [done|]. by intros [].
Qed.

(** ** Requests *)

Definition TRACE_ID_HEADER : string := "x-todb-trace-id".

(** [MetadataValue::to_str]: visible ASCII only. *)
Definition visible (c : ascii) : bool :=
  let n := Ascii.N_of_ascii c in bool_decide ((32 <= n < 127)%N \/ n = 9%N).
Fixpoint all_visible (s : string) : bool :=
  match s with EmptyString => true | String c s' => visible c && all_visible s' end.

(** [TraceInterceptor::call]: the identifier it logs, and the request, which
    it passes on as it came. *)
Definition intercept {Request : Type} (metadata : Request -> string -> option string) (new_uuid : string)
    (request : Request) : string * Request :=
  let trace_id :=
    match metadata request TRACE_ID_HEADER with
    | Some v => if all_visible v then v else new_uuid
    | None => new_uuid
    end in
  (trace_id, request).
