(* ===== verification/AllocStats.v ===== *)
(** Allocator statistics (crates/memory/src/allocator.rs): six readings of the
    allocator and the line that shows them.

    The allocator is not part of the repository: a reading is a number or an
    error. Megabytes are shown with one digit after the point, as Rust formats
    a float with a precision: the exact value of the float, rounded to the
    nearest tenth, ties to even. *)

From Stdlib Require Import String.
From stdpp Require Import base numbers list strings pretty.
From S2P Require Import Prelude.

Record AllocStats := mkAllocStats {
  allocated : Z;
  active : Z;
  resident : Z;
  mapped : Z;
  metadata : Z;
  retained : Z;
}.

(** What [epoch::advance] and the [stats] readers answer. *)
Record Readings := mkReadings {
  r_allocated : option Z;
  r_active : option Z;
  r_resident : option Z;
  r_mapped : option Z;
  r_metadata : option Z;
  r_retained : option Z;
}.

(** [Allocator::stats]: [advance] is the effect of refreshing the epoch, whose
    failure is ignored. *)
Definition alloc_stats (advance : Readings -> option Readings) (now : Readings) : AllocStats :=
  let r := default now (advance now) in
  mkAllocStats (default 0%Z (r_allocated r)) (default 0%Z (r_active r)) (default 0%Z (r_resident r))
    (default 0%Z (r_mapped r)) (default 0%Z (r_metadata r)) (default 0%Z (r_retained r)).

(** [n / d] to the nearest integer, ties to even. *)
Definition div_nearest (n d : Z) : Z :=
  let q := (n / d)%Z in
  match (2 * (n mod d) ?= d)%Z with
  | Lt => q
  | Gt => q + 1
  | Eq => if Z.even q then q else q + 1
  end%Z.

(** [n as f64]: integers of more than 53 bits are rounded. *)
Definition f64_of_u64 (n : Z) : Z :=
  if decide (n < 2 ^ 53)%Z then n
  else let e := (Z.log2 n - 52)%Z in (div_nearest n (2 ^ e) * 2 ^ e)%Z.

(** [{:.1}] of [n as f64 / 1_048_576.0]; the division by a power of two is
    exact. *)
Definition tenths_of_mb (n : Z) : Z := div_nearest (10 * f64_of_u64 n) (2 ^ 20).
Definition mb_text (n : Z) : string :=
  pretty (tenths_of_mb n / 10)%Z +:+ "." +:+ pretty (tenths_of_mb n mod 10)%Z +:+ "MB".

(** [Display for AllocStats]. *)
Definition alloc_stats_display (s : AllocStats) : string :=
  "allocated=" +:+ mb_text (allocated s) +:+ " active=" +:+ mb_text (active s) +:+
  " resident=" +:+ mb_text (resident s) +:+ " mapped=" +:+ mb_text (mapped s) +:+
  " metadata=" +:+ mb_text (metadata s) +:+ " retained=" +:+ mb_text (retained s).

Lemma div_nearest_close n d : (0 < d)%Z -> (2 * Z.abs (n - d * div_nearest n d) <= d)%Z.
Proof.
  intros Hd. unfold div_nearest. pose proof (Z.div_mod n d ltac:(lia)) as Hn. pose proof (Z.mod_pos_bound n d Hd).
  set (q := (n / d)%Z) in *. set (r := (n mod d)%Z) in *. clearbody q r.
  destruct (Z.compare_spec (2 * r) d) as [He|Hl|Hg]; [destruct (Z.even q)| |]; lia.
Qed.

(** A reading below 2^53 bytes is shown within a twentieth of a megabyte. *)
Theorem mb_text_close n :
  (0 <= n < 2 ^ 53)%Z -> (20 * Z.abs (10 * n - 2 ^ 20 * tenths_of_mb n) <= 10 * 2 ^ 20)%Z.
Proof.
  intros Hn. unfold tenths_of_mb, f64_of_u64. rewrite decide_True by lia.
  pose proof (div_nearest_close (10 * n) (2 ^ 20)). lia.
Qed.

(** A failed reading counts as zero; 2.25 MB is shown as 2.2. *)
Example stats_line :
  alloc_stats_display (alloc_stats (fun _ => None) (mkReadings (Some 2359296%Z) None (Some 524288%Z) (Some 0%Z) None (Some 1048576%Z)))
  = "allocated=2.2MB active=0.0MB resident=0.5MB mapped=0.0MB metadata=0.0MB retained=1.0MB".
Proof. reflexivity. Qed.
